(* ===== verification/_CoqProject ===== *)
-Q . S2P
Prelude.v
Text.v
Core.v
SecurityPolicy.v
Durable.v
DurableSpec.v
DurableCodec.v
DurableFs.v
DurableProps.v
Subagent.v
SubagentGraph.v
SubagentInv.v
SubagentRun.v
SubagentProps.v
RunTypes.v
Approvals.v
Codec.v
CodecProps.v
Compaction.v
Runner.v
RunnerLogic.v
RunnerPairs.v
RunnerAuth.v
RunnerTurns.v
RunnerEnd.v
RunnerExample.v
RunnerProps.v
Checkpoint.v
RunnerDurable.v
RunnerDurableProps.v
StoredStore.v
StoredStoreProps.v
StoredStoreFs.v
GoMigration.v
GoMigrationProps.v
CompactionProps.v
Chars.v
Shell.v
ShellProps.v
ShellPolicy.v
ShellPolicyProps.v
ShellAgree.v
PatchHunks.v
PatchHunksProps.v
PatchSearch.v
PatchRangeLess.v
PatchParse.v
PatchParseProps.v
PatchFs.v
PatchTxn.v
PatchFsProps.v
EditTool.v
EditToolProps.v
ProjectState.v
ProjectStore.v
ProjectReplay.v
ProjectSpec.v
ProjectExample.v
ProjectProps.v
ProjectPurge.v
ProjectRetain.v
ProjectLog.v
ProjectLogProps.v
McpNames.v
McpConfig.v
McpContent.v
McpClient.v
McpManager.v
McpLogic.v
McpOps.v
McpSession.v
McpAuth.v
McpExample.v
McpProps.v
McpManagerProps.v
Sse.v
SseProps.v
Output.v
OutputProps.v
ShellBuffer.v
