(* ===== verification/Prelude.v ===== *)
(** * ADK verification: root file

    A verification of the core of the agent development kit (the Rust crates
    under [src/crates]).  The definitions follow the functions of the source, name
    by name; the libraries the source calls (serde, chrono, the operating system,
    models and tools) are arguments, and what is assumed of them is a class of
    laws.

    ** The program and its parts

    A host gives an agent a request.  The runner alternates model turns and tool
    phases until the agent answers, asks for an approval, or runs out of a budget;
    it compacts the history when that grows too long, and may delegate to children
    under a scheduler.  At every boundary of the run it can write a checkpoint to
    a durable store, from which another process takes the run over.  Tools act on
    a workspace; a patch is one of them, and others are offered by MCP servers.  What
    they print is bounded before it reaches the model.  A project keeps its tasks and
    memories in a log of events.

    - Contracts (adk-core): [Core], [RunTypes].
    - Policies (adk-security/policy.rs, the security half of
      adk-runtime/subagent.rs): [SecurityPolicy].
    - Shell commands (adk-security/shell.rs): [Shell], [ShellProps], on [Chars];
      the guard the shell tool puts before them (adk-tools/shell_policy.rs):
      [ShellPolicy], [ShellPolicyProps], [ShellAgree].
    - Durable runs (adk-durable): [Durable] (records, effects, preparation of an
      append), [DurableCodec] (versions, encryption), [DurableSpec] (what a
      [RunStore] promises), [DurableFs] (filesystem.rs), [DurableProps].
    - Child scheduler (adk-runtime/subagent.rs): [Subagent] (the code),
      [SubagentGraph] (the acyclicity check), [SubagentInv], [SubagentRun] and
      [SubagentProps] (runs of an owner and its handles).
    - Agent runner (adk-runtime/runner.rs): [Runner] (the code, a state and error
      monad over the record [Outside]), [RunnerLogic] (a program logic for it),
      [RunnerPairs], [RunnerAuth], [RunnerTurns], [RunnerEnd], [RunnerExample],
      [RunnerProps].
    - Approvals and the wire (adk-runtime/compat.rs, adk-codec): [Approvals],
      [Codec], [CodecProps].
    - Compaction (adk-runtime/compaction.rs): [Compaction], [CompactionProps].
    - Checkpoints (adk-runtime/durable.rs): [Checkpoint], [RunnerDurable],
      [RunnerDurableProps].  A durable run is a run of [Runner] whose world also
      holds the store; its operations are those of [Outside].  [StoredStore] is the
      adapter to a [RunStore], [StoredStoreProps] its properties over any store with
      the laws of [DurableSpec], [StoredStoreFs] the filesystem store as one;
      [GoMigration] and [GoMigrationProps] take over checkpoints of the Go runtime.
    - Patch tool (adk-tools/patch.rs, patch_parse.rs, patch_hunks.rs, patch_fs.rs):
      [PatchParse], [PatchHunks], [PatchFs] (the code), [PatchParseProps],
      [PatchHunksProps], [PatchSearch], [PatchRangeLess], [PatchTxn],
      [PatchFsProps], on the UTF-8 check of [Text].
    - Edit and Write tools (adk-tools/edit.rs, write.rs): [EditTool], [EditToolProps],
      on the file system of [PatchFs].
    - Project state (adk-project-state): [ProjectState] and [ProjectStore] (the
      code), [ProjectReplay], [ProjectSpec] (the contract of a backend),
      [ProjectExample], [ProjectProps], [ProjectPurge], [ProjectRetain]; its
      filesystem backend (fs_txn.rs): [ProjectLog], [ProjectLogProps].
    - MCP client (adk-mcp/client.rs, config.rs, names.rs, tools.rs, lib.rs):
      [McpConfig], [McpNames], [McpContent] (what a server sends),
      [McpClient] (the code, over the record [Outside], with a trace of what it
      does), [McpManager]; [McpLogic], [McpOps], [McpSession], [McpAuth] (a program
      logic and its rules), [McpExample], [McpProps], [McpManagerProps].
    - Tool output: [Output], [OutputProps] (adk-runtime/output.rs), [ShellBuffer]
      (adk-tools/shell_buffer.rs).
    - Event streams of providers (adk-providers/sse.rs): [Sse], [SseProps].

    ** What the theorems show

    - Safety of a run: every executed tool is one its agent offers, allowed by the
      policy and approved when it must be ([RunnerProps.executions_authorised]); a
      policy that is composed, narrowed or resumed grants nothing more
      ([SecurityPolicy], [SubagentProps.child_security]); a command classified as
      reading only runs programs that read ([ShellProps]).  The shell tool's guard
      refuses a restricted command wherever the wrappers, nesting and quoting it
      understands put it ([ShellPolicyProps]), and reads plain commands as the
      classifier does ([ShellAgree]).
    - Well-formed histories: every call is answered once, in a run, after a
      resumption, after a compaction ([RunnerProps.run_answers_calls],
      [CompactionProps]), and histories survive the wire ([CodecProps]).
    - Termination and bounds: a run ends and takes at most its turns
      ([RunnerProps.run_terminates], [model_calls_bounded]); the scheduler always
      has something it can dispatch ([SubagentProps.dispatch_progress]).
    - Durability: the filesystem store refines the contract of a store under faults
      ([DurableFs.fs_refines]); a takeover of its leases fences the old owner
      ([DurableFs.takeover_fences]), the log only grows ([DurableSpec]); a recovered run repeats no dispatched effect
      ([RunnerDurableProps.recovery_never_replays]); what the adapter acknowledges
      is in the store, once and in order ([StoredStoreProps]), and a migrated Go
      checkpoint is recovered with its history ([GoMigrationProps]).
    - The scheduler's checkpoints keep their invariant, through restarts under any
      configurations that leave the security of each task as it was, and each of them is
      accepted by a restart under the configuration it was committed under ([SubagentProps]).
    - A patch is applied as a whole or not at all, whatever system call fails, and
      does to a file what its hunks say ([PatchFsProps], [PatchHunksProps],
      [PatchSearch], [PatchRangeLess]); the parser accepts well-formed patches only
      ([PatchParseProps]).  An edit of a file replaces what it names and nothing else,
      and an edit or a write that fails changes no file ([EditToolProps]).
    - Each operation on the project state appends one event that does what the
      operation says, over any backend that keeps its contract ([ProjectProps]);
      purging and retiring forget what they must and nothing else; the filesystem
      backend keeps the contract, and an append that fails half way is undone or
      finished by the next ([ProjectLogProps]).
    - An MCP client calls only what its server listed, its policies let through and
      its host approved, and never uses a session again after an answer that is not
      conclusive ([McpProps]); the names a manager offers are distinct and each leads
      to the tool it stands for ([McpManagerProps]).
    - Tool output is kept within its cap, as long a start and end of it as the cap and
      the bounds of characters allow ([OutputProps]); a read of a shell's buffer gives what
      is new, or its end with a gap reported ([ShellBuffer]); the event-stream
      decoder does not depend on how its input is cut ([SseProps]).

    ** Fuel

    Loops of the code that are not structural run on fuel, and what bounds them is
    proved or evident: [generate_id] tries one more name than there are records;
    [drain_graph] has one round per record and [climb] one step per record;
    [dispatch_loop] one per free slot; [validate_agent] more than the number of
    agents ([validate_agent_spec] says it is enough); the fuel of [advance] exists
    for every run ([run_terminates]); [model_loop] has one more than the turns left
    ([model_loop_enough]); [gate_calls] one more than its queue
    ([RunnerEnd.gate_calls_total]);
    [sequence_loop] and [find_locator] one more than the bytes of the file;
    [EditTool.resolve_from] one more than the parts of the path;
    the parsers of patches one more than the lines ([parse_well_formed] says the
    parser never runs out); [ShellPolicy.check] the 64 nestings of the code and
    one; [ShellPolicy.tokenize] one more than the characters ([tokenize_enough]);
    [unwrap] one more than the total length of the words ([unwrap_done]);
    [McpClient.pages_loop] the pages the configuration allows; [McpContent] validates
    a value to the depth the code allows; [Output.ceil_boundary] the length of the
    text.
    [visit_agents] takes its fuel as an argument.

    ** What is not modelled

    The Postgres store (SQL), the providers but for their event streams, the
    transports of MCP and its server (I/O and the formats of other programs), the
    snapshot of an MCP configuration file and the text of a result, the sandbox
    (system calls), the language-server, Git and search tools (drivers of other
    programs), the binaries and the platform glue.  Of modelled parts: tracing, the wording of errors where nothing
    depends on it, permissions and links of the file system, the diff in the
    report of an edit, the ranking of
    recalled memories (floating point) with the prompt made from it
    ([prime_context]), the statistics of memories, and the SQLite backend of the
    project state.  Instants are integers; overflow is modelled
    where the code checks or saturates it. *)

From stdpp Require Export base tactics numbers list option strings gmap sorting.

#[global] Set Default Goal Selector "!".

(** ** Fallible computations: Rust's [Result<A, E>] and the [?] operator *)

Inductive result (E A : Type) : Type :=
| Ok (a : A)
| Err (e : E).
Arguments Ok {_ _} _.
Arguments Err {_ _} _.

#[global] Instance result_ret {E} : MRet (result E) := λ A a, Ok a.
#[global] Instance result_bind {E} : MBind (result E) := λ A B f m,
  match m with
  | Ok a => f a
  | Err e => Err e
  end.
#[global] Instance result_fmap {E} : FMap (result E) := λ A B f m,
  match m with
  | Ok a => Ok (f a)
  | Err e => Err e
  end.

Definition is_ok {E A} (m : result E A) : bool :=
  match m with Ok _ => true | Err _ => false end.

(** [if !cond { return Err(e) }] *)
Definition ensure {E} (b : bool) (e : E) : result E unit :=
  if b then Ok tt else Err e.

(** [option.ok_or_else(|| e)] *)
Definition ok_or {E A} (o : option A) (e : E) : result E A :=
  match o with Some a => Ok a | None => Err e end.

(** [for x in l { f(x)?; }] threading a state. *)
Fixpoint foldM {E A S} (f : S → A → result E S) (s : S) (l : list A) : result E S :=
  match l with
  | [] => Ok s
  | a :: l => match f s a with Ok s' => foldM f s' l | Err e => Err e end
  end.

(** [l.into_iter().map(f).collect::<Result<Vec<_>, _>>()] *)
Fixpoint mapR {E A B} (f : A → result E B) (l : list A) : result E (list B) :=
  match l with
  | [] => Ok []
  | a :: l =>
      match f a with
      | Ok b => match mapR f l with Ok bs => Ok (b :: bs) | Err e => Err e end
      | Err e => Err e
      end
  end.

Section result_lemmas.
Context {E A B : Type}.
Implicit Types (m : result E A) (f : A → result E B).

Lemma bind_Ok f m b :
  (m ≫= f) = Ok b ↔ ∃ a, m = Ok a ∧ f a = Ok b.
Proof. destruct m; naive_solver. Qed.
Lemma ensure_Ok (c : bool) (e : E) u : ensure c e = Ok u ↔ c = true.
Proof. destruct c, u; naive_solver. Qed.
Lemma ensure_Err (c : bool) (e e' : E) : ensure c e = Err e' ↔ c = false ∧ e = e'.
Proof. destruct c; naive_solver. Qed.
Lemma ok_or_Ok (o : option A) (e : E) a : ok_or o e = Ok a ↔ o = Some a.
Proof. destruct o; naive_solver. Qed.
Lemma is_ok_Ok m : is_ok m = true ↔ ∃ a, m = Ok a.
Proof. destruct m; naive_solver. Qed.
Lemma Ok_inj (a a' : A) : @Ok E A a = Ok a' → a = a'.
Proof. by intros [= ->]. Qed.
Lemma mapR_Ok (g : A → result E B) l bs :
  mapR g l = Ok bs ↔ Forall2 (λ a b, g a = Ok b) l bs.
Proof.
  revert bs. induction l as [|a l IH]; intros bs; simpl.
  - split; [intros [= <-]; constructor | by intros ->%Forall2_nil_inv_l].
  - split.
    + destruct (g a) eqn:?, (mapR g l); try done. intros [= <-].
      constructor; [done|]. by apply IH.
    + intros (b & bs' & Hb & H%IH & ->)%Forall2_cons_inv_l. by rewrite Hb, H.
Qed.
End result_lemmas.

Section foldM_lemmas.
Context {E A S : Type} (f : S → A → result E S).

Lemma foldM_app s l k :
  foldM f s (l ++ k) = match foldM f s l with Ok s' => foldM f s' k | Err e => Err e end.
Proof. revert s. induction l as [|a l IH]; intros s; simpl; [done|]. by destruct (f s a). Qed.

(** Invariant rule for a fallible loop. *)
Lemma foldM_inv (P : S → Prop) s l s' :
  P s → (∀ s a s', a ∈ l → P s → f s a = Ok s' → P s') →
  foldM f s l = Ok s' → P s'.
Proof.
  revert s. induction l as [|a l IH]; simpl; intros s Hs Hf.
  - by intros [= <-].
  - destruct (f s a) as [s1|] eqn:Hs1; [|done]. apply IH.
    + eapply Hf, Hs1; [left|done].
    + intros; eapply Hf; [by right| |]; done.
Qed.
End foldM_lemmas.

(** [l.iter().enumerate()], the index then ignored. *)
Lemma imap_pair_bind {A B} (g : A → list B) (l : list A) :
  (imap (λ i e, (i, e)) l ≫= λ ie, g ie.2) = l ≫= g.
Proof.
  assert (∀ n, (imap (λ i e, (n + i, e)) l ≫= λ ie, g ie.2) = l ≫= g) as Hg.
  { induction l as [|e l IH]; intros n; simpl; [done|]. f_equal.
    etrans; [|apply (IH (S n))]. f_equal. apply imap_ext. intros. simpl. f_equal. lia. }
  apply (Hg 0).
Qed.

(** A filter by a boolean function, and the distinct elements of a list. *)
Lemma elem_of_List_filter {A} (f : A → bool) l x : x ∈ List.filter f l ↔ x ∈ l ∧ f x = true.
Proof. by rewrite !list_elem_of_In, filter_In. Qed.
(** The values of a [BTreeMap], in the order of the keys. *)
Definition values {A} (m : gmap string A) : list A :=
  omap (λ k, m !! k) (merge_sort String.le (elements (dom m))).
Lemma elem_of_values {A} (m : gmap string A) x : x ∈ values m ↔ ∃ k, m !! k = Some x.
Proof.
  unfold values. rewrite list_elem_of_omap. split; [naive_solver|]. intros [k Hk]. exists k.
  split; [|done]. rewrite merge_sort_Permutation, elem_of_elements. by apply elem_of_dom.
Qed.
Lemma size_list_to_set_le (l : list string) : size (list_to_set l : gset string) ≤ length l.
Proof.
  induction l as [|x l IH]; [done|]. cbn [list_to_set length].
  rewrite size_union_alt, size_singleton.
  pose proof (subseteq_size (list_to_set l ∖ {[x]}) (list_to_set l : gset string)
    ltac:(set_solver)). lia.
Qed.

(** Break every [Ok]-valued bind chain of the context into its steps. *)
Ltac inv_ok :=
  repeat match goal with
  | H : (_ ≫= _) = Ok _ |- _ => apply bind_Ok in H as (? & ? & ?)
  | H : mbind _ _ = Ok _ |- _ => apply bind_Ok in H as (? & ? & ?)
  | H : ensure _ _ = Ok _ |- _ => apply ensure_Ok in H
  | H : ok_or _ _ = Ok _ |- _ => apply ok_or_Ok in H
  | H : Ok _ = Ok _ |- _ => apply Ok_inj in H; try subst
  | H : mret _ = Ok _ |- _ => apply Ok_inj in H; try subst
  | H : Err _ = Ok _ |- _ => discriminate H
  | H : Ok _ = Err _ |- _ => discriminate H
  | H : (_, _) = (_, _) |- _ => apply pair_equal_spec in H as [? ?]; try subst
  | u : unit |- _ => destruct u
  end.

(** Identify the values a deterministic computation returned twice. *)
Ltac det :=
  repeat match goal with
  | H1 : ?x = Ok _, H2 : ?x = Ok _ |- _ =>
      rewrite H1 in H2; apply Ok_inj in H2; simplify_eq
  | H1 : ?x = Some _, H2 : ?x = Some _ |- _ => rewrite H1 in H2; simplify_eq
  end.

(** Apply a lemma to the first hypothesis it fits. *)
Ltac fwd lem :=
  match goal with H : _ |- _ => apply lem in H end.

(** Turn the boolean connectives of the context into logical ones. *)
Ltac bools :=
  repeat match goal with
  | H : _ && _ = true |- _ => apply andb_true_iff in H as [? ?]
  | H : _ || _ = false |- _ => apply orb_false_iff in H as [? ?]
  | H : negb _ = true |- _ => apply negb_true_iff in H
  | H : negb _ = false |- _ => apply negb_false_iff in H
  | H : bool_decide _ = true |- _ => apply bool_decide_eq_true in H
  | H : bool_decide _ = false |- _ => apply bool_decide_eq_false in H
  | H : (_ <=? _)%N = true |- _ => apply N.leb_le in H
  | H : (_ <=? _)%N = false |- _ => apply N.leb_gt in H
  | H : (_ <? _)%N = true |- _ => apply N.ltb_lt in H
  | H : (_ <? _)%N = false |- _ => apply N.ltb_ge in H
  | H : (_ =? _)%N = true |- _ => apply N.eqb_eq in H
  | H : (_ =? _)%N = false |- _ => apply N.eqb_neq in H
  | H : (_ <=? _)%Z = true |- _ => apply Z.leb_le in H
  | H : (_ <=? _)%Z = false |- _ => apply Z.leb_gt in H
  | H : (_ <? _)%Z = true |- _ => apply Z.ltb_lt in H
  | H : (_ <? _)%Z = false |- _ => apply Z.ltb_ge in H
  | H : (_ =? _)%Z = true |- _ => apply Z.eqb_eq in H
  | H : (_ =? _)%Z = false |- _ => apply Z.eqb_neq in H
  | H : (_ <=? _)%nat = true |- _ => apply Nat.leb_le in H
  | H : (_ <=? _)%nat = false |- _ => apply Nat.leb_gt in H
  | H : (_ <? _)%nat = true |- _ => apply Nat.ltb_lt in H
  | H : (_ <? _)%nat = false |- _ => apply Nat.ltb_ge in H
  | H : (_ =? _)%nat = true |- _ => apply Nat.eqb_eq in H
  | H : (_ =? _)%nat = false |- _ => apply Nat.eqb_neq in H
  | H : String.eqb _ _ = true |- _ => apply String.eqb_eq in H
  | H : String.eqb _ _ = false |- _ => apply String.eqb_neq in H
  end.

(** ** Machine-width unsigned integers

    A [u64] is an [N]; the operations below are the ones the code calls.
    [usize] is a [u64] on every supported target. *)

Definition u64_max : N := (2 ^ 64 - 1)%N.
Definition i64_max : Z := (2 ^ 63 - 1)%Z.
Definition u32_max : N := (2 ^ 32 - 1)%N.

(** [u64::checked_add], [u64::saturating_sub], [u64::saturating_add] and
    [u32::checked_add]. *)
Definition checked_add (a b : N) : option N :=
  if (a + b <=? u64_max)%N then Some (a + b)%N else None.
Definition saturating_sub (a b : N) : N := (a - b)%N.
Definition saturating_add (a b : N) : N := N.min (a + b) u64_max.
Definition checked_add32 (a b : N) : option N :=
  if (a + b <=? u32_max)%N then Some (a + b)%N else None.

Lemma checked_add_Some a b c :
  checked_add a b = Some c ↔ c = (a + b)%N ∧ (a + b ≤ u64_max)%N.
Proof.
  unfold checked_add. destruct (N.leb_spec (a + b) u64_max); split;
    try intros [= <-]; try intros [-> ?]; try done; lia.
Qed.
Lemma checked_add_None a b : checked_add a b = None ↔ (u64_max < a + b)%N.
Proof.
  unfold checked_add. destruct (N.leb_spec (a + b) u64_max); split;
    try done; lia.
Qed.
Lemma checked_add32_Some a b c :
  checked_add32 a b = Some c ↔ c = (a + b)%N ∧ (a + b ≤ u32_max)%N.
Proof.
  unfold checked_add32. destruct (N.leb_spec (a + b) u32_max); split;
    try intros [= <-]; try intros [-> ?]; try done; lia.
Qed.

(** [inv_ok] that also resolves checked additions. *)
Ltac inv_add :=
  inv_ok;
  repeat match goal with
  | H : checked_add _ _ = Some _ |- _ => apply checked_add_Some in H as [? ?]; subst
  | H : checked_add32 _ _ = Some _ |- _ => apply checked_add32_Some in H as [? ?]; subst
  end.

(** ** Optional limits: [None] is "no limit" *)

(** [Option::is_some_and] and [Option::is_none_or] on a boolean test. *)
Definition is_some_and {A} (o : option A) (p : A → bool) : bool :=
  match o with Some a => p a | None => false end.
Definition is_none_or {A} (o : option A) (p : A → bool) : bool :=
  match o with Some a => p a | None => true end.

(** ** Vectors searched and updated by a key

    [iter().find(p)] and [iter_mut().find(p)]: the first match. *)
Fixpoint update_first {E A} (p : A → bool) (f : A → result E A) (missing : E)
    (l : list A) : result E (list A) :=
  match l with
  | [] => Err missing
  | a :: l =>
      if p a then match f a with Ok a' => Ok (a' :: l) | Err e => Err e end
      else match update_first p f missing l with
           | Ok l' => Ok (a :: l')
           | Err e => Err e
           end
  end.

Section update_first.
Context {E A : Type} (p : A → bool) (f : A → result E A) (e : E).

(** A successful update rewrites exactly one element, the first match. *)
Lemma update_first_Ok l l' :
  update_first p f e l = Ok l' ↔
  ∃ pre a a' post, l = pre ++ a :: post ∧ l' = pre ++ a' :: post ∧
    Forall (λ x, p x = false) pre ∧ p a = true ∧ f a = Ok a'.
Proof.
  split.
  - revert l'. induction l as [|x l IH]; intros l'; simpl; [done|].
    destruct (p x) eqn:Hx.
    + destruct (f x) as [a'|] eqn:?; [|done]. intros [= <-].
      by exists [], x, a', l.
    + destruct (update_first p f e l) as [k|] eqn:?; [|done]. intros [= <-].
      destruct (IH k) as (pre & a & a' & post & -> & -> & ? & ? & ?); [done|].
      exists (x :: pre), a, a', post. by repeat split; try constructor.
  - intros (pre & a & a' & post & -> & -> & Hpre & Ha & Hf).
    induction Hpre as [|x pre Hx _ IH]; simpl.
    + by rewrite Ha, Hf.
    + by rewrite Hx, IH.
Qed.

Lemma update_first_length l l' :
  update_first p f e l = Ok l' → length l' = length l.
Proof.
  intros (pre & a & a' & post & -> & -> & _)%update_first_Ok.
  by rewrite !length_app.
Qed.

(** What every element satisfied, every element satisfies after the update. *)
Lemma update_first_Forall (P : A → Prop) l l' :
  Forall P l → (∀ a a', a ∈ l → P a → p a = true → f a = Ok a' → P a') →
  update_first p f e l = Ok l' → Forall P l'.
Proof.
  intros HP Hf (pre & a & a' & post & -> & -> & _ & Ha & Hfa)%update_first_Ok.
  rewrite Forall_app, Forall_cons in *. destruct HP as (? & ? & ?).
  split_and!; try done. eapply Hf; eauto. set_solver.
Qed.

(** A projection the update keeps is kept pointwise over the whole vector. *)
Lemma update_first_map {B} (g : A → B) l l' :
  (∀ a a', p a = true → f a = Ok a' → g a' = g a) →
  update_first p f e l = Ok l' → g <$> l' = g <$> l.
Proof.
  intros Hg (pre & a & a' & post & -> & -> & _ & Ha & Hfa)%update_first_Ok.
  by rewrite !fmap_app, !fmap_cons, (Hg a a').
Qed.
End update_first.

(** ** State-passing computations that can fail

    [SE S E A]: a method with a mutable receiver of type [S] returning
    [Result<A, E>].  An error keeps the state reached when it occurred. *)

Definition SE (S E A : Type) : Type := S → result E A * S.

#[global] Instance SE_ret {S E} : MRet (SE S E) := λ A a s, (Ok a, s).
#[global] Instance SE_bind {S E} : MBind (SE S E) := λ A B f m s,
  match m s with
  | (Ok a, s') => f a s'
  | (Err e, s') => (Err e, s')
  end.

Section SE_ops.
Context {S E : Type}.
Definition lift {A} (r : result E A) : SE S E A := λ s, (r, s).
Definition fail {A} (e : E) : SE S E A := λ s, (Err e, s).
Definition get : SE S E S := λ s, (Ok s, s).
Definition put (s' : S) : SE S E unit := λ _, (Ok tt, s').
End SE_ops.

Section SE_lemmas.
Context {S E A B : Type}.
Implicit Types (m : SE S E A) (f : A → SE S E B) (s : S).

Lemma SE_bind_Ok f m s b s' :
  (m ≫= f) s = (Ok b, s') ↔ ∃ a s1, m s = (Ok a, s1) ∧ f a s1 = (Ok b, s').
Proof.
  unfold mbind, SE_bind. destruct (m s) as [[a|e] s1]; split.
  - intros Hf. by exists a, s1.
  - by intros (? & ? & [= <- <-] & ?).
  - done.
  - by intros (? & ? & ? & _).
Qed.
Lemma SE_bind_Err f m s e s' :
  (m ≫= f) s = (Err e, s') ↔
  m s = (Err e, s') ∨ ∃ a s1, m s = (Ok a, s1) ∧ f a s1 = (Err e, s').
Proof.
  unfold mbind, SE_bind. destruct (m s) as [[a|e'] s1]; split.
  - intros Hf. right. by exists a, s1.
  - intros [?|(? & ? & [= <- <-] & ?)]; done.
  - intros [= -> ->]. by left.
  - intros [[= -> ->]|(? & ? & ? & _)]; done.
Qed.
End SE_lemmas.

(** [inv_ok] for state-passing computations. *)
Ltac inv_se :=
  repeat match goal with
  | H : (_ ≫= _) _ = (Ok _, _) |- _ => apply SE_bind_Ok in H as (? & ? & ? & ?)
  | H : lift _ _ = (Ok _, _) |- _ => unfold lift in H
  | H : lift _ _ = (Err _, _) |- _ => unfold lift in H
  | H : get _ = _ |- _ => unfold get in H
  | H : put _ _ = _ |- _ => unfold put in H
  | H : mret _ _ = _ |- _ => unfold mret, SE_ret in H
  | H : fail _ _ = _ |- _ => unfold fail in H
  | H : (_, _) = (_, _) |- _ => apply pair_equal_spec in H as [? ?]; subst
  end; inv_ok.
