(* ===== verification/Text.v ===== *)
(** * Text: the operations on Rust [str] the code uses

    A Rust string is the [string] of its UTF-8 bytes.  The operations are
    defined on the byte list ([bytes]); on valid UTF-8 they agree with the
    character-based standard-library methods they model. *)

From Stdlib Require Export Ascii.
From stdpp Require Import pretty.
From S2P Require Import Prelude.

Notation bytes := String.list_ascii_of_string.
Notation of_bytes := String.string_of_list_ascii.

(** [u8] values of the bytes. *)
Notation byte_val := Ascii.N_of_ascii.

Lemma of_bytes_bytes s : of_bytes (bytes s) = s.
Proof. apply String.string_of_list_ascii_of_string. Qed.
Lemma bytes_of_bytes l : bytes (of_bytes l) = l.
Proof. apply String.list_ascii_of_string_of_list_ascii. Qed.
#[export] Instance bytes_inj : Inj (=) (=) bytes.
Proof. intros s t H. by rewrite <-(of_bytes_bytes s), H, of_bytes_bytes. Qed.
#[export] Instance of_bytes_inj : Inj (=) (=) of_bytes.
Proof. intros s t H. by rewrite <-(bytes_of_bytes s), H, bytes_of_bytes. Qed.

Lemma bytes_app s t : bytes (s +:+ t) = bytes s ++ bytes t.
Proof. induction s as [|c s IH]; simpl; [done|]. by rewrite IH. Qed.
Lemma of_bytes_app l k : of_bytes (l ++ k) = of_bytes l +:+ of_bytes k.
Proof. apply (inj bytes). by rewrite bytes_app, !bytes_of_bytes. Qed.
Lemma length_bytes s : length (bytes s) = String.length s.
Proof. induction s; simpl; congruence. Qed.

#[export] Instance append_inj_l t : Inj (=) (=) (λ s, s +:+ t).
Proof. intros s s' H%(f_equal bytes). rewrite !bytes_app in H. by simplify_list_eq. Qed.
#[export] Instance append_inj_r t : Inj (=) (=) (λ s, t +:+ s).
Proof. intros s s' H%(f_equal bytes). rewrite !bytes_app in H. by simplify_list_eq. Qed.

(** ** Byte classes *)

Definition in_range (lo hi : N) (c : ascii) : bool :=
  (lo <=? byte_val c)%N && (byte_val c <=? hi)%N.
(** [u8::is_ascii_alphanumeric]. *)
Definition is_ascii_digit : ascii → bool := in_range 48 57.
Definition is_ascii_alphanumeric (c : ascii) : bool :=
  is_ascii_digit c || in_range 65 90 c || in_range 97 122 c.

(** [u8::to_ascii_lowercase] and [str::eq_ignore_ascii_case]. *)
Definition lower_ascii (c : ascii) : ascii :=
  if in_range 65 90 c then ascii_of_N (byte_val c + 32) else c.
Definition eq_ignore_ascii_case (a b : string) : bool :=
  bool_decide (lower_ascii <$> bytes a = lower_ascii <$> bytes b).

(** ** Prefixes, suffixes and substrings *)

Fixpoint starts_with (p l : list ascii) : bool :=
  match p, l with
  | [], _ => true
  | a :: p, b :: l => Ascii.eqb a b && starts_with p l
  | _, _ => false
  end.

Lemma starts_with_spec p l : starts_with p l = true ↔ p `prefix_of` l.
Proof.
  revert l. induction p as [|a p IH]; intros l; simpl.
  - split; [intros _; apply prefix_nil|done].
  - destruct l as [|b l].
    + split; [done|]. intros ?%prefix_nil_inv. done.
    + rewrite andb_true_iff, Ascii.eqb_eq, IH. split.
      * intros [-> ?]. by apply prefix_cons.
      * intros H. split; [by apply prefix_cons_inv_1 in H|by apply prefix_cons_inv_2 in H].
Qed.

(** [str::strip_prefix]. *)
Definition strip_prefix (p s : string) : option string :=
  if starts_with (bytes p) (bytes s)
  then Some (of_bytes (drop (String.length p) (bytes s))) else None.
(** [str::strip_suffix]. *)
Definition strip_suffix (p s : string) : option string :=
  if starts_with (rev (bytes p)) (rev (bytes s))
  then Some (of_bytes (take (String.length s - String.length p) (bytes s))) else None.

Lemma strip_prefix_Some p s r : strip_prefix p s = Some r ↔ s = p +:+ r.
Proof.
  unfold strip_prefix. destruct (starts_with _ _) eqn:Hs; split.
  - intros [= <-]. apply starts_with_spec in Hs as [k Hk].
    apply (inj bytes). rewrite bytes_app, bytes_of_bytes, Hk, <-length_bytes.
    by rewrite drop_app_length.
  - intros ->. by rewrite bytes_app, <-length_bytes, drop_app_length, of_bytes_bytes.
  - done.
  - intros ->. apply not_true_iff_false in Hs. destruct Hs.
    apply starts_with_spec. rewrite bytes_app. by apply prefix_app_r.
Qed.

Lemma strip_suffix_Some p s r : strip_suffix p s = Some r ↔ s = r +:+ p.
Proof.
  unfold strip_suffix. destruct (starts_with _ _) eqn:Hs; split.
  - intros [= <-]. apply starts_with_spec in Hs as [k Hk].
    apply (f_equal (@rev ascii)) in Hk. rewrite rev_app_distr, !rev_involutive in Hk.
    apply (inj bytes). rewrite bytes_app, bytes_of_bytes, Hk, <-!length_bytes, Hk.
    by rewrite length_app, Nat.add_sub, take_app_length.
  - intros ->. rewrite bytes_app, <-!length_bytes, bytes_app, length_app, Nat.add_sub,
      take_app_length. by rewrite of_bytes_bytes.
  - done.
  - intros ->. apply not_true_iff_false in Hs. destruct Hs.
    apply starts_with_spec. rewrite bytes_app, rev_app_distr. by apply prefix_app_r.
Qed.

(** [str::contains] for a substring. *)
Fixpoint contains (p l : list ascii) : bool :=
  starts_with p l || match l with [] => false | _ :: l => contains p l end.

(** ** [str::trim]

    The number of bytes of the [White_Space] character that begins the list,
    0 when it begins with something else. *)
Definition white_len (l : list ascii) : nat :=
  match byte_val <$> take 3 l with
  | b0 :: rest =>
      if ((9 <=? b0) && (b0 <=? 13) || (b0 =? 32))%N then 1%nat
      else match rest with
      | b1 :: rest =>
          if ((b0 =? 194) && ((b1 =? 133) || (b1 =? 160)))%N then 2%nat
          else match rest with
          | b2 :: _ =>
              if ((b0 =? 225) && (b1 =? 154) && (b2 =? 128)
                  || (b0 =? 226) && (b1 =? 128)
                     && ((128 <=? b2) && (b2 <=? 138) || (b2 =? 168) || (b2 =? 169) || (b2 =? 175))
                  || (b0 =? 226) && (b1 =? 129) && (b2 =? 159)
                  || (b0 =? 227) && (b1 =? 128) && (b2 =? 128))%N
              then 3%nat else 0%nat
          | [] => 0%nat
          end
      | [] => 0%nat
      end
  | [] => 0%nat
  end.

(** The same for the character that ends the list, given reversed. *)
Definition white_len_rev (l : list ascii) : nat :=
  if (white_len (take 1 l) =? 1)%nat then 1%nat
  else if (white_len (rev (take 2 l)) =? 2)%nat then 2%nat
  else if (white_len (rev (take 3 l)) =? 3)%nat then 3%nat
  else 0%nat.

Fixpoint trim_by (len : list ascii → nat) (fuel : nat) (l : list ascii) : list ascii :=
  match fuel, len l with
  | S fuel, S n => trim_by len fuel (drop (S n) l)
  | _, _ => l
  end.

Definition trim_start (l : list ascii) : list ascii := trim_by white_len (length l) l.
Definition trim_end (l : list ascii) : list ascii :=
  rev (trim_by white_len_rev (length l) (rev l)).
Definition trim (s : string) : string := of_bytes (trim_end (trim_start (bytes s))).

Example trim_1 : trim "  a b
 " = "a b".
Proof. reflexivity. Qed.

(** ** UTF-8 boundaries *)

(** [u8 as i8 >= -0x40]: the byte begins a character. *)
Definition is_lead (c : ascii) : bool :=
  negb ((128 <=? byte_val c)%N && (byte_val c <? 192)%N).

(** [str::is_char_boundary]. *)
Definition is_char_boundary (l : list ascii) (i : nat) : bool :=
  (i =? 0)%nat || (i =? length l)%nat
  || match l !! i with Some c => is_lead c | None => false end.

(** [chars().count()] and [chars().take(n)]. *)
Definition char_count (l : list ascii) : nat := length (filter (λ c, is_lead c = true) l).
Fixpoint take_chars (n : nat) (l : list ascii) : list ascii :=
  match l with
  | [] => []
  | c :: l =>
      if is_lead c then match n with O => [] | S n => c :: take_chars n l end
      else c :: take_chars n l
  end.

(** [str::replace] of one ASCII character by another. *)
Definition replace_char (a b : ascii) (l : list ascii) : list ascii :=
  (λ c, if Ascii.eqb c a then b else c) <$> l.

(** [str::split(c)] for an ASCII separator. *)
Fixpoint split_on (sep : ascii) (l : list ascii) : list (list ascii) :=
  match l with
  | [] => [[]]
  | c :: l =>
      if Ascii.eqb c sep then [] :: split_on sep l
      else match split_on sep l with
           | w :: ws => (c :: w) :: ws
           | [] => [[c]]
           end
  end.

(** [str::split_once(c)] for an ASCII separator. *)
Fixpoint split_once (sep : ascii) (l : list ascii) : option (list ascii * list ascii) :=
  match l with
  | [] => None
  | c :: l =>
      if Ascii.eqb c sep then Some ([], l)
      else match split_once sep l with Some (a, b) => Some (c :: a, b) | None => None end
  end.

Lemma split_once_Some sep l a b :
  split_once sep l = Some (a, b) ↔ l = a ++ sep :: b ∧ sep ∉ a.
Proof.
  revert a b. induction l as [|c l IH]; intros a b; simpl.
  - split; [done|]. intros [? _]. by destruct a.
  - destruct (Ascii.eqb_spec c sep) as [->|Hne].
    + split; [intros [= <- <-]; set_solver|].
      intros [Hl Hn]. destruct a; simplify_list_eq; [done|set_solver].
    + destruct (split_once sep l) as [[a' b']|] eqn:Hs; split.
      * intros [= <- <-]. destruct (proj1 (IH a' b') eq_refl) as [-> ?]. set_solver.
      * intros [Hl Hn]. destruct a as [|x a]; simplify_list_eq.
        assert (Some (a', b') = Some (a, b)) as [= -> ->]; [|done]. apply IH. set_solver.
      * done.
      * intros [Hl Hn]. destruct a as [|x a]; simplify_list_eq.
        enough (None = Some (a, b)) by done. apply IH. set_solver.
Qed.

(** [split_whitespace] *)
Fixpoint words_go (fuel : nat) (word l : list ascii) : list (list ascii) :=
  let flush := if bool_decide (word = []) then [] else [word] in
  match fuel, l with
  | S fuel, c :: t =>
      match white_len l with
      | O => words_go fuel (word ++ [c]) t
      | S n => flush ++ words_go fuel [] (drop (S n) l)
      end
  | _, _ => flush
  end.
Definition split_whitespace (l : list ascii) : list (list ascii) := words_go (S (length l)) [] l.

(** ** The check of [std::str::from_utf8]: the byte sequences of Unicode scalar
    values; no overlong form, no surrogate, nothing above U+10FFFF *)

Definition cont : ascii → bool := in_range 128 191.

(** The ranges of the first two bytes of the longer forms. *)
Definition lead2 : ascii → bool := in_range 194 223.
Definition lead3 (a b : ascii) : bool :=
  (in_range 224 224 a && in_range 160 191 b) || (in_range 225 236 a && cont b)
  || (in_range 237 237 a && in_range 128 159 b) || (in_range 238 239 a && cont b).
Definition lead4 (a b : ascii) : bool :=
  (in_range 240 240 a && in_range 144 191 b) || (in_range 241 243 a && cont b)
  || (in_range 244 244 a && in_range 128 143 b).

Fixpoint valid_utf8 (l : list ascii) : bool :=
  match l with
  | [] => true
  | a :: t =>
      (in_range 0 127 a && valid_utf8 t)
      || match t with
         | b :: t =>
             (lead2 a && cont b && valid_utf8 t)
             || match t with
                | c :: t =>
                    (lead3 a b && cont c && valid_utf8 t)
                    || match t with
                       | d :: t => lead4 a b && cont c && cont d && valid_utf8 t
                       | [] => false
                       end
                | [] => false
                end
         | [] => false
         end
  end.
