(* ===== verification/Core.v ===== *)
(** * Core: the shared contracts of [crates/adk-core]

    Data types of [types.rs], [policy.rs] and [error.rs], the pre-execution
    tool authorization [ToolPolicy::decision] and the cancellation check
    [Context::check_active].  [serde_json::Value] is an opaque type parameter:
    no operation modelled here looks inside a value. *)

From S2P Require Import Prelude.

(** ** Errors ([error.rs]) *)

Inductive ErrorCategory :=
| Cancelled | DeadlineExceeded | InvalidInput | PermissionDenied
| ApprovalDenied | Unsupported | Provider | ModelBehavior | Tool | Host
| Guardrail | MaxTurns | Internal.
#[export] Instance ErrorCategory_eq_dec : EqDecision ErrorCategory.
Proof. solve_decision. Defined.

(** [Error] without its non-serialized [source]. *)
Record Error := mkError { category : ErrorCategory; message : string }.
#[export] Instance Error_eq_dec : EqDecision Error.
Proof. solve_decision. Defined.

(** ** Messages, calls and run items ([types.rs]) *)

Inductive Role := System | Developer | User | Assistant.
#[export] Instance Role_eq_dec : EqDecision Role.
Proof. solve_decision. Defined.

Inductive Content :=
| Text (text : string)
| Image (uri media_type : string)
| Attachment (media_type data detail : string)
| Audio (uri media_type : string)
| File (uri media_type : string)
| ContentReasoning (text : string) (signature : option string).
#[export] Instance Content_eq_dec : EqDecision Content.
Proof. solve_decision. Defined.

Record Message := mkMessage { role : Role; content : list Content }.
#[export] Instance Message_eq_dec : EqDecision Message.
Proof. solve_decision. Defined.

Record ToolOutput := mkToolOutput {
  output_content : list Content;
  is_error : bool;
  should_pause : bool;
}.
#[export] Instance ToolOutput_eq_dec : EqDecision ToolOutput.
Proof. solve_decision. Defined.

Record Reasoning := mkReasoning {
  reasoning_id : string;
  reasoning_text : string;
  signature : string;
  redacted_data : string;
  encrypted_content : string;
}.
#[export] Instance Reasoning_eq_dec : EqDecision Reasoning.
Proof. solve_decision. Defined.

Record Compaction := mkCompaction {
  compaction_id : string;
  compaction_content : string;
  compaction_encrypted_content : string;
  created_by : string;
}.
#[export] Instance Compaction_eq_dec : EqDecision Compaction.
Proof. solve_decision. Defined.

Section items.
(** [serde_json::Value]. *)
Context {Value : Type}.

Record ToolCall := mkToolCall {
  call_id : string;
  call_name : string;
  arguments : Value;
}.

Inductive RunItem :=
| ItemMessage (message : Message)
| ItemPhasedMessage (message : Message) (phase : string)
| ItemToolCall (call : ToolCall)
| ItemToolResult (call_id : string) (output : ToolOutput)
| ItemHandoff (call_id agent : string)
| ItemReasoning (reasoning : Reasoning)
| ItemCompaction (compaction : Compaction).
End items.
Arguments ToolCall : clear implicits.
Arguments RunItem : clear implicits.

(** ** Policies ([policy.rs]) *)

Inductive AccessMode := ReadOnly | WorkspaceWrite | FullAccess.
#[export] Instance AccessMode_eq_dec : EqDecision AccessMode.
Proof. solve_decision. Defined.

Inductive ApprovalPolicy := RequiredByTool | All.
#[export] Instance ApprovalPolicy_eq_dec : EqDecision ApprovalPolicy.
Proof. solve_decision. Defined.

Inductive ToolDecision := Deny | RequireApproval | Allow.
#[export] Instance ToolDecision_eq_dec : EqDecision ToolDecision.
Proof. solve_decision. Defined.

(** A [Duration] is its number of nanoseconds. *)
Record ToolPolicy := mkToolPolicy {
  access : AccessMode;
  allowed_tools : option (gset string);
  denied_tools : gset string;
  allowed_mutating_tools : gset string;
  approval : ApprovalPolicy;
  timeout : option N;
}.
#[export] Instance ToolPolicy_eq_dec : EqDecision ToolPolicy.
Proof. solve_decision. Defined.

(** [#[derive(Default)]] of [ToolPolicy]. *)
Definition default_tool_policy : ToolPolicy :=
  mkToolPolicy ReadOnly None ∅ ∅ RequiredByTool None.

(** [ToolDefinition]; the schema is kept in its serialized form. *)
Record ToolDefinition := mkToolDefinition {
  tool_name : string;
  description : string;
  input_schema : string;
  read_only : bool;
  requires_approval : bool;
}.

(** [ToolPolicy::decision]. *)
Definition decision (self : ToolPolicy) (tool : ToolDefinition) : ToolDecision :=
  if bool_decide (tool_name tool ∈ denied_tools self)
     || is_some_and (allowed_tools self)
          (λ names, negb (bool_decide (tool_name tool ∈ names)))
     || (bool_decide (access self = ReadOnly)
         && negb (read_only tool)
         && negb (bool_decide (tool_name tool ∈ allowed_mutating_tools self)))
  then Deny
  else if requires_approval tool || bool_decide (approval self = All)
  then RequireApproval
  else Allow.

Inductive ToolUseBehavior := Continue | StopAfterTool.
#[export] Instance ToolUseBehavior_eq_dec : EqDecision ToolUseBehavior.
Proof. solve_decision. Defined.

(** [max_turns] is a [NonZeroU32]. *)
Record RunPolicy := mkRunPolicy {
  max_turns : N;
  tools : ToolPolicy;
  tool_use : ToolUseBehavior;
}.
#[export] Instance RunPolicy_eq_dec : EqDecision RunPolicy.
Proof. solve_decision. Defined.

Definition default_run_policy : RunPolicy :=
  mkRunPolicy 100 default_tool_policy Continue.

(** ** Operation boundary ([contracts.rs]) *)

(** What [Context::check_active] observes: whether the owner cancelled and
    the deadline (monotonic nanoseconds). *)
Record Context := mkContext {
  run_id : string;
  is_cancelled : bool;
  deadline : option N;
}.

(** [Context::check_active]; [now] is [Instant::now()]. *)
Definition check_active (now : N) (self : Context) : result Error unit :=
  if is_cancelled self then Err (mkError Cancelled "operation cancelled")
  else if is_some_and (deadline self) (λ d, (d <=? now)%N)
  then Err (mkError DeadlineExceeded "deadline exceeded")
  else Ok tt.

(** ** Decisions ordered by permissiveness *)

Definition decision_rank (d : ToolDecision) : nat :=
  match d with Deny => 0 | RequireApproval => 1 | Allow => 2 end.
Definition decision_min (d1 d2 : ToolDecision) : ToolDecision :=
  if (decision_rank d1 <=? decision_rank d2)%nat then d1 else d2.
(** [d1] grants no more than [d2]. *)
Definition decision_le (d1 d2 : ToolDecision) : Prop :=
  (decision_rank d1 ≤ decision_rank d2)%nat.

(** A tool name passes the name and access gates of a policy. *)
Definition permitted (self : ToolPolicy) (tool : ToolDefinition) : Prop :=
  tool_name tool ∉ denied_tools self ∧
  (∀ names, allowed_tools self = Some names → tool_name tool ∈ names) ∧
  (access self = ReadOnly → read_only tool = true ∨
     tool_name tool ∈ allowed_mutating_tools self).

#[export] Instance permitted_dec self tool : Decision (permitted self tool).
Proof.
  unfold permitted. apply and_dec; [apply _|]. apply and_dec; [|apply _].
  destruct (allowed_tools self) as [names|].
  - destruct (decide (tool_name tool ∈ names)); [left|right]; naive_solver.
  - left; naive_solver.
Defined.

Definition needs_approval (self : ToolPolicy) (tool : ToolDefinition) : bool :=
  requires_approval tool || bool_decide (approval self = All).

(** [decision] read declaratively. *)
Lemma decision_spec self tool :
  decision self tool =
    if decide (permitted self tool)
    then if needs_approval self tool then RequireApproval else Allow
    else Deny.
Proof.
  unfold decision, permitted, needs_approval.
  destruct self as [acc al de mu ap ti], tool as [nm ds sc ro ra]; simpl.
  repeat case_bool_decide; destruct al as [names|]; simpl;
    repeat case_bool_decide; destruct ro; simpl; repeat case_decide; naive_solver.
Qed.

Lemma decision_le_refl d : decision_le d d.
Proof. unfold decision_le; lia. Qed.
Lemma decision_le_trans d1 d2 d3 :
  decision_le d1 d2 → decision_le d2 d3 → decision_le d1 d3.
Proof. unfold decision_le; lia. Qed.
#[export] Instance decision_le_preorder : PreOrder decision_le.
Proof. split; [exact decision_le_refl | exact decision_le_trans]. Qed.

(** A policy that permits less and asks for approval more grants less. *)
Lemma decision_le_intro p q t :
  (permitted p t → permitted q t) →
  (needs_approval q t = true → needs_approval p t = true) →
  decision_le (decision p t) (decision q t).
Proof.
  intros H1 H2. rewrite !decision_spec. unfold decision_le.
  repeat case_decide; destruct (needs_approval p t), (needs_approval q t);
    simpl; naive_solver lia.
Qed.
