(* ===== verification/SecurityPolicy.v ===== *)
(** * SecurityPolicy: composing and narrowing tool policies

    [crates/adk-security/src/policy.rs] (the host's [SecurityPolicy] and its
    [compose]) and the security half of
    [crates/adk-runtime/src/subagent.rs] ([SecurityBaseline::narrow] and
    [allows_resume_under]).  Both combine two [ToolPolicy] values; the theorems
    say what the combination grants in terms of what its parts grant. *)

From S2P Require Import Prelude Core.

(** ** [crates/adk-security/src/policy.rs] *)

Record SecurityPolicy := mkSecurityPolicy {
  policy_tools : ToolPolicy;
  git_remote_writes : bool;
  allow_network : bool;
  approve_mutations : bool;
}.

Definition clamp_access (requested ceiling : AccessMode) : AccessMode :=
  match requested, ceiling with
  | ReadOnly, _ | _, ReadOnly => ReadOnly
  | WorkspaceWrite, _ | _, WorkspaceWrite => WorkspaceWrite
  | _, _ => FullAccess
  end.

(** [Option::or]-style intersection: [None] allows every name. *)
Definition compose_allowed (a b : option (gset string)) : option (gset string) :=
  match a, b with
  | Some a, Some b => Some (a ∩ b)
  | Some a, None => Some a
  | None, b => b
  end.

Definition compose_approval (a b : ApprovalPolicy) : ApprovalPolicy :=
  if bool_decide (a = All) || bool_decide (b = All) then All else RequiredByTool.

(** [min_limit]: [None] is no limit. *)
Definition min_limit (a b : option N) : option N :=
  match a, b with
  | Some a, Some b => Some (N.min a b)
  | Some a, None => Some a
  | None, b => b
  end.

(** [SecurityPolicy::compose]. *)
Definition compose (self other : SecurityPolicy) : SecurityPolicy :=
  let a := policy_tools self in
  let b := policy_tools other in
  let mutating :=
    match access a, access b with
    | ReadOnly, ReadOnly => allowed_mutating_tools a ∩ allowed_mutating_tools b
    | ReadOnly, _ => allowed_mutating_tools a
    | _, ReadOnly => allowed_mutating_tools b
    | _, _ => allowed_mutating_tools a ∩ allowed_mutating_tools b
    end in
  {| policy_tools :=
       {| access := clamp_access (access a) (access b);
          allowed_tools := compose_allowed (allowed_tools a) (allowed_tools b);
          denied_tools := denied_tools a ∪ denied_tools b;
          allowed_mutating_tools := mutating;
          approval := compose_approval (approval a) (approval b);
          timeout := min_limit (timeout a) (timeout b) |};
     git_remote_writes := git_remote_writes self && git_remote_writes other;
     allow_network := allow_network self && allow_network other;
     approve_mutations := approve_mutations self || approve_mutations other |}.

(** [SecurityPolicy::for_child]. *)
Definition for_child (self requested : SecurityPolicy) : SecurityPolicy :=
  let child := compose self requested in
  let t := policy_tools child in
  {| policy_tools :=
       {| access := access t; allowed_tools := allowed_tools t;
          denied_tools := denied_tools t; allowed_mutating_tools := ∅;
          approval := approval t; timeout := timeout t |};
     git_remote_writes := git_remote_writes child;
     allow_network := allow_network child;
     approve_mutations := approve_mutations child |}.

(** ** [SecurityBaseline] of [crates/adk-runtime/src/subagent.rs] *)

Record SecurityBaseline := mkSecurityBaseline {
  baseline_tools : ToolPolicy;
  input_guardrails : gset string;
  output_guardrails : gset string;
  untrusted_tool_outputs : bool;
  max_output_bytes : option N;
}.
#[export] Instance SecurityBaseline_eq_dec : EqDecision SecurityBaseline.
Proof. solve_decision. Defined.

Definition access_rank (a : AccessMode) : N :=
  match a with ReadOnly => 0 | WorkspaceWrite => 1 | FullAccess => 2 end.

(** [narrower_limit]. *)
Definition narrower_limit (saved current : option N) : bool :=
  match saved, current with
  | None, _ => true
  | Some a, Some b => (b <=? a)%N
  | _, _ => false
  end.

(** [SecurityBaseline::narrow]. *)
Definition narrow (self other : SecurityBaseline) : SecurityBaseline :=
  let a := baseline_tools self in
  let b := baseline_tools other in
  {| baseline_tools :=
       {| access := if (access_rank (access a) <=? access_rank (access b))%N
                    then access a else access b;
          allowed_tools := compose_allowed (allowed_tools a) (allowed_tools b);
          denied_tools := denied_tools a ∪ denied_tools b;
          allowed_mutating_tools :=
            allowed_mutating_tools a ∩ allowed_mutating_tools b;
          approval := compose_approval (approval a) (approval b);
          timeout := min_limit (timeout a) (timeout b) |};
     input_guardrails := input_guardrails self ∪ input_guardrails other;
     output_guardrails := output_guardrails self ∪ output_guardrails other;
     untrusted_tool_outputs :=
       untrusted_tool_outputs self || untrusted_tool_outputs other;
     max_output_bytes := min_limit (max_output_bytes self) (max_output_bytes other) |}.

(** [SecurityBaseline::allows_resume_under]: [current] restricts at least as
    much as the saved [self]. *)
Definition allows_resume_under (self current : SecurityBaseline) : bool :=
  let a := baseline_tools self in
  let b := baseline_tools current in
  (access_rank (access b) <=? access_rank (access a))%N
  && match allowed_tools a, allowed_tools b with
     | None, _ => true
     | Some a, Some b => bool_decide (b ⊆ a)
     | _, _ => false
     end
  && bool_decide (denied_tools a ⊆ denied_tools b)
  && bool_decide (allowed_mutating_tools b ⊆ allowed_mutating_tools a)
  && (negb (bool_decide (approval a = All)) || bool_decide (approval b = All))
  && narrower_limit (timeout a) (timeout b)
  && bool_decide (input_guardrails self ⊆ input_guardrails current)
  && bool_decide (output_guardrails self ⊆ output_guardrails current)
  && (negb (untrusted_tool_outputs self) || untrusted_tool_outputs current)
  && narrower_limit (max_output_bytes self) (max_output_bytes current).

(** ** The order behind [allows_resume_under] *)

(** A limit at least as tight. *)
Definition limit_le (current saved : option N) : Prop :=
  match saved, current with
  | None, _ => True
  | Some a, Some b => (b ≤ a)%N
  | Some _, None => False
  end.
Definition names_le (current saved : option (gset string)) : Prop :=
  match saved, current with
  | None, _ => True
  | Some a, Some b => b ⊆ a
  | Some _, None => False
  end.

(** [restricts current saved]: in every persisted dimension, [current] is at
    least as restrictive as [saved]. *)
Record restricts (current saved : SecurityBaseline) : Prop := {
  restricts_access :
    (access_rank (access (baseline_tools current))
     ≤ access_rank (access (baseline_tools saved)))%N;
  restricts_allowed :
    names_le (allowed_tools (baseline_tools current)) (allowed_tools (baseline_tools saved));
  restricts_denied :
    denied_tools (baseline_tools saved) ⊆ denied_tools (baseline_tools current);
  restricts_mutating :
    allowed_mutating_tools (baseline_tools current)
    ⊆ allowed_mutating_tools (baseline_tools saved);
  restricts_approval :
    approval (baseline_tools saved) = All → approval (baseline_tools current) = All;
  restricts_timeout :
    limit_le (timeout (baseline_tools current)) (timeout (baseline_tools saved));
  restricts_input : input_guardrails saved ⊆ input_guardrails current;
  restricts_output : output_guardrails saved ⊆ output_guardrails current;
  restricts_untrusted :
    untrusted_tool_outputs saved = true → untrusted_tool_outputs current = true;
  restricts_bytes : limit_le (max_output_bytes current) (max_output_bytes saved);
}.

Lemma narrower_limit_spec saved current :
  narrower_limit saved current = true ↔ limit_le current saved.
Proof. destruct saved, current; simpl; rewrite ?N.leb_le; naive_solver. Qed.

Lemma names_le_spec (saved current : option (gset string)) :
  match saved, current with
  | None, _ => true
  | Some a, Some b => bool_decide (b ⊆ a)
  | _, _ => false
  end = true ↔ names_le current saved.
Proof. destruct saved, current; simpl; rewrite ?bool_decide_eq_true; naive_solver. Qed.

Lemma implb_spec (a b : bool) : negb a || b = true ↔ (a = true → b = true).
Proof. destruct a, b; naive_solver. Qed.

Lemma allows_resume_under_spec saved current :
  allows_resume_under saved current = true ↔ restricts current saved.
Proof.
  unfold allows_resume_under.
  rewrite !andb_true_iff, !names_le_spec, !narrower_limit_spec, !implb_spec,
    !bool_decide_eq_true, N.leb_le.
  split; [intros H; constructor; naive_solver | intros []; naive_solver].
Qed.

Lemma limit_le_refl a : limit_le a a.
Proof. destruct a; simpl; [lia|done]. Qed.
Lemma limit_le_trans a b c : limit_le a b → limit_le b c → limit_le a c.
Proof. destruct a, b, c; simpl; naive_solver lia. Qed.
Lemma names_le_refl a : names_le a a.
Proof. destruct a; simpl; [set_solver|done]. Qed.
Lemma names_le_trans a b c : names_le a b → names_le b c → names_le a c.
Proof. destruct a, b, c; simpl; try done. set_solver. Qed.

#[export] Instance restricts_preorder : PreOrder restricts.
Proof.
  split.
  - intros x. constructor; auto using limit_le_refl, names_le_refl.
  - intros x y z [] []. constructor; eauto using limit_le_trans, names_le_trans.
    all: lia || set_solver.
Qed.

Lemma min_limit_le_l a b : limit_le (min_limit a b) a.
Proof. destruct a, b; simpl; lia || done. Qed.
Lemma min_limit_le_r a b : limit_le (min_limit a b) b.
Proof. destruct a, b; simpl; lia || done. Qed.
Lemma min_limit_glb a b c : limit_le c a → limit_le c b → limit_le c (min_limit a b).
Proof. destruct a, b, c; simpl; lia || done. Qed.
Lemma compose_allowed_le_l a b : names_le (compose_allowed a b) a.
Proof. destruct a, b; simpl; set_solver. Qed.
Lemma compose_allowed_le_r a b : names_le (compose_allowed a b) b.
Proof. destruct a, b; simpl; set_solver. Qed.
Lemma compose_allowed_glb a b c :
  names_le c a → names_le c b → names_le c (compose_allowed a b).
Proof. destruct a, b, c; simpl; set_solver. Qed.
Lemma compose_approval_All a b :
  compose_approval a b = All ↔ a = All ∨ b = All.
Proof. unfold compose_approval. destruct a, b; simpl; naive_solver. Qed.

#[export] Hint Resolve min_limit_le_l min_limit_le_r min_limit_glb
  compose_allowed_le_l compose_allowed_le_r compose_allowed_glb : security.

Lemma narrow_access a b :
  access_rank (access (baseline_tools (narrow a b)))
  = N.min (access_rank (access (baseline_tools a)))
          (access_rank (access (baseline_tools b))).
Proof. simpl. destruct (N.leb_spec (access_rank (access (baseline_tools a)))
  (access_rank (access (baseline_tools b)))); lia. Qed.

(** Closes the field-by-field goals of the restriction order. *)
Ltac solve_restricts :=
  constructor; rewrite ?narrow_access; simpl in *; rewrite ?compose_approval_All,
    ?orb_true_iff; eauto with security; try lia; try set_solver; try naive_solver.

Lemma narrow_lower_l a b : restricts (narrow a b) a.
Proof. solve_restricts. Qed.
Lemma narrow_lower_r a b : restricts (narrow a b) b.
Proof. solve_restricts. Qed.
Lemma narrow_greatest a b c : restricts c a → restricts c b → restricts c (narrow a b).
Proof. intros [] []. solve_restricts. Qed.

#[export] Hint Resolve narrow_lower_l narrow_lower_r narrow_greatest : security.

Lemma limit_le_antisym a b : limit_le a b → limit_le b a → a = b.
Proof. destruct a, b; simpl; try done. intros. f_equal. lia. Qed.
Lemma names_le_antisym a b : names_le a b → names_le b a → a = b.
Proof. destruct a as [a|], b as [b|]; simpl; try done. intros. f_equal. set_solver. Qed.

Lemma restricts_antisym a b : restricts a b → restricts b a → a = b.
Proof.
  destruct a as [[a1 a2 a3 a4 a5 a6] a7 a8 a9 a10], b as [[b1 b2 b3 b4 b5 b6] b7 b8 b9 b10].
  intros [A1 A2 A3 A4 A5 A6 A7 A8 A9 A10] [B1 B2 B3 B4 B5 B6 B7 B8 B9 B10]. simpl in *.
  assert (a1 = b1) as -> by (destruct a1, b1; simpl in *; done || lia).
  assert (a5 = b5) as -> by (destruct a5, b5; intuition congruence).
  assert (a9 = b9) as -> by (destruct a9, b9; intuition congruence).
  rewrite (names_le_antisym a2 b2), (limit_le_antisym a6 b6), (limit_le_antisym a10 b10) by done.
  assert (∀ X Y : gset string, X ⊆ Y → Y ⊆ X → X = Y) as Hset by set_solver.
  by rewrite (Hset a3 b3), (Hset a4 b4), (Hset a7 b7), (Hset a8 b8).
Qed.

Lemma permitted_restricts current saved t :
  restricts current saved →
  permitted (baseline_tools current) t → permitted (baseline_tools saved) t.
Proof.
  intros [Ha Hal Hd Hm _ _ _ _ _ _] (Hp1 & Hp2 & Hp3). split_and!.
  - set_solver.
  - intros names Hn. rewrite Hn in Hal. simpl in Hal.
    destruct (allowed_tools (baseline_tools current)) as [cur|]; [|done].
    specialize (Hp2 cur eq_refl). set_solver.
  - intros Hr. rewrite Hr in Ha. simpl in Ha.
    destruct (access (baseline_tools current)); simpl in Ha; try lia.
    destruct Hp3; [done| by left | right; set_solver].
Qed.

Lemma decision_restricts current saved t :
  restricts current saved →
  decision_le (decision (baseline_tools current) t) (decision (baseline_tools saved) t).
Proof.
  intros Hr. apply decision_le_intro; [by apply permitted_restricts|].
  unfold needs_approval. rewrite !orb_true_iff, !bool_decide_eq_true.
  intros [?|H]; [by left|right]. by apply (restricts_approval _ _ Hr).
Qed.

Lemma all_Some {A} (P : A → Prop) a : (∀ x, Some a = Some x → P x) ↔ P a.
Proof. naive_solver. Qed.
Lemma all_None {A} (P : A → Prop) : (∀ x, None = Some x → P x) ↔ True.
Proof. naive_solver. Qed.

Lemma permitted_compose p q t :
  permitted (policy_tools (compose p q)) t ↔
  permitted (policy_tools p) t ∧ permitted (policy_tools q) t.
Proof.
  destruct p as [[a1 al1 de1 mu1 ap1 ti1] g1 n1 m1],
           q as [[a2 al2 de2 mu2 ap2 ti2] g2 n2 m2].
  unfold permitted; simpl. rewrite not_elem_of_union.
  assert ((∀ names, compose_allowed al1 al2 = Some names → tool_name t ∈ names)
    ↔ (∀ names, al1 = Some names → tool_name t ∈ names) ∧
      (∀ names, al2 = Some names → tool_name t ∈ names)) as ->.
  { destruct al1, al2; simpl; rewrite ?all_Some, ?all_None, ?elem_of_intersection; tauto. }
  destruct a1, a2; simpl; rewrite ?elem_of_intersection; intuition congruence.
Qed.

Lemma needs_approval_compose p q t :
  needs_approval (policy_tools (compose p q)) t =
  needs_approval (policy_tools p) t || needs_approval (policy_tools q) t.
Proof.
  unfold needs_approval; simpl. unfold compose_approval.
  destruct (requires_approval t), (approval (policy_tools p)),
    (approval (policy_tools q)); done.
Qed.

(** ** Properties *)

(** composing two host policies grants a tool exactly what the stricter of
    the two grants it: [compose] is the meet of the tool decisions, so denial
    by either part wins, and approval demanded by either is demanded. *)
Theorem compose_decision_meet (p q : SecurityPolicy) (t : ToolDefinition) :
  decision (policy_tools (compose p q)) t =
  decision_min (decision (policy_tools p) t) (decision (policy_tools q) t).
Proof.
  rewrite !decision_spec, needs_approval_compose. unfold decision_min.
  pose proof (permitted_compose p q t).
  repeat case_decide; destruct (needs_approval (policy_tools p) t),
    (needs_approval (policy_tools q) t); simpl; tauto.
Qed.

(** [SecurityBaseline::narrow] is the greatest baseline that both arguments
    allow resuming under, and [allows_resume_under] is the preorder it is a meet
    for: a narrowed baseline passes the resume check of both its parts, and any
    baseline that passes both passes that of the narrowed one. *)
Theorem narrow_is_meet (a b c : SecurityBaseline) :
  allows_resume_under a (narrow a b) = true ∧
  allows_resume_under b (narrow a b) = true ∧
  (allows_resume_under (narrow a b) c =
   allows_resume_under a c && allows_resume_under b c).
Proof.
  rewrite !allows_resume_under_spec. split_and!; auto with security.
  apply eq_true_iff_eq.
  rewrite andb_true_iff, !allows_resume_under_spec. split.
  - intros H. split; etrans; eauto with security.
  - intros []; auto with security.
Qed.

(** Passing the resume check can only reduce authority: if the saved
    baseline allows resuming under the current one, every tool is granted at
    most what the saved baseline granted it. *)
Theorem resume_never_escalates (saved current : SecurityBaseline) (t : ToolDefinition) :
  allows_resume_under saved current = true →
  decision_le (decision (baseline_tools current) t) (decision (baseline_tools saved) t).
Proof. intros H%allows_resume_under_spec. by apply decision_restricts. Qed.

Lemma resume_never_escalates_witness :
  decision_le
    (decision (mkToolPolicy ReadOnly (Some {["grep"; "Bash"]}) {["Write"]} ∅ All (Some 5%N))
       (mkToolDefinition "Bash" "run" "{}" false false))
    (decision (mkToolPolicy FullAccess None ∅ {["Bash"]} RequiredByTool None)
       (mkToolDefinition "Bash" "run" "{}" false false)).
Proof.
  apply (resume_never_escalates
    (mkSecurityBaseline (mkToolPolicy FullAccess None ∅ {["Bash"]} RequiredByTool None)
       ∅ ∅ false None)
    (mkSecurityBaseline
       (mkToolPolicy ReadOnly (Some {["grep"; "Bash"]}) {["Write"]} ∅ All (Some 5%N))
       {["pii"]} ∅ true (Some 10%N))).
  vm_compute. reflexivity.
Defined.

(** A child policy never grants more than its parent or the request, and in
    read-only mode it never lets a mutating tool through. *)
Theorem for_child_bounded (p q : SecurityPolicy) (t : ToolDefinition) :
  decision_le (decision (policy_tools (for_child p q)) t)
    (decision_min (decision (policy_tools p) t) (decision (policy_tools q) t)) ∧
  (access (policy_tools p) = ReadOnly → read_only t = false →
   decision (policy_tools (for_child p q)) t = Deny).
Proof.
  split.
  - rewrite <-compose_decision_meet. apply decision_le_intro; [|done].
    intros (H1 & H2 & H3). split_and!; [done..|].
    intros Hro. destruct (H3 Hro) as [?|H]; [by left|]. simpl in H. set_solver.
  - intros Ha Hr. rewrite decision_spec.
    destruct (decide _) as [(_ & _ & H)|]; [|done].
    simpl in H. rewrite Ha in H. destruct H as [H|H]; [done|congruence|set_solver].
Qed.
