(* ===== verification/Durable.v ===== *)
(** * Durable: run documents, effect recovery and store preparation

    [crates/adk-durable/src/types.rs] (the persisted records and the effect
    state machine), [store.rs] (validation, append preparation, redaction,
    lease expiry) and the version handling of [codec.rs].

    Instants are nanoseconds since the Unix epoch ([time]).  [serde_json::Value]
    is the type parameter [V]; chrono's range checks, the UUID source and the
    clock are arguments. *)

From stdpp Require Import pretty.
From S2P Require Import Prelude.

(** ** Errors ([lib.rs]) *)

Inductive DurableError :=
| NotFound | AlreadyExists | Conflict | LeaseHeld | LeaseLost
| UnsupportedSchema (version : Z)
| Invalid (message : string)
| Protection (message : string)
| Io (message : string)
| Json (message : string).
#[export] Instance DurableError_eq_dec : EqDecision DurableError.
Proof. solve_decision. Defined.

Notation Result := (result DurableError).

Definition time : Type := Z.
Bind Scope Z_scope with time.
Definition SCHEMA_VERSION : Z := 2.

(** 0001-01-01T00:00:00Z, Go's zero time. *)
Definition zero_time : time := (-62135596800 * 1000000000)%Z.

(** What the code uses of chrono: [Duration::from_std] and
    [DateTime::checked_add_signed], both range-limited. *)
Class Chrono := {
  duration_from_std : N → option Z;
  checked_add_signed : time → Z → option time;
}.
Class ChronoLaws `{Chrono} : Prop := {
  duration_from_std_spec d z : duration_from_std d = Some z → z = Z.of_N d;
  checked_add_signed_spec t d t' : checked_add_signed t d = Some t' → t' = (t + d)%Z;
}.

(** ** Persisted enumerations ([types.rs]) *)

Inductive DataClassification :=
| ClassUnspecified | Public | ClassInternal | Sensitive | Secret.
#[export] Instance DataClassification_eq_dec : EqDecision DataClassification.
Proof. solve_decision. Defined.

Definition is_unspecified (self : DataClassification) : bool :=
  bool_decide (self = ClassUnspecified).

Inductive RunStatus :=
| StatusUnspecified | StatusPending | StatusRunning | StatusSucceeded
| StatusFailed | StatusCancelled.
#[export] Instance RunStatus_eq_dec : EqDecision RunStatus.
Proof. solve_decision. Defined.

Inductive EffectClassification := Idempotent | Deduplicated | NonReplayable.
#[export] Instance EffectClassification_eq_dec : EqDecision EffectClassification.
Proof. solve_decision. Defined.

Inductive EffectState := Prepared | Dispatched | Succeeded | Failed | OutcomeUnknown.
#[export] Instance EffectState_eq_dec : EqDecision EffectState.
Proof. solve_decision. Defined.

Inductive RecoveryAction := RecoverNone | Retry | Reconcile | OperatorResolution.
#[export] Instance RecoveryAction_eq_dec : EqDecision RecoveryAction.
Proof. solve_decision. Defined.

Record RecoveryDecision := mkRecoveryDecision {
  action : RecoveryAction;
  automatic : bool;
  decision_key : string;
}.

(** ** Persisted records ([types.rs]) *)

Record Attempt := mkAttempt {
  attempt_id : string;
  attempt_started_at : time;
  attempt_ended_at : time;
  attempt_outcome : string;
}.
Record Approval := mkApproval {
  approval_id : string;
  approval_status : string;
  requested_at : time;
  resolved_at : time;
  resolved_by : string;
}.
Record ChildRun := mkChildRun {
  child_id : string;
  child_run_id : string;
  child_status : RunStatus;
  child_started_at : time;
  child_ended_at : time;
}.
Record Cancellation := mkCancellation {
  cancel_requested_at : time;
  cancel_requested_by : string;
  cancel_reason : string;
  acknowledged_at : time;
}.
Definition default_cancellation : Cancellation :=
  mkCancellation zero_time "" "" zero_time.

(** [i64] counters. *)
Record BudgetCounters := mkBudgetCounters {
  input_tokens : Z;
  output_tokens : Z;
  tool_call_count : Z;
  cost_micros : Z;
  wall_time_ms : Z;
}.
Definition default_budget : BudgetCounters := mkBudgetCounters 0 0 0 0 0.

Record Lease := mkLease {
  lease_tenant : string;
  lease_run : string;
  owner : string;
  token : string;
  expires_at : time;
}.
#[export] Instance Lease_eq_dec : EqDecision Lease.
Proof. solve_decision. Defined.

Section records.
Context {V : Type}.

Record Step := mkStep {
  step_id : string;
  step_kind : string;
  step_status : string;
  step_data : option V;
  step_started_at : time;
  step_ended_at : time;
}.
Record ToolCall := mkToolCall {
  tool_id : string;
  tool_name : string;
  tool_status : string;
  tool_classification : DataClassification;
  tool_input : option V;
  tool_output : option V;
  tool_started_at : time;
  tool_ended_at : time;
}.
Record Effect := mkEffect {
  effect_id : string;
  effect_classification : EffectClassification;
  effect_data_classification : DataClassification;
  effect_state : EffectState;
  idempotency_key : string;
  prepared_at : time;
  effect_updated_at : time;
  effect_outcome : option V;
}.
Record Event := mkEvent {
  event_id : string;
  event_tenant : string;
  event_run : string;
  sequence : N;
  event_at : time;
  event_type : string;
  event_classification : DataClassification;
  payload : option V;
}.
Record RunSnapshot := mkRunSnapshot {
  schema_version : Z;
  tenant_id : string;
  run_id : string;
  revision : N;
  event_sequence : N;
  status : RunStatus;
  classification : DataClassification;
  state : option V;
  attempts : list Attempt;
  steps : list Step;
  tool_calls : list ToolCall;
  approvals : list Approval;
  child_runs : list ChildRun;
  effects : list Effect;
  cancellation : option Cancellation;
  cumulative_budget : BudgetCounters;
  created_at : time;
  updated_at : time;
  retain_until : option time;
}.
Record Document := mkDocument {
  document_version : Z;
  snapshot : RunSnapshot;
  events : list Event;
}.

(** [RunSnapshot::new] over the [Default] instance. *)
Definition new_snapshot (tenant run : string) (now : time) : RunSnapshot :=
  {| schema_version := SCHEMA_VERSION; tenant_id := tenant; run_id := run;
     revision := 0; event_sequence := 0; status := StatusPending;
     classification := ClassUnspecified; state := None; attempts := [];
     steps := []; tool_calls := []; approvals := []; child_runs := [];
     effects := []; cancellation := None; cumulative_budget := default_budget;
     created_at := now; updated_at := now; retain_until := None |}.

(** ** Effects *)

(** [Effect::new]; [id] is [EffectId::new()] and [key] the SHA-256 based
    [idempotency_key(run, &id)]. *)
Definition new_effect (id key : string) (c : EffectClassification) (now : time) : Effect :=
  mkEffect id c ClassUnspecified Prepared key now now None.

(** [recover_effect]. *)
Definition recover_effect (effect : Effect) : RecoveryDecision :=
  let '(act, auto) :=
    match effect_state effect, effect_classification effect with
    | Prepared, _ => (Retry, true)
    | Dispatched, NonReplayable => (Reconcile, false)
    | OutcomeUnknown, NonReplayable => (OperatorResolution, false)
    | (Dispatched | OutcomeUnknown), _ => (Retry, true)
    | _, _ => (RecoverNone, false)
    end in
  mkRecoveryDecision act auto (idempotency_key effect).

Definition debug_effect_state (s : EffectState) : string :=
  match s with
  | Prepared => "Prepared" | Dispatched => "Dispatched" | Succeeded => "Succeeded"
  | Failed => "Failed" | OutcomeUnknown => "OutcomeUnknown"
  end.

(** The [matches!] table of [transition_effect]. *)
Definition transition_allowed (s next : EffectState) : bool :=
  match s, next with
  | Prepared, (Dispatched | Failed) => true
  | Dispatched, (Succeeded | Failed | OutcomeUnknown) => true
  | OutcomeUnknown, (Succeeded | Failed) => true
  | _, _ => false
  end.

Definition transition_effect (effect : Effect) (next : EffectState) (now : time)
    : Result Effect :=
  if negb (transition_allowed (effect_state effect) next)
  then Err (Invalid ("invalid effect transition "
                     +:+ debug_effect_state (effect_state effect)
                     +:+ " -> " +:+ debug_effect_state next))
  else Ok {| effect_id := effect_id effect;
             effect_classification := effect_classification effect;
             effect_data_classification := effect_data_classification effect;
             effect_state := next;
             idempotency_key := idempotency_key effect;
             prepared_at := prepared_at effect;
             effect_updated_at := now;
             effect_outcome := effect_outcome effect |}.

Definition mark_interrupted_effect (effect : Effect) (now : time) : Result Effect :=
  if bool_decide (effect_state effect = Dispatched)
  then transition_effect effect OutcomeUnknown now
  else Ok effect.

(** ** Store options and redaction ([store.rs]) *)

Definition Redactor : Type := DataClassification → V → Result V.

Definition redact_value (redactor : option Redactor) (c : DataClassification)
    (value : option V) : Result (option V) :=
  match redactor, value with
  | Some redact, Some current => v ← redact c current; Ok (Some v)
  | _, _ => Ok value
  end.

Definition redact_step (r : option Redactor) (c : DataClassification) (s : Step)
    : Result Step :=
  d ← redact_value r c (step_data s);
  Ok (mkStep (step_id s) (step_kind s) (step_status s) d
        (step_started_at s) (step_ended_at s)).

(** A record's own classification, or the snapshot's when unspecified. *)
Definition effective_class (own snapshot_class : DataClassification) : DataClassification :=
  if is_unspecified own then snapshot_class else own.

Definition redact_tool (r : option Redactor) (c : DataClassification) (t : ToolCall)
    : Result ToolCall :=
  let class := effective_class (tool_classification t) c in
  i ← redact_value r class (tool_input t);
  o ← redact_value r class (tool_output t);
  Ok (mkToolCall (tool_id t) (tool_name t) (tool_status t) (tool_classification t)
        i o (tool_started_at t) (tool_ended_at t)).

Definition redact_effect (r : option Redactor) (c : DataClassification) (e : Effect)
    : Result Effect :=
  o ← redact_value r (effective_class (effect_data_classification e) c) (effect_outcome e);
  Ok (mkEffect (effect_id e) (effect_classification e) (effect_data_classification e)
        (effect_state e) (idempotency_key e) (prepared_at e) (effect_updated_at e) o).

Definition redact_snapshot (r : option Redactor) (s : RunSnapshot) : Result RunSnapshot :=
  match r with
  | None => Ok s
  | Some _ =>
      let c := classification s in
      st ← redact_value r c (state s);
      sps ← mapR (redact_step r c) (steps s);
      tls ← mapR (redact_tool r c) (tool_calls s);
      efs ← mapR (redact_effect r c) (effects s);
      Ok {| schema_version := schema_version s; tenant_id := tenant_id s;
            run_id := run_id s; revision := revision s;
            event_sequence := event_sequence s; status := status s;
            classification := c; state := st; attempts := attempts s;
            steps := sps; tool_calls := tls; approvals := approvals s;
            child_runs := child_runs s; effects := efs;
            cancellation := cancellation s;
            cumulative_budget := cumulative_budget s;
            created_at := created_at s; updated_at := updated_at s;
            retain_until := retain_until s |}
  end.

(** ** Validation and preparation ([store.rs], [codec.rs]) *)

Definition check_version (version : Z) (allow_zero : bool) : Result unit :=
  ensure (negb (negb (version =? SCHEMA_VERSION)%Z
                && negb (allow_zero && (version =? 0)%Z)))
    (UnsupportedSchema version).

Definition is_empty (s : string) : bool := String.eqb s "".

Definition validate_snapshot (s : RunSnapshot) : Result unit :=
  if is_empty (tenant_id s) || is_empty (run_id s)
  then Err (Invalid "snapshot requires tenant and run IDs")
  else check_version (schema_version s) true.

Definition validate_key (s : RunSnapshot) (tenant run : string) : Result unit :=
  ensure (String.eqb (tenant_id s) tenant && String.eqb (run_id s) run)
    (Invalid "snapshot key does not match store key").

(** The fields the store itself assigns. *)
Definition with_header (s : RunSnapshot) (version : Z) (seq : N) (created updated : time)
    : RunSnapshot :=
  {| schema_version := version; tenant_id := tenant_id s; run_id := run_id s;
     revision := revision s; event_sequence := seq; status := status s;
     classification := classification s; state := state s;
     attempts := attempts s; steps := steps s; tool_calls := tool_calls s;
     approvals := approvals s; child_runs := child_runs s; effects := effects s;
     cancellation := cancellation s; cumulative_budget := cumulative_budget s;
     created_at := created; updated_at := updated; retain_until := retain_until s |}.

(** [if t == zero_time() { t = default }]. *)
Definition or_time (t default : time) : time :=
  if (t =? zero_time)%Z then default else t.

Definition prepare_create (now : time) (redactor : option Redactor) (s : RunSnapshot)
    : Result RunSnapshot :=
  _ ← validate_snapshot s;
  let created := or_time (created_at s) now in
  redact_snapshot redactor
    (with_header s SCHEMA_VERSION (event_sequence s) created
       (or_time (updated_at s) created)).

(** One iteration of the loop of [prepare_append]; [new_id i] is the
    [EventId::new()] drawn for the [i]-th event. *)
Definition prepare_event (redactor : option Redactor) (new_id : nat → string)
    (lease : Lease) (seq : N) (updated : time) (i : nat) (e : Event) : Result Event :=
  if (negb (is_empty (event_tenant e)) && negb (String.eqb (event_tenant e) (lease_tenant lease)))
     || (negb (is_empty (event_run e)) && negb (String.eqb (event_run e) (lease_run lease)))
  then Err (Invalid "event key does not match append key")
  else
    p ← redact_value redactor (event_classification e) (payload e);
    Ok {| event_id := if is_empty (event_id e) then new_id i else event_id e;
          event_tenant := lease_tenant lease;
          event_run := lease_run lease;
          sequence := (seq + N.of_nat i + 1)%N;
          event_at := or_time (event_at e) updated;
          event_type := event_type e;
          event_classification := event_classification e;
          payload := p |}.

Definition prepare_append (now : time) (redactor : option Redactor) (new_id : nat → string)
    (lease : Lease) (rev seq : N) (evs : list Event) (s : RunSnapshot)
    : Result (RunSnapshot * list Event) :=
  _ ← validate_snapshot s;
  _ ← validate_key s (lease_tenant lease) (lease_run lease);
  next ← ok_or (checked_add rev 1) (Invalid "revision overflow");
  _ ← ensure (revision s =? next)%N
        (Invalid ("snapshot revision must be " +:+ pretty next));
  end_seq ← ok_or (checked_add seq (N.of_nat (length evs)))
              (Invalid "event sequence overflow");
  evs' ← mapR (λ ie, prepare_event redactor new_id lease seq (updated_at s) ie.1 ie.2)
           (imap (λ i e, (i, e)) evs);
  s' ← redact_snapshot redactor
         (with_header s SCHEMA_VERSION end_seq (created_at s) (or_time (updated_at s) now));
  Ok (s', evs').

(** [expiry]; [ttl] is a [std::time::Duration]. *)
Definition expiry `{Chrono} (now : time) (ttl : N) : Result time :=
  if (ttl =? 0)%N then Err (Invalid "positive lease TTL is required")
  else
    delta ← ok_or (duration_from_std ttl) (Invalid "lease TTL overflow");
    ok_or (checked_add_signed now delta) (Invalid "lease TTL overflow").

(** ** Schema-1 migration ([codec.rs]) *)

Record V1 := mkV1 {
  v1_tenant_id : string;
  v1_run_id : string;
  v1_revision : N;
  v1_event_sequence : N;
  v1_status : RunStatus;
  v1_cancelled : bool;
  v1_budget_tokens : Z;
  v1_created_at : time;
  v1_updated_at : time;
  v1_events : list Event;
}.

Definition migrate_event (tenant run : string) (i : nat) (e : Event) : Event :=
  {| event_id := event_id e;
     event_tenant := if is_empty (event_tenant e) then tenant else event_tenant e;
     event_run := if is_empty (event_run e) then run else event_run e;
     sequence := if (sequence e =? 0)%N then (N.of_nat i + 1)%N else sequence e;
     event_at := event_at e; event_type := event_type e;
     event_classification := event_classification e; payload := payload e |}.

(** [migrate_v1] after the schema-1 record is parsed. *)
Definition migrate_v1 (old : V1) : Document :=
  let base := new_snapshot (v1_tenant_id old) (v1_run_id old) (v1_created_at old) in
  {| document_version := SCHEMA_VERSION;
     snapshot :=
       {| schema_version := SCHEMA_VERSION;
          tenant_id := v1_tenant_id old; run_id := v1_run_id old;
          revision := v1_revision old;
          event_sequence := if (v1_event_sequence old =? 0)%N
                            then N.of_nat (length (v1_events old))
                            else v1_event_sequence old;
          status := if bool_decide (v1_status old = StatusUnspecified)
                    then status base else v1_status old;
          classification := classification base; state := state base;
          attempts := []; steps := []; tool_calls := []; approvals := [];
          child_runs := []; effects := [];
          cancellation := if v1_cancelled old
            then Some (mkCancellation (v1_updated_at old) "" "" zero_time) else None;
          cumulative_budget := mkBudgetCounters (v1_budget_tokens old) 0 0 0 0;
          created_at := v1_created_at old; updated_at := v1_updated_at old;
          retain_until := None |};
     events := imap (migrate_event (v1_tenant_id old) (v1_run_id old)) (v1_events old) |}.
End records.
Arguments Step : clear implicits.
Arguments ToolCall : clear implicits.
Arguments Effect : clear implicits.
Arguments Event : clear implicits.
Arguments RunSnapshot : clear implicits.
Arguments Document : clear implicits.
Arguments Redactor : clear implicits.
Arguments V1 : clear implicits.
