(* ===== verification/DurableSpec.v ===== *)
(** * DurableSpec: what a [RunStore] promises

    The contract of the trait [RunStore] ([crates/adk-durable/src/store.rs]),
    independent of any backend: the state is a finite map from (tenant, run) to
    a snapshot, its event log and its lease; every operation either commits
    one transition or leaves the state alone.  [DurableFs] shows that the
    filesystem backend refines it. *)

From stdpp Require Import pretty.
From S2P Require Import Prelude Durable.

(** Effect lifecycles: the reflexive-transitive closure of the two functions
    that move an effect. *)
Inductive effect_moves {V} : Effect V → Effect V → Prop :=
| effect_stays e : effect_moves e e
| effect_transition e next now e' e'' :
    transition_effect e next now = Ok e' → effect_moves e' e'' → effect_moves e e''
| effect_interrupted e now e' e'' :
    mark_interrupted_effect e now = Ok e' → effect_moves e' e'' → effect_moves e e''.

(** What the store keeps for one run. *)
Record Entry {V : Type} := mkEntry {
  entry_snapshot : RunSnapshot V;
  entry_events : list (Event V);
  entry_lease : option Lease;
}.
Arguments Entry : clear implicits.
Arguments mkEntry {_}.

(** Run keys: (tenant, run). *)
Notation key := (string * string)%type.

Section spec.
Context {V : Type} {Ch : Chrono} (redactor : option (Redactor V)).

Notation Spec := (gmap (string * string) (Entry V)).

(** Calls, with the clock readings and fresh identifiers the call drew. *)
Inductive Op :=
| OpCreate (now : time) (s : RunSnapshot V)
| OpLoad (k : key)
| OpAppend (check now : time) (new_id : nat → string) (lease : Lease)
    (expected : N) (evs : list (Event V)) (s : RunSnapshot V)
| OpAcquire (now : time) (fresh : string) (k : key) (owner : string) (ttl : N)
| OpRenew (check now : time) (lease : Lease) (ttl : N)
| OpRelease (lease : Lease)
| OpDeleteRun (k : key)
| OpDeleteTenant (t : string)
| OpRetain (now : time) (t : string).

Inductive Ret :=
| RetUnit
| RetLoaded (s : RunSnapshot V) (evs : list (Event V))
| RetSnapshot (s : RunSnapshot V)
| RetLease (l : Lease)
| RetCount (n : N).

Definition lease_key (l : Lease) : key := (lease_tenant l, lease_run l).
Definition snapshot_key (s : RunSnapshot V) : key := (tenant_id s, run_id s).

(** The stored lease carries the caller's token and, when [now] is given,
    has not expired. *)
Definition lease_matches (stored : option Lease) (l : Lease) (now : option time) : bool :=
  is_some_and stored (λ st, String.eqb (token st) (token l)
    && is_none_or now (λ n, (n <? expires_at st)%Z)).

Definition expired (now : time) (e : Entry V) : bool :=
  is_some_and (retain_until (entry_snapshot e)) (λ u, (u <=? now)%Z).

(** What a successful call returns and commits. *)
Definition post (op : Op) (σ : Spec) (r : Ret) (σ' : Spec) : Prop :=
  match op with
  | OpCreate now s =>
      ∃ s', σ !! snapshot_key s = None ∧ prepare_create now redactor s = Ok s' ∧
        r = RetUnit ∧ σ' = <[snapshot_key s := mkEntry s' [] None]> σ
  | OpLoad k =>
      ∃ e, σ !! k = Some e ∧ r = RetLoaded (entry_snapshot e) (entry_events e) ∧ σ' = σ
  | OpAppend check now new_id l expected evs s =>
      ∃ e s' evs', σ !! lease_key l = Some e ∧
        lease_matches (entry_lease e) l (Some check) = true ∧
        revision (entry_snapshot e) = expected ∧
        prepare_append now redactor new_id l expected
          (event_sequence (entry_snapshot e)) evs s = Ok (s', evs') ∧
        r = RetSnapshot s' ∧
        σ' = <[lease_key l := mkEntry s' (entry_events e ++ evs') (entry_lease e)]> σ
  | OpAcquire now fresh k owner ttl =>
      ∃ e t, σ !! k = Some e ∧ owner ≠ "" ∧
        is_none_or (entry_lease e) (λ l, (expires_at l <=? now)%Z) = true ∧
        expiry now ttl = Ok t ∧
        let l := mkLease k.1 k.2 owner fresh t in
        r = RetLease l ∧ σ' = <[k := mkEntry (entry_snapshot e) (entry_events e) (Some l)]> σ
  | OpRenew check now l ttl =>
      ∃ e st t, σ !! lease_key l = Some e ∧ entry_lease e = Some st ∧
        lease_matches (Some st) l (Some check) = true ∧ expiry now ttl = Ok t ∧
        let l' := mkLease (lease_tenant st) (lease_run st) (owner st) (token st) t in
        r = RetLease l' ∧
        σ' = <[lease_key l := mkEntry (entry_snapshot e) (entry_events e) (Some l')]> σ
  | OpRelease l =>
      ∃ e, σ !! lease_key l = Some e ∧ lease_matches (entry_lease e) l None = true ∧
        r = RetUnit ∧
        σ' = <[lease_key l := mkEntry (entry_snapshot e) (entry_events e) None]> σ
  | OpDeleteRun k => is_Some (σ !! k) ∧ r = RetUnit ∧ σ' = delete k σ
  | OpDeleteTenant t => r = RetUnit ∧ σ' = filter (λ ke, ke.1.1 ≠ t) σ
  | OpRetain now t =>
      σ' = filter (λ ke, negb (String.eqb ke.1.1 t && expired now ke.2)) σ ∧
      r = RetCount (N.of_nat (size σ - size σ'))
  end.

(** The entries an administrative deletion is entitled to remove. *)
Definition purges (op : Op) (k : key) (e : Entry V) : Prop :=
  match op with
  | OpDeleteTenant t => k.1 = t
  | OpRetain now t => k.1 = t ∧ expired now e = true
  | _ => False
  end.

(** A failed call leaves the state alone, unless the failure came after the
    commit (an ambiguous outcome) or halfway through a bulk deletion. *)
Inductive spec_step : Spec → Op → Result Ret → Spec → Prop :=
| spec_ok σ op r σ' : post op σ r σ' → spec_step σ op (Ok r) σ'
| spec_err σ op e : spec_step σ op (Err e) σ
| spec_ambiguous σ op r m σ' : post op σ r σ' → spec_step σ op (Err (Io m)) σ'
| spec_partial σ op e σ' :
    σ' ⊆ σ → (∀ k x, σ !! k = Some x → σ' !! k = None → purges op k x) →
    spec_step σ op (Err e) σ'.

(** Runs of the store: the calls with their results; [used] collects the lease tokens drawn so far, and
    [LeaseToken::new] never draws one twice. *)
Definition drawn (op : Op) : gset string :=
  match op with OpAcquire _ fresh _ _ _ => {[fresh]} | _ => ∅ end.

Inductive run : Spec → gset string → list (Op * Result Ret) → Spec → gset string → Prop :=
| run_nil σ used : run σ used [] σ used
| run_step σ used op r σ1 ops σ2 used2 :
    drawn op ## used → spec_step σ op r σ1 →
    run σ1 (drawn op ∪ used) ops σ2 used2 → run σ used ((op, r) :: ops) σ2 used2.

(** States of a store that started empty. *)
Definition reachable (σ : Spec) (used : gset string) : Prop :=
  ∃ ops, run ∅ ∅ ops σ used.

(** The operations that can remove the entry of [k]. *)
Definition removes (k : key) (op : Op) : bool :=
  match op with
  | OpDeleteRun k' => bool_decide (k' = k)
  | OpDeleteTenant t => String.eqb t k.1
  | OpRetain _ t => String.eqb t k.1
  | _ => false
  end.

(** The lease an operation presents. *)
Definition presents (op : Op) : option Lease :=
  match op with
  | OpAppend _ _ _ l _ _ _ | OpRenew _ _ l _ | OpRelease l => Some l
  | _ => None
  end.

(** [tok] is the token of the lease stored for [k]. *)
Definition holds (σ : Spec) (k : key) (tok : string) : Prop :=
  ∃ e l, σ !! k = Some e ∧ entry_lease e = Some l ∧ token l = tok.

(** ** The stored state is always well formed *)

(** Sequences strictly increase up to [bound]. *)
Fixpoint increasing (from bound : N) (evs : list (Event V)) : Prop :=
  match evs with
  | [] => (from ≤ bound)%N
  | e :: evs => (from < sequence e)%N ∧ (sequence e ≤ bound)%N ∧
                increasing (sequence e) bound evs
  end.

Record wf_entry (k : key) (e : Entry V) : Prop := {
  wf_key : snapshot_key (entry_snapshot e) = k;
  wf_version : schema_version (entry_snapshot e) = SCHEMA_VERSION;
  wf_event_keys : Forall (λ ev, (event_tenant ev, event_run ev) = k) (entry_events e);
  wf_sequences : increasing 0 (event_sequence (entry_snapshot e)) (entry_events e);
  wf_lease : is_none_or (entry_lease e) (λ l, bool_decide (lease_key l = k)) = true;
}.
Definition wf (σ : Spec) : Prop := map_Forall wf_entry σ.

(** ** Facts about the prepared values *)

Lemma redact_snapshot_fields s s' :
  redact_snapshot redactor s = Ok s' →
  schema_version s' = schema_version s ∧ tenant_id s' = tenant_id s ∧
  run_id s' = run_id s ∧ revision s' = revision s ∧
  event_sequence s' = event_sequence s.
Proof.
  unfold redact_snapshot. destruct redactor; intros H1; inv_ok; simpl; done.
Qed.

Lemma prepare_create_fields now s s' :
  prepare_create now redactor s = Ok s' →
  schema_version s' = SCHEMA_VERSION ∧ snapshot_key s' = snapshot_key s ∧
  revision s' = revision s ∧ event_sequence s' = event_sequence s.
Proof.
  unfold prepare_create, snapshot_key. intros H1. inv_ok.
  fwd redact_snapshot_fields. destruct_and!. simpl in *.
  split_and!; congruence.
Qed.

Lemma prepare_event_fields new_id l seq upd i e e' :
  prepare_event redactor new_id l seq upd i e = Ok e' →
  (event_tenant e', event_run e') = lease_key l ∧
  sequence e' = (seq + N.of_nat i + 1)%N.
Proof.
  unfold prepare_event, lease_key. case_match; intros H1; inv_ok; done.
Qed.

Lemma increasing_bounds from bound evs : increasing from bound evs → (from ≤ bound)%N.
Proof. destruct evs; simpl; [done|]. intros (? & ? & ?). lia. Qed.

Lemma increasing_app from mid bound evs evs' :
  increasing from mid evs → increasing mid bound evs' → increasing from bound (evs ++ evs').
Proof.
  revert from. induction evs as [|e evs IH]; intros from; simpl.
  - intros ?. destruct evs' as [|x evs']; simpl; [lia|]. intros (? & ? & ?).
    split_and!; [lia|done|done].
  - intros (? & ? & ?) Hi. pose proof (increasing_bounds _ _ _ Hi).
    split_and!; [lia|lia|eauto].
Qed.

(** The loop of [prepare_append] numbers the events consecutively. *)
Lemma prepare_events_Ok new_id l seq upd evs evs' n :
  mapR (λ ie, prepare_event redactor new_id l seq upd ie.1 ie.2)
    (imap (λ i e, (n + i, e)) evs) = Ok evs' →
  length evs' = length evs ∧
  Forall (λ ev, (event_tenant ev, event_run ev) = lease_key l) evs' ∧
  (∀ i e', evs' !! i = Some e' → sequence e' = (seq + N.of_nat (n + i) + 1)%N).
Proof.
  revert evs' n. induction evs as [|e evs IH]; intros evs' n; simpl.
  - intros [= <-]. split_and!; [done|done|]. intros i e'. by rewrite lookup_nil.
  - destruct (prepare_event _ _ _ _ _ (n + 0) e) as [e1|] eqn:He; [|done].
    destruct (mapR _ (imap _ evs)) as [es|] eqn:Hes; [|done]. intros [= <-].
    apply prepare_event_fields in He as [Hk Hs].
    rewrite (imap_ext _ (λ i e, (S n + i, e))) in Hes by (intros; simpl; f_equal; lia).
    apply IH in Hes as (? & ? & Hi). split_and!; [simpl; lia|by constructor|].
    intros [|i] e'; simpl; [intros [= <-]; rewrite Hs; do 3 f_equal; lia|].
    intros Hl%Hi. rewrite Hl. do 3 f_equal. lia.
Qed.

Lemma consecutive_increasing (evs : list (Event V)) (seq : N) :
  (∀ i e, evs !! i = Some e → sequence e = (seq + N.of_nat i + 1)%N) →
  increasing seq (seq + N.of_nat (length evs)) evs.
Proof.
  revert seq. induction evs as [|e evs IH]; intros seq Hi; simpl; [lia|].
  pose proof (Hi 0 e eq_refl) as H0. split_and!; [lia|lia|].
  replace (seq + N.of_nat (S (length evs)))%N
    with (sequence e + N.of_nat (length evs))%N by lia.
  apply IH. intros i e' He'. rewrite (Hi (S i) e' He'). lia.
Qed.

Lemma prepare_append_fields now new_id l rev seq evs s s' evs' :
  prepare_append now redactor new_id l rev seq evs s = Ok (s', evs') →
  schema_version s' = SCHEMA_VERSION ∧ snapshot_key s' = lease_key l ∧
  revision s' = (rev + 1)%N ∧ (rev + 1 ≤ u64_max)%N ∧
  event_sequence s' = (seq + N.of_nat (length evs))%N ∧
  (seq + N.of_nat (length evs) ≤ u64_max)%N ∧
  length evs' = length evs ∧
  Forall (λ ev, (event_tenant ev, event_run ev) = lease_key l) evs' ∧
  (∀ i e', evs' !! i = Some e' → sequence e' = (seq + N.of_nat i + 1)%N).
Proof.
  unfold prepare_append, validate_key. intros H1. inv_add.
  fwd redact_snapshot_fields. destruct_and!. bools. simpl in *.
  fwd (prepare_events_Ok new_id l seq (updated_at s) evs evs' 0). destruct_and!.
  unfold snapshot_key, lease_key. split_and!; try done; congruence.
Qed.

(** ** Preservation *)

Lemma post_wf op σ r σ' : wf σ → post op σ r σ' → wf σ'.
Proof.
  unfold wf. intros Hwf Hp.
  destruct op as [now s|k|check now ids l n evs s|now fresh k o ttl
    |check now l ttl|l|k|t|now]; simpl in Hp.
  - destruct Hp as (s' & _ & Hs & _ & ->). apply map_Forall_insert_2; [|done].
    apply prepare_create_fields in Hs as (Hv & Hk & _ & _).
    constructor; simpl; try done. lia.
  - by destruct Hp as (e & _ & _ & ->).
  - destruct Hp as (e & s' & evs' & He & _ & <- & Ha & _ & ->).
    apply map_Forall_insert_2; [|done]. specialize (Hwf _ _ He) as [].
    apply prepare_append_fields in Ha as (? & ? & _ & _ & Hes & _ & Hlen & ? & Hseq).
    constructor; simpl; try done.
    + by apply Forall_app.
    + eapply increasing_app; [done|]. rewrite Hes, <-Hlen.
      by apply consecutive_increasing.
  - destruct Hp as (e & t & He & _ & _ & _ & _ & ->).
    apply map_Forall_insert_2; [|done]. specialize (Hwf _ _ He) as [].
    constructor; simpl; try done. destruct k. by apply bool_decide_eq_true.
  - destruct Hp as (e & st & t & He & Hst & _ & _ & _ & ->).
    apply map_Forall_insert_2; [|done]. specialize (Hwf _ _ He) as [].
    constructor; simpl; try done. by rewrite Hst in wf_lease0.
  - destruct Hp as (e & He & _ & _ & ->).
    apply map_Forall_insert_2; [|done]. specialize (Hwf _ _ He) as [].
    constructor; simpl; done.
  - destruct Hp as (_ & _ & ->). by apply map_Forall_delete.
  - destruct Hp as (_ & ->). intros k e [He _]%map_lookup_filter_Some. by apply Hwf.
  - destruct Hp as (-> & _). intros k e [He _]%map_lookup_filter_Some. by apply Hwf.
Qed.

(** A property of the state kept by every commit holds along every run. *)
Lemma run_invariant (I : Spec → gset string → Prop) :
  (∀ σ used op r σ', I σ used → drawn op ## used → post op σ r σ' → I σ' (drawn op ∪ used)) →
  (∀ σ used σ' used', I σ used → σ' ⊆ σ → used ⊆ used' → I σ' used') →
  ∀ σ used ops σ' used', run σ used ops σ' used' → I σ used → I σ' used'.
Proof.
  intros Hpost Hmono σ used ops σ' used' Hrun.
  induction Hrun as [|σ used op r σ1 ops σ2 used2 Hd Hs _ IH]; [done|].
  intros HI. apply IH. destruct Hs; eauto; eapply Hmono; try done; set_solver.
Qed.

Lemma run_wf σ used ops σ' used' : run σ used ops σ' used' → wf σ → wf σ'.
Proof.
  apply (run_invariant (λ σ _, wf σ)); eauto using post_wf.
  intros σ0 _ σ1 _ Hwf Hsub _ k e He. eapply Hwf, lookup_weaken, Hsub; done.
Qed.

(** What a commit does to the entry of a key it does not remove. *)
Definition extends (e e' : Entry V) : Prop :=
  entry_events e `prefix_of` entry_events e' ∧
  (revision (entry_snapshot e) ≤ revision (entry_snapshot e'))%N ∧
  (event_sequence (entry_snapshot e) ≤ event_sequence (entry_snapshot e'))%N.

Lemma extends_refl e : extends e e.
Proof. unfold extends. split_and!; [done|lia|lia]. Qed.
#[local] Instance extends_preorder : PreOrder extends.
Proof.
  split; [exact extends_refl|]. intros e1 e2 e3 (Hp1&?&?) (Hp2&?&?).
  split_and!; [by etrans|lia|lia].
Qed.

Lemma post_extends op σ r σ' k e :
  removes k op = false → σ !! k = Some e → post op σ r σ' →
  ∃ e', σ' !! k = Some e' ∧ extends e e'.
Proof.
  intros Hr He Hp.
  assert (∀ k' e0 e', σ !! k' = Some e0 → extends e0 e' →
    ∃ e1, <[k':=e']> σ !! k = Some e1 ∧ extends e e1) as Hins.
  { intros k' e0 e' H0 Hx. destruct (decide (k' = k)) as [->|].
    - exists e'. rewrite lookup_insert_eq. split; [done|].
      by simplify_eq.
    - exists e. by rewrite lookup_insert_ne. }
  destruct op as [now s|k'|check now ids l n evs s|now fresh k' o ttl
    |check now l ttl|l|k'|t|now]; simpl in Hp, Hr.
  - destruct Hp as (s' & Hn & _ & _ & ->). exists e. split; [|done].
    rewrite lookup_insert_ne; [done|congruence].
  - destruct Hp as (e0 & _ & _ & ->). by exists e.
  - destruct Hp as (e0 & s' & evs' & H0 & _ & <- & Ha & _ & ->).
    eapply Hins; [done|]. apply prepare_append_fields in Ha. destruct_and!.
    split_and!; simpl; [by eexists|lia|lia].
  - destruct Hp as (e0 & t & H0 & _ & _ & _ & _ & ->). eapply Hins; done.
  - destruct Hp as (e0 & st & t & H0 & _ & _ & _ & _ & ->). eapply Hins; done.
  - destruct Hp as (e0 & H0 & _ & _ & ->). eapply Hins; done.
  - destruct Hp as (_ & _ & ->). bools. exists e.
    by rewrite lookup_delete_ne.
  - destruct Hp as (_ & ->). bools. exists e. split; [|done].
    apply map_lookup_filter_Some; simpl; auto.
  - destruct Hp as (-> & _). bools. exists e. split; [|done].
    apply map_lookup_filter_Some; simpl. split; [done|].
    apply not_eq_sym, String.eqb_neq in Hr. by rewrite Hr.
Qed.

(** A partial bulk deletion keeps what it may not remove. *)
Lemma partial_keeps (op : Op) (σ σ' : Spec) (k : key) (e : Entry V) :
  removes k op = false → σ !! k = Some e → σ' ⊆ σ →
  (∀ k x, σ !! k = Some x → σ' !! k = None → purges op k x) → σ' !! k = Some e.
Proof.
  intros Hr He Hsub Hp. destruct (σ' !! k) as [e'|] eqn:He'.
  - eapply lookup_weaken in He'; [|done]. by simplify_eq.
  - specialize (Hp k e He He'). destruct op; simpl in *; try done; bools; subst.
    + done.
    + by destruct Hp.
Qed.

Lemma run_extends σ used ops σ' used' k e :
  run σ used ops σ' used' → Forall (λ o, removes k o.1 = false) ops →
  σ !! k = Some e → ∃ e', σ' !! k = Some e' ∧ extends e e'.
Proof.
  intros Hrun. revert e.
  induction Hrun as [|σ used op r σ1 ops σ2 used2 Hd Hs _ IH]; intros e Hops He.
  { by exists e. }
  apply Forall_cons in Hops as [Hop Hops].
  assert (∃ e1, σ1 !! k = Some e1 ∧ extends e e1) as (e1 & H1 & Hx1).
  { destruct Hs; [by eapply post_extends|by exists e|by eapply post_extends|].
    exists e. split; [by eapply partial_keeps|done]. }
  destruct (IH e1 Hops H1) as (e2 & ? & ?). exists e2. split; [done|by etrans].
Qed.

(** Tokens that are stored were drawn, and a drawn token that is not stored
    for [k] is never stored for [k] again. *)
Lemma post_not_holds op σ r σ' used k tok :
  tok ∈ used → drawn op ## used → ¬ holds σ k tok → post op σ r σ' → ¬ holds σ' k tok.
Proof.
  intros Hu Hd Hn Hp (e' & l' & He' & Hl' & Htok). apply Hn. clear Hn.
  destruct op as [now s|k'|check now ids l n evs s|now fresh k' o ttl
    |check now l ttl|l|k'|t|now]; simpl in Hp, Hd.
  - destruct Hp as (s' & _ & _ & _ & ->).
    apply lookup_insert_Some in He' as [(_ & <-)|(_ & ?)]; [done|by repeat eexists].
  - destruct Hp as (e0 & _ & _ & ->). by repeat eexists.
  - destruct Hp as (e0 & s' & evs' & H0 & _ & _ & _ & _ & ->).
    apply lookup_insert_Some in He' as [(<- & <-)|(_ & ?)]; by repeat eexists.
  - destruct Hp as (e0 & t & H0 & _ & _ & _ & _ & ->).
    apply lookup_insert_Some in He' as [(<- & <-)|(_ & ?)]; [|by repeat eexists].
    simpl in Hl'. injection Hl' as <-. simpl in Htok. subst. set_solver.
  - destruct Hp as (e0 & st & t & H0 & Hst & _ & _ & _ & ->).
    apply lookup_insert_Some in He' as [(<- & <-)|(_ & ?)]; [|by repeat eexists].
    simpl in Hl'. injection Hl' as <-. by repeat eexists.
  - destruct Hp as (e0 & H0 & _ & _ & ->).
    apply lookup_insert_Some in He' as [(<- & <-)|(_ & ?)]; [done|by repeat eexists].
  - destruct Hp as (_ & _ & ->). apply lookup_delete_Some in He' as [_ ?].
    by repeat eexists.
  - destruct Hp as (_ & ->). apply map_lookup_filter_Some in He' as [? _].
    by repeat eexists.
  - destruct Hp as (-> & _). apply map_lookup_filter_Some in He' as [? _].
    by repeat eexists.
Qed.

Lemma run_not_holds σ used ops σ' used' k tok :
  run σ used ops σ' used' → tok ∈ used → ¬ holds σ k tok → ¬ holds σ' k tok.
Proof.
  intros Hrun Hu Hn.
  apply (run_invariant (λ σ used, tok ∈ used ∧ ¬ holds σ k tok)) in Hrun.
  - tauto.
  - intros σ0 used0 op r σ1 [Hin Hnh] Hd Hp. split; [set_solver|].
    by eapply post_not_holds.
  - intros σ0 used0 σ1 used1 [? Hnh] Hsub ?. split; [set_solver|].
    intros (e & l & He & ?). apply Hnh. exists e, l. split; [|done].
    by eapply lookup_weaken.
  - done.
Qed.

(** Presenting a lease succeeds only when its token is stored for its key. *)
Lemma post_presents op σ r σ' l :
  presents op = Some l → post op σ r σ' → holds σ (lease_key l) (token l).
Proof.
  assert (∀ (e : Entry V) l now, lease_matches (entry_lease e) l now = true →
    ∃ st, entry_lease e = Some st ∧ token st = token l) as Hm.
  { intros e l0 now. unfold lease_matches. destruct (entry_lease e) as [st|]; simpl; [|done].
    rewrite andb_true_iff, String.eqb_eq. intros [? _]. by exists st. }
  destruct op; simpl; try done; intros [= ->] Hp.
  - destruct Hp as (e & s' & evs' & He & (st & ? & ?)%Hm & _). by exists e, st.
  - destruct Hp as (e & st & t & He & Hst & Hl & _).
    destruct (Hm e l (Some check)) as (st' & ? & ?); [by rewrite Hst|]. by exists e, st'.
  - destruct Hp as (e & He & (st & ? & ?)%Hm & _). by exists e, st.
Qed.

Lemma run_tokens σ used ops σ' used' :
  run σ used ops σ' used' →
  (∀ k tok, holds σ k tok → tok ∈ used) → ∀ k tok, holds σ' k tok → tok ∈ used'.
Proof.
  intros Hrun H0 k tok Hk.
  destruct (decide (tok ∈ used')) as [|Hn]; [done|exfalso].
  revert H0 Hn Hk.
  induction Hrun as [|σ used op r σ1 ops σ2 used2 Hd Hs Hrun IH]; intros H0 Hn Hk.
  { by apply Hn, (H0 k). }
  apply IH; try done. clear IH Hrun Hk Hn. intros k0 tok0 Hh.
  destruct (decide (tok0 ∈ drawn op ∪ used)) as [|Hn]; [done|exfalso].
  assert (¬ holds σ k0 tok0) as Hnh by (intros ?%H0; set_solver).
  revert Hh. destruct Hs as [? ? ? ? Hp|?|? ? ? ? ? Hp|? ? ? ? Hsub _]; [|done| |].
  3: { intros (e1 & l1 & He1 & ?). apply Hnh. exists e1, l1. split; [|done].
       by eapply lookup_weaken. }
  all: apply (post_not_holds _ _ _ _ ({[tok0]} ∪ used) k0 tok0) in Hp; set_solver.
Qed.

(** ** Properties *)

(** C36: whatever sequence of calls, failures and ambiguous failures a store
    goes through, every stored run keeps its key, its schema version, a lease
    for its own key, and an event log whose sequence numbers strictly increase
    up to the snapshot's [event_sequence]. *)
Theorem store_invariant σ used : reachable σ used → wf σ.
Proof. intros [ops Hrun]. eapply run_wf; [done|]. apply map_Forall_empty. Qed.

(** A takeover fences the previous holder for good: the token of an earlier acquisition is
    presented with success by no append, renewal or release after a later one (the run
    deleted and created again included). *)
Lemma run_app σ used a b σ2 used2 :
  run σ used (a ++ b) σ2 used2 → ∃ σ1 used1, run σ used a σ1 used1 ∧ run σ1 used1 b σ2 used2.
Proof.
  revert σ used. induction a as [|[op r] a IH]; intros σ used Hr.
  { exists σ, used. split; [constructor|done]. }
  inversion Hr as [|? ? ? ? σ1 ? ? ? Hd Hs Hrun]; subst.
  apply IH in Hrun as (σ3 & used3 & H1 & H2). exists σ3, used3. split; [|done]. by eapply run_step.
Qed.
Lemma run_used σ used ops σ' used' : run σ used ops σ' used' → used ⊆ used'.
Proof. induction 1 as [|σ used op r σ1 ops σ2 used2 _ _ _ IH]; set_solver. Qed.
Lemma run_fenced σ used pre n1 t1 k o1 d1 r1 mid n2 t2 o2 d2 r2 post0 op r l σ' used' :
  run σ used (pre ++ (OpAcquire n1 t1 k o1 d1, r1) :: mid
                  ++ (OpAcquire n2 t2 k o2 d2, Ok r2) :: post0) σ' used' →
  (op, Ok r) ∈ post0 → presents op = Some l → lease_key l = k → token l ≠ t1.
Proof.
  intros Hrun (p1 & p2 & ->)%list_elem_of_split Hpres <- <-.
  apply run_app in Hrun as (σ1 & used1 & _ & Hrun).
  inversion Hrun as [|? ? ? ? σ2 ? ? ? Hd1 _ Hrun1]; subst.
  apply run_app in Hrun1 as (σ3 & used3 & Hmid & Hrun2). apply run_used in Hmid as Hu.
  inversion Hrun2 as [|? ? ? ? σ4 ? ? ? Hd2 Hacq Hrun3]; subst.
  apply run_app in Hrun3 as (σ5 & used5 & Hrun4 & Hrun5).
  inversion Hrun5 as [|? ? ? ? σ6 ? ? ? Hd3 Hop _]; subst.
  inversion Hacq as [? ? ? ? Hpost| | |]; subst. inversion Hop as [? ? ? ? Hpost'| | |]; subst.
  simpl in Hu, Hd2. assert (token l ∈ used3) as Hin by set_solver.
  apply (run_not_holds _ _ _ _ _ (lease_key l) (token l)) in Hrun4; [|set_solver|].
  - by eapply Hrun4, post_presents.
  - intros (e & st & He & Hst & Htok). simpl in Hpost.
    destruct Hpost as (e0 & t & _ & _ & _ & _ & _ & ->).
    rewrite lookup_insert_eq in He. simplify_eq/=. set_solver.
Qed.

(** Compare-and-swap on revisions.  After an append that expected revision
    [n] commits, and as long as the run is not removed, a later append on the
    same run can only commit if it expects a strictly larger revision: two
    appends expecting the same revision never both commit. *)
Theorem append_cas σ used c now ids l n evs s r σ1 ops σ2 used2 c' now' ids' l' m evs' s' r' σ3 :
  post (OpAppend c now ids l n evs s) σ r σ1 →
  run σ1 used ops σ2 used2 → Forall (λ o, removes (lease_key l) o.1 = false) ops →
  lease_key l' = lease_key l →
  post (OpAppend c' now' ids' l' m evs' s') σ2 r' σ3 →
  (n < m)%N.
Proof.
  intros (e & s1 & evs1 & _ & _ & _ & Ha & _ & ->) Hrun Hops Hk
    (e' & s2 & evs2 & He' & _ & <- & _).
  eapply run_extends in Hrun as (e2 & He2 & _ & Hrev & _); [|done|apply lookup_insert_eq].
  rewrite Hk, He2 in He'. simplify_eq/=.
  apply prepare_append_fields in Ha. destruct_and!. lia.
Qed.

(** The event log is append-only and a committed append adds exactly its
    own events: along any run that does not remove it, a run's stored log only
    grows at its end, and its revision and sequence never go back; a committed
    append extends the log by its events, numbered consecutively. *)
Theorem log_append_only σ used ops σ' used' k e :
  run σ used ops σ' used' → Forall (λ o, removes k o.1 = false) ops → σ !! k = Some e →
  (∃ e', σ' !! k = Some e' ∧ entry_events e `prefix_of` entry_events e' ∧
     (revision (entry_snapshot e) ≤ revision (entry_snapshot e'))%N ∧
     (event_sequence (entry_snapshot e) ≤ event_sequence (entry_snapshot e'))%N) ∧
  (∀ c now ids l n evs s r σ1, lease_key l = k →
     post (OpAppend c now ids l n evs s) σ r σ1 →
     ∃ new s1, σ1 !! k = Some (mkEntry s1 (entry_events e ++ new) (entry_lease e)) ∧
       length new = length evs ∧ revision s1 = (n + 1)%N ∧
       ∀ i ev, new !! i = Some ev →
         sequence ev = (event_sequence (entry_snapshot e) + N.of_nat i + 1)%N).
Proof.
  intros Hrun Hops He. split.
  - edestruct run_extends as (e' & ? & ?); [done..|]. by exists e'.
  - intros c now ids l n evs s r σ1 <- (e0 & s1 & new & H0 & _ & _ & Ha & _ & ->).
    simplify_eq. exists new, s1. apply prepare_append_fields in Ha. destruct_and!.
    split_and!; try done. apply lookup_insert_eq.
Qed.
End spec.

(** ** Witnesses: one run, two successive owners *)

Section demo.
#[local] Instance demo_chrono : Chrono := {|
  duration_from_std d := Some (Z.of_N d);
  checked_add_signed t d := Some (t + d)%Z;
|}.

Definition demo_key : string * string := ("acme", "run_1").
Definition demo_snapshot : RunSnapshot unit := new_snapshot "acme" "run_1" 5.
Definition demo_lease1 : Lease := mkLease "acme" "run_1" "worker-1" "lease_a" 110.
Definition demo_lease2 : Lease := mkLease "acme" "run_1" "worker-2" "lease_b" 210.
Definition demo_event : Event unit :=
  mkEvent "" "" "" 0 zero_time "step" ClassUnspecified (Some tt).
Definition demo_next : RunSnapshot unit :=
  mkRunSnapshot 2 "acme" "run_1" 1 0 StatusRunning ClassUnspecified None
    [] [] [] [] [] [] None default_budget 5 6 None.
Definition demo_committed : RunSnapshot unit :=
  mkRunSnapshot 2 "acme" "run_1" 1 1 StatusRunning ClassUnspecified None
    [] [] [] [] [] [] None default_budget 5 6 None.
Definition demo_stored_event : Event unit :=
  mkEvent "event_0" "acme" "run_1" 1 6 "step" ClassUnspecified (Some tt).

Definition demo_state (evs : list (Event unit)) (s : RunSnapshot unit) (l : option Lease)
    : gmap (string * string) (Entry unit) :=
  {[demo_key := mkEntry s evs l]}.
Definition demo_append : Op (V := unit) :=
  OpAppend 20 20 (λ i, "event_" +:+ pretty i) demo_lease1 0 [demo_event] demo_next.

Lemma demo_acquired :
  reachable None (demo_state [] demo_snapshot (Some demo_lease1)) {["lease_a"]}.
Proof.
  exists [(OpCreate 5 demo_snapshot, Ok RetUnit);
    (OpAcquire 10 "lease_a" demo_key "worker-1" 100, Ok (RetLease demo_lease1))].
  eapply run_step; [set_solver|apply spec_ok; exists demo_snapshot; by split_and!|].
  eapply run_step; [set_solver|apply spec_ok|].
  - exists (mkEntry demo_snapshot [] None), 110%Z. split_and!; done.
  - apply run_nil.
Qed.

Lemma demo_append_commits :
  post None demo_append (demo_state [] demo_snapshot (Some demo_lease1))
    (RetSnapshot demo_committed)
    (demo_state [demo_stored_event] demo_committed (Some demo_lease1)).
Proof.
  exists (mkEntry demo_snapshot [] (Some demo_lease1)), demo_committed, [demo_stored_event].
  by split_and!.
Qed.

Lemma store_invariant_witness :
  wf (demo_state [] demo_snapshot (Some demo_lease1)).
Proof. apply (store_invariant None _ {["lease_a"]}). exact demo_acquired. Defined.

Definition demo_next2 : RunSnapshot unit :=
  mkRunSnapshot 2 "acme" "run_1" 2 0 StatusRunning ClassUnspecified None
    [] [] [] [] [] [] None default_budget 5 6 None.
Definition demo_committed2 : RunSnapshot unit :=
  mkRunSnapshot 2 "acme" "run_1" 2 1 StatusRunning ClassUnspecified None
    [] [] [] [] [] [] None default_budget 5 6 None.

Lemma append_cas_witness : (0 < 1)%N.
Proof.
  refine (append_cas None _ ∅ 20 20 (λ i, "event_" +:+ pretty i) demo_lease1 0 [demo_event]
    demo_next (RetSnapshot demo_committed) _ [] _ ∅ 30 30 (λ _, "") demo_lease1 1 []
    demo_next2 (RetSnapshot demo_committed2)
    (demo_state [demo_stored_event] demo_committed2 (Some demo_lease1))
    demo_append_commits _ _ _ _); try done.
  - apply run_nil.
  - exists (mkEntry demo_committed [demo_stored_event] (Some demo_lease1)), demo_committed2, [].
    by split_and!.
Defined.

Lemma log_append_only_witness :
  ∃ e', demo_state [demo_stored_event] demo_committed (Some demo_lease1) !! demo_key = Some e' ∧
    [] `prefix_of` entry_events e'.
Proof.
  destruct (log_append_only None (demo_state [] demo_snapshot (Some demo_lease1)) ∅
    [(demo_append, Ok (RetSnapshot demo_committed))] (demo_state [demo_stored_event] demo_committed (Some demo_lease1))
    (drawn demo_append ∪ ∅) demo_key (mkEntry demo_snapshot [] (Some demo_lease1))) as [(e' & He & Hp & _) _].
  - eapply run_step; [set_solver|apply spec_ok, demo_append_commits|].
    apply run_nil.
  - repeat constructor.
  - done.
  - by exists e'.
Defined.
End demo.
