(* ===== verification/DurableCodec.v ===== *)
(** * DurableCodec: document versions and the encryption envelope

    [crates/adk-durable/src/codec.rs]: [encode_document], [decode_document],
    [protect] and [unprotect].

    serde_json, the derived (de)serializers and base64 are parameters: the
    class [JsonLib] names the functions the code calls, [JsonLaws] and [SerdeLaws]
    their documented round trips.  [B] is a byte string, [Value] a
    [serde_json::Value], [T64] base64 text. *)

From S2P Require Import Prelude Durable.

Class JsonLib (B Value T64 : Type) := {
  value_from_slice : B → option Value;        (* serde_json::from_slice::<Value> *)
  value_to_vec : Value → B;                   (* serde_json::to_vec(&Value) *)
  encrypted_flag : Value → bool;              (* v["encrypted"].as_bool() == Some(true) *)
  envelope_to_vec : T64 → B;                  (* to_vec(&Envelope { encrypted: true, data }) *)
  envelope_from_value : Value → option T64;   (* from_value::<Envelope>(v)?.data *)
  b64_encode : B → T64;
  b64_decode : T64 → option B;
}.
(** The derived [Serialize]/[Deserialize] of a type. *)
Class Serde (B Value T : Type) := {
  to_vec : T → B;
  from_value : Value → option T;
  from_slice : B → option T;
}.

Class JsonLaws (B Value T64 : Type) {J : JsonLib B Value T64} : Prop := {
  b64_round_trip b : b64_decode (b64_encode b) = Some b;
  envelope_round_trip t : ∃ v, value_from_slice (B := B) (Value := Value) (envelope_to_vec t) = Some v ∧
    encrypted_flag v = true ∧ envelope_from_value v = Some t;
}.
(** Serialization of a type with no field called [encrypted]. *)
Class SerdeLaws (B Value T64 T : Type) {J : JsonLib B Value T64} {Sd : Serde B Value T} : Prop := {
  from_slice_to_vec (t : T) : from_slice (Value := Value) (to_vec (Value := Value) t : B) = Some t;
  value_round_trip (t : T) : ∃ v : Value,
    value_from_slice (to_vec (Value := Value) t : B) = Some v ∧
    encrypted_flag v = false ∧ from_value (B := B) v = Some t;
}.

(** The caller's encryption hooks. *)
Record Encryptor {B : Type} := mkEncryptor {
  encrypt : B → Result B;
  decrypt : B → Result B;
}.
Arguments Encryptor : clear implicits.

Section protect.
Context {B Value T64 T : Type} {J : JsonLib B Value T64} {Sd : Serde B Value T}.

(** [protect]. *)
Definition protect (enc : option (Encryptor B)) (value : T) : Result B :=
  let plain := to_vec (Value := Value) value in
  match enc with
  | None => Ok plain
  | Some e => ct ← encrypt e plain; Ok (envelope_to_vec (Value := Value) (b64_encode (Value := Value) ct))
  end.

(** [unprotect]. *)
Definition unprotect (enc : option (Encryptor B)) (data : B) : Result T :=
  v ← ok_or (value_from_slice (Value := Value) data) (Json "invalid JSON");
  if encrypted_flag (B := B) v then
    env ← ok_or (envelope_from_value v) (Json "invalid envelope");
    e ← ok_or enc (Protection "encrypted record requires an encryptor");
    ct ← ok_or (b64_decode (Value := Value) env) (Protection "invalid base64");
    plain ← decrypt e ct;
    ok_or (from_slice (Value := Value) plain) (Json "invalid record")
  else if bool_decide (is_Some enc)
  then Err (Protection "plaintext record rejected by encrypted store")
  else ok_or (from_value (B := B) v) (Json "invalid record").

(** Decryption inverts encryption, as the hook's contract says. *)
Definition encryptor_inverts (enc : option (Encryptor B)) : Prop :=
  ∀ e p c, enc = Some e → encrypt e p = Ok c → decrypt e c = Ok p.

Context {JL : JsonLaws B Value T64} {SL : SerdeLaws B Value T64 T}.

Lemma unprotect_protect enc t b :
  encryptor_inverts enc → protect enc t = Ok b → unprotect enc b = Ok t.
Proof.
  intros Hinv. unfold protect, unprotect. destruct enc as [e|].
  - intros Hp. inv_ok.
    edestruct envelope_round_trip as (v & -> & Hf & Hv). simpl. rewrite Hf, Hv. simpl.
    rewrite b64_round_trip. simpl. erewrite Hinv by done. simpl.
    by rewrite from_slice_to_vec.
  - intros [= <-]. destruct (value_round_trip (B := B) (Value := Value) (T64 := T64) t)
      as (v & -> & Hf & Hv). simpl. rewrite Hf. simpl. by rewrite Hv.
Qed.

Lemma unprotect_plaintext e t :
  unprotect (Some e) (to_vec (Value := Value) t) =
  Err (Protection "plaintext record rejected by encrypted store").
Proof.
  unfold unprotect. destruct (value_round_trip (B := B) (Value := Value) (T64 := T64) t)
    as (v & -> & Hf & Hv). simpl. by rewrite Hf.
Qed.

Lemma unprotect_ciphertext t64 :
  unprotect None (envelope_to_vec (Value := Value) t64) =
  Err (Protection "encrypted record requires an encryptor").
Proof.
  unfold unprotect. destruct (envelope_round_trip (B := B) (Value := Value) t64)
    as (v & -> & Hf & Hv). simpl. by rewrite Hf, Hv.
Qed.
End protect.

(** ** Versioned documents *)

(** The readers of [decode_document]: the header, a schema-2 document, a
    schema-1 record; and the law that a written document is read back. *)
Class DocCodec (B V : Type) := {
  header_version : B → option Z;              (* Header { schema_version } *)
  document_from_slice : B → option (Document V);
  v1_from_slice : B → option (V1 V);
  document_to_vec : Document V → B;
}.
Class DocCodecLaws (B V : Type) {C : DocCodec B V} : Prop := {
  header_round_trip d : header_version (document_to_vec d) = Some (document_version d);
  document_round_trip d : document_from_slice (document_to_vec d) = Some d;
}.

Section documents.
Context {B V : Type} {C : DocCodec B V}.

Definition with_version (s : RunSnapshot V) : RunSnapshot V :=
  with_header s SCHEMA_VERSION (event_sequence s) (created_at s) (updated_at s).

(** A document with both version fields set to the current schema. *)
Definition current (d : Document V) : Document V :=
  mkDocument SCHEMA_VERSION (with_version (snapshot d)) (events d).

(** [encode_document]. *)
Definition encode_document (d : Document V) : Result B :=
  _ ← check_version (document_version d) true;
  _ ← check_version (schema_version (snapshot d)) true;
  Ok (document_to_vec (current d)).

(** [decode_document]. *)
Definition decode_document (data : B) : Result (Document V) :=
  version ← ok_or (header_version (V := V) data) (Json "missing schema_version");
  if (version =? SCHEMA_VERSION)%Z then
    d ← ok_or (document_from_slice data) (Json "invalid document");
    _ ← check_version (schema_version (snapshot d)) true;
    Ok (mkDocument (document_version d) (with_version (snapshot d)) (events d))
  else if (version =? 1)%Z then
    old ← ok_or (v1_from_slice data) (Json "invalid schema 1 record");
    Ok (migrate_v1 old)
  else Err (UnsupportedSchema version).

Context {CL : DocCodecLaws B V}.

Lemma check_version_Ok v allow :
  check_version v allow = Ok tt ↔ v = SCHEMA_VERSION ∨ (allow = true ∧ v = 0%Z).
Proof.
  unfold check_version. rewrite ensure_Ok.
  destruct (Z.eqb_spec v SCHEMA_VERSION), allow, (Z.eqb_spec v 0); simpl;
    naive_solver.
Qed.

Lemma decode_encode d b :
  encode_document d = Ok b → decode_document b = Ok (current d).
Proof.
  unfold encode_document, decode_document. intros Hd. inv_ok.
  rewrite header_round_trip. simpl. by rewrite document_round_trip.
Qed.

(** What decoding returns is in the current schema, whatever was read. *)
Lemma decode_current b d :
  decode_document b = Ok d → schema_version (snapshot d) = SCHEMA_VERSION.
Proof.
  unfold decode_document. intros Hd. inv_ok.
  case_match; inv_ok; [done|]. by case_match; inv_ok.
Qed.
End documents.
