(* ===== verification/DurableFs.v ===== *)
(** * DurableFs: the filesystem run store

    [crates/adk-durable/src/filesystem.rs].  One record file per run,
    [tenants/<tenant>/<run>.json], holding the document and the lease; every
    operation takes the tenant's lock, so operations on a tenant are atomic
    steps of the state below.  Record writes go through a private temporary
    file and a rename: a failure is either before the rename (nothing changed)
    or after it (the new record is in place).

    Permissions, symlinks and hard links are the operating system's: the model
    starts from directories and records that pass those checks. *)

From S2P Require Import Prelude Text Durable DurableSpec DurableCodec.

(** [safe_id]. *)
Definition safe_byte (b : Ascii.ascii) : bool :=
  is_ascii_alphanumeric b || Ascii.eqb b "_"%char || Ascii.eqb b "-"%char.
Definition safe_id (value : string) : Result unit :=
  if is_empty value || (255 <? String.length value)%nat
     || negb (forallb safe_byte (bytes value))
  then Err (Invalid "unsafe filesystem ID")
  else Ok tt.

(** The path of a record below the store's root. *)
Definition record_path (tenant run : string) : list string :=
  ["tenants"; tenant; run +:+ ".json"].

Section filesystem.
Context {V B Value T64 : Type} {Ch : Chrono}.

(** The on-disk [Record]. *)
Record FileRecord := mkFileRecord {
  record_document : Value;
  record_lease : option Lease;
}.

Context {J : JsonLib B Value T64} {Sd : Serde B Value FileRecord} {C : DocCodec B V}.

(** [StoreOptions]. *)
Record StoreOptions := mkStoreOptions {
  opt_redactor : option (Redactor V);
  opt_encryptor : option (Encryptor B);
}.

(** The files and tenant directories below the root. *)
Record Fs := mkFs {
  files : gmap (list string) B;
  tenant_dirs : gset string;
}.

(** What one call meets: its first clock reading, an I/O failure before it
    changes anything, one after, the records a failing directory removal
    leaves, and the names a directory listing returns. *)
Record Env := mkEnv {
  now0 : time;
  fault_before : option string;
  fault_after : option string;
  survives : list string → bool;
  listing : list string;
}.

Notation M := (SE Fs DurableError).
Notation Ret := (DurableSpec.Ret (V := V)).
Notation Op := (DurableSpec.Op (V := V)).
Context (options : StoreOptions) (env : Env).

Definition io (fault : option string) : Result unit :=
  match fault with Some m => Err (Io m) | None => Ok tt end.

(** [lock]: the identifier check, then the operating system's lock. *)
Definition lock (tenant : string) : Result unit := safe_id tenant.
Definition tenant_dir (tenant : string) : Result unit := safe_id tenant.
Definition path (tenant run : string) : Result (list string) :=
  _ ← safe_id run; _ ← tenant_dir tenant; Ok (record_path tenant run).

(** The metadata loop of [read]; its state is the last sequence. *)
Definition check_event (tenant run : string) (bound : N) (seq : N) (e : Event V) : Result N :=
  if negb (String.eqb (event_tenant e) tenant) || negb (String.eqb (event_run e) run)
     || (sequence e <=? seq)%N || (bound <? sequence e)%N
  then Err (Invalid "event metadata does not match record")
  else Ok (sequence e).

Definition read (fs : Fs) (tenant run : string) : Result (Document V * option Lease) :=
  p ← path tenant run;
  _ ← io (fault_before env);
  data ← ok_or (files fs !! p) NotFound;
  rec ← unprotect (T := FileRecord) (opt_encryptor options) data;
  d ← decode_document (value_to_vec (record_document rec));
  _ ← validate_key (snapshot d) tenant run;
  _ ← foldM (check_event tenant run (event_sequence (snapshot d))) 0%N (events d);
  _ ← ensure (is_none_or (record_lease rec)
        (λ l, String.eqb (lease_tenant l) tenant && String.eqb (lease_run l) run))
        (Invalid "lease key does not match record");
  Ok (d, record_lease rec).

(** The bytes [write] renames into place, and where. *)
Definition encode_record (d : Document V) (lease : option Lease) : Result (list string * B) :=
  body ← encode_document d;
  v ← ok_or (value_from_slice body) (Json "invalid JSON");
  data ← protect (opt_encryptor options) (mkFileRecord v lease);
  p ← path (tenant_id (snapshot d)) (run_id (snapshot d));
  Ok (p, data).

Definition write (d : Document V) (lease : option Lease) : M unit := λ fs,
  match encode_record d lease with
  | Err e => (Err e, fs)
  | Ok (p, data) =>
      if bool_decide (tenant_id (snapshot d) ∈ tenant_dirs fs)
      then (io (fault_after env), mkFs (<[p := data]> (files fs)) (tenant_dirs fs))
      else (Err (Io "no such directory"), fs)
  end.

(** [check_lease]; the clock is read when expiry is checked. *)
Definition check_lease (stored : option Lease) (l : Lease) (now : option time) : Result unit :=
  match stored with
  | Some st =>
      if String.eqb (token st) (token l)
         && match now with None => true | Some n => (n <? expires_at st)%Z end
      then Ok tt else Err LeaseLost
  | None => Err LeaseLost
  end.

(** ** The [RunStore] operations *)

Definition create (now : time) (s : RunSnapshot V) : M Ret :=
  _ ← lift (validate_snapshot s);
  _ ← lift (lock (tenant_id s));
  _ ← lift (tenant_dir (tenant_id s));
  fs ← get;
  _ ← put (mkFs (files fs) ({[tenant_id s]} ∪ tenant_dirs fs));
  p ← lift (path (tenant_id s) (run_id s));
  _ ← lift (io (fault_before env));
  _ ← lift (ensure (bool_decide (files fs !! p = None)) AlreadyExists);
  s' ← lift (prepare_create now (opt_redactor options) s);
  _ ← write (mkDocument SCHEMA_VERSION s' []) None;
  mret RetUnit.

Definition load (tenant run : string) : M Ret :=
  _ ← lift (lock tenant);
  fs ← get;
  '(d, _) ← lift (read fs tenant run);
  mret (RetLoaded (snapshot d) (events d)).

Definition append (check now : time) (new_id : nat → string) (l : Lease) (expected : N)
    (evs : list (Event V)) (s : RunSnapshot V) : M Ret :=
  _ ← lift (lock (lease_tenant l));
  fs ← get;
  '(d, stored) ← lift (read fs (lease_tenant l) (lease_run l));
  _ ← lift (check_lease stored l (Some check));
  _ ← lift (ensure (revision (snapshot d) =? expected)%N Conflict);
  '(updated, evs') ← lift (prepare_append now (opt_redactor options) new_id l expected
                             (event_sequence (snapshot d)) evs s);
  _ ← write (mkDocument (document_version d) updated (events d ++ evs')) stored;
  mret (RetSnapshot updated).

Definition acquire_lease (now : time) (fresh tenant run owner : string) (ttl : N) : M Ret :=
  if is_empty owner then fail (Invalid "lease owner is required") else
  _ ← lift (expiry (now0 env) ttl);
  _ ← lift (lock tenant);
  fs ← get;
  '(d, stored) ← lift (read fs tenant run);
  _ ← lift (ensure (negb (is_some_and stored (λ l, (now <? expires_at l)%Z))) LeaseHeld);
  t ← lift (expiry now ttl);
  let lease := mkLease tenant run owner fresh t in
  _ ← write d (Some lease);
  mret (RetLease lease).

Definition renew_lease (check now : time) (l : Lease) (ttl : N) : M Ret :=
  _ ← lift (expiry (now0 env) ttl);
  _ ← lift (lock (lease_tenant l));
  fs ← get;
  '(d, stored) ← lift (read fs (lease_tenant l) (lease_run l));
  _ ← lift (check_lease stored l (Some check));
  st ← lift (ok_or stored LeaseLost);
  t ← lift (expiry now ttl);
  let renewed := mkLease (lease_tenant st) (lease_run st) (owner st) (token st) t in
  _ ← write d (Some renewed);
  mret (RetLease renewed).

Definition release_lease (l : Lease) : M Ret :=
  _ ← lift (lock (lease_tenant l));
  fs ← get;
  '(d, stored) ← lift (read fs (lease_tenant l) (lease_run l));
  _ ← lift (check_lease stored l None);
  _ ← write d None;
  mret RetUnit.

(** [fs::remove_file] and the directory sync that follows it. *)
Definition remove_file (p : list string) : M unit := λ fs,
  match io (fault_before env) with
  | Err e => (Err e, fs)
  | Ok _ =>
      match files fs !! p with
      | None => (Err NotFound, fs)
      | Some _ => (io (fault_after env), mkFs (delete p (files fs)) (tenant_dirs fs))
      end
  end.

Definition delete_run (tenant run : string) : M Ret :=
  _ ← lift (lock tenant);
  p ← lift (path tenant run);
  _ ← remove_file p;
  mret RetUnit.

(** The directory of a tenant contains a path. *)
Definition in_tenant (tenant : string) (p : list string) : bool :=
  match p with
  | [root; t; _] => String.eqb root "tenants" && String.eqb t tenant
  | _ => false
  end.

(** [fs::remove_dir_all]: when it fails, some records may be gone already. *)
Definition remove_dir (tenant : string) : M Ret := λ fs,
  let keep (failed : bool) (pb : list string * B) :=
    negb (in_tenant tenant pb.1) || (failed && survives env pb.1) in
  match io (fault_before env) with
  | Err e => (Err e, mkFs (filter (λ pb, keep true pb) (files fs)) (tenant_dirs fs))
  | Ok _ =>
      (match io (fault_after env) with Ok _ => Ok RetUnit | Err e => Err e end,
       mkFs (filter (λ pb, keep false pb) (files fs)) (tenant_dirs fs ∖ {[tenant]}))
  end.

Definition delete_tenant (tenant : string) : M Ret :=
  _ ← lift (lock tenant);
  _ ← lift (tenant_dir tenant);
  remove_dir tenant.

(** One entry of the inner loop of [apply_retention]: the count so far. *)
Definition retain_entry (now : time) (tenant : string) (deleted : N) (name : string) : M N :=
  match strip_suffix ".json" name with
  | None => mret deleted
  | Some run =>
      fs ← get;
      '(d, _) ← lift (read fs tenant run);
      if is_some_and (retain_until (snapshot d)) (λ u, (u <=? now)%Z)
      then _ ← remove_file ["tenants"; tenant; name]; mret (deleted + 1)%N
      else mret deleted
  end.
Fixpoint retain_entries (now : time) (tenant : string) (deleted : N) (names : list string)
    : M N :=
  match names with
  | [] => mret deleted
  | name :: names =>
      deleted' ← retain_entry now tenant deleted name;
      retain_entries now tenant deleted' names
  end.

(** One tenant directory of [apply_retention], under that tenant's lock. *)
Definition retain_tenant (now : time) (tenant : string) : M Ret :=
  match safe_id tenant with
  | Err _ => mret (RetCount 0)
  | Ok _ =>
      n ← retain_entries now tenant 0 (listing env);
      mret (RetCount n)
  end.

(** A call of the store's interface. *)
Definition exec (op : Op) : M Ret :=
  match op with
  | OpCreate now s => create now s
  | OpLoad k => load k.1 k.2
  | OpAppend check now new_id l expected evs s => append check now new_id l expected evs s
  | OpAcquire now fresh k owner ttl => acquire_lease now fresh k.1 k.2 owner ttl
  | OpRenew check now l ttl => renew_lease check now l ttl
  | OpRelease l => release_lease l
  | OpDeleteRun k => delete_run k.1 k.2
  | OpDeleteTenant t => delete_tenant t
  | OpRetain now t => retain_tenant now t
  end.

(** ** Refinement of the store contract *)

(** A tenant or run identifier usable as a file name. *)
Definition safe (value : string) : Prop := safe_id value = Ok tt.

(** [data] is a record holding exactly the entry [e]. *)
Definition stored (data : B) (e : Entry V) : Prop :=
  ∃ v, unprotect (opt_encryptor options) data = Ok (mkFileRecord v (entry_lease e)) ∧
    decode_document (value_to_vec v) =
    Ok (mkDocument SCHEMA_VERSION (entry_snapshot e) (entry_events e)).

Record refines (fs : Fs) (σ : gmap key (Entry V)) : Prop := {
  ref_entry k e : σ !! k = Some e →
    safe k.1 ∧ safe k.2 ∧ k.1 ∈ tenant_dirs fs ∧
    ∃ data, files fs !! record_path k.1 k.2 = Some data ∧ stored data e;
  ref_file p data : files fs !! p = Some data →
    ∃ k, p = record_path k.1 k.2 ∧ is_Some (σ !! k);
  ref_wf : wf σ;
}.

(** Different runs never share a file. *)
Lemma record_path_inj k k' : record_path k.1 k.2 = record_path k'.1 k'.2 → k = k'.
Proof.
  destruct k as [t r], k' as [t' r']. unfold record_path. intros [= -> Hr].
  apply (inj (λ s, s +:+ ".json")) in Hr. by subst.
Qed.

Lemma refines_files fs σ k : refines fs σ →
  files fs !! record_path k.1 k.2 = None ↔ σ !! k = None.
Proof.
  intros Href. rewrite !eq_None_not_Some. apply not_iff_compat. split.
  - intros [data Hd]. apply (ref_file _ _ Href) in Hd as (k' & Hp & Hs).
    by apply record_path_inj in Hp as ->.
  - intros [e He]. apply (ref_entry _ _ Href) in He as (_ & _ & _ & data & Hd & _). by eexists.
Qed.

Lemma refines_insert fs σ k e data :
  refines fs σ → safe k.1 → safe k.2 → k.1 ∈ tenant_dirs fs → stored data e →
  wf (<[k := e]> σ) →
  refines (mkFs (<[record_path k.1 k.2 := data]> (files fs)) (tenant_dirs fs)) (<[k := e]> σ).
Proof.
  intros Href Hs1 Hs2 Hd Hst Hwf. constructor; simpl; [| |done].
  - intros k' e' [(<- & <-)|(Hne & He')]%lookup_insert_Some.
    + split_and!; try done. exists data. by rewrite lookup_insert_eq.
    + apply (ref_entry _ _ Href) in He' as (? & ? & ? & data' & ? & ?).
      split_and!; try done. exists data'. rewrite lookup_insert_ne; [done|].
      by intros ?%record_path_inj.
  - intros p data' [(<- & <-)|(_ & Hp)]%lookup_insert_Some.
    + exists k. split; [done|]. by rewrite lookup_insert_eq.
    + apply (ref_file _ _ Href) in Hp as (k' & -> & ?). exists k'.
      split; [done|]. destruct (decide (k = k')) as [->|].
      * by rewrite lookup_insert_eq.
      * by rewrite lookup_insert_ne.
Qed.

(** Removing some entries and exactly their files. *)
Lemma refines_remove fs σ fs' σ' :
  refines fs σ → σ' ⊆ σ → files fs' ⊆ files fs →
  (∀ k, is_Some (σ' !! k) ↔ is_Some (files fs' !! record_path k.1 k.2)) →
  (∀ k, is_Some (σ' !! k) → k.1 ∈ tenant_dirs fs → k.1 ∈ tenant_dirs fs') →
  refines fs' σ'.
Proof.
  intros Href Hsub Hfs Hiff Hdirs. constructor.
  - intros k e He. pose proof (lookup_weaken _ _ _ _ He Hsub) as He0.
    apply (ref_entry _ _ Href) in He0 as (? & ? & ? & data & Hd & ?).
    split_and!; try done; [by eapply Hdirs|]. exists data. split; [|done].
    destruct (proj1 (Hiff k) (ex_intro _ e He)) as [data' Hd'].
    pose proof (lookup_weaken _ _ _ _ Hd' Hfs). by simplify_eq.
  - intros p data Hd. pose proof (lookup_weaken _ _ _ _ Hd Hfs) as Hd0.
    apply (ref_file _ _ Href) in Hd0 as (k & -> & _). exists k. split; [done|].
    apply Hiff. by eexists.
  - intros k e He. eapply (ref_wf _ _ Href), lookup_weaken, Hsub; done.
Qed.

(** ** Reading back what was written *)

Class FileLaws : Prop := {
  file_serde :: SerdeLaws B Value T64 FileRecord;
  file_json :: JsonLaws B Value T64;
  (* a document survives being embedded as a JSON value *)
  document_value (d : Document V) : ∃ v : Value,
    value_from_slice (document_to_vec d) = Some v ∧
    header_version (V := V) (value_to_vec v) = Some (document_version d) ∧
    document_from_slice (value_to_vec v) = Some d;
  encryptor_ok : encryptor_inverts (opt_encryptor options);
}.

Lemma with_version_id (s : RunSnapshot V) :
  schema_version s = SCHEMA_VERSION → with_version s = s.
Proof. destruct s; simpl; intros ->; done. Qed.

Lemma check_events_increasing t r bound seq evs :
  Forall (λ ev, (event_tenant ev, event_run ev) = (t, r)) evs →
  increasing seq bound evs →
  is_ok (foldM (check_event t r bound) seq evs) = true.
Proof.
  revert seq. induction evs as [|e evs IH]; intros seq; simpl; [done|].
  intros [[= <- <-] Hk]%Forall_cons (? & ? & Hi). unfold check_event at 1.
  rewrite !String.eqb_refl. simpl.
  destruct (N.leb_spec (sequence e) seq), (N.ltb_spec bound (sequence e)); try lia. simpl.
  by apply IH.
Qed.

Lemma path_Ok t r p : path t r = Ok p ↔ safe t ∧ safe r ∧ p = record_path t r.
Proof.
  unfold path, tenant_dir, safe. split.
  - intros Hp. inv_ok. done.
  - intros (-> & -> & ->). done.
Qed.

Lemma read_refines fs σ t r d l :
  refines fs σ → read fs t r = Ok (d, l) →
  ∃ e, σ !! (t, r) = Some e ∧ safe t ∧
    d = mkDocument SCHEMA_VERSION (entry_snapshot e) (entry_events e) ∧ l = entry_lease e.
Proof.
  intros Href Hr. unfold read in Hr. inv_ok. fwd path_Ok. destruct_and!. subst.
  destruct (σ !! (t, r)) as [e|] eqn:He.
  - exists e. split; [done|].
    apply (ref_entry _ _ Href) in He as (_ & _ & _ & data & Hd & v & Hu & Hdec). simpl in Hd.
    det. simpl in *. det. done.
  - apply (refines_files _ _ _ Href) in He. simpl in He. congruence.
Qed.

Lemma read_complete fs σ t r e :
  refines fs σ → fault_before env = None → σ !! (t, r) = Some e →
  read fs t r =
  Ok (mkDocument SCHEMA_VERSION (entry_snapshot e) (entry_events e), entry_lease e).
Proof.
  intros Href Hio He. pose proof (ref_wf _ _ Href _ _ He) as [Hk Hv Hevs Hseq Hl].
  apply (ref_entry _ _ Href) in He as (Ht & Hr & _ & data & Hd & v & Hu & Hdec).
  simpl in *. unfold read. rewrite (proj2 (path_Ok t r _)) by done. simpl.
  rewrite Hio. simpl. rewrite Hd. simpl. rewrite Hu. simpl. rewrite Hdec. simpl.
  unfold validate_key. unfold snapshot_key in Hk. injection Hk as -> ->.
  rewrite !String.eqb_refl. simpl.
  apply (check_events_increasing t r) in Hseq; [|done].
  destruct (foldM _ _ _) as [n|]; [|done]. simpl.
  destruct (entry_lease e) as [l|]; simpl in *; [|done].
  apply bool_decide_eq_true in Hl. unfold lease_key in Hl. injection Hl as -> ->.
  by rewrite !String.eqb_refl.
Qed.

(** ** Simulation *)

(** The outcome of a call is one the contract allows, and the state still
    refines the contract's. *)
Definition sim (σ : gmap key (Entry V)) (op : Op) (out : Result Ret * Fs) : Prop :=
  ∃ σ', spec_step (opt_redactor options) σ op out.1 σ' ∧ refines out.2 σ'.

Lemma sim_err fs σ op e : refines fs σ → sim σ op (Err e, fs).
Proof. intros. exists σ. by split; [apply spec_err|]. Qed.

Lemma SE_lift_bind {A R} (r : Result A) (f : A → M R) fs :
  (lift r ≫= f) fs = match r with Ok a => f a fs | Err e => (Err e, fs) end.
Proof. by destruct r. Qed.

Lemma sim_lift {A} fs σ op (r : Result A) (f : A → M Ret) :
  refines fs σ → (∀ a, r = Ok a → sim σ op (f a fs)) → sim σ op ((lift r ≫= f) fs).
Proof. rewrite SE_lift_bind. destruct r; eauto using sim_err. Qed.

Context {FL : FileLaws}.

Lemma encode_record_stored s evs lease p data :
  schema_version s = SCHEMA_VERSION →
  encode_record (mkDocument SCHEMA_VERSION s evs) lease = Ok (p, data) →
  safe (tenant_id s) ∧ safe (run_id s) ∧ p = record_path (tenant_id s) (run_id s) ∧
  stored data (mkEntry s evs lease).
Proof.
  intros Hv. unfold encode_record. intros He. inv_ok. fwd path_Ok. destruct_and!. subst.
  split_and!; try done.
  match goal with H : encode_document _ = Ok _ |- _ => rename H into Henc end.
  unfold encode_document in Henc. inv_ok. unfold current in *. simpl in *.
  rewrite with_version_id in * by done.
  destruct (document_value (mkDocument SCHEMA_VERSION s evs)) as (v & Hval & Hh & Hd).
  simplify_eq. eexists. split; simpl.
  - eapply unprotect_protect; [apply encryptor_ok|eassumption].
  - unfold decode_document. rewrite Hh. simpl. rewrite Hd. simpl. rewrite Hv. simpl.
    by rewrite with_version_id.
Qed.

(** The tail of every mutating call: one record write, then the reply. *)
Lemma sim_write fs σ op s evs lease r k :
  refines fs σ → schema_version s = SCHEMA_VERSION → k = (tenant_id s, run_id s) →
  post (opt_redactor options) op σ r (<[k := mkEntry s evs lease]> σ) →
  sim σ op ((write (mkDocument SCHEMA_VERSION s evs) lease ≫= λ _, mret r) fs).
Proof.
  intros Href Hv -> Hpost. unfold write, mbind, SE_bind.
  destruct (encode_record _ _) as [[p data]|e] eqn:Henc; [|by apply sim_err].
  apply encode_record_stored in Henc as (Hs1 & Hs2 & -> & Hst); [|done].
  simpl. case_bool_decide as Hdir; [|by apply sim_err].
  assert (refines (mkFs (<[record_path (tenant_id s) (run_id s) := data]> (files fs))
    (tenant_dirs fs)) (<[(tenant_id s, run_id s) := mkEntry s evs lease]> σ)) as Href'.
  { apply (refines_insert fs σ (tenant_id s, run_id s)); try done.
    eapply post_wf; [apply (ref_wf _ _ Href)|done]. }
  eexists. unfold io. destruct (fault_after env); simpl; (split; [|done]).
  - by eapply spec_ambiguous.
  - by apply spec_ok.
Qed.

Lemma SE_get_bind {A} (f : Fs → M A) fs : (get ≫= f) fs = f fs fs.
Proof. done. Qed.
Lemma SE_put_bind {A} fs' (f : unit → M A) fs : (put fs' ≫= f) fs = f tt fs'.
Proof. done. Qed.

Lemma refines_mkdir fs σ t :
  refines fs σ → refines (mkFs (files fs) ({[t]} ∪ tenant_dirs fs)) σ.
Proof.
  intros Href. eapply refines_remove; try done.
  - intros k. simpl. rewrite <-!not_eq_None_Some. apply not_iff_compat.
    symmetry. by apply refines_files.
  - simpl. set_solver.
Qed.

Lemma sim_create fs σ now s : refines fs σ → sim σ (OpCreate now s) (create now s fs).
Proof.
  intros Href. unfold create.
  apply sim_lift; [done|]. intros [] Hval.
  apply sim_lift; [done|]. intros [] Hlock.
  apply sim_lift; [done|]. intros [] _.
  rewrite SE_get_bind, SE_put_bind.
  pose proof (refines_mkdir _ _ (tenant_id s) Href) as Href'.
  apply sim_lift; [done|]. intros p (_ & _ & ->)%path_Ok.
  apply sim_lift; [done|]. intros [] _.
  apply sim_lift; [done|]. intros [] Hnone%ensure_Ok%bool_decide_eq_true.
  apply sim_lift; [done|]. intros s' Hs'.
  pose proof (prepare_create_fields _ _ _ _ Hs') as (Hv & Hk & _).
  apply (sim_write _ _ _ _ _ _ _ (snapshot_key s)); [done|done|done|].
  exists s'. split_and!; try done.
  by apply (refines_files _ _ (snapshot_key s) Href).
Qed.

Lemma sim_load fs σ k : refines fs σ → sim σ (OpLoad k) (load k.1 k.2 fs).
Proof.
  intros Href. unfold load. destruct k as [t r].
  apply sim_lift; [done|]. intros [] _. rewrite SE_get_bind.
  apply sim_lift; [done|]. intros [d l] Hr.
  eapply read_refines in Hr as (e & He & _ & -> & ->); [|done].
  exists σ. split; [|done]. apply spec_ok. by exists e.
Qed.

Lemma check_lease_Ok st l now :
  check_lease st l now = Ok tt ↔ lease_matches st l now = true.
Proof.
  unfold check_lease, lease_matches. destruct st as [st|]; simpl; [|done].
  destruct now; simpl; by destruct (String.eqb _ _ && _).
Qed.

Lemma wf_snapshot_key fs σ k e :
  refines fs σ → σ !! k = Some e →
  k = (tenant_id (entry_snapshot e), run_id (entry_snapshot e)) ∧
  schema_version (entry_snapshot e) = SCHEMA_VERSION.
Proof.
  intros Href He. destruct (ref_wf _ _ Href _ _ He) as [<- ? _ _ _]. done.
Qed.

Lemma sim_append fs σ check now ids l n evs s :
  refines fs σ →
  sim σ (OpAppend check now ids l n evs s) (append check now ids l n evs s fs).
Proof.
  intros Href. unfold append.
  apply sim_lift; [done|]. intros [] _. rewrite SE_get_bind.
  apply sim_lift; [done|]. intros [d st] Hr.
  eapply read_refines in Hr as (e & He & _ & -> & ->); [|done].
  apply sim_lift; [done|]. intros [] Hl%check_lease_Ok.
  apply sim_lift; [done|]. intros [] Hn%ensure_Ok%N.eqb_eq.
  apply sim_lift; [done|]. intros [s' evs'] Hp. simpl in *.
  pose proof (prepare_append_fields _ _ _ _ _ _ _ _ _ _ Hp) as Hf. destruct_and!.
  apply (sim_write _ _ _ _ _ _ _ (lease_key l)); [done|done|done|].
  exists e, s', evs'. by split_and!.
Qed.

Lemma sim_acquire fs σ now fresh k o ttl :
  refines fs σ →
  sim σ (OpAcquire now fresh k o ttl) (acquire_lease now fresh k.1 k.2 o ttl fs).
Proof.
  intros Href. unfold acquire_lease. destruct k as [t r]. simpl.
  destruct (is_empty o) eqn:Ho; [by apply sim_err|].
  apply sim_lift; [done|]. intros t0 _.
  apply sim_lift; [done|]. intros [] _. rewrite SE_get_bind.
  apply sim_lift; [done|]. intros [d st] Hr.
  eapply read_refines in Hr as (e & He & _ & -> & ->); [|done].
  apply sim_lift; [done|]. intros [] Hfree%ensure_Ok%negb_true_iff.
  apply sim_lift; [done|]. intros exp Hexp.
  destruct (wf_snapshot_key _ _ _ _ Href He) as [Hk Hv].
  apply (sim_write _ _ _ _ _ _ _ (t, r)); [done|done|done|].
  exists e, exp. split_and!; try done.
  - by apply String.eqb_neq.
  - destruct (entry_lease e) as [st|]; simpl in *; [|done].
    apply Z.ltb_ge in Hfree. by apply Z.leb_le.
Qed.

Lemma sim_renew fs σ check now l ttl :
  refines fs σ → sim σ (OpRenew check now l ttl) (renew_lease check now l ttl fs).
Proof.
  intros Href. unfold renew_lease.
  apply sim_lift; [done|]. intros t0 _.
  apply sim_lift; [done|]. intros [] _. rewrite SE_get_bind.
  apply sim_lift; [done|]. intros [d st] Hr.
  eapply read_refines in Hr as (e & He & _ & -> & ->); [|done].
  apply sim_lift; [done|]. intros [] Hl%check_lease_Ok.
  apply sim_lift; [done|]. intros st Hst%ok_or_Ok.
  apply sim_lift; [done|]. intros exp Hexp.
  destruct (wf_snapshot_key _ _ _ _ Href He) as [Hk Hv].
  apply (sim_write _ _ _ _ _ _ _ (lease_key l)); [done|done|done|].
  exists e, st, exp. rewrite Hst in Hl. by split_and!.
Qed.

Lemma sim_release fs σ l : refines fs σ → sim σ (OpRelease l) (release_lease l fs).
Proof.
  intros Href. unfold release_lease.
  apply sim_lift; [done|]. intros [] _. rewrite SE_get_bind.
  apply sim_lift; [done|]. intros [d st] Hr.
  eapply read_refines in Hr as (e & He & _ & -> & ->); [|done].
  apply sim_lift; [done|]. intros [] Hl%check_lease_Ok.
  destruct (wf_snapshot_key _ _ _ _ Href He) as [Hk Hv].
  apply (sim_write _ _ _ _ _ _ _ (lease_key l)); [done|done|done|].
  exists e. by split_and!.
Qed.

Lemma lookup_is_Some_iff fs σ k :
  refines fs σ → is_Some (σ !! k) ↔ is_Some (files fs !! record_path k.1 k.2).
Proof.
  intros Href. rewrite <-!not_eq_None_Some. apply not_iff_compat. symmetry.
  by apply refines_files.
Qed.

(** Removing one record removes one entry. *)
Lemma refines_delete fs σ k :
  refines fs σ →
  refines (mkFs (delete (record_path k.1 k.2) (files fs)) (tenant_dirs fs)) (delete k σ).
Proof.
  intros Href. eapply refines_remove; simpl; try done.
  - apply delete_subseteq.
  - apply delete_subseteq.
  - intros k'. destruct (decide (k = k')) as [->|Hne].
    + by rewrite !lookup_delete_eq.
    + rewrite !lookup_delete_ne; [by apply lookup_is_Some_iff|by intros ?%record_path_inj|done].
Qed.

(** [remove_file] on a record: nothing, or the entry is gone. *)
Lemma remove_file_cases fs σ k out :
  refines fs σ → remove_file (record_path k.1 k.2) fs = out →
  (∃ e, out = (Err e, fs)) ∨
  (is_Some (σ !! k) ∧ refines out.2 (delete k σ) ∧
   (out.1 = Ok tt ∨ ∃ m, out.1 = Err (Io m))).
Proof.
  intros Href <-. unfold remove_file. destruct (io (fault_before env)); [|left; by eexists].
  destruct (files fs !! _) as [data|] eqn:Hd; [|left; by eexists]. right. split_and!.
  - eapply lookup_is_Some_iff; [done|]. by eexists.
  - by apply refines_delete.
  - unfold io. destruct (fault_after env); simpl; eauto.
Qed.

Lemma sim_delete_run fs σ k : refines fs σ → sim σ (OpDeleteRun k) (delete_run k.1 k.2 fs).
Proof.
  intros Href. unfold delete_run.
  apply sim_lift; [done|]. intros [] _.
  apply sim_lift; [done|]. intros p (_ & _ & ->)%path_Ok.
  unfold mbind, SE_bind. destruct (remove_file _ fs) as [r fs'] eqn:Hrm.
  destruct (remove_file_cases fs σ k (r, fs') Href Hrm) as [(e & [= -> ->])|(Hk & Href' & Hr)];
    [by apply sim_err|].
  simpl in *. exists (delete k σ).
  destruct Hr as [-> | [m ->]]; (split; [|done]).
  - by apply spec_ok.
  - by eapply (spec_ambiguous _ _ _ RetUnit).
Qed.

Lemma in_tenant_path t k : in_tenant t (record_path k.1 k.2) = String.eqb k.1 t.
Proof. done. Qed.
#[local] Arguments in_tenant : simpl never.

(** Keeping the records that satisfy [keep], in the store and on disk. *)
Lemma refines_filter fs σ (keep : list string → bool) dirs :
  refines fs σ →
  (∀ k, keep (record_path k.1 k.2) = true → k.1 ∈ tenant_dirs fs → k.1 ∈ dirs) →
  refines (mkFs (filter (λ pb, keep pb.1) (files fs)) dirs)
    (filter (λ ke, keep (record_path ke.1.1 ke.1.2)) σ).
Proof.
  intros Href Hdirs. eapply refines_remove; simpl; [done|apply map_filter_subseteq..| |].
  - intros k. rewrite <-!not_eq_None_Some, !map_lookup_filter_None. simpl.
    pose proof (refines_files _ _ k Href) as Hf. apply not_iff_compat. rewrite Hf.
    apply or_iff_compat_l. destruct (lookup_is_Some_iff _ _ k Href) as [H1 H2].
    split; intros H x Hx.
    + destruct H2 as [y Hy]; [by eexists|]. by apply (H y).
    + destruct H1 as [y Hy]; [by eexists|]. by apply (H y).
  - intros k [x [_ Hx]%map_lookup_filter_Some]. by apply Hdirs, Is_true_true.
Qed.

Lemma sim_delete_tenant fs σ t : refines fs σ → sim σ (OpDeleteTenant t) (delete_tenant t fs).
Proof.
  intros Href. unfold delete_tenant.
  apply sim_lift; [done|]. intros [] _.
  apply sim_lift; [done|]. intros [] _. unfold remove_dir.
  destruct (io (fault_before env)) as [[]|e].
  - set (keep := λ p, negb (in_tenant t p) || (false && survives env p)).
    pose proof (refines_filter fs σ keep (tenant_dirs fs ∖ {[t]}) Href) as Href'.
    assert (filter (λ ke : key * Entry V, keep (record_path ke.1.1 ke.1.2)) σ
            = filter (λ ke, ke.1.1 ≠ t) σ) as Heq.
    { apply map_filter_ext. intros k e _. unfold keep. simpl.
      rewrite in_tenant_path, orb_false_r. destruct (String.eqb_spec k.1 t); simpl; naive_solver. }
    rewrite Heq in Href'. exists (filter (λ ke, ke.1.1 ≠ t) σ). split; simpl.
    + unfold io. destruct (fault_after env); simpl.
      * by eapply (spec_ambiguous _ _ _ RetUnit).
      * by apply spec_ok.
    + apply Href'. intros k. unfold keep. rewrite in_tenant_path, orb_false_r.
      destruct (String.eqb_spec k.1 t); simpl; set_solver.
  - set (keep := λ p, negb (in_tenant t p) || (true && survives env p)).
    exists (filter (λ ke, keep (record_path ke.1.1 ke.1.2)) σ). split; simpl.
    + apply spec_partial; [apply map_filter_subseteq|].
      intros k x Hx [Hn|Hn]%map_lookup_filter_None; [congruence|]. simpl.
      specialize (Hn x Hx). unfold keep in Hn. simpl in Hn. rewrite in_tenant_path in Hn.
      by destruct (String.eqb_spec k.1 t); simpl in Hn.
    + by apply (refines_filter fs σ keep).
Qed.

(** ** Retention *)

(** What the retention loop has done when it has gone through [names]. *)
Record swept (now : time) (t : string) (names : list string)
    (σ σ' : gmap key (Entry V)) (n n' : N) : Prop := {
  swept_sub : σ' ⊆ σ;
  swept_gone k e : σ !! k = Some e → σ' !! k = None → k.1 = t ∧ expired now e = true;
  swept_count : (n' + N.of_nat (size σ') = n + N.of_nat (size σ))%N;
  swept_names run e : (run +:+ ".json") ∈ names → σ' !! (t, run) = Some e → expired now e = false;
}.

Lemma swept_nil now t σ n : swept now t [] σ σ n n.
Proof. constructor; try done; [congruence|]. by intros ? ? ?%elem_of_nil. Qed.

Lemma swept_cons now t name names σ σ1 σ2 n n1 n2 :
  swept now t [name] σ σ1 n n1 → swept now t names σ1 σ2 n1 n2 →
  swept now t (name :: names) σ σ2 n n2.
Proof.
  intros [S1 G1 C1 N1] [S2 G2 C2 N2]. constructor.
  - by trans σ1.
  - intros k e He Hn. destruct (σ1 !! k) as [e'|] eqn:H1; [|by eauto].
    pose proof (lookup_weaken _ _ _ _ H1 S1). simplify_eq. eauto.
  - lia.
  - intros run e [Hn|Hn]%elem_of_cons He; [|by eauto].
    eapply N1; [by rewrite Hn; left|]. by eapply lookup_weaken.
Qed.

(** One entry: either the record was expired and is gone, or it stays. *)
Lemma retain_entry_swept fs σ now t n name :
  refines fs σ → safe t →
  ∃ σ', refines (retain_entry now t n name fs).2 σ' ∧ σ' ⊆ σ ∧
    (∀ k e, σ !! k = Some e → σ' !! k = None → k.1 = t ∧ expired now e = true) ∧
    ∀ n', (retain_entry now t n name fs).1 = Ok n' → swept now t [name] σ σ' n n'.
Proof.
  intros Href Ht. unfold retain_entry.
  destruct (strip_suffix ".json" name) as [run|] eqn:Hname.
  - apply strip_suffix_Some in Hname as ->. rewrite SE_get_bind, SE_lift_bind.
    destruct (read fs t run) as [[d l]|e] eqn:Hr.
    2: { exists σ. split_and!; try done. simpl. congruence. }
    eapply read_refines in Hr as (e & He & _ & -> & ->); [|done]. simpl.
    change (is_some_and _ _) with (expired now e). destruct (expired now e) eqn:Hexp.
    + change ["tenants"; t; run +:+ ".json"] with (record_path (t, run).1 (t, run).2).
      unfold mbind, SE_bind. destruct (remove_file _ fs) as [r fs'] eqn:Hrm.
      destruct (remove_file_cases fs σ (t, run) (r, fs') Href Hrm)
        as [(err & [= -> ->])|(_ & Href' & Hcase)]; simpl.
      { exists σ. split_and!; try done. congruence. }
      exists (delete (t, run) σ).
      assert (∀ k e, σ !! k = Some e → delete (t, run) σ !! k = None →
        k.1 = t ∧ expired now e = true) as Hgone.
      { intros k e' Hk [<-|Hn]%lookup_delete_None; [|congruence]. by simplify_eq. }
      simpl in Hcase, Href'.
      split_and!; [by destruct Hcase as [-> | [m ->]]|apply delete_subseteq|done|].
      intros n' Hn'. destruct Hcase as [->|[m ->]]; [|done].
      injection Hn' as <-. constructor; [apply delete_subseteq|done| |].
      * assert (size (delete (t, run) σ) = Nat.pred (size σ)) as Hsz
          by (apply map_size_delete_Some; by eexists).
        assert (size σ ≠ 0) by (apply map_size_ne_0_lookup_2 with (t, run); by eexists).
        rewrite Hsz. lia.
      * intros run' e' Hin%list_elem_of_singleton He'.
        apply (inj (λ s, s +:+ ".json")) in Hin as ->. by rewrite lookup_delete_eq in He'.
    + exists σ. split_and!; try done; [congruence|]. intros n' [= <-].
      constructor; try done; [congruence|].
      intros run' e' Hin%list_elem_of_singleton He'.
      apply (inj (λ s, s +:+ ".json")) in Hin as ->. by simplify_eq.
  - exists σ. split_and!; try done; [congruence|]. intros n' [= <-].
    constructor; try done; [congruence|].
    intros run' e' Hin%list_elem_of_singleton He'. subst.
    by rewrite (proj2 (strip_suffix_Some _ _ run') eq_refl) in Hname.
Qed.

Lemma retain_entries_swept names fs σ now t n :
  refines fs σ → safe t →
  ∃ σ', refines (retain_entries now t n names fs).2 σ' ∧ σ' ⊆ σ ∧
    (∀ k e, σ !! k = Some e → σ' !! k = None → k.1 = t ∧ expired now e = true) ∧
    ∀ n', (retain_entries now t n names fs).1 = Ok n' → swept now t names σ σ' n n'.
Proof.
  revert fs σ n. induction names as [|name names IH]; intros fs σ n Href Ht; simpl.
  { exists σ. split_and!; try done; [congruence|]. intros n' [= <-]. apply swept_nil. }
  destruct (retain_entry_swept fs σ now t n name Href Ht) as (σ1 & Href1 & Hsub1 & Hg1 & Hok1).
  unfold mbind, SE_bind. destruct (retain_entry now t n name fs) as [[n1|e] fs1]; simpl in *.
  2: { exists σ1. split_and!; try done. }
  destruct (IH fs1 σ1 n1 Href1 Ht) as (σ2 & Href2 & Hsub2 & Hg2 & Hok2).
  exists σ2. split_and!; [done|by trans σ1| |].
  - intros k e He Hn. destruct (σ1 !! k) as [e'|] eqn:H1; [|by eauto].
    pose proof (lookup_weaken _ _ _ _ H1 Hsub1). simplify_eq. eauto.
  - intros n' Hn'. eapply swept_cons; eauto.
Qed.

(** The listing of a tenant directory names every record in it. *)
Definition complete_listing (fs : Fs) : Prop :=
  ∀ t run, is_Some (files fs !! record_path t run) → (run +:+ ".json") ∈ listing env.

Lemma sim_retain fs σ now t :
  refines fs σ → complete_listing fs → sim σ (OpRetain now t) (retain_tenant now t fs).
Proof.
  intros Href Hlist. unfold retain_tenant. destruct (safe_id t) as [[]|e] eqn:Ht.
  - destruct (retain_entries_swept (listing env) fs σ now t 0 Href Ht)
      as (σ' & Href' & Hsub & Hgone & Hok).
    unfold mbind, SE_bind. destruct (retain_entries _ _ _ _ fs) as [[n|e] fs']; simpl in *.
    2: { exists σ'. split; [|done]. by apply spec_partial. }
    exists σ'. split; [|done]. apply spec_ok. destruct (Hok n eq_refl) as [_ _ Hc Hn].
    assert (σ' = filter (λ ke, negb (String.eqb ke.1.1 t && expired now ke.2)) σ) as Heq.
    { apply map_eq. intros k. apply option_eq. intros e.
      rewrite map_lookup_filter_Some, Is_true_true. simpl. split.
      - intros He. pose proof (lookup_weaken _ _ _ _ He Hsub) as He0. split; [done|].
        destruct k as [t' run]; simpl. destruct (String.eqb_spec t' t) as [->|]; simpl; [|done].
        rewrite (Hn run e); [done| |done]. apply (Hlist t run).
        apply (lookup_is_Some_iff _ _ (t, run) Href). by eexists.
      - intros [He0 Hne]. destruct (σ' !! k) as [e'|] eqn:He'.
        + pose proof (lookup_weaken _ _ _ _ He' Hsub). by simplify_eq.
        + destruct (Hgone k e He0 He') as [<- Hx].
          by rewrite String.eqb_refl, Hx in Hne. }
    simpl. split; [done|]. f_equal.
    assert (size σ' ≤ size σ) by (by apply map_subseteq_size). lia.
  - exists σ. split; [|done]. apply spec_ok. simpl.
    assert (filter (λ ke, negb (String.eqb ke.1.1 t && expired now ke.2)) σ = σ) as ->.
    { apply map_filter_id. intros k x He. simpl.
      apply (ref_entry _ _ Href) in He as (Hs & _).
      destruct (String.eqb_spec k.1 t) as [<-|]; [unfold safe in Hs; congruence|done]. }
    split; [done|]. f_equal. lia.
Qed.

(** Every operation of the backend is a step of the contract. *)
Lemma sim_exec fs σ op :
  refines fs σ → (∀ now t, op = OpRetain now t → complete_listing fs) →
  sim σ op (exec op fs).
Proof.
  intros Href Hl. destruct op; simpl;
    eauto using sim_create, sim_load, sim_append, sim_acquire, sim_renew, sim_release,
      sim_delete_run, sim_delete_tenant, sim_retain.
Qed.

Lemma encode_record_plain s evs lease :
  schema_version s = SCHEMA_VERSION → safe (tenant_id s) → safe (run_id s) →
  (∀ e, opt_encryptor options = Some e → ∀ b, is_ok (encrypt e b) = true) →
  ∃ data, encode_record (mkDocument SCHEMA_VERSION s evs) lease =
    Ok (record_path (tenant_id s) (run_id s), data).
Proof.
  intros Hv Ht Hr Henc. unfold encode_record, encode_document. simpl. rewrite Hv. simpl.
  unfold current. simpl. rewrite with_version_id by done.
  destruct (document_value (mkDocument SCHEMA_VERSION s evs)) as (v & -> & _). simpl.
  unfold protect. rewrite (proj2 (path_Ok _ _ _)) by done.
  destruct (opt_encryptor options) as [e|]; [|by eexists]. simpl.
  destruct (encrypt e _) as [ct|err] eqn:He; [by eexists|].
  specialize (Henc e eq_refl (to_vec (mkFileRecord v lease))). by rewrite He in Henc.
Qed.
End filesystem.

Arguments FileRecord : clear implicits.
Arguments StoreOptions : clear implicits.
Arguments Fs : clear implicits.

Section runs.
Context {V B Value T64 : Type} {Ch : Chrono}.
Context {J : JsonLib B Value T64} {Sd : Serde B Value (FileRecord Value)} {C : DocCodec B V}.
Context (options : StoreOptions V B).
Notation Op := (DurableSpec.Op (V := V)).
Notation Ret := (DurableSpec.Ret (V := V)).

(** A sequence of calls, each in its own environment, with their results. *)
Inductive fs_run : Fs B → gset string → list (Op * Result Ret) → Fs B → Prop :=
| fs_nil fs used : fs_run fs used [] fs
| fs_cons fs used env op ops fs' :
    drawn op ## used →
    (∀ now t, op = OpRetain now t → complete_listing env fs) →
    fs_run (exec options env op fs).2 (drawn op ∪ used) ops fs' →
    fs_run fs used ((op, (exec options env op fs).1) :: ops) fs'.

Context {FL : FileLaws options}.

Lemma fs_simulated fs σ used ops fs' :
  refines options fs σ → fs_run fs used ops fs' →
  ∃ σ' used', run (opt_redactor options) σ used ops σ' used' ∧ refines options fs' σ'.
Proof.
  intros Href Hrun. revert σ Href.
  induction Hrun as [fs used|fs used env op ops fs' Hd Hl _ IH]; intros σ Href; simpl.
  { exists σ, used. split; [constructor|done]. }
  destruct (sim_exec options env fs σ op Href Hl) as (σ1 & Hs & Href1).
  destruct (IH σ1 Href1) as (σ2 & used2 & Hr2 & Href2).
  exists σ2, used2. split; [|done]. by eapply run_step.
Qed.

(** C2: the filesystem backend implements the store contract.  Every sequence
    of calls, each meeting arbitrary clock readings and input/output faults
    before or after its commit, is a run of the abstract store: whatever the
    backend returns is what the contract allows, and the files always hold
    exactly the contract's runs. *)
Theorem fs_refines fs σ used ops fs' :
  refines options fs σ → fs_run fs used ops fs' →
  ∃ σ' used', run (opt_redactor options) σ used ops σ' used' ∧ refines options fs' σ'.
Proof. apply fs_simulated. Qed.

(** C7: a takeover fences the previous holder for good.  On the filesystem backend, with
    any clocks and faults, no append, renewal or release after a successful acquisition of
    a run succeeds with the token that an earlier acquisition of that run drew, however
    much later, the run deleted and created again included.  ([fs_run]: a token is never
    drawn twice.) *)
Theorem takeover_fences fs σ used pre n1 t1 k o1 d1 r1 mid n2 t2 o2 d2 r2 rest fs' op r l :
  refines options fs σ →
  fs_run fs used (pre ++ (OpAcquire n1 t1 k o1 d1, r1) :: mid
                      ++ (OpAcquire n2 t2 k o2 d2, Ok r2) :: rest) fs' →
  (op, Ok r) ∈ rest → presents op = Some l → lease_key l = k → token l ≠ t1.
Proof.
  intros Href Hrun. destruct (fs_simulated _ _ _ _ _ Href Hrun) as (σ' & used' & Hr & _).
  by eapply run_fenced.
Qed.

(** A live owner makes progress.  When nothing fails underneath and the
    encryptor accepts, an append by the unexpired lease that is stored, at the
    stored revision and with events of its own run, succeeds, returns the
    prepared snapshot and leaves exactly it and the extended log on disk. *)
Theorem fs_append_commits fs σ env check now ids l evs s e s' evs' :
  refines options fs σ → fault_before env = None → fault_after env = None →
  (∀ en, opt_encryptor options = Some en → ∀ b, is_ok (encrypt en b) = true) →
  σ !! lease_key l = Some e → lease_matches (entry_lease e) l (Some check) = true →
  prepare_append now (opt_redactor options) ids l (revision (entry_snapshot e))
    (event_sequence (entry_snapshot e)) evs s = Ok (s', evs') →
  ∃ fs', append options env check now ids l (revision (entry_snapshot e)) evs s fs =
      (Ok (RetSnapshot s'), fs') ∧
    refines options fs' (<[lease_key l := mkEntry s' (entry_events e ++ evs') (entry_lease e)]> σ).
Proof.
  intros Href Hb Ha Henc He Hl Hp.
  pose proof (prepare_append_fields _ _ _ _ _ _ _ _ _ _ Hp) as Hf. destruct_and!.
  pose proof (ref_entry _ _ _ Href _ _ He) as (Hs1 & Hs2 & Hdir & _).
  unfold append. unfold lease_key in *. simpl in *. rewrite !SE_lift_bind.
  unfold lock. rewrite Hs1, SE_get_bind, SE_lift_bind.
  rewrite (read_complete options env fs σ _ _ e) by done. rewrite SE_lift_bind.
  apply check_lease_Ok in Hl as Hl'. rewrite Hl'. rewrite SE_lift_bind. simpl.
  rewrite N.eqb_refl. simpl. rewrite SE_lift_bind. rewrite Hp.
  unfold snapshot_key in *.
  match goal with H : (tenant_id s', _) = _ |- _ => injection H as Hk1 Hk2 end.
  edestruct (encode_record_plain options s' (entry_events e ++ evs') (entry_lease e))
    as [data Hdata]; [done|by rewrite Hk1|by rewrite Hk2|done|].
  unfold mbind, SE_bind, write. rewrite Hdata. simpl. rewrite Hk1.
  rewrite bool_decide_true by done. unfold io. rewrite Ha. simpl.
  eexists. split; [done|]. rewrite Hk2.
  apply (refines_insert options fs σ (lease_tenant l, lease_run l)); try done.
  - by eapply (encode_record_stored options) in Hdata as (_ & _ & _ & ?).
  - eapply (post_wf (opt_redactor options) (OpAppend check now ids l _ evs s));
      [apply (ref_wf _ _ _ Href)|].
    exists e, s', evs'. by split_and!.
Qed.
End runs.

(** ** Witnesses: a run created and appended to on an in-memory disk *)

Section demo_fs.
#[local] Instance fs_chrono : Chrono := {|
  duration_from_std d := Some (Z.of_N d);
  checked_add_signed t d := Some (t + d)%Z;
|}.

(** Bytes, JSON values and base64 text as one syntax tree. *)
Inductive Tree :=
| TDocument (d : Document unit)
| TRecord (r : FileRecord Tree)
| TEnvelope (t : Tree).

#[local] Instance tree_json : JsonLib Tree Tree Tree := {|
  value_from_slice := Some;
  value_to_vec v := v;
  encrypted_flag v := match v with TEnvelope _ => true | _ => false end;
  envelope_to_vec := TEnvelope;
  envelope_from_value v := match v with TEnvelope t => Some t | _ => None end;
  b64_encode b := b;
  b64_decode := Some;
|}.
#[local] Instance tree_serde : Serde Tree Tree (FileRecord Tree) := {|
  to_vec := TRecord;
  from_value v := match v with TRecord r => Some r | _ => None end;
  from_slice v := match v with TRecord r => Some r | _ => None end;
|}.
#[local] Instance tree_codec : DocCodec Tree unit := {|
  header_version v := match v with TDocument d => Some (document_version d) | _ => None end;
  document_from_slice v := match v with TDocument d => Some d | _ => None end;
  v1_from_slice _ := None;
  document_to_vec := TDocument;
|}.
Definition tree_options : StoreOptions unit Tree := mkStoreOptions None None.
#[local] Instance tree_laws : FileLaws tree_options.
Proof.
  constructor.
  - constructor; [done|]. intros r. by exists (TRecord r).
  - constructor; [done|]. intros t. by exists (TEnvelope t).
  - intros d. by exists (TDocument d).
  - done.
Qed.

Definition quiet : Env := mkEnv 20 None None (λ _, true) [].
Definition demo_fs0 : Fs Tree := mkFs ∅ ∅.
Definition demo_ops : list (Op (V := unit) * Result (Ret (V := unit))) :=
  [(OpCreate 5 demo_snapshot, Ok RetUnit);
   (OpAcquire 10 "lease_a" demo_key "worker-1" 100, Ok (RetLease demo_lease1))].
Definition demo_fs1 : Fs Tree :=
  mkFs {[ record_path "acme" "run_1" :=
            TRecord (mkFileRecord (TDocument (mkDocument 2 demo_snapshot []))
              (Some demo_lease1)) ]} {["acme"]}.
Definition demo_entry : Entry unit := mkEntry demo_snapshot [] (Some demo_lease1).

Lemma demo_refines0 : refines tree_options demo_fs0 ∅.
Proof. constructor; try done. Qed.

Lemma demo_refines1 : refines tree_options demo_fs1 {[demo_key := demo_entry]}.
Proof.
  constructor.
  - intros k e [<- <-]%lookup_singleton_Some. split_and!; [done..|set_solver|].
    eexists. split; [apply lookup_singleton_eq|]. by eexists.
  - intros p data Hp. unfold demo_fs1 in Hp. simpl files in Hp.
    apply lookup_singleton_Some in Hp as [<- _]. exists demo_key. split; [done|].
    rewrite lookup_singleton_eq. by eexists.
  - by apply map_Forall_singleton.
Qed.

Lemma fs_refines_witness :
  ∃ σ' used', run None ∅ ∅ demo_ops σ' used' ∧ refines tree_options demo_fs1 σ'.
Proof.
  apply (fs_refines tree_options demo_fs0 ∅ ∅ demo_ops demo_fs1 demo_refines0).
  refine (fs_cons tree_options demo_fs0 ∅ quiet (OpCreate 5 demo_snapshot)
    [_] demo_fs1 _ _ _); [set_solver|done|].
  refine (fs_cons tree_options _ _ quiet
    (OpAcquire 10 "lease_a" demo_key "worker-1" 100) [] demo_fs1 _ _ _); [set_solver|done|].
  match goal with |- fs_run _ ?fs _ _ _ => replace fs with demo_fs1 by reflexivity end.
  apply fs_nil.
Defined.

(** The second worker takes the run over once the first lease has expired, and appends;
    the first worker's append is refused. *)
Definition late : Env := mkEnv 120 None None (λ _, true) [].
Definition new_ids (i : nat) : string := "event_" +:+ pretty.pretty i.
Definition takeover_calls : list (Env * Op (V := unit)) :=
  [(quiet, OpCreate 5 demo_snapshot); (quiet, OpAcquire 10 "lease_a" demo_key "worker-1" 100);
   (late, OpAcquire 120 "lease_b" demo_key "worker-2" 90);
   (late, OpAppend 120 120 new_ids demo_lease1 0 [demo_event] demo_next);
   (late, OpAppend 120 120 new_ids demo_lease2 0 [demo_event] demo_next)].
(** The calls of a list with the results they have, and the disk they leave. *)
Fixpoint calls_from (fs : Fs Tree) (l : list (Env * Op (V := unit)))
    : list (Op (V := unit) * Result (Ret (V := unit))) * Fs Tree :=
  match l with
  | [] => ([], fs)
  | (env, op) :: l =>
      let out := exec tree_options env op fs in
      let '(ops, fs') := calls_from out.2 l in ((op, out.1) :: ops, fs')
  end.
Definition takeover_trace := (calls_from demo_fs0 takeover_calls).1.
Fixpoint fresh_calls (used : gset string) (l : list (Env * Op (V := unit))) : bool :=
  match l with
  | [] => true
  | (_, op) :: l =>
      bool_decide (drawn op ## used) && match op with OpRetain _ _ => false | _ => true end
      && fresh_calls (drawn op ∪ used) l
  end.
Lemma calls_run fs used l :
  fresh_calls used l = true → fs_run tree_options fs used (calls_from fs l).1 (calls_from fs l).2.
Proof.
  revert fs used. induction l as [|[env op] l IH]; intros fs used; simpl; [intros _; apply fs_nil|].
  intros Hf. bools. destruct (calls_from _ l) as [ops fs'] eqn:Hc. simpl.
  apply fs_cons; [done|by intros now t ->|].
  specialize (IH (exec tree_options env op fs).2 (drawn op ∪ used)). rewrite Hc in IH. by apply IH.
Qed.
Lemma takeover_run : fs_run tree_options demo_fs0 ∅ takeover_trace (calls_from demo_fs0 takeover_calls).2.
Proof. apply calls_run. vm_compute. reflexivity. Qed.
Lemma takeover_fences_witness :
  (λ x, is_ok x.2) <$> takeover_trace = [true; true; true; false; true] ∧ token demo_lease2 ≠ "lease_a".
Proof.
  split; [vm_compute; reflexivity|].
  refine (takeover_fences tree_options demo_fs0 ∅ ∅ (take 1 takeover_trace) 10 "lease_a" demo_key
    "worker-1" 100 _ [] 120 "lease_b" "worker-2" 90 _ (drop 3 takeover_trace) _
    (OpAppend 120 120 new_ids demo_lease2 0 [demo_event] demo_next) _ demo_lease2
    demo_refines0 takeover_run _ eq_refl eq_refl).
  right. left.
Defined.

Lemma fs_append_commits_witness :
  ∃ fs', append tree_options quiet 20 20 (λ i, "event_" +:+ pretty.pretty i) demo_lease1 0
           [demo_event] demo_next demo_fs1 = (Ok (RetSnapshot demo_committed), fs').
Proof.
  destruct (fs_append_commits tree_options demo_fs1 {[demo_key := demo_entry]} quiet 20 20
    (λ i, "event_" +:+ pretty.pretty i) demo_lease1 [demo_event] demo_next demo_entry
    demo_committed [demo_stored_event] demo_refines1) as (fs' & Hfs & _);
    [done..|by exists fs'].
Defined.
End demo_fs.
