(* ===== verification/DurableProps.v ===== *)
(** * DurableProps: effects, redaction, encryption and migration

    Properties of the pure parts of [crates/adk-durable]: the effect state
    machine and its recovery decisions ([types.rs]), redaction of what is
    persisted ([store.rs]), the encryption envelope and the schema-1
    migration ([codec.rs]). *)

From S2P Require Import Prelude Durable DurableSpec DurableCodec.

(** ** Effect lifecycles *)

(** Progress of an effect: the last two states are final. *)
Definition effect_rank (s : EffectState) : nat :=
  match s with
  | Prepared => 0 | Dispatched => 1 | OutcomeUnknown => 2 | Succeeded | Failed => 3
  end.

Section effects.
Context {V : Type}.
Implicit Types e : Effect V.

(** What no move changes. *)
Definition same_effect e e' : Prop :=
  effect_id e' = effect_id e ∧ idempotency_key e' = idempotency_key e ∧
  effect_classification e' = effect_classification e ∧
  effect_data_classification e' = effect_data_classification e ∧
  prepared_at e' = prepared_at e ∧ effect_outcome e' = effect_outcome e.

#[export] Instance same_effect_preorder : PreOrder same_effect.
Proof.
  split; unfold same_effect; [by intros e|].
  intros e1 e2 e3 ? ?. destruct_and!. split_and!; congruence.
Qed.

Lemma transition_effect_Ok e next now e' :
  transition_effect e next now = Ok e' →
  same_effect e e' ∧ effect_state e' = next ∧ effect_rank (effect_state e) < effect_rank next.
Proof.
  unfold transition_effect. destruct (transition_allowed _ _) eqn:Ha; simpl; [|done].
  intros [= <-]. split; [by split_and!|]. simpl. split; [done|].
  destruct (effect_state e), next; simpl in *; try discriminate; lia.
Qed.

Lemma mark_interrupted_Ok e now e' :
  mark_interrupted_effect e now = Ok e' →
  e' = e ∨ (same_effect e e' ∧ effect_rank (effect_state e) < effect_rank (effect_state e')).
Proof.
  unfold mark_interrupted_effect. case_bool_decide; [|intros [= <-]; by left].
  intros (? & -> & ?)%transition_effect_Ok. by right.
Qed.

Lemma effect_moves_rank e e' :
  effect_moves e e' →
  same_effect e e' ∧
  (e' = e ∨ effect_rank (effect_state e) < effect_rank (effect_state e')).
Proof.
  induction 1 as [e|e next now e1 e2 Ht _ [IH1 IH2]|e now e1 e2 Hm _ [IH1 IH2]].
  - split; [done|by left].
  - apply transition_effect_Ok in Ht as (Hs & <- & Hr). split; [by etrans|].
    right. destruct IH2 as [->|]; lia.
  - apply mark_interrupted_Ok in Hm as [->|[Hs Hr]]; [by split|].
    split; [by etrans|]. right. destruct IH2 as [->|]; lia.
Qed.

(** C37: the life of an effect.  However transitions and crash recovery
    interleave, an effect keeps its identity, idempotency key and
    classification, never goes back, and once it succeeded or failed never
    changes again.  A recovery decision always carries the key the effect was
    prepared with, and a non-replayable effect that may have been dispatched is
    never retried, neither automatically nor on demand. *)
Theorem effect_lifecycle e e' :
  effect_moves e e' →
  same_effect e e' ∧
  effect_rank (effect_state e) ≤ effect_rank (effect_state e') ∧
  (effect_state e = Succeeded ∨ effect_state e = Failed → e' = e) ∧
  decision_key (recover_effect e') = idempotency_key e ∧
  (effect_classification e = NonReplayable → effect_state e ≠ Prepared →
   action (recover_effect e') ≠ Retry ∧ automatic (recover_effect e') = false).
Proof.
  intros [Hs Hr]%effect_moves_rank. split_and!; [done| | | |].
  - destruct Hr as [->|]; lia.
  - destruct Hr as [->|Hr]; [done|]. intros Ht. exfalso.
    destruct Ht as [Ht|Ht]; rewrite Ht in Hr; destruct (effect_state e'); simpl in Hr; lia.
  - destruct Hs as (_ & <- & _). unfold recover_effect. by repeat case_match.
  - intros Hc Hp. destruct Hs as (_ & _ & Hc' & _). unfold recover_effect.
    rewrite Hc', Hc. assert (effect_state e' ≠ Prepared).
    { destruct Hr as [->|Hr]; [done|]. intros Hp'. rewrite Hp' in Hr. simpl in Hr. lia. }
    by destruct (effect_state e').
Qed.

(** Recovery of an interrupted dispatch.  A worker that takes over a run
    marks the effects that were in flight as unknown and nothing else; an
    idempotent or deduplicated one is then retried with its original key, a
    non-replayable one is left to an operator. *)
Theorem interrupted_effect e now :
  ∃ e', mark_interrupted_effect e now = Ok e' ∧ same_effect e e' ∧
    effect_state e' ≠ Dispatched ∧
    (effect_state e ≠ Dispatched → e' = e) ∧
    (effect_state e = Dispatched →
     recover_effect e' =
     if bool_decide (effect_classification e = NonReplayable)
     then mkRecoveryDecision OperatorResolution false (idempotency_key e)
     else mkRecoveryDecision Retry true (idempotency_key e)).
Proof.
  unfold mark_interrupted_effect. case_bool_decide as Hd.
  - unfold transition_effect. rewrite Hd. simpl. eexists.
    split_and!; [done|by split_and!|done|done|]. intros _. unfold recover_effect. simpl.
    by destruct (effect_classification e).
  - exists e. by split_and!.
Qed.
End effects.

(** ** Redaction *)

Section redaction.
Context {V : Type} (redact : Redactor V).

(** The values a snapshot persists, each with the classification it is
    redacted under; and those of an event log. *)
Definition tag (c : DataClassification) (v : option V) : list (DataClassification * V) :=
  match v with Some v => [(c, v)] | None => [] end.
Definition tool_values (c : DataClassification) (t : ToolCall V) :=
  let class := effective_class (tool_classification t) c in
  tag class (tool_input t) ++ tag class (tool_output t).
Definition effect_values (c : DataClassification) (e : Effect V) :=
  tag (effective_class (effect_data_classification e) c) (effect_outcome e).
Definition snapshot_values (s : RunSnapshot V) : list (DataClassification * V) :=
  let c := classification s in
  tag c (state s) ++ (steps s ≫= λ sp, tag c (step_data sp)) ++
  (tool_calls s ≫= tool_values c) ++ (effects s ≫= effect_values c).
Definition event_values (evs : list (Event V)) : list (DataClassification * V) :=
  evs ≫= λ e, tag (event_classification e) (payload e).

(** The persisted value is the redactor's answer for the original. *)
Definition redacted (cv cv' : DataClassification * V) : Prop :=
  cv'.1 = cv.1 ∧ redact cv.1 cv.2 = Ok cv'.2.

Lemma redact_value_tag c v v' :
  redact_value (Some redact) c v = Ok v' → Forall2 redacted (tag c v) (tag c v').
Proof.
  destruct v as [v|]; simpl; intros Hr; inv_ok; repeat constructor; done.
Qed.

Lemma mapR_values {A B} (f : A → Result B) (g : A → list (DataClassification * V)) h l l' :
  (∀ a b, f a = Ok b → Forall2 redacted (g a) (h b)) →
  mapR f l = Ok l' → Forall2 redacted (l ≫= g) (l' ≫= h).
Proof.
  intros Hf Hm%mapR_Ok. induction Hm; simpl; [constructor|].
  apply Forall2_app; eauto.
Qed.

Lemma redact_step_values c sp sp' :
  redact_step (Some redact) c sp = Ok sp' →
  Forall2 redacted (tag c (step_data sp)) (tag c (step_data sp')).
Proof. unfold redact_step. intros Hr. inv_ok. by apply redact_value_tag. Qed.
Lemma redact_tool_values c t t' :
  redact_tool (Some redact) c t = Ok t' →
  Forall2 redacted (tool_values c t) (tool_values c t').
Proof.
  unfold redact_tool. intros Hr. inv_ok. by apply Forall2_app; apply redact_value_tag.
Qed.
Lemma redact_effect_values c e e' :
  redact_effect (Some redact) c e = Ok e' →
  Forall2 redacted (effect_values c e) (effect_values c e').
Proof. unfold redact_effect. intros Hr. inv_ok. by apply redact_value_tag. Qed.

Lemma redact_snapshot_values s s' :
  redact_snapshot (Some redact) s = Ok s' →
  Forall2 redacted (snapshot_values s) (snapshot_values s').
Proof.
  unfold redact_snapshot. intros Hr. apply bind_Ok in Hr as (st & Hst & Hr).
  apply bind_Ok in Hr as (sps & Hsps & Hr). apply bind_Ok in Hr as (tls & Htls & Hr).
  apply bind_Ok in Hr as (efs & Hefs & Hr). inv_ok. unfold snapshot_values. simpl.
  repeat apply Forall2_app.
  - by apply redact_value_tag.
  - eapply mapR_values, Hsps. apply redact_step_values.
  - eapply mapR_values, Htls. apply redact_tool_values.
  - eapply mapR_values, Hefs. apply redact_effect_values.
Qed.

Lemma prepare_event_values ids l seq upd i e e' :
  prepare_event (Some redact) ids l seq upd i e = Ok e' →
  Forall2 redacted (tag (event_classification e) (payload e))
    (tag (event_classification e') (payload e')).
Proof.
  unfold prepare_event. case_match; intros Hr; inv_ok. by apply redact_value_tag.
Qed.

(** Nothing is persisted unredacted.  When the store has a redactor, every
    value in the snapshot and in the events an append commits (state, step
    data, tool inputs and outputs, effect outcomes, payloads) is the redactor's
    answer for the value given, under the value's own classification or, where
    that is unspecified, the snapshot's; values are neither dropped nor
    added. *)
Theorem append_redacts now ids l rev seq evs s s' evs' :
  prepare_append now (Some redact) ids l rev seq evs s = Ok (s', evs') →
  Forall2 redacted (snapshot_values s) (snapshot_values s') ∧
  Forall2 redacted (event_values evs) (event_values evs').
Proof.
  intros Hp. unfold prepare_append in Hp. inv_ok. split.
  - fwd redact_snapshot_values. done.
  - match goal with H : mapR _ _ = Ok _ |- _ => rename H into Hm end.
    eapply (mapR_values _ (λ ie, tag (event_classification ie.2) (payload ie.2))
      (λ e, tag (event_classification e) (payload e))) in Hm.
    2: { intros [i e] e'. apply prepare_event_values. }
    by rewrite (imap_pair_bind (λ e, tag (event_classification e) (payload e))) in Hm.
Qed.
End redaction.

(** ** The encryption envelope *)

Section envelope.
Context {B Value T64 T : Type} {J : JsonLib B Value T64} {Sd : Serde B Value T}.
Context {JL : JsonLaws B Value T64} {SL : SerdeLaws B Value T64 T}.

(** what is protected is read back, and neither direction can be
    downgraded: an encrypting store refuses every plaintext record, a plain
    store refuses every envelope, and no envelope passes without its
    decryption. *)
Theorem protect_round_trip (enc : option (Encryptor B)) (t : T) (b : B) :
  encryptor_inverts enc → protect enc t = Ok b →
  unprotect enc b = Ok t ∧
  (∀ e, unprotect (Some e) (to_vec (Value := Value) t) =
        Err (Protection "plaintext record rejected by encrypted store")) ∧
  (∀ t64, unprotect (T := T) None (envelope_to_vec (Value := Value) t64) =
        Err (Protection "encrypted record requires an encryptor")) ∧
  (∀ e ct m, decrypt e ct = Err m →
     unprotect (T := T) (Some e) (envelope_to_vec (Value := Value) (b64_encode (Value := Value) ct)) = Err m).
Proof.
  intros Hinv Hp. split_and!.
  - by apply unprotect_protect.
  - intros e. apply unprotect_plaintext.
  - intros t64. apply unprotect_ciphertext.
  - intros e ct m Hd. unfold unprotect.
    edestruct envelope_round_trip as (v & -> & Hf & Hv). simpl. rewrite Hf, Hv. simpl.
    rewrite b64_round_trip. simpl. by rewrite Hd.
Qed.
End envelope.

(** ** Documents and schema 1 *)

Section schema.
Context {V B : Type} {C : DocCodec B V} {CL : DocCodecLaws B V}.

(** Every document that can be encoded is read back in the current schema
    with nothing else changed, whatever is decoded is in the current schema,
    and a record of an unknown version is refused by its number, never
    reinterpreted. *)
Theorem document_versions :
  (∀ d b, encode_document d = Ok b →
     decode_document b = Ok (mkDocument SCHEMA_VERSION
       (with_header (snapshot d) SCHEMA_VERSION (event_sequence (snapshot d))
          (created_at (snapshot d)) (updated_at (snapshot d))) (events d))) ∧
  (∀ b d, decode_document b = Ok d →
     schema_version (snapshot d) = SCHEMA_VERSION) ∧
  (∀ b v, header_version (V := V) b = Some v → v ≠ SCHEMA_VERSION → v ≠ 1%Z →
     decode_document b = Err (UnsupportedSchema v)).
Proof.
  split_and!.
  - apply decode_encode.
  - apply decode_current.
  - intros b v Hv H2 H1. unfold decode_document. rewrite Hv. simpl.
    destruct (Z.eqb_spec v SCHEMA_VERSION), (Z.eqb_spec v 1); naive_solver.
Qed.
End schema.

Section migration.
Context {V : Type}.

(** A schema-1 event is unnumbered or numbered by its position, and unkeyed or
    keyed by its run. *)
Definition v1_event_ok (old : V1 V) (i : nat) (e : Event V) : Prop :=
  (sequence e = 0 ∨ sequence e = N.of_nat i + 1)%N ∧
  (event_tenant e = "" ∨ event_tenant e = v1_tenant_id old) ∧
  (event_run e = "" ∨ event_run e = v1_run_id old).

Lemma migrate_event_ok (old : V1 V) i e :
  v1_event_ok old i e →
  let e' := migrate_event (v1_tenant_id old) (v1_run_id old) i e in
  sequence e' = (N.of_nat i + 1)%N ∧
  (event_tenant e', event_run e') = (v1_tenant_id old, v1_run_id old).
Proof.
  intros (Hs & Ht & Hr). unfold migrate_event, is_empty. simpl. split.
  - destruct (N.eqb_spec (sequence e) 0); [done|]. by destruct Hs.
  - f_equal.
    + destruct (String.eqb_spec (event_tenant e) ""); [done|]. by destruct Ht.
    + destruct (String.eqb_spec (event_run e) ""); [done|]. by destruct Hr.
Qed.

(** Migrating a schema-1 record yields a well-formed run of the current
    schema.  A log whose events are unnumbered, or numbered by position, comes
    out complete, keyed by the run and numbered 1, 2, 3, ... below the
    snapshot's sequence, so the store's invariant holds of it from the first
    load on. *)
Theorem migrate_v1_wf (old : V1 V) :
  (∀ i e, v1_events old !! i = Some e → v1_event_ok old i e) →
  (v1_event_sequence old = 0 ∨ N.of_nat (length (v1_events old)) ≤ v1_event_sequence old)%N →
  let d := migrate_v1 old in
  wf_entry (v1_tenant_id old, v1_run_id old) (mkEntry (snapshot d) (events d) None) ∧
  length (events d) = length (v1_events old) ∧
  (∀ i e, events d !! i = Some e → sequence e = (N.of_nat i + 1)%N).
Proof.
  intros Hev Hseq d.
  assert (∀ i e, events d !! i = Some e → sequence e = (N.of_nat i + 1)%N ∧
    (event_tenant e, event_run e) = (v1_tenant_id old, v1_run_id old)) as He.
  { intros i e. simpl. rewrite list_lookup_imap. intros (e0 & He0 & ->)%fmap_Some.
    by apply migrate_event_ok, Hev. }
  assert (length (events d) = length (v1_events old)) as Hlen by apply length_imap.
  split_and!; [constructor; simpl|done|by apply He].
  - done.
  - done.
  - apply Forall_lookup. by apply He.
  - rewrite <-(app_nil_r (imap _ _)).
    apply (increasing_app _ (0 + N.of_nat (length (events d)))).
    + apply (consecutive_increasing (events d) 0). intros i e Hi. destruct (He i e Hi). lia.
    + change (0 + N.of_nat (length (events d)) ≤
        if (v1_event_sequence old =? 0)%N then N.of_nat (length (v1_events old))
        else v1_event_sequence old)%N.
      rewrite Hlen. destruct (N.eqb_spec (v1_event_sequence old) 0); lia.
  - done.
Qed.
End migration.

(** ** Witnesses *)

Section demo_props.
Definition demo_effect : Effect nat :=
  new_effect "effect_1" "run_1/effect_1" NonReplayable 5.
Definition demo_redactor : Redactor nat := λ c v,
  if bool_decide (c = Secret) then Ok 0 else Ok v.
Definition demo_tool : ToolCall nat :=
  mkToolCall "call_1" "shell" "ok" Secret (Some 7) (Some 8) 5 6.
Definition demo_tool_snapshot : RunSnapshot nat :=
  mkRunSnapshot 2 "acme" "run_1" 1 0 StatusRunning Public (Some 3)
    [] [] [demo_tool] [] [] [] None default_budget 5 6 None.
Definition demo_old : V1 nat :=
  mkV1 "acme" "run_1" 4 0 StatusUnspecified true 9 5 6
    [mkEvent "e1" "" "" 0 5 "step" Public (Some 1);
     mkEvent "e2" "acme" "run_1" 2 6 "step" Public None].

Definition demo_dispatched : Effect nat :=
  mkEffect "effect_1" NonReplayable ClassUnspecified Dispatched "run_1/effect_1" 5 6 None.
Definition demo_unknown : Effect nat :=
  mkEffect "effect_1" NonReplayable ClassUnspecified OutcomeUnknown "run_1/effect_1" 5 7 None.

Lemma effect_lifecycle_witness :
  effect_moves demo_effect demo_unknown ∧
  automatic (recover_effect demo_unknown) = false ∧
  decision_key (recover_effect demo_unknown) = "run_1/effect_1".
Proof.
  assert (effect_moves demo_dispatched demo_unknown) as Hm.
  { eapply (effect_interrupted _ 7); [reflexivity|]. apply effect_stays. }
  split_and!.
  - eapply (effect_transition _ Dispatched 6); [reflexivity|done].
  - apply (effect_lifecycle demo_dispatched demo_unknown Hm); done.
  - apply (effect_lifecycle demo_dispatched demo_unknown Hm).
Defined.

Lemma append_redacts_witness :
  ∃ s', prepare_append 9 (Some demo_redactor) (λ _, "e") demo_lease1 0 0 []
          demo_tool_snapshot = Ok (s', []) ∧
    Forall2 (redacted demo_redactor) [(Public, 3); (Secret, 7); (Secret, 8)]
      (snapshot_values s') ∧
    snapshot_values s' = [(Public, 3); (Secret, 0); (Secret, 0)].
Proof.
  eexists. split; [reflexivity|]. split; [|reflexivity].
  eapply (append_redacts demo_redactor 9 (λ _, "e") demo_lease1 0 0 [] demo_tool_snapshot).
  reflexivity.
Defined.

Lemma migrate_v1_wf_witness :
  (sequence <$> events (migrate_v1 demo_old)) = [1; 2]%N ∧
  wf_entry ("acme", "run_1")
    (mkEntry (snapshot (migrate_v1 demo_old)) (events (migrate_v1 demo_old)) None).
Proof.
  split; [reflexivity|].
  apply (migrate_v1_wf demo_old); [|by left].
  intros [|[|i]] e; simpl; [intros [= <-]|intros [= <-]|done];
    (split_and!; [by (left + right)|by (left + right)|by (left + right)]).
Defined.

(** Bytes that carry their own structure: plaintext or envelope. *)
Inductive Wire := WPlain (t : nat) | WCipher (t : nat) | WEnvelope (w : Wire).
#[local] Instance wire_json : JsonLib Wire Wire Wire := {|
  value_from_slice := Some;
  value_to_vec v := v;
  encrypted_flag v := match v with WEnvelope _ => true | _ => false end;
  envelope_to_vec := WEnvelope;
  envelope_from_value v := match v with WEnvelope t => Some t | _ => None end;
  b64_encode b := b;
  b64_decode := Some;
|}.
#[local] Instance wire_serde : Serde Wire Wire nat := {|
  to_vec := WPlain;
  from_value v := match v with WPlain n => Some n | _ => None end;
  from_slice v := match v with WPlain n => Some n | _ => None end;
|}.
#[local] Instance wire_laws : JsonLaws Wire Wire Wire.
Proof. constructor; [done|]. intros t. by exists (WEnvelope t). Qed.
#[local] Instance wire_serde_laws : SerdeLaws Wire Wire Wire nat.
Proof. constructor; [done|]. intros t. by exists (WPlain t). Qed.
Definition wire_encryptor : Encryptor Wire := {|
  encrypt w := match w with WPlain n => Ok (WCipher n) | _ => Err (Protection "encrypt") end;
  decrypt w := match w with WCipher n => Ok (WPlain n) | _ => Err (Protection "decrypt") end;
|}.

Lemma protect_round_trip_witness :
  unprotect (Some wire_encryptor) (WEnvelope (WCipher 4)) = Ok 4 ∧
  unprotect (T := nat) (Some wire_encryptor) (WPlain 4) =
    Err (Protection "plaintext record rejected by encrypted store").
Proof.
  destruct (protect_round_trip (Some wire_encryptor) 4 (WEnvelope (WCipher 4)))
    as (H1 & H2 & _); [|reflexivity|].
  - intros e p c [= <-]. destruct p; simpl; intros [= <-]. reflexivity.
  - split; [exact H1|apply H2].
Defined.

(** Documents as their own bytes, next to a bare header. *)
Inductive Doc0 := D0 (d : Document nat) | D0Header (version : Z).
#[local] Instance doc0_codec : DocCodec Doc0 nat := {|
  header_version v := match v with D0 d => Some (document_version d) | D0Header z => Some z end;
  document_from_slice v := match v with D0 d => Some d | _ => None end;
  v1_from_slice _ := None;
  document_to_vec := D0;
|}.
#[local] Instance doc0_laws : DocCodecLaws Doc0 nat.
Proof. by constructor. Qed.

Lemma document_versions_witness :
  decode_document (D0 (mkDocument 2 demo_tool_snapshot [])) =
    Ok (mkDocument 2 demo_tool_snapshot []) ∧
  decode_document (V := nat) (D0Header 3) = Err (UnsupportedSchema 3).
Proof.
  destruct (document_versions (V := nat) (B := Doc0)) as (H1 & _ & H3). split.
  - apply (H1 (mkDocument 2 demo_tool_snapshot [])). reflexivity.
  - apply H3; done.
Defined.
End demo_props.
