(* ===== verification/SubagentGraph.v ===== *)
(** * SubagentGraph: what [validate_graph] accepts

    [validate_graph] of [crates/adk-runtime/src/subagent.rs] against a
    declarative reading of its purpose: named tasks, known dependencies without
    repetition, and no cycle.  Acyclicity is the existence of a rank that every
    dependency decreases. *)

From S2P Require Import Prelude Text Durable Core SecurityPolicy Subagent.

Section graph.
Context {Value : Type}.
Notation Rec := (CheckpointRecord Value).
Implicit Types (l : list Rec) (r : Rec) (m : gmap string (gset string)).

Definition id_of (r : Rec) : string := task_id (task r).
Definition deps_of (r : Rec) : list string := task_depends_on (task r).

Record graph_ok (l : list Rec) : Prop := {
  graph_named : Forall (λ r, id_of r ≠ "") l;
  graph_unique : NoDup (id_of <$> l);
  graph_once : Forall (λ r, NoDup (deps_of r)) l;
  graph_closed : ∀ r d, r ∈ l → d ∈ deps_of r → d ∈ id_of <$> l;
  graph_acyclic : ∃ rank : string → nat,
    ∀ r d, r ∈ l → d ∈ deps_of r → rank d < rank (id_of r);
}.

(** The dependency map the first loop builds. *)
Definition graph_map (l : list Rec) : gmap string (gset string) :=
  list_to_map ((λ r, (id_of r, list_to_set (deps_of r))) <$> l).

Lemma size_list_to_set_NoDup (l : list string) :
  length l = size (list_to_set l : gset string) ↔ NoDup l.
Proof.
  split; [|intros; symmetry; by apply size_list_to_set].
  induction l as [|x l IH]; [constructor|]. cbn [list_to_set length]. intros Hs.
  pose proof (size_list_to_set_le l). destruct (decide (x ∈ l)) as [Hin|Hn].
  - assert ({[x]} ∪ list_to_set l = (list_to_set l : gset string)) as Heq by set_solver.
    rewrite Heq in Hs. lia.
  - constructor; [done|]. apply IH. rewrite size_union in Hs by set_solver.
    rewrite size_singleton in Hs. lia.
Qed.

Lemma collect_graph_Ok m l m' :
  collect_graph m l = Ok m' ↔
  Forall (λ r, id_of r ≠ "") l ∧ NoDup (id_of <$> l) ∧
  Forall (λ r, m !! id_of r = None) l ∧ Forall (λ r, NoDup (deps_of r)) l ∧
  m' = graph_map l ∪ m.
Proof.
  revert m. induction l as [|r l IH]; intros m; simpl.
  { unfold graph_map. simpl. rewrite (left_id_L ∅ (∪)). split.
    - intros [= <-]. split_and!; try constructor.
    - by intros (_ & _ & _ & _ & ->). }
  fold (id_of r) (deps_of r). rewrite !Forall_cons, ?fmap_cons, NoDup_cons.
  destruct (String.eqb_spec (id_of r) "") as [Hn|Hn]; simpl.
  { split; [done|]. by intros ([? _] & _). }
  case_bool_decide as Hin.
  { split; [done|]. intros (_ & _ & [Hnone _] & _). rewrite Hnone in Hin. by destruct Hin. }
  destruct (Nat.eqb_spec (length (deps_of r)) (size (list_to_set (deps_of r) : gset string)))
    as [Hl|Hl]; simpl.
  2: { split; [done|]. intros (_ & _ & _ & [Hnd _] & _).
       by apply size_list_to_set_NoDup in Hnd. }
  apply size_list_to_set_NoDup in Hl. apply eq_None_not_Some in Hin. rewrite IH.
  assert (Forall (λ r', <[id_of r := list_to_set (deps_of r)]> m !! id_of r' = None) l ↔
    id_of r ∉ id_of <$> l ∧ Forall (λ r', m !! id_of r' = None) l) as ->.
  { rewrite !Forall_forall, list_elem_of_fmap. split.
    - intros Hall. split.
      + intros (r' & Heq & Hr'). specialize (Hall r' Hr'). by rewrite <-Heq, lookup_insert_eq in Hall.
      + intros r' Hr'. by specialize (Hall r' Hr') as [? _]%lookup_insert_None.
    - intros [Hni Hall] r' Hr'. apply lookup_insert_None. split; [by apply Hall|].
      intros Heq. apply Hni. by exists r'. }
  assert (graph_map l ∪ <[id_of r:=list_to_set (deps_of r)]> m =
    <[id_of r:=list_to_set (deps_of r)]> (graph_map l) ∪ m ∨ id_of r ∈ id_of <$> l) as Heq.
  { destruct (decide (id_of r ∈ id_of <$> l)); [by right|left].
    rewrite <-insert_union_l. symmetry. apply insert_union_r.
    unfold graph_map. apply not_elem_of_list_to_map. by rewrite <-list_fmap_compose. }
  change (graph_map (r :: l)) with (<[id_of r:=list_to_set (deps_of r)]> (graph_map l)).
  destruct Heq as [->|?]; [|tauto]. tauto.
Qed.

(** ** The elimination loop *)

Definition closed_map m : Prop := map_Forall (λ _ deps, deps ⊆ dom m) m.
Definition ranked m (rank : string → nat) : Prop :=
  ∀ k deps d, m !! k = Some deps → d ∈ deps → rank d < rank k.

Definition ready_of m : gset string := dom (filter (λ kd, kd.2 = ∅) m).
Definition drained m : gmap string (gset string) :=
  (λ deps, deps ∖ ready_of m) <$> filter (λ kd, kd.1 ∉ ready_of m) m.

Lemma elem_of_ready m k : k ∈ ready_of m ↔ m !! k = Some ∅.
Proof.
  unfold ready_of. rewrite elem_of_dom. split.
  - intros [d [Hd Hz]%map_lookup_filter_Some]. simpl in Hz. by subst.
  - intros Hk. exists ∅. by apply map_lookup_filter_Some.
Qed.

Lemma lookup_drained m k deps' :
  drained m !! k = Some deps' ↔
  ∃ deps, m !! k = Some deps ∧ k ∉ ready_of m ∧ deps' = deps ∖ ready_of m.
Proof.
  unfold drained. rewrite lookup_fmap, fmap_Some. split.
  - intros (deps & [Hk Hn]%map_lookup_filter_Some & ->). by exists deps.
  - intros (deps & Hk & Hn & ->). exists deps. split; [|done].
    by apply map_lookup_filter_Some.
Qed.

Lemma dom_drained m : dom (drained m) = dom m ∖ ready_of m.
Proof.
  apply set_eq. intros k. rewrite elem_of_difference, !elem_of_dom. split.
  - intros [d (deps & ? & ? & _)%lookup_drained]. split; [by eexists|done].
  - intros [[deps Hk] Hn]. eexists. apply lookup_drained. by exists deps.
Qed.

Lemma drained_closed m : closed_map m → closed_map (drained m).
Proof.
  intros Hc k d (deps & Hk & _ & ->)%lookup_drained. rewrite dom_drained.
  specialize (Hc _ _ Hk). simpl in Hc. set_solver.
Qed.

Lemma drained_smaller m : ready_of m ≠ ∅ → size (drained m) < size m.
Proof.
  intros Hr. rewrite <-!size_dom, dom_drained. apply subset_size.
  assert (ready_of m ⊆ dom m) by (unfold ready_of; apply dom_filter_subseteq).
  apply set_choose_L in Hr as [x Hx]. set_solver.
Qed.

Lemma ranked_drained m rank : ranked m rank → ranked (drained m) rank.
Proof.
  intros Hr k d x (deps & Hk & _ & ->)%lookup_drained Hx. eapply Hr; [done|set_solver].
Qed.

Lemma ranked_undrain m rank :
  ranked (drained m) rank →
  ranked m (λ k, if bool_decide (k ∈ ready_of m) then 0 else S (rank k)).
Proof.
  intros Hr k deps d Hk Hd. rewrite (bool_decide_false (k ∈ _)).
  - case_bool_decide; [lia|]. apply -> Nat.succ_lt_mono.
    eapply Hr; [|apply elem_of_difference; done]. apply lookup_drained. exists deps.
    split_and!; [done| |done]. intros Hk'%elem_of_ready. simplify_eq. set_solver.
  - intros Hk'%elem_of_ready. simplify_eq. set_solver.
Qed.

(** In a closed ranked map the task of least rank has no dependency left. *)
Lemma ranked_ready m rank : closed_map m → ranked m rank → m ≠ ∅ → ready_of m ≠ ∅.
Proof.
  intros Hc Hr Hm Hready. apply map_choose in Hm as (k & deps & Hk).
  remember (rank k) as n eqn:Hn. revert k deps Hk Hn.
  induction n as [n IH] using lt_wf_ind; intros k deps Hk ->.
  destruct (decide (deps = ∅)) as [->|Hne].
  - apply elem_of_ready in Hk. set_solver.
  - apply set_choose_L in Hne as [d Hd].
    assert (d ∈ dom m) as [deps' Hd']%elem_of_dom by (by eapply Hc).
    eapply IH; [by eapply Hr|done|done].
Qed.

Lemma drain_graph_spec fuel m :
  size m ≤ fuel → closed_map m →
  (drain_graph fuel m = Ok tt ∧ ∃ rank, ranked m rank) ∨
  (drain_graph fuel m = Err (invalid "child dependency cycle") ∧ ¬ ∃ rank, ranked m rank).
Proof.
  revert m. induction fuel as [|fuel IH]; intros m Hsz Hc; simpl; case_bool_decide as Hm.
  - left. split; [done|]. exists (λ _, 0). subst. intros ? ? ?. by rewrite lookup_empty.
  - apply map_size_non_empty_iff in Hm. lia.
  - left. split; [done|]. exists (λ _, 0). subst. intros ? ? ?. by rewrite lookup_empty.
  - fold (ready_of m). fold (drained m). case_bool_decide as Hr.
    + right. split; [done|]. intros [rank Hrank]. by eapply ranked_ready.
    + pose proof (drained_smaller m Hr).
      destruct (IH (drained m)) as [[-> [rank Hrank]]|[-> Hn]];
        [lia|by apply drained_closed|left|right]; (split; [done|]).
      * eexists. by apply ranked_undrain.
      * intros [rank Hrank]. apply Hn. exists rank. by apply ranked_drained.
Qed.

(** ** [validate_graph] *)

Lemma lookup_graph_map l k deps :
  NoDup (id_of <$> l) →
  graph_map l !! k = Some deps ↔ ∃ r, r ∈ l ∧ id_of r = k ∧ deps = list_to_set (deps_of r).
Proof.
  intros Hnd. unfold graph_map. rewrite <-elem_of_list_to_map.
  - rewrite list_elem_of_fmap. naive_solver.
  - by rewrite <-list_fmap_compose.
Qed.
Lemma dom_graph_map l : dom (graph_map l) = list_to_set (id_of <$> l).
Proof.
  unfold graph_map. rewrite dom_list_to_map_L. f_equal. by rewrite <-list_fmap_compose.
Qed.

Lemma closed_graph_map l :
  NoDup (id_of <$> l) →
  closed_map (graph_map l) ↔ ∀ r d, r ∈ l → d ∈ deps_of r → d ∈ id_of <$> l.
Proof.
  intros Hnd. unfold closed_map. rewrite dom_graph_map. split.
  - intros Hc r d Hr Hd. assert (graph_map l !! id_of r = Some (list_to_set (deps_of r))) as Hk.
    { apply lookup_graph_map; [done|]. by exists r. }
    specialize (Hc _ _ Hk). simpl in Hc. set_solver.
  - intros Hc k deps (r & Hr & <- & ->)%lookup_graph_map; [|done]. intros d Hd.
    apply elem_of_list_to_set. apply elem_of_list_to_set in Hd. eauto.
Qed.

Lemma ranked_graph_map l rank :
  NoDup (id_of <$> l) →
  ranked (graph_map l) rank ↔ ∀ r d, r ∈ l → d ∈ deps_of r → rank d < rank (id_of r).
Proof.
  intros Hnd. split.
  - intros Hr r d Hin Hd. eapply Hr; [apply lookup_graph_map; by eauto|]. set_solver.
  - intros Hr k deps d (r & Hin & <- & ->)%lookup_graph_map Hd; [|done].
    apply elem_of_list_to_set in Hd. eauto.
Qed.

Lemma validate_graph_Ok l : validate_graph l = Ok tt ↔ graph_ok l.
Proof.
  unfold validate_graph. split.
  - intros Hv. apply bind_Ok in Hv as (m & Hm & Hv).
    apply collect_graph_Ok in Hm as (Hn & Hu & _ & Ho & ->).
    rewrite (right_id_L ∅ (∪)) in Hv. case_bool_decide as Hc; [|done].
    destruct (drain_graph_spec (size (graph_map l)) (graph_map l)) as [[_ [rank Hr]]|[He _]];
      [done|done| |congruence].
    constructor; try done.
    + by apply closed_graph_map.
    + exists rank. by apply ranked_graph_map.
  - intros [Hn Hu Ho Hc [rank Hr]].
    assert (collect_graph ∅ l = Ok (graph_map l)) as ->.
    { apply collect_graph_Ok. split_and!; try done; [|by rewrite (right_id_L ∅ (∪))].
      apply Forall_forall. intros r _. by rewrite lookup_empty. }
    simpl. apply closed_graph_map in Hc; [|done].
    rewrite bool_decide_true by done.
    destruct (drain_graph_spec (size (graph_map l)) (graph_map l)) as [[He _]|[_ Hn']];
      [done|done|done|].
    destruct Hn'. exists rank. by apply ranked_graph_map.
Qed.

Lemma validate_graph_err l e :
  validate_graph l = Err e →
  e ∈ [invalid "empty or duplicate child task ID"; invalid "duplicate dependency";
       invalid "unknown child dependency"; invalid "child dependency cycle"].
Proof.
  unfold validate_graph. destruct (collect_graph ∅ l) as [m|e'] eqn:Hm; simpl.
  - case_bool_decide as Hc; [|intros [= <-]; set_solver].
    destruct (drain_graph_spec (size m) m) as [[-> _]|[-> _]]; [done|done|done|].
    intros [= <-]. set_solver.
  - intros [= <-]. revert Hm. generalize (∅ : gmap string (gset string)).
    induction l as [|r l IH]; intros m; simpl; [done|].
    repeat case_match; try (intros [= <-]; set_solver). apply IH.
Qed.
End graph.

(** C38: [validate_graph] accepts exactly the graphs the scheduler can run: every
    task named, once; every dependency known, listed once; and no cycle.  Its
    loop always terminates: a refusal is always one of the four it documents. *)
Theorem validate_graph_correct {Value} (l : list (CheckpointRecord Value)) :
  (validate_graph l = Ok tt ↔ graph_ok l) ∧
  (∀ e, validate_graph l = Err e →
     e ∈ [invalid "empty or duplicate child task ID"; invalid "duplicate dependency";
          invalid "unknown child dependency"; invalid "child dependency cycle"]).
Proof. split; [apply validate_graph_Ok|apply validate_graph_err]. Qed.
