(* ===== verification/SubagentInv.v ===== *)
(** * SubagentInv: the scheduler's invariant and what a transaction may change

    [rec_ok] and [inv] say what every committed checkpoint satisfies; [moves]
    and [grows] say how one committed checkpoint may differ from an earlier
    one.  The lemmas of this file lift both from single records to
    checkpoints. *)

From S2P Require Import Prelude Text Durable Core SecurityPolicy Subagent SubagentGraph.

(** ** Usage totals *)

Definition usage_plus (a b : BudgetUsage) : BudgetUsage :=
  mkBudgetUsage (tokens a + tokens b) (tool_calls a + tool_calls b) (turns a + turns b)
    (cost_micros a + cost_micros b).
Definition fits (u : BudgetUsage) : Prop :=
  (tokens u ≤ u64_max ∧ tool_calls u ≤ u64_max ∧ turns u ≤ u64_max ∧
   cost_micros u ≤ u64_max)%N.
Definition usage_le (a b : BudgetUsage) : Prop :=
  (tokens a ≤ tokens b ∧ tool_calls a ≤ tool_calls b ∧ turns a ≤ turns b ∧
   cost_micros a ≤ cost_micros b)%N.

#[export] Instance usage_le_preorder : PreOrder usage_le.
Proof. split; unfold usage_le; [intros u|intros u v w]; lia. Qed.

Lemma add_Ok u d v : add u d = Ok v ↔ v = usage_plus u d ∧ fits (usage_plus u d).
Proof.
  unfold add, fits, usage_plus. split.
  - intros Ha. inv_add. simpl. done.
  - intros [-> Hf]. simpl in Hf. destruct Hf as (? & ? & ? & ?). unfold checked_add.
    do 4 (rewrite (proj2 (N.leb_le _ _)) by done; simpl). done.
Qed.

Lemma usage_plus_0_l u : usage_plus default_usage u = u.
Proof. by destruct u. Qed.
Lemma usage_plus_0_r u : usage_plus u default_usage = u.
Proof. destruct u; unfold usage_plus; simpl. by rewrite !N.add_0_r. Qed.
Lemma usage_plus_assoc u v w : usage_plus u (usage_plus v w) = usage_plus (usage_plus u v) w.
Proof. unfold usage_plus; simpl. by rewrite !N.add_assoc. Qed.
Lemma usage_plus_comm u v : usage_plus u v = usage_plus v u.
Proof. unfold usage_plus. f_equal; lia. Qed.
Lemma usage_le_plus u v : usage_le u (usage_plus u v).
Proof. unfold usage_le, usage_plus; simpl. lia. Qed.
Lemma fits_le u v : usage_le u v → fits v → fits u.
Proof. unfold usage_le, fits. lia. Qed.

Section inv.
Context {Value : Type} (run_id : string) (config : SchedulerConfig).
Notation Rec := (CheckpointRecord Value).
Notation Ckpt := (SchedulerCheckpoint Value).
Implicit Types (r : Rec) (l : list Rec) (s : Ckpt).

Definition total_usage (l : list Rec) : BudgetUsage :=
  foldr (λ r u, usage_plus (task_usage (task r)) u) default_usage l.

(** ** One record *)

Definition message_ok (m : SteeringMessage) : Prop :=
  msg_id m ≠ "" ∧ trim (msg_text m) ≠ "".

Definition continuation_ok (r : Rec) (c : RunnerCheckpoint) : Prop :=
  runner_run_id c = run_id +:+ "/" +:+ id_of r ∧ runner_schema_version c = 1%N ∧
  is_Some (runtime c) ∧ dispatch r = Started.

Record rec_ok (r : Rec) : Prop := {
  ok_id : sub_id (submission r) = id_of r;
  ok_agent : sub_agent (submission r) = task_agent (task r);
  ok_message : sub_message (submission r) = task_message (task r);
  ok_deps : sub_depends_on (submission r) = deps_of r;
  ok_depth : (0 < depth r ≤ max_depth config)%N;
  ok_turns : (max_turns (sub_policy (submission r)) ≤ config_max_turns config)%N;
  ok_tools : tools (sub_policy (submission r)) = baseline_tools (security_baseline r);
  ok_delivered : result_delivered r = true → is_terminal (task_status (task r)) = true;
  ok_running : task_status (task r) = Running → dispatch r = Started;
  ok_queued : is_queued r = true → dispatch r = Never ∨ is_Some (durable_checkpoint r);
  ok_continuation c : durable_checkpoint r = Some c → continuation_ok r c;
  ok_security : security config None [] (submission r) = Ok (security_baseline r);
  ok_journal : NoDup (msg_id <$> journal r);
  ok_messages : Forall message_ok (journal r);
  ok_received : N.of_nat (length (journal r)) = messages_received (task r);
  ok_undispatched : dispatch r = Never → in_flight_messages r = [] ∧ acknowledged_messages r = [];
}.

(** The parent of a record, with the depth and the security above it. *)
Definition scope_ok (l : list Rec) (r : Rec) : Prop :=
  match parent_id r with
  | Some p => ∃ q, find_record p l = Some q ∧ checked_add32 (depth q) 1 = Some (depth r) ∧
      restricts (security_baseline r) (security_baseline q)
  | None => checked_add32 (parent_depth config) 1 = Some (depth r)
  end.

Record inv (s : Ckpt) : Prop := {
  inv_version : version s = 1%N;
  inv_run : checkpoint_run_id s = run_id;
  inv_budget : budget s = config_budget config;
  inv_length : (N.of_nat (length (records s)) ≤ max_tasks config)%N;
  inv_graph : validate_graph (records s) = Ok tt;
  inv_records : Forall rec_ok (records s);
  inv_scopes : Forall (scope_ok (records s)) (records s);
  inv_total : usage s = total_usage (records s);
  inv_fits : fits (usage s);
}.

(** ** Changes of one record *)

Record moves (r r' : Rec) : Prop := {
  mv_id : id_of r' = id_of r;
  mv_deps : deps_of r' = deps_of r;
  mv_depth : depth r' = depth r;
  mv_parent : parent_id r' = parent_id r;
  mv_submission : submission r' = submission r;
  mv_baseline : security_baseline r' = security_baseline r;
  mv_terminal : is_terminal (task_status (task r)) = true →
    task_status (task r') = task_status (task r) ∧ task_result (task r') = task_result (task r) ∧
    task_error (task r') = task_error (task r);
  mv_delivered : result_delivered r = true → result_delivered r' = true;
  mv_dispatch : dispatch r = Started → dispatch r' = Started;
  mv_usage : usage_le (task_usage (task r)) (task_usage (task r'));
  mv_journal : journal r ⊆ journal r';
  mv_acknowledged : acknowledged_messages r `prefix_of` acknowledged_messages r';
}.

#[export] Instance moves_preorder : PreOrder moves.
Proof.
  split.
  - intros r. by constructor.
  - intros r1 r2 r3 H1 H2. destruct H1, H2. constructor; try congruence.
    + intros Ht. destruct (mv_terminal0 Ht) as (Hs & ? & ?).
      destruct mv_terminal1 as (? & ? & ?); [congruence|]. split_and!; congruence.
    + auto.
    + auto.
    + by etrans.
    + set_solver.
    + by etrans.
Qed.

(** Later checkpoints: the same records, moved, and new ones after them. *)
Definition grows (s s' : Ckpt) : Prop :=
  ∃ mid extra, records s' = mid ++ extra ∧ Forall2 moves (records s) mid.

#[export] Instance grows_preorder : PreOrder grows.
Proof.
  split.
  - intros s. exists (records s), []. split; [by rewrite app_nil_r|reflexivity].
  - intros s1 s2 s3 (m1 & x1 & H1 & F1) (m2 & x2 & H2 & F2).
    rewrite H1 in F2. apply Forall2_app_inv_l in F2 as (m2' & x1' & Fm & Fx & ->).
    exists m2', (x1' ++ x2). split; [by rewrite H2, app_assoc|].
    by etrans.
Qed.

(** ** Finding records *)

Lemma find_record_Some id l r :
  find_record id l = Some r → r ∈ l ∧ id_of r = id.
Proof.
  unfold find_record. intros [Hin Heq]%List.find_some. split; [by apply list_elem_of_In|].
  by apply String.eqb_eq.
Qed.

Lemma find_record_None id l : find_record id l = None ↔ id ∉ id_of <$> l.
Proof.
  unfold find_record. induction l as [|r l IH]; simpl; [set_solver|]. fold (id_of r).
  destruct (String.eqb_spec (id_of r) id) as [<-|Hne]; [set_solver|].
  rewrite IH. set_solver.
Qed.

Lemma find_record_unique id l r :
  NoDup (id_of <$> l) → r ∈ l → id_of r = id → find_record id l = Some r.
Proof.
  intros Hnd Hin <-. unfold find_record. induction l as [|x l IH]; simpl; [set_solver|].
  rewrite fmap_cons, NoDup_cons in Hnd. destruct Hnd as [Hx Hnd]. fold (id_of x).
  apply elem_of_cons in Hin as [<-|Hin]; [by rewrite String.eqb_refl|].
  destruct (String.eqb_spec (id_of x) (id_of r)) as [Heq|]; [|by apply IH].
  destruct Hx. rewrite Heq. apply list_elem_of_fmap. by exists r.
Qed.

Lemma ids_moves l l' : Forall2 moves l l' → id_of <$> l' = id_of <$> l.
Proof. induction 1 as [|r r' l l' Hm _ IH]; csimpl; [done|]. by rewrite (mv_id _ _ Hm), IH. Qed.

Lemma find_record_moves id l l' r :
  Forall2 moves l l' → find_record id l = Some r →
  ∃ r', find_record id l' = Some r' ∧ moves r r'.
Proof.
  intros Hf. unfold find_record. induction Hf as [|x x' l l' Hm _ IH]; simpl; [done|].
  fold (id_of x) (id_of x'). rewrite (mv_id _ _ Hm).
  destruct (String.eqb (id_of x) id); [|done]. intros [= <-]. by exists x'.
Qed.

Lemma find_record_app id l k r : find_record id l = Some r → find_record id (l ++ k) = Some r.
Proof.
  unfold find_record. induction l as [|x l IH]; simpl; [done|]. by destruct (String.eqb _ _).
Qed.

Lemma find_record_grows id s s' r :
  grows s s' → find_record id (records s) = Some r →
  ∃ r', find_record id (records s') = Some r' ∧ moves r r'.
Proof.
  intros (mid & extra & -> & Hf) Hr. eapply find_record_moves in Hr as (r' & Hr' & ?); [|done].
  exists r'. split; [|done]. by apply find_record_app.
Qed.

(** ** What moving records keeps *)

Lemma validate_graph_map l l' :
  (λ r, (id_of r, deps_of r)) <$> l' = (λ r, (id_of r, deps_of r)) <$> l →
  validate_graph l' = validate_graph l.
Proof.
  intros Heq. unfold validate_graph.
  assert (∀ m, collect_graph m l' = collect_graph m l) as ->; [|done].
  revert l' Heq. induction l as [|r l IH]; intros [|r' l'] Heq m; simplify_eq/=; [done|].
  unfold id_of, deps_of in *.
  match goal with H : task_id _ = _ |- _ => rewrite H end.
  match goal with H : task_depends_on _ = _ |- _ => rewrite H end.
  repeat case_match; auto.
Qed.

Lemma validate_graph_moves l l' : Forall2 moves l l' → validate_graph l' = validate_graph l.
Proof.
  intros Hf. apply validate_graph_map. induction Hf as [|r r' l l' Hm _ IH]; csimpl; [done|].
  by rewrite IH, (mv_id _ _ Hm), (mv_deps _ _ Hm).
Qed.

Lemma scope_ok_grows s s' r r' :
  grows s s' → moves r r' → scope_ok (records s) r → scope_ok (records s') r'.
Proof.
  intros Hg Hm. unfold scope_ok. rewrite (mv_parent _ _ Hm), (mv_depth _ _ Hm).
  destruct (parent_id r) as [p|]; [|done]. intros (q & Hq & Hd & Hs).
  eapply find_record_grows in Hq as (q' & Hq' & Hmq); [|done]. exists q'.
  by rewrite (mv_depth _ _ Hmq), (mv_baseline _ _ Hmq), (mv_baseline _ _ Hm).
Qed.

(** A change that only moves records keeps the invariant if it keeps each
    record's own and the usage total. *)
Lemma inv_moves s s' :
  inv s → version s' = version s → checkpoint_run_id s' = checkpoint_run_id s →
  budget s' = budget s → Forall2 moves (records s) (records s') →
  Forall rec_ok (records s') → usage s' = total_usage (records s') → fits (usage s') →
  inv s' ∧ grows s s'.
Proof.
  intros Hi Hv Hr Hb Hf Hok Ht Hfit.
  assert (grows s s') as Hg by (exists (records s'), []; by rewrite app_nil_r).
  split; [|done]. destruct Hi. constructor; try congruence.
  - by rewrite <-(Forall2_length _ _ _ Hf).
  - by rewrite (validate_graph_moves _ _ Hf).
  - apply Forall_forall. intros r' Hr'.
    apply list_elem_of_lookup in Hr' as [i Hi].
    edestruct (Forall2_lookup_r _ _ _ _ _ Hf Hi) as (r & Hr0 & Hm).
    eapply scope_ok_grows; [done|done|].
    eapply Forall_lookup in inv_scopes0; done.
Qed.
(** ** Updating one record *)

(** The update of a record is a move that keeps it well formed and charges
    [delta] to it. *)
Definition charges (delta : BudgetUsage) (r r' : Rec) : Prop :=
  moves r r' ∧ rec_ok r' ∧ task_usage (task r') = usage_plus (task_usage (task r)) delta.

Lemma record_mut_Ok id f s s' :
  record_mut id f s = Ok s' ↔
  ∃ rs, update_first (λ r, String.eqb (id_of r) id) f
          (invalid ("unknown child task " +:+ id)) (records s) = Ok rs ∧ s' = set_records rs s.
Proof. unfold record_mut. rewrite bind_Ok. naive_solver. Qed.

Lemma total_usage_app l k : total_usage (l ++ k) = usage_plus (total_usage l) (total_usage k).
Proof.
  induction l as [|r l IH]; simpl; [by rewrite usage_plus_0_l|]. by rewrite IH, usage_plus_assoc.
Qed.

Lemma charge_inv id f delta s s1 u' :
  inv s → record_mut id f s = Ok s1 → add (usage s) delta = Ok u' →
  (∀ r r', r ∈ records s → id_of r = id → rec_ok r → f r = Ok r' → charges delta r r') →
  inv (set_usage u' s1) ∧ grows s (set_usage u' s1).
Proof.
  intros Hi (rs & Hrs & ->)%record_mut_Ok [-> Hfit]%add_Ok Hf.
  apply update_first_Ok in Hrs as (pre & r & r' & post & Heq & -> & _ & Hid & Hr').
  apply String.eqb_eq in Hid. pose proof (inv_records _ Hi) as Hok.
  assert (rec_ok r) as Hr by (rewrite Heq, Forall_app, Forall_cons in Hok; tauto).
  destruct (Hf r r') as (Hm & Hr2 & Hu); [rewrite Heq; set_solver|done..|].
  apply inv_moves; simpl; try done.
  - rewrite Heq. apply Forall2_app; [reflexivity|]. by constructor.
  - rewrite Heq, !Forall_app, !Forall_cons in *. tauto.
  - rewrite (inv_total _ Hi), Heq, !total_usage_app. simpl. rewrite Hu.
    rewrite <-!usage_plus_assoc. do 2 f_equal. apply usage_plus_comm.
Qed.

Lemma update_inv id f s s' :
  inv s → record_mut id f s = Ok s' →
  (∀ r r', r ∈ records s → id_of r = id → rec_ok r → f r = Ok r' →
     charges default_usage r r') →
  inv s' ∧ grows s s'.
Proof.
  intros Hi Hs' Hf.
  assert (s' = set_usage (usage s) s') as Heq.
  { apply record_mut_Ok in Hs' as (rs & _ & ->). by destruct s. }
  rewrite Heq. eapply charge_inv; [done|exact Hs'| |exact Hf].
  apply add_Ok. rewrite usage_plus_0_r. split; [done|]. apply (inv_fits _ Hi).
Qed.

(** Every field the update leaves alone keeps the record well formed. *)
Ltac solve_rec :=
  match goal with H : rec_ok ?r |- _ => destruct H end;
  constructor; unfold id_of, deps_of, journal, is_queued, continuation_ok in *; simpl in *;
  try done; try congruence; try (intros; congruence); auto.
Ltac solve_moves :=
  constructor; unfold id_of, deps_of, journal in *; simpl in *; try done; try reflexivity;
  try congruence; auto.
Ltac solve_charges :=
  split_and!; [try solve_moves|try solve_rec|simpl; by rewrite ?usage_plus_0_r].

Lemma charges_refl r : rec_ok r → charges default_usage r r.
Proof. intros. split_and!; [done|done|by rewrite usage_plus_0_r]. Qed.

Lemma not_delivered r :
  rec_ok r → is_terminal (task_status (task r)) = false → result_delivered r = false.
Proof.
  intros Hr Ht. destruct (result_delivered r) eqn:Hrd; [|done].
  apply (ok_delivered _ Hr) in Hrd. congruence.
Qed.

Lemma cancel_record_charges now r r' :
  rec_ok r → cancel_record now r = Ok r' → charges default_usage r r'.
Proof.
  intros Hr. unfold cancel_record. destruct (is_terminal _) eqn:Ht; simpl; intros [= <-].
  { by apply charges_refl. }
  solve_charges.
Qed.

Lemma shutdown_record_charges now r :
  rec_ok r → charges default_usage r (shutdown_record now r).
Proof.
  intros Hr. unfold shutdown_record. destruct (is_terminal _) eqn:Ht; simpl.
  { by apply charges_refl. }
  case_bool_decide; simpl; [by apply charges_refl|]. solve_charges.
Qed.

Lemma steer_record_charges mid text r r' :
  rec_ok r → mid ≠ "" → trim text ≠ "" →
  steer_record mid text r = Ok r' → charges default_usage r r'.
Proof.
  intros Hr Hm Htx. unfold steer_record. destruct (List.find _ _) as [m|] eqn:Hfind.
  { destruct (String.eqb _ _); [|done]. intros [= <-]. by apply charges_refl. }
  destruct (accepting_messages r); simpl; [|done].
  destruct (is_terminal _) eqn:Ht; simpl; [done|].
  case_bool_decide; [done|]. intros [= <-].
  assert (mid ∉ msg_id <$> journal r) as Hnew.
  { intros (m & -> & Hin)%list_elem_of_fmap. apply list_elem_of_In in Hin.
    eapply List.find_none in Hfind; [|done]. by rewrite String.eqb_refl in Hfind. }
  assert (journal (set_queued_messages (queued_messages r ++ [mkSteeringMessage mid text]) r)
    ≡ₚ mkSteeringMessage mid text :: journal r) as Hperm.
  { unfold journal. simpl. rewrite <-!app_assoc. simpl.
    by rewrite <-!Permutation_middle. }
  split_and!.
  - solve_moves. set_solver.
  - destruct Hr. constructor; unfold is_queued, continuation_ok in *; simpl in *; try done.
    + change (journal _) with (journal (set_queued_messages
        (queued_messages r ++ [mkSteeringMessage mid text]) r)).
      rewrite Hperm, fmap_cons. by constructor.
    + change (journal _) with (journal (set_queued_messages
        (queued_messages r ++ [mkSteeringMessage mid text]) r)).
      rewrite Hperm. by constructor.
    + change (journal _) with (journal (set_queued_messages
        (queued_messages r ++ [mkSteeringMessage mid text]) r)).
      rewrite Hperm. simpl. lia.
  - simpl. by rewrite usage_plus_0_r.
Qed.
(** ** Security of submissions *)

(** [baseline] with the tools of a submission's policy. *)
Definition with_tools (t : ToolPolicy) (b : SecurityBaseline) : SecurityBaseline :=
  mkSecurityBaseline t (input_guardrails b) (output_guardrails b) (untrusted_tool_outputs b)
    (max_output_bytes b).

Lemma restricts_with_tools b c : restricts c b → restricts c (with_tools (baseline_tools c) b).
Proof. intros []. constructor; simpl; auto using names_le_refl, limit_le_refl; lia. Qed.

Lemma with_tools_mono b c t :
  restricts c (with_tools t b) → restricts (with_tools (baseline_tools c) b) (with_tools t b).
Proof. intros []. constructor; simpl in *; auto using limit_le_refl. Qed.

(** [security] unfolded: the meet of everything that applies. *)
Definition requested (sc : option string) (l : list Rec) (sub : Submission Value)
    (sb : SecurityBaseline) : Prop :=
  ∃ agent, agents config !! sub_agent sub = Some agent ∧
  ∃ inherited, match sc with
    | Some p => ∃ q, find_record p l = Some q ∧
        inherited = narrow (narrow (config_security config) agent) (security_baseline q)
    | None => inherited = narrow (config_security config) agent
    end ∧
    sb = match sub_security sub with Some req => narrow inherited req | None => inherited end.

Lemma security_Ok sc l sub b :
  security config sc l sub = Ok b ↔
  ∃ sb, requested sc l sub sb ∧ b = narrow sb (with_tools (tools (sub_policy sub)) sb).
Proof.
  unfold security, requested, with_tools. split.
  - intros H. inv_ok. destruct sc as [p|]; inv_ok; eexists; (split; [|done]);
      eexists; (split; [done|]); eexists; (split; [|done]); eauto.
  - intros (s & (agent & -> & inh & Hinh & ->) & ->). simpl.
    destruct sc as [p|]; [destruct Hinh as (q & -> & ->)|subst]; done.
Qed.

Lemma requested_le sc l sub sb c :
  requested sc l sub sb →
  restricts c sb ↔
  restricts c (config_security config) ∧
  (∀ agent, agents config !! sub_agent sub = Some agent → restricts c agent) ∧
  (∀ p q, sc = Some p → find_record p l = Some q → restricts c (security_baseline q)) ∧
  (∀ req, sub_security sub = Some req → restricts c req).
Proof.
  assert (∀ a b c : SecurityBaseline,
    restricts c (narrow a b) ↔ restricts c a ∧ restricts c b) as Hn.
  { intros a b c0. split; [|intros []; auto with security].
    intros H. split; (etrans; [exact H|auto with security]). }
  intros (agent & Ha & inh & Hinh & ->). rewrite Ha.
  destruct sc as [p|]; [destruct Hinh as (q & Hq & ->)|subst];
    destruct (sub_security sub); rewrite ?Hn; naive_solver.
Qed.

(** Asking again for the security of a well-formed record, through a scope that
    covers it, never gives less than it already has. *)
Lemma security_again sc l r cur :
  rec_ok r → security config sc l (submission r) = Ok cur →
  (∀ p q, sc = Some p → find_record p l = Some q →
     restricts (security_baseline r) (security_baseline q)) →
  restricts (security_baseline r) cur.
Proof.
  intros Hr (s & Hreq & ->)%security_Ok Hsc.
  destruct (proj1 (security_Ok _ _ _ _) (ok_security _ Hr)) as (s0 & Hreq0 & Hb).
  assert (restricts (security_baseline r) s0) as Hs0 by (rewrite Hb; auto with security).
  apply (requested_le _ _ _ _ _ Hreq0) in Hs0 as (H1 & H2 & _ & H4).
  assert (restricts (security_baseline r) s) as Hs by (apply (requested_le _ _ _ _ _ Hreq); auto).
  apply narrow_greatest; [done|]. rewrite (ok_tools _ Hr). by apply restricts_with_tools.
Qed.

(** The submission stored with a record asks for exactly the record's security
    when it is evaluated again, at the root. *)
Lemma security_stored sc l sub b :
  security config sc l sub = Ok b →
  let sub1 := match sc with Some _ => set_sub_security (Some b) sub | None => sub end in
  ∀ sub2 : Submission Value, sub_agent sub2 = sub_agent sub1 → sub_security sub2 = sub_security sub1 →
    tools (sub_policy sub2) = baseline_tools b → security config None [] sub2 = Ok b.
Proof.
  intros (s & Hreq & ->)%security_Ok sub1 sub2 Hag Hsec Htools.
  set (b := narrow s (with_tools (tools (sub_policy sub)) s)) in *.
  assert (restricts b s) as Hbs by (unfold b; auto with security).
  destruct Hreq as (agent & Ha & inh & Hinh & Hs).
  assert (∃ sb2, requested None [] sub2 sb2 ∧ restricts b sb2 ∧
    (sub_security sub2 = Some b ∨ sb2 = s)) as (sb2 & Hreq2 & Hbsb2 & Hcase).
  { assert (sub_agent sub1 = sub_agent sub) as Hag1 by (unfold sub1; by destruct sc).
    unfold requested. rewrite Hag, Hag1, Ha, Hsec. unfold sub1. destruct sc as [p|]; simpl.
    - destruct Hinh as (q & _ & ->). eexists. split_and!; [by repeat eexists| |by left].
      apply narrow_greatest; [|done]. trans s; [done|]. rewrite Hs.
      destruct (sub_security sub); [etrans; apply narrow_lower_l|apply narrow_lower_l].
    - subst inh. exists s. split_and!; [|done|by right]. by repeat eexists. }
  apply security_Ok. exists sb2. split; [done|]. rewrite Htools.
  apply restricts_antisym.
  - destruct Hcase as [Hb| ->].
    + apply narrow_greatest; [done|]. by apply restricts_with_tools.
    + apply narrow_greatest; [done|]. by apply restricts_with_tools.
  - destruct Hcase as [Hb| ->].
    + trans sb2; [auto with security|].
      pose proof (proj1 (requested_le _ _ _ _ sb2 Hreq2) (reflexivity sb2)) as (_ & _ & _ & H4).
      by apply H4.
    + unfold b at 2. apply narrow_greatest; [auto with security|].
      etrans; [apply narrow_lower_r|]. apply with_tools_mono. unfold b. auto with security.
Qed.
(** ** Delegation scopes *)

(** [p] is a proper ancestor of [r]. *)
Inductive descends (l : list Rec) (p : string) : Rec → Prop :=
| descends_child r : parent_id r = Some p → descends l p r
| descends_step r i q :
    parent_id r = Some i → find_record i l = Some q → descends l p q → descends l p r.

Lemma descends_parent l p r : descends l p r → is_Some (parent_id r).
Proof. intros []; by eexists. Qed.

(** [r] is within the scope of a handle. *)
Definition covers (sc : option string) (l : list Rec) (r : Rec) : Prop :=
  match sc with Some p => descends l p r | None => True end.

Lemma climb_descends fuel l p r :
  climb fuel l (String.eqb p) (parent_id r) = true → descends l p r.
Proof.
  revert r. induction fuel as [|fuel IH]; intros r; simpl; [done|].
  destruct (parent_id r) as [i|] eqn:Hp; [|done].
  destruct (String.eqb_spec p i) as [->|]; [intros; by apply descends_child|].
  destruct (find_record i l) as [q|] eqn:Hq; simpl.
  - intros H%IH. by eapply descends_step.
  - by destruct fuel.
Qed.

Lemma visible_covers sc l r : visible sc l r = true → covers sc l r.
Proof. destruct sc as [p|]; simpl; [apply climb_descends|done]. Qed.

Lemma scope_parent s r i :
  inv s → r ∈ records s → parent_id r = Some i →
  ∃ q, find_record i (records s) = Some q ∧ q ∈ records s ∧ depth r = (depth q + 1)%N ∧
    restricts (security_baseline r) (security_baseline q).
Proof.
  intros Hi Hr Hp. pose proof (inv_scopes _ Hi) as Hs. rewrite Forall_forall in Hs.
  specialize (Hs r Hr). unfold scope_ok in Hs. rewrite Hp in Hs.
  destruct Hs as (q & Hq & [Hd _]%checked_add32_Some & Hb). exists q.
  split_and!; try done. by apply find_record_Some in Hq as [].
Qed.

(** Enough fuel: the records at most as deep as the parent. *)
Lemma descends_climb s p r fuel :
  inv s → r ∈ records s → descends (records s) p r →
  length (filter (λ x, (depth x < depth r)%N) (records s)) ≤ fuel →
  climb fuel (records s) (String.eqb p) (parent_id r) = true.
Proof.
  intros Hi Hr Hd. revert fuel Hr.
  induction Hd as [r Hp|r i q Hp Hq _ IH]; intros fuel Hr Hf;
    destruct (scope_parent _ _ _ Hi Hr Hp) as (q' & Hq' & Hin & Hdep & _).
  - destruct fuel as [|fuel].
    { assert (q' ∈ filter (λ x, (depth x < depth r)%N) (records s)) as Hc
        by (apply list_elem_of_filter; split; [lia|done]).
      destruct (filter _ _); [set_solver|simpl in Hf; lia]. }
    simpl. rewrite Hp. by rewrite String.eqb_refl.
  - simplify_eq.
    assert (length (filter (λ x, (depth x < depth q)%N) (records s)) <
      length (filter (λ x, (depth x < depth r)%N) (records s))) as Hlt.
    { clear -Hin Hdep. induction (records s) as [|x l IH]; [set_solver|].
      rewrite !filter_cons. apply elem_of_cons in Hin as [<-|Hin].
      - rewrite decide_False by lia. rewrite decide_True by lia. simpl.
        apply -> Nat.lt_succ_r. clear IH. induction l as [|y l IH]; [simpl; lia|].
        rewrite !filter_cons. repeat case_decide; simpl; lia.
      - specialize (IH Hin). repeat case_decide; simpl; lia. }
    destruct fuel as [|fuel]; [lia|]. simpl. rewrite Hp.
    destruct (String.eqb_spec p i); [done|]. rewrite Hq. simpl. apply IH; [done|lia].
Qed.

Lemma covers_visible s sc r :
  inv s → r ∈ records s → covers sc (records s) r → visible sc (records s) r = true.
Proof.
  intros Hi Hr. destruct sc as [p|]; simpl; [|done]. intros Hd.
  eapply descends_climb; [done..|]. apply length_filter.
Qed.

Lemma descends_grows s s' p r r' :
  grows s s' → descends (records s) p r → moves r r' → descends (records s') p r'.
Proof.
  intros Hg Hd. revert r'. induction Hd as [r Hp|r i q Hp Hq _ IH]; intros r' Hm.
  - apply descends_child. by rewrite (mv_parent _ _ Hm).
  - eapply find_record_grows in Hq as (q' & Hq' & Hmq); [|done].
    eapply descends_step; [by rewrite (mv_parent _ _ Hm)|done|by apply IH].
Qed.

Lemma descends_baseline s p r q :
  inv s → r ∈ records s → descends (records s) p r → find_record p (records s) = Some q →
  restricts (security_baseline r) (security_baseline q).
Proof.
  intros Hi Hr Hd Hq. revert Hr. induction Hd as [r Hp|r i x Hp Hx _ IH]; intros Hr;
    destruct (scope_parent _ _ _ Hi Hr Hp) as (y & Hy & Hin & _ & Hb); simplify_eq.
  - done.
  - etrans; [exact Hb|]. by apply IH.
Qed.

Lemma check_visible_grows sc id observed s r :
  check_visible sc id observed = Ok tt → grows observed s →
  r ∈ records s → id_of r = id → NoDup (id_of <$> records s) → covers sc (records s) r.
Proof.
  unfold check_visible. intros Hv Hg Hr Hid Hnd. inv_ok.
  destruct (find_record id (records observed)) as [r0|] eqn:Hr0; [|done]. simplify_eq/=.
  case_match eqn:Hvis; [|done]. apply visible_covers in Hvis.
  eapply find_record_grows in Hr0 as (r1 & Hr1 & Hm); [|done].
  rewrite (find_record_unique _ _ r Hnd Hr eq_refl) in Hr1. simplify_eq.
  destruct sc as [p|]; simpl in *; [|done]. by eapply descends_grows.
Qed.

Lemma inv_nodup s : inv s → NoDup (id_of <$> records s).
Proof. intros Hi. by apply graph_unique, validate_graph_Ok, inv_graph. Qed.
(** ** The record updates of the operations *)

Lemma requeue_charges s sc r r' :
  inv s → r ∈ records s → rec_ok r → covers sc (records s) r →
  is_terminal (task_status (task r)) = false →
  dispatch r = Never ∨ is_Some (durable_checkpoint r) →
  requeue config sc (records s) r = Ok r' → charges default_usage r r'.
Proof.
  intros Hi Hin Hr Hcov Ht Hd. unfold requeue. intros H. inv_ok.
  match goal with H : security _ _ _ _ = Ok ?c |- _ => rename H into Hsec, c into cur end.
  match goal with H : allows_resume_under _ _ = true |- _ => rename H into Hres end.
  assert (cur = security_baseline r) as ->.
  { apply restricts_antisym; [by apply allows_resume_under_spec|].
    eapply security_again; [done|exact Hsec|]. intros p q -> Hq. by eapply descends_baseline. }
  assert (set_submission (set_sub_policy
    (set_policy_tools (baseline_tools (security_baseline r)) (sub_policy (submission r)))
    (submission r)) (set_security_baseline (security_baseline r) r) = r) as ->.
  { rewrite <-(ok_tools _ Hr). by destruct r as [? [? ? ? ? ? ? ? ? []]]. }
  pose proof (not_delivered _ Hr Ht). solve_charges.
Qed.

Lemma charge_task_Ok delta t t' :
  charge_task delta t = Ok t' ↔
  t' = set_task_usage (usage_plus (task_usage t) delta) t ∧ fits (usage_plus (task_usage t) delta).
Proof.
  unfold charge_task. split.
  - intros H. inv_ok. fwd add_Ok. destruct_and!. by subst.
  - intros [-> Hf]. assert (add (task_usage t) delta = Ok (usage_plus (task_usage t) delta)) as ->
      by by apply add_Ok. done.
Qed.

Lemma reconcile_record_charges now outcome r r' :
  rec_ok r → task_status (task r) = Reconciling → is_terminal (outcome_status outcome) = true →
  reconcile_record now outcome r = Ok r' →
  charges (remaining_delta (task_usage (task r)) (outcome_usage outcome)) r r'.
Proof.
  intros Hr Hst Ho. unfold reconcile_record. intros H. inv_ok. fwd charge_task_Ok.
  destruct_and!. subst. split_and!; [| |done].
  - solve_moves; [by rewrite Hst|apply usage_le_plus].
  - destruct Hr. constructor; unfold is_queued, continuation_ok in *; simpl in *; try done.
    + by destruct (outcome_status outcome).
    + by destruct (outcome_status outcome).
Qed.

Lemma outcome_record_charges now outcome r r' :
  rec_ok r → is_terminal (outcome_status outcome) = true →
  outcome_record now outcome r = Ok r' →
  charges (remaining_delta (task_usage (task r)) (outcome_usage outcome)) r r'.
Proof.
  intros Hr Ho. unfold outcome_record. intros H. inv_ok. fwd charge_task_Ok.
  destruct_and!. subst. simpl. destruct (is_terminal (task_status (task r))) eqn:Ht; simpl.
  - rewrite Ht. split_and!; [| |done].
    + solve_moves. apply usage_le_plus.
    + solve_rec.
  - set (st := if _ && _ then Reconciling else outcome_status outcome).
    assert (st = Reconciling ∨ st = outcome_status outcome) as Hst
      by (unfold st; destruct (_ && _); auto).
    assert (st ≠ Running ∧ st ≠ Pending ∧ st ≠ Waiting) as (? & ? & ?).
    { destruct Hst as [-> | ->]; [done|]. by destruct (outcome_status outcome). }
    pose proof (not_delivered _ Hr Ht) as Hnd.
    set (r2 := set_task (set_waiting_on [] _) _).
    assert (charges (remaining_delta (task_usage (task r)) (outcome_usage outcome)) r r2) as Hc.
    { unfold r2. split_and!; [| |done].
      - solve_moves. apply usage_le_plus.
      - destruct Hr. constructor; unfold is_queued, continuation_ok in *; simpl in *; try done.
        + by rewrite Hnd.
        + by destruct st. }
    destruct (is_terminal st); [|done].
    change (set_task _ r2) with (set_task (freeze_duration now (task r2)) r2).
    clearbody r2. destruct Hc as (Hm & Hok & Hu). split_and!; [| |done].
    + trans r2; [done|]. solve_moves.
    + solve_rec.
Qed.

(** Acknowledging moves messages within the journal. *)
Definition acknowledged_move (r r' : Rec) : Prop :=
  ∃ ifl ack, r' = set_acknowledged_messages ack (set_in_flight_messages ifl r) ∧
    ifl ++ ack ≡ₚ in_flight_messages r ++ acknowledged_messages r ∧
    acknowledged_messages r `prefix_of` ack ∧ length ifl ≤ length (in_flight_messages r).

Lemma acknowledge_one_move e r id r' :
  acknowledge_one e r id = Ok r' → acknowledged_move r r'.
Proof.
  unfold acknowledge_one. case_match.
  - intros [= <-]. exists (in_flight_messages r), (acknowledged_messages r).
    split_and!; try done. by destruct r.
  - destruct (list_find _ _) as [[i m]|] eqn:Hf; [|done]. intros [= <-].
    apply list_find_Some in Hf as (Hi & _).
    eexists _, _. split_and!; [done| |by eexists|].
    + rewrite (delete_Permutation _ _ _ Hi) at 2. simpl.
      rewrite app_assoc, (Permutation_app_comm _ [m]). done.
    + rewrite length_delete; [lia|by eexists].
Qed.

Lemma acknowledge_all_move e ids r r' :
  foldM (acknowledge_one e) r ids = Ok r' → acknowledged_move r r'.
Proof.
  intros Hf. revert Hf. apply (foldM_inv _ (acknowledged_move r)).
  - exists (in_flight_messages r), (acknowledged_messages r). split_and!; try done. by destruct r.
  - intros r1 id r2 _ (i1 & a1 & -> & Hp & Hpre & Hl) H2%acknowledge_one_move.
    destruct H2 as (i2 & a2 & -> & Hp2 & Hpre2 & Hl2). exists i2, a2. simpl in *.
    split_and!; [by destruct r| |by etrans|lia]. by etrans.
Qed.

Lemma journal_split r :
  journal r ≡ₚ queued_messages r ++ (in_flight_messages r ++ acknowledged_messages r).
Proof. unfold journal. rewrite !app_assoc. f_equiv. apply Permutation_app_comm. Qed.

(** The journal after a change that only redistributes it. *)
Lemma redistribute_charges r r' ifl q ack acc dc :
  rec_ok r →
  r' = set_accepting_messages acc (set_durable_checkpoint dc
    (set_acknowledged_messages ack (set_in_flight_messages ifl (set_queued_messages q r)))) →
  journal r' ≡ₚ journal r → acknowledged_messages r `prefix_of` ack →
  (dispatch r = Never → ifl = [] ∧ ack = []) →
  (∀ c, dc = Some c → continuation_ok r c) → (durable_checkpoint r = None ∨ is_Some dc) →
  charges default_usage r r'.
Proof.
  intros Hr -> Hp Hpre Hnever Hdc Hsome. split_and!; [| |simpl; by rewrite usage_plus_0_r].
  - constructor; try done. by rewrite Hp.
  - destruct Hr. constructor; rewrite ?Hp; simpl in *; try done.
    unfold is_queued in *. simpl. intros Hq. destruct (ok_queued0 Hq) as [?|[c Hc]]; [by left|].
    destruct Hsome as [?|?]; [congruence|by right].
Qed.

Lemma acknowledged_charges r r' :
  rec_ok r → acknowledged_move r r' → charges default_usage r r'.
Proof.
  intros Hr (ifl & ack & -> & Hp & Hpre & Hl).
  apply (redistribute_charges r _ ifl (queued_messages r) ack (accepting_messages r)
    (durable_checkpoint r)); [done|by destruct r| |done| | |].
  - rewrite !journal_split. simpl. by f_equiv.
  - intros Hn. destruct (ok_undispatched _ Hr Hn) as [Hi Ha]. rewrite Hi, Ha in *.
    apply Permutation_nil_r in Hp. by apply app_eq_nil in Hp.
  - intros c Hc. by apply (ok_continuation _ Hr).
  - destruct (durable_checkpoint r); eauto.
Qed.

Lemma take_record_charges r acc :
  rec_ok r → task_status (task r) = Running →
  charges default_usage r (set_accepting_messages acc (take_record r)).
Proof.
  intros Hr Hst. pose proof (ok_running _ Hr Hst) as Hd.
  apply (redistribute_charges r _ (in_flight_messages r ++ queued_messages r) []
    (acknowledged_messages r) acc (durable_checkpoint r)); [done|by destruct r| |done| | |].
  - unfold journal, take_record. simpl. by rewrite <-app_assoc.
  - congruence.
  - intros c Hc. by apply (ok_continuation _ Hr).
  - destruct (durable_checkpoint r); eauto.
Qed.

Lemma take_checked_charges r r' :
  rec_ok r → take_record_checked r = Ok r' → charges default_usage r r'.
Proof.
  intros Hr. unfold take_record_checked, require_running. intros H. inv_ok. bools.
  assert (take_record r = set_accepting_messages (accepting_messages r) (take_record r)) as ->
    by by destruct r.
  by apply take_record_charges.
Qed.

Lemma finish_charges r r' : rec_ok r → finish_record r = Ok r' → charges default_usage r r'.
Proof.
  intros Hr. unfold finish_record, require_running. intros H. inv_ok. bools.
  case_bool_decide; [by apply take_record_charges|].
  assert (take_record r = set_accepting_messages (accepting_messages r) (take_record r)) as ->
    by by destruct r.
  by apply take_record_charges.
Qed.

Lemma persist_record_charges c applied r r' :
  rec_ok r → (task_status (task r) = Running → continuation_ok r c) →
  persist_record c applied r = Ok r' → charges default_usage r r'.
Proof.
  intros Hr Hc. unfold persist_record, require_running. intros H. inv_ok. bools.
  match goal with H : foldM _ _ _ = Ok ?x |- _ => apply acknowledge_all_move in H as Hmv end.
  destruct Hmv as (ifl & ack & -> & Hp & Hpre & Hl).
  apply (redistribute_charges r _ ifl (queued_messages r) ack (accepting_messages r) (Some c));
    [done|by destruct r| |done| | |].
  - rewrite !journal_split. simpl. by f_equiv.
  - intros Hn. pose proof (ok_running _ Hr ltac:(done)). congruence.
  - intros c' [= <-]. by apply Hc.
  - right. by eexists.
Qed.

Lemma charge_record_charges delta r r' :
  rec_ok r → charge_record delta r = Ok r' → charges delta r r'.
Proof.
  intros Hr. unfold charge_record. intros H. inv_ok. fwd charge_task_Ok. destruct_and!. subst.
  split_and!; [| |done].
  - solve_moves. apply usage_le_plus.
  - solve_rec.
Qed.

(** Changes of the task that touch only its display. *)
Definition same_task (t t' : TaskSnapshot) : Prop :=
  task_id t' = task_id t ∧ task_agent t' = task_agent t ∧ task_message t' = task_message t ∧
  task_status t' = task_status t ∧ task_depends_on t' = task_depends_on t ∧
  task_result t' = task_result t ∧ task_error t' = task_error t ∧
  task_usage t' = task_usage t ∧ messages_received t' = messages_received t.

Lemma display_charges r t : rec_ok r → same_task (task r) t → charges default_usage r (set_task t r).
Proof.
  intros Hr (H1 & H2 & H3 & H4 & H5 & H6 & H7 & H8 & H9).
  split_and!; [| |simpl; by rewrite usage_plus_0_r].
  - constructor; unfold id_of, deps_of; simpl; try done; try congruence. by rewrite H8.
  - destruct Hr. constructor; unfold id_of, deps_of, is_queued, continuation_ok in *; simpl in *;
      try done; try congruence.
    + by rewrite H4.
    + by rewrite H4.
    + by rewrite H4.
    + intros c Hc. change (id_of (set_task t r)) with (task_id t). rewrite H1. auto.
    + change (journal (set_task t r)) with (journal r). congruence.
Qed.

Lemma update_activity_charges f r r' :
  rec_ok r → update_activity f r = Ok r' → charges default_usage r r'.
Proof. intros Hr [= <-]. by apply display_charges. Qed.

Lemma join_record_charges elapsed outcome r r' :
  rec_ok r → join_record elapsed outcome r = Ok r' → charges default_usage r r'.
Proof.
  intros Hr [= <-]. destruct (_ && _); [by apply display_charges|by apply charges_refl].
Qed.

Lemma delivered_charges r :
  rec_ok r → is_terminal (task_status (task r)) = true →
  charges default_usage r (set_result_delivered true r).
Proof. intros Hr Ht. solve_charges. Qed.

Lemma start_record_charges waiting r :
  rec_ok r → is_queued r = true → charges default_usage r (start_record waiting r).
Proof.
  intros Hr Hq. unfold start_record.
  assert (is_terminal (task_status (task r)) = false) as Ht
    by (unfold is_queued in Hq; by destruct (task_status (task r))).
  pose proof (not_delivered _ Hr Ht) as Hnd.
  destruct waiting; (split_and!; [| |simpl; by rewrite usage_plus_0_r]).
  - solve_moves.
  - destruct Hr. constructor; unfold continuation_ok in *; simpl in *; try done.
    + by rewrite Hnd.
    + intros c Hc. destruct (ok_continuation0 c Hc) as (? & ? & ? & ?). by split_and!.
  - solve_moves.
  - destruct Hr. constructor; unfold is_queued, continuation_ok in *; simpl in *; try done.
    + by rewrite Hnd.
    + intros _. by apply ok_queued0.
Qed.
(** A record as [restore] leaves it. *)
Definition restored (r : Rec) : Rec :=
  let r := set_accepting_messages false r in
  if negb (is_terminal (task_status (task r))) then
    set_task (set_task_error
      (Some "child runtime restarted; explicit resume or reconciliation required")
      (set_waiting_on [] (set_task_status Reconciling (task r)))) r
  else r.

Lemma restored_charges r : rec_ok r → charges default_usage r (restored r).
Proof.
  intros Hr. unfold restored. simpl. destruct (is_terminal _) eqn:Ht; simpl.
  - solve_charges.
  - pose proof (not_delivered _ Hr Ht). solve_charges.
Qed.
End inv.
