(* ===== verification/SubagentRun.v ===== *)
(** * SubagentRun: every transaction keeps the invariant

    The transactions of [Subagent] one by one, then runs of an owner: any
    sequence of calls through any handles, each with its own environment, and
    restarts from the committed checkpoint. *)

From stdpp Require Import pretty.
From S2P Require Import Prelude Text Durable Core SecurityPolicy.
From S2P Require Import Subagent SubagentGraph SubagentInv.

Section run.
Context {Value : Type} (run_id : string) (config : SchedulerConfig).
Notation Rec := (CheckpointRecord Value).
Notation Ckpt := (SchedulerCheckpoint Value).
Notation Sub := (Submission Value).
Notation rec_ok := (rec_ok run_id config).
Notation inv := (inv run_id config).
Notation charges := (charges run_id config).
Implicit Types (r : Rec) (l : list Rec) (s : Ckpt).

(** A transaction's closure keeps the invariant and only moves records. *)
Definition preserves {A} (apply : Ckpt → Result (A * Ckpt)) : Prop :=
  ∀ s v s', inv s → apply s = Ok (v, s') → inv s' ∧ grows s s'.

Lemma preserves_update id f :
  (∀ s r r', inv s → r ∈ records s → id_of r = id → rec_ok r → f r = Ok r' →
     charges default_usage r r') →
  preserves (update id f).
Proof.
  intros Hf s v s' Hi H. unfold update in H. inv_ok. eapply update_inv; eauto.
Qed.

Lemma preserves_update_take child f :
  (∀ r r', rec_ok r → f r = Ok r' → charges default_usage r r') →
  preserves (update_take child f).
Proof.
  intros Hf s v s' Hi H. unfold update_take in H. inv_ok. eapply update_inv; eauto.
Qed.

Lemma map_inv g s :
  inv s → (∀ r, r ∈ records s → rec_ok r → charges default_usage r (g r)) →
  inv (set_records (g <$> records s) s) ∧ grows s (set_records (g <$> records s) s).
Proof.
  intros Hi Hg. pose proof (inv_records _ _ _ Hi) as Hok. rewrite Forall_forall in Hok.
  apply inv_moves; simpl; try done.
  - apply Forall2_fmap_r, Forall_Forall2_diag, Forall_forall. intros r Hr.
    by apply Hg; [|apply Hok].
  - apply Forall_fmap, Forall_forall. intros r Hr. by apply Hg; [|apply Hok].
  - rewrite (inv_total _ _ _ Hi). clear Hi. induction (records s) as [|r l IH]; csimpl; [done|].
    rewrite IH; [|set_solver..]. f_equal.
    destruct (Hg r) as (_ & _ & ->); [set_solver|apply Hok; set_solver|].
    by rewrite usage_plus_0_r.
  - apply (inv_fits _ _ _ Hi).
Qed.

Lemma preserves_collect ids : preserves (collect_apply (Value := Value) ids).
Proof.
  intros s v s' Hi H. unfold collect_apply in H. inv_ok. apply map_inv; [done|].
  intros r _ Hr. unfold collectable. destruct (is_terminal _) eqn:Ht.
  - destruct (_ && _ && _); [by apply delivered_charges|by apply charges_refl].
  - rewrite andb_false_r. by apply charges_refl.
Qed.

Lemma get_record_Ok id s r : get_record id s = Ok r ↔ find_record id (records s) = Some r.
Proof. apply ok_or_Ok. Qed.

Lemma get_record_unique id s r r' :
  inv s → get_record id s = Ok r → r' ∈ records s → id_of r' = id → r' = r.
Proof.
  intros Hi Hg%get_record_Ok Hin Hid.
  rewrite (find_record_unique _ _ r') in Hg by (done || by eapply inv_nodup). congruence.
Qed.

Lemma record_mut_usage id f s s' : record_mut id f s = Ok s' → usage s' = usage s ∧ budget s' = budget s.
Proof. intros (rs & _ & ->)%record_mut_Ok. done. Qed.

Lemma charged_inv id f total s s1 s2 delta :
  inv s → record_delta id total s = Ok delta → record_mut id f s = Ok s1 →
  add_usage delta s1 = Ok s2 →
  (∀ r r', r ∈ records s → id_of r = id → rec_ok r → f r = Ok r' →
     charges (remaining_delta (task_usage (task r)) total) r r') →
  inv s2 ∧ grows s s2.
Proof.
  intros Hi Hd Hm Ha Hf. unfold record_delta, add_usage in *. inv_ok.
  destruct (record_mut_usage _ _ _ _ Hm) as [Hu _]. rewrite Hu in *.
  eapply charge_inv; [done..|]. intros r r' Hr Hid Hok Hr'.
  match goal with H : get_record _ _ = Ok _ |- _ =>
    rewrite <-(get_record_unique _ _ _ _ Hi H Hr Hid) end. by apply Hf.
Qed.

Lemma preserves_reconcile now id outcome :
  is_terminal (outcome_status outcome) = true →
  preserves (reconcile_apply (Value := Value) now id outcome).
Proof.
  intros Ho s v s' Hi H. unfold reconcile_apply in H. inv_ok. bools.
  eapply charged_inv; [done..|]. intros r0 r1 Hr0 Hid Hok Hr1.
  eapply reconcile_record_charges; try done.
  match goal with H : get_record _ _ = Ok _ |- _ =>
    by rewrite (get_record_unique _ _ _ _ Hi H Hr0 Hid) end.
Qed.

Lemma apply_outcome_inv now id outcome s s' :
  inv s → is_terminal (outcome_status outcome) = true →
  apply_outcome now id outcome s = Ok s' → inv s' ∧ grows s s'.
Proof.
  intros Hi Ho H. unfold apply_outcome in H. inv_ok.
  eapply charged_inv; [done..|]. eauto using outcome_record_charges.
Qed.

Lemma preserves_join now id outcome elapsed :
  is_terminal (outcome_status outcome) = true →
  preserves (join_apply (Value := Value) now id outcome elapsed).
Proof.
  intros Ho s v s' Hi H. unfold join_apply in H. inv_ok.
  match goal with H : record_mut _ _ s = Ok ?x |- _ =>
    destruct (update_inv _ _ _ _ _ _ Hi H) as [Hi1 Hg1]; [eauto using join_record_charges|] end.
  fwd apply_outcome_inv; [|done|done]. destruct_and!. split; [done|]. by etrans.
Qed.

Lemma preserves_charge child delta : preserves (charge_apply (Value := Value) child delta).
Proof.
  intros s v s' Hi H. unfold charge_apply, add_usage in H. inv_ok.
  match goal with H : record_mut _ _ s = Ok _ |- _ =>
    destruct (record_mut_usage _ _ _ _ H) as [Hu _] end. rewrite Hu in *.
  eapply charge_inv; [done..|]. intros r r' _ _ Hr Hr'. cbv beta in Hr'. inv_ok. by eapply charge_record_charges.
Qed.

Lemma preserves_reserve child delta : preserves (reserve_apply (Value := Value) child delta).
Proof.
  intros s v s' Hi H. unfold reserve_apply in H. inv_ok.
  eapply charge_inv; [done..|]. intros r r' _ _ Hr Hr'. by eapply charge_record_charges.
Qed.

Lemma grows_terminal s s' id r :
  grows s s' → find_record id (records s) = Some r → is_terminal (task_status (task r)) = true →
  ∃ r', find_record id (records s') = Some r' ∧ is_terminal (task_status (task r')) = true.
Proof.
  intros Hg Hr Ht. eapply find_record_grows in Hr as (r' & Hr' & Hm); [|done].
  exists r'. split; [done|]. by destruct (mv_terminal _ _ Hm Ht) as (-> & _).
Qed.

Lemma preserves_persist child c deliveries applied :
  (∀ r, id_of r = child → dispatch r = Started → continuation_ok run_id r c) →
  preserves (persist_apply (Value := Value) child c deliveries applied).
Proof.
  intros Hc s v s' Hi H. unfold persist_apply in H. inv_ok.
  match goal with H : foldM _ tt deliveries = Ok _ |- _ => rename H into Hchk end.
  match goal with H : foldM _ _ deliveries = Ok s' |- _ => rename H into Hdel end.
  match goal with H : record_mut _ _ s = Ok ?x |- _ =>
    destruct (update_inv _ _ _ _ _ _ Hi H) as [Hi1 Hg1]; [|rename x into s1] end.
  { intros r r' _ Hid Hr Hr'. eapply persist_record_charges; [done| |done].
    intros Hst. apply Hc; [done|]. by apply (ok_running _ _ _ Hr). }
  assert (∀ id, id ∈ deliveries → ∃ r, find_record id (records s) = Some r ∧
    is_terminal (task_status (task r)) = true) as Hterm.
  { clear -Hchk. revert Hchk. induction deliveries as [|d ds IH]; simpl; [set_solver|].
    unfold check_delivery at 1. destruct (ok_or _ _) as [q|] eqn:Hq; simpl; [|done].
    destruct (ensure _ _) as [[]|] eqn:He; [|done]. intros Hf id [->|Hin]%elem_of_cons.
    - exists q. inv_ok. bools. done.
    - by apply IH. }
  cut (inv s' ∧ grows s1 s'); [intros []; split; [done|by etrans]|].
  revert Hdel. apply (foldM_inv _ (λ s', inv s' ∧ grows s1 s')).
  - by split.
  - intros s2 id s3 Hid [Hi2 Hg2] Hm. destruct (Hterm id Hid) as (r0 & Hr0 & Ht0).
    destruct (update_inv _ _ _ _ _ _ Hi2 Hm) as [Hi3 Hg3]; [|split; [done|by etrans]].
    intros r r' Hr Hidr Hok [= <-]. apply delivered_charges; [done|].
    destruct (grows_terminal s s2 id r0) as (r1 & Hr1 & Ht1); [by etrans|done|done|].
    rewrite (find_record_unique _ _ r) in Hr1 by (done || by eapply inv_nodup).
    congruence.
Qed.
(** ** Submission *)

Lemma generate_id_Ok fuel l n id n' :
  generate_id fuel l n = Ok (id, n') → id ≠ "" ∧ id ∉ id_of <$> l.
Proof.
  revert n. induction fuel as [|fuel IH]; intros n; simpl; [done|].
  intros H. inv_add. case_match eqn:Hex; [by eapply IH|]. inv_ok. split; [done|].
  intros (r & Hid & Hin)%list_elem_of_fmap.
  assert (existsb (λ r, String.eqb (task_id (task r)) ("child_" +:+ pretty (n + 1)%N)) l = true);
    [|congruence].
  apply existsb_exists. exists r. split; [by apply list_elem_of_In|].
  apply String.eqb_eq. exact (eq_sym Hid).
Qed.

(** The numbering loop stops: more candidates than tasks. *)
Lemma generate_id_fuel fuel l n e :
  length l < fuel → generate_id fuel l n = Err e → e = invalid "task ID overflow".
Proof.
  intros Hlen Hgen.
  assert (∀ fuel n, generate_id fuel l n = Err e → e ≠ invalid "task ID overflow" →
    Forall (λ i, "child_" +:+ pretty (n + N.of_nat i)%N ∈ id_of <$> l) (seq 1 fuel)) as Hall.
  { clear. induction fuel as [|fuel IH]; intros n Hgen He; simpl; [done|].
    simpl in Hgen. destruct (checked_add n 1) as [m|] eqn:Hm; simpl in Hgen; [|congruence].
    apply checked_add_Some in Hm as [-> _]. destruct (existsb _ l) eqn:Hex; [|done].
    constructor.
    - apply existsb_exists in Hex as (r & Hr%list_elem_of_In & Hid%String.eqb_eq).
      apply list_elem_of_fmap. exists r. by split.
    - specialize (IH _ Hgen He). rewrite <-fmap_S_seq, Forall_fmap.
      eapply Forall_impl; [exact IH|]. intros i Hi. simpl.
      by replace (n + N.of_nat (S i))%N with (n + 1 + N.of_nat i)%N by lia. }
  destruct (decide (e = invalid "task ID overflow")) as [|He]; [done|exfalso].
  specialize (Hall fuel n Hgen He).
  assert (((λ i, "child_" +:+ pretty (n + N.of_nat i)%N) <$> seq 1 fuel) ⊆+ id_of <$> l) as Hsub.
  { apply NoDup_submseteq.
    - apply NoDup_fmap; [|apply NoDup_seq]. intros i j Hij.
      apply (inj (String.append "child_")), (inj pretty) in Hij. lia.
    - intros id (i & -> & Hi)%list_elem_of_fmap. by rewrite Forall_forall in Hall; apply Hall. }
  apply submseteq_length in Hsub. rewrite !length_fmap, length_seq in Hsub. lia.
Qed.

(** What the loop of [submit_dag] has added to the checkpoint [s]. *)
Record submitting (sc : option string) (d : N) (s : Ckpt) (st : list string * Ckpt) : Prop := {
  sub_ids : ∃ new, records st.2 = records s ++ new ∧ st.1 = id_of <$> new ∧
    Forall (λ r, rec_ok r ∧ parent_id r = sc ∧ depth r = d ∧ is_queued r = true ∧
      task_usage (task r) = default_usage ∧
      ∃ c, security config sc (records s) c = Ok (security_baseline r)) new;
  sub_version : version st.2 = version s;
  sub_run : checkpoint_run_id st.2 = checkpoint_run_id s;
  sub_budget : budget st.2 = budget s;
  sub_usage : usage st.2 = usage s;
}.

Lemma submit_one_submitting sc d now s st sub st' :
  (0 < d ≤ max_depth config)%N →
  submitting sc d s st → submit_one config sc (records s) d now st sub = Ok st' →
  submitting sc d s st'.
Proof.
  intros Hd [(new & Hrec & Hids & Hnew) Hv Hrun Hb Hu]. destruct st as [ids s1]. simpl in *.
  intros H. apply bind_Ok in H as ([] & _ & H). apply bind_Ok in H as ([id n] & Hid & H).
  apply bind_Ok in H as ([] & _ & H). apply bind_Ok in H as (b & Hsec & H).
  apply Ok_inj in H. subst st'.
  set (sub1 := set_sub_id id sub) in *. set (sub2 := match sc with Some _ => _ | None => sub1 end) in *.
  match goal with |- context [mkCheckpointRecord ?t ?s b d sc Never None false true [] [] []] =>
    set (tk := t); set (sub3 := s) end.
  constructor; simpl; try done.
  eexists (new ++ [_]). rewrite app_assoc, Hrec. split; [done|].
  rewrite fmap_app, Hids. split; [done|]. apply Forall_app_2; [done|]. apply Forall_singleton.
  assert (sub_agent sub3 = sub_agent sub ∧ sub_message sub3 = sub_message sub ∧
    sub_depends_on sub3 = sub_depends_on sub ∧ sub_id sub3 = id ∧
    sub_security sub3 = sub_security sub2 ∧ sub_agent sub2 = sub_agent sub1) as Hsub.
  { unfold sub3, sub2, sub1. by destruct sc. }
  destruct Hsub as (Hag & Hms & Hdp & Hi & Hse & Hag2).
  split_and!; try done.
  - constructor; unfold is_queued, journal; simpl; try done; try (by constructor).
    + lia.
    + by destruct (sub_depends_on sub2).
    + eapply security_stored; [exact Hsec|done|exact Hse|done].
  - unfold is_queued. simpl. by destruct (sub_depends_on sub2).
  - by exists sub1.
Qed.

Lemma submission_depth_Ok sc s d :
  submission_depth config sc s = Ok d →
  (0 < d ≤ max_depth config)%N ∧
  match sc with
  | Some p => ∃ q, find_record p (records s) = Some q ∧ checked_add32 (depth q) 1 = Some d ∧
      task_status (task q) = Running
  | None => checked_add32 (parent_depth config) 1 = Some d
  end.
Proof.
  unfold submission_depth. intros H. inv_ok. bools.
  match goal with H : checked_add32 _ _ = Some _ |- _ => pose proof H as [? _]%checked_add32_Some end.
  split; [lia|]. destruct sc as [p|]; inv_ok; bools; eauto.
Qed.

Lemma submit_inv sc observed s d now reqs ids s' :
  inv s → grows observed s → submission_depth config sc observed = Ok d →
  submit_apply config sc d now reqs s = Ok (ids, s') →
  inv s' ∧ grows s s' ∧
  ∃ new, records s' = records s ++ new ∧ ids = id_of <$> new ∧
    Forall (λ r, parent_id r = sc ∧ depth r = d ∧ is_queued r = true) new.
Proof.
  intros Hi Hg [Hd Hdep]%submission_depth_Ok H. unfold submit_apply in H.
  apply bind_Ok in H as ([] & Hmax%ensure_Ok & H). apply bind_Ok in H as ([] & _ & H).
  apply bind_Ok in H as ([ids1 s1] & Hfold & H). apply bind_Ok in H as ([] & Hval & H).
  apply bind_Ok in H as ([] & _ & H). apply Ok_inj in H as [= <- <-].
  assert (submitting sc d s ([], s)) as H0.
  { constructor; simpl; try done. exists []. by rewrite app_nil_r. }
  assert (submitting sc d s (ids1, s1) ∧
    length (records s1) = length (records s) + length reqs) as [Hs1 Hlen].
  { clear Hval. revert H0 Hfold.
    replace (length (records s)) with (length (records (([] : list string, s).2))) at 1 by done.
    generalize ([] : list string, s) as st. clear Hmax. induction reqs as [|sub reqs IH]; intros st Hst; simpl.
    - intros [= ->]. split; [done|]. simpl. lia.
    - destruct (submit_one _ _ _ _ _ _ _) as [st1|] eqn:H1; [|done]. intros Hf.
      edestruct IH as [? Hl]; [by eapply submit_one_submitting|exact Hf|]. split; [done|].
      rewrite Hl. destruct st as [i0 s0]. unfold submit_one in H1.
      apply bind_Ok in H1 as ([] & _ & H1). apply bind_Ok in H1 as ([] & _ & H1).
      apply bind_Ok in H1 as ([] & _ & H1). apply bind_Ok in H1 as (b & _ & H1).
      apply Ok_inj in H1. subst. simpl. rewrite length_app. simpl. lia. }
  destruct Hs1 as [(new & Hrec & Hids & Hnew) Hv Hrun Hb Hu]. simpl in *.
  assert (grows s s1) as Hg1 by (exists (records s), new; by split; [|reflexivity]).
  split_and!; [|done|exists new; split_and!; [done|done|]; eapply Forall_impl; [done|]; naive_solver].
  pose proof (inv_records _ _ _ Hi) as Hok. pose proof (inv_scopes _ _ _ Hi) as Hsc.
  constructor.
  - by rewrite Hv; apply (inv_version _ _ _ Hi).
  - by rewrite Hrun; apply (inv_run _ _ _ Hi).
  - by rewrite Hb; apply (inv_budget _ _ _ Hi).
  - pose proof (inv_length _ _ _ Hi). bools. unfold saturating_sub in *. lia.
  - done.
  - rewrite Hrec. apply Forall_app_2; [done|]. eapply Forall_impl; [exact Hnew|]. naive_solver.
  - rewrite Hrec at 2. apply Forall_app_2.
    + apply Forall_forall. intros r Hr. rewrite Forall_forall in Hsc.
      eapply (scope_ok_grows config s s1 r r Hg1); [done|by apply Hsc].
    + eapply Forall_impl; [exact Hnew|]. intros r (_ & Hp & Hdr & _ & _ & c & Hc).
      unfold scope_ok. rewrite Hp, Hdr. destruct sc as [p|]; [|done].
      destruct Hdep as (q0 & Hq0 & Hdq & _).
      eapply find_record_grows in Hq0 as (q1 & Hq1 & Hm1); [|exact Hg].
      exists q1. rewrite (mv_depth _ _ Hm1). split_and!; [|done|].
      * rewrite Hrec. by apply find_record_app.
      * apply security_Ok in Hc as (sb & Hreq & Hb').
        assert (restricts (security_baseline r) sb) as Hsb by (rewrite Hb'; auto with security).
        apply (requested_le _ _ _ _ _ _ Hreq) in Hsb as (_ & _ & H3 & _). by eapply H3.
  - rewrite Hu, Hrec, total_usage_app, (inv_total _ _ _ Hi).
    assert (total_usage new = default_usage) as ->; [|by rewrite usage_plus_0_r].
    clear -Hnew. induction Hnew as [|r l (_ & _ & _ & _ & Hu & _) _ IH]; simpl; [done|].
    by rewrite Hu, IH.
  - rewrite Hu. apply (inv_fits _ _ _ Hi).
Qed.
(** ** Dispatch *)

Context (debug_str : string → string).

Lemma insert_inv s i r r' :
  inv s → records s !! i = Some r → charges default_usage r r' →
  inv (set_records (<[i := r']> (records s)) s) ∧ grows s (set_records (<[i := r']> (records s)) s).
Proof.
  intros Hi Hr (Hm & Hok' & Hu). pose proof (inv_records _ _ _ Hi) as Hok.
  apply list_elem_of_split_length in Hr as (pre & post & Heq & ->).
  rewrite Heq, insert_app_r_alt, Nat.sub_diag by lia. simpl.
  assert (pre ++ <[0:=r']> (r :: post) = pre ++ r' :: post) as Hins by done.
  apply inv_moves; simpl; try done.
  - rewrite Heq. apply Forall2_app; [reflexivity|]. by constructor; [|reflexivity].
  - rewrite Heq, Forall_app, Forall_cons in Hok. destruct Hok as (? & ? & ?).
    apply Forall_app_2; [done|]. by constructor.
  - rewrite (inv_total _ _ _ Hi), Heq, !total_usage_app. simpl. by rewrite Hu, usage_plus_0_r.
  - apply (inv_fits _ _ _ Hi).
Qed.

(** What [schedule_record] does to its record. *)
Lemma schedule_record_inv now tok over s i r s' sel :
  inv s → records s !! i = Some r → schedule_record debug_str now tok over s i r = Ok (s', sel) →
  inv s' ∧ grows s s'.
Proof.
  intros Hi Hr. unfold schedule_record. destruct (is_queued r) eqn:Hq; simpl.
  2: { intros [= <- <-]. by split; [|reflexivity]. }
  assert (rec_ok r) as Hok by (eapply Forall_lookup_1; [apply (inv_records _ _ _ Hi)|done]).
  destruct (tok _).
  { intros H. inv_ok. eapply apply_outcome_inv; [exact Hi| |eassumption]; done. }
  destruct over.
  { intros H. inv_ok. eapply apply_outcome_inv; [exact Hi| |eassumption]; done. }
  intros H. apply bind_Ok in H as (dq & Hd & H). case_match.
  { inv_ok. eapply apply_outcome_inv; [exact Hi| |eassumption]; done. }
  inv_ok. eapply insert_inv; [done..|]. by apply start_record_charges.
Qed.

Lemma schedule_loop_inv now tok over s indices sel s' :
  inv s → schedule_loop debug_str now tok over s indices = Ok (sel, s') → inv s' ∧ grows s s'.
Proof.
  revert s. induction indices as [|i indices IH]; intros s Hi; simpl.
  { intros [= <- <-]. by split; [|reflexivity]. }
  intros H. apply bind_Ok in H as (r & Hr%ok_or_Ok & H). apply bind_Ok in H as ([s1 sel1] & H1 & H).
  destruct (schedule_record_inv _ _ _ _ _ _ _ _ Hi Hr H1) as [Hi1 Hg1].
  destruct sel1; [inv_ok; done|]. destruct (IH s1 Hi1 H) as [? ?]. split; [done|by etrans].
Qed.

Lemma preserves_schedule now tok : preserves (schedule_apply debug_str now tok).
Proof. intros s v s' Hi H. by eapply schedule_loop_inv. Qed.

(** A dependency, found. *)
Lemma dependency_found s r d :
  inv s → r ∈ records s → d ∈ deps_of r →
  ∃ q, find_record d (records s) = Some q ∧ q ∈ records s ∧ id_of q = d.
Proof.
  intros Hi Hr Hd. pose proof (inv_graph _ _ _ Hi) as Hg%validate_graph_Ok.
  pose proof (graph_closed _ Hg r d Hr Hd) as (q & -> & Hq)%list_elem_of_fmap.
  exists q. split_and!; [|done|done]. apply find_record_unique; [|done|done].
  by eapply inv_nodup.
Qed.

Lemma dependencies_found s r :
  inv s → r ∈ records s →
  ∃ dq, mapR (λ d, ok_or (find_record d (records s)) (mkError Internal "unwrap")) (deps_of r)
    = Ok dq ∧ Forall2 (λ d q, find_record d (records s) = Some q) (deps_of r) dq.
Proof.
  intros Hi Hr.
  assert (∀ ds, ds ⊆ deps_of r → ∃ dq,
    mapR (λ d, ok_or (find_record d (records s)) (mkError Internal "unwrap")) ds = Ok dq ∧
    Forall2 (λ d q, find_record d (records s) = Some q) ds dq) as Hl; [|by apply Hl].
  induction ds as [|d ds IH]; intros Hsub; simpl; [by exists []|].
  destruct (dependency_found s r d) as (q & Hq & _); [done|done|set_solver|].
  destruct IH as (dq & -> & Hf); [set_solver|]. rewrite Hq. simpl.
  exists (q :: dq). split; [done|by constructor].
Qed.

(** The conditions under which a record is started. *)
Record startable (tok : string → bool) (over : bool) (s : Ckpt) (r : Rec) : Prop := {
  start_queued : is_queued r = true;
  start_live : tok (id_of r) = false;
  start_budget : over = false;
  start_deps d : d ∈ deps_of r → ∃ q, find_record d (records s) = Some q ∧
    is_terminal (task_status (task q)) = true ∧
    (dependency_policy (submission r) = AllSuccess → task_status (task q) = Completed);
}.

Lemma schedule_record_started now tok over s i r s' r' :
  inv s → records s !! i = Some r →
  schedule_record debug_str now tok over s i r = Ok (s', Some r') →
  startable tok over s r ∧ r' = start_record [] r ∧ s' = set_records (<[i := r']> (records s)) s.
Proof.
  intros Hi Hr. unfold schedule_record. destruct (is_queued r) eqn:Hq; simpl; [|done].
  destruct (tok _) eqn:Htok; [intros H; inv_ok; done|].
  destruct over; [intros H; inv_ok; done|].
  destruct (dependencies_found s r Hi) as (dq & Hdq & Hf); [by eapply list_elem_of_lookup_2|].
  unfold deps_of in Hdq. rewrite Hdq. simpl. case_match eqn:Hfail; [intros H; inv_ok; done|].
  destruct (_ <$> filter _ dq) as [|w ws] eqn:Hw; [|done]. intros [= <- <-].
  split_and!; [|done|done]. constructor; try done.
  intros d Hd. apply list_elem_of_lookup in Hd as [j Hj].
  destruct (Forall2_lookup_l _ _ _ _ _ Hf Hj) as (q & Hjq & Hq').
  exists q. split; [done|]. apply list_elem_of_lookup_2 in Hjq.
  assert (is_terminal (task_status (task q)) = true) as Ht.
  { destruct (is_terminal _) eqn:Ht; [done|]. apply fmap_nil_inv in Hw.
    assert (q ∈ filter (λ d, is_terminal (task_status (task d)) = false) dq) as Hin
      by by apply list_elem_of_filter.
    rewrite Hw in Hin. set_solver. }
  split; [done|]. intros Hp. rewrite bool_decide_true in Hfail by done. simpl in Hfail. bools.
  destruct (decide (task_status (task q) = Completed)) as [|Hne]; [done|].
  assert (q ∈ filter (λ d, is_terminal (task_status (task d)) = true ∧
    task_status (task d) ≠ Completed) dq) as Hin by by apply list_elem_of_filter.
  match goal with H : filter _ _ = [] |- _ => rewrite H in Hin end. set_solver.
Qed.

(** ** Progress of dispatch *)

Definition queued (l : list Rec) : nat := length (filter (λ r, is_queued r = true) l).

Lemma queued_insert l i r r' :
  l !! i = Some r → (is_queued r' = true → is_queued r = true) →
  queued (<[i := r']> l) ≤ queued l ∧
  (is_queued r = true → is_queued r' = false → queued (<[i := r']> l) < queued l).
Proof.
  intros Hr Himp. apply list_elem_of_split_length in Hr as (pre & post & -> & ->).
  rewrite insert_app_r_alt, Nat.sub_diag by lia. simpl.
  unfold queued. rewrite !filter_app, !length_app, !filter_cons.
  destruct (is_queued r) eqn:Hq, (is_queued r') eqn:Hq'; repeat case_decide; simpl;
    try done; split; try lia; naive_solver lia.
Qed.

Lemma total_usage_in l r : r ∈ l → usage_le (task_usage (task r)) (total_usage l).
Proof.
  induction l as [|x l IH]; [set_solver|]. intros [->|Hin]%elem_of_cons; simpl.
  - apply usage_le_plus.
  - etrans; [by apply IH|]. rewrite usage_plus_comm. apply usage_le_plus.
Qed.

Lemma update_first_at (l : list Rec) i r r' (f : Rec → Result Rec) e :
  NoDup (id_of <$> l) → l !! i = Some r → f r = Ok r' →
  update_first (λ x, String.eqb (id_of x) (id_of r)) f e l = Ok (<[i := r']> l).
Proof.
  intros Hnd Hr Hf. apply update_first_Ok.
  apply list_elem_of_split_length in Hr as (pre & post & -> & ->).
  exists pre, r, r', post. split_and!; [done| | |apply String.eqb_refl|done].
  - by rewrite insert_app_r_alt, Nat.sub_diag by lia.
  - apply Forall_forall. intros x Hx. apply String.eqb_neq. intros Heq.
    rewrite fmap_app, fmap_cons in Hnd. apply NoDup_app in Hnd as (_ & Hdisj & _).
    apply (Hdisj (id_of x)); [by apply list_elem_of_fmap_2|]. rewrite Heq. by left.
Qed.

Lemma apply_outcome_total now s i r outcome :
  inv s → records s !! i = Some r → is_queued r = true →
  outcome_usage outcome = default_usage → is_terminal (outcome_status outcome) = true →
  ∃ s' r', apply_outcome now (id_of r) outcome s = Ok s' ∧
    records s' = <[i := r']> (records s) ∧ is_queued r' = false ∧ revision s' = revision s.
Proof.
  intros Hi Hr Hq Hu Ho. pose proof (list_elem_of_lookup_2 _ _ _ Hr) as Hin.
  pose proof (inv_nodup _ _ _ Hi) as Hnd. pose proof (inv_fits _ _ _ Hi) as Hfit.
  assert (∀ u, remaining_delta u default_usage = default_usage) as Hz.
  { intros u. unfold remaining_delta, default_usage, saturating_sub. by f_equal. }
  assert (∀ u, fits u → add u default_usage = Ok u) as Ha.
  { intros u Hf. apply add_Ok. by rewrite usage_plus_0_r. }
  assert (fits (task_usage (task r))) as Hfr.
  { eapply fits_le; [by apply total_usage_in|]. by rewrite <-(inv_total _ _ _ Hi). }
  assert (∃ r', outcome_record now outcome r = Ok r' ∧ is_queued r' = false) as (r' & Hr' & Hq').
  { unfold outcome_record, charge_task. rewrite Hu, Hz, Ha by done. simpl.
    eexists. split; [done|]. set (st := if _ && _ then Reconciling else outcome_status outcome).
    assert (is_terminal (task_status (task r)) = false) as ->.
    { unfold is_queued in Hq. by destruct (task_status (task r)). }
    simpl. unfold st, is_queued.
    repeat case_match; simpl in *; try done; by destruct (outcome_status outcome). }
  unfold apply_outcome, record_delta, get_record.
  rewrite (find_record_unique _ _ r) by done. simpl. rewrite Hu, Hz.
  unfold record_mut. pose proof (update_first_at _ _ _ _ _ (invalid ("unknown child task " +:+ id_of r))
    Hnd Hr Hr') as Hup. unfold id_of in Hup at 1. rewrite Hup. simpl.
  unfold add_usage. simpl. rewrite Ha by done. simpl.
  eexists _, r'. split_and!; done.
Qed.

(** A record that the dispatcher must move. *)
Definition due (over : bool) (s : Ckpt) (r : Rec) : Prop :=
  is_queued r = true ∧ (over = true ∨ self_ready s r = true).

Lemma schedule_record_total now tok over s i r :
  inv s → records s !! i = Some r →
  ∃ s' sel r', schedule_record debug_str now tok over s i r = Ok (s', sel) ∧
    records s' = <[i := r']> (records s) ∧ (is_queued r' = true → is_queued r = true) ∧
    (due over s r → is_queued r' = false) ∧ revision s' = revision s.
Proof.
  intros Hi Hr. unfold schedule_record. destruct (is_queued r) eqn:Hq; simpl.
  2: { exists s, None, r. split_and!; [done|by rewrite list_insert_id|congruence| |done].
       intros [? _]. congruence. }
  assert (∀ o : ChildOutcome, outcome_usage o = default_usage →
    is_terminal (outcome_status o) = true → ∃ s' sel r',
    (apply_outcome now (task_id (task r)) o s ≫= λ st : Ckpt, Ok (st, None)) = Ok (s', sel : option Rec) ∧
    records s' = <[i := r']> (records s) ∧ (is_queued r' = true → true = true) ∧
    (due over s r → is_queued r' = false) ∧ revision s' = revision s) as Hout.
  { intros o Hu Ht. destruct (apply_outcome_total now s i r o) as (s' & r' & Ha & ? & ? & ?); [done..|].
    unfold id_of in Ha. rewrite Ha. by eexists _, _, r'. }
  destruct (tok _); [by apply Hout|].
  destruct over eqn:Hover; [by apply Hout|].
  destruct (dependencies_found s r Hi) as (dq & Hdq & Hf); [by eapply list_elem_of_lookup_2|].
  unfold deps_of in Hdq. rewrite Hdq. simpl.
  destruct (bool_decide _ && _) eqn:Hfail; [by apply Hout|].
  eexists _, _, _. split_and!; [done|done|done| |done].
  intros [_ [?|Hready]]; [done|]. destruct (_ <$> filter _ dq) as [|w ws] eqn:Hw; [done|exfalso].
  assert (∃ q, q ∈ dq ∧ is_terminal (task_status (task q)) = false) as (q & Hq1 & Hq2).
  { assert (w ∈ w :: ws) as Hin by left. rewrite <-Hw in Hin.
    apply list_elem_of_fmap in Hin as (q & _ & [? ?]%list_elem_of_filter). by exists q. }
  assert (∀ d q, find_record d (records s) = Some q →
    terminal_dep (records s) d = true → is_terminal (task_status (task q)) = true) as Huniq.
  { intros d x Hx (y & Hy%list_elem_of_In & Hyd)%existsb_exists. bools.
    rewrite (find_record_unique _ _ y) in Hx; [by simplify_eq|by eapply inv_nodup|done|done]. }
  unfold self_ready in Hready. apply orb_true_iff in Hready as [Hall|Hany].
  - apply list_elem_of_lookup in Hq1 as [j Hj].
    destruct (Forall2_lookup_r _ _ _ _ _ Hf Hj) as (d & Hjd & Hd).
    rewrite forallb_forall in Hall.
    assert (terminal_dep (records s) d = true) as Ht.
    { apply Hall, list_elem_of_In. by eapply list_elem_of_lookup_2. }
    specialize (Huniq _ _ Hd Ht). congruence.
  - bools. apply existsb_exists in H0 as (d & Hd%list_elem_of_In & Hfd).
    unfold failed_dep in Hfd. apply existsb_exists in Hfd as (y & Hy%list_elem_of_In & Hyd). bools.
    apply list_elem_of_lookup in Hd as [j Hj].
    destruct (Forall2_lookup_l _ _ _ _ _ Hf Hj) as (x & Hjx & Hx).
    rewrite (find_record_unique _ _ y) in Hx; [|by eapply inv_nodup|done|done].
    simplify_eq. rewrite bool_decide_true in Hfail by done. simpl in Hfail. bools.
    assert (x ∈ filter (λ d, is_terminal (task_status (task d)) = true ∧
      task_status (task d) ≠ Completed) dq) as Hin.
    { apply list_elem_of_filter. split; [done|]. by eapply list_elem_of_lookup_2. }
    match goal with H : filter _ _ = [] |- _ => rewrite H in Hin end. set_solver.
Qed.
Lemma schedule_loop_started now tok over s indices r' s' :
  inv s → schedule_loop debug_str now tok over s indices = Ok (Some r', s') →
  ∃ s1 i r, inv s1 ∧ grows s s1 ∧ length (records s1) = length (records s) ∧ records s1 !! i = Some r ∧ startable tok over s1 r ∧
    r' = start_record [] r ∧ s' = set_records (<[i := r']> (records s1)) s1.
Proof.
  revert s. induction indices as [|i indices IH]; intros s Hi; simpl; [done|].
  intros H. apply bind_Ok in H as (r & Hr%ok_or_Ok & H). apply bind_Ok in H as ([s1 sel1] & H1 & H).
  destruct sel1 as [r1|].
  - inv_ok. simplify_eq. exists s, i, r.
    destruct (schedule_record_started _ _ _ _ _ _ _ _ Hi Hr H1) as (? & ? & ?).
    split_and!; done || reflexivity.
  - destruct (schedule_record_inv _ _ _ _ _ _ _ _ Hi Hr H1) as [Hi1 Hg1].
    destruct (schedule_record_total now tok over s i r Hi Hr) as (s1' & sel & r1 & H1' & Hrec & _).
    rewrite H1 in H1'. simplify_eq.
    destruct (IH s1' Hi1 H) as (s2 & j & r2 & ? & ? & Hlen & ? & ? & ? & ?).
    exists s2, j, r2. split_and!; try done; [by etrans|]. by rewrite Hlen, Hrec, length_insert.
Qed.
Lemma terminal_dep_grows s s' d :
  inv s → inv s' → grows s s' → terminal_dep (records s) d = true → terminal_dep (records s') d = true.
Proof.
  intros Hi Hi' Hg (y & Hy%list_elem_of_In & Hd)%existsb_exists. bools.
  destruct (grows_terminal s s' d y) as (y' & Hy' & Ht); [done| |done|].
  { apply find_record_unique; [by eapply inv_nodup|done|done]. }
  apply existsb_exists. exists y'. apply find_record_Some in Hy' as [? Hid].
  split; [by apply list_elem_of_In|]. unfold id_of in Hid. by rewrite Hid, String.eqb_refl.
Qed.

Lemma failed_dep_grows s s' d :
  inv s → inv s' → grows s s' → failed_dep (records s) d = true → failed_dep (records s') d = true.
Proof.
  intros Hi Hi' Hg (y & Hy%list_elem_of_In & Hd)%existsb_exists. bools.
  destruct (find_record_grows d s s' y) as (y' & Hy' & Hm); [done| |].
  { apply find_record_unique; [by eapply inv_nodup|done|done]. }
  destruct (mv_terminal _ _ Hm) as (Hst & _); [done|].
  apply existsb_exists. exists y'. apply find_record_Some in Hy' as [? Hid].
  split; [by apply list_elem_of_In|]. unfold id_of in Hid. rewrite Hid, String.eqb_refl, Hst. simpl.
  apply andb_true_iff. split; [done|]. by apply negb_true_iff, bool_decide_eq_false.
Qed.

Lemma due_grows over s s' r :
  inv s → inv s' → grows s s' → due over s r → due over s' r.
Proof.
  intros Hi Hi' Hg [Hq [Hov|Hr]]; (split; [done|]); [by left|right].
  unfold self_ready in *. apply orb_true_iff in Hr as [Hr|Hr]; apply orb_true_iff; [left|right].
  - rewrite forallb_forall in *. intros d Hd. by eapply terminal_dep_grows, Hr.
  - bools. apply andb_true_iff. split; [by apply bool_decide_eq_true|].
    apply existsb_exists in H0 as (d & Hd & Hf). apply existsb_exists. exists d.
    split; [done|]. by apply (failed_dep_grows s s').
Qed.

Lemma schedule_loop_total now tok over s k n :
  inv s → k + n = length (records s) →
  ∃ sel s', schedule_loop debug_str now tok over s (seq k n) = Ok (sel, s') ∧
    queued (records s') ≤ queued (records s) ∧
    ((∃ i r, k ≤ i ∧ records s !! i = Some r ∧ due over s r) →
     queued (records s') < queued (records s)) ∧ revision s' = revision s.
Proof.
  revert s k. induction n as [|n IH]; intros s k Hi Hlen; simpl.
  { exists None, s. split_and!; [done|lia| |done]. intros (i & r & Hk & Hr%lookup_lt_Some & _). lia. }
  destruct (lookup_lt_is_Some_2 (records s) k) as [r Hr]; [lia|]. rewrite Hr. simpl.
  destruct (schedule_record_total now tok over s k r Hi Hr) as (s1 & sel1 & r1 & H1 & Hrec & Himp & Hdue & Hrev).
  destruct (schedule_record_inv _ _ _ _ _ _ _ _ Hi Hr H1) as [Hi1 Hg1].
  destruct (queued_insert _ _ _ r1 Hr Himp) as [Hle Hlt]. rewrite <-Hrec in Hle, Hlt.
  rewrite H1. simpl. destruct sel1 as [rs|].
  - exists (Some rs), s1. split_and!; [done|done| |done]. intros _.
    destruct (schedule_record_started _ _ _ _ _ _ _ _ Hi Hr H1) as (Hst & -> & Hs1).
    apply Hlt; [apply Hst|].
    assert (records s1 !! k = Some (start_record [] r)) as Hk1.
    { rewrite Hs1. simpl. apply list_lookup_insert_eq. by eapply lookup_lt_Some. }
    rewrite Hrec, list_lookup_insert_eq in Hk1 by (by eapply lookup_lt_Some). by simplify_eq.
  - destruct (IH s1 (S k) Hi1) as (sel & s' & -> & Hle2 & Hlt2 & Hrev2).
    { rewrite Hrec, length_insert. lia. }
    exists sel, s'. split_and!; [done|lia| |congruence]. intros (i & x & Hk & Hx & Hdx).
    destruct (decide (i = k)) as [->|Hne].
    + simplify_eq. pose proof (Hdue Hdx). destruct Hdx as [Hq _]. specialize (Hlt Hq ltac:(done)). lia.
    + assert (queued (records s') < queued (records s1)); [|lia].
      apply Hlt2. exists i, x. split_and!; [lia| |by apply (due_grows _ s s1)].
      rewrite Hrec. by rewrite list_lookup_insert_ne.
Qed.

Lemma schedule_apply_total now tok s :
  inv s → ∃ sel s', schedule_apply debug_str now tok s = Ok (sel, s') ∧
    (has_work s = true → queued (records s') < queued (records s)) ∧ revision s' = revision s.
Proof.
  intros Hi. destruct (schedule_loop_total now tok (exhausted (budget s) (usage s)) s 0
    (length (records s)) Hi) as (sel & s' & Hs & _ & Hlt & Hrev); [done|].
  exists sel, s'. split_and!; [done| |done]. intros (r & Hr%list_elem_of_In & Hq)%existsb_exists. bools.
  apply Hlt. apply list_elem_of_lookup in Hr as [i Hr]. exists i, r.
  split_and!; [lia|done|split; [done|]]. by apply orb_true_iff.
Qed.

(** ** Shutdown and restore *)

Lemma shutdown_inv now s :
  inv s → inv (set_records (shutdown_record now <$> records s) s) ∧
    grows s (set_records (shutdown_record now <$> records s) s).
Proof. intros Hi. apply map_inv; [done|]. intros r _ Hr. by apply shutdown_record_charges. Qed.

Lemma set_revision_inv s rev : inv s → inv (set_revision rev s).
Proof. intros []. by constructor. Qed.
Lemma set_revision_grows s s' rev : grows s s' → grows s (set_revision rev s').
Proof. done. Qed.

End run.
