(* ===== verification/SubagentProps.v ===== *)
(** * SubagentProps: what the child scheduler guarantees

    Runs of an owner: calls through any handles and controls, in any order,
    each with its own environment and an earlier snapshot for the checks it
    makes outside its transaction, and restarts.  The theorems hold of every
    checkpoint such a run commits. *)

From S2P Require Import Prelude Text Durable Core SecurityPolicy.
From S2P Require Import Subagent SubagentGraph SubagentInv SubagentRun.

Section props.
Context {Value : Type} (run_id : string) (config : SchedulerConfig)
  (debug_str : string → string) (display : Error → string).
Notation Rec := (CheckpointRecord Value).
Notation Ckpt := (SchedulerCheckpoint Value).
Notation Sub := (Submission Value).
Notation Owner := (Owner Value).
Notation Env := (Env Value).
Notation rec_ok := (rec_ok run_id config).
Notation inv := (inv run_id config).
Implicit Types (r : Rec) (l : list Rec) (s : Ckpt) (o : Owner).

(** ** Restore *)

Lemma check_messages_Ok (l : list SteeringMessage) (ids : gset string) :
  Forall message_ok l → NoDup (msg_id <$> l) → (∀ m, m ∈ l → msg_id m ∉ ids) →
  foldM check_message ids l = Ok (list_to_set (msg_id <$> l) ∪ ids).
Proof.
  revert ids. induction l as [|m l IH]; intros ids Hok Hnd Hids; csimpl.
  { f_equal. set_solver. }
  apply Forall_cons in Hok as [[Hid Htx] Hok]. rewrite fmap_cons, NoDup_cons in Hnd.
  destruct Hnd as [Hni Hnd]. unfold check_message at 1.
  apply String.eqb_neq in Hid, Htx. rewrite Hid, Htx. simpl.
  rewrite bool_decide_false by (apply Hids; set_solver). rewrite IH; [f_equal; set_solver|done|done|].
  intros m' Hm' [Heq|?]%elem_of_union; [|set_solver].
  apply elem_of_singleton in Heq. apply Hni. rewrite <-Heq. by apply list_elem_of_fmap_2.
Qed.

Lemma check_consistent_Ok r : rec_ok r → check_consistent config r = true.
Proof.
  intros Hr. unfold check_consistent. pose proof (ok_depth _ _ _ Hr) as [Hd1 Hd2].
  pose proof (ok_turns _ _ _ Hr).
  rewrite (ok_id _ _ _ Hr), (ok_agent _ _ _ Hr), (ok_message _ _ _ Hr), (ok_deps _ _ _ Hr),
    (ok_tools _ _ _ Hr). unfold id_of, deps_of.
  rewrite !String.eqb_refl, !bool_decide_true by done. simpl.
  rewrite (proj2 (N.eqb_neq _ _)), (proj2 (N.ltb_ge _ _)), (proj2 (N.ltb_ge _ _)) by lia. simpl.
  destruct (result_delivered r) eqn:Hrd; simpl; [|done].
  by rewrite (ok_delivered _ _ _ Hr Hrd).
Qed.

Lemma restore_record_Ok total done r :
  rec_ok r → fits (usage_plus total (task_usage (task r))) →
  restore_record config run_id (total, done) r =
  Ok (usage_plus total (task_usage (task r)), done ++ [restored r]).
Proof.
  intros Hr Hfit. unfold restore_record. rewrite check_consistent_Ok by done. simpl.
  assert (negb (bool_decide (task_status (task r) = Running)
    && negb (bool_decide (dispatch r = Started))) = true) as ->.
  { case_bool_decide as Hst; [|done]. by rewrite (ok_running _ _ _ Hr Hst). }
  assert (negb (is_queued r && negb (bool_decide (dispatch r = Never))
    && negb (bool_decide (is_Some (durable_checkpoint r)))) = true) as ->.
  { destruct (is_queued r) eqn:Hq; [|done]. destruct (ok_queued _ _ _ Hr Hq) as [->|?]; [done|].
    rewrite (bool_decide_true (is_Some _)) by done. by rewrite andb_false_r. }
  simpl.
  assert (is_none_or (durable_checkpoint r) (λ child,
    negb (negb (String.eqb (runner_run_id child) (run_id +:+ "/" +:+ task_id (task r)))
      || negb (runner_schema_version child =? 1)%N
      || negb (bool_decide (is_Some (runtime child)))
      || negb (bool_decide (dispatch r = Started)))) = true) as ->.
  { destruct (durable_checkpoint r) as [c|] eqn:Hc; simpl; [|done].
    destruct (ok_continuation _ _ _ Hr c Hc) as (-> & -> & ? & ->). unfold id_of.
    rewrite String.eqb_refl, bool_decide_true by done. done. }
  simpl. rewrite (ok_security _ _ _ Hr). simpl.
  rewrite (proj2 (allows_resume_under_spec _ _)) by reflexivity. simpl.
  rewrite check_messages_Ok; [|apply Hr|apply Hr|set_solver]. simpl.
  rewrite (right_id_L ∅ (∪)), size_list_to_set, length_fmap, (ok_received _ _ _ Hr)
    by apply Hr. rewrite N.eqb_refl. simpl.
  assert (negb (bool_decide (dispatch r = Never) &&
    (negb (bool_decide (in_flight_messages r = []))
     || negb (bool_decide (acknowledged_messages r = [])))) = true) as ->.
  { case_bool_decide as Hn; [|done]. by destruct (ok_undispatched _ _ _ Hr Hn) as [-> ->]. }
  simpl. assert (add total (task_usage (task r)) = Ok (usage_plus total (task_usage (task r)))) as ->
    by by apply add_Ok.
  done.
Qed.

Lemma restore_records_Ok l total done :
  Forall rec_ok l → fits (usage_plus total (total_usage l)) →
  foldM (restore_record config run_id) (total, done) l =
  Ok (usage_plus total (total_usage l), done ++ (restored <$> l)).
Proof.
  revert total done. induction l as [|r l IH]; intros total don Hok Hfit; cbn [foldM].
  { csimpl. by rewrite usage_plus_0_r, app_nil_r. }
  simpl in Hfit. apply Forall_cons in Hok as [Hr Hok]. rewrite usage_plus_assoc in Hfit.
  rewrite restore_record_Ok; [|done|eapply fits_le, Hfit; apply usage_le_plus].
  rewrite IH by done. csimpl. by rewrite usage_plus_assoc, <-app_assoc.
Qed.

Lemma limits_refl b : limits_allow_resume_under b b = true.
Proof.
  unfold limits_allow_resume_under. rewrite !(proj2 (narrower_limit_spec _ _)) by apply limit_le_refl.
  done.
Qed.

Lemma restore_state_Ok ctx s :
  inv s → restore_state config ctx s =
    Ok (set_budget (config_budget config) (set_records (restored <$> records s) s)).
Proof.
  intros Hi. unfold restore_state. rewrite (inv_budget _ _ _ Hi), limits_refl.
  rewrite (proj2 (N.ltb_ge _ _)) by apply (inv_length _ _ _ Hi). simpl.
  rewrite (inv_graph _ _ _ Hi). simpl.
  assert (∀ l, Forall (scope_ok config (records s)) l →
    foldM (λ (_ : unit) r, check_scope config (records s) r) tt l = Ok tt) as ->.
  { induction l as [|r l IH]; cbn [foldM]; [done|]. intros [Hr Hsc]%Forall_cons.
    assert (check_scope config (records s) r = Ok tt) as ->; [|by apply IH].
    unfold check_scope, scope_ok in *. destruct (parent_id r) as [p|].
    - destruct Hr as (q & -> & Hd & Hb). simpl. rewrite bool_decide_true by done.
      by rewrite (proj2 (allows_resume_under_spec _ _)).
    - by rewrite bool_decide_true. }
  2: { apply (inv_scopes _ _ _ Hi). }
  simpl. rewrite (inv_run _ _ _ Hi), restore_records_Ok.
  - simpl. rewrite usage_plus_0_l, bool_decide_true by (symmetry; apply (inv_total _ _ _ Hi)). done.
  - apply (inv_records _ _ _ Hi).
  - rewrite usage_plus_0_l, <-(inv_total _ _ _ Hi). apply (inv_fits _ _ _ Hi).
Qed.

Lemma restore_state_inv ctx s s' :
  inv s → restore_state config ctx s = Ok s' → inv s' ∧ grows s s'.
Proof.
  intros Hi. rewrite restore_state_Ok by done. intros [= <-].
  destruct (map_inv run_id config restored s Hi) as [Hi' Hg].
  { intros r _ Hr. by apply restored_charges. }
  split; [|done]. destruct Hi'. by constructor.
Qed.
(** ** Calls and runs *)

(** The mutating calls: through a handle with its scope, or by a running
    child's control. *)
Inductive Call :=
| CallSubmit (sc : option string) (requests : list Sub)
| CallCollect (sc : option string) (ids : list string)
| CallSteer (sc : option string) (id message_id text : string)
| CallCancel (sc : option string) (id : string)
| CallResumeQueued (sc : option string) (id : string)
| CallResumeCheckpoint (sc : option string) (id : string)
| CallReconcile (sc : option string) (id : string) (outcome : ChildOutcome)
| CallPersist (child : string) (checkpoint : RunnerCheckpoint) (applied : list string)
| CallFinish (child : string)
| CallTake (child : string)
| CallAcknowledge (child : string) (ids : list string)
| CallReserve (child : string) (delta : BudgetUsage)
| CallCharge (child : string) (delta : BudgetUsage)
| CallToolStart (child : string) (active : ActiveTools) (call_id tool summary : string)
| CallToolEnd (child : string) (active : ActiveTools) (call_id tool summary : string)
    (is_error : bool) (millis : N)
| CallActivity (child : string) (activity : Activity)
| CallSchedule
| CallJoin (id : string) (e : Execution) (elapsed : N)
| CallShutdown.

(** The owner after a call, and whether it succeeded; [observed] is the
    snapshot the call read before its transaction. *)
Definition outcome_of {A} (p : Result A * Owner) : bool * Owner := (is_ok p.1, p.2).
Definition exec (env : Env) (observed : Ckpt) (c : Call) (o : Owner) : bool * Owner :=
  match c with
  | CallSubmit sc requests => outcome_of (submit_dag config sc env observed requests o)
  | CallCollect sc ids => outcome_of (collect_ids sc env observed ids o)
  | CallSteer sc id mid text => outcome_of (steer sc env observed id mid text o)
  | CallCancel sc id => outcome_of (cancel sc env observed id o)
  | CallResumeQueued sc id => outcome_of (resume_queued config sc env observed id o)
  | CallResumeCheckpoint sc id => outcome_of (resume_checkpoint config sc env observed id o)
  | CallReconcile sc id outcome => outcome_of (reconcile sc env observed id outcome o)
  | CallPersist child c applied => outcome_of (persist_checkpoint run_id child env c applied o)
  | CallFinish child => outcome_of (finish_or_take_messages child env o)
  | CallTake child => outcome_of (take_messages child env o)
  | CallAcknowledge child ids => outcome_of (acknowledge_messages child env ids o)
  | CallReserve child d => outcome_of (reserve child env d o)
  | CallCharge child d => outcome_of (charge child env d o)
  | CallToolStart child a cid t sm => outcome_of (record_tool_start child env a cid t sm o)
  | CallToolEnd child a cid t sm e ms => outcome_of (record_tool_end child env a cid t sm e ms o)
  | CallActivity child a => outcome_of (set_activity child env a o)
  | CallSchedule => outcome_of (schedule_one debug_str env o)
  | CallJoin id e elapsed => outcome_of (join_child env id (execution_outcome display e) elapsed o)
  | CallShutdown => outcome_of (shutdown env o)
  end.

(** [reach h o]: the owner [o] after some run; [h] holds every checkpoint
    committed so far, newest first.  A restart builds a new owner and restores
    the last checkpoint. *)
Inductive reach : list Ckpt → Owner → Prop :=
| reach_new env o : new run_id config env = Ok o → reach [state o] o
| reach_call h o env observed c ok o' :
    reach h o → observed ∈ h → exec env observed c o = (ok, o') →
    reach (state o' :: h) o'
| reach_restart h o env0 env o0 o' :
    reach h o → new run_id config env0 = Ok o0 →
    restore run_id config None env run_id (state o) o0 = (Ok tt, o') →
    reach (state o' :: h) o'.

(** What a transaction can do to the committed checkpoint. *)
Lemma transact_cases {A} (env : Env) (apply : Ckpt → Result (A * Ckpt)) o :
  ((∃ e, (transact env apply o).1 = Err e) ∧ state (transact env apply o).2 = state o) ∨
  (∃ v s' rev, apply (state o) = Ok (v, s') ∧
     state (transact env apply o).2 = set_revision rev s' ∧
     (transact env apply o).1 = Ok v).
Proof.
  unfold transact. destruct (active env o); [|by left; eauto].
  destruct (apply (state o)) as [[v next]|] eqn:Ha; [|by left; eauto].
  destruct (checked_add _ _) as [rev|]; [|by left; eauto].
  destruct (persist env) as [w|]; [destruct (w _); [by left; eauto|]|]; right; by eexists _, _, _.
Qed.

Lemma transact_inv {A} (env : Env) (apply : Ckpt → Result (A * Ckpt)) o :
  inv (state o) → preserves run_id config apply →
  inv (state (transact env apply o).2) ∧ grows (state o) (state (transact env apply o).2).
Proof.
  intros Hi Hp. destruct (transact_cases env apply o) as [[_ ->]|(v & s' & rev & Ha & -> & _)].
  - by split.
  - destruct (Hp _ _ _ Hi Ha). split; [by apply set_revision_inv|done].
Qed.

(** The checks before a transaction leave the owner alone. *)
Lemma lift_state {A R} (m : Result A) (f : A → SE Owner Error R) o :
  (∀ a, m = Ok a → inv (state (f a o).2) ∧ grows (state o) (state (f a o).2)) →
  inv (state o) →
  inv (state ((lift m ≫= f) o).2) ∧ grows (state o) (state ((lift m ≫= f) o).2).
Proof.
  intros Hf Hi. unfold lift, mbind, SE_bind. destruct m; [by apply Hf|by split].
Qed.

Lemma bind_state {A R} (m : SE Owner Error A) (f : A → SE Owner Error R) o :
  (∀ a o1, (f a o1).2 = o1) → state ((m ≫= f) o).2 = state (m o).2.
Proof. intros Hf. unfold mbind, SE_bind. destruct (m o) as [[a|e] o1]; simpl; by rewrite ?Hf. Qed.

Lemma resume_queued_charges s sc id observed tok r r' :
  inv s → grows observed s → check_visible sc id observed = Ok tt →
  r ∈ records s → id_of r = id → rec_ok r →
  resume_queued_record config sc (records s) tok r = Ok r' →
  charges run_id config default_usage r r'.
Proof.
  intros Hi Hg Hv Hin Hid Hr. unfold resume_queued_record.
  case_bool_decide as Hst; simpl; [|done]. case_bool_decide as Hd; simpl; [|done].
  destruct tok; [done|]. apply requeue_charges; try done.
  - eapply check_visible_grows; try done. by eapply inv_nodup.
  - by rewrite Hst.
  - by left.
Qed.

Lemma resume_checkpoint_charges s sc id observed tok r r' :
  inv s → grows observed s → check_visible sc id observed = Ok tt →
  r ∈ records s → id_of r = id → rec_ok r →
  resume_checkpoint_record config sc (records s) tok r = Ok r' →
  charges run_id config default_usage r r'.
Proof.
  intros Hi Hg Hv Hin Hid Hr. unfold resume_checkpoint_record.
  case_bool_decide as Hst; simpl; [|done]. destruct tok; [done|]. intros H. inv_ok.
  eapply requeue_charges; try done.
  - eapply check_visible_grows; try done. by eapply inv_nodup.
  - by rewrite Hst.
  - right. by eexists.
Qed.

Lemma execution_terminal e : is_terminal (outcome_status (execution_outcome display e)) = true.
Proof. destruct e as [| | |out| |]; simpl; try done. by destruct (is_terminal (outcome_status out)) eqn:?. Qed.

Lemma exec_inv env observed c o :
  inv (state o) → grows observed (state o) →
  inv (state (exec env observed c o).2) ∧ grows (state o) (state (exec env observed c o).2).
Proof.
  intros Hi Hg. destruct c; simpl.
  - apply lift_state; [|done]. intros [] _. apply lift_state; [|done]. intros d Hd.
    destruct (transact_cases env (submit_apply config sc d (now env) requests) o)
      as [[_ ->]|(v & s' & rev & Ha & -> & _)]; [by split|].
    eapply submit_inv in Ha as (? & ? & _); [|done..]. split; [by apply set_revision_inv|done].
  - apply lift_state; [|done]. intros [] _. apply transact_inv, preserves_collect; done.
  - apply lift_state; [|done]. intros [] _. apply lift_state; [|done].
    intros [] Hne%ensure_Ok. bools. apply transact_inv; [done|]. apply preserves_update.
    intros s r r' _ _ _ Hr. by apply steer_record_charges.
  - apply lift_state; [|done]. intros t _. destruct (is_terminal _); [by split|].
    unfold get, put, mbind, SE_bind.
    match goal with |- context [transact env ?f ?o'] =>
      destruct (transact_inv env f o' Hi) as [? ?]; [|by split] end.
    apply preserves_update. intros s r r' _ _ _ Hr. by apply cancel_record_charges.
  - apply lift_state; [|done]. intros [] Hv. unfold get, mbind, SE_bind.
    match goal with |- context [transact env ?f o] =>
      destruct (transact_cases env f o) as [[_ ->]|(v & s' & rev & Ha & -> & _)]; [by split|] end.
    unfold update in Ha. inv_ok.
    destruct (update_inv run_id config id _ (state o) s' Hi ltac:(done)) as [? ?];
      [|split; [by apply set_revision_inv|done]].
    intros r r' Hin Hid Hr. by eapply resume_queued_charges.
  - apply lift_state; [|done]. intros [] Hv. unfold get, mbind, SE_bind.
    match goal with |- context [transact env ?f o] =>
      destruct (transact_cases env f o) as [[_ ->]|(v & s' & rev & Ha & -> & _)]; [by split|] end.
    unfold update in Ha. inv_ok.
    destruct (update_inv run_id config id _ (state o) s' Hi ltac:(done)) as [? ?];
      [|split; [by apply set_revision_inv|done]].
    intros r r' Hin Hid Hr. by eapply resume_checkpoint_charges.
  - apply lift_state; [|done]. intros [] _. apply lift_state; [|done].
    intros [] Ho%ensure_Ok. by apply transact_inv, preserves_reconcile.
  - unfold persist_checkpoint. destruct (runtime checkpoint) as [rt|] eqn:Hrt; [|by split].
    case_match eqn:Hc; [by split|]. bools. apply transact_inv; [done|]. apply preserves_persist.
    intros r <- Hd. by split_and!.
  - apply transact_inv; [done|]. apply preserves_update_take. apply finish_charges.
  - apply transact_inv; [done|]. apply preserves_update_take. apply take_checked_charges.
  - apply transact_inv; [done|]. apply preserves_update. intros s r r' _ _ _ Hr Hr'.
    apply acknowledged_charges; [done|]. by eapply acknowledge_all_move.
  - apply transact_inv, preserves_reserve; done.
  - unfold charge. rewrite bind_state; [|by intros []].
    apply transact_inv, preserves_charge; done.
  - unfold record_tool_start. rewrite bind_state by done. apply transact_inv; [done|].
    apply preserves_update. intros s r r' _ _ _ Hr. by apply update_activity_charges.
  - unfold record_tool_end. rewrite bind_state by done. apply transact_inv; [done|].
    apply preserves_update. intros s r r' _ _ _ Hr. by apply update_activity_charges.
  - apply transact_inv; [done|]. apply preserves_update. intros s r r' _ _ _ Hr [= <-].
    by apply display_charges.
  - apply transact_inv; [done|]. apply preserves_schedule.
  - apply transact_inv, preserves_join, execution_terminal; done.
  - unfold shutdown. simpl. destruct (poisoned o); [by split|].
    destruct (checked_add _ _) as [rev|]; [|by split].
    destruct (shutdown_inv run_id config (now env) (state o) Hi) as [Hi' Hg'].
    destruct (persist env) as [w|]; [destruct (w _); [by split|]|];
      (split; [by apply set_revision_inv|done]).
Qed.

Lemma new_inv env o : new run_id config env = Ok o → inv (state o).
Proof.
  unfold new. intros H. inv_ok. case_match; [done|]. inv_ok. simpl.
  constructor; simpl; try done; try (by constructor). lia.
Qed.

(** Every committed checkpoint is well formed, and each is an earlier state of
    the current one. *)
Lemma reach_inv h o : reach h o → inv (state o) ∧ (∀ s, s ∈ h → grows s (state o)).
Proof.
  induction 1 as [env o Hnew|h o env obs c ok o' _ [Hi Hh] Hobs Hex|h o env0 env o0 o' _ [Hi Hh] Hnew Hres].
  - split; [by eapply new_inv|]. by intros s ->%list_elem_of_singleton.
  - destruct (exec_inv env obs c o Hi (Hh _ Hobs)) as [Hi' Hg].
    rewrite Hex in Hi', Hg. simpl in *. split; [done|].
    intros s [->|Hs]%elem_of_cons; [done|]. etrans; [by apply Hh|done].
  - assert (inv (state o') ∧ grows (state o) (state o')) as [Hi' Hg].
    { unfold restore in Hres. case_match eqn:Hm; [|done]. injection Hres as <-. simpl.
      inv_ok. by eapply restore_state_inv. }
    split; [done|]. intros s [->|Hs]%elem_of_cons; [done|]. etrans; [by apply Hh|done].
Qed.
(** ** Properties *)

(** The history of a task.  Whatever happened since an earlier checkpoint, a
    task recorded in it is still there with the same identity, dependencies,
    parent, depth, submission and security; if it was terminal its status,
    result and error are what they were; delivery, dispatch evidence and
    acknowledged messages are never taken back, no message leaves its journal
    and its usage never falls. *)
Theorem task_history h o s id r :
  reach h o → s ∈ h → find_record id (records s) = Some r →
  ∃ r', find_record id (records (state o)) = Some r' ∧ moves r r'.
Proof. intros [_ Hh]%reach_inv Hs Hr. by eapply find_record_grows; [apply Hh|]. Qed.

(** Dispatch is sound.  A task starts only if it was queued and not
    cancelled, the shared budget was not exhausted, and every dependency had
    terminated, successfully where its policy asks for that; by then it is
    recorded as running, with its dispatch evidence, in the checkpoint that was
    persisted. *)
Theorem dispatch_sound h o env r o' :
  reach h o → schedule_one debug_str env o = (Ok (Some r), o') →
  r ∈ records (state o') ∧ task_status (task r) = Running ∧ dispatch r = Started ∧
  exhausted (budget (state o)) (usage (state o)) = false ∧
  token_cancelled o (id_of r) = false ∧
  (∃ r0, find_record (id_of r) (records (state o)) = Some r0 ∧
     is_terminal (task_status (task r0)) = false) ∧
  ∀ d, d ∈ deps_of r → ∃ q, find_record d (records (state o')) = Some q ∧
    is_terminal (task_status (task q)) = true ∧
    (dependency_policy (submission r) = AllSuccess → task_status (task q) = Completed).
Proof.
  intros [Hi _]%reach_inv Hs. unfold schedule_one, get, mbind, SE_bind in Hs.
  match type of Hs with transact env ?f o = _ =>
    destruct (transact_cases env f o) as [[[e He] _]|(v & s' & rev & Ha & Hst & Hv)] end.
  { by rewrite Hs in He. }
  rewrite Hs in Hst, Hv. simpl in Hst, Hv. injection Hv as <-. unfold schedule_apply in Ha.
  pose proof (schedule_loop_started _ _ _ _ _ _ _ _ _ _ Hi Ha)
    as (s1 & i & r0 & Hi1 & Hg1 & Hlen & Hr0 & [Hq Hlive Hover Hdeps] & -> & ->).
  pose proof (list_elem_of_lookup_2 _ _ _ Hr0) as Hin0.
  assert (rec_ok r0) as Hok0
    by (eapply Forall_lookup_1; [apply (inv_records _ _ _ Hi1)|done]).
  destruct (insert_inv run_id config s1 i r0 (start_record [] r0) Hi1 Hr0) as [_ Hg2];
    [by apply start_record_charges|].
  rewrite Hst. simpl. split_and!; try done.
  - apply list_elem_of_insert. by eapply lookup_lt_Some.
  - destruct Hg1 as (mid & extra & Heq & Hf). rewrite Heq, length_app in Hlen.
    pose proof (Forall2_length _ _ _ Hf). destruct extra; [|simpl in Hlen; lia].
    rewrite app_nil_r in Heq. rewrite Heq in Hr0.
    destruct (Forall2_lookup_r _ _ _ _ _ Hf Hr0) as (x & Hx & Hm). exists x. split.
    + apply find_record_unique; [by eapply inv_nodup|by eapply list_elem_of_lookup_2|].
      symmetry. apply (mv_id _ _ Hm).
    + destruct (is_terminal (task_status (task x))) eqn:Ht; [|done].
      destruct (mv_terminal _ _ Hm Ht) as (Hst' & _). unfold is_queued in Hq.
      rewrite Hst' in Hq. by destruct (task_status (task x)).
  - intros d Hd. destruct (Hdeps d Hd) as (q & Hq1 & Hq2 & Hq3).
    eapply find_record_grows in Hq1 as (q' & Hq' & Hm); [|exact Hg2]. exists q'.
    split; [done|]. destruct (mv_terminal _ _ Hm Hq2) as (-> & _). done.
Qed.

(** The store accepts every write. *)
Definition store_accepts (env : Env) : Prop :=
  ∀ w, persist env = Some w → ∀ s, w s = None.

(** C33: dispatch makes progress.  While the owner is active and its store
    accepts writes, whenever [drive] sees work, one call of [schedule_one]
    succeeds and at least one queued task starts or ends: the dispatch loop runs
    at most once per queued task. *)
Theorem dispatch_progress h o env :
  reach h o → active env o = Ok tt → store_accepts env → (revision (state o) < u64_max)%N →
  has_work (state o) = true →
  ∃ sel o', schedule_one debug_str env o = (Ok sel, o') ∧
    queued (records (state o')) < queued (records (state o)).
Proof.
  intros [Hi _]%reach_inv Hact Hst Hrev Hw. unfold schedule_one, get, mbind, SE_bind.
  destruct (schedule_apply_total run_id config debug_str (now env) (token_cancelled o) (state o) Hi)
    as (sel & s' & Ha & Hlt & Hr).
  unfold transact. rewrite Hact, Ha.
  assert (checked_add (revision s') 1 = Some (revision s' + 1)%N) as ->.
  { apply checked_add_Some. split; [done|]. rewrite Hr. lia. }
  destruct (persist env) as [w|] eqn:Hp; [rewrite (Hst w Hp)|]; (eexists _, _; split; [done|]);
    by apply Hlt.
Qed.

(** no deadlock.  When nothing is ready to be dispatched but tasks are still
    queued, some task is running or waits for an explicit decision: the queue
    never waits for itself. *)
Theorem no_deadlock h o r :
  reach h o → has_work (state o) = false → r ∈ records (state o) → is_queued r = true →
  ∃ x, x ∈ records (state o) ∧
    (task_status (task x) = Running ∨ task_status (task x) = Reconciling).
Proof.
  intros [Hi _]%reach_inv Hw Hr Hq.
  pose proof (inv_graph _ _ _ Hi) as Hg%validate_graph_Ok. destruct (graph_acyclic _ Hg) as [rank Hrank].
  remember (rank (id_of r)) as n eqn:Hn. revert r Hr Hq Hn.
  induction n as [n IH] using lt_wf_ind; intros r Hr Hq ->.
  assert (∃ d, d ∈ deps_of r ∧ terminal_dep (records (state o)) d = false) as (d & Hd & Hnt).
  { assert (self_ready (state o) r = false) as Hns.
    { destruct (self_ready (state o) r) eqn:Hs; [|done]. exfalso.
      assert (has_work (state o) = true); [|congruence].
      apply existsb_exists. exists r. split; [by apply list_elem_of_In|].
      by rewrite Hq, Hs, orb_true_r. }
    unfold self_ready in Hns. apply orb_false_iff in Hns as [Hall _].
    apply not_true_iff_false in Hall. rewrite forallb_forall in Hall.
    destruct (decide (Exists (λ d, terminal_dep (records (state o)) d = false) (deps_of r)))
      as [(d & ? & ?)%Exists_exists|Hne]; [by exists d|].
    exfalso. apply Hall. intros d Hd%list_elem_of_In.
    destruct (terminal_dep _ d) eqn:Ht; [done|]. exfalso. apply Hne, Exists_exists. by exists d. }
  destruct (dependency_found _ _ _ _ _ Hi Hr Hd) as (q & _ & Hq1 & Hqd).
  assert (is_terminal (task_status (task q)) = false) as Hqt.
  { destruct (is_terminal _) eqn:Ht; [|done]. exfalso.
    assert (terminal_dep (records (state o)) d = true); [|congruence].
    apply existsb_exists. exists q. split; [by apply list_elem_of_In|].
    unfold id_of in Hqd. by rewrite Hqd, String.eqb_refl, Ht. }
  destruct (is_queued q) eqn:Hqq.
  - eapply (IH (rank (id_of q))); [|done|done|done]. rewrite Hqd. by eapply Hrank.
  - exists q. split; [done|]. unfold is_queued in Hqq.
    destruct (task_status (task q)); naive_solver.
Qed.

(** Reservations never overdraw the shared budget.  A granted reservation
    was asked for by a running child while no limit was reached, is within every
    limit once added, and is charged to the child and to the ledger alike; a
    refused one changes nothing. *)
Theorem reserve_within_budget h o child env d :
  reach h o →
  match reserve child env d o with
  | (Ok _, o') =>
      exhausted (budget (state o)) (usage (state o)) = false ∧
      exceeded (budget (state o')) (usage (state o')) = false ∧
      usage (state o') = usage_plus (usage (state o)) d ∧
      ∃ r r', find_record child (records (state o)) = Some r ∧
        task_status (task r) = Running ∧
        find_record child (records (state o')) = Some r' ∧
        task_usage (task r') = usage_plus (task_usage (task r)) d
  | (Err _, o') => state o' = state o
  end.
Proof.
  intros [Hi _]%reach_inv. unfold reserve.
  destruct (transact_cases env (reserve_apply child d) o)
    as [[[e He] Hs]|(v & s' & rev & Ha & Hs & Hv)];
    destruct (transact env _ o) as [res o'] eqn:Ht; simpl in *; subst; [done|].
  unfold reserve_apply in Ha. inv_ok. bools. unfold require_running in *. inv_ok. bools.
  rewrite Hs. simpl.
  match goal with H : record_mut _ _ (state o) = Ok ?x |- _ =>
    destruct (record_mut_usage _ _ _ _ H) as [_ Hb]; rename H into Hm; rename x into s1 end.
  match goal with H : get_record _ _ = Ok ?x |- _ => rename x into r; rename H into Hget end.
  fwd add_Ok. destruct_and!. subst. rewrite Hb. split_and!; try done.
  apply get_record_Ok in Hget as Hfind. pose proof (find_record_Some _ _ _ Hfind) as [Hin Hid].
  apply record_mut_Ok in Hm as (rs & Hup & ->). apply update_first_Ok in Hup
    as (pre & x & x' & post & Heq & -> & Hpre & Hx & Hx').
  apply String.eqb_eq in Hx.
  assert (x = r) as ->.
  { eapply get_record_unique; [done|done| |done]. rewrite Heq. set_solver. }
  exists r, x'. split_and!; try done; simpl.
  - apply find_record_unique.
    + pose proof (inv_nodup _ _ _ Hi) as Hnd. rewrite Heq in Hnd.
      rewrite fmap_app, fmap_cons in *. unfold charge_record in Hx'. inv_ok.
      fwd charge_task_Ok. destruct_and!. by subst.
    + set_solver.
    + unfold charge_record in Hx'. inv_ok. fwd charge_task_Ok. destruct_and!. by subst.
  - unfold charge_record in Hx'. inv_ok. fwd charge_task_Ok. destruct_and!. by subst.
Qed.

(** Any property of the owner that the checks keep and the rest establishes. *)
Lemma lift_ind {A R} (P : Owner → Prop) (m : Result A) (f : A → SE Owner Error R) o :
  P o → (∀ a, m = Ok a → P (f a o).2) → P ((lift m ≫= f) o).2.
Proof. intros Ho Hf. unfold lift, mbind, SE_bind. destruct m; [by apply Hf|done]. Qed.

(** What a call may publish, given a test of the owner after it. *)
Lemma exec_ind (P : Owner → Prop) env observed c o :
  (∀ tokens, P (mkOwner (state o) (closed o) (poisoned o) tokens)) →
  (∀ A (apply : Ckpt → Result (A * Ckpt)) tokens,
     P (transact env apply (mkOwner (state o) (closed o) (poisoned o) tokens)).2) →
  P (shutdown env o).2 → P (exec env observed c o).2.
Proof.
  intros H0 Ht Hsd.
  assert (P o) as Ho by (specialize (H0 (cancellations o)); by destruct o).
  assert (∀ A (apply : Ckpt → Result (A * Ckpt)), P (transact env apply o).2) as Ht0.
  { intros A f. specialize (Ht A f (cancellations o)). by destruct o. }
  destruct c; simpl;
    unfold submit_dag, collect_ids, steer, cancel, resume_queued, resume_checkpoint, reconcile;
    repeat (apply lift_ind; [done|intros ? _]); try apply Ht0; try done.
  - destruct (is_terminal _); [done|]. apply Ht.
  - unfold persist_checkpoint. destruct (runtime _); [|done]. case_match; [done|]. apply Ht0.
  - unfold charge, mbind, SE_bind. specialize (Ht0 bool (charge_apply child delta)).
    destruct (transact env _ o) as [[[]|] ?]; done.
  - unfold record_tool_start, mbind, SE_bind.
    match goal with |- context [transact env ?f o] => specialize (Ht0 unit f) end.
    by destruct (transact env _ o) as [[[]|] ?].
  - unfold record_tool_end, mbind, SE_bind.
    match goal with |- context [transact env ?f o] => specialize (Ht0 unit f) end.
    by destruct (transact env _ o) as [[[]|] ?].
Qed.

(** persistence is fail-closed.  Nothing is published that the store did not
    accept first, and once a write was rejected no call, not even shutdown,
    changes the committed checkpoint again. *)
Theorem fail_closed env observed c o :
  let o' := (exec env observed c o).2 in
  (state o' = state o ∨ ∀ w, persist env = Some w → w (state o') = None) ∧
  (∀ w s e, persist env = Some w → w s = Some e → (∀ s, is_Some (w s)) →
     state o' = state o) ∧
  (poisoned o = true → state o' = state o ∧ poisoned o' = true).
Proof.
  simpl. split_and!.
  - apply exec_ind; [by left| |].
    + intros A f tk. unfold transact. repeat (case_match; simpl; auto); right; intros ? [= <-]; done.
    + unfold shutdown. simpl. destruct (poisoned o); [by left|].
      destruct (checked_add _ _) as [rev|]; [|by left]. destruct (persist env) as [w|] eqn:Hp.
      * destruct (w _) eqn:Hw; [by left|]. right. by intros ? [= <-].
      * by right.
  - intros w s e Hp _ Hall. apply (exec_ind (λ o', state o' = state o)); [done| |].
    + intros A f tk. unfold transact. rewrite Hp. repeat (case_match; simpl; auto).
      match goal with H : w ?x = None |- _ => destruct (Hall x); congruence end.
    + unfold shutdown. simpl. rewrite Hp. repeat (case_match; simpl; auto).
      match goal with H : w ?x = None |- _ => destruct (Hall x); congruence end.
  - intros Hpo. apply (exec_ind (λ o', state o' = state o ∧ poisoned o' = true)).
    + by rewrite Hpo.
    + intros A f tk. unfold transact, active. simpl. rewrite Hpo. by destruct (closed o).
    + unfold shutdown. simpl. by rewrite Hpo.
Qed.

(** ** Steering *)

Lemma filter_unique (l : list SteeringMessage) m :
  NoDup (msg_id <$> l) → m ∈ l → filter (λ x, msg_id x = msg_id m) l = [m].
Proof.
  induction l as [|x l IH]; [set_solver|]. rewrite fmap_cons, NoDup_cons, filter_cons.
  intros [Hx Hnd] [->|Hm]%elem_of_cons.
  - rewrite decide_True by done. f_equal.
    assert (∀ y, y ∈ filter (λ y, msg_id y = msg_id x) l → False) as Hn.
    { intros y [Hy Hin]%list_elem_of_filter. apply Hx. rewrite <-Hy. by apply list_elem_of_fmap_2. }
    destruct (filter _ l) as [|y ?]; [done|]. destruct (Hn y). left.
  - rewrite decide_False; [by apply IH|]. intros Heq. apply Hx. rewrite Heq.
    by apply list_elem_of_fmap_2.
Qed.

(** C32: steering is exactly-once.  A message that ever entered a task's journal
    is in it exactly once, with its text, for as long as the run lasts; sending
    it again changes no record, and its identifier cannot be reused for a
    different text. *)
Theorem steer_exactly_once h o s id r m :
  reach h o → s ∈ h → find_record id (records s) = Some r → m ∈ journal r →
  (∃ r', find_record id (records (state o)) = Some r' ∧
     filter (λ x, msg_id x = msg_id m) (journal r') = [m]) ∧
  (∀ sc env observed text o', steer sc env observed id (msg_id m) text o = (Ok tt, o') →
     text = msg_text m ∧ records (state o') = records (state o)).
Proof.
  intros [Hi Hh]%reach_inv Hs Hr Hm.
  destruct (find_record_grows id s (state o) r (Hh s Hs) Hr) as (r' & Hr' & Hmv).
  pose proof (find_record_Some _ _ _ Hr') as [Hin Hid].
  assert (rec_ok r') as Hok.
  { pose proof (inv_records _ _ _ Hi) as Hall. rewrite Forall_forall in Hall. by apply Hall. }
  assert (m ∈ journal r') as Hm' by by apply (mv_journal _ _ Hmv).
  split.
  { exists r'. split; [done|]. apply filter_unique; [|done]. apply (ok_journal _ _ _ Hok). }
  intros sc env observed text o' Hst. unfold steer in Hst.
  apply SE_bind_Ok in Hst as ([] & o1 & H1 & Hst). apply SE_bind_Ok in Hst as ([] & o2 & H2 & Hst).
  assert (o1 = o) as -> by (unfold lift in H1; congruence).
  assert (o2 = o) as -> by (unfold lift in H2; congruence).
  match type of Hst with transact env ?f o = _ =>
    destruct (transact_cases env f o) as [[[e He] _]|(v & s' & rev & Ha & Hst' & Hv)] end;
    rewrite Hst in *; [done|]. simpl in *.
  unfold update in Ha. inv_ok.
  match goal with H : record_mut _ _ (state o) = Ok _ |- _ =>
    apply record_mut_Ok in H as (rs & Hup & ->) end.
  apply update_first_Ok in Hup as (pre & x & x' & post & Heq & -> & Hpre & Hx & Hx').
  apply String.eqb_eq in Hx.
  assert (x = r') as ->.
  { rewrite (find_record_unique (id_of r') _ x) in Hr'; [congruence|by eapply inv_nodup| |done].
    rewrite Heq. set_solver. }
  unfold steer_record in Hx'.
  destruct (List.find _ (journal r')) as [m'|] eqn:Hfind.
  - apply List.find_some in Hfind as [Hin' Hid']. apply list_elem_of_In in Hin'. bools.
    assert (m' = m) as ->.
    { pose proof (filter_unique (journal r') m (ok_journal _ _ _ Hok) Hm') as Hf.
      assert (m' ∈ filter (λ x, msg_id x = msg_id m) (journal r')) as Hmem
        by by apply list_elem_of_filter.
      rewrite Hf in Hmem. by apply list_elem_of_singleton in Hmem. }
    destruct (String.eqb_spec (msg_text m) text) as [->|]; [|done]. injection Hx' as <-.
    split; [done|]. rewrite Hst'. simpl. by rewrite Heq.
  - exfalso. eapply List.find_none in Hfind; [|by apply list_elem_of_In].
    by rewrite String.eqb_refl in Hfind.
Qed.

(** A successful transaction on one record of a well-formed checkpoint. *)
Lemma record_mut_find id f s s' r :
  inv s → record_mut id f s = Ok s' → find_record id (records s) = Some r →
  (∀ r', f r = Ok r' → id_of r' = id_of r) →
  ∃ r', f r = Ok r' ∧ find_record id (records s') = Some r' ∧
    ∀ i, i ≠ id → find_record i (records s') = find_record i (records s).
Proof.
  intros Hi (rs & Hup & ->)%record_mut_Ok Hr Hf.
  apply update_first_Ok in Hup as (pre & x & x' & post & Heq & -> & Hpre & Hx & Hx').
  apply String.eqb_eq in Hx.
  assert (x = r) as ->.
  { rewrite (find_record_unique id _ x) in Hr;
      [congruence|by eapply inv_nodup| |done]. rewrite Heq. set_solver. }
  exists x'. specialize (Hf x' Hx'). split_and!; [done| |]; simpl.
  - clear -Hpre Hx Hf. unfold find_record. induction Hpre as [|y pre Hy _ IH]; simpl.
    + fold (id_of x'). by rewrite Hf, Hx, String.eqb_refl.
    + fold (id_of y). by rewrite Hy.
  - intros i Hne. rewrite Heq. unfold find_record. clear -Hx Hf Hne.
    induction pre as [|y pre IH]; simpl.
    + fold (id_of x') (id_of r). rewrite Hf, Hx.
      by rewrite (proj2 (String.eqb_neq id i)) by congruence.
    + by destruct (String.eqb _ _).
Qed.

(** the finalization gate.  [finish_or_take_messages] hands out every
    unacknowledged message, in order, and only when there is none does it close
    steering; a child that then reports completion is recorded as completed,
    while one that still has unacknowledged messages is left reconciling, so no
    accepted message is silently dropped. *)
Theorem finalization_gate h o child env r :
  reach h o → find_record child (records (state o)) = Some r →
  (∀ ms o', finish_or_take_messages child env o = (Ok ms, o') →
     ∃ r', find_record child (records (state o')) = Some r' ∧
       ms = in_flight_messages r ++ queued_messages r ∧
       in_flight_messages r' = ms ∧ queued_messages r' = [] ∧
       (ms = [] → accepting_messages r' = false) ∧
       (ms ≠ [] → accepting_messages r' = accepting_messages r)) ∧
  (∀ outcome elapsed o', outcome_status outcome = Completed →
     is_terminal (task_status (task r)) = false →
     join_child env child outcome elapsed o = (Ok tt, o') →
     ∃ r', find_record child (records (state o')) = Some r' ∧ accepting_messages r' = false ∧
       task_status (task r') =
         if bool_decide (in_flight_messages r ++ queued_messages r = [])
         then Completed else Reconciling).
Proof.
  intros [Hi _]%reach_inv Hr. split.
  - intros ms o' Hf. unfold finish_or_take_messages in Hf.
    match type of Hf with transact env ?f o = _ =>
      destruct (transact_cases env f o) as [[[e He] _]|(v & s' & rev & Ha & Hst & Hv)] end;
      rewrite Hf in *; [done|]. simpl in *. injection Hv as <-.
    unfold update_take in Ha. inv_ok. rewrite Hst. simpl.
    match goal with H : record_mut _ _ _ = Ok _ |- _ =>
      destruct (record_mut_find _ _ _ _ _ Hi H Hr) as (r' & Hr' & Hfind & _) end.
    { intros r' Hr'. unfold finish_record in Hr'. inv_ok. by case_bool_decide. }
    exists r'. split; [done|].
    match goal with H : get_record _ _ = Ok _ |- _ => apply get_record_Ok in H end. simplify_eq.
    unfold finish_record in Hr'. inv_ok.
    case_bool_decide as Hnil; unfold take_record in *; simpl in *;
      split_and!; try done; intros; congruence.
  - intros outcome elapsed o' Ho Ht Hj. unfold join_child in Hj.
    match type of Hj with transact env ?f o = _ =>
      destruct (transact_cases env f o) as [[[e He] _]|(v & s' & rev & Ha & Hst & Hv)] end;
      rewrite Hj in *; [done|]. simpl in *.
    unfold join_apply in Ha. inv_ok. rewrite Hst. simpl.
    match goal with H : record_mut _ _ (state o) = Ok ?x |- _ => rename H into Hm, x into s1 end.
    destruct (record_mut_find _ _ _ _ _ Hi Hm Hr) as (r1 & Hr1 & Hf1 & _).
    { intros r' Hr'. unfold join_record in Hr'. inv_ok. by destruct (_ && _). }
    destruct (update_inv _ _ _ _ _ _ Hi Hm) as [Hi1 _].
    { intros x x' _ _ Hx Hx'. by eapply join_record_charges. }
    match goal with H : apply_outcome _ _ _ _ = Ok _ |- _ => rename H into Hao end.
    unfold apply_outcome, add_usage in Hao. inv_ok. simpl.
    match goal with H : record_mut _ _ s1 = Ok ?x |- _ => rename H into Hm2 end.
    destruct (record_mut_find _ _ _ _ _ Hi1 Hm2 Hf1) as (r2 & Hr2 & Hf2 & _).
    { intros r' Hr'. unfold outcome_record in Hr'. inv_ok. fwd charge_task_Ok. destruct_and!. subst.
      unfold id_of. simpl. by repeat case_match. }
    exists r2. split; [done|].
    assert (in_flight_messages r1 = in_flight_messages r ∧ queued_messages r1 = queued_messages r ∧
      task_status (task r1) = task_status (task r)) as (E1 & E2 & E3).
    { unfold join_record in Hr1. inv_ok. by destruct (_ && _). }
    unfold outcome_record in Hr2. inv_ok. fwd charge_task_Ok. destruct_and!. subst.
    simpl. rewrite E1, E2, E3, Ht, Ho. simpl.
    destruct (in_flight_messages r), (queued_messages r); simpl;
      repeat (case_bool_decide; simpl; try done).
Qed.

(** A transaction on one task leaves the records of the others alone. *)
Lemma update_other id i f v s s' r :
  inv s → i ≠ id → (∀ x x', f x = Ok x' → id_of x' = id_of x) →
  update i f s = Ok (v, s') → find_record id (records s) = Some r →
  find_record id (records s') = Some r.
Proof.
  intros Hi Hne Hf Hu Hr. unfold update in Hu. inv_ok.
  match goal with H : record_mut _ _ _ = Ok _ |- _ => rename H into Hm end.
  pose proof Hm as (rs & Hup & _)%record_mut_Ok.
  apply update_first_Ok in Hup as (pre & x & x' & post & Heq & _ & _ & Hx & _).
  apply String.eqb_eq in Hx.
  destruct (record_mut_find _ _ _ _ x Hi Hm) as (_ & _ & _ & Hother).
  - apply find_record_unique; [by eapply inv_nodup| |done]. rewrite Heq. set_solver.
  - intros x1 Hx1. by apply Hf.
  - rewrite Hother; [done|]. by apply not_eq_sym.
Qed.

Lemma collect_other ids v s s' id r :
  collect_apply ids s = Ok (v, s') → is_one_of (id_of r) ids = false →
  find_record id (records s) = Some r → find_record id (records s') = Some r.
Proof.
  unfold collect_apply. intros Hs Hnot. inv_ok. simpl. unfold find_record.
  induction (records s) as [|x l IH]; simpl; [done|].
  assert (task_id (task (if collectable ids x then set_result_delivered true x else x))
          = task_id (task x)) as -> by by destruct (collectable ids x).
  destruct (String.eqb (task_id (task x)) _); [|done]. intros [= ->].
  unfold collectable. unfold id_of in Hnot. by rewrite Hnot.
Qed.

Lemma check_all_visible sc ids s i :
  foldM (λ _ id, check_visible sc id s) tt ids = Ok tt → i ∈ ids → check_visible sc i s = Ok tt.
Proof.
  induction ids as [|j ids IH]; cbn [foldM]; [set_solver|].
  destruct (check_visible sc j s) as [[]|] eqn:Hj; [|done].
  intros Hf [<-|Hi]%elem_of_cons; [done|by apply IH].
Qed.

(** delegation is confined.  A call through a handle scoped to a task
    changes no task outside the subtree of that task. *)
Theorem delegation_confined h o env observed c p ok o' id r :
  reach h o → observed ∈ h →
  match c with
  | CallSubmit (Some q) _ | CallCollect (Some q) _ | CallSteer (Some q) _ _ _
  | CallCancel (Some q) _ | CallResumeQueued (Some q) _ | CallResumeCheckpoint (Some q) _
  | CallReconcile (Some q) _ _ => q = p
  | _ => False
  end →
  exec env observed c o = (ok, o') →
  find_record id (records (state o)) = Some r → ¬ descends (records (state o)) p r →
  find_record id (records (state o')) = Some r.
Proof.
  intros [Hi Hh]%reach_inv Hobs Hc Hex Hr Hn. specialize (Hh _ Hobs).
  assert (o' = (exec env observed c o).2) as -> by by rewrite Hex. clear Hex.
  pose proof (find_record_Some _ _ _ Hr) as [Hin Hid].
  assert (∀ i, check_visible (Some p) i observed = Ok tt → i ≠ id) as Hne.
  { intros i Hv ->. apply Hn. eapply (check_visible_grows (Some p)); try done. by eapply inv_nodup. }
  assert (∀ A (f : Ckpt → Result (A * Ckpt)) o1, state o1 = state o →
    (∀ v s', f (state o) = Ok (v, s') → find_record id (records s') = Some r) →
    find_record id (records (state (transact env f o1).2)) = Some r) as Htr.
  { intros A f o1 Ho1 Hf.
    destruct (transact_cases env f o1) as [[_ ->]|(v & s' & rev & Ha & -> & _)];
      rewrite Ho1 in *; [done|exact (Hf v s' Ha)]. }
  assert (∀ i f o1, state o1 = state o → check_visible (Some p) i observed = Ok tt →
    (∀ x x', f x = Ok x' → id_of x' = id_of x) →
    find_record id (records (state (transact env (update i f) o1).2)) = Some r) as Hupd.
  { intros i f o1 Ho1 Hv Hf. apply Htr; [done|]. intros v s' Hu. by eapply update_other; eauto. }
  destruct c as [[q|]|[q|]|[q|]|[q|]|[q|]|[q|]|[q|]| | | | | | | | | | | |]; try done; subst q; simpl.
  all: set (P := λ o1 : Owner, find_record id (records (state o1)) = Some r).
  all: apply (lift_ind P); [done|].
  - intros [] _. apply (lift_ind P); [done|intros d Hd]. apply Htr; [done|]. intros v s' Hs.
    eapply submit_inv in Hs as (_ & _ & new & -> & _); [|done..]. by apply find_record_app.
  - intros [] Hv. apply Htr; [done|]. intros v s' Hs. eapply collect_other; [done| |done].
    destruct (is_one_of (id_of r) ids) eqn:Hone; [|done]. exfalso.
    apply existsb_exists in Hone as (i & Hi'%list_elem_of_In & Heq). bools.
    apply (Hne i); [by eapply check_all_visible|congruence].
  - intros [] Hv. apply (lift_ind P); [done|intros [] _]. apply Hupd; [done|done|].
    intros x x'. unfold steer_record. repeat case_match; try done; by intros [= <-].
  - intros t Hv. destruct (is_terminal _); [done|]. apply Hupd; [done| |].
    + unfold get_status in Hv. by inv_ok.
    + intros x x'. unfold cancel_record. case_match; by intros [= <-].
  - intros [] Hv. apply Hupd; [done|done|].
    intros x x'. unfold resume_queued_record, requeue. repeat case_match; try done. intros H'. by inv_ok.
  - intros [] Hv. apply Hupd; [done|done|].
    intros x x'. unfold resume_checkpoint_record, requeue. case_match; try done. intros H'. by inv_ok.
  - intros [] Hv. apply (lift_ind P); [done|intros [] _]. apply Htr; [done|]. intros v s' Hs.
    unfold reconcile_apply, add_usage in Hs. inv_ok. simpl.
    match goal with H : record_mut ?i ?f _ = Ok ?x |- _ =>
      eapply (update_other _ i f tt (state o) x); [done|by apply Hne| |by unfold update; rewrite H|done] end.
    intros y y' Hy. unfold reconcile_record in Hy. inv_ok. fwd charge_task_Ok.
    destruct_and!. by subst.
Qed.

End props.

(** ** Restarts under other configurations

    A host may restart a run under a configuration of its own: other limits, other
    budgets, other agents.  [restore] refuses what the new configuration does not
    allow. *)

Section lives.
Context {Value : Type} (run_id : string) (debug_str : string → string) (display : Error → string).
Notation Rec := (CheckpointRecord Value).
Notation Ckpt := (SchedulerCheckpoint Value).
Notation Owner := (Owner Value).
Notation Env := (Env Value).
Implicit Types (r : Rec) (l : list Rec) (s : Ckpt) (o : Owner) (config : SchedulerConfig).

(** The configuration gives each task the security it has. *)
Definition same_security config l : Prop :=
  ∀ r, r ∈ l → security config None [] (submission r) = Ok (security_baseline r).

(** [life config h o]: the owner [o] after a run whose last restart was under [config];
    [h] holds every checkpoint committed so far, under any configuration.  A restart may
    change the configuration as [restore] allows, but not the security of a task. *)
Inductive life : SchedulerConfig → list Ckpt → Owner → Prop :=
| life_new config env o : new run_id config env = Ok o → life config [state o] o
| life_call config h o env observed c ok o' :
    life config h o → observed ∈ h →
    exec run_id config debug_str display env observed c o = (ok, o') →
    life config (state o' :: h) o'
| life_restart config config' h o env0 env o0 o' :
    life config h o → new run_id config' env0 = Ok o0 →
    restore run_id config' None env run_id (state o) o0 = (Ok tt, o') →
    same_security config' (records (state o)) →
    life config' (state o' :: h) o'.

Lemma restored_consistent config ctx l st st' :
  foldM (restore_record config ctx) st l = Ok st' → Forall (λ r, check_consistent config r = true) l.
Proof.
  revert st. induction l as [|r l IH]; intros st; cbn [foldM]; [constructor|].
  destruct (restore_record config ctx st r) as [st1|] eqn:Hr; [|done]. intros Hf.
  constructor; [|by eapply IH]. unfold restore_record in Hr. destruct st as [total done].
  by apply bind_Ok in Hr as ([] & H%ensure_Ok & _).
Qed.
Lemma rec_ok_under config config' r :
  rec_ok run_id config r → check_consistent config' r = true →
  security config' None [] (submission r) = Ok (security_baseline r) → rec_ok run_id config' r.
Proof.
  intros Hr Hc Hs. destruct Hr. unfold check_consistent in Hc. bools.
  constructor; try done; lia.
Qed.
Lemma scope_ok_under config config' l r :
  scope_ok config l r → check_scope config' l r = Ok tt → scope_ok config' l r.
Proof.
  unfold scope_ok, check_scope. destruct (parent_id r); [done|]. intros _ H%ensure_Ok. by bools.
Qed.
Lemma scopes_checked config l k :
  foldM (λ (_ : unit) r, check_scope config l r) tt k = Ok tt →
  Forall (λ r, check_scope config l r = Ok tt) k.
Proof.
  induction k as [|r k IH]; cbn [foldM]; [constructor|].
  destruct (check_scope config l r) as [[]|] eqn:Hr; [|done]. intros Hf. constructor; [done|by apply IH].
Qed.
(** What [restore] accepts is well formed under the configuration that restores it. *)
Lemma restore_reconfigured config config' ctx s s' :
  inv run_id config s → restore_state config' ctx s = Ok s' → same_security config' (records s) →
  inv run_id config' s' ∧ grows s s'.
Proof.
  intros Hi Hres Hsec. pose proof Hres as Hr. unfold restore_state in Hr.
  apply bind_Ok in Hr as ([] & Hlim%ensure_Ok & Hr). apply bind_Ok in Hr as ([] & _ & Hr).
  apply bind_Ok in Hr as ([] & Hsc%scopes_checked & Hr).
  apply bind_Ok in Hr as ([total rs] & Hcons%restored_consistent & _). bools.
  assert (inv run_id config' (set_budget (config_budget config') s)) as Hi'.
  { destruct Hi. constructor; try done; simpl.
    - rewrite Forall_forall in *. intros r Hr. eapply rec_ok_under; [by apply inv_records|by apply Hcons|by apply Hsec].
    - rewrite Forall_forall in *. intros r Hr. by eapply scope_ok_under; [apply inv_scopes|apply Hsc]. }
  assert (restore_state config' ctx (set_budget (config_budget config') s) = Ok s') as Hres'.
  { rewrite <-Hres. unfold restore_state. simpl. by rewrite limits_refl, H0. }
  by eapply restore_state_inv in Hres'.
Qed.
Lemma life_inv config h o :
  life config h o → inv run_id config (state o) ∧ (∀ s, s ∈ h → grows s (state o)).
Proof.
  induction 1 as [config env o Hnew|config h o env obs c ok o' _ [Hi Hh] Hobs Hex|
    config config' h o env0 env o0 o' _ [Hi Hh] Hnew Hres Hsec].
  - split; [by eapply new_inv|]. by intros s ->%list_elem_of_singleton.
  - destruct (exec_inv run_id config debug_str display env obs c o Hi (Hh _ Hobs)) as [Hi' Hg].
    rewrite Hex in Hi', Hg. simpl in *. split; [done|].
    intros s [->|Hs]%elem_of_cons; [done|]. etrans; [by apply Hh|done].
  - assert (inv run_id config' (state o') ∧ grows (state o) (state o')) as [Hi' Hg].
    { unfold restore in Hres. case_match eqn:Hm; [|done]. injection Hres as <-. simpl.
      inv_ok. by eapply restore_reconfigured. }
    split; [done|]. intros s [->|Hs]%elem_of_cons; [done|]. etrans; [by apply Hh|done].
Qed.

(** C5: the scheduler's invariant.  Every checkpoint an owner commits is well formed, with
    any interleaving of handles, controls, failures and restarts, under the same
    configuration or another that [restore] accepts and that gives each task the security
    it has: versioned and keyed, with an acyclic graph of distinct tasks, each record
    consistent with its submission, its dispatch evidence and its steering journal, each
    child one level below its parent with at most its parent's security, and the shared
    ledger equal to the sum of the tasks' usage.  A task of any earlier checkpoint is still
    there, and only moved on.  (A restart that changes the security of a task is excluded:
    [narrowed_restart_rejected] shows what it can lead to.) *)
Theorem scheduler_invariant config h o :
  life config h o →
  inv run_id config (state o)
  ∧ ∀ s id r, s ∈ h → find_record id (records s) = Some r →
      ∃ r', find_record id (records (state o)) = Some r' ∧ moves r r'.
Proof.
  intros [Hi Hh]%life_inv. split; [done|]. intros s id r Hs Hr.
  by eapply find_record_grows; [apply Hh|].
Qed.

(** C23: crash recovery.  Every checkpoint of such a run is accepted by a new owner under
    the configuration it was committed under, and restoring it dispatches nothing: each
    task comes back as it was if it was terminal, and otherwise as reconciling and closed
    to steering; the ledger is the saved one.  What was restored is such a run again.  (A
    host that restarts under another configuration may be refused.) *)
Theorem restore_accepts config h o env0 env o0 :
  life config h o → new run_id config env0 = Ok o0 → context_active env = Ok tt →
  ∃ o', restore run_id config None env run_id (state o) o0 = (Ok tt, o') ∧
    life config (state o' :: h) o' ∧
    Forall2 moves (records (state o)) (records (state o')) ∧
    Forall (λ r, accepting_messages r = false ∧
      (is_terminal (task_status (task r)) = true ∨ task_status (task r) = Reconciling))
      (records (state o')) ∧
    usage (state o') = usage (state o).
Proof.
  intros Hl Hnew Hact. pose proof (life_inv _ _ _ Hl) as [Hi _].
  assert (∃ o', restore run_id config None env run_id (state o) o0 = (Ok tt, o') ∧
    state o' = set_budget (config_budget config)
      (set_records (restored <$> records (state o)) (state o))) as (o' & Hres & Hst).
  { pose proof Hnew as Hn. unfold new in Hn. inv_ok. case_match; [done|]. inv_ok.
    eexists. unfold restore.
    rewrite Hact, (inv_version _ _ _ Hi), (inv_run _ _ _ Hi), !String.eqb_refl. simpl.
    unfold active. simpl. rewrite Hact. simpl. rewrite (restore_state_Ok run_id) by done. by split. }
  exists o'. rewrite Hst. simpl. split_and!; [done| | | |done].
  - rewrite <-Hst. eapply life_restart; [done..|]. intros r Hr.
    pose proof (inv_records _ _ _ Hi) as Hall. rewrite Forall_forall in Hall. by apply (ok_security _ _ _ (Hall r Hr)).
  - apply Forall2_fmap_r, Forall_Forall2_diag.
    eapply Forall_impl; [apply (inv_records _ _ _ Hi)|]. intros r Hr.
    by destruct (restored_charges run_id config r Hr) as [? _].
  - apply Forall_fmap, Forall_true. intros r. unfold restored. simpl.
    destruct (is_terminal (task_status (task r))) eqn:Ht; simpl; auto.
Qed.
End lives.

(** ** Witnesses: a task, its dependent, and a delegated child *)

Section demo.
Definition base (a : AccessMode) : SecurityBaseline :=
  mkSecurityBaseline (mkToolPolicy a None ∅ ∅ RequiredByTool None) ∅ ∅ false None.
Definition demo_config (a : AccessMode) : SchedulerConfig :=
  mkSchedulerConfig 2 8 3 0 50 (base a) {["worker" := base FullAccess]}
    (mkBudgetLimits (Some 100%N) None None None).
Definition demo_sub (id : string) (deps : list string) : Submission unit :=
  mkSubmission id "worker" "do it" deps AllSuccess true None None
    (mkRunPolicy 10 (mkToolPolicy FullAccess None ∅ ∅ RequiredByTool None) Continue).
Definition demo_env : Env unit := mkEnv (Ok tt) (Some (λ _, None)) 5.
Definition demo_runner : RunnerCheckpoint :=
  mkRunnerCheckpoint 1 "run/a" "attempt_1" "step_1" 1 "model_prepared" "worker"
    (Some (mkRuntimeCheckpoint 1 "model_prepared" [] "{}")) None "{}".

Notation demo_exec := (exec (Value := unit) "run" (demo_config WorkspaceWrite) (λ s, s) message demo_env).
Notation demo_reach :=
  (reach (Value := unit) "run" (demo_config WorkspaceWrite) (λ s, s) message).

Definition demo_o0 : Owner unit :=
  mkOwner (new_checkpoint "run" (demo_config WorkspaceWrite)) false false ∅.
(** One call in the demonstration environment, observing the current state. *)
Definition demo_step (o : Owner unit) (c : Call) : Owner unit := (demo_exec (state o) c o).2.
Lemma demo_reach_step h o c :
  demo_reach h o → demo_reach (state (demo_step o c) :: h) (demo_step o c).
Proof.
  intros Hr. assert (state o ∈ h) as Hin by (destruct Hr; left).
  refine (reach_call _ _ _ _ h o demo_env (state o) c (demo_exec (state o) c o).1 _ Hr Hin _).
  unfold demo_step. by destruct (demo_exec (state o) c o).
Qed.

Definition demo_submit : Call := CallSubmit None [demo_sub "a" []; demo_sub "b" ["a"]].
Definition demo_o1 : Owner unit := demo_step demo_o0 demo_submit.
Definition demo_o2 : Owner unit := demo_step demo_o1 CallSchedule.
Definition demo_o3 : Owner unit := demo_step demo_o2 (CallSteer None "a" "m1" "hurry").
Definition demo_o4 : Owner unit := demo_step demo_o3 (CallPersist "a" demo_runner []).
Definition demo_o5 : Owner unit := demo_step demo_o4 (CallSubmit (Some "a") [demo_sub "c" []]).

Lemma demo_reach1 : demo_reach [state demo_o1; state demo_o0] demo_o1.
Proof. apply demo_reach_step, (reach_new _ _ _ _ demo_env). reflexivity. Qed.
Lemma demo_reach2 : demo_reach [state demo_o2; state demo_o1; state demo_o0] demo_o2.
Proof. apply demo_reach_step, demo_reach1. Qed.
Lemma demo_reach3 :
  demo_reach [state demo_o3; state demo_o2; state demo_o1; state demo_o0] demo_o3.
Proof. apply demo_reach_step, demo_reach2. Qed.
Definition demo_history : list (SchedulerCheckpoint unit) :=
  [state demo_o5; state demo_o4; state demo_o3; state demo_o2; state demo_o1; state demo_o0].
Lemma demo_reach5 : demo_reach demo_history demo_o5.
Proof. apply demo_reach_step, demo_reach_step, demo_reach3. Qed.

(** The restart under a narrower policy, and the resume of the parent. *)
Definition demo_o6 : Owner unit :=
  (restore "run" (demo_config ReadOnly) None demo_env "run" (state demo_o5) demo_o0).2.
Definition demo_o7 : Owner unit :=
  (resume_checkpoint (demo_config ReadOnly) None demo_env (state demo_o6) "a" demo_o6).2.

(** A gap in the restart protocol.  A run whose parent task [a] delegated
    [c] is restarted under a narrower host policy; the restore succeeds, and so
    does resuming the parent, which narrows the parent's baseline but not its
    child's.  The checkpoint committed by that resume is then refused by every
    later restore, even under the same narrower policy. *)
Theorem narrowed_restart_rejected :
  demo_reach demo_history demo_o5 ∧
  ∃ o1 o2,
    restore "run" (demo_config ReadOnly) None demo_env "run" (state demo_o5) demo_o0 = (Ok tt, o1) ∧
    resume_checkpoint (demo_config ReadOnly) None demo_env (state o1) "a" o1 = (Ok tt, o2) ∧
    restore "run" (demo_config ReadOnly) None demo_env "run" (state o2) demo_o0
    = (Err (denied "invalid child scope depth or security"), demo_o0).
Proof.
  split; [exact demo_reach5|]. exists demo_o6, demo_o7.
  split_and!; vm_compute; reflexivity.
Qed.

Notation demo_cfg := (demo_config WorkspaceWrite).

(** The record of a task in a demonstration checkpoint. *)
Definition demo_find (id : string) (o : Owner unit) : CheckpointRecord unit :=
  default (mkCheckpointRecord (mkTaskSnapshot "" "" "" Pending [] [] "" None default_usage None 0
      None None "") (demo_sub "" []) (base ReadOnly) 0 None Never None false false [] [] [])
    (find_record id (records (state o))).


Lemma task_history_witness :
  ∃ r', find_record "a" (records (state demo_o5)) = Some r' ∧ moves (demo_find "a" demo_o1) r'.
Proof.
  apply (task_history _ _ _ _ demo_history demo_o5 (state demo_o1) "a" (demo_find "a" demo_o1)
    demo_reach5); [|vm_compute; reflexivity].
  unfold demo_history. do 4 right. left.
Defined.

(** The run goes on under other limits: another concurrency, a smaller budget. *)
Definition other_cfg : SchedulerConfig :=
  mkSchedulerConfig 1 4 2 0 20 (base WorkspaceWrite) {["worker" := base FullAccess]}
    (mkBudgetLimits (Some 90%N) None None None).
Definition other_o0 : Owner unit := mkOwner (new_checkpoint "run" other_cfg) false false ∅.
Definition demo_o8 : Owner unit :=
  (restore "run" other_cfg None demo_env "run" (state demo_o5) other_o0).2.
Lemma reach_life config h (o : Owner unit) :
  reach "run" config (λ s, s) message h o → life "run" (λ s, s) message config h o.
Proof.
  induction 1 as [env o Hnew|h o env obs c ok o' Hr IH Hobs Hex|h o env0 env o0 o' Hr IH Hnew Hres].
  - by eapply life_new.
  - by eapply life_call.
  - eapply life_restart; [done..|]. intros r Hin. apply reach_inv in Hr as [Hi _].
    pose proof (inv_records _ _ _ Hi) as Hall. rewrite Forall_forall in Hall.
    by apply (ok_security _ _ _ (Hall r Hin)).
Qed.
Lemma demo_life8 : life "run" (λ s, s) message other_cfg (state demo_o8 :: demo_history) demo_o8.
Proof.
  eapply (life_restart _ _ _ demo_cfg other_cfg _ demo_o5 demo_env demo_env other_o0);
    [apply reach_life, demo_reach5|reflexivity|vm_compute; reflexivity|].
  assert (records (state demo_o5) = [demo_find "a" demo_o5; demo_find "b" demo_o5; demo_find "c" demo_o5])
    as Hl by (vm_compute; reflexivity).
  intros r. rewrite Hl. intros Hr. repeat (apply elem_of_cons in Hr as [->|Hr]); [..|by inversion Hr];
    vm_compute; reflexivity.
Qed.
Lemma scheduler_invariant_witness :
  inv "run" other_cfg (state demo_o8)
  ∧ ∃ r', find_record "a" (records (state demo_o8)) = Some r' ∧ moves (demo_find "a" demo_o1) r'.
Proof.
  destruct (scheduler_invariant _ _ _ other_cfg _ demo_o8 demo_life8) as [Hi Hh].
  split; [exact Hi|]. apply (Hh (state demo_o1)); [|vm_compute; reflexivity].
  unfold demo_history. do 5 right. left.
Defined.
Lemma restore_accepts_witness :
  ∃ o', restore "run" other_cfg None demo_env "run" (state demo_o8) other_o0 = (Ok tt, o').
Proof.
  destruct (restore_accepts _ _ _ other_cfg _ demo_o8 demo_env demo_env other_o0 demo_life8)
    as (o' & Ho & _); [reflexivity..|]. by exists o'.
Defined.

Lemma dispatch_sound_witness :
  task_status (task (demo_find "a" demo_o2)) = Running ∧
  exhausted (budget (state demo_o1)) (usage (state demo_o1)) = false.
Proof.
  pose proof (dispatch_sound "run" demo_cfg (λ s, s) message
    [state demo_o1; state demo_o0] demo_o1 demo_env (demo_find "a" demo_o2) demo_o2 demo_reach1) as Hd.
  destruct Hd as (_ & H1 & _ & H2 & _); [vm_compute; reflexivity|]. by split.
Defined.

Lemma dispatch_progress_witness :
  ∃ sel o', schedule_one (λ s, s) demo_env demo_o1 = (Ok sel, o') ∧
    queued (records (state o')) < queued (records (state demo_o1)).
Proof.
  apply (dispatch_progress "run" demo_cfg (λ s, s) message [state demo_o1; state demo_o0] demo_o1
    demo_env demo_reach1); [reflexivity| |vm_compute; reflexivity..].
  by intros w [= <-].
Defined.

Lemma no_deadlock_witness :
  has_work (state demo_o2) = false ∧
  ∃ x, x ∈ records (state demo_o2) ∧
    (task_status (task x) = Running ∨ task_status (task x) = Reconciling).
Proof.
  split; [vm_compute; reflexivity|].
  apply (no_deadlock "run" demo_cfg (λ s, s) message
    [state demo_o2; state demo_o1; state demo_o0] demo_o2 (demo_find "b" demo_o2) demo_reach2);
    [vm_compute; reflexivity| |vm_compute; reflexivity].
  apply (find_record_Some "b"). vm_compute. reflexivity.
Defined.

Lemma reserve_within_budget_witness :
  exceeded (budget (state (reserve "a" demo_env (mkBudgetUsage 100 1 1 0) demo_o2).2))
    (usage (state (reserve "a" demo_env (mkBudgetUsage 100 1 1 0) demo_o2).2)) = false.
Proof.
  pose proof (reserve_within_budget "run" demo_cfg (λ s, s) message
    [state demo_o2; state demo_o1; state demo_o0] demo_o2 "a" demo_env (mkBudgetUsage 100 1 1 0)
    demo_reach2) as Hr.
  destruct (reserve "a" demo_env (mkBudgetUsage 100 1 1 0) demo_o2) as [[u|e] o'] eqn:He.
  - destruct Hr as (_ & H & _). exact H.
  - assert ((reserve "a" demo_env (mkBudgetUsage 100 1 1 0) demo_o2).1 = Ok tt) as Hok
      by (vm_compute; reflexivity).
    rewrite He in Hok. discriminate Hok.
Defined.

Lemma steer_exactly_once_witness :
  ∃ r', find_record "a" (records (state demo_o5)) = Some r' ∧
    filter (λ x, msg_id x = "m1") (journal r') = [mkSteeringMessage "m1" "hurry"].
Proof.
  apply (steer_exactly_once "run" demo_cfg (λ s, s) message demo_history demo_o5 (state demo_o3)
    "a" (demo_find "a" demo_o3) (mkSteeringMessage "m1" "hurry") demo_reach5).
  - unfold demo_history. do 2 right. left.
  - vm_compute. reflexivity.
  - vm_compute. left.
Defined.

Lemma finalization_gate_witness :
  ∃ r', find_record "a" (records (state (join_child demo_env "a" (completed "done") 7 demo_o3).2))
          = Some r' ∧ task_status (task r') = Reconciling.
Proof.
  destruct (finalization_gate "run" demo_cfg (λ s, s) message
    [state demo_o3; state demo_o2; state demo_o1; state demo_o0] demo_o3 "a" demo_env
    (demo_find "a" demo_o3) demo_reach3) as [_ Hj]; [vm_compute; reflexivity|].
  destruct (Hj (completed "done") 7%N (join_child demo_env "a" (completed "done") 7 demo_o3).2)
    as (r' & Hr & _ & Hs); [reflexivity|vm_compute; reflexivity..|].
  exists r'. split; [exact Hr|]. rewrite Hs. vm_compute. reflexivity.
Defined.

Lemma delegation_confined_witness :
  find_record "b" (records (state demo_o5)) = Some (demo_find "b" demo_o4).
Proof.
  apply (delegation_confined "run" demo_cfg (λ s, s) message
    [state demo_o4; state demo_o3; state demo_o2; state demo_o1; state demo_o0] demo_o4 demo_env
    (state demo_o4) (CallSubmit (Some "a") [demo_sub "c" []]) "a" true demo_o5 "b").
  - apply demo_reach_step, demo_reach3.
  - left.
  - reflexivity.
  - vm_compute. reflexivity.
  - vm_compute. reflexivity.
  - intros [q Hq]%descends_parent. vm_compute in Hq. discriminate Hq.
Defined.

End demo.
