(* ===== verification/RunTypes.v ===== *)
(** * RunTypes: requests, responses, results and events of a run

    The part of [crates/adk-core/src/types.rs] and [contracts.rs] the agent
    runner works with, the approval markers of
    [crates/adk-codec/src/approval.rs] and the observations of
    [crates/adk-runtime/src/runner.rs].  JSON values are the opaque type
    [Value] of [Core]. *)

From Stdlib Require Import SpecFloat.

From S2P Require Import Prelude Core.

(** Token counters are [u64]. *)
Record Usage := mkUsage {
  input_tokens : N;
  output_tokens : N;
  cache_read_tokens : N;
  cache_creation_tokens : N;
  context_tokens : option N;
}.
#[export] Instance Usage_eq_dec : EqDecision Usage.
Proof. solve_decision. Defined.
Definition no_usage : Usage := mkUsage 0 0 0 0 None.

Inductive RunStatus := RunCompleted | RunPaused | RunIncomplete.
#[export] Instance RunStatus_eq_dec : EqDecision RunStatus.
Proof. solve_decision. Defined.

Inductive ApprovalDecision := Approve | DenyCall | Defer.
#[export] Instance ApprovalDecision_eq_dec : EqDecision ApprovalDecision.
Proof. solve_decision. Defined.

(** [ModelRetryAdvice]; the delay is in nanoseconds. *)
Record ModelRetryAdvice := mkModelRetryAdvice {
  should_retry : bool;
  retry_after : N;
  advice_reason : string;
}.

(** ** [f64]: IEEE binary64 with round to nearest, ties to even *)

Notation f64 := spec_float.
Definition f64_add (x y : f64) : f64 := SFadd 53 1024 x y.
Definition f64_mul (x y : f64) : f64 := SFmul 53 1024 x y.
Definition f64_div (x y : f64) : f64 := SFdiv 53 1024 x y.
Definition f64_ltb (x y : f64) : bool := SFltb x y.
Definition f64_leb (x y : f64) : bool := SFleb x y.
Definition f64_zero : f64 := S754_zero false.
Definition is_finite (x : f64) : bool :=
  match x with S754_zero _ | S754_finite _ _ _ => true | _ => false end.
(** [n as f64] *)
Definition f64_of_N (n : N) : f64 := binary_normalize 53 1024 (Z.of_N n) 0 false.
(** [x.ceil() as u64] and [x as u64]: saturating, NaN to zero. *)
Definition f64_to_u64 (up : bool) (x : f64) : N :=
  match x with
  | S754_zero _ | S754_nan => 0
  | S754_infinity s => if s then 0 else u64_max
  | S754_finite s m e =>
      if s then 0
      else
        let v :=
          if (0 <=? e)%Z then Z.shiftl (Zpos m) e
          else if up then (- Z.shiftr (- Zpos m) (- e))%Z
          else Z.shiftr (Zpos m) (- e) in
        N.min (Z.to_N v) u64_max
  end.

(** ** Approval markers ([adk-codec/src/approval.rs]) *)

Inductive ApprovalPhase := PhasePending | PhaseApproved | PhaseDenied.
#[export] Instance ApprovalPhase_eq_dec : EqDecision ApprovalPhase.
Proof. solve_decision. Defined.

Section run_types.
Context {Value : Type}.

(** [dto::RawJson] *)
Inductive RawJson := Missing | Present (value : Value).

(** [dto::ToolApprovalData] *)
Record ToolApprovalData := mkToolApprovalData {
  approval_tool : string;
  approval_input : RawJson;
  approval_call_id : string;
  approved : bool;
}.

Record ApprovalMarker := mkApprovalMarker {
  marker_data : ToolApprovalData;
  marker_phase : ApprovalPhase;
  marker_agent : option string;
}.

Record ApprovalMarkerBoundary := mkBoundary {
  before_item : nat;
  marker : ApprovalMarker;
}.

(** [sort_by_key(|m| m.before_item)]: stable. *)
Fixpoint insert_boundary (m : ApprovalMarkerBoundary) (l : list ApprovalMarkerBoundary)
    : list ApprovalMarkerBoundary :=
  match l with
  | [] => [m]
  | x :: l' => if (before_item m <=? before_item x) then m :: l else x :: insert_boundary m l'
  end.
Definition sort_boundaries (l : list ApprovalMarkerBoundary) : list ApprovalMarkerBoundary :=
  foldr insert_boundary [] l.

(** [ApprovalMarker::from_call] and [ApprovalMarker::validate]. *)
Definition from_call (call : ToolCall Value) (phase : ApprovalPhase) (agent : option string)
    : ApprovalMarker :=
  mkApprovalMarker
    (mkToolApprovalData (call_name call) (Present (arguments call)) (call_id call)
       (bool_decide (phase = PhaseApproved)))
    phase agent.
Definition validate_marker (m : ApprovalMarker) : result string unit :=
  ensure (bool_decide (approved (marker_data m) = bool_decide (marker_phase m = PhaseApproved)))
    "approval phase contradicts Approved".

Definition approval_call (data : ToolApprovalData) : result string (ToolCall Value) :=
  match approval_input data with
  | Present v => Ok (mkToolCall (approval_call_id data) (approval_tool data) v)
  | Missing => Err "missing approval input is not JSON null"
  end.

(** ** Requests, responses and events *)

Record ModelRequest := mkModelRequest {
  request_model : string;
  instructions : string;
  input : list (RunItem Value);
  request_tools : list ToolDefinition;
  output_schema : option string;
  output_schema_name : string;
  output_schema_strict : bool;
  settings : gmap string Value;
}.

Record ModelResponse := mkModelResponse {
  items : list (RunItem Value);
  response_usage : Usage;
  end_turn : option bool;
  response_id : option string;
  metadata : gmap string Value;
}.

Inductive ModelEvent :=
| TextDelta (delta : string)
| ReasoningDelta (delta : string)
| ToolArgumentsDelta (call_id delta : string)
| ItemDone (item : RunItem Value)
| Complete (response : ModelResponse).

Record RunRequest := mkRunRequest {
  run_input : list (RunItem Value);
  run_policy : RunPolicy;
}.

Record ApprovalRequest := mkApprovalRequest {
  requested_call : ToolCall Value;
  request_reason : string;
}.

Record RunResult := mkRunResult {
  status : RunStatus;
  final_output : option Value;
  new_items : list (RunItem Value);
  history : list (RunItem Value);
  responses : list ModelResponse;
  usage : Usage;
  pending_approvals : list ApprovalRequest;
  last_agent : option string;
}.

Inductive RunEvent :=
| Started (agent : string)
| ModelEmitted (event : ModelEvent)
| ToolStarted (call : ToolCall Value)
| ToolFinished (call_id : string) (output : ToolOutput)
| ApprovalRequired (request : ApprovalRequest)
| Finished (result : RunResult)
| Failed (error : Error).

(** ** Observations ([runner.rs]); delays are in nanoseconds *)
Inductive Observation :=
| ObsTextDelta (delta : string)
| CommittedItems (items : list (RunItem Value)) (agents : list (option string))
    (markers : list ApprovalMarkerBoundary)
| ObsApprovalMarker (agent : option string) (call : ToolCall Value)
    (decision : ApprovalDecision) (reason : option string)
    (new_items_before history_before : nat)
| HistoryReplaced (before after : list (RunItem Value))
| ApprovalHistoryReplaced (before after : list (RunItem Value))
    (markers : list ApprovalMarkerBoundary)
| AgentStarted (agent : string)
| ModelAccepted (agent : string) (response : ModelResponse)
| ObsToolStarted (agent : string) (call : ToolCall Value)
| AgentEnded (agent : string) (output : Value)
| ModelAttempt (agent model : string) (attempt : N)
| Retry (model : string) (delay : N)
| Fallback (from to : string)
| RawToolOutput (call : ToolCall Value) (output : ToolOutput)
| ObsHandoff (from to : string)
| CompactionStarted (context_tokens target_tokens : N)
| CompactionFailed (error : Error)
| Compacted (before_items after_items : nat) (context_tokens : N)
| OutputValidationFailed (message : string)
| ObsUsage (usage : Usage) (cost : f64).
End run_types.
Arguments RawJson : clear implicits.
Arguments ToolApprovalData : clear implicits.
Arguments ApprovalMarker : clear implicits.
Arguments ApprovalMarkerBoundary : clear implicits.
Arguments Observation : clear implicits.
Arguments ModelRequest : clear implicits.
Arguments ModelResponse : clear implicits.
Arguments ModelEvent : clear implicits.
Arguments RunRequest : clear implicits.
Arguments ApprovalRequest : clear implicits.
Arguments RunResult : clear implicits.
Arguments RunEvent : clear implicits.

(** [text]: the text parts of a content, concatenated. *)
Definition text (content : list Content) : string :=
  String.concat "" (omap (λ c, match c with Text t => Some t | _ => None end) content).

(** A message of one text part. *)
Definition text_message (r : Role) (t : string) : Message := mkMessage r [Text t].
Definition error_output (t : string) : ToolOutput := mkToolOutput [Text t] true false.

(** ** Calls and their results ([runner.rs])

    [validate_history_pairs]: the calls still pending after a history. *)
Fixpoint pairs_from {Value} (pending : gset string) (history : list (RunItem Value))
    : result Error (gset string) :=
  match history with
  | [] => Ok pending
  | ItemToolCall call :: history =>
      if bool_decide (call_id call ∈ pending)
      then Err (mkError InvalidInput "duplicate compacted call")
      else pairs_from ({[call_id call]} ∪ pending) history
  | (ItemToolResult id _ | ItemHandoff id _) :: history =>
      if bool_decide (id ∈ pending) then pairs_from (pending ∖ {[id]}) history
      else Err (mkError InvalidInput "orphan compacted tool result")
  | _ :: history => pairs_from pending history
  end.
Definition validate_history_pairs {Value} (history : list (RunItem Value)) : result Error unit :=
  pending ← pairs_from ∅ history;
  ensure (bool_decide (pending = ∅))
    (mkError InvalidInput "compaction left unresolved tool calls").
