(* ===== verification/Approvals.v ===== *)
(** * Approvals: the approval journal of a run

    [ApprovalJournal] of [crates/adk-runtime/src/compat.rs]: one entry per
    approval decision, anchored in the items of the run and, until compaction
    removes its call, in the history.  [journal_observe] is its hook on the
    observations of the runner. *)

From S2P Require Import Prelude Core RunTypes.

Section journal.
Context {Value : Type} `{EqDecision Value}.
Notation Item := (RunItem Value).
Notation Marker := (ApprovalMarker Value).
Notation MarkerBoundary := (ApprovalMarkerBoundary Value).

#[export] Instance ToolCall_eq_dec : EqDecision (ToolCall Value).
Proof. solve_decision. Defined.
#[export] Instance RunItem_eq_dec : EqDecision Item.
Proof. solve_decision. Defined.
#[export] Instance RawJson_eq_dec : EqDecision (RawJson Value).
Proof. solve_decision. Defined.
#[export] Instance ToolApprovalData_eq_dec : EqDecision (ToolApprovalData Value).
Proof. solve_decision. Defined.
#[export] Instance ApprovalMarker_eq_dec : EqDecision Marker.
Proof. solve_decision. Defined.

Record ApprovalJournalEntry := mkEntry {
  entry_marker : Marker;
  new_items_before : nat;
  history_before : option nat;
  entry_reason : option string;
}.
Record Journal := mkJournal {
  entries : list ApprovalJournalEntry;
  history_invalidated : bool;
}.
Definition empty_journal : Journal := mkJournal [] false.

Definition with_history (b : option nat) (e : ApprovalJournalEntry) : ApprovalJournalEntry :=
  mkEntry (entry_marker e) (new_items_before e) b (entry_reason e).

(** [ApprovalJournal::history_markers] *)
Definition history_markers (j : Journal) : result string (list MarkerBoundary) :=
  if history_invalidated j
  then Err "approval history anchors invalidated by history replacement"
  else Ok (sort_boundaries (omap (λ e, (λ b, mkBoundary b (entry_marker e)) <$> history_before e)
             (entries j))).

(** [ApprovalJournal::restore] *)
Definition restore_journal (es : list ApprovalJournalEntry) (history_len new_items_len : nat)
    : result string Journal :=
  _ ← mapR (λ e,
        _ ← validate_marker (entry_marker e);
        ensure (negb (match history_before e with Some n => history_len <? n | None => false end
                      || (new_items_len <? new_items_before e)))
          "approval journal anchor out of range") es;
  Ok (mkJournal es false).

(** The indices of a list at which a predicate holds. *)
Definition positions {A} (p : A → bool) (l : list A) : list nat :=
  omap (λ ia, if p ia.2 then Some ia.1 else None) (imap pair l).

Definition is_message (item : Item) : bool :=
  match item with ItemMessage _ => true | _ => false end.

(** The loop of [rebase_entry] over [before]. *)
Fixpoint correspondence (before_all after : list Item) (old : list (nat * Item))
    (acc : list (nat * nat)) : result string (list (nat * nat)) :=
  match old with
  | [] => Ok acc
  | (old_index, item) :: old =>
      if is_message item then correspondence before_all after old acc
      else
        match positions (λ c, bool_decide (c = item)) after with
        | [] => correspondence before_all after old acc
        | new_index :: more =>
            if negb (bool_decide (more = []))
               || (1 <? length (positions (λ c, bool_decide (c = item)) before_all))
               || match last acc with Some (_, previous) => new_index <=? previous | None => false end
            then Err "ambiguous approval history correspondence"
            else correspondence before_all after old (acc ++ [(old_index, new_index)])
        end
  end.

Definition rebase_entry (e : ApprovalJournalEntry) (before after : list Item)
    : result string ApprovalJournalEntry :=
  match history_before e with
  | None => Ok e
  | Some boundary =>
      if length before <? boundary then Err "cannot rebase a future approval boundary"
      else
        call ← approval_call (marker_data (entry_marker e));
        if negb (existsb (λ item, match item with
                 | ItemToolCall surviving => bool_decide (surviving = call)
                 | ItemToolResult id _ => String.eqb id (call_id call)
                 | _ => false end) after)
        then Ok (with_history None e)
        else
          c ← correspondence before after (imap pair before) [];
          n ← ok_or (match List.find (λ on, boundary <=? on.1) c with
                     | Some (_, new) => Some new
                     | None => (λ on, S on.2) <$> last c
                     end) "no surviving approval boundary anchor";
          Ok (with_history (Some n) e)
  end.

(** The loop over [&mut state.entries]: it stops at the first failure. *)
Fixpoint rebase_entries (es : list ApprovalJournalEntry) (before after : list Item)
    : list ApprovalJournalEntry * bool :=
  match es with
  | [] => ([], false)
  | e :: es =>
      match rebase_entry e before after with
      | Ok e => let '(es, bad) := rebase_entries es before after in (e :: es, bad)
      | Err _ => (e :: es, true)
      end
  end.

(** The loop over the markers of [ApprovalHistoryReplaced]: each takes the first
    unused entry with the same marker. *)
Fixpoint place_marker (m : MarkerBoundary) (index : nat) (used : gset nat)
    (es : list ApprovalJournalEntry) : option (nat * list ApprovalJournalEntry) :=
  match es with
  | [] => None
  | e :: es =>
      if negb (bool_decide (index ∈ used)) && bool_decide (entry_marker e = marker m)
      then Some (index, with_history (Some (before_item m)) e :: es)
      else
        match place_marker m (S index) used es with
        | Some (i, es) => Some (i, e :: es)
        | None => None
        end
  end.
Fixpoint place_markers (ms : list MarkerBoundary) (used : gset nat)
    (es : list ApprovalJournalEntry) : list ApprovalJournalEntry * bool :=
  match ms with
  | [] => (es, true)
  | m :: ms =>
      match place_marker m 0 used es with
      | Some (i, es) => place_markers ms ({[i]} ∪ used) es
      | None => (es, false)
      end
  end.

Definition decision_phase (d : ApprovalDecision) : ApprovalPhase :=
  match d with Defer => PhasePending | Approve => PhaseApproved | DenyCall => PhaseDenied end.

(** [ApprovalJournal::observe] *)
Definition journal_observe (o : Observation Value) (j : Journal) : result Error unit * Journal :=
  match o with
  | ApprovalHistoryReplaced _ _ markers =>
      let '(es, ok) := place_markers markers ∅ (with_history None <$> entries j) in
      if ok then (Ok tt, mkJournal es (history_invalidated j))
      else (Err (mkError Internal "compaction invented an approval marker"), mkJournal es true)
  | ObsApprovalMarker agent call decision reason new_items history =>
      (Ok tt, mkJournal
         (entries j ++ [mkEntry (from_call call (decision_phase decision) agent) new_items
                          (Some history) reason]) (history_invalidated j))
  | HistoryReplaced before after =>
      if bool_decide (before = after) then (Ok tt, j)
      else
        let '(es, bad) := rebase_entries (entries j) before after in
        (Ok tt, mkJournal es (history_invalidated j || bad))
  | _ => (Ok tt, j)
  end.
End journal.
Arguments ApprovalJournalEntry : clear implicits.
Arguments Journal : clear implicits.
