(* ===== verification/Codec.v ===== *)
(** * Codec: wire items, their snapshots, and histories with approval markers

    [crates/adk-codec/src/approval.rs] (the conversions between native run items
    and the Go wire items, and between a native history with its approval
    markers and one ordered list of wire items), the wire types of [dto.rs] it
    uses, and the snapshots of [lib.rs].  JSON itself (serde) is the opaque type
    [Value]; an [AgentRef] is its name. *)

From S2P Require Import Prelude Core RunTypes Approvals.

(** ** Wire types ([dto.rs]) *)

Record ImageAttachment := mkImage {
  image_media_type : string;
  image_data : string;
  image_detail : string;
}.
#[export] Instance ImageAttachment_eq_dec : EqDecision ImageAttachment.
Proof. solve_decision. Defined.

Record MessageOutput := mkMessageOutput {
  message_output_text : string;
  message_phase : string;
  message_images : list ImageAttachment;
}.
#[export] Instance MessageOutput_eq_dec : EqDecision MessageOutput.
Proof. solve_decision. Defined.

Record ToolOutputData := mkToolOutputData {
  output_images : list ImageAttachment;
  output_call_id : string;
  output_text : string;
  output_is_error : bool;
}.
#[export] Instance ToolOutputData_eq_dec : EqDecision ToolOutputData.
Proof. solve_decision. Defined.

(** [HandoffCallData] and [HandoffOutputData] have the same fields. *)
Record HandoffData := mkHandoffData { from_agent : string; to_agent : string }.
#[export] Instance HandoffData_eq_dec : EqDecision HandoffData.
Proof. solve_decision. Defined.

(** [ReasoningData] and [CompactionData] are the fields of [Reasoning] and
    [Compaction]. *)
Notation ReasoningData := Reasoning (only parsing).
Notation CompactionData := Compaction (only parsing).

(** [SnapshotType], and its conversion from the [i64] of a [RunItemType]. *)
Inductive SnapshotType :=
| SnapMessage | SnapToolCall | SnapToolOutput | SnapHandoffCall | SnapHandoffOutput
| SnapReasoning | SnapToolApproval | SnapCompaction | SnapUnknown.
#[export] Instance SnapshotType_eq_dec : EqDecision SnapshotType.
Proof. solve_decision. Defined.
Definition snapshot_type (kind : Z) : SnapshotType :=
  match kind with
  | 0 => SnapMessage | 1 => SnapToolCall | 2 => SnapToolOutput | 3 => SnapHandoffCall
  | 4 => SnapHandoffOutput | 5 => SnapReasoning | 6 => SnapToolApproval | 7 => SnapCompaction
  | _ => SnapUnknown
  end%Z.

Record ReasoningSnapshot := mkReasoningSnapshot {
  snap_reasoning_id : string;
  snap_reasoning_text : string;
  snap_thinking : string;
  snap_signature : string;
  snap_redacted_data : string;
  snap_encrypted_content : string;
}.

Section codec.
Context {Value : Type} `{EqDecision Value}.
Notation Item := (RunItem Value).
Notation Call := (ToolCall Value).
Notation Marker := (ApprovalMarker Value).
Notation MarkerBoundary := (ApprovalMarkerBoundary Value).

Record ToolCallData := mkToolCallData {
  data_id : string;
  data_name : string;
  data_input : RawJson Value;
}.
#[export] Instance ToolCallData_eq_dec : EqDecision ToolCallData.
Proof. solve_decision. Defined.

(** [dto::RunItem] *)
Record WireItem := mkWire {
  wire_kind : Z;
  wire_agent : option string;
  wire_message : option MessageOutput;
  wire_tool_call : option ToolCallData;
  wire_tool_output : option ToolOutputData;
  wire_handoff_call : option HandoffData;
  wire_handoff_output : option HandoffData;
  wire_reasoning : option ReasoningData;
  wire_compaction : option CompactionData;
  wire_tool_approval : option (ToolApprovalData Value);
}.
#[export] Instance WireItem_eq_dec : EqDecision WireItem.
Proof. solve_decision. Defined.
(** [RunItem { agent, ..Default::default() }] *)
Definition default_wire (agent : option string) : WireItem :=
  mkWire 0 agent None None None None None None None None.

(** ** One item ([approval.rs]) *)

Definition encode_content (content : list Content) : result string (string * list ImageAttachment) :=
  let '(text, attachments) := match content with
    | Text t :: rest => (t, rest)
    | _ => ("", content)
    end in
  images ← mapR (λ c, match c with
      | Attachment media_type data detail => Ok (mkImage media_type data detail)
      | _ => Err "wire content requires optional leading text followed by inline attachments"
      end) attachments;
  Ok (text, images).

Definition decode_content (text : string) (images : list ImageAttachment) : list Content :=
  Text text
    :: ((λ i, Attachment (image_media_type i) (image_data i) (image_detail i)) <$> images).

(** [matches!((role, agent.is_some()), (User, false) | (Assistant, true))] *)
Definition provenance_fits (r : Role) (agent : option string) : bool :=
  match r, agent with
  | User, None | Assistant, Some _ => true
  | _, _ => false
  end.
Definition encode_message (m : Message) (phase : string) (agent : option string)
    : result string WireItem :=
  '(text, images) ← encode_content (content m);
  Ok (mkWire 0 agent (Some (mkMessageOutput text phase images)) None None None None None None None).

Definition encode_item (item : Item) (agent : option string) : result string WireItem :=
  match item with
  | ItemMessage m =>
      _ ← ensure (provenance_fits (role m) agent)
            "message role requires matching explicit agent provenance";
      encode_message m "" agent
  | ItemPhasedMessage m phase =>
      _ ← ensure (provenance_fits (role m) agent)
            "message role requires matching explicit agent provenance";
      _ ← ensure (negb (String.eqb phase "")) "empty phase must use an ordinary Message";
      encode_message m phase agent
  | ItemToolCall call =>
      Ok (mkWire 1 agent None
            (Some (mkToolCallData (call_id call) (call_name call) (Present (arguments call))))
            None None None None None None)
  | ItemToolResult id output =>
      _ ← ensure (negb (should_pause output)) "Go ToolOutputData cannot carry should_pause";
      '(text, images) ← encode_content (output_content output);
      Ok (mkWire 2 agent None None (Some (mkToolOutputData images id text (is_error output)))
            None None None None None)
  | ItemReasoning r => Ok (mkWire 5 agent None None None None None (Some r) None None)
  | ItemCompaction c => Ok (mkWire 7 agent None None None None None None (Some c) None)
  | ItemHandoff _ _ => Err "native and Go handoffs have different payloads"
  end.

(** [decode_item] before its check that the item encodes back to the wire. *)
Definition decode_payload (wire : WireItem) : result string Item :=
  match wire_kind wire with
  | 0%Z =>
      m ← ok_or (wire_message wire) "missing Message";
      let native := mkMessage (match wire_agent wire with Some _ => Assistant | None => User end)
                      (decode_content (message_output_text m) (message_images m)) in
      Ok (if String.eqb (message_phase m) "" then ItemMessage native
          else ItemPhasedMessage native (message_phase m))
  | 1%Z =>
      call ← ok_or (wire_tool_call wire) "missing ToolCall";
      match data_input call with
      | Present arguments => Ok (ItemToolCall (mkToolCall (data_id call) (data_name call) arguments))
      | Missing => Err "missing tool input is not JSON null"
      end
  | 2%Z =>
      o ← ok_or (wire_tool_output wire) "missing ToolOutput";
      Ok (ItemToolResult (output_call_id o)
            (mkToolOutput (decode_content (output_text o) (output_images o)) (output_is_error o) false))
  | 5%Z => r ← ok_or (wire_reasoning wire) "missing Reasoning"; Ok (ItemReasoning r)
  | 7%Z => c ← ok_or (wire_compaction wire) "missing Compaction"; Ok (ItemCompaction c)
  | _ => Err "item type has no native bridge; approval markers require decode_history"
  end.
Definition decode_item (wire : WireItem) : result string Item :=
  item ← decode_payload wire;
  again ← encode_item item (wire_agent wire);
  _ ← ensure (bool_decide (again = wire))
        "wire item contains unsupported content or extra payloads";
  Ok item.

(** ** Approval markers and whole histories *)

(** [ApprovalMarker::to_request] and [ApprovalMarker::to_wire] *)
Definition to_request (m : Marker) (reason : string) : result string (ApprovalRequest Value) :=
  _ ← validate_marker m;
  call ← approval_call (marker_data m);
  Ok (mkApprovalRequest call reason).
Definition to_wire (m : Marker) : result string WireItem :=
  _ ← validate_marker m;
  Ok (mkWire 6 (marker_agent m) None None None None None None None (Some (marker_data m))).

Record NativeHistory := mkNative {
  native_items : list Item;
  native_agents : list (option string);
  native_markers : list MarkerBoundary;
}.

(** The boundaries are ordered, inside the history, and their markers valid. *)
Fixpoint check_boundaries (len previous : nat) (markers : list MarkerBoundary)
    : result string unit :=
  match markers with
  | [] => Ok tt
  | m :: markers =>
      _ ← ensure (negb ((before_item m <? previous) || (len <? before_item m)))
            "marker boundaries must be ordered and inside history";
      _ ← validate_marker (marker m);
      check_boundaries len (before_item m) markers
  end.

(** The markers in front of the item at [index], and those that remain. *)
Fixpoint markers_at (index : nat) (markers : list MarkerBoundary)
    : result string (list WireItem * list MarkerBoundary) :=
  match markers with
  | m :: rest =>
      if before_item m =? index then
        w ← to_wire (marker m);
        '(ws, rest) ← markers_at index rest;
        Ok (w :: ws, rest)
      else Ok ([], markers)
  | [] => Ok ([], [])
  end.
Fixpoint encode_from (index : nat) (l : list (Item * option string))
    (markers : list MarkerBoundary) : result string (list WireItem) :=
  match l with
  | [] => mapR (λ m, to_wire (marker m)) markers
  | (item, agent) :: l =>
      '(ws, rest) ← markers_at index markers;
      w ← encode_item item agent;
      more ← encode_from (S index) l rest;
      Ok (ws ++ w :: more)
  end.
Definition encode_history (items : list Item) (agents : list (option string))
    (markers : list MarkerBoundary) : result string (list WireItem) :=
  _ ← ensure (length agents =? length items) "one provenance entry is required per native item";
  _ ← check_boundaries (length items) 0 markers;
  encode_from 0 (zip items agents) markers.

(** The loop of [decode_history]; [index] items were decoded before. *)
Fixpoint decode_from (index : nat) (wire : list WireItem) (phases : list ApprovalPhase)
    : result string NativeHistory :=
  match wire with
  | [] =>
      _ ← ensure (bool_decide (phases = [])) "too many approval phases";
      Ok (mkNative [] [] [])
  | item :: wire =>
      if (wire_kind item =? 6)%Z then
        data ← ok_or (wire_tool_approval item) "missing ToolApproval";
        match phases with
        | [] => Err "missing explicit approval phase"
        | phase :: phases =>
            let m := mkApprovalMarker data phase (wire_agent item) in
            again ← to_wire m;
            _ ← ensure (bool_decide (again = item)) "approval item contains extra payloads";
            h ← decode_from index wire phases;
            Ok (mkNative (native_items h) (native_agents h)
                  (mkBoundary index m :: native_markers h))
        end
      else
        i ← decode_item item;
        h ← decode_from (S index) wire phases;
        Ok (mkNative (i :: native_items h) (wire_agent item :: native_agents h)
              (native_markers h))
  end.
Definition decode_history (wire : list WireItem) (phases : list ApprovalPhase)
    : result string NativeHistory :=
  decode_from 0 wire phases.

(** ** Encoding a journal ([compat.rs]) *)

Record EncodedApprovalHistory := mkEncoded {
  encoded_items : list WireItem;
  encoded_phases : list ApprovalPhase;
  encoded_reasons : list (option string);
}.

(** [entries.sort_by_key(position)]: stable. *)
Fixpoint insert_entry (x : nat * ApprovalJournalEntry Value)
    (l : list (nat * ApprovalJournalEntry Value)) : list (nat * ApprovalJournalEntry Value) :=
  match l with
  | [] => [x]
  | y :: l' => if (x.1 <=? y.1) then x :: l else y :: insert_entry x l'
  end.
Definition sort_entries := foldr insert_entry [].

(** [ApprovalJournal::encode]: the entries with their positions, those removed
    from the history left out of it. *)
Definition positioned (in_history : bool) (es : list (ApprovalJournalEntry Value))
    : list (nat * ApprovalJournalEntry Value) :=
  if in_history then omap (λ e, (λ n, (n, e)) <$> history_before e) es
  else (λ e, (new_items_before e, e)) <$> es.
Definition journal_encode (j : Journal Value) (items : list Item) (agents : list (option string))
    (in_history : bool) : result string EncodedApprovalHistory :=
  if in_history && history_invalidated j
  then Err "approval history anchors invalidated by history replacement"
  else
    let es := sort_entries (positioned in_history (entries j)) in
    wire ← encode_history items agents ((λ ne, mkBoundary ne.1 (entry_marker ne.2)) <$> es);
    Ok (mkEncoded wire ((λ ne, marker_phase (entry_marker ne.2)) <$> es)
          ((λ ne, entry_reason ne.2) <$> es)).
Definition encode_new_items (j : Journal Value) (items : list Item) (agents : list (option string)) :=
  journal_encode j items agents false.
Definition journal_encode_history (j : Journal Value) (items : list Item)
    (agents : list (option string)) :=
  journal_encode j items agents true.

(** ** Snapshots ([lib.rs]) *)

(** [RunItemSnapshot]; the snapshots of calls, compactions and approvals have
    the fields of their data. *)
Record RunItemSnapshot := mkSnapshot {
  snap_kind : SnapshotType;
  snap_agent_name : string;
  snap_message_text : string;
  snap_message_phase : string;
  snap_message_images : list ImageAttachment;
  snap_tool_call : option ToolCallData;
  snap_tool_output : option ToolOutputData;
  snap_handoff_call : option HandoffData;
  snap_handoff_output : option HandoffData;
  snap_reasoning : option ReasoningSnapshot;
  snap_item_reasoning_text : string;
  snap_item_thinking_text : string;
  snap_compaction : option CompactionData;
  snap_tool_approval : option (ToolApprovalData Value);
}.
Definition snapshot_item (item : WireItem) : RunItemSnapshot :=
  let kind := snapshot_type (wire_kind item) in
  let agent := default "" (wire_agent item) in
  let empty := mkSnapshot kind agent "" "" [] None None None None None "" "" None None in
  match kind with
  | SnapMessage =>
      match wire_message item with
      | Some m => mkSnapshot kind agent (message_output_text m) (message_phase m) (message_images m)
                    None None None None None "" "" None None
      | None => empty
      end
  | SnapToolCall =>
      mkSnapshot kind agent "" "" [] (wire_tool_call item) None None None None "" "" None None
  | SnapToolOutput =>
      mkSnapshot kind agent "" "" [] None (wire_tool_output item) None None None "" "" None None
  | SnapHandoffCall =>
      mkSnapshot kind agent "" "" [] None None (wire_handoff_call item) None None "" "" None None
  | SnapHandoffOutput =>
      mkSnapshot kind agent "" "" [] None None None (wire_handoff_output item) None "" "" None None
  | SnapReasoning =>
      match wire_reasoning item with
      | Some r =>
          mkSnapshot kind agent "" "" [] None None None None
            (Some (mkReasoningSnapshot (reasoning_id r) (reasoning_text r) (reasoning_text r)
                     (signature r) (redacted_data r) (encrypted_content r)))
            (reasoning_text r) (reasoning_text r) None None
      | None => empty
      end
  | SnapCompaction =>
      mkSnapshot kind agent "" "" [] None None None None None "" "" (wire_compaction item) None
  | SnapToolApproval =>
      mkSnapshot kind agent "" "" [] None None None None None "" "" None (wire_tool_approval item)
  | SnapUnknown => empty
  end.
Definition snapshot_items (items : list WireItem) : list RunItemSnapshot := snapshot_item <$> items.
End codec.
Arguments ToolCallData : clear implicits.
Arguments WireItem : clear implicits.
Arguments NativeHistory : clear implicits.
Arguments EncodedApprovalHistory : clear implicits.
Arguments RunItemSnapshot : clear implicits.
