(* ===== verification/CodecProps.v ===== *)
(** * CodecProps: what survives the wire

    Encoding is injective up to the leading text every decoded content has, and
    decoding is exactly its inverse, for single items and for whole histories
    with their approval markers. *)

From S2P Require Import Prelude Core RunTypes Approvals Codec.

Section items.
Context {Value : Type} `{EqDecision Value}.
Notation Item := (RunItem Value).

(** The content a wire item can carry: always with a leading text. *)
Definition plain_content (c : list Content) : list Content :=
  match c with Text _ :: _ => c | _ => Text "" :: c end.
Definition plain_message (m : Message) : Message := mkMessage (role m) (plain_content (content m)).
Definition plain (i : Item) : Item :=
  match i with
  | ItemMessage m => ItemMessage (plain_message m)
  | ItemPhasedMessage m phase => ItemPhasedMessage (plain_message m) phase
  | ItemToolResult id o =>
      ItemToolResult id (mkToolOutput (plain_content (output_content o)) (is_error o) (should_pause o))
  | i => i
  end.

Lemma encode_attachments l images :
  mapR (λ c, match c with
    | Attachment media_type data detail => Ok (mkImage media_type data detail)
    | _ => Err "wire content requires optional leading text followed by inline attachments"
    end) l = Ok images →
  (λ i, Attachment (image_media_type i) (image_data i) (image_detail i)) <$> images = l.
Proof.
  intros Hl%mapR_Ok. induction Hl as [|c i l images Hc _ IH]; [done|]. csimpl. rewrite IH.
  by destruct c; simplify_eq.
Qed.
Lemma encode_content_decode c t images :
  encode_content c = Ok (t, images) → decode_content t images = plain_content c.
Proof.
  unfold encode_content, decode_content, plain_content.
  destruct c as [|[]]; intros (images' & Hi%encode_attachments & [= <- <-])%bind_Ok; simpl in *;
    by rewrite Hi.
Qed.
Lemma decode_content_encode t images : encode_content (decode_content t images) = Ok (t, images).
Proof.
  unfold encode_content, decode_content.
  assert (mapR (λ c, match c with
    | Attachment media_type data detail => Ok (mkImage media_type data detail)
    | _ => Err "wire content requires optional leading text followed by inline attachments"
    end) ((λ i, Attachment (image_media_type i) (image_data i) (image_detail i)) <$> images)
    = Ok images) as ->; [|done].
  induction images as [|[] images IH]; [done|]. csimpl. by rewrite IH.
Qed.
Lemma encode_content_plain c t images :
  encode_content c = Ok (t, images) → encode_content (plain_content c) = Ok (t, images).
Proof. intros Hc. by rewrite <-(encode_content_decode _ _ _ Hc), decode_content_encode. Qed.

(** Encoding sees only the plain item. *)
Lemma encode_plain (i : Item) a w : encode_item i a = Ok w → encode_item (plain i) a = Ok w.
Proof.
  destruct i as [m|m p|c|id o|id g|r|c]; simpl; try done; unfold encode_message; intros ?; inv_ok;
    repeat match goal with x : _ * _ |- _ => destruct x end; inv_ok;
    repeat match goal with H : ?b = true |- _ => rewrite H; clear H end; simpl;
    by erewrite encode_content_plain.
Qed.
Lemma encode_agent (i : Item) a w : encode_item i a = Ok w → wire_agent w = a ∧ wire_kind w ≠ 6%Z.
Proof.
  destruct i; simpl; try done; unfold encode_message; intros ?; inv_ok;
    repeat match goal with x : _ * _ |- _ => destruct x end; inv_ok; by simplify_eq/=.
Qed.
Lemma decode_payload_encode (i : Item) a w : encode_item i a = Ok w → decode_payload w = Ok (plain i).
Proof.
  destruct i as [[r c]|[r c] p|c|id o|id g|r|c]; simpl; try done; unfold encode_message; intros ?;
    inv_ok; repeat match goal with x : _ * _ |- _ => destruct x end; inv_ok; simplify_eq/=;
    unfold decode_payload; simpl; try done.
  - destruct r, a; try done; simpl; by erewrite encode_content_decode.
  - destruct (String.eqb p ""); [done|].
    destruct r, a; try done; simpl; by erewrite encode_content_decode.
  - by destruct c.
  - destruct (should_pause o); [done|]. by erewrite encode_content_decode.
Qed.
Lemma decode_encode_item (i : Item) a w : encode_item i a = Ok w → decode_item w = Ok (plain i).
Proof.
  intros Hi. unfold decode_item. rewrite (decode_payload_encode _ _ _ Hi). simpl.
  apply encode_agent in Hi as Ha. destruct Ha as [-> _]. rewrite (encode_plain _ _ _ Hi). simpl.
  by rewrite bool_decide_true.
Qed.
Lemma decode_item_Ok w (i : Item) :
  decode_item w = Ok i → encode_item i (wire_agent w) = Ok w ∧ plain i = i ∧ wire_kind w ≠ 6%Z.
Proof.
  unfold decode_item. intros Hd. inv_ok.
  match goal with H : bool_decide _ = true |- _ => apply bool_decide_eq_true in H as -> end.
  match goal with H : encode_item _ _ = Ok w |- _ => pose proof H as He end.
  split_and!; [done| |by eapply encode_agent].
  apply decode_payload_encode in He. by det.
Qed.
End items.

Section histories.
Context {Value : Type} `{EqDecision Value}.
Notation Item := (RunItem Value).
Notation MarkerBoundary := (ApprovalMarkerBoundary Value).
Notation phases_of := (fmap (λ m : MarkerBoundary, marker_phase (marker m))).

Lemma to_wire_Ok (m : ApprovalMarker Value) w :
  to_wire m = Ok w →
  w = mkWire 6 (marker_agent m) None None None None None None None (Some (marker_data m)).
Proof. unfold to_wire. intros ?. by inv_ok. Qed.
Lemma decode_marker index (m : ApprovalMarker Value) w wire phases h :
  to_wire m = Ok w → decode_from index wire phases = Ok h →
  decode_from index (w :: wire) (marker_phase m :: phases)
  = Ok (mkNative (native_items h) (native_agents h) (mkBoundary index m :: native_markers h)).
Proof.
  intros Hw Hh. pose proof (to_wire_Ok _ _ Hw) as ->. simpl.
  destruct m as [data phase agent]. simpl in *. rewrite Hw. simpl.
  rewrite bool_decide_true by done. simpl. by rewrite Hh.
Qed.

Lemma check_boundaries_from len p q (ms : list MarkerBoundary) :
  check_boundaries len p ms = Ok tt →
  (∀ m, head ms = Some m → q <= before_item m) → check_boundaries len q ms = Ok tt.
Proof.
  destruct ms as [|m ms]; [done|]. simpl. intros Hc Hq. specialize (Hq m eq_refl). inv_ok.
  match goal with H : negb _ = true |- _ =>
    apply negb_true_iff, orb_false_iff in H as [_ H]; rewrite H end.
  replace (before_item m <? q) with false by (symmetry; apply Nat.ltb_ge; lia). simpl.
  by match goal with H : validate_marker _ = Ok _ |- _ => rewrite H end.
Qed.
Lemma check_boundaries_cons len p (m : MarkerBoundary) ms :
  check_boundaries len p (m :: ms) = Ok tt ↔
  p <= before_item m <= len ∧ validate_marker (marker m) = Ok tt
  ∧ check_boundaries len (before_item m) ms = Ok tt.
Proof.
  simpl. rewrite bind_Ok. split.
  - intros ([] & Hb%ensure_Ok & Hc). apply bind_Ok in Hc as ([] & Hv & Hc). split_and!; try done.
    all: apply negb_true_iff, orb_false_iff in Hb as [H1%Nat.ltb_ge H2%Nat.ltb_ge]; lia.
  - intros (Hb & Hv & Hc). exists tt. rewrite Hv. split; [|done]. apply ensure_Ok.
    apply negb_true_iff, orb_false_iff. rewrite !Nat.ltb_ge. lia.
Qed.

(** Encoding the markers in front of an item, and decoding them again. *)
Lemma markers_at_Ok len index (ms : list MarkerBoundary) ws rest :
  check_boundaries len index ms = Ok tt → markers_at index ms = Ok (ws, rest) →
  check_boundaries len (S index) rest = Ok tt ∧
  ∀ wire h, decode_from index wire (phases_of rest) = Ok h → native_markers h = rest →
    decode_from index (ws ++ wire) (phases_of ms)
    = Ok (mkNative (native_items h) (native_agents h) ms).
Proof.
  revert ws. induction ms as [|m ms IH]; intros ws Hc.
  { intros [= <- <-]. split; [done|]. intros wire h Hh Hm. destruct h. by simplify_eq/=. }
  apply check_boundaries_cons in Hc as (Hb & Hv & Hc). simpl.
  destruct (Nat.eqb_spec (before_item m) index) as [He|Hne].
  - intros (w & Hw & ([ws' rest'] & Hws & [= <- <-])%bind_Ok)%bind_Ok. rewrite He in Hc.
    destruct (IH _ Hc Hws) as [Hrest Hdec]. split; [done|]. intros wire h Hh Hm.
    etrans; [exact (decode_marker _ _ _ _ _ _ Hw (Hdec _ _ Hh Hm))|].
    simpl. rewrite <-He. by destruct m.
  - intros [= <- <-]. split.
    + apply check_boundaries_cons. split_and!; try done; lia.
    + intros wire h Hh Hm. etrans; [exact Hh|]. destruct h. by simplify_eq/=.
Qed.

Lemma encode_from_decode len index (l : list (Item * option string)) (ms : list MarkerBoundary) wire :
  encode_from index l ms = Ok wire → check_boundaries len index ms = Ok tt →
  len = index + length l →
  decode_from index wire (phases_of ms) = Ok (mkNative (plain <$> l.*1) (l.*2) ms).
Proof.
  revert index ms wire. induction l as [|[i a] l IH]; intros index ms wire; simpl.
  - intros Hw Hc ->. rewrite Nat.add_0_r in Hc. revert wire Hw.
    assert (check_boundaries index index ms = Ok tt) as Hi by done. revert Hi. clear Hc.
    induction ms as [|m ms IHm]; intros Hc wire; simpl; [by intros [= <-]|].
    apply check_boundaries_cons in Hc as (Hb & Hv & Hc).
    assert (before_item m = index) as He by lia. rewrite He in Hc.
    destruct (to_wire (marker m)) as [w|] eqn:Hw; [|done].
    destruct (mapR _ ms) as [ws|] eqn:Hws; [|done]. intros [= <-].
    etrans; [exact (decode_marker _ _ _ _ _ _ Hw (IHm Hc _ eq_refl))|].
    simpl. rewrite <-He. by destruct m.
  - intros ([ws rest] & Hws & (w & Hw & (more & Hmore & [= <-])%bind_Ok)%bind_Ok)%bind_Ok Hc ->.
    destruct (markers_at_Ok _ _ _ _ _ Hc Hws) as [Hrest Hdec].
    pose proof (decode_encode_item _ _ _ Hw) as Hi. apply encode_agent in Hw as [Ha Hk].
    eapply (Hdec _ (mkNative _ _ rest)); [|done]. cbn [decode_from].
    destruct (Z.eqb_spec (wire_kind w) 6); [done|]. rewrite Hi. simpl.
    rewrite (IH _ _ _ Hmore Hrest) by lia. simpl. by rewrite Ha.
Qed.

(** Decoding gives back what encodes to the wire. *)
Lemma encode_from_marker index (l : list (Item * option string)) (m : MarkerBoundary) ms w wire :
  before_item m = index → to_wire (marker m) = Ok w →
  encode_from index l ms = Ok wire → encode_from index l (m :: ms) = Ok (w :: wire).
Proof.
  intros He Hm Hw. destruct l as [|[i a] l]; simpl in *; [by rewrite Hm, Hw|].
  destruct (Nat.eqb_spec (before_item m) index); [|done]. rewrite Hm. simpl.
  inv_ok. repeat match goal with x : _ * _ |- _ => destruct x end. inv_ok.
  repeat match goal with H : _ = Ok _ |- _ => rewrite H; simpl; clear H end. done.
Qed.
Lemma decode_from_encode index wire phases (h : NativeHistory Value) :
  decode_from index wire phases = Ok h →
  encode_from index (zip (native_items h) (native_agents h)) (native_markers h) = Ok wire
  ∧ check_boundaries (index + length (native_items h)) index (native_markers h) = Ok tt
  ∧ length (native_agents h) = length (native_items h)
  ∧ phases = phases_of (native_markers h) ∧ plain <$> native_items h = native_items h.
Proof.
  revert index phases h. induction wire as [|w wire IH]; intros index phases h; simpl.
  { intros ?. inv_ok. case_bool_decide; [|done]. by simplify_eq. }
  destruct (Z.eqb_spec (wire_kind w) 6) as [Hk|Hk].
  - intros (data & Hdata & Hh)%bind_Ok. destruct phases as [|p phases]; [done|].
    apply bind_Ok in Hh as (again & Hw & ([] & He%ensure_Ok%bool_decide_eq_true & Hh)%bind_Ok).
    apply bind_Ok in Hh as (h1 & (Henc & Hb & Hl & Hp & Hplain)%IH & [= <-]). subst again.
    cbn [native_items native_agents native_markers]. split_and!; try done.
    + by apply encode_from_marker.
    + apply check_boundaries_cons. split_and!; [simpl; lia..| |done].
      by apply bind_Ok in Hw as ([] & Hv & _).
    + by rewrite Hp.
  - intros (i & (Hi & Hpl & _)%decode_item_Ok & Hh)%bind_Ok.
    apply bind_Ok in Hh as (h1 & (Henc & Hb & Hl & Hp & Hplain)%IH & [= <-]).
    destruct h1 as [its ags ms]. cbn [native_items native_agents native_markers length] in *.
    rewrite Nat.add_succ_r. split_and!; try done.
    + cbn [zip zip_with encode_from].
      assert (markers_at index ms = Ok ([], ms)) as ->.
      { destruct ms as [|m ms]; [done|]. apply check_boundaries_cons in Hb as (Hb & _). simpl.
        by destruct (Nat.eqb_spec (before_item m) index); [lia|]. }
      simpl. rewrite Hi. simpl. by rewrite Henc.
    + eapply check_boundaries_from; [done|]. intros m Hm. destruct ms as [|m' ms]; [done|].
      simplify_eq/=. apply (check_boundaries_cons _ _ m ms) in Hb as (Hb & _). lia.
    + by rewrite Hl.
    + csimpl. by rewrite Hpl, Hplain.
Qed.

(** C24: Decoding a history is the inverse of encoding it: a wire list decodes to exactly the
    histories, with their agents and their ordered approval markers, that encode to it, and
    the phases asked for are those of the markers.  The text a wire item always carries comes
    first in the content of a decoded item ([plain]). *)
Theorem history_codec wire phases (h : NativeHistory Value) :
  decode_history wire phases = Ok h ↔
  encode_history (native_items h) (native_agents h) (native_markers h) = Ok wire
  ∧ phases = phases_of (native_markers h)
  ∧ plain <$> native_items h = native_items h.
Proof.
  unfold decode_history, encode_history. split.
  - intros (He & Hb & Hl & Hp & Hplain)%decode_from_encode. split_and!; [|done..].
    rewrite Hl, Nat.eqb_refl. simpl in *. by rewrite Hb.
  - intros (He & -> & Hplain). apply bind_Ok in He as ([] & Hl%ensure_Ok%Nat.eqb_eq & He).
    apply bind_Ok in He as ([] & Hb & He).
    assert (length (zip (native_items h) (native_agents h)) = length (native_items h)) as Hz.
    { rewrite length_zip_with. lia. }
    rewrite (encode_from_decode (length (native_items h)) 0 _ _ _ He Hb); [|lia].
    rewrite fst_zip, snd_zip by lia. rewrite Hplain. by destruct h.
Qed.
End histories.
