(* ===== verification/Compaction.v ===== *)
(** * Compaction: deterministic local history compaction

    [crates/adk-runtime/src/compaction.rs]: token estimates and their
    calibration, the choice of what a compaction removes ([compact_mixed]), and
    the finalization that repairs call and result pairs.  The wording of a
    summary ([summarize], [summarize_terse]), the printing of a JSON value and
    Unicode lower-casing are parameters. *)

From Stdlib Require Import Ascii SpecFloat.
From S2P Require Import Prelude Text Core RunTypes.

Definition SUMMARY_MARKER : string := "[COMPACTED HISTORY SUMMARY]".
Definition CARRY_FORWARD_MARKER : string := "[COMPACTION CARRY-FORWARD]".
Definition DEFAULT_OUTPUT_RESERVE : N := 16384.
Definition REQUEST_SAFETY_BUFFER : N := 8192.

Record LocalCompactionPolicy := mkLocalPolicy {
  enabled : bool;
  trigger_tokens : N;
  target_tokens : N;
  preserve_recent_items : nat;
  preserve_initial_user_messages : nat;
  summary_bullet_limit : nat;
}.
#[export] Instance LocalCompactionPolicy_eq_dec : EqDecision LocalCompactionPolicy.
Proof. solve_decision. Defined.
Definition default_policy : LocalCompactionPolicy := mkLocalPolicy true 180000 100000 12 2 4.
Definition with_limits (trigger target : N) (p : LocalCompactionPolicy) : LocalCompactionPolicy :=
  mkLocalPolicy (enabled p) trigger target (preserve_recent_items p)
    (preserve_initial_user_messages p) (summary_bullet_limit p).

Definition has (part s : string) : bool := contains (bytes part) (bytes s).
Definition begins (p s : string) : bool := starts_with (bytes p) (bytes s).

(** [LocalCompactionPolicy::for_model]; [to_lowercase] is Unicode's. *)
Definition for_model (to_lowercase : string → string) (model : string) : LocalCompactionPolicy :=
  let name := match split_once "/" (bytes (trim model)) with
              | Some (_, name) => of_bytes name
              | None => trim model
              end in
  let model := to_lowercase (trim name) in
  let '(trigger, target) :=
    if existsb (λ part, has part model) ["spark"; "nano"; "mini"; "lite"; "flash"]
    then (110000, 60000)%N
    else if begins "gpt-6" model then (244800, 136000)%N
    else if begins "gpt-5.6" model then (334800, 186000)%N
    else if existsb (λ p, begins p model)
              ["gpt-5.5"; "gpt-5.4"; "gpt-5.3-codex"; "gpt-5.2"; "gpt-5.1"]
    then (360000, 200000)%N
    else if has "fable" model then (900000, 500000)%N
    else (180000, 100000)%N in
  with_limits trigger target default_policy.

(** [LocalCompactionPolicy::normalized] *)
Definition or_default (n d : nat) : nat := if (n =? 0)%nat then d else n.
Definition normalized (self : LocalCompactionPolicy) : LocalCompactionPolicy :=
  let trigger := if (trigger_tokens self =? 0)%N then 180000%N else trigger_tokens self in
  let target :=
    if (target_tokens self =? 0)%N || (trigger <=? target_tokens self)%N
    then N.max (trigger / 2) 1 else target_tokens self in
  mkLocalPolicy (enabled self) trigger target (or_default (preserve_recent_items self) 12)
    (or_default (preserve_initial_user_messages self) 2)
    (or_default (summary_bullet_limit self) 4).

(** ** Calibration of the estimates *)

Definition f64_ratio (m : Z) (e : Z) : f64 := binary_normalize 53 1024 m e false.
Definition f64_half : f64 := f64_ratio 1 (-1).
Definition f64_max_ratio : f64 := f64_ratio 5 (-1).
Definition default_calibration : f64 := f64_of_N 1.
(** [clamp(0.5, 2.5)] *)
Definition clamp_ratio (x : f64) : f64 :=
  if f64_ltb x f64_half then f64_half else if f64_ltb f64_max_ratio x then f64_max_ratio else x.
Definition observe_estimate (self : f64) (actual estimated : N) : f64 :=
  if (0 <? actual)%N && (0 <? estimated)%N
  then clamp_ratio
         (f64_add (f64_mul f64_half self)
            (f64_div (f64_mul f64_half (f64_of_N actual)) (f64_of_N estimated)))
  else self.
Definition apply_calibration (self : f64) (policy : LocalCompactionPolicy)
    : LocalCompactionPolicy :=
  if negb (enabled policy) || SFeqb self (f64_of_N 1) then policy
  else
    let policy := normalized policy in
    let scaled n := N.max (f64_to_u64 false (f64_div (f64_of_N n) self)) 1 in
    with_limits (scaled (trigger_tokens policy)) (scaled (target_tokens policy)) policy.

(** ** Token estimates *)

Definition estimate_string_tokens (text : string) : N :=
  let text := trim text in
  if String.eqb text "" then 0 else (N.of_nat (char_count (bytes text)) / 4 + 1)%N.

(** The text and reasoning parts of a content, joined by newlines. *)
Definition content_text (content : list Content) : string :=
  String.concat (String "010"%char "")
    (omap (λ c, match c with
                | Text t | ContentReasoning t _ => Some t
                | _ => None end) content).

Section compaction.
Context {Value : Type}.
Notation Item := (RunItem Value).
Notation MarkerBoundary := (ApprovalMarkerBoundary Value).
(** [serde_json]: printing a value, and reading an integer from one. *)
Context (to_string : Value → string) (as_u64 : Value → option N).

Inductive HistoryItem :=
| Native (item : Item)
| Approval (marker : ApprovalMarker Value).

(** [mixed_history]: [None] where its assertion fails.  The boundaries are
    taken in a stable order of their positions. *)
Fixpoint mix (index : nat) (items : list Item) (markers : list MarkerBoundary)
    : list HistoryItem :=
  let here := Approval ∘ marker <$> filter (λ m, before_item m = index) markers in
  match items with
  | [] => here
  | item :: items => here ++ Native item :: mix (S index) items markers
  end.
Definition mixed_history (items : list Item) (markers : list MarkerBoundary)
    : option (list HistoryItem) :=
  if forallb (λ m, before_item m <=? length items) markers
  then Some (mix 0 items (sort_boundaries markers)) else None.
(** Without markers the assertion holds. *)
Definition native (items : list Item) : list HistoryItem := Native <$> items.

Fixpoint split_from (n : nat) (l : list HistoryItem) : list Item * list MarkerBoundary :=
  match l with
  | [] => ([], [])
  | Native item :: l => let '(items, ms) := split_from (S n) l in (item :: items, ms)
  | Approval m :: l => let '(items, ms) := split_from n l in (items, mkBoundary n m :: ms)
  end.
Definition split_history : list HistoryItem → list Item * list MarkerBoundary := split_from 0.

Definition message_of (item : HistoryItem) : option Message :=
  match item with
  | Native (ItemMessage m) | Native (ItemPhasedMessage m _) => Some m
  | _ => None
  end.
Definition item_text (item : HistoryItem) : string :=
  match item with
  | Native (ItemMessage m) | Native (ItemPhasedMessage m _) => trim (content_text (content m))
  | Native (ItemReasoning r) => trim (reasoning_text r)
  | Native (ItemCompaction _) => "OpenAI compaction item"
  | _ => ""
  end.

Definition estimate_item (item : HistoryItem) : N :=
  match item with
  | Native (ItemMessage m) | Native (ItemPhasedMessage m _) =>
      estimate_string_tokens (content_text (content m)) + 8
  | Native (ItemToolCall call) =>
      estimate_string_tokens (call_name call)
      + estimate_string_tokens (to_string (arguments call)) + 16
  | Native (ItemToolResult _ output) =>
      estimate_string_tokens (content_text (output_content output)) + 12
  | Native (ItemHandoff _ agent) => estimate_string_tokens agent + 8
  | Native (ItemReasoning r) => estimate_string_tokens (reasoning_text r) + 8
  | Native (ItemCompaction c) =>
      N.min (estimate_string_tokens (compaction_encrypted_content c)) 20000 + 8
  | Approval m =>
      estimate_string_tokens (approval_tool (marker_data m))
      + estimate_string_tokens (match approval_input (marker_data m) with
                                | Missing => "" | Present v => to_string v end) + 8
  end.
Definition estimate_mixed_tokens (items : list HistoryItem) : N :=
  foldr (λ i n, (estimate_item i + n)%N) 0%N items.
Definition estimate_history_tokens (items : list Item) : N :=
  estimate_mixed_tokens (native items).
Definition estimate_history_tokens_with_approvals (items : list Item)
    (markers : list MarkerBoundary) : option N :=
  estimate_mixed_tokens <$> mixed_history items markers.

Definition setting (request : ModelRequest Value) (name : string) : N :=
  default 0%N (settings request !! name ≫= as_u64).
Definition output_reserve_tokens (request : ModelRequest Value) : N :=
  let max := setting request "max_tokens" in
  N.max (if (max =? 0)%N then DEFAULT_OUTPUT_RESERVE else max) (setting request "thinking_budget").
Definition estimate_tool (t : ToolDefinition) : N :=
  estimate_string_tokens (tool_name t) + estimate_string_tokens (description t)
  + estimate_string_tokens (input_schema t) + 32.
Definition estimate_request_overhead_tokens (request : ModelRequest Value) : N :=
  estimate_string_tokens (instructions request) + 8
  + foldr (λ t n, (estimate_tool t + n)%N) 0%N (request_tools request)
  + output_reserve_tokens request + REQUEST_SAFETY_BUFFER.

(** ** What a compaction keeps *)

Definition is_text (c : Content) : bool := match c with Text _ => true | _ => false end.
Definition is_role (r : Role) (item : HistoryItem) : bool :=
  is_some_and (message_of item) (λ m, bool_decide (role m = r)).
Definition must_preserve (item : HistoryItem) : bool :=
  match item with
  | Native (ItemMessage m) | Native (ItemPhasedMessage m _) =>
      bool_decide (role m = System) || bool_decide (role m = Developer)
      || existsb (λ c, negb (is_text c)) (content m)
  | Native (ItemToolResult _ output) => existsb (λ c, negb (is_text c)) (output_content output)
  | Native (ItemHandoff _ _) => true
  | Native (ItemCompaction c) => negb (String.eqb (trim (compaction_encrypted_content c)) "")
  | _ => false
  end.
Definition is_initial_user (item : HistoryItem) : bool :=
  is_role User item
  && negb (String.eqb (item_text item) "")
  && negb (existsb (λ p, begins p (item_text item))
             ["[SYSTEM]"; "[PHASE TRANSITION"; CARRY_FORWARD_MARKER]).

(** The indices of the prefix: [n] initial user messages are still wanted. *)
Fixpoint preserved_prefix (index n : nat) (items : list HistoryItem) : gset nat :=
  match items with
  | [] => ∅
  | item :: items =>
      let initial := (0 <? n) && is_initial_user item in
      (if must_preserve item || initial then {[index]} else ∅)
      ∪ preserved_prefix (S index) (if initial then pred n else n) items
  end.

(** The last index of each call and of each result, as the maps hold them. *)
Definition call_of (item : HistoryItem) : option string :=
  match item with
  | Native (ItemToolCall call) => if String.eqb (call_id call) "" then None else Some (call_id call)
  | _ => None
  end.
Definition output_of (item : HistoryItem) : option string :=
  match item with
  | Native (ItemToolResult id _) => if String.eqb id "" then None else Some id
  | _ => None
  end.
Fixpoint index_by (key : HistoryItem → option string) (index : nat) (items : list HistoryItem)
    (m : gmap string nat) : gmap string nat :=
  match items with
  | [] => m
  | item :: items =>
      index_by key (S index) items
        (match key item with Some id => <[id := index]> m | None => m end)
  end.
Definition protect_pairs (items : list HistoryItem) (protected : gset nat) : gset nat :=
  let calls := index_by call_of 0 items ∅ in
  let outputs := index_by output_of 0 items ∅ in
  let partner (i : nat) : option nat :=
    match items !! i with
    | Some (Native (ItemToolCall call)) => outputs !! call_id call
    | Some (Native (ItemToolResult id _)) => calls !! id
    | _ => None
    end in
  let extras := omap partner (elements protected) in
  protected ∪ list_to_set extras.

Definition summary_item (text : string) : HistoryItem :=
  Native (ItemMessage (text_message Assistant text)).
(** [(0..items.len()).find(p)] *)
Definition first_index (p : nat → bool) (n : nat) : option nat := List.find p (seq 0 n).
Fixpoint rebuild_from (protected : gset nat) (defer : option nat) (summary : string)
    (index : nat) (inserted : bool) (items : list HistoryItem) : list HistoryItem :=
  match items with
  | [] => []
  | item :: items =>
      if bool_decide (index ∈ protected) then
        if bool_decide (defer = Some index) && negb inserted
        then item :: summary_item summary
               :: rebuild_from protected defer summary (S index) true items
        else item :: rebuild_from protected defer summary (S index) inserted items
      else if negb inserted && is_none_or defer (λ d, d <? index)
      then summary_item summary :: rebuild_from protected defer summary (S index) true items
      else rebuild_from protected defer summary (S index) inserted items
  end.
Definition rebuild (items : list HistoryItem) (protected : gset nat) (summary : string)
    : list HistoryItem :=
  let first_removed := first_index (λ i, negb (bool_decide (i ∈ protected))) (length items) in
  let first_protected := first_index (λ i, bool_decide (i ∈ protected)) (length items) in
  let defer :=
    match first_protected with
    | Some p =>
        if is_some_and first_removed (λ r, r <? p) && is_some_and (items !! p) (is_role User)
        then Some p else None
    | None => None
    end in
  rebuild_from protected defer summary 0 false items.

(** ** [compact_mixed] *)

Record LocalCompactionOutcome := mkOutcome {
  outcome_history : list Item;
  outcome_markers : list MarkerBoundary;
  before_tokens : N;
  after_tokens : N;
  changed : bool;
  reason : string;
}.

(** The wording of summaries, given the bullet limit. *)
Context (summarize summarize_terse : list HistoryItem → nat → string).

Definition unchanged (items : list HistoryItem) (tokens : N) (reason : string)
    : LocalCompactionOutcome :=
  let '(history, markers) := split_history items in
  mkOutcome history markers tokens tokens false reason.

Definition removed_items (items : list HistoryItem) (protected : gset nat) : list HistoryItem :=
  omap (λ ia, if bool_decide (ia.1 ∈ protected) then None else Some ia.2) (imap pair items).

(** The history of one candidate, from the most to the least verbose summary. *)
Definition candidate (items : list HistoryItem) (protected : gset nat) (limit : nat)
    (target : N) : list HistoryItem :=
  let removed := removed_items items protected in
  let summary := summarize removed limit in
  let summary :=
    if (estimate_mixed_tokens removed <=? estimate_string_tokens summary + 8)%N
    then summarize_terse removed limit else summary in
  let history := rebuild items protected summary in
  if (target <? estimate_mixed_tokens history)%N then
    let history := rebuild items protected (summarize_terse removed limit) in
    if (target <? estimate_mixed_tokens history)%N
    then rebuild items protected
           (SUMMARY_MARKER +:+ String "010"%char "Earlier context compacted.")
    else history
  else history.

(** The loop over the number of recent items, downwards from [recent]. *)
Fixpoint candidates (items : list HistoryItem) (prefix : gset nat) (limit : nat)
    (target before overhead : N) (recent : nat) (best : option LocalCompactionOutcome)
    (reason : string) : LocalCompactionOutcome :=
  match recent with
  | O => match best with Some b => b | None => unchanged items before reason end
  | S fewer =>
      let protected := protect_pairs items
        (prefix ∪ list_to_set (seq (length items - recent) (Nat.min recent (length items)))) in
      if bool_decide (removed_items items protected = [])
      then candidates items prefix limit target before overhead fewer best reason
      else
        let history := candidate items protected limit target in
        let after := estimate_mixed_tokens history in
        if (before - overhead <=? after)%N then
          candidates items prefix limit target before overhead fewer best
            (if String.eqb reason "no-removable-history" then "ineffective-summary" else reason)
        else
          let '(items', markers) := split_history history in
          let outcome := mkOutcome items' markers before (after + overhead) true "" in
          let best := match best with
            | Some b => if (after_tokens outcome <? after_tokens b)%N then outcome else b
            | None => outcome
            end in
          if (after <=? target)%N then best
          else candidates items prefix limit target before overhead fewer (Some best) reason
  end.

(** [overhead] is an [i64]. *)
Definition compact_mixed (items : list HistoryItem) (policy : LocalCompactionPolicy)
    (overhead : Z) : LocalCompactionOutcome :=
  let policy := normalized policy in
  if negb (enabled policy) || bool_decide (items = []) then unchanged items 0 "disabled"
  else
    let overhead := Z.to_N (Z.max overhead 0) in
    let before := (estimate_mixed_tokens items + overhead)%N in
    if (before <=? trigger_tokens policy)%N then unchanged items before "below-threshold"
    else
      let adjusted := normalized
        (with_limits (N.max (saturating_sub (trigger_tokens policy) overhead) 1)
           (N.max (saturating_sub (target_tokens policy) overhead) 1) policy) in
      if (estimate_mixed_tokens items <=? trigger_tokens adjusted)%N
      then unchanged items before "below-threshold"
      else
        let prefix :=
          preserved_prefix 0 (preserve_initial_user_messages adjusted) items in
        candidates items prefix (summary_bullet_limit adjusted) (target_tokens adjusted)
          before overhead
          (Nat.max (Nat.min (preserve_recent_items adjusted) (length items)) 1)
          None "no-removable-history".

(** [compact_with_approvals]: [None] where [mixed_history] panics. *)
Definition compact_with_approvals (items : list Item) (markers : list MarkerBoundary)
    (policy : LocalCompactionPolicy) (overhead : Z) : option LocalCompactionOutcome :=
  mixed ← mixed_history items markers;
  Some (compact_mixed mixed policy overhead).

(** ** Finalization ([finalize_mixed_history]) *)

Definition carry_forward (item : HistoryItem) : bool :=
  bool_decide (is_Some (message_of item)) && begins CARRY_FORWARD_MARKER (item_text item).
(** A map from identifiers to the last item with each. *)
Definition last_by (key : HistoryItem → option string) (items : list HistoryItem)
    : gmap string HistoryItem :=
  foldl (λ m item, match key item with Some id => <[id := item]> m | None => m end) ∅ items.
Definition approval_of (item : HistoryItem) : option string :=
  match item with Approval m => Some (approval_call_id (marker_data m)) | _ => None end.
(** [rposition] of a tool result. *)
Definition is_output (item : HistoryItem) : bool :=
  match item with Native (ItemToolResult _ _) => true | _ => false end.
Fixpoint last_position (p : HistoryItem → bool) (index : nat) (items : list HistoryItem)
    (found : option nat) : option nat :=
  match items with
  | [] => found
  | item :: items => last_position p (S index) items (if p item then Some index else found)
  end.

(** The references the loop consults: the last call and the last result of each
    identifier in either history, the results of the compacted history, the
    approvals, and the position of the last result. *)
Record References := mkReferences {
  ref_calls : gmap string HistoryItem;
  ref_outputs : gmap string HistoryItem;
  current_outputs : gset string;
  marked_approvals : gset string;
  last_output : option nat;
}.
Definition references (items previous : list HistoryItem) : References :=
  mkReferences (last_by call_of (previous ++ items)) (last_by output_of (previous ++ items))
    (list_to_set (omap output_of items))
    (list_to_set (omap approval_of (previous ++ items)))
    (last_position is_output 0 items None).

(** The loop; [calls] and [outputs] are the identifiers already emitted. *)
Fixpoint finalize_from (refs : References) (index : nat) (items : list HistoryItem)
    (calls outputs : gset string) : list HistoryItem :=
  match items with
  | [] => []
  | (Native (ItemToolCall call) as item) :: items =>
      let id := call_id call in
      let absent := negb (bool_decide (id ∈ current_outputs refs)) in
      if String.eqb id "" || bool_decide (id ∈ calls)
      then finalize_from refs (S index) items calls outputs
      else if absent && negb (bool_decide (is_Some (ref_outputs refs !! id)))
              && negb (bool_decide (id ∈ marked_approvals refs))
              && is_some_and (last_output refs) (λ last, index <=? last)
      then finalize_from refs (S index) items calls outputs
      else
        match (if absent then ref_outputs refs !! id else None) with
        | Some output =>
            item :: output
              :: finalize_from refs (S index) items ({[id]} ∪ calls) ({[id]} ∪ outputs)
        | None => item :: finalize_from refs (S index) items ({[id]} ∪ calls) outputs
        end
  | (Native (ItemToolResult id _) as item) :: items =>
      if String.eqb id "" || bool_decide (id ∈ outputs)
      then finalize_from refs (S index) items calls outputs
      else if bool_decide (id ∈ calls)
      then item :: finalize_from refs (S index) items calls ({[id]} ∪ outputs)
      else
        match ref_calls refs !! id with
        | Some call =>
            call :: item
              :: finalize_from refs (S index) items ({[id]} ∪ calls) ({[id]} ∪ outputs)
        | None => finalize_from refs (S index) items calls outputs
        end
  | item :: items => item :: finalize_from refs (S index) items calls outputs
  end.
Definition finalize_mixed_history (compacted previous : list HistoryItem) : list HistoryItem :=
  let items := List.filter (λ item, negb (carry_forward item)) compacted in
  finalize_from (references items previous) 0 items ∅ ∅.
Definition finalize_local_history_with_approvals (compacted : list Item)
    (markers : list MarkerBoundary) (previous : list Item) (previous_markers : list MarkerBoundary)
    : option (list Item * list MarkerBoundary) :=
  compacted ← mixed_history compacted markers;
  previous ← mixed_history previous previous_markers;
  Some (split_history (finalize_mixed_history compacted previous)).
End compaction.
Arguments HistoryItem : clear implicits.
Arguments LocalCompactionOutcome : clear implicits.
