(* ===== verification/Runner.v ===== *)
(** * Runner: the agent engine

    [crates/adk-runtime/src/runner.rs]: the loop that alternates model turns
    and tool phases ([advance]), with its budgets, retries and fallbacks,
    approvals, handoffs, parallel batches, compaction and continuations.

    Everything the engine calls is in the record [Outside]: the context's clock
    and cancellation, the host, hooks, stores, models, tools, and the session
    and control of a child run.  Each such operation is a function on a world
    [W]; the race that [bounded] adds after its first check of the context is
    the operation's own: it may answer with the error of the cancellation, of
    the deadline or of the timeout.  [trace] is a ghost record of what was asked
    of the outside.  An agent is known by its address, as the code's keys are. *)

From Stdlib Require Import SpecFloat Ascii.
From stdpp Require Import pretty.
From S2P Require Import Prelude Text Durable Core SecurityPolicy Subagent.
From S2P Require Import RunTypes Approvals Compaction.

(** An error and whether its source is [OperationTimeout]. *)
Record Failure := mkFailure { info : Error; idle : bool }.
Definition failure (c : ErrorCategory) (m : string) : Failure := mkFailure (mkError c m) false.
Definition of_error (e : Error) : Failure := mkFailure e false.

Inductive Phase := Start | ModelPhase | Tools | Finalize | Finish.
#[export] Instance Phase_eq_dec : EqDecision Phase.
Proof. solve_decision. Defined.

Inductive Boundary :=
| BStarted | ModelPrepared | ModelCompleted | ModelDispatched | ToolPrepared | ToolCompleted
| ToolDispatched | ApprovalPending | BHandoff | BPaused | BCompleted.
#[export] Instance Boundary_eq_dec : EqDecision Boundary.
Proof. solve_decision. Defined.

Inductive ModelErrorAction := ActionRetry | ActionContinue | ActionAbort.

(** ** Agents *)

Record ModelBinding := mkBinding {
  binding_name : string;
  binding_streams : bool;
  binding_model : N;
}.
Record Tool := mkTool {
  definition : ToolDefinition;
  tool_timeout : option N;
  is_control_flow : bool;
  preserve_result_on_timeout : bool;
  tool_implementation : N;
}.
Record Handoff := mkHandoff { handoff_definition : ToolDefinition; target : N }.

Record RetryPolicy := mkRetryPolicy {
  max_retries : N;
  initial_delay : N;
  max_delay : N;
  retryable : Error → bool;
}.
Record Limits := mkLimits { max_tokens : option N; max_cost : option f64 }.

Section runner.
Context {Value W : Type} `{EqDecision Value}.
Notation Item := (RunItem Value).
Notation Call := (ToolCall Value).

Record AgentConfig := mkAgentConfig {
  agent_name : string;
  agent_instructions : string;
  agent_model : ModelBinding;
  fallback_models : list ModelBinding;
  agent_tools : list Tool;
  handoffs : list Handoff;
  agent_schema : option string;
  agent_schema_name : string;
  agent_schema_strict : bool;
  output_parser : option (string → result Error Value);
  agent_settings : gmap string Value;
  agent_hooks : bool;
}.

Record RunnerConfig := mkRunnerConfig {
  work_dir : string;
  retry : RetryPolicy;
  error_handler : option (string → N → Error → ModelErrorAction);
  limits : Limits;
  cost_estimator : option (string → Usage → f64);
  cache_prefix : string;
  prompt_cache_key : option string;
  prompt_cache_namespace : option string;
  return_tool_output : bool;
  validate_tool_arguments : bool;
  approve_mutating_tools : bool;
  consecutive_tool_error_limit : option N;
  stop_gate : bool;
  stop_gate_max_blocks : N;
  turn_context : bool;
  subagents : bool;
  transient_context : list Item;
  hooks : bool;
  durable_hook : bool;
  compaction : option (N * N);
  local_compaction : LocalCompactionPolicy;
}.

(** ** The engine's own state *)

Record Engine := mkEngine {
  agent : N;
  policy : RunPolicy;
  phase : Phase;
  calls : list Call;
  approvals : gmap string ApprovalDecision;
  denial_reasons : gmap string string;
  deferred_calls : list Call;
  pending_marker_events : list (Observation Value);
  approval_journal : Journal Value;
  tools_prepared : bool;
  tool_turn_start : option nat;
  consecutive_tool_errors : N;
  tool_error_escalated : bool;
  stop_gate_blocks : N;
  engine_turns : N;
  committed_cursor : nat;
  committed_markers : nat;
  calibration : f64;
  fallbacks : gmap N (nat * N);
  engine_cost : f64;
  tool_pause : bool;
  tool_final : option string;
  streaming : bool;
  sender : bool;
  spills : list string;
  applied_child_messages : gset string;
  run_result : RunResult Value;
}.

(** The setter of a field: the record rebuilt from its projections, with one of
    them replaced. *)
Definition eta_engine (e : Engine) : Engine :=
  mkEngine (agent e) (policy e) (phase e) (calls e) (approvals e) (denial_reasons e)
    (deferred_calls e) (pending_marker_events e) (approval_journal e) (tools_prepared e)
    (tool_turn_start e) (consecutive_tool_errors e) (tool_error_escalated e)
    (stop_gate_blocks e) (engine_turns e) (committed_cursor e) (committed_markers e)
    (calibration e) (fallbacks e) (engine_cost e) (tool_pause e) (tool_final e) (streaming e)
    (sender e) (spills e) (applied_child_messages e) (run_result e).
Ltac set_field eta proj :=
  let body := eval cbv delta [eta] in eta in
  let s := match eval pattern proj in body with ?s _ => s end in
  let t := eval cbv beta in (λ x, s (λ _, x)) in
  exact t.
Definition set_agent : N → Engine → Engine :=
  ltac:(set_field eta_engine agent).
Definition set_policy : RunPolicy → Engine → Engine :=
  ltac:(set_field eta_engine policy).
Definition set_phase : Phase → Engine → Engine :=
  ltac:(set_field eta_engine phase).
Definition set_calls : list Call → Engine → Engine :=
  ltac:(set_field eta_engine calls).
Definition set_approvals : gmap string ApprovalDecision → Engine → Engine :=
  ltac:(set_field eta_engine approvals).
Definition set_denial_reasons : gmap string string → Engine → Engine :=
  ltac:(set_field eta_engine denial_reasons).
Definition set_deferred_calls : list Call → Engine → Engine :=
  ltac:(set_field eta_engine deferred_calls).
Definition set_pending_marker_events : list (Observation Value) → Engine → Engine :=
  ltac:(set_field eta_engine pending_marker_events).
Definition set_approval_journal : Journal Value → Engine → Engine :=
  ltac:(set_field eta_engine approval_journal).
Definition set_tools_prepared : bool → Engine → Engine :=
  ltac:(set_field eta_engine tools_prepared).
Definition set_tool_turn_start : option nat → Engine → Engine :=
  ltac:(set_field eta_engine tool_turn_start).
Definition set_consecutive_tool_errors : N → Engine → Engine :=
  ltac:(set_field eta_engine consecutive_tool_errors).
Definition set_tool_error_escalated : bool → Engine → Engine :=
  ltac:(set_field eta_engine tool_error_escalated).
Definition set_stop_gate_blocks : N → Engine → Engine :=
  ltac:(set_field eta_engine stop_gate_blocks).
Definition set_engine_turns : N → Engine → Engine :=
  ltac:(set_field eta_engine engine_turns).
Definition set_committed_cursor : nat → Engine → Engine :=
  ltac:(set_field eta_engine committed_cursor).
Definition set_committed_markers : nat → Engine → Engine :=
  ltac:(set_field eta_engine committed_markers).
Definition set_calibration : f64 → Engine → Engine :=
  ltac:(set_field eta_engine calibration).
Definition set_fallbacks : gmap N (nat * N) → Engine → Engine :=
  ltac:(set_field eta_engine fallbacks).
Definition set_engine_cost : f64 → Engine → Engine :=
  ltac:(set_field eta_engine engine_cost).
Definition set_tool_pause : bool → Engine → Engine :=
  ltac:(set_field eta_engine tool_pause).
Definition set_tool_final : option string → Engine → Engine :=
  ltac:(set_field eta_engine tool_final).
Definition set_streaming : bool → Engine → Engine :=
  ltac:(set_field eta_engine streaming).
Definition set_sender : bool → Engine → Engine :=
  ltac:(set_field eta_engine sender).
Definition set_spills : list string → Engine → Engine :=
  ltac:(set_field eta_engine spills).
Definition set_applied_child_messages : gset string → Engine → Engine :=
  ltac:(set_field eta_engine applied_child_messages).
Definition set_run_result : RunResult Value → Engine → Engine :=
  ltac:(set_field eta_engine run_result).

(** The fields of [result], set through the engine. *)
Definition set_status (x : RunStatus) (e : Engine) : Engine :=
  let r := run_result e in
  set_run_result (mkRunResult x (final_output r) (new_items r) (history r) (responses r) (usage r) (pending_approvals r) (last_agent r)) e.
Definition set_final_output (x : option Value) (e : Engine) : Engine :=
  let r := run_result e in
  set_run_result (mkRunResult (status r) x (new_items r) (history r) (responses r) (usage r) (pending_approvals r) (last_agent r)) e.
Definition set_new_items (x : list Item) (e : Engine) : Engine :=
  let r := run_result e in
  set_run_result (mkRunResult (status r) (final_output r) x (history r) (responses r) (usage r) (pending_approvals r) (last_agent r)) e.
Definition set_history (x : list Item) (e : Engine) : Engine :=
  let r := run_result e in
  set_run_result (mkRunResult (status r) (final_output r) (new_items r) x (responses r) (usage r) (pending_approvals r) (last_agent r)) e.
Definition set_responses (x : list (ModelResponse Value)) (e : Engine) : Engine :=
  let r := run_result e in
  set_run_result (mkRunResult (status r) (final_output r) (new_items r) (history r) x (usage r) (pending_approvals r) (last_agent r)) e.
Definition set_usage (x : Usage) (e : Engine) : Engine :=
  let r := run_result e in
  set_run_result (mkRunResult (status r) (final_output r) (new_items r) (history r) (responses r) x (pending_approvals r) (last_agent r)) e.
Definition set_pending_approvals (x : list (ApprovalRequest Value)) (e : Engine) : Engine :=
  let r := run_result e in
  set_run_result (mkRunResult (status r) (final_output r) (new_items r) (history r) (responses r) (usage r) x (last_agent r)) e.
Definition set_last_agent (x : option string) (e : Engine) : Engine :=
  let r := run_result e in
  set_run_result (mkRunResult (status r) (final_output r) (new_items r) (history r) (responses r) (usage r) (pending_approvals r) x) e.

(** ** The outside *)

Notation Ext A := (W → result Failure A * W).

Record CompactionRequest := mkCompactionRequest {
  compacted_agent : string;
  compacted_model : string;
  compacted_history : list Item;
  request_context_tokens : N;
  request_target_tokens : N;
}.
Record CompactedHistory := mkCompactedHistory {
  new_history : list Item;
  new_context_tokens : N;
  compaction_usage : Usage;
  compaction_cost : f64;
}.
Record ToolContext := mkToolContext {
  operation_deadline : option N;
  context_work_dir : string;
  context_policy : ToolPolicy;
  idempotency_key : option string;
}.
Record ProcessedOutput := mkProcessedOutput {
  output : ToolOutput;
  item_output : ToolOutput;
  spill : option string;
}.
(** [ModelStream::next], for streams that end after finitely many events. *)
Inductive ModelStream :=
| mkStream (next : W → result Failure (option (ModelEvent Value * ModelStream)) * W).

Record Outside := mkOutside {
  (* the context *)
  context_run_id : string;
  deadline : option N;
  clock : W → N;
  cancelled : W → bool;
  instant_add : N → N → option N;
  (* the host, its event channel and hooks *)
  host_emit : RunEvent Value → Ext unit;
  send : RunEvent Value → Ext unit;
  approve : ApprovalRequest Value → Ext ApprovalDecision;
  gate_approve : ApprovalRequest Value → Ext (bool * string);
  hook_observe : option N → Observation Value → Ext unit;
  hook_checkpoint : Boundary → RunResult Value → option Call → Ext unit;
  turn_hints : RunResult Value → N → Ext (list Item);
  check_gate : Value → Ext (option string);
  (* durable state *)
  persist_boundary : Engine → Boundary → option Call → Ext unit;
  effect_key : W → option string;
  (* models *)
  complete : ModelBinding → ModelRequest Value → Ext (ModelResponse Value);
  stream : ModelBinding → ModelRequest Value → Ext ModelStream;
  retry_advice : ModelBinding → Error → option ModelRetryAdvice;
  compact_history : CompactionRequest → Ext CompactedHistory;
  sleep : N → Ext unit;
  (* tools; [pick n w] is the next of [n] waiting calls of a batch to run *)
  for_access : Tool → AccessMode → option Tool;
  execute : Tool → ToolContext → Call → Ext ToolOutput;
  process_output : ToolOutput → bool → Ext ProcessedOutput;
  pick : nat → W → nat;
  (* the session and the control of a child *)
  commit_delivery : Ext unit;
  session_collect : Ext (list Item);
  session_join : Ext (list Item);
  session_update_parent : list Item → W → W;
  control_usage : W → BudgetUsage;
  control_charge : BudgetUsage → Ext unit;
  control_reserve : BudgetUsage → Ext unit;
  control_take : Ext (list SteeringMessage);
  control_finish_or_take : Ext (list SteeringMessage);
  control_acknowledge : list string → Ext unit;
  control_tool_start : string → string → string → Ext unit;
  control_tool_end : string → string → string → bool → N → Ext unit;
  (* [wait_for_messages] against the attempt: whether a message came first *)
  control_wait : Ext bool;
  (* JSON, schemas, hashing, Unicode *)
  json_string : string → Value;
  parse_json : string → result string Value;
  json_str_field : Value → string → option string;
  compile_schema : string → result Error (Value → bool);
  sha256_hex : string → string → string;
  to_string : Value → string;
  as_u64 : Value → option N;
  to_lowercase : string → string;
  debug : string → string;
  summarize : list (HistoryItem Value) → nat → string;
  summarize_terse : list (HistoryItem Value) → nat → string;
}.

(** What an engine is given and never changes; [durable] and [child] are
    [durable_state.is_some()] and [child_control.is_some()]. *)
Class Setup := mkSetup {
  agents : N → AgentConfig;
  config : RunnerConfig;
  out : Outside;
  base_turn_limit : N;
  durable : bool;
  child : bool;
}.
Context {setup : Setup}.

(** What was asked of the outside. *)
Inductive Action :=
| Resumed (id : string) (decision : ApprovalDecision)
| Asked (call : Call) (answer : ApprovalDecision)
| Called (agent : N) (binding : ModelBinding) (turn : N)
| Executed (agent : N) (tool : Tool) (call : Call) (key : string).

Record St := mkSt { engine : Engine; world : W; trace : list Action }.
Notation M := (SE St Failure).

Definition self : M Engine := λ s, (Ok (engine s), s).
Definition the_world : M W := λ s, (Ok (world s), s).
Definition modify (f : Engine → Engine) : M unit :=
  λ s, (Ok tt, mkSt (f (engine s)) (world s) (trace s)).
Definition on_world (f : W → W) : M unit :=
  λ s, (Ok tt, mkSt (engine s) (f (world s)) (trace s)).
Definition note (a : Action) : M unit :=
  λ s, (Ok tt, mkSt (engine s) (world s) (trace s ++ [a])).
Definition ext {A} (op : Ext A) : M A :=
  λ s, let '(r, w) := op (world s) in (r, mkSt (engine s) w (trace s)).
Definition raise {A} (c : ErrorCategory) (m : string) : M A := fail (failure c m).
Definition try_error {A} (r : result Error A) : M A :=
  match r with Ok a => mret a | Err e => fail (of_error e) end.
(** [match m.await { .. }]: the error becomes a value. *)
Definition attempt {A} (m : M A) : M (result Failure A) :=
  λ s, let '(r, s) := m s in (Ok r, s).
Fixpoint for_each {A} (l : list A) (f : A → M unit) : M unit :=
  match l with [] => mret tt | a :: l => _ ← f a; for_each l f end.

(** [context.check_active()], also under another deadline. *)
Definition active_until (d : option N) : M unit :=
  w ← the_world;
  try_error (check_active (clock out w) (mkContext (context_run_id out) (cancelled out w) d)).
Definition check_context : M unit := active_until (deadline out).
Definition bounded {A} (m : M A) : M A := _ ← check_context; m.

Definition current : M AgentConfig := e ← self; mret (agents (agent e)).

(** ** Events, observations and checkpoints *)

(** [Engine::observe] *)
Definition observe (o : Observation Value) : M unit :=
  e ← self;
  let '(r, journal) := journal_observe o (approval_journal e) in
  _ ← modify (set_approval_journal journal);
  _ ← try_error r;
  let agent_hook := if agent_hooks (agents (agent e)) then [Some (agent e)] else [] in
  let run_hook := if hooks config then [None] else [] in
  let hooks := match o with
    | AgentEnded _ _ | ObsHandoff _ _ => agent_hook ++ run_hook
    | _ => run_hook ++ agent_hook
    end in
  for_each hooks (λ h, bounded (ext (hook_observe out h o))).

(** [Engine::emit] *)
Definition emit (event : RunEvent Value) : M unit :=
  _ ← match event with
      | ModelEmitted (TextDelta delta) => observe (ObsTextDelta delta)
      | _ => mret tt
      end;
  _ ← bounded (ext (host_emit out event));
  e ← self;
  if sender e then bounded (ext (send out event)) else mret tt.

(** [Engine::checkpoint] *)
Definition checkpoint (boundary : Boundary) (pending : option Call) : M unit :=
  if negb durable
     && (bool_decide (boundary = ModelDispatched) || bool_decide (boundary = ToolDispatched))
  then mret tt
  else
    e ← self;
    _ ← (if durable then ext (persist_boundary out e boundary pending) else mret tt);
    _ ← (if negb durable && subagents config then ext (commit_delivery out) else mret tt);
    if durable_hook config
    then bounded (ext (hook_checkpoint out boundary (run_result e) pending)) else mret tt.

(** [Engine::append] *)
Definition append_item (item : Item) (e : Engine) : Engine :=
  set_new_items (new_items (run_result e) ++ [item])
    (set_history (history (run_result e) ++ [item]) e).
Definition append (item : Item) : M unit := modify (append_item item).

(** The agent of a committed item. *)
Definition denied_without_agent (es : list (ApprovalJournalEntry Value)) (id : string) : bool :=
  existsb (λ entry, bool_decide (marker_phase (entry_marker entry) = PhaseDenied)
                    && bool_decide (marker_agent (entry_marker entry) = None)
                    && String.eqb (approval_call_id (marker_data (entry_marker entry))) id) es.
Definition item_agent (es : list (ApprovalJournalEntry Value)) (name : string) (item : Item)
    : option string :=
  let no_agent := match item with
    | ItemMessage m | ItemPhasedMessage m _ => bool_decide (role m = User)
    | ItemToolResult id _ => denied_without_agent es id
    | _ => false
    end in
  if no_agent then None else Some name.
Definition committed_marker (cursor : nat) (entry : ApprovalJournalEntry Value)
    : result Error (ApprovalMarkerBoundary Value) :=
  if cursor <=? new_items_before entry
  then Ok (mkBoundary (new_items_before entry - cursor) (entry_marker entry))
  else Err (mkError Internal "late approval marker behind committed cursor").

(** [Engine::publish_committed] *)
Definition publish_committed : M unit :=
  e ← self;
  let es := entries (approval_journal e) in
  let all := new_items (run_result e) in
  if (committed_cursor e =? length all)%nat && (committed_markers e =? length es)%nat
  then mret tt
  else
    let items := drop (committed_cursor e) all in
    markers ← try_error (mapR (committed_marker (committed_cursor e))
                           (drop (committed_markers e) es));
    _ ← observe (CommittedItems items (item_agent es (agent_name (agents (agent e))) <$> items)
                   (sort_boundaries markers));
    modify (λ e', set_committed_markers (length es)
                    (set_committed_cursor (length (new_items (run_result e'))) e')).

(** ** Budgets and accounting *)

Definition total_tokens (u : Usage) : N := saturating_add (input_tokens u) (output_tokens u).

(** [Engine::check_budget] *)
Definition check_budget : M unit :=
  e ← self;
  if is_some_and (max_tokens (limits config)) (λ max, (max <=? total_tokens (usage (run_result e)))%N)
  then raise Guardrail "run token budget exhausted"
  else if is_some_and (max_cost (limits config)) (λ max, f64_leb max (engine_cost e))
  then raise Guardrail "run cost budget exhausted"
  else mret tt.

(** [Engine::charge_child_usage] *)
Definition charge_child_usage : M unit :=
  if child then
    e ← self;
    w ← the_world;
    let used := control_usage out w in
    ext (control_charge out
      (mkBudgetUsage (saturating_sub (total_tokens (usage (run_result e))) (tokens used)) 0 0
         (saturating_sub (f64_to_u64 true (f64_mul (engine_cost e) (f64_of_N 1000000)))
            (cost_micros used))))
  else mret tt.

(** [Engine::account_usage] *)
Definition account_usage (used : Usage) (cost : f64) : M unit :=
  _ ← modify (λ e,
    let u := usage (run_result e) in
    set_usage (mkUsage (saturating_add (input_tokens u) (input_tokens used))
                 (saturating_add (output_tokens u) (output_tokens used))
                 (saturating_add (cache_read_tokens u) (cache_read_tokens used))
                 (saturating_add (cache_creation_tokens u) (cache_creation_tokens used))
                 (context_tokens used)) e);
  e ← self;
  if negb (is_finite cost) || f64_ltb cost f64_zero
     || negb (is_finite (f64_add (engine_cost e) cost))
  then raise InvalidInput "invalid provider cost"
  else modify (λ e, set_engine_cost (f64_add (engine_cost e) cost) e).

(** [Engine::record_response] *)
Definition record_response (response : ModelResponse Value) (model : string) : M unit :=
  _ ← for_each (items response) append;
  let cost := match cost_estimator config with
              | Some c => c model (response_usage response) | None => f64_zero end in
  accounting ← attempt (account_usage (response_usage response) cost);
  _ ← modify (λ e, set_responses (responses (run_result e) ++ [response]) e);
  match accounting with Ok _ => mret tt | Err f => fail f end.

(** ** Compaction *)

Definition lift_panic {A} (o : option A) : M A :=
  match o with
  | Some a => mret a
  | None => raise Internal "approval boundary exceeds history length"
  end.
Definition journal_markers (e : Engine) : M (list (ApprovalMarkerBoundary Value)) :=
  match history_markers (approval_journal e) with
  | Ok markers => mret markers
  | Err m => raise Internal ("unsupported approval/history conversion: " +:+ m)
  end.

(** The binding in use: the primary model or the fallback the agent is on. *)
Definition active_binding (e : Engine) : ModelBinding :=
  let a := agents (agent e) in
  match fallbacks e !! agent e with
  | Some (index, _) => default (agent_model a) (fallback_models a !! pred index)
  | None => agent_model a
  end.

(** [Engine::compact] *)
Definition compact : M unit :=
  e ← self;
  match compaction config, context_tokens (usage (run_result e)) with
  | Some (trigger, target), Some tokens =>
      if (tokens <? trigger)%N then mret tt
      else
        let request := mkCompactionRequest (agent_name (agents (agent e)))
          (binding_name (active_binding e)) (history (run_result e)) tokens target in
        _ ← observe (CompactionStarted tokens target);
        r ← attempt (bounded (ext (compact_history out request)));
        match r with
        | Err f =>
            _ ← check_context;
            _ ← observe (CompactionFailed (info f));
            if bool_decide (category (info f) = Provider)
               || bool_decide (category (info f) = Unsupported) || idle f
            then mret tt else fail f
        | Ok compacted =>
            _ ← account_usage (compaction_usage compacted) (compaction_cost compacted);
            _ ← charge_child_usage;
            e' ← self;
            _ ← observe (ObsUsage (usage (run_result e')) (engine_cost e'));
            _ ← try_error (validate_history_pairs (new_history compacted));
            _ ← observe (HistoryReplaced (history (run_result e')) (new_history compacted));
            _ ← modify (set_history (new_history compacted));
            _ ← modify (λ e, let u := usage (run_result e) in
                  set_usage (mkUsage (input_tokens u) (output_tokens u) (cache_read_tokens u)
                    (cache_creation_tokens u) (Some (new_context_tokens compacted))) e);
            observe (Compacted (length (history (run_result e))) (length (new_history compacted))
                       (new_context_tokens compacted))
        end
  | _, _ => mret tt
  end.

Definition set_input (x : list Item) (r : ModelRequest Value) : ModelRequest Value :=
  mkModelRequest (request_model r) (instructions r) x (request_tools r) (output_schema r)
    (output_schema_name r) (output_schema_strict r) (settings r).
Definition set_model (x : string) (r : ModelRequest Value) : ModelRequest Value :=
  mkModelRequest x (instructions r) (input r) (request_tools r) (output_schema r)
    (output_schema_name r) (output_schema_strict r) (settings r).

(** [Engine::compact_local]: the request with its new input, and whether the
    history was replaced. *)
Definition compact_local (request : ModelRequest Value) (forced : bool)
    : M (ModelRequest Value * bool) :=
  e ← self;
  let policy := local_compaction config in
  let policy := if bool_decide (policy = default_policy)
                then for_model (to_lowercase out) (request_model request) else policy in
  let policy := apply_calibration (calibration e) policy in
  markers ← journal_markers e;
  let current := history (run_result e) in
  let transient := drop (length current) (input request) in
  let overhead := (estimate_request_overhead_tokens (as_u64 out) request
                   + estimate_history_tokens (to_string out) transient)%N in
  estimate ← lift_panic (estimate_history_tokens_with_approvals (to_string out) current markers);
  let policy := if forced
    then with_limits 1 (N.min (target_tokens policy) (N.max (estimate / 2) 1)) policy
    else policy in
  let before := (estimate + overhead)%N in
  if negb (enabled policy) || (before <=? trigger_tokens policy)%N then mret (request, false)
  else
    _ ← observe (CompactionStarted before (target_tokens policy));
    outcome ← lift_panic (compact_with_approvals (to_string out) (summarize out)
                 (summarize_terse out) current markers policy
                 (if forced then 0 else Z.min (Z.of_N overhead) i64_max));
    if negb (changed outcome) then
      _ ← (if String.eqb (reason outcome) "disabled" || String.eqb (reason outcome) "below-threshold"
           then mret tt
           else observe (CompactionFailed (mkError ModelBehavior (reason outcome))));
      mret (request, false)
    else
      final ← lift_panic (finalize_local_history_with_approvals (outcome_history outcome)
                 (outcome_markers outcome) current markers);
      let '(history', markers') := final in
      _ ← try_error (validate_history_pairs history');
      estimate' ← lift_panic
        (estimate_history_tokens_with_approvals (to_string out) history' markers');
      let context_tokens := (estimate' + overhead)%N in
      let request := set_input (history' ++ transient) request in
      _ ← observe (ApprovalHistoryReplaced current history' markers');
      _ ← modify (set_history history');
      _ ← modify (λ e, let u := usage (run_result e) in
            set_usage (mkUsage (input_tokens u) (output_tokens u) (cache_read_tokens u)
              (cache_creation_tokens u) (Some context_tokens)) e);
      _ ← observe (Compacted (length current) (length history') context_tokens);
      mret (request, true).

(** [Engine::settle_tool_turn] *)
Definition escalation (n : N) : string :=
  "[SYSTEM] Your last " +:+ pretty n +:+ " tool turns all failed. Stop repeating the same approach. Re-read the error messages above carefully, then either: (1) try a fundamentally different approach or tool, (2) inspect the environment to understand why the calls fail, or (3) if the task is genuinely blocked, report the blocker and what you tried instead of retrying.".
Definition user_text (t : string) : Item := ItemMessage (text_message User t).
Definition settle (e : Engine) : Engine :=
  match tool_turn_start e with
  | None => e
  | Some start =>
      let e := set_tool_turn_start None e in
      match consecutive_tool_error_limit config with
      | Some limit =>
          if (limit =? 0)%N then e else
          let errors := omap (λ item, match item with
            | ItemToolResult _ o => Some (is_error o) | _ => None end)
            (drop start (new_items (run_result e))) in
          if bool_decide (errors = []) then e
          else
            let e := if forallb id errors
              then set_consecutive_tool_errors
                     (saturating_add (consecutive_tool_errors e) 1) e
              else set_tool_error_escalated false (set_consecutive_tool_errors 0 e) in
            if (limit <=? consecutive_tool_errors e)%N && negb (tool_error_escalated e)
            then append_item (user_text (escalation (consecutive_tool_errors e)))
                   (set_tool_error_escalated true e)
            else e
      | None => e
      end
  end.
Definition settle_tool_turn : M unit := modify settle.

(** ** Tools and their authorization *)

(** [Engine::tools_for_access] *)
Definition tools_for_access (e : Engine) : list Tool :=
  (λ t, default t (for_access out t (access (tools (policy e))))) <$> agent_tools (agents (agent e)).
(** [Engine::tool_decision] *)
Definition tool_decision (e : Engine) (d : ToolDefinition) : ToolDecision :=
  let decision := decision (tools (policy e)) d in
  if bool_decide (decision = Allow) && approve_mutating_tools config && negb (read_only d)
     && existsb (λ t, String.eqb (tool_name (definition t)) (tool_name d)
                      && negb (is_control_flow t)) (tools_for_access e)
  then RequireApproval else decision.
Definition find_tool (e : Engine) (name : string) : option Tool :=
  List.find (λ t, String.eqb (tool_name (definition t)) name) (tools_for_access e).
Definition find_handoff (e : Engine) (name : string) : option Handoff :=
  List.find (λ h, String.eqb (tool_name (handoff_definition h)) name) (handoffs (agents (agent e))).

(** [compile_schema(..)?.is_valid(..)] *)
Definition valid_arguments (d : ToolDefinition) (call : Call) : M bool :=
  validator ← try_error (compile_schema out (input_schema d));
  mret (validator (arguments call)).
Definition check_arguments (d : ToolDefinition) (call : Call) : M unit :=
  if validate_tool_arguments config then
    valid ← valid_arguments d call;
    if (valid : bool) then mret tt
    else raise ModelBehavior ("invalid arguments for " +:+ call_name call)
  else mret tt.

(** ** Finishing a run *)

(** [Engine::apply_child_messages] *)
Definition fresh_messages (seen : gset string) (ms : list SteeringMessage)
    : list SteeringMessage * gset string :=
  foldl (λ '(l, seen) m,
    if bool_decide (msg_id m ∈ seen) then (l, seen) else (l ++ [m], {[msg_id m]} ∪ seen))
    ([], seen) ms.
Definition apply_child_messages (finishing : bool) : M bool :=
  if child then
    messages ← ext (if finishing then control_finish_or_take out else control_take out);
    e ← self;
    let '(messages, seen) := fresh_messages (applied_child_messages e) messages in
    _ ← modify (set_applied_child_messages seen);
    let ids := msg_id <$> messages in
    _ ← for_each messages (λ m, append (user_text (msg_text m)));
    match ids with
    | [] => mret false
    | _ =>
        _ ← publish_committed;
        _ ← (if negb durable then ext (control_acknowledge out ids) else mret tt);
        mret true
    end
  else mret false.

(** [if self.turns >= max_turns { max_turns += 1 }] *)
Definition grant_turn (e : Engine) : Engine :=
  if (max_turns (policy e) <=? engine_turns e)%N
  then set_policy (mkRunPolicy (N.min (max_turns (policy e) + 1) u32_max) (tools (policy e))
                     (tool_use (policy e))) e
  else e.
Definition gate_limit : N := N.max (stop_gate_max_blocks config) 1.
Definition gate_message (blocks : N) (feedback : string) : string :=
  "[SYSTEM] Final answer blocked by the completion gate (" +:+ pretty blocks +:+ "/"
  +:+ pretty gate_limit +:+ "):" +:+ String "010"%char feedback.
Definition may_act (e : Engine) : bool :=
  existsb (λ t, negb (bool_decide (tool_decision e (definition t) = Deny))) (tools_for_access e)
  || existsb (λ h, negb (bool_decide (tool_decision e (handoff_definition h) = Deny)))
       (handoffs (agents (agent e))).

(** The stop gate: whether it sent the run back to the model. *)
Definition run_stop_gate (candidate : Value) : M bool :=
  e ← self;
  if stop_gate config && may_act e && (stop_gate_blocks e <? gate_limit)%N then
    feedback ← bounded (ext (check_gate out candidate));
    match feedback with
    | Some feedback =>
        let blocks := (stop_gate_blocks e + 1)%N in
        let feedback := if String.eqb (trim feedback) ""
          then "the finalization check failed; continue working until it passes" else feedback in
        _ ← modify (set_stop_gate_blocks blocks);
        _ ← append (user_text (gate_message blocks feedback));
        _ ← modify (set_phase ModelPhase ∘ grant_turn);
        mret true
    | None => _ ← modify (set_stop_gate_blocks 0); mret false
    end
  else mret false.

(** The children joined before finishing: whether they brought items. *)
Definition join_session : M bool :=
  if subagents config then
    items ← ext (session_join out);
    match items with
    | [] => mret false
    | _ =>
        _ ← for_each items append;
        _ ← modify (set_phase ModelPhase ∘ grant_turn);
        mret true
    end
  else mret false.

(** [Engine::finish_candidate] *)
Definition finish_candidate (candidate : Value) : M unit :=
  messages ← apply_child_messages false;
  if (messages : bool) then modify (set_phase ModelPhase)
  else
    joined ← join_session;
    if (joined : bool) then mret tt
    else
      blocked ← run_stop_gate candidate;
      if (blocked : bool) then mret tt
      else
        messages ← apply_child_messages true;
        if (messages : bool) then modify (set_phase ModelPhase)
        else
          _ ← modify (set_final_output (Some candidate));
          a ← current;
          _ ← observe (AgentEnded (agent_name a) candidate);
          modify (set_phase Finish).

(** [Engine::validate_output] *)
Definition validate_output (text : string) : M Value :=
  a ← current;
  match agent_schema a with
  | None => mret (json_string out text)
  | Some schema =>
      match output_parser a with
      | Some parse =>
          match parse text with
          | Ok value => mret value
          | Err error =>
              _ ← observe (OutputValidationFailed (message error));
              mret (json_string out text)
          end
      | None =>
          match parse_json out text with
          | Ok value =>
              validator ← try_error (compile_schema out schema);
              _ ← (if (validator value : bool) then mret tt
                   else observe (OutputValidationFailed "output does not match its JSON schema"));
              mret value
          | Err error =>
              _ ← observe (OutputValidationFailed ("output is not JSON: " +:+ error));
              mret (json_string out text)
          end
      end
  end.

(** ** One model attempt *)

(** The loop over a stream: the response, the items and text collected so far,
    and whether an event was visible. *)
Record Streamed := mkStreamed {
  completed : option (ModelResponse Value);
  collected : list Item;
  delta_text : string;
  visible : bool;
}.
Definition message_text (item : Item) : option string :=
  match item with ItemMessage m | ItemPhasedMessage m _ => Some (text (content m)) | _ => None end.
Definition stream_event (event : ModelEvent Value) (s : Streamed) : Streamed :=
  match event with
  | Complete response => mkStreamed (Some response) (collected s) (delta_text s) true
  | ItemDone item =>
      let finished := default "" (message_text item) in
      let delta := if negb (String.eqb finished "") && String.eqb finished (delta_text s)
                   then "" else delta_text s in
      mkStreamed (completed s) (collected s ++ [item]) delta true
  | TextDelta delta => mkStreamed (completed s) (collected s) (delta_text s +:+ delta) true
  | _ => mkStreamed (completed s) (collected s) (delta_text s) true
  end.
Fixpoint pull (stream : ModelStream) (acc : Streamed)
    : M (result Failure (ModelResponse Value) * Streamed) :=
  match stream with
  | mkStream next =>
      λ s,
      match check_context s with
      | (Err f, s) => (Ok (Err f, acc), s)
      | (Ok _, s) =>
          match next (world s) with
          | (Err f, w) => (Ok (Err f, acc), mkSt (engine s) w (trace s))
          | (Ok None, w) =>
              (Ok (match completed acc with
                   | Some response => Ok response
                   | None => Err (failure ModelBehavior "model stream ended without Complete")
                   end, acc), mkSt (engine s) w (trace s))
          | (Ok (Some (event, stream)), w) =>
              let s := mkSt (engine s) w (trace s) in
              if bool_decide (is_Some (completed acc))
              then (Ok (Err (failure ModelBehavior "model event after Complete"), acc), s)
              else
                let acc := stream_event event acc in
                match emit (ModelEmitted event) s with
                | (Err f, s) => (Ok (Err f, acc), s)
                | (Ok _, s) => pull stream acc s
                end
          end
      end
  end.

(** What is kept of a stream that failed. *)
Definition keep_partial (binding : ModelBinding) (acc : Streamed) : M unit :=
  match completed acc with
  | Some response =>
      _ ← attempt (record_response response (binding_name binding));
      _ ← attempt charge_child_usage;
      mret tt
  | None =>
      let rest := if String.eqb (delta_text acc) "" then []
                  else [ItemMessage (text_message Assistant (delta_text acc))] in
      for_each (collected acc ++ rest) append
  end.

(** [Engine::model_attempt]: the response, or the error and whether the host
    had seen an event. *)
Definition model_attempt (binding : ModelBinding) (request : ModelRequest Value)
    : M (result (Failure * bool) (ModelResponse Value)) :=
  e ← self;
  _ ← note (Called (agent e) binding (engine_turns e));
  if binding_streams binding && streaming e then
    opened ← attempt (bounded (ext (stream out binding request)));
    match opened with
    | Err f => mret (Err (f, false))
    | Ok stream =>
        r ← pull stream (mkStreamed None [] "" false);
        match r with
        | (Ok response, _) => mret (Ok response)
        | (Err f, acc) => _ ← keep_partial binding acc; mret (Err (f, visible acc))
        end
    end
  else
    r ← attempt (bounded (ext (complete out binding request)));
    mret (match r with Ok response => Ok response | Err f => Err (f, false) end).

(** ** Retries and fallbacks *)

(** [str::to_ascii_lowercase] *)
Definition ascii_lower (c : ascii) : ascii :=
  if in_range 65 90 c then ascii_of_N (byte_val c + 32) else c.
Definition to_ascii_lowercase (s : string) : string := of_bytes (ascii_lower <$> bytes s).

(** Advice that sends the run to the next model. *)
Definition fallback_reason (advice : ModelRetryAdvice) : bool :=
  let reason := to_ascii_lowercase (trim (advice_reason advice)) in
  should_retry advice
  && (is_one_of reason ["429"; "402"; "503"; "529"]
      || existsb (λ part, has part reason)
           ["rate_limit"; "too_many_requests"; "too many requests"; "overloaded"; "quota";
            "billing"; "subscription"; "credit"; "limit_exceeded"; "exhausted"]).

(** Durations in nanoseconds; [u32] and [Duration] arithmetic saturates. *)
Definition seconds (n : N) : N := n * 1000000000.
Definition duration_max : N := seconds u64_max + 999999999.
Definition duration_mul (d factor : N) : N := N.min (d * factor) duration_max.
Definition doubling (attempt : N) : N := N.min (2 ^ (attempt - 1)) u32_max.
Definition policy_delay (attempt : N) : N :=
  let initial := initial_delay (retry config) in
  if (attempt =? 1)%N then initial
  else N.min (duration_mul initial (doubling attempt))
         (if (max_delay (retry config) =? 0)%N then seconds 30 else max_delay (retry config)).
Definition retry_delay (attempt : N) (policy_retry : bool) (advised : N) : N :=
  N.min
    (if policy_retry then N.max (policy_delay attempt) advised
     else if negb (advised =? 0)%N then advised
     else if negb (initial_delay (retry config) =? 0)%N then policy_delay attempt
     else N.min (duration_mul (seconds 1) (doubling attempt)) (seconds 30))
    (seconds 300).

(** [Engine::child_model_failure] *)
Definition child_model_failure (f : Failure) : M Failure :=
  e ← self;
  mret (if child
        then mkFailure (mkError (category (info f))
               ("model call failed on turn " +:+ pretty (saturating_sub (engine_turns e) 1) +:+ ": "
                +:+ message (info f))) (idle f)
        else f).
Definition abandon {A} (f : Failure) : M A := f ← child_model_failure f; fail f.

(** How one iteration of the retry loop ends. *)
Inductive Verdict :=
| Accepted (response : ModelResponse Value) (model : string) (streamed : bool)
| Interrupted
| NextCandidate (request : ModelRequest Value) (attempt : N)
| Again (request : ModelRequest Value) (attempt : N).

Definition context_overflow (f : Failure) : bool :=
  let message := to_lowercase out (message (info f)) in
  has "context_length_exceeded" message || has "exceeds the context window" message.

(** The end of a successful attempt. *)
Definition accept_response (binding : ModelBinding) (estimated : N)
    (response : ModelResponse Value) : M Verdict :=
  _ ← modify (λ e,
    let e := set_calibration
      (observe_estimate (calibration e)
         (default (input_tokens (response_usage response))
            (context_tokens (response_usage response))) estimated) e in
    match fallbacks e !! agent e with
    | Some (index, successes) =>
        if (successes + 1 =? 3)%N then set_fallbacks (delete (agent e) (fallbacks e)) e
        else set_fallbacks (<[agent e := (index, (successes + 1)%N)]> (fallbacks e)) e
    | None => e
    end);
  e ← self;
  mret (Accepted response (binding_name binding) (streaming e && binding_streams binding)).

(** The wait before a policy or advised retry. *)
Definition back_off (binding : ModelBinding) (request : ModelRequest Value) (attempt : N)
    (f : Failure) : M Verdict :=
  let advice := retry_advice out binding (info f) in
  let policy_retry :=
    (attempt <=? max_retries (retry config))%N
    && (idle f || retryable (retry config) (info f))
    && negb (is_some_and advice (λ a, negb (should_retry a)
                                      && negb (String.eqb (trim (advice_reason a)) ""))) in
  let advised_retry := is_some_and advice should_retry && (attempt <=? 10)%N in
  if negb policy_retry && negb advised_retry then abandon f
  else
    let delay := retry_delay attempt policy_retry
                   (match advice with Some a => retry_after a | None => 0 end) in
    _ ← observe (Retry (binding_name binding) delay);
    if child then
      interrupted ← ext (control_wait out);
      if (interrupted : bool) then mret Interrupted
      else _ ← bounded (ext (sleep out delay)); mret (Again request attempt)
    else _ ← bounded (ext (sleep out delay)); mret (Again request attempt).

(** What follows a failed attempt. *)
Definition recover (binding : ModelBinding) (index : nat) (next : option ModelBinding)
    (request : ModelRequest Value) (attempt : N) (f : Failure) (committed : bool) : M Verdict :=
  if durable && negb child then fail f
  else
    _ ← check_context;
    if committed || bool_decide (category (info f) = Core.Cancelled)
       || (bool_decide (category (info f) = DeadlineExceeded) && negb (idle f))
    then abandon f
    else
      _ ← (if durable
           then _ ← checkpoint ModelCompleted None; checkpoint ModelPrepared None
           else mret tt);
      r ← (if context_overflow f then compact_local request true else mret (request, false));
      let '(request, compacted) := r in
      if (compacted : bool) then mret (Again request attempt)
      else
        let attempt := (attempt + 1)%N in
        let advice := retry_advice out binding (info f) in
        match (if negb (bool_decide (category (info f) = ModelBehavior))
                  && (idle f || is_some_and advice fallback_reason)
               then next else None) with
        | Some next =>
            _ ← modify (λ e, set_fallbacks (<[agent e := (S index, 0%N)]> (fallbacks e)) e);
            _ ← observe (Fallback (binding_name binding) (binding_name next));
            mret (NextCandidate request attempt)
        | None =>
            a ← current;
            e ← self;
            match error_handler config with
            | Some handle =>
                match handle (agent_name a) (engine_turns e - 1)%N (info f) with
                | ActionRetry | ActionContinue => mret (Again request attempt)
                | ActionAbort => abandon f
                end
            | None => back_off binding request attempt f
            end
        end.

(** One iteration of the loop of [Engine::model_response]. *)
Definition attempt_model (binding : ModelBinding) (index : nat) (next : option ModelBinding)
    (request : ModelRequest Value) (attempt_number : N) : M Verdict :=
  e ← self;
  if (max_turns (policy e) <=? engine_turns e)%N
  then raise MaxTurns "maximum model turns exceeded"
  else
    _ ← modify (λ e, set_engine_turns (engine_turns e + 1)%N e);
    let name := agent_name (agents (agent e)) in
    _ ← observe (AgentStarted name);
    _ ← observe (ModelAttempt name (binding_name binding) attempt_number);
    request ← (if String.eqb (request_model request) (binding_name binding) then mret request
               else
                 r ← compact_local (set_model (binding_name binding) request) false;
                 mret r.1);
    e ← self;
    markers ← journal_markers e;
    estimate ← lift_panic
      (estimate_history_tokens_with_approvals (to_string out) (input request) markers);
    let estimated := (estimate + estimate_request_overhead_tokens (as_u64 out) request
                      - output_reserve_tokens (as_u64 out) request - REQUEST_SAFETY_BUFFER)%N in
    _ ← (if child then ext (control_reserve out (mkBudgetUsage 0 0 1 0)) else mret tt);
    _ ← checkpoint ModelDispatched None;
    interrupted ← (if child then ext (control_wait out) else mret false);
    if (interrupted : bool) then mret Interrupted
    else
      r ← model_attempt binding request;
      match r with
      | Ok response => accept_response binding estimated response
      | Err (f, committed) => recover binding index next request attempt_number f committed
      end.

(** The loops of [Engine::model_response]; every iteration takes a turn. *)
Fixpoint model_loop (fuel : nat) (candidates : list ModelBinding) (index : nat)
    (request : ModelRequest Value) (attempt : N)
    : M (option (ModelResponse Value * string * bool)) :=
  match fuel, candidates with
  | S fuel, binding :: rest =>
      v ← attempt_model binding index (head rest) request attempt;
      match v with
      | Accepted response model streamed => mret (Some (response, model, streamed))
      | Interrupted => mret None
      | NextCandidate request attempt => model_loop fuel rest (S index) request attempt
      | Again request attempt => model_loop fuel candidates index request attempt
      end
  | _, _ => raise Internal "primary model is always present"
  end.
Definition model_response (request : ModelRequest Value)
    : M (option (ModelResponse Value * string * bool)) :=
  e ← self;
  let a := agents (agent e) in
  let start := match fallbacks e !! agent e with Some (index, _) => index | None => 0%nat end in
  model_loop (S (N.to_nat (max_turns (policy e) - engine_turns e)))
    (drop start (agent_model a :: fallback_models a)) start request 0.

(** ** A model turn *)

(** The request, before compaction. *)
Definition schema_instructions (a : AgentConfig) (text : string) : string :=
  match agent_schema a with
  | None => text
  | Some schema =>
      let nl := String "010"%char "" in
      let text := if String.eqb (trim text) "" then text
                  else text +:+ nl +:+ nl +:+ "---" +:+ nl +:+ nl in
      let name := trim (agent_schema_name a) in
      let name := if String.eqb name "" then "final_output" else name in
      let strict := if agent_schema_strict a
        then nl +:+ "Strict mode: do not include prose, markdown fences, or fields outside the schema."
        else "" in
      text +:+ "<structured_output>" +:+ nl
      +:+ "When producing a final answer, return JSON only." +:+ nl
      +:+ "Output schema name: " +:+ name +:+ strict +:+ nl +:+ "JSON schema:" +:+ nl
      +:+ schema +:+ nl +:+ "</structured_output>"
  end.
Definition visible_tools (e : Engine) : list ToolDefinition :=
  filter (λ d, decision (tools (policy e)) d ≠ Deny)
    ((definition <$> tools_for_access e)
     ++ (handoff_definition <$> handoffs (agents (agent e)))).
Definition build_request (e : Engine) (input : list Item) : ModelRequest Value :=
  let a := agents (agent e) in
  let text := if String.eqb (cache_prefix config) "" then agent_instructions a
              else cache_prefix config +:+ String "010"%char (agent_instructions a) in
  let settings := match prompt_cache_key config with
    | Some key =>
        let namespace := default (context_run_id out) (prompt_cache_namespace config) in
        <["prompt_cache_key" := json_string out (sha256_hex out namespace key)]> (agent_settings a)
    | None => agent_settings a
    end in
  mkModelRequest (binding_name (active_binding e)) (schema_instructions a text) input
    (visible_tools e) (agent_schema a) (agent_schema_name a) (agent_schema_strict a) settings.

(** The items of a response: calls are queued, with fresh identifiers. *)
Fixpoint queue_calls (prior : list Item) (ids : gset string) (l : list Item) : M unit :=
  match l with
  | [] => mret tt
  | ItemToolCall call :: l =>
      if String.eqb (call_id call) "" || bool_decide (call_id call ∈ ids)
         || existsb (λ i, match i with
                          | ItemToolCall prior => String.eqb (call_id prior) (call_id call)
                          | _ => false end) prior
      then raise ModelBehavior "duplicate tool call ID"
      else
        _ ← modify (λ e, set_calls (calls e ++ [call]) e);
        queue_calls prior ({[call_id call]} ∪ ids) l
  | (ItemMessage m | ItemPhasedMessage m _) :: l =>
      if bool_decide (role m = Assistant) then queue_calls prior ids l
      else raise ModelBehavior "model returned a non-assistant item"
  | (ItemReasoning _ | ItemCompaction _) :: l => queue_calls prior ids l
  | _ => raise ModelBehavior "model returned a non-assistant item"
  end.

(** The first handoff call moves to the front of the queue. *)
Fixpoint take_handoff (e : Engine) (l : list Call) : option (Call * list Call) :=
  match l with
  | [] => None
  | call :: l =>
      if bool_decide (is_Some (find_handoff e (call_name call))) then Some (call, l)
      else prod_map id (cons call) <$> take_handoff e l
  end.
Definition handoff_first (e : Engine) : Engine :=
  match take_handoff e (calls e) with
  | Some (handoff, rest) => set_calls (handoff :: rest) e
  | None => e
  end.

(** The text of the last message with any. *)
Definition final_text (l : list Item) : string :=
  default "" (List.find (λ t, negb (String.eqb t "")) (omap message_text (rev l))).

(** What an accepted response leads to. *)
Definition after_response (response : ModelResponse Value) : M unit :=
  e ← self;
  let prior := take (length (history (run_result e)) - length (items response))
                 (history (run_result e)) in
  _ ← queue_calls prior ∅ (items response);
  _ ← modify handoff_first;
  e ← self;
  _ ← match calls e with
      | _ :: _ =>
          modify (λ e, set_phase Tools (set_tools_prepared false (set_tool_final None
            (set_tool_pause false (set_tool_turn_start (Some (length (new_items (run_result e))))
               (set_stop_gate_blocks 0 e))))))
      | [] =>
          if bool_decide (end_turn response = Some false)
          then modify (set_phase ModelPhase ∘ set_stop_gate_blocks 0)
          else
            candidate ← validate_output (final_text (items response));
            if durable && (stop_gate config || subagents config)
            then modify (set_phase Finalize ∘ set_final_output (Some candidate))
            else finish_candidate candidate
      end;
  if durable then checkpoint ModelCompleted None else mret tt.

(** The children's results and the parent's view of the history. *)
Definition collect_session : M unit :=
  if subagents config then
    items ← ext (session_collect out);
    _ ← for_each items append;
    e ← self;
    on_world (session_update_parent out (history (run_result e)))
  else mret tt.

(** [Engine::model_turn] *)
Definition model_turn : M unit :=
  _ ← settle_tool_turn;
  _ ← apply_child_messages false;
  _ ← (if child then ext (control_charge out default_usage) else mret tt);
  _ ← collect_session;
  _ ← publish_committed;
  e ← self;
  if (max_turns (policy e) <=? engine_turns e)%N
  then raise MaxTurns "maximum model turns exceeded"
  else
    _ ← check_budget;
    _ ← compact;
    _ ← check_budget;
    e ← self;
    hints ← (if turn_context config
             then bounded (ext (turn_hints out (run_result e) (engine_turns e + 1)%N))
             else mret []);
    let request := build_request e
      (history (run_result e) ++ transient_context config ++ hints) in
    r ← compact_local request false;
    _ ← checkpoint ModelPrepared None;
    response ← model_response r.1;
    match response with
    | None => _ ← modify (set_phase ModelPhase); checkpoint ModelCompleted None
    | Some (response, model, streamed) =>
        a ← current;
        _ ← observe (ModelAccepted (agent_name a) response);
        _ ← record_response response model;
        _ ← charge_child_usage;
        _ ← publish_committed;
        _ ← (if (streamed : bool) then mret tt else emit (ModelEmitted (Complete response)));
        _ ← (if durable then mret tt else checkpoint ModelCompleted None);
        e ← self;
        _ ← observe (ObsUsage (usage (run_result e)) (engine_cost e));
        _ ← check_budget;
        after_response response
    end.

(** ** The tool phase *)

Definition approval_request (call : Call) : ApprovalRequest Value :=
  mkApprovalRequest call "tool policy requires approval".
(** The decision supplied on resumption, or the host's. *)
Definition ask (call : Call) : M ApprovalDecision :=
  e ← self;
  match approvals e !! call_id call with
  | Some decision =>
      _ ← modify (λ e, set_approvals (delete (call_id call) (approvals e)) e);
      mret decision
  | None =>
      _ ← emit (ApprovalRequired (approval_request call));
      decision ← bounded (ext (approve out (approval_request call)));
      _ ← note (Asked call decision);
      mret decision
  end.

(** One call of [Engine::prepare_tools]; [ready] counts the calls kept so far. *)
Definition prepare_call (ready : nat) (call : Call) : M bool :=
  e ← self;
  match find_tool e (call_name call) with
  | Some tool =>
      if bool_decide (tool_decision e (definition tool) = RequireApproval) then
        _ ← check_arguments (definition tool) call;
        decision ← ask call;
        if bool_decide (decision = Defer) then
          e ← self;
          let marker := ObsApprovalMarker (Some (agent_name (agents (agent e)))) call decision None
            (length (new_items (run_result e)) + ready) (length (history (run_result e)) + ready) in
          _ ← modify (λ e,
            set_deferred_calls (deferred_calls e ++ [call])
              (set_pending_approvals (pending_approvals (run_result e) ++ [approval_request call])
                (set_pending_marker_events (pending_marker_events e ++ [marker]) e)));
          mret false
        else
          _ ← modify (λ e, set_approvals (<[call_id call := decision]> (approvals e)) e);
          mret true
      else mret true
  | None => mret true
  end.
Fixpoint prepare_calls (waiting ready : list Call) : M (list Call) :=
  match waiting with
  | [] => mret ready
  | call :: waiting =>
      _ ← modify (set_calls waiting);
      keep ← prepare_call (length ready) call;
      prepare_calls waiting (if (keep : bool) then ready ++ [call] else ready)
  end.
(** [Engine::prepare_tools] *)
Definition prepare_tools : M unit :=
  if durable then mret tt
  else
    e ← self;
    if is_some_and (head (calls e)) (λ c, bool_decide (is_Some (find_handoff e (call_name c))))
    then mret tt
    else
      _ ← modify (set_pending_approvals []);
      ready ← prepare_calls (calls e) [];
      modify (set_calls ready).

(** [Engine::parallel_batch_ready] *)
Definition batch_call_ready (e : Engine) (call : Call) : bool :=
  existsb (λ t,
    String.eqb (tool_name (definition t)) (call_name call)
    && bool_decide (tool_decision e (definition t) = Allow)
    && (negb (validate_tool_arguments config)
        || match compile_schema out (input_schema (definition t)) with
           | Ok valid => valid (arguments call)
           | Err _ => false
           end)) (tools_for_access e).
Definition parallel_batch_ready (e : Engine) : bool :=
  negb durable && (1 <? length (calls e)) && forallb (batch_call_ready e) (calls e).

(** *** [Engine::execute_tool] *)

Record ExecutedTool := mkExecutedTool { raw : ToolOutput; hook_error : option Failure }.

(** [go_duration]: a duration as Go prints it. *)
Definition digits (width n : N) : string :=
  let s := pretty n in
  of_bytes (repeat "0"%char (N.to_nat width - String.length s)) +:+ s.
Fixpoint trim_zeros (l : list ascii) : list ascii :=
  match l with "0"%char :: l => trim_zeros l | _ => l end.
Definition fraction (width n : N) : string :=
  of_bytes (rev (trim_zeros (rev (bytes (digits width n))))).
Definition with_fraction (whole : N) (frac unit : string) : string :=
  pretty whole +:+ (if String.eqb frac "" then "" else "." +:+ frac) +:+ unit.
Definition micro : string := String "194"%char (String "181"%char "s").
Definition go_duration (ns : N) : string :=
  if (ns =? 0)%N then "0s"
  else if (ns <? 1000)%N then with_fraction ns "" "ns"
  else if (ns <? 1000000)%N then with_fraction (ns / 1000) (fraction 3 (ns mod 1000)) micro
  else if (ns <? 1000000000)%N then with_fraction (ns / 1000000) (fraction 6 (ns mod 1000000)) "ms"
  else
    let s := (ns / 1000000000)%N in
    (if (3600 <=? s)%N then pretty (s / 3600)%N +:+ "h" else "")
    +:+ (if (60 <=? s)%N then pretty (s / 60 mod 60)%N +:+ "m" else "")
    +:+ with_fraction (s mod 60) (fraction 9 (ns mod 1000000000)) "s".

(** The path an activity entry shows: control characters are C0, DEL and C1. *)
Fixpoint has_control (l : list ascii) : bool :=
  match l with
  | [] => false
  | c :: l =>
      (byte_val c <? 32)%N || (byte_val c =? 127)%N
      || ((byte_val c =? 194)%N
          && match l with d :: _ => (128 <=? byte_val d)%N && (byte_val d <? 160)%N | [] => false end)
      || has_control l
  end.
Definition path_key (name : string) : option string :=
  if is_one_of name ["Write"; "Edit"] then Some "file_path"
  else if is_one_of name ["read_file"; "list_files"; "glob"; "grep"] then Some "path"
  else if String.eqb name "LSP" then Some "filePath"
  else None.
Definition activity_summary (call : Call) : string :=
  match path_key (call_name call) ≫= json_str_field out (arguments call) with
  | Some path =>
      if (String.length path <=? 4096)%nat && negb (has_control (bytes path)) then path else ""
  | None => ""
  end.

Definition idempotency (e : Engine) (w : W) (call : Call) : string :=
  match (if durable then effect_key out w else None) with
  | Some key => key
  | None => context_run_id out +:+ ":" +:+ pretty (engine_turns e) +:+ ":" +:+ call_id call
  end.

(** The tool's answer, or the output the model sees for its failure. *)
Definition tool_answer (call : Call) (timeout operation : option N)
    (r : result Failure ToolOutput) : M ToolOutput :=
  match r with
  | Ok output => mret output
  | Err f =>
      if durable then fail f
      else
        _ ← check_context;
        w ← the_world;
        let expired := is_some_and operation (λ d, (d <=? clock out w)%N) in
        mret (error_output
          match timeout with
          | Some t => if expired
                      then "tool " +:+ debug out (call_name call) +:+ " timed out after "
                           +:+ go_duration t
                      else message (info f)
          | None => message (info f)
          end)
  end.

Definition execute_tool (tool : Tool) (call : Call) : M ExecutedTool :=
  a ← current;
  _ ← observe (ObsToolStarted (agent_name a) call);
  _ ← emit (ToolStarted call);
  e ← self;
  w ← the_world;
  let timeout := match timeout (tools (policy e)) with Some t => Some t | None => tool_timeout tool end in
  let operation :=
    match timeout ≫= instant_add out (clock out w) with
    | Some d => Some (match deadline out with Some d' => N.min d' d | None => d end)
    | None => deadline out
    end in
  let key := idempotency e w call in
  let context := mkToolContext operation (work_dir config) (tools (policy e)) (Some key) in
  _ ← (if child then ext (control_reserve out (mkBudgetUsage 0 1 0 0)) else mret tt);
  let summary := activity_summary call in
  _ ← (if child then ext (control_tool_start out (call_id call) (call_name call) summary)
       else mret tt);
  started ← the_world;
  r ← attempt (_ ← (if preserve_result_on_timeout tool then check_context
                    else active_until operation);
               _ ← note (Executed (agent e) tool call key);
               ext (execute out tool context call));
  ended ← the_world;
  _ ← (if child
       then ext (control_tool_end out (call_id call) (call_name call) summary
                   (match r with Ok output => is_error output | Err _ => true end)
                   (clock out ended - clock out started))
       else mret tt);
  raw ← tool_answer call timeout operation r;
  h ← attempt (observe (RawToolOutput call raw));
  mret (mkExecutedTool raw (match h with Ok _ => None | Err f => Some f end)).

(** *** [Engine::finish_tool] *)

Definition withheld_output : ToolOutput :=
  error_output "Tool completed; output withheld because post-processing failed.".
Definition finish_tool (call : Call) (executed : ExecutedTool) : M unit :=
  _ ← modify (λ e, set_tool_pause (tool_pause e || should_pause (raw executed))
        (set_approvals (delete (call_id call) (approvals e)) (set_calls (tail (calls e)) e)));
  match hook_error executed with
  | Some f =>
      _ ← append (ItemToolResult (call_id call) withheld_output);
      fail f
  | None =>
      e ← self;
      let writable := negb durable && negb (bool_decide (access (tools (policy e)) = ReadOnly)) in
      r ← attempt (ext (process_output out (raw executed) writable));
      match r with
      | Err f =>
          _ ← append (ItemToolResult (call_id call) withheld_output);
          fail f
      | Ok processed =>
          _ ← modify (λ e,
            let e := match spill processed with
                     | Some s => set_spills (spills e ++ [s]) e | None => e end in
            let e := match tool_final e with
                     | None => set_tool_final (Some (text (output_content (item_output processed)))) e
                     | Some _ => e end in
            set_new_items (new_items (run_result e)
                             ++ [ItemToolResult (call_id call) (item_output processed)])
              (set_history (history (run_result e)
                              ++ [ItemToolResult (call_id call) (output processed)]) e));
          _ ← checkpoint ToolCompleted (Some call);
          emit (ToolFinished (call_id call) (item_output processed))
      end
  end.

(** *** [Engine::tool_batch]

    The calls of a batch run in the order the outside picks, each atomically;
    their outputs are then settled in the order of the calls. *)
Definition extract {A} (i : nat) (l : list A) : option (A * list A) :=
  match l !! i with Some a => Some (a, delete i l) | None => None end.
Fixpoint run_batch (fuel : nat) (waiting : list Call)
    (outputs : gmap string (result Failure ExecutedTool))
    : M (gmap string (result Failure ExecutedTool)) :=
  match fuel, waiting with
  | S fuel, _ :: _ =>
      w ← the_world;
      match extract (pick out (length waiting) w mod length waiting) waiting with
      | Some (call, waiting) =>
          e ← self;
          match find_tool e (call_name call) with
          | Some tool =>
              r ← attempt (execute_tool tool call);
              run_batch fuel waiting (<[call_id call := r]> outputs)
          | None => raise Internal "unwrap"
          end
      | None => mret outputs
      end
  | _, _ => mret outputs
  end.
Fixpoint settle_batch (l : list Call) (outputs : gmap string (result Failure ExecutedTool))
    (first : option Failure) : M (option Failure) :=
  match l with
  | [] => mret first
  | call :: l =>
      r ← match outputs !! call_id call with
          | Some (Ok executed) => attempt (finish_tool call executed)
          | Some (Err f) => _ ← modify (λ e, set_calls (tail (calls e)) e); mret (Err f)
          | None => raise Internal "unwrap"
          end;
      settle_batch l outputs
        (match first, r with None, Err f => Some f | _, _ => first end)
  end.
Definition tool_batch : M unit :=
  e ← self;
  let calls := calls e in
  _ ← for_each calls (λ call, checkpoint ToolPrepared (Some call));
  outputs ← run_batch (length calls) calls ∅;
  failure ← settle_batch calls outputs None;
  match failure with Some f => fail f | None => mret tt end.

(** *** [Engine::tool]: whether the run pauses *)

Definition drop_request (id : string) (e : Engine) : Engine :=
  set_pending_approvals
    (List.filter (λ r, negb (String.eqb (call_id (requested_call r)) id))
       (pending_approvals (run_result e))) e.

Definition deny_call (call : Call) : M unit :=
  _ ← modify (λ e, set_calls (tail (calls e)) (drop_request (call_id call) e));
  e ← self;
  let output := error_output (default "tool call denied by host approval gate"
                                (denial_reasons e !! call_id call)) in
  _ ← modify (λ e, set_denial_reasons (delete (call_id call) (denial_reasons e)) e);
  _ ← append (ItemToolResult (call_id call) output);
  emit (ToolFinished (call_id call) output).

(** The approval of one call: [None] when it may run, otherwise whether the run
    pauses. *)
Definition approve_call (call : Call) : M (option bool) :=
  _ ← (if durable then checkpoint ApprovalPending (Some call) else mret tt);
  decision ← ask call;
  e ← self;
  _ ← observe (ObsApprovalMarker None call decision (denial_reasons e !! call_id call)
        (length (new_items (run_result e))) (length (history (run_result e))));
  match decision with
  | Approve => _ ← modify (drop_request (call_id call)); mret None
  | DenyCall => _ ← deny_call call; mret (Some false)
  | Defer =>
      _ ← modify (set_pending_approvals [approval_request call]);
      _ ← checkpoint ApprovalPending (Some call);
      mret (Some true)
  end.

(** The items of a handoff: the call that hands off, and its skipped siblings. *)
Definition handoff_item (call : Call) (name : string) (pending : Call) : Item :=
  if String.eqb (call_id pending) (call_id call)
  then ItemHandoff (call_id pending) name
  else ItemToolResult (call_id pending)
         (error_output ("not executed: the conversation was handed off to " +:+ name
                        +:+ " in this turn")).
Definition hand_off (call : Call) (h : Handoff) : M unit :=
  e ← self;
  let pending : list string := call_id <$> calls e in
  _ ← modify (λ e, set_tool_turn_start None (set_calls [] e));
  let name := agent_name (agents (target h)) in
  let ordered := match last (responses (run_result e)) with
    | Some response =>
        omap (λ item, match item with
          | ItemToolCall c => if is_one_of (call_id c) pending then Some c else None
          | _ => None end) (items response)
    | None => []
    end in
  _ ← for_each ordered (λ c, append (handoff_item call name c));
  _ ← publish_committed;
  from ← current;
  _ ← modify (λ e, set_last_agent (Some name) (set_agent (target h) e));
  _ ← observe (ObsHandoff (agent_name from) name);
  _ ← modify (set_phase ModelPhase);
  checkpoint BHandoff None.

Definition tool (call : Call) : M bool :=
  e ← self;
  let found := find_tool e (call_name call) in
  let handoff := find_handoff e (call_name call) in
  match (match found with
         | Some t => Some (definition t)
         | None => handoff_definition <$> handoff end) with
  | None =>
      _ ← finish_tool call
            (mkExecutedTool (error_output ("unknown tool: " +:+ call_name call)) None);
      mret false
  | Some d =>
      if bool_decide (decision (tools (policy e)) d = Deny) then
        _ ← finish_tool call
              (mkExecutedTool (error_output ("unknown tool: " +:+ call_name call)) None);
        mret false
      else
        _ ← check_arguments d call;
        settled ← (if bool_decide (tool_decision e d = RequireApproval)
                   then approve_call call else mret None);
        match settled with
        | Some paused => mret paused
        | None =>
            _ ← checkpoint ToolPrepared (Some call);
            match handoff, found with
            | Some h, _ => _ ← hand_off call h; mret false
            | None, Some t =>
                _ ← checkpoint ToolDispatched (Some call);
                executed ← execute_tool t call;
                _ ← finish_tool call executed;
                mret false
            | None, None => raise Internal "tool or handoff resolved"
            end
        end
  end.

(** ** [Engine::advance] and [Engine::drive] *)

(** The end of a batch with [StopAfterTool]. *)
Definition stop_after_tool : M unit :=
  _ ← settle_tool_turn;
  if return_tool_output config then
    e ← self;
    let text := default "" (tool_final e) in
    _ ← modify (set_tool_final None);
    candidate ← validate_output text;
    if subagents config || child then
      if durable then
        _ ← modify (set_phase Finalize ∘ set_final_output (Some candidate));
        checkpoint ToolCompleted None
      else finish_candidate candidate
    else modify (set_phase Finish ∘ set_final_output (Some candidate))
  else modify (set_phase Finish).

(** One iteration of the tool phase: [Some] status ends [advance]. *)
Definition tool_phase : M (option RunStatus) :=
  e ← self;
  _ ← (if tools_prepared e then mret tt
       else _ ← prepare_tools; modify (set_tools_prepared true));
  e ← self;
  if parallel_batch_ready e then _ ← tool_batch; mret None
  else
    match calls e with
    | call :: _ => paused ← tool call; mret (if (paused : bool) then Some RunPaused else None)
    | [] =>
        match deferred_calls e with
        | _ :: _ =>
            _ ← modify (λ e, set_deferred_calls [] (set_calls (deferred_calls e) e));
            _ ← modify (set_pending_marker_events []);
            _ ← for_each (pending_marker_events e) observe;
            _ ← settle_tool_turn;
            e ← self;
            _ ← for_each (pending_approvals (run_result e))
                  (λ r, checkpoint ApprovalPending (Some (requested_call r)));
            mret (Some RunPaused)
        | [] =>
            if bool_decide (tool_use (policy e) = StopAfterTool)
               && bool_decide (is_Some (tool_final e))
            then _ ← stop_after_tool; mret None
            else
              _ ← settle_tool_turn;
              let pause := tool_pause e in
              _ ← modify (set_tool_pause false ∘ set_phase ModelPhase);
              mret (if (pause : bool) then Some RunPaused else None)
        end
    end.

(** One iteration of [Engine::advance]. *)
Definition advance_step : M (option RunStatus) :=
  _ ← check_context;
  e ← self;
  match phase e with
  | Start =>
      _ ← try_error (validate_history_pairs (history (run_result e)));
      _ ← checkpoint BStarted None;
      _ ← emit (Started (agent_name (agents (agent e))));
      _ ← modify (set_phase ModelPhase);
      mret None
  | ModelPhase => _ ← model_turn; mret None
  | Tools => tool_phase
  | Finalize =>
      match final_output (run_result e) with
      | None => raise InvalidInput "missing durable final candidate"
      | Some candidate =>
          _ ← modify (set_final_output None);
          _ ← finish_candidate candidate;
          _ ← checkpoint ModelCompleted None;
          mret None
      end
  | Finish => mret (Some RunCompleted)
  end.
(** [None] when the fuel runs out; see [advance_fuel]. *)
Fixpoint advance (fuel : nat) (s : St) : option (result Failure RunStatus * St) :=
  match fuel with
  | O => None
  | S fuel =>
      match advance_step s with
      | (Ok None, s) => advance fuel s
      | (Ok (Some status), s) => Some (Ok status, s)
      | (Err f, s) => Some (Err f, s)
      end
  end.

(** A finished or paused run, or a failed one with what it had done. *)
Inductive RunOutcome :=
| Outcome (result : RunResult Value) (spills : list string) (continuation : option Engine)
| RunError (error : Error) (partial : RunResult Value) (spills : list string).

(** The rest of [drive] after [advance]. *)
Definition conclude (status : RunStatus) : M RunStatus :=
  _ ← publish_committed;
  _ ← modify (set_status status);
  _ ← checkpoint (if bool_decide (status = RunPaused) then BPaused else BCompleted) None;
  e ← self;
  _ ← emit (Finished (run_result e));
  mret status.
(** [Engine::fail] *)
Definition fail_run (f : Failure) (s : St) : RunOutcome * St :=
  let '(_, s) := modify (set_final_output None ∘ set_status RunIncomplete) s in
  let '(_, s) := emit (Failed (info f)) s in
  (RunError (info f) (run_result (engine s)) (spills (engine s)), s).
Definition settle_run (r : result Failure RunStatus) (s : St) : RunOutcome * St :=
  match (match r with Ok status => conclude status s | Err f => (Err f, s) end) with
  | (Ok RunPaused, s) =>
      let '(_, s) := modify (set_sender false) s in
      (Outcome (run_result (engine s)) (spills (engine s)) (Some (engine s)), s)
  | (Ok _, s) => (Outcome (run_result (engine s)) (spills (engine s)) None, s)
  | (Err f, s) => fail_run f s
  end.
Definition drive (fuel : nat) (s : St) : option (RunOutcome * St) :=
  match advance fuel s with
  | Some (r, s) => Some (settle_run r s)
  | None => None
  end.

(** ** [validate_agent]

    The agents already seen are not visited again; the recursion is over the
    agents, whose number is the fuel that is enough (see [validate_agent_total]). *)
Fixpoint check_names (names : gset string) (l : list ToolDefinition) : result Error unit :=
  match l with
  | [] => Ok tt
  | d :: l =>
      if bool_decide (tool_name d ∈ names)
      then Err (mkError InvalidInput ("duplicate tool or handoff: " +:+ tool_name d))
      else
        _ ← compile_schema out (input_schema d);
        check_names ({[tool_name d]} ∪ names) l
  end.
Definition agent_definitions (a : AgentConfig) : list ToolDefinition :=
  (definition <$> agent_tools a) ++ (handoff_definition <$> handoffs a).
Definition check_agent (a : AgentConfig) : result Error unit :=
  _ ← check_names ∅ (agent_definitions a);
  match agent_schema a with
  | Some schema => _ ← compile_schema out schema; Ok tt
  | None => Ok tt
  end.
Fixpoint validate_each (visit : N → gset N → option (result Error (gset N))) (l : list N)
    (seen : gset N) : option (result Error (gset N)) :=
  match l with
  | [] => Some (Ok seen)
  | a :: l =>
      match visit a seen with
      | Some (Ok seen) => validate_each visit l seen
      | r => r
      end
  end.
Fixpoint validate_agent (fuel : nat) (a : N) (seen : gset N) : option (result Error (gset N)) :=
  match fuel with
  | O => None
  | S fuel =>
      if bool_decide (a ∈ seen) then Some (Ok seen)
      else match check_agent (agents a) with
           | Ok _ => validate_each (validate_agent fuel) (target <$> handoffs (agents a))
                       ({[a]} ∪ seen)
           | Err e => Some (Err e)
           end
  end.

(** ** Starting and resuming ([Runner::engine], [Continuation]) *)

Definition new_engine (initial : N) (request : RunRequest Value) (streaming sender : bool)
    : Engine :=
  mkEngine initial (run_policy request) Start [] ∅ ∅ [] [] empty_journal false None 0 false 0
    0 0 0 default_calibration ∅ f64_zero false None streaming sender [] ∅
    (mkRunResult RunIncomplete None [] (run_input request) [] no_usage []
       (Some (agent_name (agents initial)))).

Definition decisions_error : Error :=
  mkError InvalidInput
    "resume decisions must match every pending approval by call ID exactly once".
(** [Continuation::prepare_batch] *)
Definition prepare_batch (e : Engine) (decisions : list (string * ApprovalDecision))
    : result Error Engine :=
  let pending : list string := (call_id ∘ requested_call) <$> pending_approvals (run_result e) in
  if negb (length decisions =? length pending)%nat
     || negb (bool_decide (NoDup (fst <$> decisions)))
     || negb (forallb (λ d, is_one_of d.1 pending) decisions)
  then Err decisions_error
  else Ok (set_status RunIncomplete (set_tools_prepared false
             (set_approvals (list_to_map decisions) (set_streaming false e)))).
(** [Continuation::prepare] *)
Definition prepare (e : Engine) (decision : option ApprovalDecision) : result Error Engine :=
  match pending_approvals (run_result e), decision with
  | [], None => prepare_batch e []
  | [request], Some decision => prepare_batch e [(call_id (requested_call request), decision)]
  | _, _ => Err decisions_error
  end.
(** The decisions a caller supplied, recorded as such. *)
Definition resume_batch (fuel : nat) (decisions : list (string * ApprovalDecision)) (s : St)
    : option (RunOutcome * St) :=
  match prepare_batch (engine s) decisions with
  | Err error =>
      let e := set_status RunIncomplete (engine s) in
      Some (RunError error (run_result e) (spills e), mkSt e (world s) (trace s))
  | Ok e =>
      drive fuel (mkSt e (world s)
        (trace s ++ ((λ d, Resumed d.1 d.2) <$> decisions)))
  end.

(** The loop of [Continuation::resume_go_gate]: each pending call is decided by
    the gate and settled before the next; whether there was one. *)
Definition gate_step : M bool :=
  e ← self;
  match calls e with
  | [] => mret false
  | call :: _ =>
      match List.find (λ r, String.eqb (call_id (requested_call r)) (call_id call))
              (pending_approvals (run_result e)) with
      | None => raise InvalidInput "Go gate resume requires pending approval calls"
      | Some request =>
          answer ← bounded (ext (gate_approve out request));
          let '(approved, reason) := (answer : bool * string) in
          let decision := if approved then Approve else DenyCall in
          _ ← note (Asked call decision);
          _ ← modify (λ e,
            let e := if negb approved && negb (String.eqb (trim reason) "")
              then set_denial_reasons (<[call_id call := trim reason]> (denial_reasons e)) e
              else e in
            set_approvals (<[call_id call := decision]> (approvals e)) e);
          _ ← tool call;
          mret true
      end
  end.
(** [None] when the fuel runs out; see [gate_calls_total]. *)
Fixpoint gate_calls (fuel : nat) (s : St) : option (result Failure unit * St) :=
  match fuel with
  | O => None
  | S fuel =>
      match gate_step s with
      | (Ok true, s) => gate_calls fuel s
      | (Ok false, s) => Some (Ok tt, s)
      | (Err f, s) => Some (Err f, s)
      end
  end.
(** The fresh budget of the invocation that follows. *)
Definition fresh_budget (e : Engine) : Engine :=
  set_calibration default_calibration
    (set_fallbacks ∅
      (set_tool_error_escalated false
        (set_consecutive_tool_errors 0
          (set_stop_gate_blocks 0
            (set_policy (mkRunPolicy base_turn_limit (tools (policy e)) (tool_use (policy e)))
              (set_engine_turns 0 e)))))).
Definition resume_go_gate (fuel : nat) (s : St) : option (RunOutcome * St) :=
  let e := set_sender false
    (set_streaming false (set_tools_prepared true (set_status RunIncomplete (engine s)))) in
  match gate_calls fuel (mkSt e (world s) (trace s)) with
  | None => None
  | Some (Err f, s) => Some (fail_run f s)
  | Some (Ok _, s) =>
      let e := if durable then engine s else fresh_budget (engine s) in
      drive fuel (mkSt (set_tool_final None e) (world s) (trace s))
  end.
End runner.
Arguments AgentConfig : clear implicits.
Arguments RunnerConfig : clear implicits.
Arguments Engine : clear implicits.
Arguments Outside : clear implicits.
Arguments ModelStream : clear implicits.
Arguments Setup : clear implicits.
Arguments Action : clear implicits.
Arguments St : clear implicits.
Arguments RunOutcome : clear implicits.
Notation M Value W := (SE (St Value W) Failure).
