(* ===== verification/RunnerLogic.v ===== *)
(** * RunnerLogic: a program logic for the runner

    [wp m Q E s]: from [s], [m] ends in a state (and with a value) that
    satisfies [Q], or fails in a state that satisfies [E].  [keeps R m]: however
    [m] ends, its states are related by the preorder [R] (an equality of some
    fields, the preservation of an invariant, a bound that only grows).  Most of
    what the engine does towards the outside (events, observations,
    checkpoints, publication) is [silent]: it changes the world, the approval
    journal and the publication cursors, and nothing else; it keeps every
    [Frame]. *)

From Stdlib Require Import SpecFloat.
From S2P Require Import Prelude Text Durable Core SecurityPolicy Subagent.
From S2P Require Import RunTypes Approvals Compaction Runner.

Create HintDb keeps.

Section logic.
Context {Value W : Type} `{EqDecision Value} {setup : Setup Value W}.
Notation St := (St Value W).
Notation Engine := (Engine Value).
Notation M := (M Value W).
Implicit Types (s : St) (e : Engine).

Definition wp {A} (m : M A) (Q : A → St → Prop) (E : St → Prop) (s : St) : Prop :=
  match m s with (Ok a, s') => Q a s' | (Err _, s') => E s' end.

Lemma wp_mono {A} (m : M A) (Q Q' : A → St → Prop) (E E' : St → Prop) s :
  wp m Q E s → (∀ a s', Q a s' → Q' a s') → (∀ s', E s' → E' s') → wp m Q' E' s.
Proof. unfold wp. destruct (m s) as [[]]; auto. Qed.
Lemma wp_bind {A B} (m : M A) (f : A → M B) Q E s :
  wp m (λ a, wp (f a) Q E) E s → wp (m ≫= f) Q E s.
Proof. unfold wp, mbind, SE_bind. by destruct (m s) as [[a|] s1]. Qed.
Lemma wp_ret {A} (a : A) Q E s : Q a s → wp (mret a) Q E s.
Proof. done. Qed.
Lemma wp_fail {A} f (Q : A → St → Prop) (E : St → Prop) s : E s → wp (fail f) Q E s.
Proof. done. Qed.
Lemma wp_self Q (E : St → Prop) s : Q (engine s) s → wp self Q E s.
Proof. done. Qed.
Lemma wp_world Q (E : St → Prop) s : Q (world s) s → wp the_world Q E s.
Proof. done. Qed.
Definition put_engine (e : Engine) s : St := mkSt e (world s) (trace s).
Lemma wp_modify f Q (E : St → Prop) s : Q tt (put_engine (f (engine s)) s) → wp (modify f) Q E s.
Proof. done. Qed.
Definition log (a : Action Value) s : St := mkSt (engine s) (world s) (trace s ++ [a]).
Lemma wp_note a Q (E : St → Prop) s : Q tt (log a s) → wp (note a) Q E s.
Proof. done. Qed.
Lemma wp_attempt {A} (m : M A) Q (E : St → Prop) s :
  wp m (λ a, Q (Ok a)) (λ s', ∀ f, Q (Err f) s') s → wp (attempt m) Q E s.
Proof. unfold wp, attempt. destruct (m s) as [[a|f] s1]; auto. Qed.
Lemma wp_for_each {A} (l : list A) (f : A → M unit) (I : list A → St → Prop) Q (E : St → Prop) s :
  I l s → (∀ a l s, I (a :: l) s → wp (f a) (λ _, I l) E s) → (∀ s, I [] s → Q tt s) →
  wp (for_each l f) Q E s.
Proof.
  intros Hi Hstep Hend. revert s Hi. induction l as [|a l IH]; intros s Hi; simpl; [by apply Hend|].
  apply wp_bind. eapply wp_mono; [by apply Hstep| |done]. intros [] s1 Hs1. by apply IH.
Qed.

(** The successful case alone. *)
Definition ok {A} (m : M A) (Q : A → St → Prop) (s : St) : Prop := wp m Q (λ _, True) s.

Lemma ok_mono {A} (m : M A) (Q Q' : A → St → Prop) s :
  ok m Q s → (∀ a s', Q a s' → Q' a s') → ok m Q' s.
Proof. intros Hm HQ. by eapply wp_mono. Qed.
Lemma ok_bind {A B} (Q' : A → St → Prop) (m : M A) (f : A → M B) Q s :
  ok m Q' s → (∀ a s', Q' a s' → ok (f a) Q s') → ok (m ≫= f) Q s.
Proof. intros Hm Hf. apply wp_bind. by eapply wp_mono. Qed.
Lemma ok_run {A} (m : M A) Q s a s' : ok m Q s → m s = (Ok a, s') → Q a s'.
Proof. unfold ok, wp. intros H Hm. by rewrite Hm in H. Qed.
Lemma ok_fail {A} f (Q : A → St → Prop) s : ok (fail f) Q s.
Proof. done. Qed.
Lemma ok_raise {A} c t (Q : A → St → Prop) s : ok (raise c t) Q s.
Proof. done. Qed.

(** ** What an operation keeps *)

Definition keeps {A} (R : relation St) (m : M A) : Prop := ∀ s, R s (m s).2.

Lemma wp_keeps {A} R (m : M A) (Q : A → St → Prop) (E : St → Prop) s :
  keeps R m → (∀ a s', R s s' → Q a s') → (∀ s', R s s' → E s') → wp m Q E s.
Proof. intros Hm HQ HE. specialize (Hm s). unfold wp. destruct (m s) as [[a|f] s1]; auto. Qed.

Lemma ok_keeps {A} R (m : M A) (Q : A → St → Prop) s :
  keeps R m → (∀ a s', R s s' → Q a s') → ok m Q s.
Proof. intros Hm HQ. by apply (wp_keeps R). Qed.
Lemma ok_after {A B} R (m : M A) (f : A → M B) Q s :
  keeps R m → (∀ a s', R s s' → ok (f a) Q s') → ok (m ≫= f) Q s.
Proof. intros Hm Hf. apply (ok_bind (λ _, R s)); [by apply (ok_keeps R)|done]. Qed.

(** Two facts about the same computation. *)
Lemma wp_and_keeps {A} R (m : M A) (Q : A → St → Prop) (E : St → Prop) s :
  keeps R m → wp m Q E s → wp m (λ a s', Q a s' ∧ R s s') (λ s', E s' ∧ R s s') s.
Proof. intros Hm. specialize (Hm s). unfold wp. destruct (m s) as [[a|f] s1]; auto. Qed.

Section keeps.
Context (R : relation St) `{!PreOrder R}.

Lemma keeps_ret {A} (a : A) : keeps R (mret a).
Proof. intros s. reflexivity. Qed.
Lemma keeps_fail {A} f : keeps R (fail f : M A).
Proof. intros s. reflexivity. Qed.
Lemma keeps_raise {A} c t : keeps R (raise c t : M A).
Proof. intros s. reflexivity. Qed.
Lemma keeps_self : keeps R self.
Proof. intros s. reflexivity. Qed.
Lemma keeps_world : keeps R the_world.
Proof. intros s. reflexivity. Qed.
Lemma keeps_try_error {A} (r : result Error A) : keeps R (try_error r).
Proof. intros s. by destruct r. Qed.
Lemma keeps_bind {A B} (m : M A) (f : A → M B) :
  keeps R m → (∀ a, keeps R (f a)) → keeps R (m ≫= f).
Proof.
  intros Hm Hf s. specialize (Hm s). unfold mbind, SE_bind. destruct (m s) as [[a|] s1]; [|done].
  etrans; [done|apply Hf].
Qed.
Lemma keeps_attempt {A} (m : M A) : keeps R m → keeps R (attempt m).
Proof. intros Hm s. specialize (Hm s). unfold attempt. by destruct (m s). Qed.
Lemma keeps_for_each {A} (l : list A) (f : A → M unit) :
  (∀ a, keeps R (f a)) → keeps R (for_each l f).
Proof.
  intros Hf. induction l as [|a l IH]; simpl; [apply keeps_ret|]. by apply keeps_bind.
Qed.
Lemma keeps_modify f : (∀ s, R s (put_engine (f (engine s)) s)) → keeps R (modify f).
Proof. intros Hf s. apply Hf. Qed.
Lemma keeps_note a : (∀ s, R s (log a s)) → keeps R (note a).
Proof. intros Hf s. apply Hf. Qed.
End keeps.

(** ** Silent operations *)

Definition unobserved (e : Engine) : Engine :=
  set_approval_journal empty_journal (set_committed_cursor 0 (set_committed_markers 0 e)).
Definition view s : Engine * list (Action Value) := (unobserved (engine s), trace s).
Definition same : relation St := λ s s', view s' = view s.

#[export] Instance same_equiv : Equivalence same.
Proof. split; [done| |]; unfold same; repeat intro; congruence. Qed.
#[export] Instance same_preorder : PreOrder same.
Proof. split; apply _. Qed.

Lemma same_field {A} (f : Engine → A) s s' :
  same s s' → (∀ e, f (unobserved e) = f e) → f (engine s') = f (engine s).
Proof.
  intros Hs Hf. rewrite <-(Hf (engine s')), <-(Hf (engine s)).
  exact (f_equal (λ v, f v.1) Hs).
Qed.
Lemma same_trace s s' : same s s' → trace s' = trace s.
Proof. intros Hs. exact (f_equal snd Hs). Qed.

(** A preorder that allows silent operations. *)
Class Frame (R : relation St) : Prop := mkFrame {
  frame_preorder :: PreOrder R;
  frame_same : subrelation same R;
}.
#[export] Instance same_frame : Frame same.
Proof. split; [apply _|done]. Qed.
Lemma keeps_silent {A} R `{!Frame R} (m : M A) : keeps same m → keeps R m.
Proof. intros Hm s. apply frame_same, Hm. Qed.

Lemma keeps_on_world f : keeps same (on_world f).
Proof. done. Qed.
Lemma keeps_ext {A} (op : W → result Failure A * W) : keeps same (ext op).
Proof. intros s. unfold ext. by destruct (op (world s)). Qed.

(** An invariant that silent operations keep, and a function of the state that
    they leave alone, are frames. *)
Definition invariant (K : St → Prop) : relation St := λ s s', K s → K s'.
#[export] Instance invariant_preorder K : PreOrder (invariant K).
Proof. split; unfold invariant; repeat intro; auto. Qed.
Definition fixes {B} (v : Engine → B) : relation St :=
  λ s s', v (engine s') = v (engine s).
#[export] Instance fixes_preorder {B} (v : Engine → B) : PreOrder (fixes v).
Proof. split; unfold fixes; repeat intro; congruence. Qed.
Lemma fixes_frame {B} (v : Engine → B) : (∀ e, v (unobserved e) = v e) → Frame (fixes v).
Proof. intros Hv. split; [apply _|]. intros s s' Hs. by apply same_field. Qed.
Lemma invariant_frame (K : St → Prop) :
  (∀ s s', same s s' → K s → K s') → Frame (invariant K).
Proof. intros HK. split; [apply _|exact HK]. Qed.
(** An invariant of the engine alone. *)
Definition on (K : Engine → Prop) : relation St := λ s s', K (engine s) → K (engine s').
#[export] Instance on_preorder K : PreOrder (on K).
Proof. split; unfold on; repeat intro; auto. Qed.
Lemma on_frame (K : Engine → Prop) : (∀ e, K (unobserved e) = K e) → Frame (on K).
Proof.
  intros HK. split; [apply _|]. intros s s' Hs Hk.
  by rewrite (same_field K s s' Hs HK).
Qed.
Lemma ok_on {A B} K (m : M A) (f : A → M B) Q s :
  keeps (on K) m → K (engine s) → (∀ a s', K (engine s') → ok (f a) Q s') → ok (m ≫= f) Q s.
Proof. intros Hm Hk Hf. eapply (ok_after (on K)); [done|]. intros a s' Hs. by apply Hf, Hs. Qed.
(** An invariant of the engine and of the record. *)
Definition within (K : Engine → list (Action Value) → Prop) : relation St :=
  λ s s', K (engine s) (trace s) → K (engine s') (trace s').
#[export] Instance within_preorder K : PreOrder (within K).
Proof. split; unfold within; repeat intro; auto. Qed.
Lemma within_frame K : (∀ e t, K (unobserved e) t = K e t) → Frame (within K).
Proof.
  intros HK. split; [apply _|]. intros s s' Hs Hk.
  rewrite <-HK, (f_equal fst Hs : unobserved _ = unobserved _), (same_trace s s' Hs), HK. done.
Qed.
Lemma wp_within {A B} K (m : M A) (f : A → M B) Q (E : St → Prop) s :
  keeps (within K) m → K (engine s) (trace s) →
  (∀ s', K (engine s') (trace s') → E s') →
  (∀ a s', K (engine s') (trace s') → wp (f a) Q E s') →
  wp (m ≫= f) Q E s.
Proof.
  intros Hm Hk HE Hf. apply wp_bind. apply (wp_keeps (within K)); [done| |].
  - intros a s' Hs. by apply Hf, Hs.
  - intros s' Hs. by apply HE, Hs.
Qed.
#[export] Instance unobserved_frame : Frame (fixes unobserved).
Proof. by apply fixes_frame. Qed.
End logic.

#[export] Hint Resolve keeps_ret keeps_fail keeps_raise keeps_self keeps_world keeps_try_error
  keeps_on_world keeps_ext : keeps.
#[export] Hint Extern 0 (PreOrder _) => typeclasses eauto : keeps.
#[export] Hint Extern 1 (keeps ?R (_ ≫= _)) => (apply (keeps_bind R); [|intros ?]) : keeps.
#[export] Hint Extern 1 (keeps ?R (attempt _)) => apply (keeps_attempt R) : keeps.
#[export] Hint Extern 1 (keeps ?R (for_each _ _)) => (apply (keeps_for_each R); intros ?) : keeps.
#[export] Hint Extern 1 (keeps ?R (modify _)) =>
  (apply (keeps_modify R); intros ?; first [done|exact (λ h, h)]) : keeps.
#[export] Hint Extern 5 (keeps _ (append _)) => unfold append : keeps.
#[export] Hint Extern 1 (keeps ?R (note _)) =>
  (apply (keeps_note R); intros ?; first [done|exact (λ h, h)]) : keeps.
#[export] Hint Extern 2 (keeps _ (match ?x with _ => _ end)) => destruct x : keeps.
Ltac silent := solve [eauto 60 with keeps].

Section silent_operations.
Context {Value W : Type} `{EqDecision Value} {setup : Setup Value W}.
Notation M := (M Value W).

Lemma silent_active_until d : keeps same (active_until d : M unit).
Proof. unfold active_until. silent. Qed.
Lemma silent_check_context : keeps same (check_context : M unit).
Proof. apply silent_active_until. Qed.
Lemma silent_current : keeps same (current : M _).
Proof. unfold current. silent. Qed.
End silent_operations.
#[export] Hint Resolve silent_active_until silent_check_context silent_current : keeps.

Section silent_operations2.
Context {Value W : Type} `{EqDecision Value} {setup : Setup Value W}.
Notation M := (M Value W).

Lemma silent_bounded {A} (m : M A) : keeps same m → keeps same (bounded m).
Proof. unfold bounded. intros. silent. Qed.
#[local] Hint Resolve silent_bounded : keeps.
Lemma silent_observe o : keeps same (observe o : M unit).
Proof. unfold observe. silent. Qed.
#[local] Hint Resolve silent_observe : keeps.
Lemma silent_emit ev : keeps same (emit ev : M unit).
Proof. unfold emit. silent. Qed.
Lemma silent_checkpoint b p : keeps same (checkpoint b p : M unit).
Proof. unfold checkpoint. silent. Qed.
Lemma silent_publish_committed : keeps same (publish_committed : M unit).
Proof. unfold publish_committed. silent. Qed.
Lemma silent_check_budget : keeps same (check_budget : M unit).
Proof. unfold check_budget. silent. Qed.
Lemma silent_charge_child_usage : keeps same (charge_child_usage : M unit).
Proof. unfold charge_child_usage. silent. Qed.
Lemma silent_lift_panic {A} (o : option A) : keeps same (lift_panic o : M A).
Proof. unfold lift_panic. silent. Qed.
Lemma silent_journal_markers e : keeps same (journal_markers e : M _).
Proof. unfold journal_markers. silent. Qed.
Lemma silent_check_arguments d call : keeps same (check_arguments d call : M unit).
Proof. unfold check_arguments, valid_arguments. silent. Qed.
Lemma silent_validate_output t : keeps same (validate_output t : M Value).
Proof. unfold validate_output. silent. Qed.
Lemma silent_tool_answer call t o r : keeps same (tool_answer call t o r : M _).
Proof. unfold tool_answer. silent. Qed.
Lemma silent_abandon {A} f : keeps same (abandon f : M A).
Proof. unfold abandon, child_model_failure. silent. Qed.
End silent_operations2.
#[export] Hint Resolve silent_bounded silent_observe silent_emit silent_checkpoint
  silent_publish_committed silent_check_budget silent_charge_child_usage silent_lift_panic
  silent_journal_markers silent_check_arguments silent_validate_output silent_tool_answer
  silent_abandon : keeps.
#[export] Hint Extern 3 (keeps ?R _) =>
  (lazymatch R with same => fail | _ => apply keeps_silent; [typeclasses eauto|] end) : keeps.

(** ** Tools run outside the engine *)

Section execution.
Context {Value W : Type} `{EqDecision Value} {setup : Setup Value W}.
Notation M := (M Value W).

Lemma execute_tool_unobserved t c : keeps (fixes unobserved) (execute_tool t c : M _).
Proof. unfold execute_tool. silent. Qed.
#[local] Hint Resolve execute_tool_unobserved : keeps.
Lemma run_batch_unobserved fuel l o : keeps (fixes unobserved) (run_batch fuel l o : M _).
Proof.
  revert l o. induction fuel as [|fuel IH]; intros l o; destruct l; simpl; silent.
Qed.
Lemma keeps_unobserved {A} (K : Engine Value → Prop) (m : M A) :
  keeps (fixes unobserved) m → (∀ e, K (unobserved e) = K e) → keeps (on K) m.
Proof.
  intros Hm HK s Hs. specialize (Hm s). unfold fixes in Hm. by rewrite <-HK, Hm, HK.
Qed.
End execution.

(** ** Streams *)

Section streams.
Context {Value W : Type} `{EqDecision Value} {setup : Setup Value W}.
Notation St := (St Value W).
Notation M := (M Value W).

Lemma stream_ind' (P : ModelStream Value W → Prop) :
  (∀ next, (∀ w ev st w', next w = (Ok (Some (ev, st)), w') → P st) → P (mkStream next)) →
  ∀ st, P st.
Proof.
  intros Hstep. fix IH 1. intros [next]. apply Hstep. intros w ev st w'.
  destruct (next w) as [[[[ev0 st0]|]|] w0]; intros [= -> <- ->]. apply IH.
Qed.

(** A stream leaves the engine alone; what it collected, it showed. *)
Definition pull_post (acc : Streamed (Value := Value)) (s : St)
    (r : result Failure (ModelResponse Value) * Streamed) (s' : St) : Prop :=
  same s s' ∧ (visible r.2 = false → r.2 = acc).
Lemma pull_spec st acc s (E : St → Prop) : wp (pull st acc) (pull_post acc s) E s.
Proof.
  revert acc s. induction st as [next IH] using stream_ind'. intros acc s.
  unfold wp. cbn [pull]. pose proof (silent_check_context s) as Hc.
  destruct (check_context s) as [[[]|f] s1]; [|done]. simpl in Hc.
  destruct (next (world s1)) as [[[[ev st]|]|f] w] eqn:Hn; [|done..].
  case_bool_decide; [done|]. set (s2 := mkSt (engine s1) w (trace s1)).
  pose proof (silent_emit (ModelEmitted ev) s2) as He.
  destruct (emit (ModelEmitted ev) s2) as [[[]|f] s3]; simpl in He.
  - specialize (IH _ _ _ _ Hn (stream_event ev acc) s3). unfold wp in IH.
    destruct (pull st (stream_event ev acc) s3) as [[r|f] s4]; [|done].
    destruct IH as [Hs Hv]. split; [etrans; [exact Hc|]; etrans; [exact He|done]|].
    intros Hf. specialize (Hv Hf). rewrite Hv in Hf. by destruct ev.
  - split; [etrans; [exact Hc|done]|]. simpl. by destruct ev.
Qed.
Lemma pull_silent st acc : keeps same (pull st acc).
Proof.
  intros s. pose proof (pull_spec st acc s (λ _, False)) as Hp. unfold wp in Hp.
  destruct (pull st acc s) as [[r|f] s']; [apply Hp|done].
Qed.
End streams.
#[export] Hint Resolve pull_silent : keeps.

(** ** From the steps to the run *)

Section driving.
Context {Value W : Type} `{EqDecision Value} {setup : Setup Value W}.
Notation St := (St Value W).
Notation Engine := (Engine Value).
Context (K : Engine → list (Action Value) → Prop) `{!Frame (within (W := W) K)}.
Hypothesis Hstep : keeps (within (W := W) K) advance_step.
Hypothesis Hresult : ∀ e tr st, K e tr → K (set_status st e) tr.
Hypothesis Hfinal : ∀ e tr v, K e tr → K (set_final_output v e) tr.
Hypothesis Hsender : ∀ e tr b, K e tr → K (set_sender b e) tr.
Notation holds s := (K (engine s) (trace s)).
Implicit Types s : St.

Lemma advance_within fuel s r s' : holds s → advance fuel s = Some (r, s') → holds s'.
Proof.
  revert s. induction fuel as [|fuel IH]; intros s Hs; [done|]. simpl.
  pose proof (Hstep s Hs) as Hs'.
  destruct (advance_step s) as [[[st|]|f] s1]; [|by apply IH|]; by intros [= <- <-].
Qed.
Lemma conclude_within st : keeps (within (W := W) K) (conclude st).
Proof.
  assert (keeps (within (W := W) K) (modify (set_status st))).
  { apply (keeps_modify (within K)). intros s Hs. by apply Hresult. }
  unfold conclude. silent.
Qed.
Lemma fail_run_within f s : holds s → holds (fail_run f s).2.
Proof.
  intros Hs. unfold fail_run, modify.
  set (s1 := mkSt _ (world s) (trace s)).
  assert (holds s1) as Hs1 by (by apply Hfinal, Hresult).
  pose proof (keeps_silent (within K) _ (silent_emit (Failed (info f))) s1 Hs1) as He.
  by destruct (emit _ s1).
Qed.
Lemma settle_run_within r s : holds s → holds (settle_run r s).2.
Proof.
  intros Hs. unfold settle_run. destruct r as [st|f]; [|by apply fail_run_within].
  pose proof (conclude_within st s Hs) as Hc.
  destruct (conclude st s) as [[[]|f] s']; try exact Hc; [by apply Hsender|].
  by apply fail_run_within.
Qed.
Lemma drive_within fuel s o s' : holds s → drive fuel s = Some (o, s') → holds s'.
Proof.
  intros Hs. unfold drive. destruct (advance fuel s) as [[r s1]|] eqn:Ha; [|done].
  intros [= Heq]. pose proof (settle_run_within r s1) as Hl. rewrite Heq in Hl.
  by eapply Hl, advance_within.
Qed.
End driving.

Section looping.
Context {Value W : Type} `{EqDecision Value} {setup : Setup Value W}.
Notation St := (St Value W).
Implicit Types s : St.

Lemma gate_calls_within (K : Engine Value → list (Action Value) → Prop) fuel s r s' :
  keeps (within (W := W) K) gate_step →
  K (engine s) (trace s) → gate_calls fuel s = Some (r, s') → K (engine s') (trace s').
Proof.
  intros Hstep. revert s. induction fuel as [|fuel IH]; intros s Hs; [done|]. simpl.
  pose proof (Hstep s Hs) as Hs'.
  destruct (gate_step s) as [[[]|f] s1]; [by apply IH|..]; by intros [= <- <-].
Qed.

(** More fuel changes no answer. *)
Lemma advance_more fuel fuel' s r : advance fuel s = Some r → fuel <= fuel' → advance fuel' s = Some r.
Proof.
  revert fuel' s. induction fuel as [|fuel IH]; intros [|fuel'] s Hr Hle; try done; [lia|].
  simpl in *. destruct (advance_step s) as [[[]|] s1]; try done. apply IH; [done|lia].
Qed.
Lemma drive_more fuel fuel' s r : drive fuel s = Some r → fuel <= fuel' → drive fuel' s = Some r.
Proof.
  unfold drive. intros Hr Hle. destruct (advance fuel s) as [x|] eqn:Ha; [|done].
  by rewrite (advance_more _ _ _ _ Ha Hle).
Qed.
Lemma gate_calls_more fuel fuel' s r :
  gate_calls fuel s = Some r → fuel <= fuel' → gate_calls fuel' s = Some r.
Proof.
  revert fuel' s. induction fuel as [|fuel IH]; intros [|fuel'] s Hr Hle; try done; [lia|].
  simpl in *. destruct (gate_step s) as [[[]|] s1]; try done. apply IH; [done|lia].
Qed.
End looping.

Ltac stride K :=
  lazymatch goal with |- wp (_ ≫= _) _ _ _ => idtac end;
  apply (wp_within K); [silent|assumption|by eauto|]; intros ? ? ?; cbv beta.
Ltac tread K := repeat stride K.
(** Steps that keep the invariant [K] of the engine, known to hold. *)
Ltac quiet K :=
  repeat (lazymatch goal with |- ok (_ ≫= _) _ _ => idtac end;
          apply (ok_on K); [silent|assumption|]; intros ? ? ?; cbv beta).
