(* ===== verification/RunnerPairs.v ===== *)
(** * RunnerPairs: calls and their results

    The history of a run is a well-bracketed word: every call is answered once,
    by a result or a handoff.  [coherent] is the invariant of the engine that
    keeps it so, from the items of a response through the approval, the
    deferral, the execution and the handoff of its calls; a completed run has no
    unanswered call, and a paused one exactly those it will take up again. *)

From Stdlib Require Import SpecFloat.
From S2P Require Import Prelude Text Durable Core SecurityPolicy Subagent.
From S2P Require Import RunTypes Approvals Compaction Runner RunnerLogic.

(** ** Histories *)

Section histories.
Context {Value : Type}.
Notation Item := (RunItem Value).
Notation Call := (ToolCall Value).

Definition plain (i : Item) : Prop :=
  match i with ItemToolCall _ | ItemToolResult _ _ | ItemHandoff _ _ => False | _ => True end.
Definition calls_of (l : list Item) : list Call :=
  omap (λ i, match i with ItemToolCall c => Some c | _ => None end) l.
Definition ids (l : list Call) : list string := call_id <$> l.
Definition id_set (l : list Call) : gset string := list_to_set (ids l).

Lemma id_set_cons (c : Call) l : id_set (c :: l) = {[call_id c]} ∪ id_set l.
Proof. done. Qed.
Lemma id_set_app (l k : list Call) : id_set (l ++ k) = id_set l ∪ id_set k.
Proof. unfold id_set, ids. by rewrite fmap_app, list_to_set_app_L. Qed.
Lemma id_set_perm (l k : list Call) : l ≡ₚ k → id_set l = id_set k.
Proof. unfold id_set, ids. intros ->. done. Qed.

Lemma pairs_app p (l k : list Item) :
  pairs_from p (l ++ k) = (q ← pairs_from p l; pairs_from q k).
Proof.
  revert p. induction l as [|i l IH]; intros p; [done|].
  destruct i; simpl; try apply IH; case_bool_decide; auto.
Qed.
Lemma pairs_plain p (l : list Item) : Forall plain l → pairs_from p l = Ok p.
Proof. induction 1 as [|i l Hi _ IH]; [done|]. by destruct i. Qed.
Lemma pairs_snoc_plain p q (l k : list Item) :
  pairs_from p l = Ok q → Forall plain k → pairs_from p (l ++ k) = Ok q.
Proof. intros Hl Hk. rewrite pairs_app, Hl. by apply pairs_plain. Qed.
Lemma pairs_snoc_result p (l : list Item) c (rest : list Call) o :
  pairs_from p l = Ok (id_set (c :: rest)) → NoDup (ids (c :: rest)) →
  pairs_from p (l ++ [ItemToolResult (call_id c) o]) = Ok (id_set rest).
Proof.
  intros Hl [Hc _]%NoDup_cons. rewrite pairs_app, Hl. rewrite id_set_cons. simpl.
  rewrite bool_decide_eq_true_2 by set_solver. do 2 f_equal.
  assert (call_id c ∉ id_set rest) by (unfold id_set; set_solver). set_solver.
Qed.
(** The calls of a response open, each once. *)
Lemma pairs_open p (l : list Item) :
  Forall (λ i, plain i ∨ ∃ c, i = ItemToolCall c) l → NoDup (ids (calls_of l)) →
  p ## id_set (calls_of l) → pairs_from p l = Ok (p ∪ id_set (calls_of l)).
Proof.
  intros Hl. revert p. induction Hl as [|i l Hi _ IH]; intros p Hn Hp.
  { simpl. f_equal. unfold id_set. set_solver. }
  destruct Hi as [Hi|[c ->]].
  - destruct i; try done; by apply IH.
  - change (calls_of (ItemToolCall c :: l)) with (c :: calls_of l) in *.
    apply NoDup_cons in Hn as [Hc Hn]. rewrite id_set_cons in *. simpl.
    rewrite bool_decide_eq_false_2 by set_solver. rewrite IH; [f_equal; set_solver|done|].
    unfold id_set in *. set_solver.
Qed.
(** Answers, each to an open call. *)
Definition answers (c : Call) (i : Item) : Prop :=
  match i with ItemToolResult id _ | ItemHandoff id _ => id = call_id c | _ => False end.
Lemma pairs_close (l : list Call) (k : list Item) :
  Forall2 answers l k → NoDup (ids l) → pairs_from (id_set l) k = Ok ∅.
Proof.
  induction 1 as [|c i l k Hi _ IH]; intros Hn; [done|]. apply NoDup_cons in Hn as [Hc Hn].
  assert (call_id c ∉ id_set l) by (unfold id_set; set_solver).
  assert (({[call_id c]} ∪ id_set l) ∖ {[call_id c]} = id_set l) as He by set_solver.
  destruct i; try done; simpl in Hi; subst; simpl; rewrite id_set_cons;
    rewrite bool_decide_eq_true_2 by set_solver; rewrite He; by apply IH.
Qed.
Lemma validate_pairs (l : list Item) : validate_history_pairs l = Ok tt ↔ pairs_from ∅ l = Ok ∅.
Proof.
  unfold validate_history_pairs. destruct (pairs_from ∅ l) as [q|]; simpl; [|done].
  unfold ensure. case_bool_decide; simpl; split; congruence.
Qed.
End histories.

(** ** The model phase *)

Section pairs.
Context {Value W : Type} `{EqDecision Value} {setup : Setup Value W}.
Notation St := (St Value W).
Notation Engine := (Engine Value).
Notation M := (M Value W).
Implicit Types (s : St) (e : Engine).

(** What the children of a session bring are messages. *)
Definition plain_session : Prop :=
  (∀ w l w', session_collect out w = (Ok l, w') → Forall plain l) ∧
  (∀ w l w', session_join out w = (Ok l, w') → Forall plain l).

Definition waiting e : list (ToolCall Value) := calls e ++ deferred_calls e.
Definition is_handoff e (c : ToolCall Value) : Prop := is_Some (find_handoff e (call_name c)).
(** A handoff among the queued calls is the first of them. *)
Definition handoffs_lead e : Prop :=
  ∀ c, c ∈ calls e → is_handoff e c → ∃ h rest, calls e = h :: rest ∧ is_handoff e h.
(** The waiting calls are calls of the last response, whose calls differ. *)
Definition from_response e : Prop :=
  waiting e = [] ∨
  ∃ r, last (responses (run_result e)) = Some r ∧ NoDup (ids (calls_of (items r))) ∧
       ids (waiting e) ⊆ ids (calls_of (items r)).
Definition tooling e : Prop :=
  pairs_from ∅ (history (run_result e)) = Ok (id_set (waiting e))
  ∧ NoDup (ids (waiting e))
  ∧ from_response e
  ∧ (tools_prepared e = false → durable = true ∨ (deferred_calls e = [] ∧ handoffs_lead e))
  ∧ (deferred_calls e ≠ [] → ∀ c, c ∈ waiting e → ¬ is_handoff e c).
Definition settled e : Prop :=
  pairs_from ∅ (history (run_result e)) = Ok ∅ ∧ calls e = [] ∧ deferred_calls e = [].
Notation calm := (on (W := W) settled).
Definition coherent e : Prop :=
  match phase e with
  | Start => calls e = [] ∧ deferred_calls e = []
  | Tools => tooling e
  | _ => settled e
  end.
Lemma settled_coherent e : settled e → coherent e.
Proof.
  intros (Hp & Hc & Hd). unfold coherent. case_match; try done. unfold tooling, from_response, waiting.
  rewrite Hc, Hd. split_and!; [done|constructor|by left| |done].
  intros _. right. split; [done|]. intros c. rewrite Hc. set_solver.
Qed.
#[local] Instance coherent_frame : Frame (on (W := W) coherent).
Proof. by apply on_frame. Qed.
#[local] Instance settled_frame : Frame calm.
Proof. by apply on_frame. Qed.

Lemma settled_append i : plain i → keeps calm (append i).
Proof.
  intros Hi. apply (keeps_modify calm). intros s (Hp & Hc & Hd). split_and!; [|done..].
  simpl. apply pairs_snoc_plain; [done|by repeat constructor].
Qed.
Lemma settled_append_text t : keeps calm (append (user_text t)).
Proof. by apply settled_append. Qed.
#[local] Hint Resolve settled_append_text : keeps.
Lemma settled_account u c : keeps calm (account_usage u c).
Proof. unfold account_usage. silent. Qed.
#[local] Hint Resolve settled_account : keeps.
Lemma settled_validated {A} (l : list (RunItem Value)) (m : M A) :
  (pairs_from ∅ l = Ok ∅ → keeps calm m) →
  keeps calm (_ ← try_error (validate_history_pairs l); m).
Proof.
  intros Hm s. destruct (validate_history_pairs l) as [[]|err] eqn:Hv; [|exact (λ h, h)].
  apply Hm, validate_pairs, Hv.
Qed.
Lemma settled_replace l : pairs_from ∅ l = Ok ∅ → keeps calm (modify (set_history l)).
Proof. intros Hl. apply (keeps_modify calm). intros s (_ & Hc & Hd). done. Qed.
#[local] Hint Resolve settled_replace : keeps.
#[local] Hint Extern 0 (keeps calm (_ ← try_error (validate_history_pairs _); _)) =>
  (apply settled_validated; intros ?) : keeps.
Lemma settled_compact : keeps calm compact.
Proof. unfold compact. silent. Qed.
Lemma settled_compact_local r f : keeps calm (compact_local r f).
Proof. unfold compact_local. silent. Qed.
#[local] Hint Resolve settled_compact settled_compact_local : keeps.
Lemma settled_settle : keeps calm settle_tool_turn.
Proof.
  apply (keeps_modify calm). intros s (Hp & Hc & Hd). unfold settled, settle.
  simpl. repeat (case_match; simpl); try done; split_and!; try done;
    by apply pairs_snoc_plain; [|repeat constructor].
Qed.
#[local] Hint Resolve settled_settle : keeps.
Lemma settled_child_messages b : keeps calm (apply_child_messages b).
Proof. unfold apply_child_messages. silent. Qed.
#[local] Hint Resolve settled_child_messages : keeps.
Lemma settled_grant p : keeps calm (modify (set_phase p ∘ grant_turn)).
Proof.
  apply (keeps_modify calm). intros s Hs. unfold grant_turn. simpl. by case_match.
Qed.
#[local] Hint Resolve settled_grant : keeps.
Lemma settled_gate v : keeps calm (run_stop_gate v).
Proof. unfold run_stop_gate. silent. Qed.
#[local] Hint Resolve settled_gate : keeps.

Lemma settled_items (l : list (RunItem Value)) : Forall plain l → keeps calm (for_each l append).
Proof.
  induction 1 as [|i l Hi _ IH]; simpl; [silent|].
  apply (keeps_bind calm); [by apply settled_append|done].
Qed.
Lemma settled_ext (op : W → result Failure (list (RunItem Value)) * W)
    {A} (k : list (RunItem Value) → M A) :
  (∀ w l w', op w = (Ok l, w') → Forall plain l) →
  (∀ l, Forall plain l → keeps calm (k l)) → keeps calm (l ← ext op; k l).
Proof.
  intros Hop Hk s Hs. unfold mbind, SE_bind, ext.
  destruct (op (world s)) as [[l|f] w] eqn:Ho; [|exact Hs]. apply (Hk l); [by eapply Hop|exact Hs].
Qed.

Section session.
Hypothesis Hplain : plain_session.
#[local] Hint Resolve settled_items : keeps.

Lemma settled_collect : keeps calm collect_session.
Proof.
  unfold collect_session. case_match; [|silent].
  apply settled_ext; [apply Hplain|]. intros l Hl. silent.
Qed.
Lemma settled_join : keeps calm join_session.
Proof.
  unfold join_session. case_match; [|silent].
  apply settled_ext; [apply Hplain|]. intros l Hl. silent.
Qed.
#[local] Hint Resolve settled_collect settled_join : keeps.

Lemma settled_finish v : keeps calm (finish_candidate v).
Proof. unfold finish_candidate. silent. Qed.
#[local] Hint Resolve settled_finish : keeps.

(** *** Attempts *)

Lemma settled_attempt binding request s :
  settled (engine s) →
  ok (model_attempt binding request)
    (λ r s', (∀ f, r ≠ Err (f, true)) → settled (engine s')) s.
Proof.
  intros Hs. unfold model_attempt. apply (ok_after calm); [silent|]. intros e s1 H1.
  apply (ok_after calm); [silent|]. intros [] s2 H2.
  assert (settled (engine s2)) as Hs2 by (by apply H2, H1).
  case_match; [|apply (ok_keeps calm); [silent|]; by intros r s3 H3 _; apply H3].
  apply (ok_after calm); [silent|]. intros [st|f] s3 H3; [|intros _; by apply H3].
  eapply ok_bind; [apply pull_spec|]. intros [[response|f] acc] s4 [Hsame Hv].
  { intros _. apply (frame_same (R := calm) _ _ Hsame), H3, Hs2. }
  destruct (visible acc) eqn:Hvis.
  { apply (ok_after (λ _ _, True)); [done|]. intros [] s5 _ Hf. simpl in Hf. by destruct (Hf f). }
  simpl in Hv. rewrite (Hv Hvis). simpl. intros _.
  apply (frame_same (R := calm) _ _ Hsame), H3, Hs2.
Qed.
Lemma settled_recover b i next r n f s :
  settled (engine s) →
  ok (recover b i next r n f false) (λ _ s', settled (engine s')) s.
Proof.
  intros Hs. apply (ok_keeps calm); [|by intros v s' H'; apply H'].
  unfold recover, back_off. silent.
Qed.
Lemma recover_committed b i next r n f Q s : ok (recover b i next r n f true) Q s.
Proof.
  unfold recover. case_match; [done|]. apply (ok_after (λ _ _, True)); [done|].
  intros [] s1 _. simpl. unfold abandon. by apply (ok_after (λ _ _, True)).
Qed.
Lemma settled_attempt_model b i next r n s :
  settled (engine s) → ok (attempt_model b i next r n) (λ _ s', settled (engine s')) s.
Proof.
  intros Hs. unfold attempt_model.
  apply (ok_on settled); [silent|done|]. intros e s1 H1. case_match; [done|].
  quiet settled. case_match; [done|].
  eapply ok_bind; [by apply settled_attempt|]. intros [response|[f [|]]] sm Hm.
  - apply (ok_keeps calm); [|by intros ? ? Hk; apply Hk, Hm].
    unfold accept_response. eapply (keeps_bind calm); [|silent].
    apply (keeps_modify calm). intros sn Hn. simpl. by repeat case_match.
  - apply recover_committed.
  - by apply settled_recover, Hm.
Qed.
Lemma settled_model_loop fuel l i r n s :
  settled (engine s) → ok (model_loop fuel l i r n) (λ _ s', settled (engine s')) s.
Proof.
  revert l i r n s. induction fuel as [|fuel IH]; intros l i r n s Hs; [done|].
  destruct l as [|b l]; [done|]. simpl.
  eapply ok_bind; [by apply settled_attempt_model|]. intros [] s1 H1; try done; by apply IH.
Qed.
Lemma settled_model_response r s :
  settled (engine s) → ok (model_response r) (λ _ s', settled (engine s')) s.
Proof.
  intros Hs. apply (ok_on settled); [silent|done|]. intros e s1 H1. by apply settled_model_loop.
Qed.

(** *** From a response to its calls *)

Definition answered (r : ModelResponse Value) e : Prop :=
  (∃ h, history (run_result e) = h ++ items r ∧ pairs_from ∅ h = Ok ∅)
  ∧ calls e = [] ∧ deferred_calls e = [] ∧ last (responses (run_result e)) = Some r.
#[local] Instance answered_frame r : Frame (on (W := W) (answered r)).
Proof. by apply on_frame. Qed.

Lemma append_all (l : list (RunItem Value)) s :
  ok (for_each l append) (λ _ s',
    history (run_result (engine s')) = history (run_result (engine s)) ++ l
    ∧ calls (engine s') = calls (engine s) ∧ deferred_calls (engine s') = deferred_calls (engine s)
    ∧ responses (run_result (engine s')) = responses (run_result (engine s))
    ∧ phase (engine s') = phase (engine s)) s.
Proof.
  revert s. induction l as [|i l IH]; intros s; simpl.
  { unfold ok, wp. simpl. by rewrite app_nil_r. }
  apply (ok_bind (λ _ s', s' = put_engine (append_item i (engine s)) s)); [done|].
  intros _ s' ->. eapply ok_mono; [apply IH|]. simpl. intros _ s1 (-> & Hrest).
  by rewrite <-app_assoc.
Qed.
Lemma record_answered r model s :
  settled (engine s) → ok (record_response r model) (λ _ s', answered r (engine s')) s.
Proof.
  intros (Hp & Hc & Hd). unfold record_response.
  eapply ok_bind; [apply append_all|]. intros _ s1 (Hh & Hc1 & Hd1 & _).
  set (K := λ e : Engine, history (run_result e) = history (run_result (engine s)) ++ items r
                 ∧ calls e = [] ∧ deferred_calls e = []).
  assert (K (engine s1)) as Hk by (split_and!; congruence).
  assert (Frame (on (W := W) K)) by (by apply on_frame).
  apply (ok_on K); [unfold account_usage; silent|done|]. intros a s2 (Hh2 & Hc2 & Hd2).
  apply (ok_bind (λ _ s', answered r (engine s'))); [|intros _ s3 H3; by destruct a].
  split_and!; [by eexists|done..|]. simpl. apply last_snoc.
Qed.

Definition opened e (l : list (RunItem Value)) (seen : gset string) : Prop :=
  Forall (λ i, plain i ∨ ∃ c, i = ItemToolCall c) l ∧ NoDup (ids (calls_of l))
  ∧ seen ## id_set (calls_of l).
Lemma queue_opened prior seen l s :
  ok (queue_calls prior seen l)
    (λ _ s', s' = put_engine (set_calls (calls (engine s) ++ calls_of l) (engine s)) s
             ∧ opened (engine s) l seen) s.
Proof.
  revert seen s. induction l as [|i l IH]; intros seen s.
  { unfold ok, wp, opened. simpl. rewrite app_nil_r. destruct s as [[] ? ?].
    split_and!; [done..|constructor|unfold id_set; set_solver]. }
  assert (plain i → ok (queue_calls prior seen l)
    (λ _ s', s' = put_engine (set_calls (calls (engine s) ++ calls_of (i :: l)) (engine s)) s
             ∧ opened (engine s) (i :: l) seen) s) as Hplain_item.
  { intros Hi. eapply ok_mono; [apply IH|]. intros _ s' [-> (Hf & Hn & Hd)].
    split; [by destruct i|]. split_and!; [constructor; [by left|done]|by destruct i..]. }
  destruct i; simpl; try done; try (case_bool_decide; [by apply Hplain_item|done]);
    try by apply Hplain_item.
  case_match eqn:Hnew; [done|]. apply orb_false_iff in Hnew as [[_ Hseen]%orb_false_iff _].
  apply bool_decide_eq_false in Hseen.
  apply (ok_bind (λ _ s', s' = put_engine (set_calls (calls (engine s) ++ [call]) (engine s)) s));
    [done|]. intros _ s' ->.
  eapply ok_mono; [apply IH|]. intros _ s' [-> (Hf & Hn & Hd)]. simpl.
  split; [by rewrite <-app_assoc|]. split_and!.
  - constructor; [right; by eexists|done].
  - apply NoDup_cons. split; [|done]. unfold id_set in Hd. set_solver.
  - change (calls_of (ItemToolCall call :: l)) with (call :: calls_of l).
    rewrite id_set_cons. set_solver.
Qed.

Lemma handoff_first_spec e :
  calls (handoff_first e) ≡ₚ calls e ∧ handoffs_lead (handoff_first e)
  ∧ ∃ l, handoff_first e = set_calls l e.
Proof.
  unfold handoff_first, handoffs_lead, is_handoff.
  assert (∀ l, match take_handoff e l with
    | Some (h, rest) => h :: rest ≡ₚ l ∧ is_Some (find_handoff e (call_name h))
    | None => ∀ c, c ∈ l → ¬ is_Some (find_handoff e (call_name c)) end) as Htake.
  { induction l as [|c l IH]; simpl; [set_solver|]. case_bool_decide; [done|].
    destruct (take_handoff e l) as [[h rest]|]; simpl; [|set_solver].
    destruct IH as [<- Hh]. split; [constructor|done]. }
  specialize (Htake (calls e)). destruct (take_handoff e (calls e)) as [[h rest]|].
  - destruct Htake as [Hp Hh]. simpl. split_and!; [done| |by eexists].
    intros c _ _. by exists h, rest.
  - split_and!; [done| |by exists (calls e); destruct e].
    intros c Hc Hh. by destruct (Htake c Hc).
Qed.

(** The engine once the calls [l] of its response are queued. *)
Lemma queued_pairs r e l :
  answered r e → opened e (items r) ∅ → l ≡ₚ calls_of (items r) →
  let e' := set_calls l e in
  pairs_from ∅ (history (run_result e')) = Ok (id_set (waiting e'))
  ∧ NoDup (ids (waiting e')) ∧ from_response e' ∧ deferred_calls e' = [].
Proof.
  intros ((h & Hh & Hp) & Hc & Hd & Hr) (Hf & Hn & _) Hl. unfold from_response, waiting.
  simpl. rewrite Hd, app_nil_r. split_and!; [| | |done].
  - rewrite Hh, pairs_app, Hp. simpl. rewrite (id_set_perm _ _ Hl).
    rewrite pairs_open; [f_equal; set_solver|done|done|set_solver].
  - unfold ids. by rewrite Hl.
  - right. exists r. split_and!; [done..|]. unfold ids. by rewrite Hl.
Qed.
Lemma after_response_coherent r s :
  answered r (engine s) → ok (after_response r) (λ _ s', coherent (engine s')) s.
Proof.
  intros Ha. unfold after_response. apply (ok_on (answered r)); [silent|done|]. intros e0 s0 H0.
  clear Ha. eapply ok_bind; [apply queue_opened|]. intros _ s1 [-> Ho].
  apply (ok_bind (λ _ s', s' = put_engine (handoff_first
    (set_calls (calls (engine s0) ++ calls_of (items r)) (engine s0))) s0)); [done|]. intros _ s1 ->.
  destruct (handoff_first_spec (set_calls (calls (engine s0) ++ calls_of (items r)) (engine s0)))
    as (Hperm & Hlead & l & Hl).
  rewrite Hl in Hperm, Hlead |- *. simpl in Hperm. rewrite (proj1 (proj2 H0)) in Hperm.
  destruct (queued_pairs r _ _ H0 Ho Hperm) as (Hp & Hn & Hr & Hd).
  set (s2 := put_engine (set_calls l (engine s0)) s0).
  apply (ok_bind (λ e s', e = engine s2 ∧ s' = s2)); [done|]. intros e s' [-> ->].
  eapply (ok_bind (λ _ s', coherent (engine s'))).
  - destruct (calls (engine s2)) as [|c rest] eqn:Hc.
    + assert (settled (engine s2)) as Hs.
      { simpl in Hc, Hd. subst l. unfold waiting in Hp. simpl in Hp. rewrite Hd in Hp.
        by split_and!. }
      apply (ok_keeps calm); [|intros ? ? Hk; by apply settled_coherent, Hk]. silent.
    + unfold ok, wp, coherent. simpl. split_and!; [done|done|done|intros _; by right|].
      intros Hne. by destruct (Hne Hd).
  - intros [] s' Hs. apply (ok_keeps (on coherent)); [silent|]. intros ? ? Hk. by apply Hk.
Qed.
Lemma model_turn_coherent s :
  settled (engine s) → ok model_turn (λ _ s', coherent (engine s')) s.
Proof.
  intros Hs. unfold model_turn. quiet settled. case_match; [done|]. quiet settled.
  eapply ok_bind; [by apply settled_model_response|]. intros [[[r model] streamed]|] sr Hsr.
  - quiet settled. eapply ok_bind; [by apply record_answered|]. intros [] sa Hsa.
    quiet (answered r). by apply after_response_coherent.
  - apply (ok_keeps calm); [silent|]. intros ? ? Hk. by apply settled_coherent, Hk.
Qed.

(** ** The tool phase *)

Lemma settle_history e :
  ∃ l, Forall plain l ∧ history (run_result (settle e)) = history (run_result e) ++ l.
Proof.
  unfold settle. repeat case_match; simpl;
    first [by exists []; rewrite app_nil_r|by eexists [_]; split; [repeat constructor|reflexivity]].
Qed.
Lemma settle_tooling : keeps (on (W := W) tooling) settle_tool_turn.
Proof.
  apply (keeps_modify (on tooling)). intros s (Hp & Ht). unfold tooling.
  destruct (settle_history (engine s)) as (l & Hl & Hh). simpl. rewrite Hh.
  unfold settle in *. repeat case_match; simpl in *; split; try done; by apply pairs_snoc_plain.
Qed.

(** *** Preparation *)

Definition frozen e :=
  (agent e, phase e, history (run_result e), responses (run_result e), tools_prepared e).
#[local] Instance frozen_frame : Frame (fixes (W := W) frozen).
Proof. by apply fixes_frame. Qed.
Definition queues e := (frozen e, calls e, deferred_calls e).
#[local] Instance queues_frame : Frame (fixes (W := W) queues).
Proof. by apply fixes_frame. Qed.
Lemma ask_queues c : keeps (fixes (W := W) queues) (ask c).
Proof. unfold ask. silent. Qed.
#[local] Hint Resolve ask_queues : keeps.

Lemma queues_inv e e' :
  queues e' = queues e →
  frozen e' = frozen e ∧ calls e' = calls e ∧ deferred_calls e' = deferred_calls e.
Proof. unfold queues. by intros [[]%pair_eq]%pair_eq. Qed.

Lemma prepare_call_spec n c s :
  ok (prepare_call n c) (λ (b : bool) s',
    frozen (engine s') = frozen (engine s)
    ∧ deferred_calls (engine s') = deferred_calls (engine s) ++ if b then [] else [c]) s.
Proof.
  assert (∀ (s1 : St), queues (engine s1) = queues (engine s) →
    frozen (engine s1) = frozen (engine s)
    ∧ deferred_calls (engine s1) = deferred_calls (engine s) ++ []) as Hskip.
  { intros s1 (Hf & _ & Hd)%queues_inv. by rewrite app_nil_r. }
  unfold prepare_call. apply (ok_after (fixes queues)); [silent|]. intros e s1 H1.
  case_match; [|exact (Hskip s1 H1)]. case_bool_decide; [|exact (Hskip s1 H1)].
  apply (ok_after (fixes queues)); [silent|]. intros _ s2 H2.
  apply (ok_after (fixes queues)); [silent|]. intros d s3 H3.
  assert (queues (engine s3) = queues (engine s)) as Hq by (etrans; [apply H3|by etrans]).
  apply queues_inv in Hq as (Hf & _ & Hd).
  case_bool_decide; unfold ok, wp; simpl; rewrite <-Hd; [done|]. by rewrite app_nil_r.
Qed.
Lemma prepare_calls_spec w r s :
  ok (prepare_calls w r) (λ ready s',
    frozen (engine s') = frozen (engine s)
    ∧ ∃ d, ready ++ d ≡ₚ r ++ w ∧ deferred_calls (engine s') = deferred_calls (engine s) ++ d) s.
Proof.
  revert r s. induction w as [|c w IH]; intros r s; simpl.
  { split; [done|]. exists []. rewrite !app_nil_r. done. }
  apply (ok_bind (λ _ s', s' = put_engine (set_calls w (engine s)) s)); [done|]. intros _ s1 ->.
  eapply ok_bind; [apply prepare_call_spec|]. intros b s2 [Hf Hd].
  eapply ok_mono; [apply IH|]. intros ready s3 [Hf3 (d & Hp & Hd3)]. split; [by rewrite Hf3|].
  exists ((if b then [] else [c]) ++ d). rewrite Hd3, Hd. split; [|by rewrite <-app_assoc].
  destruct b; simpl in *; [by rewrite Hp, <-app_assoc|].
  rewrite <-Permutation_middle, Hp. by rewrite Permutation_middle.
Qed.

(** What [tooling] says depends on the frozen fields and on the waiting calls up to
    their order. *)
Lemma tooling_queues e e' :
  tooling e → frozen e' = frozen e → waiting e' ≡ₚ waiting e →
  (tools_prepared e' = false → durable = true ∨ (deferred_calls e' = [] ∧ handoffs_lead e')) →
  (deferred_calls e' ≠ [] → ∀ c, c ∈ waiting e' → ¬ is_handoff e' c) →
  tooling e'.
Proof.
  intros (Hp & Hn & Hr & _) Hf Hw Hlead Hd.
  assert (run_result e' = run_result e' ∧ history (run_result e') = history (run_result e)
    ∧ responses (run_result e') = responses (run_result e)) as (_ & Hh & Hresp).
  { by injection Hf. }
  unfold tooling, from_response. rewrite Hh, Hresp, (id_set_perm _ _ Hw).
  split_and!; try done.
  - unfold ids. by rewrite Hw.
  - destruct Hr as [Hr|(r & Hl & Hn' & Hs)]; [left|right].
    + rewrite Hr in Hw. by apply Permutation_nil_r in Hw.
    + exists r. split_and!; [done..|]. unfold ids. by rewrite Hw.
Qed.
Lemma is_handoff_agent e e' c : agent e' = agent e → is_handoff e' c ↔ is_handoff e c.
Proof. unfold is_handoff, find_handoff. by intros ->. Qed.

Definition ready e : Prop := tooling e ∧ phase e = Tools ∧ tools_prepared e = true.
#[local] Instance ready_frame : Frame (on (W := W) ready).
Proof. by apply on_frame. Qed.
Lemma prepared_ready e e' :
  tooling e → phase e = Tools → frozen e' = frozen e → waiting e' ≡ₚ waiting e →
  (deferred_calls e' ≠ [] → ∀ c, c ∈ waiting e' → ¬ is_handoff e' c) →
  ready (set_tools_prepared true e').
Proof.
  intros Ht Hphase Hf Hw Hd. split_and!; [|simpl; injection Hf; congruence|done].
  apply (tooling_queues (set_tools_prepared true e)); try done.
  - destruct Ht as (? & ? & ? & _ & ?). by split_and!.
  - injection Hf as Ha Hp Hh Hr _. unfold frozen. simpl. congruence.
Qed.
Lemma prepare_tools_ready s :
  tooling (engine s) → phase (engine s) = Tools → tools_prepared (engine s) = false →
  ok prepare_tools (λ _ s', ready (set_tools_prepared true (engine s'))) s.
Proof.
  intros Ht Hphase Hprep. destruct (Ht) as (_ & _ & _ & Hlead & Hdef). unfold prepare_tools.
  destruct Hlead as [->|[Hd Hlead]]; [done| |]; [by apply (prepared_ready (engine s))|].
  case_match; [by apply (prepared_ready (engine s))|].
  apply (ok_bind (λ e s', e = engine s ∧ s' = s)); [done|]. intros e s' [-> ->].
  case_match eqn:Hhead; [by apply (prepared_ready (engine s))|].
  assert (∀ c, c ∈ calls (engine s) → ¬ is_handoff (engine s) c) as Hno.
  { intros c Hc Hh. destruct (Hlead c Hc Hh) as (h & rest & Hcalls & Hhand).
    rewrite Hcalls in Hhead. simpl in Hhead. by apply bool_decide_eq_false in Hhead. }
  apply (ok_bind (λ _ s', s' = put_engine (set_pending_approvals [] (engine s)) s)); [done|].
  intros _ s1 ->. eapply ok_bind; [apply prepare_calls_spec|].
  intros ready0 s2 [Hf (d & Hp & Hd2)]. simpl in Hp, Hd2. rewrite Hd in Hd2. simpl in Hd2.
  assert (waiting (set_calls ready0 (engine s2)) ≡ₚ waiting (engine s)) as Hw.
  { unfold waiting. simpl. by rewrite Hd2, Hd, app_nil_r. }
  apply (prepared_ready (engine s)); try done. intros _ c Hc.
  rewrite Hw in Hc. unfold waiting in Hc. rewrite Hd, app_nil_r in Hc.
  rewrite (is_handoff_agent (engine s)); [by apply Hno|by injection Hf].
Qed.

(** *** Results *)

(** The first waiting call is answered with a result. *)
Definition answer_step (c : ToolCall Value) e e' : Prop :=
  calls e' = tail (calls e) ∧ deferred_calls e' = deferred_calls e
  ∧ (∃ o, history (run_result e') = history (run_result e) ++ [ItemToolResult (call_id c) o])
  ∧ responses (run_result e') = responses (run_result e)
  ∧ agent e' = agent e ∧ phase e' = phase e ∧ tools_prepared e' = tools_prepared e.
Lemma answer_ready c rest e e' :
  ready e → calls e = c :: rest → answer_step c e e' → ready e'.
Proof.
  intros ((Hp & Hn & Hr & _ & Hd) & Hphase & Hprep) Hc (Hc' & Hd' & (o & Ho) & Hr' & Ha & Hph & Hpr).
  rewrite Hc in Hc'. simpl in Hc'.
  assert (waiting e = c :: waiting e') as Hw by (unfold waiting; by rewrite Hc, Hc', Hd').
  rewrite Hw in *. unfold ready, tooling. rewrite Ho, Hph, Hpr.
  split_and!; try done.
  - by apply pairs_snoc_result.
  - by apply NoDup_cons in Hn as [].
  - destruct Hr as [Hr|(r & Hl & Hn' & Hs)]; [congruence|]. right. exists r.
    rewrite Hr'. split_and!; [done..|]. intros id Hid. apply Hs. rewrite Hw. by right.
  - congruence.
  - rewrite Hd'. intros Hne c' Hc''. rewrite (is_handoff_agent e); [|done].
    apply Hd; [done|]. by right.
Qed.

#[local] Instance answer_frame c e : Frame (on (W := W) (answer_step c e)).
Proof. by apply on_frame. Qed.

Lemma finish_tool_answers c x s :
  ok (finish_tool c x) (λ _ s', answer_step c (engine s) (engine s')) s.
Proof.
  unfold finish_tool. set (e0 := engine s).
  set (K := λ e : Engine, calls e = tail (calls e0) ∧ deferred_calls e = deferred_calls e0
    ∧ history (run_result e) = history (run_result e0)
    ∧ responses (run_result e) = responses (run_result e0)
    ∧ agent e = agent e0 ∧ phase e = phase e0 ∧ tools_prepared e = tools_prepared e0).
  assert (Frame (on (W := W) K)) by (by apply on_frame).
  apply (ok_bind (λ _ s', K (engine s'))); [done|]. intros _ s1 H1.
  case_match; [by apply (ok_after (λ _ _, True))|].
  quiet K. case_match; [|by apply (ok_after (λ _ _, True))].
  apply (ok_bind (λ _ s', answer_step c e0 (engine s'))).
  - unfold ok, wp. simpl. unfold answer_step.
    repeat match goal with H : K _ |- _ => destruct H as (?&?&?&?&?&?&?) end.
    repeat case_match; simpl; split_and!; try done; eexists; by f_equal.
  - intros _ sa Ha. quiet (answer_step c e0).
    apply (ok_keeps (on (answer_step c e0))); [silent|]. intros ? ? Hk. by apply Hk.
Qed.
Lemma deny_call_answers c s :
  ok (deny_call c) (λ _ s', answer_step c (engine s) (engine s')) s.
Proof.
  unfold deny_call. set (e0 := engine s).
  apply (ok_bind (λ _ s', s' = put_engine (set_calls (tail (calls e0)) (drop_request (call_id c) e0)) s));
    [done|]. intros _ s1 ->.
  apply (ok_bind (λ _ s1, s1 = put_engine (set_calls (tail (calls e0)) (drop_request (call_id c) e0)) s));
    [done|]. intros e s1 ->.
  apply (ok_bind (λ _ s', s' = put_engine (set_denial_reasons (delete (call_id c)
    (denial_reasons e0)) (set_calls (tail (calls e0)) (drop_request (call_id c) e0))) s)); [done|].
  intros _ s1 ->. apply (ok_bind (λ _ s', answer_step c e0 (engine s'))).
  - unfold ok, wp. simpl. split_and!; try done. by eexists.
  - intros _ s2 H2. apply (ok_keeps (on (answer_step c e0))); [silent|].
    intros ? ? Hk. by apply Hk.
Qed.

(** *** Handoffs *)

Lemma handoff_calls (p : list string) (l : list (RunItem Value)) :
  omap (λ item, match item with
    | ItemToolCall c => if is_one_of (call_id c) p then Some c else None
    | _ => None end) l
  = List.filter (λ c, is_one_of (call_id c) p) (calls_of l).
Proof.
  induction l as [|i l IH]; [done|]. destruct i; try done.
  change (calls_of (ItemToolCall call :: l)) with (call :: calls_of l). simpl. rewrite <-IH. csimpl.
  by destruct (is_one_of (call_id call) p).
Qed.
Lemma NoDup_ids_filter (f : ToolCall Value → bool) l :
  NoDup (ids l) → NoDup (ids (List.filter f l)).
Proof.
  induction l as [|c l IH]; [done|]. intros [Hc Hn]%NoDup_cons. simpl.
  destruct (f c); [|by apply IH]. apply NoDup_cons. split; [|by apply IH].
  intros (c' & He & Hin)%list_elem_of_fmap. apply Hc, list_elem_of_fmap. exists c'. split; [done|].
  apply list_elem_of_In, filter_In in Hin as [Hin _]. by apply list_elem_of_In.
Qed.
Lemma answers_handoff c name l :
  Forall2 answers l (handoff_item (Value := Value) c name <$> l).
Proof.
  induction l as [|c' l IH]; [constructor|]. constructor; [|done].
  unfold handoff_item. by case_match.
Qed.
Lemma for_each_fmap {A} (f : A → RunItem Value) (l : list A) :
  for_each (W := W) l (λ a, append (f a)) = for_each (f <$> l) append.
Proof. induction l as [|a l IH]; simpl; [done|by rewrite IH]. Qed.

Lemma hand_off_settled c h s :
  ready (engine s) → c ∈ calls (engine s) → is_handoff (engine s) c →
  ok (hand_off c h) (λ _ s', settled (engine s')) s.
Proof.
  intros ((Hp & Hn & Hr & _ & Hdef) & _) Hc Hhand.
  assert (deferred_calls (engine s) = []) as Hd.
  { destruct (deferred_calls (engine s)) eqn:Hd; [done|]. exfalso.
    apply (Hdef ltac:(done) c); [|done]. apply elem_of_app. by left. }
  assert (waiting (engine s) = calls (engine s)) as Hw by (unfold waiting; by rewrite Hd, app_nil_r).
  destruct Hr as [Hr|(r & Hl & Hn' & Hs)]; [rewrite Hw in Hr; rewrite Hr in Hc; by inversion Hc|].
  rewrite Hw in *. unfold hand_off.
  apply (ok_bind (λ e s', e = engine s ∧ s' = s)); [done|]. intros e s' [-> ->].
  apply (ok_bind (λ _ s', s' = put_engine (set_tool_turn_start None (set_calls [] (engine s))) s));
    [done|]. intros _ s1 ->. simpl. rewrite Hl, handoff_calls, for_each_fmap.
  set (ordered := List.filter _ (calls_of (items r))).
  eapply ok_bind; [apply append_all|]. intros _ s1 (Hh & Hc1 & Hd1 & _).
  assert (settled (engine s1)) as Hset.
  { split_and!; [|done|by rewrite Hd1]. rewrite Hh. simpl. rewrite pairs_app, Hp. simpl.
    replace (id_set (calls (engine s))) with (id_set ordered).
    - apply pairs_close; [apply answers_handoff|by apply NoDup_ids_filter].
    - apply set_eq. intros id. unfold id_set. rewrite !elem_of_list_to_set. split.
      + intros (c' & -> & Hin)%list_elem_of_fmap.
        apply list_elem_of_In, filter_In in Hin as [_ (id & Hin & He)%existsb_exists].
        apply String.eqb_eq in He as ->. by apply list_elem_of_In.
      + intros Hin. specialize (Hs _ Hin). apply list_elem_of_fmap in Hs as (c' & -> & Hc').
        apply list_elem_of_fmap. exists c'. split; [done|].
        apply list_elem_of_In, filter_In. split; [by apply list_elem_of_In|].
        apply existsb_exists. exists (call_id c'). split; [by apply list_elem_of_In|].
        by apply String.eqb_eq. }
  quiet settled. apply (ok_keeps calm); [silent|]. intros ? ? Hk. by apply Hk.
Qed.

(** *** One call *)

Definition taking a c rest e : Prop := ready e ∧ calls e = c :: rest ∧ agent e = a.
#[local] Instance taking_frame a c rest : Frame (on (W := W) (taking a c rest)).
Proof. by apply on_frame. Qed.
Lemma taking_answered {A} a c rest (m : M A) s :
  taking a c rest (engine s) → ok m (λ _ s', answer_step c (engine s) (engine s')) s →
  ok m (λ _ s', ready (engine s')) s.
Proof.
  intros (Hr & Hc & _) Hm. eapply ok_mono; [done|]. intros x s' Ha. by eapply answer_ready.
Qed.
(** Between the steps of a tool phase, and after it. *)
Definition steady e : Prop := settled e ∨ ready e.
Lemma ready_steady e : ready e → steady e.
Proof. by right. Qed.
Lemma settled_steady e : settled e → steady e.
Proof. by left. Qed.
Lemma steady_coherent e : steady e → coherent e.
Proof.
  intros [Hs|(Ht & Hp & _)]; [by apply settled_coherent|]. unfold coherent. by rewrite Hp.
Qed.
Lemma steady_pairs e :
  steady e → pairs_from ∅ (history (run_result e)) = Ok (id_set (waiting e)).
Proof.
  intros [(Hp & Hc & Hd)|((Hp & _) & _)]; [|done]. unfold waiting. by rewrite Hp, Hc, Hd.
Qed.

Lemma taking_ask a c rest d : keeps (on (W := W) (taking a c rest)) (ask d).
Proof. unfold ask. silent. Qed.
#[local] Hint Resolve taking_ask : keeps.
Lemma approve_call_taking a c rest s :
  taking a c rest (engine s) →
  ok (approve_call c) (λ r s',
    match r with None => taking a c rest (engine s') | Some _ => ready (engine s') end) s.
Proof.
  intros Hs. unfold approve_call. quiet (taking a c rest). case_match.
  - by quiet (taking a c rest).
  - eapply ok_bind; [by eapply taking_answered, deny_call_answers|]. by intros [] sd Hd.
  - quiet (taking a c rest).
    by match goal with H : taking a c rest (engine ?s) |- ok _ _ ?s => destruct H end.
Qed.
Lemma finish_steady a c rest x s :
  taking a c rest (engine s) →
  ok (_ ← finish_tool c x; mret false) (λ _ s', steady (engine s')) s.
Proof.
  intros Hs. eapply ok_bind; [by eapply taking_answered, finish_tool_answers|].
  intros [] sd Hd. by apply ready_steady.
Qed.
Lemma taking_execute a c rest t d : keeps (on (W := W) (taking a c rest)) (execute_tool t d).
Proof. apply keeps_unobserved; [apply execute_tool_unobserved|done]. Qed.
#[local] Hint Resolve taking_execute : keeps.
Lemma tool_steady a c rest s :
  taking a c rest (engine s) → ok (tool c) (λ _ s', steady (engine s')) s.
Proof.
  intros Hs. unfold tool.
  apply (ok_bind (λ e s', e = engine s ∧ s' = s)); [done|]. intros e s' [-> ->].
  case_match eqn:Hd; [|by eapply finish_steady]. case_bool_decide; [by eapply finish_steady|].
  assert (agent (engine s) = a) as Ha by apply Hs.
  quiet (taking a c rest).
  eapply (ok_bind (λ r s', match r with
    None => taking a c rest (engine s') | Some _ => ready (engine s') end)).
  { case_bool_decide; [by apply approve_call_taking|done]. }
  intros [paused|] sa Hsa; [by apply ready_steady|]. quiet (taking a c rest).
  destruct (find_handoff (engine s) (call_name c)) as [h|] eqn:Hh.
  - match goal with H : taking a c rest (engine ?s) |- ok _ _ ?s => destruct H as (Hr & Hc & Ha') end.
    eapply ok_bind; [apply hand_off_settled; [done|rewrite Hc; by left|]|].
    + rewrite (is_handoff_agent (engine s)); [by eexists|congruence].
    + intros [] sh Hsh. by apply settled_steady.
  - case_match; [|done]. quiet (taking a c rest). by eapply finish_steady.
Qed.

(** *** A batch *)

Lemma settle_failed l outputs f s :
  ok (settle_batch l outputs (Some f)) (λ r _, r ≠ None) s.
Proof.
  revert s. induction l as [|c l IH]; intros s; simpl; [done|].
  apply (ok_after (λ _ _, True)); [done|]. intros r s1 _. apply IH.
Qed.
Lemma settle_batch_ready l outputs s :
  ready (engine s) → calls (engine s) = l →
  ok (settle_batch l outputs None) (λ r s', r = None → ready (engine s')) s.
Proof.
  revert s. induction l as [|c l IH]; intros s Hs Hc; simpl; [by intros _|].
  apply (ok_bind (λ r s', ∀ x, r = Ok x → ready (engine s') ∧ calls (engine s') = l)).
  - case_match; [case_match|]; [|done..].
    unfold ok. apply wp_attempt. eapply wp_mono; [apply finish_tool_answers| |done].
    intros [] s1 Ha ? _. split; [by eapply answer_ready|]. destruct Ha as [-> _]. by rewrite Hc.
  - intros [x|f] s1 H1.
    + destruct (H1 x eq_refl) as [Hr1 Hc1]. by apply IH.
    + eapply ok_mono; [apply settle_failed|]. by intros r s2 Hne ->.
Qed.
Lemma tool_batch_ready s :
  ready (engine s) → ok tool_batch (λ _ s', ready (engine s')) s.
Proof.
  intros Hs. unfold tool_batch.
  apply (ok_bind (λ e s', e = engine s ∧ s' = s)); [done|]. intros e s' [-> ->].
  set (K := λ e : Engine, ready e ∧ calls e = calls (engine s)).
  assert (Frame (on (W := W) K)) by (by apply on_frame).
  assert (K (engine s)) as Hk by done.
  assert (∀ n l o, keeps (on (W := W) K) (run_batch n l o)).
  { intros n l o. by apply keeps_unobserved; [apply run_batch_unobserved|]. }
  quiet K. eapply ok_bind.
  - match goal with H : K (engine ?s) |- ok _ _ ?s => destruct H as [Hr Hc] end.
    by apply settle_batch_ready.
  - intros [f|] s1 Hr1; [done|by apply Hr1].
Qed.

(** ** The engine's steps *)

Lemma ready_settled e :
  ready e → calls e = [] → deferred_calls e = [] → settled e.
Proof.
  intros ((Hp & _) & _) Hc Hd. split_and!; [|done..]. unfold waiting in Hp.
  by rewrite Hc, Hd in Hp.
Qed.
Lemma settled_stop_after : keeps calm stop_after_tool.
Proof. unfold stop_after_tool. silent. Qed.
Lemma ready_settle : keeps (on (W := W) ready) settle_tool_turn.
Proof.
  intros s (Ht & Hp & Hr). split; [by apply settle_tooling|].
  unfold settle_tool_turn, modify, settle. simpl. by repeat case_match.
Qed.
#[local] Hint Resolve ready_settle settled_stop_after : keeps.

Lemma tool_phase_steady s :
  tooling (engine s) → phase (engine s) = Tools →
  ok tool_phase (λ r s', steady (engine s') ∧ ∀ st, r = Some st → st = RunPaused) s.
Proof.
  intros Ht Hphase. unfold tool_phase.
  apply (ok_bind (λ e s', e = engine s ∧ s' = s)); [done|]. intros e s' [-> ->].
  apply (ok_bind (λ _ s', ready (engine s'))).
  { destruct (tools_prepared (engine s)) eqn:Hprep; [done|].
    eapply ok_bind; [by apply prepare_tools_ready|]. done. }
  intros _ s1 H1. apply (ok_bind (λ e s', e = engine s1 ∧ s' = s1)); [done|]. intros e s' [-> ->].
  case_match.
  { eapply ok_bind; [by apply tool_batch_ready|]. intros [] s2 H2.
    split; [by apply ready_steady|done]. }
  destruct (calls (engine s1)) as [|c rest] eqn:Hc.
  2:{ eapply ok_bind; [by eapply tool_steady|]. intros paused s2 H2.
      split; [done|]. by destruct paused; intros st [= <-]. }
  destruct (deferred_calls (engine s1)) as [|d ds] eqn:Hd.
  - pose proof (ready_settled _ H1 Hc Hd) as Hs. case_match.
    + quiet settled. split; [by apply settled_steady|done].
    + quiet settled. split; [by apply settled_steady|by case_match; intros st [= <-]].
  - apply (ok_bind (λ _ s', ready (engine s'))).
    { unfold ok, wp. simpl. destruct H1 as (Ht1 & Hp1 & Hr1). split_and!; [|done..].
      apply (tooling_queues (engine s1)); try done; [|simpl; congruence].
      unfold waiting. simpl. by rewrite Hc, app_nil_r. }
    intros _ s2 H2. quiet ready. split; [by apply ready_steady|by intros st [= <-]].
Qed.
Lemma advance_step_coherent s :
  coherent (engine s) →
  ok advance_step (λ r s', coherent (engine s') ∧
    ∀ st, r = Some st → steady (engine s') ∧ (st ≠ RunPaused → settled (engine s'))) s.
Proof.
  intros Hs. unfold advance_step. apply (ok_on coherent); [silent|done|]. intros _ s1 H1.
  apply (ok_bind (λ e s', e = engine s1 ∧ s' = s1)); [done|]. intros e s' [-> ->].
  unfold coherent in H1. destruct (phase (engine s1)) eqn:Hphase.
  - apply (ok_bind (λ _ s', settled (engine s'))).
    + destruct (validate_history_pairs (history (run_result (engine s1)))) as [[]|] eqn:Hv; [|done].
      apply validate_pairs in Hv. by destruct H1.
    + intros _ s2 H2. quiet settled. by split; [apply settled_coherent|].
  - eapply ok_bind; [by apply model_turn_coherent|]. by intros [] s2 H2.
  - eapply ok_mono; [by apply tool_phase_steady|]. intros r s2 [H2 Hr].
    split; [by apply steady_coherent|]. intros st Hst. by rewrite (Hr st Hst).
  - case_match; [|done]. quiet settled. by split; [apply settled_coherent|].
  - split; [by apply settled_coherent|]. intros st _. by split; [left|].
Qed.
Lemma advance_coherent fuel s r s' :
  coherent (engine s) → advance fuel s = Some (Ok r, s') →
  steady (engine s') ∧ (r ≠ RunPaused → settled (engine s')).
Proof.
  revert s. induction fuel as [|fuel IH]; intros s Hs Hrun; [done|]. simpl in Hrun.
  pose proof (advance_step_coherent s Hs) as Hstep. unfold ok, wp in Hstep.
  destruct (advance_step s) as [[[st|]|f] s1]; [|by apply (IH s1); [apply Hstep|]|done].
  injection Hrun as <- <-. by apply Hstep.
Qed.

Lemma conclude_same st : keeps (fixes (W := W) (λ e, set_status RunIncomplete (unobserved e))) (conclude st).
Proof.
  assert (Frame (fixes (W := W) (λ e, set_status RunIncomplete (unobserved e)))) by (by apply fixes_frame).
  unfold conclude. silent.
Qed.
Lemma conclude_keeps K st : (∀ e, K (set_status RunIncomplete (unobserved e)) = K e) →
  keeps (on (W := W) K) (conclude st).
Proof.
  intros HK s Hs. pose proof (conclude_same st s) as Hc. unfold fixes in Hc. by rewrite <-HK, Hc, HK.
Qed.

(** A finished run has no open call; a paused one those it will take up again. *)
Definition answered_run (r : RunResult Value) (k : option Engine) : Prop :=
  match k with
  | None => validate_history_pairs (history r) = Ok tt
  | Some e => run_result e = r ∧ steady e
              ∧ pairs_from ∅ (history r) = Ok (id_set (waiting e))
  end.
Lemma drive_answered fuel s r sp k s' :
  coherent (engine s) → drive fuel s = Some (Outcome r sp k, s') → answered_run r k.
Proof.
  intros Hs Hrun. unfold drive in Hrun.
  destruct (advance fuel s) as [[res s1]|] eqn:Hadv; [|done]. injection Hrun as Hrun.
  unfold settle_run in Hrun.
  destruct res as [st|f]; [|unfold fail_run in Hrun; by repeat case_match].
  destruct (advance_coherent _ _ _ _ Hs Hadv) as [Hst Hset].
  pose proof (conclude_keeps steady st ltac:(done) s1 Hst) as Hst2.
  pose proof (conclude_keeps settled st ltac:(done) s1) as Hset2.
  assert (ok (conclude st) (λ st' _, st' = st) s1) as Hstatus.
  { unfold conclude. repeat (apply (ok_after (λ _ _, True)); [done|]; intros ? ? _). done. }
  unfold ok, wp in Hstatus. destruct (conclude st s1) as [[st'|f] s2].
  2:{ unfold fail_run in Hrun. by repeat case_match. }
  subst st'. simpl in Hst2, Hset2. destruct st; injection Hrun as <- <- <- <-; simpl.
  1,3: by apply validate_pairs, Hset2, Hset.
  split; [done|]. split; [done|by apply (steady_pairs (engine s2))].
Qed.

(** ** The gate of a continuation *)

Definition gate_ready e : Prop := tools_prepared e = true ∧ steady e.
Lemma gate_step_steady s :
  steady (engine s) →
  ok gate_step (λ more s', steady (engine s') ∧ (more = false → calls (engine s') = [])) s.
Proof.
  intros Hs. unfold gate_step.
  apply (ok_bind (λ e s', e = engine s ∧ s' = s)); [done|]. intros e s' [-> ->].
  destruct (calls (engine s)) as [|c rest] eqn:Hc; [done|]. case_match; [|done].
  assert (ready (engine s)) as Hr.
  { destruct Hs as [(_ & Hn & _)|Hr]; [congruence|done]. }
  assert (taking (agent (engine s)) c rest (engine s)) as Ht by done. clear Hs Hr.
  quiet (taking (agent (engine s)) c rest). match goal with x : (bool * string)%type |- _ => destruct x as [b reason] end. quiet (taking (agent (engine s)) c rest).
  eapply (ok_bind (λ _ s', taking (agent (engine s)) c rest (engine s'))).
  { unfold ok, wp, modify. by destruct (negb b && _). }
  intros [] s4 H4. eapply ok_bind; [by eapply tool_steady|]. intros paused s5 H5. done.
Qed.
Lemma gate_calls_steady fuel s s' :
  steady (engine s) → gate_calls fuel s = Some (Ok tt, s') → steady (engine s').
Proof.
  revert s. induction fuel as [|fuel IH]; intros s Hs; [done|]. simpl.
  pose proof (gate_step_steady s Hs) as Hstep. unfold ok, wp in Hstep.
  destruct (gate_step s) as [[[]|f] s1]; [by apply IH, Hstep| |done].
  intros [= <-]. apply Hstep.
Qed.
(** A waiting engine, before the gate decides. *)
Lemma steady_prepared e :
  steady e →
  steady (set_sender false (set_streaming false (set_tools_prepared true (set_status RunIncomplete e)))).
Proof.
  intros [Hs|((Hp & Hn & Hr & _ & Hd) & Ht & _)]; [by left|right]. by split_and!.
Qed.
End session.
End pairs.
