(* ===== verification/RunnerAuth.v ===== *)
(** * RunnerAuth: what may be executed

    [validate_agent] visits every agent a run can be handed off to; [authorised]
    says of the record of what was asked of the outside that every executed tool
    is the one its agent offers under the policy of the run, is not denied, and,
    when it requires an approval, was approved before. *)

From Stdlib Require Import SpecFloat.
From S2P Require Import Prelude Text Durable Core SecurityPolicy Subagent.
From S2P Require Import RunTypes Approvals Compaction Runner RunnerLogic.

Section validation.
Context {Value W : Type} `{EqDecision Value} {setup : Setup Value W}.

(** The agents a run that starts with [a] can be handed off to. *)
Inductive reachable (a : N) : N → Prop :=
| reachable_self : reachable a a
| reachable_handoff b h :
    reachable a b → h ∈ handoffs (agents b) → reachable a (target h).

Definition visited (seen seen' : gset N) : Prop :=
  seen ⊆ seen' ∧ ∀ b, b ∈ seen' → b ∉ seen →
    check_agent (agents b) = Ok tt ∧ ∀ h, h ∈ handoffs (agents b) → target h ∈ seen'.

Lemma visited_trans s1 s2 s3 : visited s1 s2 → visited s2 s3 → visited s1 s3.
Proof.
  intros [H12 Hv12] [H23 Hv23]. split; [set_solver|]. intros b Hb Hn.
  destruct (decide (b ∈ s2)) as [Hb2|Hb2]; [|by apply Hv23].
  destruct (Hv12 b Hb2 Hn) as [Hc Ht]. split; [done|]. intros h Hh. set_solver.
Qed.
Lemma validate_each_visited (visit : N → gset N → option (result Error (gset N))) l seen seen' :
  (∀ a s s', visit a s = Some (Ok s') → visited s s' ∧ a ∈ s') →
  validate_each visit l seen = Some (Ok seen') →
  visited seen seen' ∧ ∀ a, a ∈ l → a ∈ seen'.
Proof.
  intros Hv. revert seen. induction l as [|a l IH]; intros seen; simpl.
  { intros [= ->]. split; [split; [done|set_solver]|set_solver]. }
  destruct (visit a seen) as [[s1|]|] eqn:Ha; [|done..]. intros Hl.
  apply Hv in Ha as [Hs1 Ha]. apply IH in Hl as [Hs2 Hl].
  split; [by eapply visited_trans|]. destruct Hs2. set_solver.
Qed.
Lemma validate_agent_visited fuel a seen seen' :
  validate_agent fuel a seen = Some (Ok seen') → visited seen seen' ∧ a ∈ seen'.
Proof.
  revert a seen seen'. induction fuel as [|fuel IH]; intros a seen seen'; simpl; [done|].
  case_bool_decide as Hseen; [intros [= ->]; split; [split; [done|set_solver]|done]|].
  destruct (check_agent (agents a)) as [[]|] eqn:Hc; [|done]. intros Hl.
  apply validate_each_visited in Hl as [[Hsub Hv] Hl]; [|apply IH].
  split; [|set_solver]. split; [set_solver|]. intros b Hb Hn.
  destruct (decide (b = a)) as [->|Hne].
  - split; [done|]. intros h Hh. apply Hl, list_elem_of_fmap. by exists h.
  - apply Hv; set_solver.
Qed.
Lemma validated_reachable fuel a seen b :
  validate_agent fuel a ∅ = Some (Ok seen) → reachable a b →
  b ∈ seen ∧ check_agent (agents b) = Ok tt.
Proof.
  intros [[_ Hv] Ha]%validate_agent_visited Hb.
  assert (b ∈ seen) as Hin; [|by split; [|apply Hv; set_solver]].
  induction Hb as [|b h Hb IH Hh]; [done|]. by apply (Hv b); [|set_solver|].
Qed.

(** The fuel: each nested visit adds an agent to those seen. *)
Lemma validate_each_total (visit : N → gset N → option (result Error (gset N))) l seen U n :
  (∀ a s, a ∈ U → size (U ∖ s) < n → visit a s ≠ None) →
  (∀ a s s', visit a s = Some (Ok s') → s ⊆ s') →
  (∀ a, a ∈ l → a ∈ U) → size (U ∖ seen) < n → validate_each visit l seen ≠ None.
Proof.
  intros Hvisit Hgrow. revert seen. induction l as [|a l IH]; intros seen Hl Hn; simpl; [done|].
  assert (visit a seen ≠ None) as Ha by (apply Hvisit; set_solver).
  destruct (visit a seen) as [[s1|]|] eqn:Hs; [|done..]. apply IH; [set_solver|].
  apply Hgrow in Hs. eapply Nat.le_lt_trans; [|exact Hn]. apply subseteq_size. set_solver.
Qed.
Lemma validate_agent_fuel U fuel a seen :
  (∀ b h, b ∈ U → h ∈ handoffs (agents b) → target h ∈ U) → a ∈ U →
  size (U ∖ seen) < fuel → validate_agent fuel a seen ≠ None.
Proof.
  intros HU. revert a seen. induction fuel as [|fuel IH]; intros a seen Ha Hn; [lia|]. simpl.
  case_bool_decide as Hseen; [done|]. destruct (check_agent (agents a)); [|done].
  eapply (validate_each_total _ _ _ U fuel).
  - intros b s Hb Hs. by apply IH.
  - intros b s s' Hs. by apply validate_agent_visited in Hs as [[] _].
  - intros b (h & -> & Hh)%list_elem_of_fmap. by apply (HU a).
  - assert (U ∖ ({[a]} ∪ seen) ⊂ U ∖ seen) as Hsub%subset_size by set_solver. lia.
Qed.

(** A refusal is that of a reachable agent. *)
Lemma reachable_trans a b c : reachable a b → reachable b c → reachable a c.
Proof. intros Hab Hbc. induction Hbc as [|b' h Hb IH Hh]; [done|]. by eapply reachable_handoff. Qed.
Lemma validate_each_err (visit : N → gset N → option (result Error (gset N))) l seen e :
  validate_each visit l seen = Some (Err e) → ∃ a s, a ∈ l ∧ visit a s = Some (Err e).
Proof.
  revert seen. induction l as [|a l IH]; intros seen; simpl; [done|].
  destruct (visit a seen) as [[s1|e1]|] eqn:Ha; [|intros [= ->]|done].
  - intros (b & s & Hb & Hs)%IH. exists b, s. split; [by right|done].
  - exists a, seen. split; [by left|done].
Qed.
Lemma validate_agent_err fuel a seen e :
  validate_agent fuel a seen = Some (Err e) →
  ∃ b, reachable a b ∧ check_agent (agents b) = Err e.
Proof.
  revert a seen. induction fuel as [|fuel IH]; intros a seen; simpl; [done|].
  case_bool_decide; [done|]. destruct (check_agent (agents a)) as [[]|e'] eqn:Hc.
  - intros (b & s & (h & -> & Hh)%list_elem_of_fmap & Hs)%validate_each_err.
    apply IH in Hs as (b & Hb & Hcb). exists b. split; [|done].
    eapply reachable_trans; [|done]. eapply reachable_handoff; [constructor|done].
  - intros [= ->]. exists a. split; [constructor|done].
Qed.

(** Accepted names differ. *)
Lemma check_names_spec names l :
  check_names names l = Ok tt →
  NoDup (tool_name <$> l) ∧ ∀ d, d ∈ l → tool_name d ∉ names.
Proof.
  revert names. induction l as [|d l IH]; intros names; simpl.
  { intros _. split; [constructor|set_solver]. }
  case_bool_decide as Hd; [done|]. destruct (compile_schema out (input_schema d)); [|done]. simpl.
  intros [Hn Hl]%IH. split.
  - constructor; [|done]. intros (d' & He & Hd')%list_elem_of_fmap.
    apply (Hl d' Hd'). rewrite He. set_solver.
  - intros d' [->|Hd']%elem_of_cons; [done|]. specialize (Hl d' Hd'). set_solver.
Qed.
Lemma check_agent_names (a : AgentConfig Value) :
  check_agent a = Ok tt → NoDup (tool_name <$> agent_definitions a).
Proof.
  unfold check_agent. destruct (check_names ∅ (agent_definitions a)) as [[]|] eqn:Hc; [|done].
  intros _. by apply check_names_spec in Hc as [].
Qed.
End validation.

(** ** Authorisation *)

Section authorisation.
Context {Value W : Type} `{EqDecision Value} {setup : Setup Value W}.
Notation St := (St Value W).
Notation Engine := (Engine Value).
Notation Action := (Action Value).
Notation M := (M Value W).
Implicit Types (s : St) (e : Engine) (tr pre post : list Action).

Definition granted (id : string) tr : Prop :=
  (∃ c, call_id c = id ∧ Asked c Approve ∈ tr) ∨ Resumed id Approve ∈ tr.
Definition allowed e pre (t : Tool) (c : ToolCall Value) : Prop :=
  find_tool e (call_name c) = Some t
  ∧ tool_decision e (definition t) ≠ Deny
  ∧ (tool_decision e (definition t) = RequireApproval → granted (call_id c) pre).

Lemma granted_app id tr tr' : granted id tr → granted id (tr ++ tr').
Proof.
  intros [(c & Hc & Hin)|Hin]; [left; exists c; split; [done|]|right]; apply elem_of_app; by left.
Qed.
Lemma tool_decision_policy e e' d :
  agent e' = agent e → tools (policy e') = tools (policy e) →
  tool_decision e' d = tool_decision e d.
Proof. unfold tool_decision, tools_for_access. by intros -> ->. Qed.
Lemma find_tool_policy e e' n :
  agent e' = agent e → tools (policy e') = tools (policy e) → find_tool e' n = find_tool e n.
Proof. unfold find_tool, tools_for_access. by intros -> ->. Qed.
Lemma allowed_policy e e' tr t c :
  agent e' = agent e → tools (policy e') = tools (policy e) →
  allowed e tr t c → allowed e' tr t c.
Proof.
  unfold allowed. intros Ha Hp. rewrite (tool_decision_policy e e'), (find_tool_policy e e'); done.
Qed.

(** A run that starts as [e0]. *)
Context (e0 : Engine).

Definition authorised tr : Prop :=
  ∀ pre a t c k post, tr = pre ++ Executed a t c k :: post → allowed (set_agent a e0) pre t c.

Lemma authorised_snoc tr x :
  authorised tr →
  (∀ a t c k, x = Executed a t c k → allowed (set_agent a e0) tr t c) →
  authorised (tr ++ [x]).
Proof.
  intros Htr Hx pre a t c k post Heq.
  destruct (decide (post = [])) as [->|Hpost].
  - apply app_inj_tail in Heq as [-> ->]. by eapply Hx.
  - destruct (exists_last Hpost) as (post' & y & ->).
    rewrite app_comm_cons, app_assoc in Heq. apply app_inj_tail in Heq as [Heq _].
    by eapply Htr.
Qed.

Definition lawful e tr : Prop :=
  tools (policy e) = tools (policy e0)
  ∧ reachable (agent e0) (agent e)
  ∧ authorised tr
  ∧ ∀ id, approvals e !! id = Some Approve → granted id tr.
Notation lawfully := (within (W := W) lawful).
#[local] Instance lawful_frame : Frame lawfully.
Proof. by apply within_frame. Qed.

(** Recording something that is not an execution. *)
Definition harmless (x : Action) : Prop := match x with Executed _ _ _ _ => False | _ => True end.
Lemma lawful_log e tr x : harmless x → lawful e tr → lawful e (tr ++ [x]).
Proof.
  intros Hx (Hp & Ha & Htr & Hg). split_and!; [done..| |].
  - apply authorised_snoc; [done|]. by intros a t c k ->.
  - intros id Hid. by apply granted_app, Hg.
Qed.
Lemma lawful_note x : harmless x → keeps lawfully (note x).
Proof. intros Hx s Hs. by apply lawful_log. Qed.
Lemma lawful_called a b n : keeps lawfully (note (Called a b n)).
Proof. by apply lawful_note. Qed.
Lemma lawful_asked c d : keeps lawfully (note (Asked c d)).
Proof. by apply lawful_note. Qed.
#[local] Hint Resolve lawful_called lawful_asked : keeps.

(** *** The model phase *)

Lemma lawful_shrink f :
  (∀ e, policy (f e) = policy e ∧ agent (f e) = agent e ∧ approvals (f e) ⊆ approvals e) →
  keeps lawfully (modify f).
Proof.
  intros Hf. apply (keeps_modify lawfully). intros s (Hp & Ha & Htr & Hg).
  destruct (Hf (engine s)) as (Hfp & Hfa & Hfg). unfold lawful. simpl. rewrite Hfp, Hfa.
  split_and!; [done..|]. intros id Hid. apply Hg. by eapply lookup_weaken.
Qed.
Lemma lawful_modify f :
  (∀ e, policy (f e) = policy e ∧ agent (f e) = agent e ∧ approvals (f e) = approvals e) →
  keeps lawfully (modify f).
Proof.
  intros Hf. apply lawful_shrink. intros e. destruct (Hf e) as (-> & -> & ->). done.
Qed.
Lemma lawful_settle : keeps lawfully settle_tool_turn.
Proof. apply lawful_modify. intros e. unfold settle. by repeat case_match. Qed.
Lemma lawful_grant p : keeps lawfully (modify (set_phase p ∘ grant_turn)).
Proof.
  apply (keeps_modify lawfully). intros s (Hp & Ha & Htr & Hg). unfold lawful, grant_turn. simpl.
  by case_match.
Qed.
Lemma lawful_handoff_first : keeps lawfully (modify handoff_first).
Proof. apply lawful_modify. intros e. unfold handoff_first. by repeat case_match. Qed.
#[local] Hint Resolve lawful_settle lawful_grant lawful_handoff_first : keeps.
Lemma lawful_account u c : keeps lawfully (account_usage u c).
Proof. unfold account_usage. silent. Qed.
Lemma lawful_append i : keeps lawfully (append i).
Proof. unfold append. silent. Qed.
#[local] Hint Resolve lawful_account lawful_append : keeps.
Lemma lawful_record r m : keeps lawfully (record_response r m).
Proof. unfold record_response. silent. Qed.
Lemma lawful_compact : keeps lawfully compact.
Proof. unfold compact. silent. Qed.
Lemma lawful_compact_local r f : keeps lawfully (compact_local r f).
Proof. unfold compact_local. silent. Qed.
Lemma lawful_child_messages b : keeps lawfully (apply_child_messages b).
Proof. unfold apply_child_messages. silent. Qed.
#[local] Hint Resolve lawful_record lawful_compact lawful_compact_local lawful_child_messages : keeps.
Lemma lawful_join : keeps lawfully join_session.
Proof. unfold join_session. silent. Qed.
Lemma lawful_gate v : keeps lawfully (run_stop_gate v).
Proof. unfold run_stop_gate. silent. Qed.
#[local] Hint Resolve lawful_join lawful_gate : keeps.
Lemma lawful_finish v : keeps lawfully (finish_candidate v).
Proof. unfold finish_candidate. silent. Qed.
Lemma lawful_partial b acc : keeps lawfully (keep_partial b acc).
Proof. unfold keep_partial. silent. Qed.
#[local] Hint Resolve lawful_finish lawful_partial : keeps.
Lemma lawful_attempt b r : keeps lawfully (model_attempt b r).
Proof. unfold model_attempt. silent. Qed.
Lemma lawful_accept b n r : keeps lawfully (accept_response b n r).
Proof.
  unfold accept_response. apply (keeps_bind lawfully); [|silent].
  apply lawful_modify. intros e. simpl. split_and!; by repeat case_match.
Qed.
Lemma lawful_recover b i nx r n f c : keeps lawfully (recover b i nx r n f c).
Proof. unfold recover, back_off. silent. Qed.
#[local] Hint Resolve lawful_attempt lawful_accept lawful_recover : keeps.
Lemma lawful_attempt_model b i nx r n : keeps lawfully (attempt_model b i nx r n).
Proof. unfold attempt_model. silent. Qed.
#[local] Hint Resolve lawful_attempt_model : keeps.
Lemma lawful_model_loop fuel l i r n : keeps lawfully (model_loop fuel l i r n).
Proof. revert l i r n. induction fuel; intros l i r n; destruct l; simpl; silent. Qed.
Lemma lawful_queue prior seen l : keeps lawfully (queue_calls prior seen l).
Proof. revert seen. induction l as [|i l IH]; intros seen; simpl; silent. Qed.
#[local] Hint Resolve lawful_model_loop lawful_queue : keeps.
Lemma lawful_collect : keeps lawfully collect_session.
Proof. unfold collect_session. silent. Qed.
Lemma lawful_model_response r : keeps lawfully (model_response r).
Proof. unfold model_response. silent. Qed.
Lemma lawful_after r : keeps lawfully (after_response r).
Proof. unfold after_response. silent. Qed.
#[local] Hint Resolve lawful_collect lawful_model_response lawful_after : keeps.
Lemma lawful_model_turn : keeps lawfully model_turn.
Proof. unfold model_turn. silent. Qed.
#[local] Hint Resolve lawful_model_turn : keeps.

(** *** Approvals *)

Definition lawful_at s : Prop := lawful (engine s) (trace s).
Lemma wp_lawful {A} (m : M A) s :
  keeps lawfully m → lawful_at s → wp m (λ _, lawful_at) lawful_at s.
Proof.
  intros Hm Hs.
  apply (wp_keeps lawfully); [done|intros ? ? Hk; by apply Hk|intros ? Hk; by apply Hk].
Qed.

Lemma ask_lawful c s :
  lawful_at s →
  wp (ask c) (λ d s', lawful_at s' ∧ (d = Approve → granted (call_id c) (trace s'))) lawful_at s.
Proof.
  intros Hs. unfold ask. apply wp_bind, wp_self.
  destruct (approvals (engine s) !! call_id c) as [d|] eqn:Hd.
  - apply wp_bind, wp_modify, wp_ret. destruct Hs as (Hp & Ha & Htr & Hg). split.
    + split_and!; [done..|]. intros id. simpl. rewrite lookup_delete_Some. intros [_ Hid].
      by apply Hg.
    + intros ->. by apply Hg.
  - do 2 stride lawful. apply wp_bind, wp_note, wp_ret. split; [by apply lawful_log|].
    intros ->. left. exists c. split; [done|]. simpl. apply elem_of_app. right. by left.
Qed.
Lemma ask_keeps c : keeps lawfully (ask c).
Proof.
  intros s Hs. pose proof (ask_lawful c s Hs) as Hw. unfold wp in Hw.
  by destruct (ask c s) as [[d|f] s']; [destruct Hw|].
Qed.

Lemma prepare_call_lawful n c : keeps lawfully (prepare_call n c).
Proof.
  unfold prepare_call. apply (keeps_bind lawfully); [silent|]. intros e.
  case_match; [|silent]. case_bool_decide; [|silent].
  apply (keeps_bind lawfully); [silent|]. intros _ s Hs.
  pose proof (ask_lawful c s Hs) as Hw. unfold mbind, SE_bind. unfold wp in Hw.
  destruct (ask c s) as [[d|f] s']; [|done]. destruct Hw as [Hk Hd].
  case_bool_decide as Hdefer; [exact Hk|].
  destruct Hk as (Hp & Ha & Htr & Hg). split_and!; [done..|]. intros id. simpl.
  rewrite lookup_insert_Some. intros [[<- ->]|[_ Hid]]; [by apply Hd|by apply Hg].
Qed.
#[local] Hint Resolve ask_keeps prepare_call_lawful : keeps.
Lemma prepare_calls_lawful w r : keeps lawfully (prepare_calls w r).
Proof. revert r. induction w as [|c w IH]; intros r; simpl; silent. Qed.
#[local] Hint Resolve prepare_calls_lawful : keeps.
Lemma prepare_tools_lawful : keeps lawfully prepare_tools.
Proof. unfold prepare_tools. silent. Qed.
#[local] Hint Resolve prepare_tools_lawful : keeps.

(** *** Executions *)

(** About to execute [t] for [c], as agent [a]. *)
Definition cleared a t c e tr : Prop := lawful e tr ∧ agent e = a ∧ allowed e tr t c.
#[local] Instance cleared_frame a t c : Frame (within (W := W) (cleared a t c)).
Proof. by apply within_frame. Qed.
Lemma lawful_executed a t c k e tr :
  cleared a t c e tr → lawful e (tr ++ [Executed a t c k]).
Proof.
  intros ((Hp & Ha & Htr & Hg) & Hag & Hall). split_and!; [done..| |].
  - apply authorised_snoc; [done|]. intros ? ? ? ? [= <- <- <- <-]. by apply (allowed_policy e).
  - intros id Hid. by apply granted_app, Hg.
Qed.
Lemma cleared_lawful a t c s : cleared a t c (engine s) (trace s) → lawful_at s.
Proof. by intros []. Qed.
#[local] Hint Resolve cleared_lawful : core.

Lemma execute_tool_lawful a t c s :
  cleared a t c (engine s) (trace s) → wp (execute_tool t c) (λ _, lawful_at) lawful_at s.
Proof.
  intros Hs. unfold execute_tool. do 3 stride (cleared a t c). apply wp_bind, wp_self.
  match goal with H : cleared a t c (engine ?s) _ |- wp _ _ _ ?s => destruct (H) as (_ & -> & _) end.
  do 4 stride (cleared a t c).
  apply wp_bind. eapply wp_mono with (Q := λ _, lawful_at) (E := lawful_at); [|intros ? ? ?|done].
  - apply wp_attempt. stride (cleared a t c). apply wp_bind, wp_note.
    eapply wp_mono; [apply wp_lawful; [silent|by apply lawful_executed]|done|done].
  - by apply wp_lawful; [silent|].
Qed.

(** *** One call *)

Definition at_agent a e tr : Prop := lawful e tr ∧ agent e = a.
#[local] Instance at_agent_frame a : Frame (within (W := W) (at_agent a)).
Proof. by apply within_frame. Qed.
Definition approved_at a id e tr : Prop := at_agent a e tr ∧ granted id tr.
#[local] Instance approved_frame a id : Frame (within (W := W) (approved_at a id)).
Proof. by apply within_frame. Qed.
Lemma at_agent_lawful a s : at_agent a (engine s) (trace s) → lawful_at s.
Proof. by intros []. Qed.
Lemma approved_lawful a id s : approved_at a id (engine s) (trace s) → lawful_at s.
Proof. by intros [[]]. Qed.
#[local] Hint Resolve at_agent_lawful approved_lawful : core.

Lemma finish_tool_lawful c x : keeps lawfully (finish_tool c x).
Proof.
  unfold finish_tool. apply (keeps_bind lawfully).
  { apply lawful_shrink. intros e. simpl. split_and!; [done..|]. apply delete_subseteq. }
  intros _. case_match; [silent|]. apply (keeps_bind lawfully); [silent|]. intros e.
  apply (keeps_bind lawfully); [silent|]. intros r. case_match; [|silent].
  apply (keeps_bind lawfully); [|silent]. apply lawful_modify. intros e'.
  by repeat (case_match; simpl).
Qed.
Lemma deny_call_lawful c : keeps lawfully (deny_call c).
Proof. unfold deny_call. silent. Qed.
#[local] Hint Resolve finish_tool_lawful deny_call_lawful : keeps.
Lemma ask_agent c : keeps (fixes (W := W) agent) (ask c).
Proof.
  assert (Frame (fixes (W := W) (agent (Value := Value)))) by (by apply fixes_frame).
  unfold ask. silent.
Qed.
Lemma ask_at_agent a c s :
  at_agent a (engine s) (trace s) →
  wp (ask c) (λ d s', at_agent a (engine s') (trace s') ∧
                (d = Approve → granted (call_id c) (trace s'))) lawful_at s.
Proof.
  intros [Hs Ha]. eapply wp_mono; [eapply wp_and_keeps; [apply ask_agent|by apply ask_lawful]| |].
  - intros d s' [[Hl Hd] Hag]. split; [|done]. split; [done|]. unfold fixes in Hag. congruence.
  - by intros s' [].
Qed.
Lemma approve_call_lawful a c s :
  at_agent a (engine s) (trace s) →
  wp (approve_call c) (λ r s', match r with
    | None => approved_at a (call_id c) (engine s') (trace s') | Some _ => lawful_at s' end)
    lawful_at s.
Proof.
  intros Hs. unfold approve_call. stride (at_agent a).
  apply wp_bind. eapply wp_mono; [by apply ask_at_agent| |done]. intros d sd [Hd Hg].
  pose proof (at_agent_lawful _ _ Hd). destruct d.
  - assert (approved_at a (call_id c) (engine sd) (trace sd)) by (split; auto).
    by tread (approved_at a (call_id c)).
  - by tread lawful.
  - by tread lawful.
Qed.

Lemma hand_off_lawful a c h s :
  at_agent a (engine s) (trace s) → h ∈ handoffs (agents a) →
  wp (hand_off c h) (λ _, lawful_at) lawful_at s.
Proof.
  intros Hs Hh. unfold hand_off. do 5 stride (at_agent a).
  match goal with H : at_agent a (engine ?s) _ |- wp _ _ _ ?s =>
    destruct H as ((Hp & Ha & Htr & Hg) & Hag) end.
  apply wp_bind, wp_modify. apply wp_lawful; [silent|].
  split_and!; [done| |done..]. simpl. rewrite <-Hag in Hh. by eapply reachable_handoff.
Qed.
Lemma find_handoff_in e n h : find_handoff e n = Some h → h ∈ handoffs (agents (agent e)).
Proof. intros [Hh _]%find_some. by apply list_elem_of_In. Qed.
Lemma tool_decision_cases e d :
  decision (tools (policy e)) d ≠ Deny → tool_decision e d ≠ Deny.
Proof. unfold tool_decision. by case_match. Qed.

Lemma tool_lawful c s : lawful_at s → wp (tool c) (λ _, lawful_at) lawful_at s.
Proof.
  intros Hs. unfold tool. apply wp_bind, wp_self.
  case_match eqn:Hd; [|by apply wp_lawful; [silent|]]. rename t into d.
  case_bool_decide as Hdeny; [by apply wp_lawful; [silent|]|].
  set (a := agent (engine s)).
  assert (at_agent a (engine s) (trace s)) as Ha by done.
  set (K := λ e tr, at_agent a e tr ∧
    (tool_decision (engine s) d = RequireApproval → granted (call_id c) tr)).
  assert (Frame (within (W := W) K)) by (by apply within_frame).
  assert (∀ s', K (engine s') (trace s') → lawful_at s') by (intros s' []; eauto).
  stride (at_agent a). apply wp_bind.
  eapply (wp_mono _ (λ (r : option bool) s', match r with
    | Some _ => lawful_at s' | None => K (engine s') (trace s') end)); [|intros r sr Hsr|done].
  { case_bool_decide; [|by apply wp_ret].
    eapply wp_mono; [by apply approve_call_lawful| |done]. by intros [] sa Hsa; [|destruct Hsa]. }
  destruct r as [paused|]; [by apply wp_ret|]. stride K.
  destruct (find_handoff (engine s) (call_name c)) as [h|] eqn:Hh.
  { match goal with H : K (engine ?s) _ |- wp _ _ _ ?s => destruct H as [Hk _] end.
    apply wp_bind. eapply wp_mono; [by eapply hand_off_lawful, find_handoff_in| |done].
    by intros [] sh Hsh. }
  destruct (find_tool (engine s) (call_name c)) as [t|] eqn:Ht; [|by apply wp_fail].
  injection Hd as <-. stride K.
  match goal with H : K (engine ?s) _ |- wp _ _ _ ?s => destruct H as [Hk Hg] end.
  apply wp_bind. eapply wp_mono; [eapply execute_tool_lawful with (a := a)| |done].
  - destruct Hk as [Hl Hag]. split_and!; [done..|]. apply (allowed_policy (engine s)); [done| |].
    + destruct Hl as [-> _]. by destruct Hs as [-> _].
    + split_and!; [done|by apply tool_decision_cases|done].
  - intros x sx Hx. by apply wp_lawful; [silent|].
Qed.
Lemma tool_keeps c : keeps lawfully (tool c).
Proof.
  intros s Hs. pose proof (tool_lawful c s Hs) as Hw. unfold wp in Hw.
  by destruct (tool c s) as [[b|f] s'].
Qed.
#[local] Hint Resolve tool_keeps : keeps.

(** *** A batch *)

(** The agents a run reaches offer each name once. *)
Definition distinct_tools : Prop :=
  (∀ b, reachable (agent e0) b → NoDup (tool_name <$> agent_definitions (agents b)))
  ∧ ∀ t m t', for_access out t m = Some t' → tool_name (definition t') = tool_name (definition t).

Lemma tools_names e :
  distinct_tools → tool_name ∘ definition <$> tools_for_access e
                   = tool_name ∘ definition <$> agent_tools (agents (agent e)).
Proof.
  intros [_ Hf]. unfold tools_for_access. rewrite <-list_fmap_compose. apply list_fmap_ext.
  intros i t _. simpl. destruct (for_access out t _) as [t'|] eqn:Ht; [|done]. by eapply Hf.
Qed.
Lemma batch_allowed e tr c t :
  distinct_tools → lawful e tr → batch_call_ready e c = true →
  find_tool e (call_name c) = Some t → allowed e tr t c.
Proof.
  intros Hdist (_ & Hr & _) (t' & Hin & Hb)%existsb_exists Ht.
  apply andb_true_iff in Hb as [[Hn Ha]%andb_true_iff _].
  apply bool_decide_eq_true in Ha. apply String.eqb_eq in Hn.
  assert (t' = t) as ->.
  { apply find_some in Ht as [Htin Htn]. apply String.eqb_eq in Htn.
    apply list_elem_of_In in Hin, Htin. apply list_elem_of_lookup in Hin as [i Hi].
    apply list_elem_of_lookup in Htin as [j Hj].
    assert (NoDup (tool_name ∘ definition <$> tools_for_access e)) as Hnd.
    { rewrite tools_names; [|done]. pose proof (proj1 Hdist _ Hr) as Hnd.
      unfold agent_definitions in Hnd. rewrite fmap_app, <-list_fmap_compose in Hnd.
      by apply NoDup_app in Hnd as []. }
    assert (i = j) as <-; [|congruence].
    eapply (NoDup_lookup _ _ _ (call_name c) Hnd);
      rewrite list_lookup_fmap, ?Hi, ?Hj; simpl; congruence. }
  split_and!; [done|by rewrite Ha|by rewrite Ha].
Qed.

Section batch.
Hypothesis Hdist : distinct_tools.

Lemma execute_keeps_engine t c s :
  unobserved (engine (execute_tool t c s).2) = unobserved (engine s).
Proof. apply execute_tool_unobserved. Qed.
Lemma batch_ready_unobserved e c : batch_call_ready (unobserved e) c = batch_call_ready e c.
Proof. done. Qed.
Lemma extract_spec {A} i (l : list A) x rest :
  extract i l = Some (x, rest) → x ∈ l ∧ ∀ y, y ∈ rest → y ∈ l.
Proof.
  unfold extract. destruct (l !! i) as [z|] eqn:Hi; [|done]. intros [= -> <-].
  split; [by eapply list_elem_of_lookup_2|]. intros y Hy.
  rewrite <-(take_drop_middle l i x Hi). rewrite delete_take_drop in Hy. set_solver.
Qed.
Lemma run_batch_lawful fuel l o s :
  lawful_at s → (∀ c, c ∈ l → batch_call_ready (engine s) c = true) →
  wp (run_batch fuel l o) (λ _, lawful_at) lawful_at s.
Proof.
  revert l o s. induction fuel as [|fuel IH]; intros l o s Hs Hl; [by destruct l|].
  destruct l as [|c0 l0]; [done|]. cbn [run_batch]. apply wp_bind, wp_world.
  destruct (extract _ _) as [[c rest]|] eqn:Hx; [|done]. apply extract_spec in Hx as [Hc Hrest].
  apply wp_bind, wp_self. destruct (find_tool (engine s) (call_name c)) as [t|] eqn:Ht; [|done].
  apply wp_bind, wp_attempt.
  assert (cleared (agent (engine s)) t c (engine s) (trace s)) as Hcl.
  { split_and!; [done..|]. apply batch_allowed; auto. }
  pose proof (execute_tool_lawful _ _ _ _ Hcl) as Hw.
  pose proof (wp_and_keeps _ _ _ _ _ (execute_tool_unobserved t c) Hw) as Hw'.
  eapply wp_mono; [exact Hw'| |].
  - intros r s' [Hs' He]. apply IH; [done|]. intros y Hy.
    rewrite <-batch_ready_unobserved, He. by apply Hl, Hrest.
  - intros s' [Hs' He] f. apply IH; [done|]. intros y Hy.
    rewrite <-batch_ready_unobserved, He. by apply Hl, Hrest.
Qed.
Lemma settle_batch_lawful l o first : keeps lawfully (settle_batch l o first).
Proof. revert first. induction l as [|c l IH]; intros first; simpl; silent. Qed.
#[local] Hint Resolve settle_batch_lawful : keeps.
Lemma tool_batch_lawful s :
  lawful_at s → parallel_batch_ready (engine s) = true →
  wp tool_batch (λ _, lawful_at) lawful_at s.
Proof.
  intros Hs [_ Hr]%andb_true_iff. unfold tool_batch. apply wp_bind, wp_self.
  set (K := λ e tr, lawful e tr ∧
    forallb (batch_call_ready e) (calls (engine s)) = true).
  assert (Frame (within (W := W) K)) by (by apply within_frame).
  assert (∀ s', K (engine s') (trace s') → lawful_at s') by (intros s' []; eauto).
  assert (K (engine s) (trace s)) as Hk by done. stride K.
  match goal with H : K (engine ?s) _ |- wp _ _ _ ?s => destruct H as [Hl Hb] end.
  apply wp_bind. eapply wp_mono; [apply run_batch_lawful; [done|]| |done].
  - intros c Hc. rewrite forallb_forall in Hb. by apply Hb, list_elem_of_In.
  - intros o so Hso. by apply wp_lawful; [silent|].
Qed.
Lemma tool_batch_keeps s :
  parallel_batch_ready (engine s) = true → lawfully s (tool_batch s).2.
Proof.
  intros Hr Hs. pose proof (tool_batch_lawful s Hs Hr) as Hw. unfold wp in Hw.
  by destruct (tool_batch s) as [[b|f] s'].
Qed.

(** *** The engine's steps *)

(** A choice that depends on the engine's state. *)
Lemma lawful_choose {A} (b : Engine → bool) (m : M A) (f : Engine → M A) :
  (∀ s, b (engine s) = true → lawfully s (m s).2) → (∀ e, keeps lawfully (f e)) →
  keeps lawfully (e ← self; if b e then m else f e).
Proof.
  intros Hm Hf s. unfold mbind, SE_bind, self. destruct (b (engine s)) eqn:Hb; [by apply Hm|apply Hf].
Qed.
Lemma lawful_stop_after : keeps lawfully stop_after_tool.
Proof. unfold stop_after_tool. silent. Qed.
#[local] Hint Resolve lawful_stop_after : keeps.
Lemma tool_phase_lawful : keeps lawfully tool_phase.
Proof.
  unfold tool_phase. apply (keeps_bind lawfully); [silent|]. intros e.
  apply (keeps_bind lawfully); [silent|]. intros _. apply lawful_choose; [|intros e'; silent].
  intros s Hr Hs. pose proof (tool_batch_keeps s Hr Hs) as Hb. unfold mbind, SE_bind.
  by destruct (tool_batch s) as [[]].
Qed.
#[local] Hint Resolve tool_phase_lawful : keeps.
Lemma advance_step_lawful : keeps lawfully advance_step.
Proof. unfold advance_step. silent. Qed.
Lemma drive_lawful fuel s o s' : lawful_at s → drive fuel s = Some (o, s') → lawful_at s'.
Proof. by apply (drive_within lawful); [apply advance_step_lawful|..]. Qed.

(** *** Continuations *)

Lemma list_to_map_granted (ds : list (string * ApprovalDecision)) id tr :
  (list_to_map ds : gmap _ _) !! id = Some Approve →
  granted id (tr ++ ((λ d, Resumed d.1 d.2) <$> ds)).
Proof.
  intros Hd%elem_of_list_to_map_2. right. apply elem_of_app. right.
  apply list_elem_of_fmap. by exists (id, Approve).
Qed.
Lemma lawful_resumed e tr ds :
  lawful e tr → lawful e (tr ++ ((λ d, Resumed d.1 d.2) <$> ds)).
Proof.
  revert tr. induction ds as [|d ds IH]; intros tr Htr; simpl; [by rewrite app_nil_r|].
  replace (tr ++ _ :: _) with ((tr ++ [Resumed d.1 d.2 : Action]) ++ ((λ d, Resumed d.1 d.2) <$> ds))
    by by rewrite <-app_assoc.
  by apply IH, lawful_log.
Qed.
Lemma resume_lawful fuel ds s o s' :
  lawful_at s → resume_batch fuel ds s = Some (o, s') → lawful_at s'.
Proof.
  intros Hs. unfold resume_batch, prepare_batch. destruct (_ || _); [by intros [= <- <-]|].
  apply drive_lawful. destruct (lawful_resumed _ _ ds Hs) as (Hp & Ha & Htr & _).
  split_and!; [done..|]. intros id. apply list_to_map_granted.
Qed.
Lemma lawful_decided e tr id d e' :
  lawful e tr → (d = Approve → granted id tr) →
  policy e' = policy e → agent e' = agent e → approvals e' = <[id := d]> (approvals e) →
  lawful e' tr.
Proof.
  intros (Hp & Ha & Htr & Hg) Hd Hp' Ha' Hap. unfold lawful. rewrite Hp', Ha', Hap.
  split_and!; [done..|]. intros id'. rewrite lookup_insert_Some.
  intros [[<- ->]|[_ Hid]]; [by apply Hd|by apply Hg].
Qed.
Lemma gate_step_lawful : keeps lawfully gate_step.
Proof.
  unfold gate_step. apply (keeps_bind lawfully); [silent|].
  intros e. destruct (calls e) as [|c rest]; [silent|].
  destruct (List.find _ _) as [request|]; [|silent]. apply (keeps_bind lawfully); [silent|].
  intros [approved reason] s Hs. cbv beta iota.
  assert (keeps lawfully (_ ← tool c; mret true)) as Hrest by silent.
  set (d := if approved then Approve else DenyCall).
  refine (Hrest (put_engine _ (log (Asked c d) s)) _).
  apply (lawful_decided (engine s) _ (call_id c) d); [by apply lawful_log| |by case_match..].
  intros Hd. left. exists c. split; [done|]. simpl. rewrite Hd. apply elem_of_app. right. by left.
Qed.
Lemma gate_calls_lawful fuel s r s' :
  lawful_at s → gate_calls fuel s = Some (r, s') → lawful_at s'.
Proof. apply (gate_calls_within lawful), gate_step_lawful. Qed.
Lemma fresh_budget_lawful e tr : lawful e tr → lawful (fresh_budget e) tr.
Proof. done. Qed.
Lemma gate_lawful fuel s o s' :
  lawful_at s → resume_go_gate fuel s = Some (o, s') → lawful_at s'.
Proof.
  intros Hs. unfold resume_go_gate.
  set (e := set_sender false _).
  pose proof (gate_calls_lawful fuel (mkSt e (world s) (trace s))) as Hg.
  destruct (gate_calls fuel _) as [[[[]|f] s1]|]; [..|done];
    specialize (Hg _ _ Hs eq_refl).
  - apply drive_lawful. by destruct durable.
  - intros [= Heq]. assert (lawful_at (fail_run f s1).2) as Hl by by apply (fail_run_within lawful).
    by rewrite Heq in Hl.
Qed.
End batch.
End authorisation.
