(* ===== verification/RunnerTurns.v ===== *)
(** * RunnerTurns: the turns of a run

    Every attempt of a model takes a turn before it calls it, so the calls are
    bounded by the turn limit, retries and fallbacks included. *)

From Stdlib Require Import SpecFloat.
From S2P Require Import Prelude Text Durable Core SecurityPolicy Subagent.
From S2P Require Import RunTypes Approvals Compaction Runner RunnerLogic RunnerPairs.

Section turns.
Context {Value W : Type} `{EqDecision Value} {setup : Setup Value W}.
Notation St := (St Value W).
Notation Engine := (Engine Value).
Notation Action := (Action Value).
Notation M := (M Value W).
Implicit Types (s : St) (e : Engine) (tr : list Action).

Definition is_called (x : Action) : bool := match x with Called _ _ _ => true | _ => false end.
Definition model_calls tr : N := N.of_nat (length (List.filter is_called tr)).
Lemma model_calls_snoc tr x :
  model_calls (tr ++ [x]) = (model_calls tr + if is_called x then 1 else 0)%N.
Proof. unfold model_calls. rewrite List.filter_app, length_app. simpl. case_match; simpl; lia. Qed.

(** ** The turn budget

    [budget n m]: of the turns taken, [n] are left without a call, up to the
    calls [earlier m] made before; at least [least m] are taken, at most the
    limit, which is [limit m] when nothing can grant a turn. *)
Record Bound := mkBound { limit : N; earlier : N; least : N }.
Definition no_grants : Prop := stop_gate config = false ∧ subagents config = false.
Definition budget (n : N) (m : Bound) e tr : Prop :=
  (model_calls tr + n <= engine_turns e + earlier m)%N ∧ (least m <= engine_turns e)%N
  ∧ (engine_turns e <= max_turns (policy e))%N
  ∧ (max_turns (policy e) <= u32_max)%N ∧ (no_grants → max_turns (policy e) = limit m).
Notation within_budget n m := (within (W := W) (budget n m)).
#[export] Instance budget_frame n m : Frame (within_budget n m).
Proof. by apply within_frame. Qed.

Lemma budget_note n m x : is_called x = false → keeps (within_budget n m) (note x).
Proof.
  intros Hx s (Hc & Hrest). split; [|done]. simpl. rewrite model_calls_snoc, Hx. lia.
Qed.
Lemma budget_asked n m c d : keeps (within_budget n m) (note (Asked c d)).
Proof. by apply budget_note. Qed.
Lemma budget_executed n m a t c k : keeps (within_budget n m) (note (Executed a t c k)).
Proof. by apply budget_note. Qed.
#[local] Hint Resolve budget_asked budget_executed : keeps.
Lemma budget_modify n m f :
  (∀ e, policy (f e) = policy e ∧ engine_turns (f e) = engine_turns e) →
  keeps (within_budget n m) (modify f).
Proof.
  intros Hf. apply (keeps_modify (within_budget n m)). intros s Hs. unfold budget. simpl.
  by destruct (Hf (engine s)) as (-> & ->).
Qed.
Lemma budget_settle n m : keeps (within_budget n m) settle_tool_turn.
Proof. apply budget_modify. intros e. unfold settle. by repeat case_match. Qed.
Lemma budget_handoff_first n m : keeps (within_budget n m) (modify handoff_first).
Proof. apply budget_modify. intros e. unfold handoff_first. by repeat case_match. Qed.
#[local] Hint Resolve budget_settle budget_handoff_first : keeps.
Lemma budget_account n m u c : keeps (within_budget n m) (account_usage u c).
Proof. unfold account_usage. silent. Qed.
#[local] Hint Resolve budget_account : keeps.
Lemma budget_record n m r b : keeps (within_budget n m) (record_response r b).
Proof. unfold record_response. silent. Qed.
Lemma budget_compact n m : keeps (within_budget n m) compact.
Proof. unfold compact. silent. Qed.
Lemma budget_compact_local n m r f : keeps (within_budget n m) (compact_local r f).
Proof. unfold compact_local. silent. Qed.
Lemma budget_child_messages n m b : keeps (within_budget n m) (apply_child_messages b).
Proof. unfold apply_child_messages. silent. Qed.
#[local] Hint Resolve budget_record budget_compact budget_compact_local budget_child_messages : keeps.

(** Only the gate and the session grant turns. *)
Lemma budget_grant n m p :
  ¬ no_grants → keeps (within_budget n m) (modify (set_phase p ∘ grant_turn)).
Proof.
  intros Hng. apply (keeps_modify (within_budget n m)). intros s (Hc & Hl & Ht & Hu & Hm).
  unfold budget, grant_turn. simpl. case_match eqn:Hle; simpl; [|done].
  apply N.leb_le in Hle. split_and!; try lia. by intros.
Qed.
Lemma budget_join n m : keeps (within_budget n m) join_session.
Proof.
  unfold join_session. destruct (subagents config) eqn:Hs; [|silent].
  assert (¬ no_grants) by (intros []; congruence).
  apply (keeps_bind (within_budget n m)); [silent|]. intros l.
  case_match; [silent|]. apply (keeps_bind (within_budget n m)); [silent|]. intros _.
  apply (keeps_bind (within_budget n m)); [by apply budget_grant|silent].
Qed.
Lemma budget_gate n m v : keeps (within_budget n m) (run_stop_gate v).
Proof.
  unfold run_stop_gate. apply (keeps_bind (within_budget n m)); [silent|]. intros e.
  destruct (stop_gate config) eqn:Hs; simpl; [|silent].
  assert (¬ no_grants) by (intros []; congruence).
  assert (keeps (within_budget n m) (modify (set_phase ModelPhase ∘ grant_turn)))
    by by apply budget_grant. silent.
Qed.
#[local] Hint Resolve budget_join budget_gate : keeps.
Lemma budget_finish n m v : keeps (within_budget n m) (finish_candidate v).
Proof. unfold finish_candidate. silent. Qed.
Lemma budget_partial n m b acc : keeps (within_budget n m) (keep_partial b acc).
Proof. unfold keep_partial. silent. Qed.
Lemma budget_accept n m b x r : keeps (within_budget n m) (accept_response b x r).
Proof.
  unfold accept_response. apply (keeps_bind (within_budget n m)); [|silent].
  apply budget_modify. intros e. simpl. split_and!; by repeat case_match.
Qed.
Lemma budget_recover n m b i nx r k f c : keeps (within_budget n m) (recover b i nx r k f c).
Proof. unfold recover, back_off. silent. Qed.
#[local] Hint Resolve budget_finish budget_partial budget_accept budget_recover : keeps.

(** An attempt takes a turn, then calls the model at most once. *)
Definition in_budget m s : Prop := budget 0 m (engine s) (trace s).
Definition one_more m : Bound := mkBound (limit m) (earlier m) (least m + 1).
Lemma budget_weaken n m s : budget n m (engine s) (trace s) → in_budget m s.
Proof. intros (Hc & Hrest). split; [lia|done]. Qed.
Lemma budget_one_more n m s : budget n (one_more m) (engine s) (trace s) → in_budget m s.
Proof. intros (Hc & Hl & ? & ? & ?). simpl in *. split_and!; simpl; try done; lia. Qed.
#[local] Hint Resolve budget_weaken budget_one_more : core.
Lemma wp_budget {A} m (k : M A) s :
  keeps (within_budget 0 m) k → in_budget m s → wp k (λ _, in_budget m) (in_budget m) s.
Proof.
  intros Hk Hs. apply (wp_keeps (within_budget 0 m));
    [done|intros ? ? Hx; by apply Hx|intros ? Hx; by apply Hx].
Qed.
Lemma attempt_budget m b r s :
  budget 1 m (engine s) (trace s) →
  wp (model_attempt b r) (λ _, in_budget m) (in_budget m) s.
Proof.
  intros Hs. unfold model_attempt. apply wp_bind, wp_self, wp_bind, wp_note.
  apply wp_budget; [silent|]. destruct Hs as (Hc & Hrest). split; [|done]. simpl.
  rewrite model_calls_snoc. simpl. lia.
Qed.
Lemma attempt_model_budget m b i nx r k s :
  in_budget m s →
  wp (attempt_model b i nx r k) (λ _, in_budget (one_more m)) (in_budget m) s.
Proof.
  intros Hs. unfold attempt_model. apply wp_bind, wp_self. case_match eqn:Hle; [done|].
  apply N.leb_gt in Hle. apply wp_bind, wp_modify.
  assert (budget 1 (one_more m)
    (set_engine_turns (engine_turns (engine s) + 1)%N (engine s)) (trace s)) as Hb.
  { destruct Hs as (Hc & Hl & Ht & Hrest). split_and!; simpl; try lia; by apply Hrest. }
  set (s1 := put_engine _ s). change (budget 1 (one_more m) (engine s1) (trace s1)) in Hb.
  tread (budget 1 (one_more m)). case_match; [apply wp_ret; eauto|].
  apply wp_bind. eapply wp_mono; [by apply attempt_budget| |by eauto]. intros x s2 Hs2.
  eapply wp_mono; [apply (wp_budget (one_more m)); [|exact Hs2]|done|by eauto].
  repeat case_match; silent.
Qed.
Lemma budget_attempt_model m b i nx r k : keeps (within_budget 0 m) (attempt_model b i nx r k).
Proof.
  intros s Hs. pose proof (attempt_model_budget m b i nx r k s Hs) as Hw. unfold wp in Hw.
  destruct (attempt_model b i nx r k s) as [[v|f] s']; [by apply (budget_one_more 0)|done].
Qed.
#[local] Hint Resolve budget_attempt_model : keeps.
Lemma budget_model_loop m fuel l i r k : keeps (within_budget 0 m) (model_loop fuel l i r k).
Proof. revert l i r k. induction fuel; intros l i r k; destruct l; simpl; silent. Qed.
Lemma budget_queue n m prior seen l : keeps (within_budget n m) (queue_calls prior seen l).
Proof. revert seen. induction l as [|i l IH]; intros seen; simpl; silent. Qed.
Lemma budget_collect n m : keeps (within_budget n m) collect_session.
Proof. unfold collect_session. silent. Qed.
#[local] Hint Resolve budget_model_loop budget_queue budget_collect : keeps.
Lemma budget_model_response m r : keeps (within_budget 0 m) (model_response r).
Proof. unfold model_response. silent. Qed.
Lemma budget_after n m r : keeps (within_budget n m) (after_response r).
Proof. unfold after_response. silent. Qed.
#[local] Hint Resolve budget_model_response budget_after : keeps.
Lemma budget_model_turn m : keeps (within_budget 0 m) model_turn.
Proof. unfold model_turn. silent. Qed.
#[local] Hint Resolve budget_model_turn : keeps.

(** The tool phase takes no turn. *)
Lemma budget_ask n m c : keeps (within_budget n m) (ask c).
Proof. unfold ask. silent. Qed.
#[local] Hint Resolve budget_ask : keeps.
Lemma budget_prepare_call n m k c : keeps (within_budget n m) (prepare_call k c).
Proof. unfold prepare_call. silent. Qed.
#[local] Hint Resolve budget_prepare_call : keeps.
Lemma budget_prepare_calls n m w r : keeps (within_budget n m) (prepare_calls w r).
Proof. revert r. induction w as [|c w IH]; intros r; simpl; silent. Qed.
#[local] Hint Resolve budget_prepare_calls : keeps.
Lemma budget_prepare_tools n m : keeps (within_budget n m) prepare_tools.
Proof. unfold prepare_tools. silent. Qed.
Lemma budget_execute n m t c : keeps (within_budget n m) (execute_tool t c).
Proof. unfold execute_tool. silent. Qed.
Lemma budget_finish_tool n m c x : keeps (within_budget n m) (finish_tool c x).
Proof.
  unfold finish_tool. apply (keeps_bind (within_budget n m)); [silent|]. intros _.
  case_match; [silent|]. do 2 (apply (keeps_bind (within_budget n m)); [silent|]; intros ?).
  case_match; [|silent]. apply (keeps_bind (within_budget n m)); [|silent].
  apply budget_modify. intros e'. by repeat (case_match; simpl).
Qed.
#[local] Hint Resolve budget_prepare_tools budget_execute budget_finish_tool : keeps.
Lemma budget_approve n m c : keeps (within_budget n m) (approve_call c).
Proof. unfold approve_call, deny_call. silent. Qed.
Lemma budget_hand_off n m c h : keeps (within_budget n m) (hand_off c h).
Proof. unfold hand_off. silent. Qed.
#[local] Hint Resolve budget_approve budget_hand_off : keeps.
Lemma budget_tool n m c : keeps (within_budget n m) (tool c).
Proof. unfold tool. silent. Qed.
Lemma budget_run_batch n m fuel l o : keeps (within_budget n m) (run_batch fuel l o).
Proof. revert l o. induction fuel; intros l o; destruct l; simpl; silent. Qed.
Lemma budget_settle_batch n m l o f : keeps (within_budget n m) (settle_batch l o f).
Proof. revert f. induction l as [|c l IH]; intros f; simpl; silent. Qed.
#[local] Hint Resolve budget_tool budget_run_batch budget_settle_batch : keeps.
Lemma budget_tool_batch n m : keeps (within_budget n m) tool_batch.
Proof. unfold tool_batch. silent. Qed.
Lemma budget_stop_after n m : keeps (within_budget n m) stop_after_tool.
Proof. unfold stop_after_tool. silent. Qed.
#[local] Hint Resolve budget_tool_batch budget_stop_after : keeps.
Lemma budget_tool_phase n m : keeps (within_budget n m) tool_phase.
Proof. unfold tool_phase. silent. Qed.
#[local] Hint Resolve budget_tool_phase : keeps.
Lemma budget_step m : keeps (within_budget 0 m) advance_step.
Proof. unfold advance_step. silent. Qed.
(** A model turn takes at least one turn. *)
Lemma model_loop_turns m fuel l i r k s :
  in_budget m s → ok (model_loop fuel l i r k) (λ _, in_budget (one_more m)) s.
Proof.
  intros Hs. destruct fuel as [|fuel], l as [|b l]; try done. simpl.
  eapply ok_bind.
  { eapply wp_mono; [by apply attempt_model_budget|intros v s' Hv; exact Hv|done]. }
  intros v s' Hv.
  apply (ok_keeps (within_budget 0 (one_more m))); [|intros ? ? Hx; by apply Hx].
  destruct v; silent.
Qed.
Lemma ok_budget {A B} m (k : M A) (f : A → M B) Q s :
  keeps (within_budget 0 m) k → in_budget m s →
  (∀ a s', in_budget m s' → ok (f a) Q s') → ok (k ≫= f) Q s.
Proof.
  intros Hk Hs Hf. apply (ok_after (within_budget 0 m)); [done|]. intros a s' Hx. by apply Hf, Hx.
Qed.
Lemma model_turn_turns m s :
  in_budget m s → ok model_turn (λ _, in_budget (one_more m)) s.
Proof.
  intros Hs. unfold model_turn.
  do 6 (apply (ok_budget m); [silent|done|]; intros ? ? ?). case_match; [done|].
  do 7 (apply (ok_budget m); [silent|done|]; intros ? ? ?).
  apply (ok_bind (λ _, in_budget (one_more m))).
  { unfold model_response. apply (ok_budget m); [silent|done|]. intros e se Hse.
    by apply model_loop_turns. }
  intros r sr Hr. apply (ok_keeps (within_budget 0 (one_more m))); [silent|].
  intros ? ? Hx. by apply Hx.
Qed.

Lemma drive_budget m fuel s o s' :
  in_budget m s → drive fuel s = Some (o, s') → in_budget m s'.
Proof. by apply (drive_within (budget 0 m)); [apply budget_step|..]. Qed.
End turns.
