(* ===== verification/RunnerEnd.v ===== *)
(** * RunnerEnd: why a run ends

    A model phase takes at least one turn, and the turns are bounded; every other
    step of the engine brings the phase nearer to the model phase or takes a call
    off the queue.  [advance] therefore returns, whatever the outside answers. *)

From Stdlib Require Import SpecFloat.
From S2P Require Import Prelude Text Durable Core SecurityPolicy Subagent.
From S2P Require Import RunTypes Approvals Compaction Runner RunnerLogic RunnerPairs.
From S2P Require Import RunnerTurns.

Section termination.
Context {Value W : Type} `{EqDecision Value} {setup : Setup Value W}.
Notation St := (St Value W).
Notation Engine := (Engine Value).
Notation Action := (Action Value).
Notation M := (M Value W).
Implicit Types (s : St) (e : Engine) (tr : list Action).

(** ** The other steps

    [rank]: how far the engine is from the model phase or its end. *)
Definition rank e : nat :=
  match phase e with
  | Finish => 0 | ModelPhase => 1 | Start | Finalize => 2 | Tools => 3 + length (calls e)
  end.
Definition queue e := (phase e, calls e).
Notation queued := (fixes (W := W) queue).
#[local] Instance queue_frame : Frame queued.
Proof. by apply fixes_frame. Qed.
Definition decided e : Prop := phase e = ModelPhase ∨ phase e = Finish.
Definition leaving e : Prop := decided e ∨ phase e = Finalize.
Lemma decided_rank e : decided e → (rank e <= 1)%nat.
Proof. unfold rank. intros [->| ->]; lia. Qed.
Lemma leaving_rank e : leaving e → (rank e <= 2)%nat.
Proof. intros [Hd%decided_rank|Hf]; [lia|]. unfold rank. rewrite Hf. lia. Qed.
#[local] Instance decided_frame : Frame (on (W := W) decided).
Proof. by apply on_frame. Qed.
#[local] Instance leaving_frame : Frame (on (W := W) leaving).
Proof. by apply on_frame. Qed.

Lemma queue_append i : keeps queued (append i).
Proof. unfold append. silent. Qed.
#[local] Hint Resolve queue_append : keeps.
Lemma queue_child_messages b : keeps queued (apply_child_messages b).
Proof. unfold apply_child_messages. silent. Qed.
#[local] Hint Resolve queue_child_messages : keeps.
Lemma grant_phase e : phase (set_phase ModelPhase (grant_turn e)) = ModelPhase.
Proof. done. Qed.
Lemma join_phase s :
  ok join_session (λ b s', b = true → phase (engine s') = ModelPhase) s.
Proof.
  unfold join_session. case_match; [|by intros ?].
  apply (ok_after (λ _ _, True)); [done|]. intros l s1 _. case_match; [by intros ?|].
  by apply (ok_after (λ _ _, True)).
Qed.
Lemma gate_phase v s :
  ok (run_stop_gate v) (λ b s', b = true → phase (engine s') = ModelPhase) s.
Proof.
  unfold run_stop_gate. apply (ok_after (λ _ _, True)); [done|]. intros e s1 _.
  case_match; [|by intros ?]. apply (ok_after (λ _ _, True)); [done|]. intros f s2 _.
  case_match; [|by intros ?]. by do 2 (apply (ok_after (λ _ _, True)); [done|]; intros ? ? _).
Qed.
Lemma finish_decides v s : ok (finish_candidate v) (λ _ s', decided (engine s')) s.
Proof.
  unfold finish_candidate. apply (ok_after (λ _ _, True)); [done|]. intros [] s1 _; [by left|].
  eapply ok_bind; [apply join_phase|]. intros [] s2 Hj; [left; by apply Hj|].
  eapply ok_bind; [apply gate_phase|]. intros [] s3 Hg; [left; by apply Hg|].
  apply (ok_after (λ _ _, True)); [done|]. intros [] s4 _; [by left|].
  do 3 (apply (ok_after (λ _ _, True)); [done|]; intros ? ? _). by right.
Qed.

(** *** Tools take calls off the queue *)

Definition popped s s' : Prop := queue (engine s') = (phase (engine s), tail (calls (engine s))).
Lemma popped_then {A B} (m : M A) (f : A → M B) s :
  popped s (m s).2 → (∀ a, keeps queued (f a)) → popped s ((m ≫= f) s).2.
Proof.
  intros Hm Hf. unfold mbind, SE_bind. destruct (m s) as [[a|] s1]; [|done].
  unfold popped in *. simpl in Hm. rewrite <-Hm. apply Hf.
Qed.
Lemma finish_tool_pops c x s : popped s (finish_tool c x s).2.
Proof.
  unfold finish_tool. apply popped_then; [done|]. intros _.
  case_match; [silent|]. do 2 (apply (keeps_bind queued); [silent|]; intros ?).
  case_match; [|silent]. apply (keeps_bind queued); [|silent].
  apply (keeps_modify queued). intros s'. by repeat (case_match; simpl).
Qed.
Lemma deny_call_pops c s : popped s (deny_call c s).2.
Proof. unfold deny_call. apply popped_then; [done|]. intros _. silent. Qed.
Lemma ok_pops {A} (m : M A) s : popped s (m s).2 → ok m (λ _, popped s) s.
Proof. unfold ok, wp. by destruct (m s) as [[a|f] s']. Qed.

Lemma run_batch_queue fuel l o : keeps queued (run_batch fuel l o).
Proof.
  intros s. pose proof (run_batch_unobserved fuel l o s) as Hu. unfold fixes in *.
  change (queue (unobserved (engine (run_batch fuel l o s).2)) = queue (unobserved (engine s))).
  by rewrite Hu.
Qed.
Lemma execute_queue t c : keeps queued (execute_tool t c).
Proof.
  intros s. pose proof (execute_tool_unobserved t c s) as Hu. unfold fixes in *.
  change (queue (unobserved (engine (execute_tool t c s).2)) = queue (unobserved (engine s))).
  by rewrite Hu.
Qed.
Lemma ask_queue c : keeps queued (ask c).
Proof. unfold ask. silent. Qed.
#[local] Hint Resolve run_batch_queue execute_queue ask_queue : keeps.
Lemma settle_batch_pops l o f s :
  ok (settle_batch l o f)
    (λ _ s', queue (engine s') = (phase (engine s), drop (length l) (calls (engine s)))) s.
Proof.
  revert f s. induction l as [|c l IH]; intros f s; simpl; [done|].
  apply (ok_bind (λ _, popped s)).
  - destruct (o !! call_id c) as [[x|f']|]; [|done..].
    apply ok_pops. pose proof (finish_tool_pops c x s) as Hp. unfold attempt.
    by destruct (finish_tool c x s).
  - intros r s1 Hp. eapply ok_mono; [apply IH|]. intros f2 s2 Hq. simpl in Hq. rewrite Hq.
    injection Hp as -> ->. f_equal. destruct (calls (engine s)); [apply drop_nil|done].
Qed.
Lemma tool_batch_rank s :
  phase (engine s) = Tools → calls (engine s) ≠ [] →
  ok tool_batch (λ _ s', rank (engine s') < rank (engine s)) s.
Proof.
  intros Hp Hc. unfold tool_batch.
  apply (ok_bind (λ e s', e = engine s ∧ s' = s)); [done|]. intros e s' [-> ->].
  do 2 (apply (ok_after queued); [silent|]; intros ? ? ?).
  eapply ok_bind; [apply settle_batch_pops|]. intros [f|] s3 Hq; [done|].
  match goal with H1 : queued s ?s1, H2 : queued ?s1 _ |- _ => rename H1 into Hq1; rename H2 into Hq2 end.
  injection Hq1 as Hp1 Hc1. injection Hq2 as Hp2 Hc2. injection Hq as Hp3 Hc3.
  unfold ok, wp, rank. simpl. rewrite Hp3, Hp2, Hp1, Hp, Hc3, Hc2, Hc1, drop_all. simpl.
  destruct (calls (engine s)); [done|simpl; lia].
Qed.

Lemma prepare_shrinks s :
  ok prepare_tools (λ _ s', phase (engine s') = phase (engine s)
    ∧ length (calls (engine s')) <= length (calls (engine s))) s.
Proof.
  unfold prepare_tools. case_match; [done|].
  apply (ok_bind (λ e s', e = engine s ∧ s' = s)); [done|]. intros e s' [-> ->].
  case_match; [done|].
  apply (ok_bind (λ _ s', s' = put_engine (set_pending_approvals [] (engine s)) s)); [done|].
  intros _ s1 ->. eapply ok_bind; [apply prepare_calls_spec|].
  intros ready s2 [Hf (d & Hp%Permutation_length & _)]. unfold ok, wp. simpl in *.
  split; [by injection Hf|]. rewrite length_app in Hp. lia.
Qed.

(** What a call does to the queue: it leaves it, or the agent changes. *)
Definition taken s s' : Prop :=
  (phase (engine s') = phase (engine s) ∧
   length (calls (engine s')) < length (calls (engine s))) ∨ phase (engine s') = ModelPhase.
Lemma popped_taken s s' : calls (engine s) ≠ [] → popped s s' → taken s s'.
Proof.
  intros Hc [= Hp Hq]. left. rewrite Hp, Hq. split; [done|].
  destruct (calls (engine s)); [done|simpl; lia].
Qed.
Lemma queued_popped s s1 s2 : queued s s1 → popped s1 s2 → popped s s2.
Proof. unfold popped, fixes. intros [= Hp Hc] ->. by rewrite Hp, Hc. Qed.
Lemma approve_call_pops c s :
  ok (approve_call c) (λ r s', match r with
    | None => queued s s' | Some false => popped s s' | Some true => True end) s.
Proof.
  unfold approve_call. do 4 (apply (ok_after queued); [silent|]; intros ? ? ?).
  match goal with H1 : queued s ?s1, H2 : queued ?s1 ?s2, H3 : queued ?s2 ?s3, H4 : queued ?s3 ?s4 |- _ =>
    assert (queued s s4) as Hq by (etrans; [exact H1|etrans; [exact H2|etrans; [exact H3|exact H4]]]) end.
  case_match.
  - apply (ok_after queued); [silent|]. intros ? ? ?. by etrans.
  - eapply ok_bind; [apply ok_pops, deny_call_pops|]. intros ? ? Hp. by eapply queued_popped.
  - by do 2 (apply (ok_after (λ _ _, True)); [done|]; intros ? ? _).
Qed.
Lemma hand_off_phase c h s :
  ok (hand_off c h) (λ _ s', phase (engine s') = ModelPhase) s.
Proof.
  unfold hand_off. do 7 (apply (ok_after (λ _ _, True)); [done|]; intros ? ? _).
  apply (ok_bind (λ _ s', phase (engine s') = ModelPhase)); [done|]. intros _ s1 H1.
  set (K := λ e : Engine, phase e = ModelPhase).
  assert (Frame (on (W := W) K)) by (by apply on_frame).
  apply (ok_keeps (on K)); [silent|]. intros ? ? Hk. by apply Hk.
Qed.
Lemma tool_takes c s :
  calls (engine s) ≠ [] → ok (tool c) (λ paused s', paused = false → taken s s') s.
Proof.
  intros Hc. unfold tool. apply (ok_bind (λ e s', e = engine s ∧ s' = s)); [done|].
  intros e s' [-> ->].
  assert (∀ x s1, queued s s1 →
    ok (_ ← finish_tool c x; mret false) (λ paused s', paused = false → taken s s') s1) as Hfin.
  { intros x s1 Hq. eapply ok_bind; [apply ok_pops, finish_tool_pops|]. intros ? s2 Hp _.
    apply popped_taken; [done|]. by eapply queued_popped. }
  case_match; [|by apply Hfin]. case_bool_decide; [by apply Hfin|].
  apply (ok_after queued); [silent|]. intros _ s1 H1.
  apply (ok_bind (λ r s', match r with
    | None => queued s s' | Some false => popped s s' | Some true => True end)).
  { case_bool_decide; [|done]. eapply ok_mono; [apply approve_call_pops|].
    intros [[]|] s2 Hq; [done| |by etrans]. by eapply queued_popped. }
  intros [[]|] s2 Hq; [by intros ?|intros _; by apply popped_taken|].
  apply (ok_after queued); [silent|]. intros _ s3 H3.
  destruct (find_handoff (engine s) (call_name c)) as [h|].
  - eapply ok_bind; [apply hand_off_phase|]. intros ? s4 Hp _. by right.
  - destruct (find_tool (engine s) (call_name c)) as [tl|]; [|done]. do 2 (apply (ok_after queued); [silent|]; intros ? ? ?).
    apply Hfin. by repeat (etrans; [eassumption|]).
Qed.
Lemma stop_after_leaves s : ok stop_after_tool (λ _ s', leaving (engine s')) s.
Proof.
  unfold stop_after_tool. apply (ok_after (λ _ _, True)); [done|]. intros _ s1 _.
  case_match; [|by left; right].
  do 3 (apply (ok_after (λ _ _, True)); [done|]; intros ? ? _).
  case_match; [case_match|]; [| |by left; right].
  - apply (ok_bind (λ _ s', leaving (engine s'))); [by right|]. intros [] sf Hf.
    apply (ok_keeps (on leaving)); [silent|]. intros ? ? Hk. by apply Hk.
  - eapply ok_mono; [apply finish_decides|]. intros ? ? Hd. by left.
Qed.
Lemma tool_phase_rank s :
  phase (engine s) = Tools →
  ok tool_phase (λ r s', r = None → rank (engine s') < rank (engine s)) s.
Proof.
  intros Hp. unfold tool_phase.
  apply (ok_bind (λ e s', e = engine s ∧ s' = s)); [done|]. intros e s' [-> ->].
  apply (ok_bind (λ _ s', phase (engine s') = Tools ∧
    length (calls (engine s')) <= length (calls (engine s)))).
  { case_match; [done|]. eapply ok_bind; [apply prepare_shrinks|]. intros _ s1 [Hp1 Hc1].
    unfold ok, wp. simpl. split; [congruence|done]. }
  intros _ s1 [Hp1 Hc1].
  apply (ok_bind (λ e s', e = engine s1 ∧ s' = s1)); [done|]. intros e s' [-> ->].
  assert (rank (engine s1) <= rank (engine s)) as Hle by (unfold rank; rewrite Hp, Hp1; lia).
  case_match eqn:Hb.
  { eapply ok_bind; [apply tool_batch_rank; [done|]|intros ? s2 Hr; unfold ok, wp; simpl in *; lia].
    intros Hnil. unfold parallel_batch_ready in Hb. rewrite Hnil in Hb.
    by rewrite andb_false_r in Hb. }
  destruct (calls (engine s1)) as [|c rest] eqn:Hc.
  - case_match; [|by repeat (apply (ok_after (λ _ _, True)); [done|]; intros ? ? _)].
    case_match.
    + eapply ok_bind; [apply stop_after_leaves|]. intros [] s2 H2 _.
      pose proof (leaving_rank _ H2). unfold rank at 2. rewrite Hp. lia.
    + apply (ok_after (λ _ _, True)); [done|]. intros _ s2 _. unfold ok, wp. simpl. intros _.
      unfold rank. simpl. rewrite Hp. lia.
  - eapply ok_bind; [apply tool_takes; by rewrite Hc|]. intros paused s2 Ht Hnone.
    destruct paused; [done|]. destruct (Ht eq_refl) as [[Hp2 Hl]|Hp2].
    + unfold rank in *. rewrite Hp2, Hp1, Hp in *. lia.
    + unfold rank. rewrite Hp2, Hp. lia.
Qed.

(** ** The loop *)

Definition bounded_turns e : Prop :=
  (engine_turns e <= max_turns (policy e))%N ∧ (max_turns (policy e) <= u32_max)%N.
Definition turns_left e : nat := N.to_nat (u32_max - engine_turns e).

Definition here s : Bound :=
  mkBound (max_turns (policy (engine s))) (model_calls (trace s)) (engine_turns (engine s)).
Lemma bounded_in_budget s : bounded_turns (engine s) → in_budget (here s) s.
Proof. intros [Ht Hu]. split_and!; simpl; try done; lia. Qed.
Lemma in_budget_bounded m s :
  in_budget m s → bounded_turns (engine s) ∧ (least m <= engine_turns (engine s))%N.
Proof. by intros (_ & Hl & Ht & Hu & _). Qed.

(** A step that goes on takes a turn, or brings the end of the phase nearer. *)
Definition nearer s s' : Prop :=
  turns_left (engine s') < turns_left (engine s)
  ∨ rank (engine s') < rank (engine s).
Lemma step_nearer s :
  bounded_turns (engine s) → ok advance_step (λ r s', r = None → nearer s s') s.
Proof.
  intros Hb. unfold advance_step. apply (ok_after same); [silent|]. intros _ s1 Hsame.
  assert (turns_left (engine s1) = turns_left (engine s)) as Hturns
    by by apply (same_field turns_left).
  assert (rank (engine s1) = rank (engine s)) as Hrank by by apply (same_field rank).
  assert (bounded_turns (engine s1)) as Hb1.
  { by rewrite (same_field bounded_turns _ _ Hsame). }
  unfold nearer. rewrite <-Hturns, <-Hrank. clear Hb Hsame Hturns Hrank.
  apply (ok_bind (λ e s', e = engine s1 ∧ s' = s1)); [done|]. intros e s' [-> ->].
  destruct (phase (engine s1)) eqn:Hp.
  - do 3 (apply (ok_after (λ _ _, True)); [done|]; intros ? ? _).
    unfold ok, wp. simpl. intros _. right. unfold rank. simpl. rewrite Hp. lia.
  - eapply ok_bind; [by apply model_turn_turns, bounded_in_budget|]. intros [] s2 H2 _.
    apply in_budget_bounded in H2 as [[Ht2 Hu2] Hl]. simpl in Hl. left.
    destruct Hb1. unfold turns_left. lia.
  - eapply ok_mono; [by apply tool_phase_rank|]. intros r s2 Hr Hnone. right. by apply Hr.
  - case_match; [|done]. apply (ok_after (λ _ _, True)); [done|]. intros _ s2 _.
    eapply ok_bind; [apply finish_decides|]. intros [] s3 H3.
    apply (ok_on decided); [silent|done|]. intros [] s4 H4%decided_rank _. right.
    unfold rank at 2. rewrite Hp. lia.
  - done.
Qed.

Lemma advance_fuel t r s :
  bounded_turns (engine s) → turns_left (engine s) <= t → rank (engine s) <= r →
  ∃ fuel, advance fuel s ≠ None.
Proof.
  revert r s. induction t as [t IHt] using lt_wf_ind. intros r.
  induction r as [r IHr] using lt_wf_ind. intros s Hb Ht Hr.
  pose proof (step_nearer s Hb) as Hstep. unfold ok, wp in Hstep.
  pose proof (budget_step (here s) s (bounded_in_budget s Hb)) as Hin.
  assert (∀ s', (advance_step s).2 = s' → nearer s s' → ∃ fuel, advance fuel s' ≠ None) as Hnext.
  { intros s' Hs' Hn. rewrite Hs' in Hin. apply in_budget_bounded in Hin as [Hb' Hl].
    simpl in Hl. assert (turns_left (engine s') <= turns_left (engine s)) by (unfold turns_left; lia).
    destruct (decide (turns_left (engine s') < turns_left (engine s))).
    - by apply (IHt (turns_left (engine s')) ltac:(lia) (rank (engine s')) s').
    - destruct Hn as [Hn|Hn]; [lia|].
      by apply (IHr (rank (engine s')) ltac:(lia) s' Hb' ltac:(lia)). }
  destruct (advance_step s) as [[[st|]|f] s1] eqn:Hs; [by exists 1; simpl; rewrite Hs| |
    by exists 1; simpl; rewrite Hs].
  destruct (Hnext s1 eq_refl (Hstep eq_refl)) as [fuel Hf]. exists (S fuel). simpl. by rewrite Hs.
Qed.

(** ** The gate of a continuation

    The gate has decided the call before the tool phase asks, and never defers:
    the call leaves the queue. *)
Definition answered_by_gate (c : ToolCall Value) e : Prop := ∃ d, approvals e !! call_id c = Some d ∧ d ≠ Defer.
Notation gated c calls0 :=
  (on (W := W) (λ e : Engine, answered_by_gate c e ∧ calls e = calls0)).
Notation queue_is l := (on (W := W) (λ e : Engine, calls e = l)).
#[local] Instance queue_is_frame l : Frame (queue_is l).
Proof. by apply on_frame. Qed.
#[local] Instance gated_frame c calls0 : Frame (gated c calls0).
Proof. by apply on_frame. Qed.
Definition shorter n e : Prop := length (calls e) < n.
#[local] Instance shorter_frame n : Frame (on (W := W) (shorter n)).
Proof. by apply on_frame. Qed.

Lemma ask_decided c calls0 s :
  answered_by_gate c (engine s) → calls (engine s) = calls0 →
  ok (ask c) (λ d s', d ≠ Defer ∧ calls (engine s') = calls0) s.
Proof.
  intros (d & Hd & Hn) Hc. unfold ask.
  apply (ok_bind (λ e s', e = engine s ∧ s' = s)); [done|]. intros e s' [-> ->]. rewrite Hd.
  by apply (ok_bind (λ _ s', calls (engine s') = calls0)).
Qed.
Lemma popped_shorter s s' n :
  length (calls (engine s)) = n → n ≠ 0 → popped s s' → shorter n (engine s').
Proof.
  intros <- Hn [= _ Hq]. unfold shorter. rewrite Hq. destruct (calls (engine s)); simpl in *; lia.
Qed.
Lemma gated_tool c s :
  answered_by_gate c (engine s) → calls (engine s) ≠ [] →
  ok (tool c) (λ _ s', shorter (length (calls (engine s))) (engine s')) s.
Proof.
  intros Hg Hc. set (n := length (calls (engine s))). assert (n ≠ 0) as Hn by by destruct (calls (engine s)).
  unfold tool. apply (ok_bind (λ e s', e = engine s ∧ s' = s)); [done|]. intros e s' [-> ->].
  assert (∀ x s1, length (calls (engine s1)) = n →
    ok (_ ← finish_tool c x; mret false) (λ _ s', shorter n (engine s')) s1) as Hfin.
  { intros x s1 Hl. eapply ok_bind; [apply ok_pops, finish_tool_pops|]. intros ? s2 Hp.
    by eapply popped_shorter. }
  case_match; [|by apply Hfin]. case_bool_decide; [by apply Hfin|].
  apply (ok_on (λ e, answered_by_gate c e ∧ calls e = calls (engine s))); [silent|done|].
  intros _ s1 [Hg1 Hc1].
  apply (ok_bind (λ r s', match r with
    | None => length (calls (engine s')) = n | Some _ => shorter n (engine s') end)).
  { case_bool_decide; [|unfold ok, wp; simpl; by rewrite Hc1]. unfold approve_call.
    apply (ok_on (λ e, answered_by_gate c e ∧ calls e = calls (engine s))); [silent|done|].
    intros _ s2 [Hg2 Hc2]. eapply ok_bind; [by eapply ask_decided|]. intros d s3 [Hd Hc3].
    do 2 (apply (ok_on (λ e, calls e = calls (engine s))); [silent|done|]; intros ? ? ?).
    destruct d; [| |done].
    - by apply (ok_on (λ e, calls e = calls (engine s))); [silent|done|]; intros ? ? Hk;
        unfold ok, wp; simpl; rewrite Hk.
    - eapply ok_bind; [apply ok_pops, deny_call_pops|]. intros ? s6 Hp. eapply popped_shorter, Hp; [|done].
      by match goal with H : calls (engine ?s) = _ |- length (calls (engine ?s)) = _ => rewrite H end. }
  intros [paused|] s2 H2; [done|].
  apply (ok_after queued); [silent|]. intros _ s3 [= _ H3]. rewrite <-H3 in H2.
  destruct (find_handoff (engine s) (call_name c)) as [h|].
  - eapply (ok_bind (λ _ s', shorter n (engine s'))); [|done]. unfold hand_off.
    apply (ok_after (λ _ _, True)); [done|]. intros ? s4 _.
    apply (ok_bind (λ _ s', shorter n (engine s'))); [unfold ok, wp, shorter; simpl; lia|].
    intros ? s5 H5. apply (ok_keeps (on (shorter n))); [silent|]. intros ? ? Hk. by apply Hk.
  - destruct (find_tool (engine s) (call_name c)) as [tl|]; [|done].
    do 2 (apply (ok_after queued); [silent|]; intros ? ? [= _ ?]). apply Hfin. congruence.
Qed.
Lemma gate_step_shorter s :
  ok gate_step (λ more s', if more then shorter (length (calls (engine s))) (engine s')
                           else calls (engine s') = []) s.
Proof.
  unfold gate_step. apply (ok_bind (λ e s', e = engine s ∧ s' = s)); [done|]. intros e s' [-> ->].
  destruct (calls (engine s)) as [|c rest] eqn:Hc; [done|]. case_match; [|done].
  apply (ok_on (λ e, calls e = c :: rest)); [silent|done|]. intros [b reason] s1 H1.
  apply (ok_on (λ e, calls e = c :: rest)); [silent|done|]. intros [] s2 H2.
  apply (ok_bind (λ _ s', calls (engine s') = c :: rest ∧ answered_by_gate c (engine s'))).
  { unfold ok, wp, modify. split; [by destruct (negb b && _)|].
    exists (if b then Approve else DenyCall). split; [apply lookup_insert_eq|by destruct b]. }
  intros [] s3 [H3 Hg]. eapply ok_bind; [apply gated_tool; [done|by rewrite H3]|].
  intros ? s4 H4. by rewrite H3 in H4.
Qed.
(** So the loop ends, in as many rounds as there are calls and one, and a loop that
    succeeds leaves no call. *)
Lemma gate_calls_total fuel s : length (calls (engine s)) < fuel → gate_calls fuel s ≠ None.
Proof.
  revert s. induction fuel as [|fuel IH]; intros s Hf; [lia|]. simpl.
  pose proof (gate_step_shorter s) as Hstep. unfold ok, wp in Hstep.
  destruct (gate_step s) as [[[]|f] s1]; [|done..]. apply IH. unfold shorter in Hstep. lia.
Qed.
Lemma gate_calls_done fuel s s' : gate_calls fuel s = Some (Ok tt, s') → calls (engine s') = [].
Proof.
  revert s. induction fuel as [|fuel IH]; intros s; [done|]. simpl.
  pose proof (gate_step_shorter s) as Hstep. unfold ok, wp in Hstep.
  destruct (gate_step s) as [[[]|f] s1]; [apply IH| |done]. by intros [= <-].
Qed.

(** ** The fuel of [model_loop] *)

Notation same_policy := (fixes (W := W) (policy (Value := Value))).
#[local] Instance policy_frame : Frame same_policy.
Proof. by apply fixes_frame. Qed.
Lemma policy_account u c : keeps same_policy (account_usage u c).
Proof. unfold account_usage. silent. Qed.
#[local] Hint Resolve policy_account : keeps.
Lemma policy_compact_local r f : keeps same_policy (compact_local r f).
Proof. unfold compact_local. silent. Qed.
Lemma policy_partial b acc : keeps same_policy (keep_partial b acc).
Proof. unfold keep_partial, record_response. silent. Qed.
#[local] Hint Resolve policy_compact_local policy_partial : keeps.
Lemma policy_attempt b r : keeps same_policy (model_attempt b r).
Proof. unfold model_attempt. silent. Qed.
Lemma policy_accept b n r : keeps same_policy (accept_response b n r).
Proof.
  unfold accept_response. apply (keeps_bind same_policy); [|silent].
  apply (keeps_modify same_policy). intros s. simpl. by repeat case_match.
Qed.
Lemma policy_recover b i nx r k f c : keeps same_policy (recover b i nx r k f c).
Proof. unfold recover, back_off. silent. Qed.
#[local] Hint Resolve policy_attempt policy_accept policy_recover : keeps.
Lemma policy_attempt_model b i nx r k : keeps same_policy (attempt_model b i nx r k).
Proof. unfold attempt_model. silent. Qed.

Definition attempts_left e : nat := N.to_nat (max_turns (policy e) - engine_turns e).
Lemma attempts_decrease b i nx r k s :
  bounded_turns (engine s) →
  ok (attempt_model b i nx r k)
    (λ _ s', bounded_turns (engine s') ∧ attempts_left (engine s') < attempts_left (engine s)) s.
Proof.
  intros Hb. eapply ok_mono.
  { unfold ok. eapply wp_mono; [eapply wp_and_keeps; [apply policy_attempt_model|
      apply attempt_model_budget, (bounded_in_budget s Hb)]|intros v s' Hv; exact Hv|done]. }
  intros v s' [Hin Hpol]. apply in_budget_bounded in Hin as [Hb' Hl]. simpl in Hl.
  split; [done|]. unfold fixes in Hpol. destruct Hb', Hb. unfold attempts_left.
  rewrite Hpol in *. lia.
Qed.
Lemma model_loop_enough fuel fuel' l i r k s :
  bounded_turns (engine s) → attempts_left (engine s) < fuel → fuel <= fuel' →
  model_loop fuel' l i r k s = model_loop fuel l i r k s.
Proof.
  revert fuel' l i r k s. induction fuel as [|fuel IH]; intros fuel' l i r k s Hb Hf Hle; [lia|].
  destruct fuel' as [|fuel']; [lia|]. destruct l as [|b rest]; [done|]. simpl.
  pose proof (attempts_decrease b i (head rest) r k s Hb) as Ha. unfold ok, wp in Ha.
  unfold mbind, SE_bind. destruct (attempt_model b i (head rest) r k s) as [[v|f] s1]; [|done].
  destruct Ha as [Hb1 Hl]. destruct v; try done; apply IH; try done; lia.
Qed.
End termination.
