(* ===== verification/RunnerExample.v ===== *)
(** * RunnerExample: a concrete run

    Two agents, a scripted model and a host that answers from a list: the
    instance at which the theorems on the runner are applied. *)

From Stdlib Require Import SpecFloat.
From S2P Require Import Prelude Text Durable Core SecurityPolicy Subagent.
From S2P Require Import RunTypes Approvals Compaction Runner.

(** The world: the responses to come and the answers to come. *)
Record Script := mkScript {
  script_responses : list (ModelResponse string);
  script_answers : list ApprovalDecision;
}.

Definition nothing {A} (a : A) : Script → result Failure A * Script := λ w, (Ok a, w).
Definition next_response (w : Script) : result Failure (ModelResponse string) * Script :=
  match script_responses w with
  | r :: rest => (Ok r, mkScript rest (script_answers w))
  | [] => (Err (failure Provider "end of the script"), w)
  end.
Definition next_answer (w : Script) : result Failure ApprovalDecision * Script :=
  match script_answers w with
  | d :: rest => (Ok d, mkScript (script_responses w) rest)
  | [] => (Ok Defer, w)
  end.
Definition done_output : ToolOutput := mkToolOutput [Text "done"] false false.

Definition script_outside : Outside string Script := {|
  context_run_id := "run";
  Runner.deadline := None;
  clock := λ _, 0%N;
  cancelled := λ _, false;
  instant_add := λ a b, Some (a + b)%N;
  host_emit := λ _, nothing tt;
  send := λ _, nothing tt;
  approve := λ _, next_answer;
  gate_approve := λ _, nothing (true, "");
  hook_observe := λ _ _, nothing tt;
  hook_checkpoint := λ _ _ _, nothing tt;
  turn_hints := λ _ _, nothing [];
  check_gate := λ _, nothing None;
  persist_boundary := λ _ _ _, nothing tt;
  effect_key := λ _, None;
  complete := λ _ _, next_response;
  stream := λ _ _, nothing (mkStream (nothing None));
  retry_advice := λ _ _, None;
  compact_history := λ r, nothing (mkCompactedHistory (compacted_history r) 0 no_usage f64_zero);
  sleep := λ _, nothing tt;
  for_access := λ _ _, None;
  execute := λ _ _ _, nothing done_output;
  process_output := λ o _, nothing (mkProcessedOutput o o None);
  pick := λ n _, pred n;
  commit_delivery := nothing tt;
  session_collect := nothing [];
  session_join := nothing [];
  session_update_parent := λ _ w, w;
  control_usage := λ _, default_usage;
  control_charge := λ _, nothing tt;
  control_reserve := λ _, nothing tt;
  control_take := nothing [];
  control_finish_or_take := nothing [];
  control_acknowledge := λ _, nothing tt;
  control_tool_start := λ _ _ _, nothing tt;
  control_tool_end := λ _ _ _ _ _, nothing tt;
  control_wait := nothing false;
  json_string := λ s, s;
  parse_json := λ s, Ok s;
  json_str_field := λ _ _, None;
  compile_schema := λ _, Ok (λ _, true);
  sha256_hex := λ _ s, s;
  to_string := λ s, s;
  as_u64 := λ _, None;
  to_lowercase := λ s, s;
  debug := λ s, s;
  summarize := λ _ _, "summary";
  summarize_terse := λ _ _, "summary";
|}.

Definition a_tool (name : string) (ro ra : bool) : Tool :=
  mkTool (mkToolDefinition name "" "{}" ro ra) None false false 0.
Definition sample_agent (name : string) (hs : list Handoff) : AgentConfig string :=
  mkAgentConfig name "" (mkBinding "model" false 0) []
    [a_tool "look" true false; a_tool "edit" false true] hs None "" false None ∅ false.
(** The first agent hands off to the second. *)
Definition sample_agents (a : N) : AgentConfig string :=
  if (a =? 0)%N
  then sample_agent "first" [mkHandoff (mkToolDefinition "to_second" "" "{}" true false) 1]
  else sample_agent "second" [].
Definition sample_config : RunnerConfig string :=
  mkRunnerConfig "/" (mkRetryPolicy 0 0 0 (λ _, false)) None (mkLimits None None) None "" None None
    false false true None false 0 false false [] false false None default_policy.
#[export] Instance sample_setup : Setup string Script :=
  mkSetup sample_agents sample_config script_outside 100 false false.

Definition sample_policy : RunPolicy :=
  mkRunPolicy 5 (mkToolPolicy WorkspaceWrite None ∅ ∅ RequiredByTool None) Continue.
Definition sample_request : RunRequest string :=
  mkRunRequest [ItemMessage (text_message User "go")] sample_policy.
Definition says (l : list (RunItem string)) : ModelResponse string :=
  mkModelResponse l no_usage None None ∅.
Definition calls_tool (id name : string) : RunItem string := ItemToolCall (mkToolCall id name "").
Definition answers_with (t : string) : RunItem string := ItemMessage (text_message Assistant t).
(** Two reads in parallel, an edit that needs approval, a handoff, an answer. *)
Definition sample_script : Script :=
  mkScript
    [says [calls_tool "a" "look"; calls_tool "b" "look"];
     says [calls_tool "c" "edit"; calls_tool "d" "look"];
     says [calls_tool "e" "to_second"; calls_tool "f" "look"];
     says [answers_with "finished"]]
    [Approve].
Definition sample_start : St string Script :=
  mkSt (new_engine 0 sample_request false false) sample_script [].
(** The host defers the edit: the run pauses. *)
Definition paused_start : St string Script :=
  mkSt (new_engine 0 sample_request false false)
    (mkScript (script_responses sample_script) []) [].

(** ** A handoff behind another call

    The same run with a handoff that needs approval: the first handoff is denied,
    the edit is deferred twice, and the second handoff is then approved. *)
Definition guarded_agents (a : N) : AgentConfig string :=
  if (a =? 0)%N
  then sample_agent "first" [mkHandoff (mkToolDefinition "to_second" "" "{}" true true) 1]
  else sample_agent "second" [].
Definition guarded_setup : Setup string Script :=
  mkSetup guarded_agents sample_config script_outside 100 false false.
Definition guarded_start : St string Script :=
  mkSt (new_engine (setup := guarded_setup) 0 sample_request false false)
    (mkScript
       [says [calls_tool "e" "to_second"; calls_tool "a" "edit"; calls_tool "h" "to_second"];
        says [answers_with "finished"]]
       [DenyCall; Defer; Approve]) [].
