(* ===== verification/RunnerProps.v ===== *)
(** * RunnerProps: the properties of the runner

    Authorisation, pairing, turns, termination, continuations and validation, for
    any outside; each with a concrete run of [RunnerExample]. *)

From Stdlib Require Import SpecFloat.
From S2P Require Import Prelude Text Durable Core SecurityPolicy Subagent.
From S2P Require Import RunTypes Approvals Compaction Runner RunnerLogic RunnerPairs.
From S2P Require Import RunnerAuth RunnerTurns RunnerEnd RunnerExample.

Section sessions.
Context {Value W : Type} `{EqDecision Value} {setup : Setup Value W}.
Implicit Types s : St Value W.

(** The states of a run and of its continuations: a fresh engine, driven and
    resumed with any decisions; [gates] allows the resumptions of
    [resume_go_gate], which renew the turn budget. *)
Inductive session (gates : bool) (initial : N) (request : RunRequest Value)
    : St Value W → Prop :=
| session_start str snd w :
    session gates initial request (mkSt (new_engine initial request str snd) w [])
| session_drive fuel s o s' :
    session gates initial request s → drive fuel s = Some (o, s') →
    session gates initial request s'
| session_resume fuel ds s o s' :
    session gates initial request s → resume_batch fuel ds s = Some (o, s') →
    session gates initial request s'
| session_gate fuel s o s' :
    gates = true → session gates initial request s → resume_go_gate fuel s = Some (o, s') →
    session gates initial request s'.




(** A continuation whose queue does not hide a handoff behind another call. *)
Definition resumable (e : Engine Value) : Prop :=
  durable = true ∨ (deferred_calls e = [] ∧ handoffs_lead e).

(** A run and its continuations, each taken up from the pause before it: by decisions
    while the queue hides no handoff, or by a gate. *)
Inductive runs (initial : N) (request : RunRequest Value)
    : RunOutcome Value → St Value W → Prop :=
| runs_fresh str snd w fuel o s :
    drive fuel (mkSt (new_engine initial request str snd) w []) = Some (o, s) →
    runs initial request o s
| runs_resumed r sp e s fuel ds o s' :
    runs initial request (Outcome r sp (Some e)) s → resumable e →
    resume_batch fuel ds (mkSt e (world s) (trace s)) = Some (o, s') →
    runs initial request o s'
| runs_gated r sp e s fuel o s' :
    runs initial request (Outcome r sp (Some e)) s →
    resume_go_gate fuel (mkSt e (world s) (trace s)) = Some (o, s') →
    runs initial request o s'.

Lemma resume_answered fuel ds s r sp k s' :
  plain_session → coherent (engine s) → resumable (engine s) →
  resume_batch fuel ds s = Some (Outcome r sp k, s') → answered_run r k.
Proof.
  intros Hp Hc Hres Hr. unfold resume_batch in Hr.
  destruct (prepare_batch (engine s) ds) as [e|] eqn:He; [|done].
  apply (drive_answered Hp) in Hr; [done|]. unfold prepare_batch in He.
  destruct (_ || _); [done|]. injection He as <-. revert Hc. unfold coherent. simpl.
  destruct (phase (engine s)); try done. intros (Ht & Hn & Hf & _ & Hd). by split_and!.
Qed.
Lemma gate_answered fuel s r sp k s' :
  plain_session → steady (engine s) →
  resume_go_gate fuel s = Some (Outcome r sp k, s') → answered_run r k.
Proof.
  intros Hp Hs Hr. unfold resume_go_gate in Hr. set (e := set_sender false _) in Hr.
  pose proof (gate_calls_steady fuel (mkSt e (world s) (trace s))) as Hg.
  destruct (gate_calls fuel _) as [[[[]|f] s1]|]; [| |done].
  - apply (drive_answered Hp) in Hr; [done|]. apply steady_coherent. simpl.
    assert (steady (engine s1)) as H1 by (apply Hg; [by apply steady_prepared|done]). by destruct durable.
  - unfold fail_run in Hr. by repeat case_match.
Qed.

(** C4: Calls and their answers.  Whatever the tools, the approvals, handoffs and
    compactions do, and as long as the children of a session bring messages only: the
    history of a completed run answers each of its calls exactly once, and that of a paused
    run leaves open exactly the calls its continuation will take up.  The same holds of
    every continuation, by the decisions of the caller or by a gate, as long as no
    continuation by decisions starts with a handoff queued behind another call
    ([deferred_call_lost] says what becomes of one that does). *)
Theorem run_answers_calls initial request r sp k s :
  plain_session → runs initial request (Outcome r sp k) s →
  match k with
  | None => validate_history_pairs (history r) = Ok tt
  | Some e => run_result e = r ∧
      pairs_from ∅ (history r) = Ok (id_set (calls e ++ deferred_calls e))
  end.
Proof.
  intros Hp Hr. enough (answered_run r k) as Ha by (destruct k; [destruct Ha as (? & _ & ?)|]; done).
  remember (Outcome r sp k) as o eqn:Ho.
  revert r sp k Ho.
  induction Hr as [str snd w fuel o s Hd|r1 sp1 e1 s1 fuel ds o s Hr IH Hres Hd|
    r1 sp1 e1 s1 fuel o s Hr IH Hd]; intros r sp k ->.
  - by eapply (drive_answered Hp), Hd.
  - destruct (IH _ _ _ eq_refl) as (_ & Hst & _).
    eapply resume_answered, Hd; [done|by apply steady_coherent|done].
  - destruct (IH _ _ _ eq_refl) as (_ & Hst & _). by eapply gate_answered, Hd.
Qed.

Lemma budget_resumed m s ds e :
  in_budget m s → engine_turns e = engine_turns (engine s) → policy e = policy (engine s) →
  in_budget m (mkSt e (world s) (trace s ++ ((λ d, Resumed d.1 d.2) <$> ds))).
Proof.
  intros Hs He Hp. unfold in_budget, budget in *. simpl. rewrite He, Hp.
  replace (model_calls (trace s ++ _)) with (model_calls (trace s)); [done|].
  generalize (trace s). induction ds as [|d ds IH]; intros tr; simpl; [by rewrite app_nil_r|].
  rewrite cons_middle, app_assoc, <-IH, model_calls_snoc. simpl. lia.
Qed.
Lemma resume_budget m fuel ds s o s' :
  in_budget m s → resume_batch fuel ds s = Some (o, s') → in_budget m s'.
Proof.
  intros Hs. unfold resume_batch, prepare_batch. destruct (_ || _); [by intros [= <- <-]|].
  apply drive_budget. by apply budget_resumed.
Qed.
Lemma start_budget initial request str snd (w : W) :
  (max_turns (run_policy request) <= u32_max)%N →
  in_budget (mkBound (max_turns (run_policy request)) 0 0)
    (mkSt (new_engine initial request str snd) w []).
Proof. intros Hm. split_and!; simpl; try done; lia. Qed.

Lemma budget_gate_step m : keeps (within (budget 0 m)) (gate_step : M Value W bool).
Proof.
  assert (∀ c, keeps (within (budget 0 m)) (tool c : M Value W bool)) by (intros; apply budget_tool).
  assert (∀ c d, keeps (within (budget 0 m)) (note (Asked c d) : M Value W unit)).
  { intros. apply budget_asked. }
  unfold gate_step. apply (keeps_bind (within (budget 0 m))); [silent|].
  intros e. case_match; [silent|]. case_match; [|silent].
  apply (keeps_bind (within (budget 0 m))); [silent|]. intros [approved reason].
  apply (keeps_bind (within (budget 0 m))); [silent|]. intros _.
  apply (keeps_bind (within (budget 0 m))); [|silent].
  apply budget_modify. intros e'. by destruct (_ && _).
Qed.
(** A resumption by a gate keeps the budget, or renews it when the run is not durable. *)
Definition renew m : Bound := if durable then m else mkBound base_turn_limit (limit m + earlier m) 0.
Lemma resume_gate_budget m fuel s o s' :
  (base_turn_limit <= u32_max)%N → no_grants → in_budget m s →
  resume_go_gate fuel s = Some (o, s') → in_budget m s' ∨ in_budget (renew m) s'.
Proof.
  intros Hb Hn Hs. unfold resume_go_gate. set (e := set_sender false _).
  assert (in_budget m (mkSt e (world s) (trace s))) as Hin by exact Hs.
  pose proof (gate_calls_within (budget 0 m) fuel (mkSt e (world s) (trace s))) as Hg.
  destruct (gate_calls fuel _) as [[[[]|f] s1]|]; [..|done];
    specialize (Hg _ _ (budget_gate_step m) Hin eq_refl).
  - intros Hr. right. eapply drive_budget, Hr. unfold renew. destruct durable; [exact Hg|].
    destruct Hg as (Hc & _ & Ht & _ & Hl). specialize (Hl Hn). split_and!; simpl; try done; lia.
  - intros [= Heq]. left. assert (in_budget m (fail_run f s1).2) as Hf.
    { apply (fail_run_within (budget 0 m)); done. }
    by rewrite Heq in Hf.
Qed.

(** A run and its continuations, of which [n] were resumed by a gate. *)
Inductive continued (initial : N) (request : RunRequest Value) : N → St Value W → Prop :=
| continued_start str snd w :
    continued initial request 0 (mkSt (new_engine initial request str snd) w [])
| continued_drive n fuel s o s' :
    continued initial request n s → drive fuel s = Some (o, s') → continued initial request n s'
| continued_resume n fuel ds s o s' :
    continued initial request n s → resume_batch fuel ds s = Some (o, s') →
    continued initial request n s'
| continued_gate n fuel s o s' :
    continued initial request n s → resume_go_gate fuel s = Some (o, s') →
    continued initial request (n + 1) s'.

(** C20: Where the configuration has neither a stop gate nor sub-agents, both of which may
    grant turns: a run and its continuations call the model at most as often as the request
    allows turns, retries and fallbacks included, and the base limit more for each
    resumption by a gate, which renews the budget unless the run is durable. *)
Theorem model_calls_bounded initial request n s :
  stop_gate config = false → subagents config = false →
  (max_turns (run_policy request) <= u32_max)%N → (base_turn_limit <= u32_max)%N →
  continued initial request n s →
  (model_calls (trace s)
   <= max_turns (run_policy request) + if durable then 0 else n * base_turn_limit)%N.
Proof.
  intros Hg Hsub Hm Hb Hs. assert (no_grants) as Hno by done.
  assert (∃ m, in_budget m s ∧ (limit m + earlier m
    <= max_turns (run_policy request) + if durable then 0 else n * base_turn_limit)%N)
    as (m & (Hc & _ & Ht & _ & Hl) & Hle).
  { induction Hs as [str snd w|n fuel s o s' _ (m & Hin & Hle) Hr|n fuel ds s o s' _ (m & Hin & Hle) Hr|
      n fuel s o s' _ (m & Hin & Hle) Hr].
    - eexists. split; [by apply start_budget|]. simpl. lia.
    - exists m. split; [by eapply drive_budget|done].
    - exists m. split; [by eapply resume_budget|done].
    - destruct (resume_gate_budget _ _ _ _ _ Hb Hno Hin Hr) as [Hi|Hi].
      + exists m. split; [done|]. destruct durable; lia.
      + exists (renew m). split; [done|]. unfold renew. destruct durable; simpl; lia. }
  specialize (Hl Hno). lia.
Qed.

Lemma gate_bounded fuel s o s' :
  (base_turn_limit <= u32_max)%N → bounded_turns (engine s) →
  resume_go_gate fuel s = Some (o, s') → bounded_turns (engine s').
Proof.
  intros Hb Hs. unfold resume_go_gate. set (e := set_sender false _).
  assert (in_budget (here s) (mkSt e (world s) (trace s))) as Hin
    by exact (bounded_in_budget s Hs).
  pose proof (gate_calls_within (budget 0 (here s)) fuel (mkSt e (world s) (trace s))) as Hg.
  destruct (gate_calls fuel _) as [[[[]|f] s1]|]; [..|done];
    specialize (Hg _ _ (budget_gate_step (here s)) Hin eq_refl).
  - intros Hr. assert (bounded_turns (if durable then engine s1 else fresh_budget (engine s1))) as Hb1.
    { destruct durable; [by eapply in_budget_bounded|]. split; simpl; [lia|done]. }
    eapply in_budget_bounded, drive_budget, Hr. by apply bounded_in_budget.
  - intros [= Heq]. assert (in_budget (here s) (fail_run f s1).2) as Hf.
    { apply (fail_run_within (budget 0 (here s))); done. }
    rewrite Heq in Hf. by eapply in_budget_bounded.
Qed.
Lemma session_bounded initial request s gates :
  (max_turns (run_policy request) <= u32_max)%N → (base_turn_limit <= u32_max)%N →
  session gates initial request s → bounded_turns (engine s).
Proof.
  intros Hm Hb Hs. induction Hs as [str snd w|fuel s o s' _ IH Hr|fuel ds s o s' _ IH Hr|
    fuel s o s' Hg _ IH Hr].
  - by apply (in_budget_bounded (mkBound (max_turns (run_policy request)) 0 0)), start_budget.
  - by eapply in_budget_bounded, drive_budget, Hr; apply bounded_in_budget.
  - by eapply in_budget_bounded, resume_budget, Hr; apply bounded_in_budget.
  - by eapply gate_bounded, Hr.
Qed.

Lemma drive_ends s : bounded_turns (engine s) → ∃ fuel, drive fuel s ≠ None.
Proof.
  intros Hs. destruct (advance_fuel _ _ s Hs (le_n _) (le_n _)) as [fuel Hf].
  exists fuel. unfold drive. by destruct (advance fuel s) as [[]|].
Qed.
Lemma gate_ends s :
  (base_turn_limit <= u32_max)%N → bounded_turns (engine s) → ∃ fuel, resume_go_gate fuel s ≠ None.
Proof.
  intros Hb Hs. unfold resume_go_gate. set (e := set_sender false _). set (s0 := mkSt e _ _).
  set (n := S (length (calls e))).
  destruct (gate_calls n s0) as [[r s1]|] eqn:Hg; [|by destruct (gate_calls_total n s0 (Nat.lt_succ_diag_r _))].
  assert (bounded_turns (engine s1)) as H1.
  { apply (in_budget_bounded (here s)). eapply (gate_calls_within (budget 0 (here s)));
      [apply budget_gate_step| |exact Hg]. exact (bounded_in_budget s Hs). }
  destruct r as [[]|f]; [|exists n; by rewrite Hg].
  set (s2 := mkSt (set_tool_final None (if durable then engine s1 else fresh_budget (engine s1)))
    (world s1) (trace s1)).
  assert (bounded_turns (engine s2)) as H2.
  { subst s2. destruct durable; [exact H1|]. split; simpl; [lia|done]. }
  destruct (drive_ends s2 H2) as [fuel Hf]. destruct (drive fuel s2) as [o|] eqn:Hd; [|done].
  exists (max n fuel). rewrite (gate_calls_more _ (max n fuel) _ _ Hg) by lia.
  fold s2. by rewrite (drive_more _ (max n fuel) _ _ Hd) by lia.
Qed.

(** C6: Every run returns: whatever the outside answers, some number of steps is enough for
    the run, and for each of its continuations, by decisions or by a gate, to complete,
    pause or fail; and a gate's loop that goes on to the run has settled every call. *)
Theorem run_terminates gates initial request s :
  (max_turns (run_policy request) <= u32_max)%N → (base_turn_limit <= u32_max)%N →
  session gates initial request s →
  (∃ fuel, drive fuel s ≠ None)
  ∧ (∀ ds, ∃ fuel, resume_batch fuel ds s ≠ None)
  ∧ (∃ fuel, resume_go_gate fuel s ≠ None)
  ∧ ∀ fuel s', gate_calls fuel s = Some (Ok tt, s') → calls (engine s') = [].
Proof.
  intros Hm Hb Hs. pose proof (session_bounded _ _ _ _ Hm Hb Hs) as Hbound.
  split_and!; [by apply drive_ends| |by apply gate_ends|by intros; eapply gate_calls_done].
  intros ds. unfold resume_batch, prepare_batch. destruct (_ || _); [by exists 0|]. by apply drive_ends.
Qed.

(** A continuation goes on with exactly the decisions asked for: one for each pending
    approval and none else, in any order; anything else is refused without a step. *)
Theorem resume_decisions (e : Engine Value) ds :
  let pending := (call_id ∘ requested_call) <$> pending_approvals (run_result e) in
  if decide (NoDup (ds.*1) ∧ ds.*1 ≡ₚ pending)
  then ∃ e', prepare_batch e ds = Ok e' ∧ (∀ id d, approvals e' !! id = Some d ↔ (id, d) ∈ ds)
             ∧ waiting e' = waiting e ∧ history (run_result e') = history (run_result e)
  else prepare_batch e ds = Err decisions_error.
Proof.
  unfold prepare_batch. set (pending := (call_id ∘ requested_call) <$> _).
  change (fst <$> ds) with (ds.*1).
  assert ((negb (length ds =? length pending)%nat || negb (bool_decide (NoDup (ds.*1)))
    || negb (forallb (λ d, is_one_of d.1 pending) ds)) = false
    ↔ NoDup (ds.*1) ∧ ds.*1 ≡ₚ pending) as Hiff.
  { rewrite !orb_false_iff, !negb_false_iff, Nat.eqb_eq, bool_decide_eq_true, forallb_forall.
    split.
    - intros [[Hl Hn] Hin]. split; [done|]. apply submseteq_length_Permutation.
      2:{ rewrite length_fmap. lia. }
      apply NoDup_submseteq; [done|]. intros id (d & -> & Hd)%list_elem_of_fmap.
      apply list_elem_of_In in Hd. specialize (Hin d Hd).
      apply existsb_exists in Hin as (id & Hid & He%String.eqb_eq). rewrite He.
      by apply list_elem_of_In.
    - intros [Hn Hp]. split_and!; [|done|].
      + by rewrite <-Hp, length_fmap.
      + intros d Hd%list_elem_of_In. apply existsb_exists. exists d.1. split; [|apply String.eqb_refl].
        apply list_elem_of_In. rewrite <-Hp. apply list_elem_of_fmap. by exists d. }
  destruct (decide _) as [Hd|Hd].
  - rewrite (proj2 Hiff Hd). eexists. split_and!; [done| |done|done].
    intros id d. simpl. symmetry. apply elem_of_list_to_map, Hd.
  - destruct (_ || _); [done|]. by destruct (Hd (proj1 Hiff eq_refl)).
Qed.

(** C35: [validate_agent] terminates on the finite, possibly cyclic, graph of handoffs, and
    accepts exactly when every agent that can be reached has distinct names and valid
    schemas. *)
Theorem validate_agent_spec (U : gset N) fuel a :
  a ∈ U → (∀ b h, b ∈ U → h ∈ handoffs (agents b) → target h ∈ U) → size U < fuel →
  match validate_agent fuel a ∅ with
  | Some (Ok seen) => ∀ b, reachable a b → b ∈ seen ∧ check_agent (agents b) = Ok tt
  | Some (Err e) => ∃ b, reachable a b ∧ check_agent (agents b) = Err e
  | None => False
  end.
Proof.
  intros Ha HU Hf. destruct (validate_agent fuel a ∅) as [[seen|e]|] eqn:Hv.
  - intros b Hb. by eapply validated_reachable.
  - by eapply validate_agent_err.
  - eapply (validate_agent_fuel U fuel a ∅); try done.
    by replace (U ∖ ∅) with U by set_solver.
Qed.

(** An attempt whose output the host has seen is never repeated nor passed to another
    model: the run fails with its error. *)
Theorem no_retry_after_output b i next request n f s :
  ∃ g s', recover b i next request n f true s = (Err g, s') ∧ history (run_result (engine s')) =
    history (run_result (engine s)).
Proof.
  assert (keeps (fixes (W := W) (λ e, history (run_result e))) (recover b i next request n f true)) as Hk.
  { assert (Frame (fixes (W := W) (λ e : Engine Value, history (run_result e)))) by (by apply fixes_frame).
    unfold recover. simpl. silent. }
  specialize (Hk s). unfold fixes in Hk.
  pose proof (recover_committed b i next request n f (λ _ _, False) s) as Hr. unfold ok, wp in Hr.
  destruct (recover b i next request n f true s) as [[v|g] s']; [done|]. by exists g, s'.
Qed.

(** The ceiling of the policy's own delay. *)
Definition delay_cap : N :=
  if (max_delay (retry config) =? 0)%N then seconds 30 else max_delay (retry config).
Lemma doubling_mono n n' : (1 <= n <= n')%N → (1 <= doubling n <= doubling n')%N.
Proof.
  intros Hn. unfold doubling. assert (2 ^ (n - 1) <= 2 ^ (n' - 1))%N by (apply N.pow_le_mono_r; lia).
  assert (2 ^ (n - 1) ≠ 0)%N by (apply N.pow_nonzero; lia).
  assert (1 <= u32_max)%N by done. lia.
Qed.
Lemma duration_mul_mono d k k' : (k <= k')%N → (duration_mul d k <= duration_mul d k')%N.
Proof. intros Hk. unfold duration_mul. assert (d * k <= d * k')%N by (by apply N.mul_le_mono_l). lia. Qed.
Lemma policy_delay_mono n n' :
  (1 <= n <= n')%N → (initial_delay (retry config) <= duration_max)%N →
  (initial_delay (retry config) <= delay_cap)%N → (policy_delay n <= policy_delay n')%N.
Proof.
  intros Hn Hi Hc. unfold policy_delay. fold delay_cap.
  pose proof (doubling_mono n n' Hn). pose proof (doubling_mono 1 n' ltac:(lia)).
  pose proof (duration_mul_mono (initial_delay (retry config)) (doubling n) (doubling n') ltac:(lia)).
  assert (initial_delay (retry config) <= duration_mul (initial_delay (retry config)) (doubling n'))%N.
  { unfold duration_mul.
    assert (initial_delay (retry config) * 1 <= initial_delay (retry config) * doubling n')%N
      by (apply N.mul_le_mono_l; lia). lia. }
  destruct (N.eqb_spec n 1), (N.eqb_spec n' 1); lia.
Qed.

(** The wait before a retry is at most five minutes, at least what the provider advised
    up to that, and never shortens as the attempts go on. *)
Theorem retry_delay_bounds n n' policy advised :
  (1 <= n <= n')%N →
  (initial_delay (retry config) <= duration_max)%N →
  (initial_delay (retry config) <= delay_cap)%N →
  (retry_delay n policy advised <= seconds 300)%N
  ∧ (N.min advised (seconds 300) <= retry_delay n policy advised)%N
  ∧ (retry_delay n policy advised <= retry_delay n' policy advised)%N.
Proof.
  intros Hn Hi Hc. pose proof (policy_delay_mono n n' Hn Hi Hc).
  pose proof (duration_mul_mono (seconds 1) (doubling n) (doubling n')
    ltac:(by apply doubling_mono)).
  unfold retry_delay. split_and!; [lia|..]; destruct policy; simpl;
    destruct (advised =? 0)%N eqn:Ha; simpl; try destruct (initial_delay (retry config) =? 0)%N;
    simpl; try apply N.eqb_eq in Ha; lia.
Qed.
End sessions.

(** ** Concrete runs *)

Definition final_state (s : St string Script) : St string Script :=
  match drive 30 s with Some (_, s') => s' | None => s end.
Definition sample_end : St string Script := final_state sample_start.
Definition paused_end : St string Script := final_state paused_start.

Lemma sample_plain : plain_session.
Proof. by split; intros w l w' [= <- <-]. Qed.
Lemma sample_session gates : session gates 0 sample_request sample_end.
Proof.
  eapply (session_drive _ _ _ 30 sample_start); [apply session_start|].
  vm_compute. reflexivity.
Qed.


Definition resumed_end : St string Script :=
  match resume_batch 30 [("c", Approve)] paused_end with Some (_, s') => s' | None => paused_end end.
Definition gated_end : St string Script :=
  match resume_go_gate 30 paused_end with Some (_, s') => s' | None => paused_end end.
Lemma paused_resumable : resumable (engine paused_end).
Proof.
  right. split; [by vm_compute|]. intros c Hc. assert (calls (engine paused_end) =
    [mkToolCall "c" "edit" ""]) as Hcalls by by vm_compute.
  rewrite Hcalls in Hc. apply list_elem_of_singleton in Hc as ->.
  intros [h Hh]. by vm_compute in Hh.
Qed.
Lemma paused_runs :
  runs 0 sample_request
    (Outcome (run_result (engine paused_end)) [] (Some (engine paused_end))) paused_end.
Proof. apply (runs_fresh _ _ false false (world paused_start) 30). vm_compute. reflexivity. Qed.
Lemma run_answers_calls_witness :
  status (run_result (engine paused_end)) = RunPaused
  ∧ pairs_from ∅ (history (run_result (engine paused_end))) = Ok {["c"]}
  ∧ validate_history_pairs (history (run_result (engine resumed_end))) = Ok tt
  ∧ validate_history_pairs (history (run_result (engine gated_end))) = Ok tt.
Proof.
  split_and!.
  - vm_compute. reflexivity.
  - refine (proj2 (run_answers_calls 0 sample_request _ _ _ _ sample_plain paused_runs)).
  - apply (run_answers_calls 0 sample_request (run_result (engine resumed_end)) [] None resumed_end);
      [exact sample_plain|].
    eapply (runs_resumed _ _ _ _ _ _ 30 [("c", Approve)]); [apply paused_runs|apply paused_resumable|].
    vm_compute. reflexivity.
  - apply (run_answers_calls 0 sample_request (run_result (engine gated_end)) [] None gated_end);
      [exact sample_plain|].
    eapply (runs_gated _ _ _ _ _ _ 30); [apply paused_runs|]. vm_compute. reflexivity.
Defined.

Lemma sample_continued : continued 0 sample_request 0 paused_end.
Proof. eapply (continued_drive _ _ _ 30 paused_start); [apply continued_start|]. vm_compute. reflexivity. Qed.
Lemma model_calls_bounded_witness :
  model_calls (trace gated_end) = 4%N
  ∧ (model_calls (trace gated_end)
     <= max_turns (run_policy sample_request) + if durable then 0 else 1 * base_turn_limit)%N.
Proof.
  split; [vm_compute; reflexivity|].
  apply (model_calls_bounded 0 sample_request 1 gated_end); [reflexivity|reflexivity|done|done|].
  eapply (continued_gate _ _ 0 30); [apply sample_continued|]. vm_compute. reflexivity.
Defined.

Lemma run_terminates_witness :
  (∃ fuel, drive fuel sample_end ≠ None) ∧ ∃ fuel, resume_go_gate fuel sample_end ≠ None.
Proof.
  destruct (run_terminates true 0 sample_request sample_end) as (Hd & _ & Hg & _);
    [done|done|apply sample_session|by split].
Defined.

Lemma validate_agent_spec_witness :
  match validate_agent 3 0 ∅ with
  | Some (Ok seen) => ∀ b, reachable 0 b → b ∈ seen ∧ check_agent (agents b) = Ok tt
  | Some (Err e) => ∃ b, reachable 0 b ∧ check_agent (agents b) = Err e
  | None => False
  end.
Proof.
  apply (validate_agent_spec {[0%N; 1%N]} 3 0).
  - set_solver.
  - intros b h Hb. assert (b = 0%N ∨ b = 1%N) as [-> | ->] by set_solver; simpl.
    + intros ->%list_elem_of_singleton. set_solver.
    + by intros ?%not_elem_of_nil.
  - vm_compute. lia.
Defined.

Lemma retry_delay_bounds_witness :
  (retry_delay 1 false (seconds 7) <= seconds 300)%N
  ∧ (N.min (seconds 7) (seconds 300) <= retry_delay 1 false (seconds 7))%N
  ∧ (retry_delay 1 false (seconds 7) <= retry_delay 4 false (seconds 7))%N.
Proof. apply (retry_delay_bounds 1 4 false (seconds 7)); done. Defined.

(** A handoff that waits behind a call deferred on resumption loses it: the run completes
    with the call unanswered, in a history no later run accepts. *)
Theorem deferred_call_lost :
  ∃ s1 s2 r,
    drive (setup := guarded_setup) 30 guarded_start
      = Some (Outcome (run_result (engine s1)) [] (Some (engine s1)), s1)
    ∧ resume_batch (setup := guarded_setup) 30 [("a", Defer)] s1 = Some (Outcome r [] None, s2)
    ∧ status r = RunCompleted
    ∧ pairs_from ∅ (history r) = Ok {["a"]}
    ∧ validate_history_pairs (history r)
      = Err (mkError InvalidInput "compaction left unresolved tool calls").
Proof.
  pose (s1 := match drive (setup := guarded_setup) 30 guarded_start with
              | Some (_, s) => s | None => guarded_start end).
  pose (s2 := match resume_batch (setup := guarded_setup) 30 [("a", Defer)] s1 with
              | Some (_, s) => s | None => guarded_start end).
  exists s1, s2, (run_result (engine s2)). split_and!; vm_compute; reflexivity.
Qed.
