(* ===== verification/Checkpoint.v ===== *)
(** * Checkpoint: the durable form of a run

    The records of [crates/adk-runtime/src/durable.rs] that are persisted at
    every boundary of a run ([RunnerCheckpoint] with its continuation
    [RuntimeCheckpoint]), the state a durable run keeps between two of them
    ([DurableState]), and the functions on the scheduler's serialized state
    ([reconcile_children], [has_active_children]).

    A [serde_json::Value] is seen through [JsonShape]: the class [JsonValue] gives
    its constructors and what matching on one observes. *)

From Stdlib Require Import SpecFloat.
From S2P Require Import Prelude Text Durable Core SecurityPolicy Subagent.
From S2P Require Import RunTypes Approvals Codec Compaction Runner.

Inductive JsonShape (Value : Type) :=
| JNull | JBool (b : bool) | JNumber (n : Z) | JString (s : string)
| JArray (l : list Value) | JObject (fields : gmap string Value).
Arguments JNull {_}.
Arguments JBool {_} _.
Arguments JNumber {_} _.
Arguments JString {_} _.
Arguments JArray {_} _.
Arguments JObject {_} _.

(** [shape] is [None] on the values outside of these shapes (fractional
    numbers). *)
Class JsonValue (Value : Type) := {
  shape : Value → option (JsonShape Value);
  json : JsonShape Value → Value;
}.
Class JsonLaws (Value : Type) `{JsonValue Value} : Prop := {
  shape_json s : shape (json s) = Some s;
}.

Section values.
Context {Value : Type} `{JsonValue Value}.

Definition is_null (v : Value) : bool := match shape v with Some JNull => true | _ => false end.
Definition as_str (v : Value) : option string :=
  match shape v with Some (JString s) => Some s | _ => None end.
Definition as_array (v : Value) : option (list Value) :=
  match shape v with Some (JArray l) => Some l | _ => None end.
Definition as_object (v : Value) : option (gmap string Value) :=
  match shape v with Some (JObject m) => Some m | _ => None end.
(** [Value::get] with a key. *)
Definition field (v : Value) (key : string) : option Value := as_object v ≫= (.!! key).
(** [value[key] = x] on an object. *)
Definition with_field (key : string) (x v : Value) : Value :=
  match as_object v with Some m => json (JObject (<[key := x]> m)) | None => v end.

(** ** The scheduler's serialized state *)

Definition invalid_input (m : string) : Error := mkError InvalidInput m.
Definition unsupported (m : string) : Error := mkError Unsupported m.

Definition terminal_name (s : option string) : bool :=
  is_some_and s (λ s, is_one_of s ["completed"; "failed"; "cancelled"]).
Definition active_name (s : option string) : bool :=
  is_some_and s (λ s, is_one_of s ["pending"; "waiting"; "running"; "reconciling"]).

(** One record of [reconcile_children]: an active task is to be reconciled. *)
Definition reconcile_child (ids : gset string) (record : Value)
    : result Error (gset string * Value) :=
  task ← ok_or (field record "task" ≫= as_object) (invalid_input "missing child task");
  id ← ok_or (id ← task !! "id" ≫= as_str; if String.eqb id "" then None else Some id)
         (invalid_input "missing child task ID");
  if bool_decide (id ∈ ids) then Err (invalid_input "duplicate child task ID")
  else
    let status := task !! "status" ≫= as_str in
    if terminal_name status then Ok ({[id]} ∪ ids, record)
    else if active_name status then
      let task := delete "waiting_on"
        (<["error" := json (JString "sub-agent runtime restarted while this task was active; durable reconciliation is required")]>
          (<["status" := json (JString "reconciling")]> task)) in
      Ok ({[id]} ∪ ids, with_field "task" (json (JObject task)) record)
    else Err (unsupported "unknown child task status").
Fixpoint reconcile_records (ids : gset string) (records : list Value)
    : result Error (list Value) :=
  match records with
  | [] => Ok []
  | r :: records =>
      '(ids, r) ← reconcile_child ids r;
      rest ← reconcile_records ids records;
      Ok (r :: rest)
  end.
Definition reconcile_children (children : Value) : result Error Value :=
  if is_null children || is_some_and (field children "records") is_null then Ok children
  else
    records ← ok_or (field children "records" ≫= as_array) (invalid_input "invalid child records");
    records ← reconcile_records ∅ records;
    Ok (with_field "records" (json (JArray records)) children).

(** [record.pointer("/task/" ++ key)], as a string. *)
Definition task_string (record : Value) (key : string) : option string :=
  (field record "task" ≫= (λ task, field task key)) ≫= as_str.
Definition has_active_children (children : option Value) : bool :=
  match children with
  | None => false
  | Some children =>
      if is_null children then false
      else
        match field children "records" with
        | None => true
        | Some records =>
            negb (is_null records)
            && is_none_or (as_array records)
                 (existsb (λ r, negb (terminal_name (task_string r "status"))))
        end
  end.

(** The results a checkpoint delivers are marked in the scheduler's state. *)
Definition mark_delivered (ids : list string) (children : Value) : Value :=
  match field children "records" ≫= as_array with
  | Some records =>
      with_field "records"
        (json (JArray ((λ r,
           if is_some_and (task_string r "id") (λ id, is_one_of id ids)
           then with_field "result_delivered" (json (JBool true)) r else r) <$> records)))
        children
  | None => children
  end.
End values.

(** ** Checkpoints *)

Section checkpoints.
Context {Value : Type}.

Record RuntimeCheckpoint := mkRuntime {
  rt_version : N;
  rt_boundary : string;
  rt_started_at : time;
  rt_deadline_at : option time;
  rt_fingerprint : string;
  rt_result : RunResult Value;
  rt_policy : RunPolicy;
  rt_base_turn_limit : option N;
  rt_stop_gate_blocks : N;
  rt_phase : Phase;
  rt_calls : list (ToolCall Value);
  rt_turns : N;
  rt_cost : f64;
  rt_tool_calls : N;
  rt_tool_pause : bool;
  rt_tool_final : option string;
  rt_tool_turn_start : option nat;
  rt_consecutive_tool_errors : N;
  rt_tool_error_escalated : bool;
  rt_applied_child_messages : gset string;
  rt_child_deliveries : list string;
  rt_approval_journal_present : bool;
  rt_approval_journal : list (ApprovalJournalEntry Value);
}.

(** [dto::Usage]: [i64] counters. *)
Record UsageData := mkUsageData {
  data_requests : Z;
  data_input_tokens : Z;
  data_output_tokens : Z;
  data_cache_read_tokens : Z;
  data_cache_create_tokens : Z;
}.

Record RunnerCheckpoint := mkCheckpoint {
  ck_schema_version : N;
  ck_run_id : string;
  ck_attempt_id : string;
  ck_step_id : string;
  ck_sequence : N;
  ck_boundary : string;
  ck_agent_name : string;
  ck_history : list (RunItemSnapshot Value);
  ck_interruptions : option Value;
  ck_usage : UsageData;
  ck_children : option Value;
  ck_created_at : time;
  ck_runtime : option RuntimeCheckpoint;
  ck_effect : option (Effect Value);
}.
Definition execution_boundary (self : RunnerCheckpoint) : string :=
  match ck_runtime self with Some state => rt_boundary state | None => ck_boundary self end.

(** [RuntimeCheckpoint::wall_time_ms] *)
Definition wall_time_ms (self : RuntimeCheckpoint) (now : time) : Z :=
  Z.max (Z.quot (now - rt_started_at self) 1000000) 0.

(** [RunnerCheckpoint::decode], after serde parsed the bytes into [version] and
    the checkpoint. *)
Definition decode_checkpoint (version : option N) (parsed : result Error RunnerCheckpoint)
    : result Error RunnerCheckpoint :=
  if negb (bool_decide (version = Some 1%N))
  then Err (unsupported "unknown runner checkpoint schema")
  else
    checkpoint ← parsed;
    if is_some_and (ck_runtime checkpoint) (λ state, negb (rt_version state =? 1)%N)
    then Err (unsupported "unknown runtime continuation schema")
    else Ok checkpoint.

(** What a durable run keeps between checkpoints; [ds_owned] is whether a
    scheduler owns the children. *)
Record DurableState := mkDurable {
  ds_owned : bool;
  ds_children : option Value;
  ds_started_at : time;
  ds_deadline_at : option time;
  ds_attempt_id : string;
  ds_sequence : N;
  ds_step_id : string;
  ds_fingerprint : string;
  ds_effect : option (Effect Value);
  ds_tool_calls : N;
}.
Definition set_ds_children (x : option Value) (d : DurableState) : DurableState :=
  mkDurable (ds_owned d) x (ds_started_at d) (ds_deadline_at d) (ds_attempt_id d) (ds_sequence d)
    (ds_step_id d) (ds_fingerprint d) (ds_effect d) (ds_tool_calls d).
Definition set_ds_sequence (x : N) (d : DurableState) : DurableState :=
  mkDurable (ds_owned d) (ds_children d) (ds_started_at d) (ds_deadline_at d) (ds_attempt_id d) x
    (ds_step_id d) (ds_fingerprint d) (ds_effect d) (ds_tool_calls d).
Definition set_ds_step_id (x : string) (d : DurableState) : DurableState :=
  mkDurable (ds_owned d) (ds_children d) (ds_started_at d) (ds_deadline_at d) (ds_attempt_id d)
    (ds_sequence d) x (ds_fingerprint d) (ds_effect d) (ds_tool_calls d).
Definition set_ds_effect (x : option (Effect Value)) (d : DurableState) : DurableState :=
  mkDurable (ds_owned d) (ds_children d) (ds_started_at d) (ds_deadline_at d) (ds_attempt_id d)
    (ds_sequence d) (ds_step_id d) (ds_fingerprint d) x (ds_tool_calls d).
Definition set_ds_tool_calls (x : N) (d : DurableState) : DurableState :=
  mkDurable (ds_owned d) (ds_children d) (ds_started_at d) (ds_deadline_at d) (ds_attempt_id d)
    (ds_sequence d) (ds_step_id d) (ds_fingerprint d) (ds_effect d) x.
End checkpoints.
Arguments RuntimeCheckpoint : clear implicits.
Arguments RunnerCheckpoint : clear implicits.
Arguments DurableState : clear implicits.
