(* ===== verification/RunnerDurable.v ===== *)
(** * RunnerDurable: checkpoints of a run and recovery from them

    [Engine::persist_boundary] and [Runner::drive_durable] of
    [crates/adk-runtime/src/durable.rs].  A durable run is a run of [Runner]
    over a world that also holds the durable state and the record of what went
    to the store and to the outside ([World]); [durable_setup] puts
    [persist_boundary] in the place the runner leaves for it and leaves every
    other operation of the outside as it is.  [drive_durable] opens a run, fresh
    or from a checkpoint ([recover_checkpoint]), and drives it. *)

From Stdlib Require Import SpecFloat.
From stdpp Require Import pretty.
From S2P Require Import Prelude Text Durable Core SecurityPolicy Subagent.
From S2P Require Import RunTypes Approvals Codec Compaction Runner Checkpoint.

(** [thiserror]'s [Display] of the errors of [adk-durable] ([lib.rs]). *)
Definition durable_message (e : DurableError) : string :=
  match e with
  | NotFound => "durable: run not found"
  | AlreadyExists => "durable: run already exists"
  | Conflict => "durable: revision conflict"
  | LeaseHeld => "durable: lease held"
  | LeaseLost => "durable: lease lost"
  | UnsupportedSchema v => "durable: unsupported schema version " +:+ pretty v
  | Invalid m => "durable: " +:+ m
  | Protection m => "durable: persistence transformation: " +:+ m
  | Io m => "durable: IO: " +:+ m
  | Json m => "durable: JSON: " +:+ m
  end.
Definition bridge_message (m : string) : string :=
  "unsupported approval/history conversion: " +:+ m.

(** [.map_err(invalid)] over the two kinds of errors. *)
Definition durable_invalid {A} (r : result DurableError A) : result Error A :=
  match r with Ok a => Ok a | Err e => Err (invalid_input (durable_message e)) end.
Definition bridge_invalid {A} (r : result string A) : result Error A :=
  match r with Ok a => Ok a | Err m => Err (invalid_input (bridge_message m)) end.

(** The name a boundary is persisted under. *)
Definition boundary_name (b : Boundary) : string :=
  match b with
  | BStarted => "run_started"
  | ModelPrepared => "model_prepared"
  | ModelDispatched => "model_dispatched"
  | ModelCompleted => "model_completed"
  | ToolPrepared => "tool_prepared"
  | ToolDispatched => "tool_dispatched"
  | ToolCompleted => "tool_completed"
  | ApprovalPending => "approval_pending"
  | BHandoff => "handoff_completed"
  | BPaused => "paused"
  | BCompleted => "run_completed"
  end.

Section durable_runner.
Context {Value X : Type} `{EqDecision Value} {J : JsonValue Value}.
Notation Item := (RunItem Value).
Notation Call := (ToolCall Value).
Notation Engine := (Engine Value).
Notation DurableState := (DurableState Value).
Notation RunnerCheckpoint := (RunnerCheckpoint Value).
Notation RuntimeCheckpoint := (RuntimeCheckpoint Value).
Notation Effect := (Effect Value).
Notation "'Ext' A" := (X → result Failure A * X) (at level 10, only parsing).

(** ** The configuration a checkpoint is bound to *)

(** An entry of the catalog, and what the fingerprint covers besides; the
    bounds of the output processing are part of [output_digest]. *)
Record AgentCatalog := mkAgentCatalog {
  catalog_name : string;
  catalog_instructions : string;
  catalog_model : string;
  catalog_fallbacks : list string;
  catalog_settings : gmap string Value;
  catalog_schema : option string;
  catalog_schema_name : string;
  catalog_strict : bool;
  catalog_tools : list ToolDefinition;
  catalog_handoffs : list (ToolDefinition * string);
}.
Record Baseline := mkBaseline {
  baseline_catalog : list AgentCatalog;
  baseline_work_dir : string;
  baseline_limits : option N * option f64;
  baseline_validate : bool;
  baseline_approve_mutating : bool;
  baseline_cache_prefix : string;
  baseline_transient : list Item;
  baseline_return_tool_output : bool;
  baseline_tool_error_limit : option N;
  baseline_subagents : bool;
  baseline_stop_gate : option (option string * N);
}.

(** What the durable layer asks of the outside: the UTC clock, fresh
    identifiers, the keys of effects, the owner of the children, the deliveries
    of the session, the checkpoint store, the durable keys of gate and hooks,
    and SHA-256 over the serialized baseline. *)
Record DurableOutside := mkDurableOutside {
  utc_now : X → time;
  duration_of : N → Z;
  fresh_id : X → string * X;
  effect_key_of : string → string → string;
  owner_checkpoint : Ext Value;
  owner_restore : Value → Ext unit;
  delivery_ids : X → list string;
  deliver : list string → Ext unit;
  store_persist : RunnerCheckpoint → Ext unit;
  session_durable : bool;
  gate_key : option string;
  run_hooks_durable : bool;
  agent_hooks_durable : N → bool;
  output_digest : Baseline → result Error string;
}.
Context {base : Setup Value X} (dout : DurableOutside).

(** The agents in the order [pop] visits them; the top of the stack is the head. *)
Fixpoint visit_agents (fuel : nat) (stack : list N) (seen : gset N) : option (list N) :=
  match fuel with
  | O => None
  | S fuel =>
      match stack with
      | [] => Some []
      | a :: stack =>
          if bool_decide (a ∈ seen) then visit_agents fuel stack seen
          else cons a <$> visit_agents fuel (reverse (target <$> handoffs (agents a)) ++ stack)
                 ({[a]} ∪ seen)
      end
  end.

Definition catalog_entry (a : AgentConfig Value) : AgentCatalog :=
  mkAgentCatalog (agent_name a) (agent_instructions a) (binding_name (agent_model a))
    (binding_name <$> fallback_models a) (agent_settings a) (agent_schema a)
    (agent_schema_name a) (agent_schema_strict a) (definition <$> agent_tools a)
    ((λ h, (handoff_definition h, agent_name (agents (target h)))) <$> handoffs a).
Fixpoint catalog (names : gset string) (l : list N) : result Error (list AgentCatalog) :=
  match l with
  | [] => Ok []
  | a :: l =>
      let c := agents a in
      if bool_decide (agent_name c ∈ names) || bool_decide (is_Some (output_parser c))
         || (agent_hooks c && negb (agent_hooks_durable dout a))
      then Err (unsupported "durable agents require unique names and no custom parsers or hooks")
      else
        rest ← catalog ({[agent_name c]} ∪ names) l;
        Ok (catalog_entry c :: rest)
  end.
Definition durable_config : bool :=
  negb (bool_decide (is_Some (compaction config)) || turn_context config
        || (stop_gate config && is_none_or (gate_key dout) (String.eqb ""))
        || (hooks config && negb (run_hooks_durable dout)) || durable_hook config).
(** [Runner::durable_fingerprint], for the agents in the order of their visit. *)
Definition durable_fingerprint (visited : list N) : result Error string :=
  _ ← ensure durable_config
        (unsupported "durable execution does not support custom compaction, turn context, replay-unsafe stop gates or hooks");
  entries ← catalog ∅ visited;
  output_digest dout
    (mkBaseline entries (work_dir config) (max_tokens (limits config), max_cost (limits config))
       (validate_tool_arguments config) (approve_mutating_tools config) (cache_prefix config)
       (transient_context config) (return_tool_output config)
       (consecutive_tool_error_limit config) (subagents config)
       (if stop_gate config then Some (gate_key dout, stop_gate_max_blocks config) else None)).

(** ** The world of a durable run *)

(** What went to the store (and whether it acknowledged), and what was
    dispatched: a model call or a tool under its idempotency key. *)
Inductive Event :=
| Committed (checkpoint : RunnerCheckpoint)
| Doubtful (checkpoint : RunnerCheckpoint)
| Requested (model : string)
| Ran (key : option string) (call : Call).

Record World := mkWorld { rest : X; dstate : DurableState; events : list Event }.
Notation D := (SE World Failure).

(** The deadline of the context and the turn limit of the request, which a
    recovery takes from the checkpoint. *)
Context (until : option N) (limit : N).

Definition on_rest {A} (op : Ext A) : D A :=
  λ w, let '(r, x) := op (rest w) in (r, mkWorld x (dstate w) (events w)).
Definition record (ev : Event) : D unit :=
  λ w, (Ok tt, mkWorld (rest w) (dstate w) (events w ++ [ev])).
Definition state : D DurableState := λ w, (Ok (dstate w), w).
Definition update (f : DurableState → DurableState) : D unit :=
  λ w, (Ok tt, mkWorld (rest w) (f (dstate w)) (events w)).
Definition utc : D time := λ w, (Ok (utc_now dout (rest w)), w).
Definition fresh : D string :=
  λ w, let '(id, x) := fresh_id dout (rest w) in (Ok id, mkWorld x (dstate w) (events w)).
Definition try_durable {A} (r : result Error A) : D A :=
  λ w, (match r with Ok a => Ok a | Err e => Err (of_error e) end, w).
Definition still_active : D unit :=
  λ w, try_durable (check_active (clock out (rest w))
         (mkContext (context_run_id out) (cancelled out (rest w)) until)) w.
Definition bounded_op {A} (op : Ext A) : D A := _ ← still_active; on_rest op.

(** ** [Engine::persist_boundary] *)

(** The owner's state of the children, checked. *)
Definition take_children : D unit :=
  st ← state;
  if ds_owned st then
    children ← bounded_op (owner_checkpoint dout);
    _ ← try_durable (reconcile_children children);
    update (set_ds_children (Some children))
  else mret tt.
Definition pending_deliveries : D (list string) :=
  λ w, (Ok (if subagents config then delivery_ids dout (rest w) else []), w).

Definition prepared (e : option Effect) : bool :=
  is_some_and e (λ e, bool_decide (effect_state e = Prepared)).
(** A prepared boundary: a new intent, unless one is still waiting. *)
Definition prepare_effect (b : Boundary) : D unit :=
  st ← state;
  if (bool_decide (b = ModelPrepared) || bool_decide (b = ToolPrepared))
     && negb (prepared (ds_effect st))
  then
    id ← fresh;
    now ← utc;
    _ ← update (set_ds_effect
          (Some (new_effect id (effect_key_of dout (context_run_id out) id) NonReplayable now)));
    step ← fresh;
    update (set_ds_step_id step)
  else mret tt.
(** A dispatched boundary: the intent is about to leave. *)
Definition dispatches (b : Boundary) : bool :=
  bool_decide (b = ModelDispatched) || bool_decide (b = ToolDispatched).
Definition dispatch_effect (b : Boundary) : D unit :=
  if dispatches b then
    st ← state;
    now ← utc;
    effect ← try_durable (ok_or (ds_effect st) (invalid_input "dispatch without prepared intent"));
    effect ← try_durable (durable_invalid (transition_effect effect Dispatched now));
    _ ← update (set_ds_effect (Some effect));
    if bool_decide (b = ToolDispatched) then
      n ← try_durable (ok_or (checked_add (ds_tool_calls st) 1)
            (invalid_input "tool counter overflow"));
      update (set_ds_tool_calls n)
    else mret tt
  else mret tt.

(** [serde_json::json!({ "boundary": name, "call": pending })] *)
Definition call_json (c : Call) : Value :=
  json (JObject (<["id" := json (JString (call_id c))]>
    (<["name" := json (JString (call_name c))]> {["arguments" := arguments c]}))).
Definition outcome_json (name : string) (pending : option Call) : Value :=
  json (JObject (<["boundary" := json (JString name)]>
    {["call" := match pending with Some c => call_json c | None => json JNull end]})).
Definition with_outcome (v : Value) (e : Effect) : Effect :=
  mkEffect (effect_id e) (effect_classification e) (effect_data_classification e)
    (effect_state e) (Durable.idempotency_key e) (prepared_at e) (effect_updated_at e) (Some v).
(** A completed boundary: the dispatched intent succeeded; a handoff, which is
    local, goes through both steps. *)
Definition completes (b : Boundary) : bool :=
  bool_decide (b = ModelCompleted) || bool_decide (b = ToolCompleted) || bool_decide (b = BHandoff).
Definition finish_effect (b : Boundary) (pending : option Call) (now : time) (e : Effect)
    : result DurableError Effect :=
  e ← (if bool_decide (effect_state e = Prepared) && bool_decide (b = BHandoff)
       then transition_effect e Dispatched now else Ok e);
  if bool_decide (effect_state e = Dispatched)
  then e ← transition_effect e Succeeded now;
       Ok (with_outcome (outcome_json (boundary_name b) pending) e)
  else Ok e.
Definition complete_effect (b : Boundary) (pending : option Call) : D unit :=
  st ← state;
  match ds_effect st with
  | Some e =>
      if completes b then
        now ← utc;
        e ← try_durable (durable_invalid (finish_effect b pending now e));
        update (set_ds_effect (Some e))
      else mret tt
  | None => mret tt
  end.

(** The history in wire form: handoffs as results, pauses left out. *)
Definition project_item (item : Item) : Item :=
  match item with
  | ItemHandoff id agent =>
      ItemToolResult id (mkToolOutput [Text ("Handing off to " +:+ agent)] false false)
  | ItemToolResult id output =>
      ItemToolResult id (mkToolOutput (output_content output) (is_error output) false)
  | item => item
  end.
Definition provenance (agent : string) (item : Item) : option string :=
  match item with
  | ItemMessage m | ItemPhasedMessage m _ =>
      if bool_decide (role m = User) then None else Some agent
  | _ => Some agent
  end.
Definition insert_marker (history : list (WireItem Value))
    (om : nat * ApprovalMarkerBoundary Value) : result Error (list (WireItem Value)) :=
  let index := (before_item om.2 + om.1)%nat in
  if (index <=? length history)%nat then
    w ← bridge_invalid (to_wire (marker om.2));
    Ok (take index history ++ w :: drop index history)
  else Err (invalid_input "approval marker outside history").
Definition wire_history (e : Engine) : result Error (list (WireItem Value)) :=
  let name := agent_name (agents (agent e)) in
  wire ← mapR (λ item, bridge_invalid (encode_item (project_item item) (provenance name item)))
           (history (run_result e));
  markers ← bridge_invalid (history_markers (approval_journal e));
  foldM insert_marker wire (imap pair markers).

(** [i64::try_from] of a counter. *)
Definition count (n : N) : result Error Z :=
  if (Z.of_N n <=? i64_max)%Z then Ok (Z.of_N n)
  else Err (invalid_input "out of range integral type conversion attempted").
Definition usage_data (e : Engine) : result Error UsageData :=
  let u := usage (run_result e) in
  i ← count (input_tokens u);
  o ← count (output_tokens u);
  r ← count (cache_read_tokens u);
  c ← count (cache_creation_tokens u);
  Ok (mkUsageData (Z.of_N (engine_turns e)) i o r c).

Definition runtime_of (e : Engine) (b : Boundary) (st : DurableState) (ids : list string)
    : RuntimeCheckpoint :=
  let es := entries (approval_journal e) in
  mkRuntime 1 (boundary_name b) (ds_started_at st) (ds_deadline_at st) (ds_fingerprint st)
    (run_result e) (policy e) (Some limit) (stop_gate_blocks e) (phase e) (calls e)
    (engine_turns e) (engine_cost e) (ds_tool_calls st) (tool_pause e) (tool_final e)
    (tool_turn_start e) (consecutive_tool_errors e) (tool_error_escalated e)
    (applied_child_messages e) ids (negb (bool_decide (length es = 0%nat))) es.
Definition checkpoint_of (e : Engine) (b : Boundary) (st : DurableState) (ids : list string)
    (wire : list (WireItem Value)) (u : UsageData) (sequence : N) (now : time) : RunnerCheckpoint :=
  mkCheckpoint 1 (context_run_id out) (ds_attempt_id st) (ds_step_id st) sequence
    (if bool_decide (b = BCompleted) then "run_completed" else "model_completed")
    (agent_name (agents (agent e))) (snapshot_items wire) None u (ds_children st) now
    (Some (runtime_of e b st ids)) (ds_effect st).

(** The write: acknowledged or in doubt. *)
Definition write (checkpoint : RunnerCheckpoint) : D unit :=
  λ w, match on_rest (store_persist dout checkpoint) w with
       | (Ok _, w) => record (Committed checkpoint) w
       | (Err f, w) => let '(_, w) := record (Doubtful checkpoint) w in (Err f, w)
       end.
Definition persist (checkpoint : RunnerCheckpoint) : D unit := _ ← still_active; write checkpoint.

(** Everything before the write. *)
Definition take_checkpoint (e : Engine) (b : Boundary) (pending : option Call) (ids : list string)
    : D RunnerCheckpoint :=
  _ ← prepare_effect b;
  _ ← dispatch_effect b;
  _ ← complete_effect b pending;
  wire ← try_durable (wire_history e);
  st ← state;
  sequence ← try_durable (ok_or (checked_add (ds_sequence st) 1)
               (invalid_input "checkpoint sequence overflow"));
  u ← try_durable (usage_data e);
  now ← utc;
  mret (checkpoint_of e b st ids wire u sequence now).
Definition persist_boundary (e : Engine) (b : Boundary) (pending : option Call) : D unit :=
  _ ← take_children;
  ids ← pending_deliveries;
  _ ← update (λ st, set_ds_children (mark_delivered ids <$> ds_children st) st);
  checkpoint ← take_checkpoint e b pending ids;
  _ ← persist checkpoint;
  _ ← update (set_ds_sequence (ck_sequence checkpoint));
  if subagents config then on_rest (deliver dout ids) else mret tt.

(** ** The setup of a durable run *)

Definition ignore {A} (f : X → A) (w : World) : A := f (rest w).
(** What leaves for a model or a tool is recorded. *)
Definition recorded {A} (ev : Event) (op : Ext A) : D A := _ ← record ev; on_rest op.

Fixpoint lift_stream (s : ModelStream Value X) : ModelStream Value World :=
  match s with
  | mkStream next =>
      mkStream (λ w,
        match next (rest w) with
        | (Ok (Some (event, s)), x) =>
            (Ok (Some (event, lift_stream s)), mkWorld x (dstate w) (events w))
        | (Ok None, x) => (Ok None, mkWorld x (dstate w) (events w))
        | (Err f, x) => (Err f, mkWorld x (dstate w) (events w))
        end)
  end.
Definition open_stream (binding : ModelBinding) (request : ModelRequest Value)
    : D (ModelStream Value World) :=
  s ← recorded (Requested (binding_name binding)) (stream out binding request);
  mret (lift_stream s).

Definition durable_outside : Outside Value World := {|
  context_run_id := context_run_id out;
  deadline := until;
  clock := ignore (clock out);
  cancelled := ignore (cancelled out);
  instant_add := instant_add out;
  host_emit := λ ev, on_rest (host_emit out ev);
  send := λ ev, on_rest (send out ev);
  approve := λ r, on_rest (approve out r);
  gate_approve := λ r, on_rest (gate_approve out r);
  hook_observe := λ a o, on_rest (hook_observe out a o);
  hook_checkpoint := λ b r c, on_rest (hook_checkpoint out b r c);
  turn_hints := λ r n, on_rest (turn_hints out r n);
  check_gate := λ v, on_rest (check_gate out v);
  Runner.persist_boundary := persist_boundary;
  effect_key := λ w, Durable.idempotency_key <$> ds_effect (dstate w);
  complete := λ b r, recorded (Requested (binding_name b)) (complete out b r);
  stream := open_stream;
  retry_advice := retry_advice out;
  compact_history := λ r, on_rest (compact_history out r);
  sleep := λ d, on_rest (sleep out d);
  for_access := for_access out;
  execute := λ t c call, recorded (Ran (idempotency_key c) call) (execute out t c call);
  process_output := λ o b, on_rest (process_output out o b);
  pick := λ n, ignore (pick out n);
  commit_delivery := on_rest (commit_delivery out);
  session_collect := on_rest (session_collect out);
  session_join := on_rest (session_join out);
  session_update_parent := λ h w,
    mkWorld (session_update_parent out h (rest w)) (dstate w) (events w);
  control_usage := ignore (control_usage out);
  control_charge := λ u, on_rest (control_charge out u);
  control_reserve := λ u, on_rest (control_reserve out u);
  control_take := on_rest (control_take out);
  control_finish_or_take := on_rest (control_finish_or_take out);
  control_acknowledge := λ l, on_rest (control_acknowledge out l);
  control_tool_start := λ a b c, on_rest (control_tool_start out a b c);
  control_tool_end := λ a b c d n, on_rest (control_tool_end out a b c d n);
  control_wait := on_rest (control_wait out);
  json_string := json_string out;
  parse_json := parse_json out;
  json_str_field := json_str_field out;
  compile_schema := compile_schema out;
  sha256_hex := sha256_hex out;
  to_string := to_string out;
  as_u64 := as_u64 out;
  to_lowercase := to_lowercase out;
  debug := debug out;
  summarize := summarize out;
  summarize_terse := summarize_terse out;
|}.
Definition durable_setup : Setup Value World := {|
  agents := agents;
  config := config;
  out := durable_outside;
  base_turn_limit := limit;
  durable := true;
  child := child;
|}.
End durable_runner.

(** ** Recovery *)

Section recovery.
Context {Value X : Type} `{EqDecision Value} {J : JsonValue Value}.
Context {base : Setup Value X} (dout : DurableOutside (Value := Value) (X := X)).
Notation Item := (RunItem Value).
Notation Call := (ToolCall Value).
Notation Engine := (Engine Value).
Notation RunnerCheckpoint := (RunnerCheckpoint Value).
Notation RuntimeCheckpoint := (RuntimeCheckpoint Value).
Notation DurableState := (DurableState Value).

(** The unresolved calls of a persisted history; a call id appears once. *)
Fixpoint scan_history (pending : gmap string Call) (seen : gset string) (history : list Item)
    : result Error (gmap string Call) :=
  match history with
  | [] => Ok pending
  | ItemToolCall call :: history =>
      if bool_decide (call_id call ∈ seen)
      then Err (invalid_input "duplicate persisted tool call")
      else scan_history (<[call_id call := call]> pending) ({[call_id call]} ∪ seen) history
  | (ItemToolResult id _ | ItemHandoff id _) :: history =>
      if bool_decide (is_Some (pending !! id))
      then scan_history (delete id pending) seen history
      else Err (invalid_input "orphan persisted tool result")
  | _ :: history => scan_history pending seen history
  end.
Definition queue_matches (saved : RuntimeCheckpoint) (pending : gmap string Call) : bool :=
  negb (negb (size pending =? length (rt_calls saved))
        || existsb (λ c, negb (bool_decide (pending !! call_id c = Some c))) (rt_calls saved)
        || (negb (bool_decide (rt_phase saved = Tools)) && negb (bool_decide (pending = ∅)))).

(** [approvals] as the journal left them, for the calls still queued. *)
Definition restore_approval (calls : list Call) (approvals : gmap string ApprovalDecision)
    (entry : ApprovalJournalEntry Value) : result Error (gmap string ApprovalDecision) :=
  call ← bridge_invalid (approval_call (marker_data (entry_marker entry)));
  if bool_decide (call ∈ calls) then
    Ok match marker_phase (entry_marker entry) with
       | PhaseApproved => <[call_id call := Approve]> approvals
       | PhaseDenied => <[call_id call := DenyCall]> approvals
       | PhasePending => delete (call_id call) approvals
       end
  else Ok approvals.

Definition resumable_boundary (b : string) : bool :=
  is_one_of b ["run_started"; "model_prepared"; "model_completed"; "tool_prepared";
    "tool_completed"; "handoff_completed"; "run_completed"; "paused"; "child_changed";
    "approval_pending"].
Definition interrupted (v : option Value) : bool :=
  is_some_and v (λ v, negb (is_null v)
    && is_none_or (as_array v) (λ l, negb (bool_decide (length l = 0%nat)))).
Definition in_flight (effect : option (Effect Value)) : bool :=
  is_some_and effect (λ e,
    bool_decide (effect_state e = Dispatched) || bool_decide (effect_state e = OutcomeUnknown)).

(** A child may go on only under the policy of its parent's baseline. *)
Definition tools_baseline (p : ToolPolicy) : SecurityBaseline := mkSecurityBaseline p ∅ ∅ false None.
Definition adopt_policy (saved current : RunPolicy) : result Error RunPolicy :=
  if child then
    if negb (allows_resume_under (tools_baseline (tools saved)) (tools_baseline (tools current)))
    then Err (unsupported "child recovery cannot weaken the tool policy")
    else Ok (mkRunPolicy (max_turns saved) (tools current) (tool_use saved))
  else Ok saved.
(** The policy of the request the checkpoint comes from. *)
Definition original_policy (saved : RuntimeCheckpoint) (p : RunPolicy) : RunPolicy :=
  mkRunPolicy (default (max_turns p) (rt_base_turn_limit saved)) (tools p) (tool_use p).
Definition same_configuration (saved : RuntimeCheckpoint) (p requested : RunPolicy)
    (fingerprint : string) : bool :=
  let original := original_policy saved p in
  negb ((negb (stop_gate config) && negb (rt_stop_gate_blocks saved =? 0)%N)
        || (negb (stop_gate config) && negb (subagents config)
            && negb (max_turns p =? max_turns original)%N)
        || (max_turns p <? max_turns original)%N
        || (stop_gate_max_blocks config <? rt_stop_gate_blocks saved)%N
        || negb (String.eqb (rt_fingerprint saved) fingerprint)
        || negb (bool_decide (original = requested))).

(** How a run is opened. *)
Inductive Entrance := EnterRun | EnterPaused | EnterCompleted.
Record Opening := mkOpening {
  opened_engine : Engine;
  opened_state : DurableState;
  opened_deadline : option N;
  opened_limit : N;
  entrance : Entrance;
}.

(** The engine the checkpoint describes; what is not persisted starts afresh. *)
Definition restored_engine (e : Engine) (found : N) (saved : RuntimeCheckpoint) (p : RunPolicy)
    (boundary : string) (j : Journal Value) (approvals : gmap string ApprovalDecision) : Engine :=
  mkEngine found p (if String.eqb boundary "run_started" then ModelPhase else rt_phase saved)
    (rt_calls saved) approvals (denial_reasons e) (deferred_calls e) (pending_marker_events e) j
    (tools_prepared e) (rt_tool_turn_start saved) (rt_consecutive_tool_errors saved)
    (rt_tool_error_escalated saved) (rt_stop_gate_blocks saved) (rt_turns saved)
    (length (new_items (rt_result saved))) (length (rt_approval_journal saved)) (calibration e)
    (fallbacks e) (rt_cost saved) (rt_tool_pause saved) (rt_tool_final saved) (streaming e)
    (sender e) (spills e) (rt_applied_child_messages saved) (rt_result saved).
Definition earlier (a b : option time) : option time :=
  match a, b with Some a, Some b => Some (Z.min a b) | Some a, None => Some a | None, b => b end.

(** The checks of [drive_durable] on a checkpoint, in their order: who it
    belongs to, under which configuration it was written, whether it is
    consistent, and whether it leaves anything to reconcile. *)
Definition check_envelope (e : Engine) (st : DurableState) (ck : RunnerCheckpoint)
    : result Error unit :=
  _ ← ensure (ck_schema_version ck =? 1)%N (unsupported "unknown runner checkpoint schema");
  _ ← ensure (String.eqb (ck_run_id ck) (context_run_id out)
              && negb (String.eqb (ck_attempt_id ck) (ds_attempt_id st)))
        (invalid_input "recovery requires the same run ID and a new attempt ID");
  _ ← ensure (negb (has_active_children (ck_children ck) && negb (ds_owned st)))
        (unsupported "active child checkpoints require a scheduler owner");
  _ ← match ck_children ck with
      | Some children => _ ← reconcile_children children; Ok tt
      | None => Ok tt
      end;
  _ ← ensure (negb (interrupted (ck_interruptions ck)))
        (unsupported "approval interruptions require explicit reconciliation");
  ensure (bool_decide (length (history (run_result e)) = 0%nat))
    (invalid_input "recovery does not accept additional input").
Definition check_configuration (requested : RunPolicy) (fingerprint : string)
    (runtime : option RuntimeCheckpoint) : result Error (RuntimeCheckpoint * RunPolicy) :=
  saved ← ok_or runtime
    (unsupported "Go checkpoint requires migration: missing policy, cumulative turns/cost and exact continuation");
  _ ← ensure (rt_version saved =? 1)%N (unsupported "unknown runtime continuation schema");
  p ← adopt_policy (rt_policy saved) requested;
  _ ← ensure (same_configuration saved p requested fingerprint)
        (unsupported "durable agent configuration or security policy changed");
  Ok (saved, p).
Definition check_consistency (ck : RunnerCheckpoint) (saved : RuntimeCheckpoint)
    : result Error unit :=
  _ ← ensure (negb ((ck_sequence ck =? 0)%N || String.eqb (ck_step_id ck) ""
                    || negb (bool_decide (last_agent (rt_result saved) = Some (ck_agent_name ck)))))
        (invalid_input "inconsistent checkpoint identity");
  pending ← scan_history ∅ ∅ (history (rt_result saved));
  _ ← ensure (queue_matches saved pending)
        (invalid_input "persisted tool queue does not match unresolved history");
  ensure (is_finite (rt_cost saved) && negb (f64_ltb (rt_cost saved) f64_zero))
    (invalid_input "invalid durable cost counter").
Definition check_settled (ck : RunnerCheckpoint) (saved : RuntimeCheckpoint) : result Error unit :=
  _ ← ensure (negb (in_flight (ck_effect ck)))
        (unsupported "operator_resolution: dispatched effect has an unknown outcome; never replayed");
  _ ← ensure (resumable_boundary (execution_boundary ck))
        (unsupported "checkpoint boundary requires explicit reconciliation");
  ensure (negb (rt_approval_journal_present saved
                && bool_decide (length (rt_approval_journal saved) = 0%nat)
                && negb (String.eqb (execution_boundary ck) "run_completed")))
    (unsupported "approval journal recovery requires explicit reconciliation").

(** The run a checkpoint opens; [now] is the UTC time and [instant] the
    monotonic one. *)
Definition recover_checkpoint (visited : list N) (e : Engine) (st : DurableState) (now : time)
    (instant : N) (ck : RunnerCheckpoint) : result Error Opening :=
  _ ← check_envelope e st ck;
  '(saved, p) ← check_configuration (policy e) (ds_fingerprint st) (ck_runtime ck);
  _ ← check_consistency ck saved;
  _ ← check_settled ck saved;
  let boundary := execution_boundary ck in
  found ← ok_or (last (List.filter (λ a, String.eqb (agent_name (agents a)) (ck_agent_name ck)) visited))
            (unsupported "checkpoint agent is not registered");
  j ← bridge_invalid (restore_journal (rt_approval_journal saved)
        (length (history (rt_result saved))) (length (new_items (rt_result saved))));
  approvals ← foldM (restore_approval (rt_calls saved)) (approvals e) (entries j);
  let deadline_at := earlier (ds_deadline_at st) (rt_deadline_at saved) in
  let st := mkDurable (ds_owned st) (ck_children ck) (rt_started_at saved) deadline_at
              (ds_attempt_id st) (ck_sequence ck) (ck_step_id ck) (ds_fingerprint st)
              (ck_effect ck) (rt_tool_calls saved) in
  let until := match deadline_at with
    | Some d => Some (instant + Z.to_N (Z.max (d - now) 0))%N
    | None => deadline out
    end in
  let engine := restored_engine e found saved p boundary j approvals in
  let opening := mkOpening engine st until (max_turns (original_policy saved p)) in
  if is_one_of boundary ["approval_pending"; "paused"]
     && negb (bool_decide (length (pending_approvals (run_result engine)) = 0%nat))
  then Ok (opening EnterPaused)
  else if String.eqb boundary "run_completed" then Ok (opening EnterCompleted)
  else Ok (opening EnterRun).

(** ** [Runner::drive_durable] *)

Record DurableRun := mkDurableRun {
  run_attempt_id : string;
  run_resume : option RunnerCheckpoint;
  run_has_children : bool;
}.
(** Refused before the first step, or run. *)
Inductive DurableOutcome :=
| Refused (f : Failure)
| Drove (o : RunOutcome Value).
Notation World := (World (Value := Value) (X := X)).

Definition initial_state (run : DurableRun) (fingerprint step : string) (now : time) (instant : N)
    : DurableState :=
  mkDurable (run_has_children run || (subagents config && negb child)) None now
    ((λ d, (now + duration_of dout (d - instant)%N)%Z) <$> deadline out)
    (run_attempt_id run) 0 step fingerprint None 0.

(** What [drive_durable] does outside once a checkpoint is accepted. *)
Definition enter (o : Opening) (saved : RunnerCheckpoint) : SE World Failure unit :=
  _ ← (if ds_owned (opened_state o) then
         match ds_children (opened_state o) with
         | Some children =>
             children ← try_durable (reconcile_children children);
             _ ← still_active (opened_deadline o);
             on_rest (owner_restore dout children)
         | None => mret tt
         end
       else mret tt);
  if child && subagents config
  then on_rest (deliver dout (default [] (rt_child_deliveries <$> ck_runtime saved)))
  else mret tt.

Definition drive_opened (fuel : nat) (o : Opening) (w : World) : option (DurableOutcome * World) :=
  match drive (setup := durable_setup dout (opened_deadline o) (opened_limit o)) fuel
          (mkSt (opened_engine o) w []) with
  | Some (r, s) => Some (Drove r, world s)
  | None => None
  end.
Definition enter_opened (fuel : nat) (o : Opening) (ck : RunnerCheckpoint) (w : World)
    : option (DurableOutcome * World) :=
  match enter o ck w with
  | (Err f, w) => Some (Refused f, w)
  | (Ok _, w) =>
      match entrance o with
      | EnterPaused =>
          let e := set_sender false (set_status RunPaused (opened_engine o)) in
          Some (Drove (Outcome (run_result e) [] (Some e)), w)
      | EnterCompleted =>
          if bool_decide (status (run_result (opened_engine o)) = RunCompleted)
          then Some (Drove (Outcome (run_result (opened_engine o)) [] None), w)
          else Some (Refused (of_error (invalid_input "completed checkpoint has an incomplete result")), w)
      | EnterRun => drive_opened fuel o w
      end
  end.

(** The run a durable invocation opens, or the reason it is refused. *)
Definition open_run (visited : list N) (initial : N) (request : RunRequest Value) (sender : bool)
    (run : DurableRun) (fingerprint : string) (x : X) : result Error Opening * World :=
  let e := new_engine initial request (sender || child) sender in
  let '(step, x) := fresh_id dout x in
  let now := utc_now dout x in
  let instant := clock out x in
  let st := initial_state run fingerprint step now instant in
  match run_resume run with
  | None =>
      (Ok (mkOpening e st (deadline out) (max_turns (run_policy request)) EnterRun),
       mkWorld x st [])
  | Some ck =>
      match recover_checkpoint visited e st now instant ck with
      | Ok o => (Ok o, mkWorld x (opened_state o) [])
      | Err error => (Err error, mkWorld x st [])
      end
  end.
Definition run_allowed (run : DurableRun) : result Error unit :=
  _ ← ensure (negb (String.eqb (context_run_id out) "" || String.eqb (run_attempt_id run) ""))
        (invalid_input "durable run and attempt IDs must be nonempty");
  ensure (child || negb (subagents config) || session_durable dout)
    (unsupported "native durable child sessions require a durable scheduler store").
Definition drive_durable (visits fuel : nat) (initial : N) (request : RunRequest Value)
    (sender : bool) (run : DurableRun) (x : X) : option (DurableOutcome * option World) :=
  match run_allowed run with
  | Err error => Some (Refused (of_error error), None)
  | Ok _ =>
      match visit_agents visits [initial] ∅ with
      | None => None
      | Some visited =>
          match durable_fingerprint dout visited with
          | Err error => Some (Refused (of_error error), None)
          | Ok fingerprint =>
              match open_run visited initial request sender run fingerprint x with
              | (Err error, w) => Some (Refused (of_error error), Some w)
              | (Ok o, w) =>
                  prod_map id Some <$>
                  match run_resume run with
                  | None => drive_opened fuel o w
                  | Some ck => enter_opened fuel o ck w
                  end
              end
          end
      end
  end.
End recovery.
