(* ===== verification/RunnerDurableProps.v ===== *)
(** * RunnerDurableProps: a dispatched effect is never replayed

    [calm]: an operation neither writes to the store nor dispatches.  [safe]: at
    every moment of the record, what was dispatched came right after an
    acknowledged checkpoint that says so.  Everything the engine does is safe;
    hence a checkpoint from which a recovery is accepted was followed by
    nothing that a recovered run could repeat. *)

From Stdlib Require Import SpecFloat.
From S2P Require Import Prelude Text Durable Core SecurityPolicy Subagent.
From S2P Require Import RunTypes Approvals Codec Compaction Runner RunnerLogic RunnerExample.
From S2P Require Import Checkpoint RunnerDurable.

Section safety.
Context {Value X : Type} `{EqDecision Value} {J : JsonValue Value}.
Context {base : Setup Value X} (dout : DurableOutside (Value := Value) (X := X)).
Context (until : option N) (limit : N).
Notation World := (World (Value := Value) (X := X)).
Notation Event := (Event (Value := Value)).
Notation RunnerCheckpoint := (RunnerCheckpoint Value).
#[local] Instance lifted : Setup Value World := durable_setup dout until limit.
Notation St := (St Value World).
Notation M := (M Value World).
Implicit Types (s : St) (w : World) (evs pre post : list Event).

(** ** The record *)

Definition written (ev : Event) : bool :=
  match ev with Committed _ | Doubtful _ => true | _ => false end.
Definition dispatched (ck : RunnerCheckpoint) : Prop :=
  ∃ e, ck_effect ck = Some e ∧ effect_state e = Dispatched.
(** The last write was acknowledged and says that something is in flight. *)
Definition armed evs : Prop :=
  ∃ ck, last (List.filter written evs) = Some (Committed ck) ∧ dispatched ck.
Definition safe_events evs : Prop :=
  ∀ pre ev post, evs = pre ++ ev :: post → written ev = false → armed pre.

Lemma armed_snoc evs ev : written ev = false → armed evs → armed (evs ++ [ev]).
Proof. intros Hev (ck & Hl & Hd). exists ck. split; [|done]. rewrite List.filter_app. simpl.
  by rewrite Hev, app_nil_r. Qed.
Lemma safe_snoc evs ev :
  safe_events evs → (written ev = false → armed evs) → safe_events (evs ++ [ev]).
Proof.
  intros Hs Hev pre x post Heq Hx. destruct (decide (post = [])) as [->|Hpost].
  - apply app_inj_tail in Heq as [-> ->]. by apply Hev.
  - destruct (exists_last Hpost) as (post' & y & ->).
    rewrite app_comm_cons, app_assoc in Heq. apply app_inj_tail in Heq as [Heq _].
    by eapply Hs.
Qed.

(** ** Calm operations *)

Definition calm : relation St := λ s s', events (world s') = events (world s).
#[local] Instance calm_preorder : PreOrder calm.
Proof. split; unfold calm; repeat intro; congruence. Qed.
Definition safe : relation St :=
  λ s s', safe_events (events (world s)) → safe_events (events (world s')).
#[local] Instance safe_preorder : PreOrder safe.
Proof. split; [by intros s|]. intros s1 s2 s3 H12 H23 Hs. by apply H23, H12. Qed.

Lemma calm_on_rest {A} (op : X → result Failure A * X) : keeps calm (ext (on_rest op)).
Proof. intros s. unfold ext, on_rest, calm. by destruct (op (rest (world s))). Qed.
Lemma calm_modify f : keeps calm (modify f).
Proof. done. Qed.
Lemma calm_note a : keeps calm (note a).
Proof. done. Qed.
Lemma calm_update_parent h : keeps calm (on_world (session_update_parent out h)).
Proof. done. Qed.
Lemma keeps_calm {A} (m : M A) : keeps calm m → keeps safe m.
Proof. intros Hm s. unfold safe. by rewrite (Hm s). Qed.

Create HintDb calm.
#[local] Hint Resolve keeps_ret keeps_fail keeps_raise keeps_self keeps_world keeps_try_error
  calm_modify calm_note calm_update_parent : calm.
#[local] Hint Extern 0 (PreOrder _) => typeclasses eauto : calm.
#[local] Hint Extern 1 (keeps ?R (_ ≫= _)) => (apply (keeps_bind R); [|intros ?]) : calm.
#[local] Hint Extern 1 (keeps ?R (attempt _)) => apply (keeps_attempt R) : calm.
#[local] Hint Extern 1 (keeps ?R (for_each _ _)) => (apply (keeps_for_each R); intros ?) : calm.
#[local] Hint Extern 1 (keeps _ (ext _)) => apply calm_on_rest : calm.
#[local] Hint Extern 1 (keeps _ (ext (if ?b then _ else _))) => destruct b : calm.
#[local] Hint Extern 1 (keeps _ (append _)) => unfold append : calm.
#[local] Hint Extern 2 (keeps _ (match ?x with _ => _ end)) => destruct x : calm.
#[local] Hint Extern 3 (keeps safe _) => apply keeps_calm : calm.
Ltac calmly := solve [eauto 80 with calm].

Lemma calm_active_until d : keeps calm (active_until d : M unit).
Proof. unfold active_until. calmly. Qed.
#[local] Hint Resolve calm_active_until : calm.
Lemma calm_check_context : keeps calm (check_context : M unit).
Proof. unfold check_context. calmly. Qed.
#[local] Hint Resolve calm_check_context : calm.
Lemma bounded_keeps R `{!PreOrder R} {A} (m : M A) :
  subrelation calm R → keeps R m → keeps R (bounded m).
Proof.
  intros HR Hm. unfold bounded. apply (keeps_bind R); [|done].
  intros s. apply HR, calm_check_context.
Qed.
Lemma calm_bounded {A} (m : M A) : keeps calm m → keeps calm (bounded m).
Proof. intros Hm. apply (bounded_keeps calm); [by intros ??|done]. Qed.
#[local] Hint Resolve calm_bounded : calm.
Lemma calm_current : keeps calm (current : M _).
Proof. unfold current. calmly. Qed.
Lemma calm_observe o : keeps calm (observe o : M unit).
Proof. unfold observe. calmly. Qed.
#[local] Hint Resolve calm_current calm_observe : calm.
Lemma calm_emit ev : keeps calm (emit ev : M unit).
Proof. unfold emit. calmly. Qed.
Lemma calm_publish : keeps calm (publish_committed : M unit).
Proof. unfold publish_committed. calmly. Qed.
Lemma calm_check_budget : keeps calm (check_budget : M unit).
Proof. unfold check_budget. calmly. Qed.
Lemma calm_charge : keeps calm (charge_child_usage : M unit).
Proof. unfold charge_child_usage. calmly. Qed.
Lemma calm_account u c : keeps calm (account_usage u c : M unit).
Proof. unfold account_usage. calmly. Qed.
Lemma calm_lift_panic {A} (o : option A) : keeps calm (lift_panic o : M A).
Proof. unfold lift_panic. calmly. Qed.
Lemma calm_journal e : keeps calm (journal_markers e : M _).
Proof. unfold journal_markers. calmly. Qed.
Lemma calm_check_arguments d c : keeps calm (check_arguments d c : M unit).
Proof. unfold check_arguments, valid_arguments. calmly. Qed.
Lemma calm_validate t : keeps calm (validate_output t : M Value).
Proof. unfold validate_output. calmly. Qed.
Lemma calm_abandon {A} f : keeps calm (abandon f : M A).
Proof. unfold abandon, child_model_failure. calmly. Qed.
#[local] Hint Resolve calm_emit calm_publish calm_check_budget calm_charge calm_account
  calm_lift_panic calm_journal calm_check_arguments calm_validate calm_abandon : calm.
Lemma calm_record r m : keeps calm (record_response r m : M unit).
Proof. unfold record_response. calmly. Qed.
Lemma calm_compact : keeps calm (compact : M unit).
Proof. unfold compact. calmly. Qed.
Lemma calm_compact_local r f : keeps calm (compact_local r f : M _).
Proof. unfold compact_local. calmly. Qed.
Lemma calm_messages b : keeps calm (apply_child_messages b : M bool).
Proof. unfold apply_child_messages. calmly. Qed.
Lemma calm_collect : keeps calm (collect_session : M unit).
Proof. unfold collect_session. calmly. Qed.
Lemma calm_join : keeps calm (join_session : M bool).
Proof. unfold join_session. calmly. Qed.
Lemma calm_gate v : keeps calm (run_stop_gate v : M bool).
Proof. unfold run_stop_gate. calmly. Qed.
#[local] Hint Resolve calm_record calm_compact calm_compact_local calm_messages calm_collect
  calm_join calm_gate : calm.
Lemma calm_finish_candidate v : keeps calm (finish_candidate v : M unit).
Proof. unfold finish_candidate. calmly. Qed.
Lemma calm_partial b acc : keeps calm (keep_partial b acc : M unit).
Proof. unfold keep_partial. calmly. Qed.
Lemma calm_accept b n r : keeps calm (accept_response b n r : M _).
Proof. unfold accept_response. calmly. Qed.
Lemma calm_back_off b r n f : keeps calm (back_off b r n f : M _).
Proof. unfold back_off. calmly. Qed.
Lemma calm_queue prior ids l : keeps calm (queue_calls prior ids l : M unit).
Proof. revert ids. induction l as [|i l IH]; intros ids; simpl; calmly. Qed.
Lemma calm_answer c t o r : keeps calm (tool_answer c t o r : M _).
Proof. unfold tool_answer. calmly. Qed.
Lemma calm_settle : keeps calm (settle_tool_turn : M unit).
Proof. unfold settle_tool_turn. calmly. Qed.
Lemma calm_ask c : keeps calm (ask c : M _).
Proof. unfold ask. calmly. Qed.
#[local] Hint Resolve calm_finish_candidate calm_partial calm_accept calm_back_off calm_queue
  calm_answer calm_settle calm_ask : calm.
Lemma calm_deny c : keeps calm (deny_call c : M unit).
Proof. unfold deny_call. calmly. Qed.
Lemma calm_prepare_tools : keeps calm (prepare_tools : M unit).
Proof. unfold prepare_tools. calmly. Qed.
#[local] Hint Resolve calm_deny calm_prepare_tools : calm.
Lemma calm_pull (st : ModelStream Value X) acc : keeps calm (pull (lift_stream st) acc : M _).
Proof.
  revert acc. induction st as [next IH] using stream_ind'. intros acc s. cbn [lift_stream pull].
  pose proof (calm_check_context s) as Hc. destruct (check_context s) as [[[]|f] s1]; [|done].
  simpl in Hc. destruct (next (rest (world s1))) as [[[[ev st]|]|f] x] eqn:Hn; [|done..].
  case_bool_decide; [done|]. set (s2 := mkSt (engine s1) _ (trace s1)).
  pose proof (calm_emit (ModelEmitted ev) s2) as He.
  destruct (emit (ModelEmitted ev) s2) as [[[]|f] s3]; simpl in He.
  - etrans; [exact Hc|]. etrans; [exact He|]. by eapply IH.
  - etrans; [exact Hc|done].
Qed.
#[local] Hint Resolve calm_pull : calm.

(** ** [persist_boundary] *)

Notation D := (SE World Failure).
Definition quiet {A} (m : D A) : Prop := ∀ w, events (m w).2 = events w.
Lemma quiet_bind {A B} (m : D A) (f : A → D B) : quiet m → (∀ a, quiet (f a)) → quiet (m ≫= f).
Proof.
  intros Hm Hf w. specialize (Hm w). unfold mbind, SE_bind. destruct (m w) as [[a|] w1]; [|done].
  by rewrite (Hf a w1).
Qed.
Lemma quiet_ret {A} (a : A) : quiet (mret a).
Proof. done. Qed.
Lemma quiet_update f : quiet (update f).
Proof. done. Qed.
Lemma quiet_state : quiet state.
Proof. done. Qed.
Lemma quiet_utc : quiet (utc dout).
Proof. done. Qed.
Lemma quiet_fresh : quiet (fresh dout).
Proof. intros w. unfold fresh. by destruct (fresh_id dout (rest w)). Qed.
Lemma quiet_try {A} (r : result Error A) : quiet (try_durable r).
Proof. by destruct r. Qed.
Lemma quiet_rest {A} (op : X → result Failure A * X) : quiet (on_rest op).
Proof. intros w. unfold on_rest. by destruct (op (rest w)). Qed.
Lemma quiet_active : quiet (still_active until).
Proof. done. Qed.
Lemma quiet_deliveries : quiet (pending_deliveries dout).
Proof. done. Qed.
#[local] Hint Resolve quiet_ret quiet_update quiet_state quiet_utc quiet_fresh quiet_try quiet_rest
  quiet_active quiet_deliveries : calm.
#[local] Hint Extern 1 (quiet (_ ≫= _)) => (apply quiet_bind; [|intros ?]) : calm.
#[local] Hint Extern 2 (quiet (match ?x with _ => _ end)) => destruct x : calm.
Lemma quiet_children : quiet (take_children dout until).
Proof. unfold take_children, bounded_op. calmly. Qed.
Lemma quiet_prepare b : quiet (prepare_effect dout b).
Proof. unfold prepare_effect. calmly. Qed.
Lemma quiet_dispatch b : quiet (dispatch_effect dout b).
Proof. unfold dispatch_effect. calmly. Qed.
Lemma quiet_complete b p : quiet (complete_effect dout b p).
Proof. unfold complete_effect. calmly. Qed.
#[local] Hint Resolve quiet_children quiet_prepare quiet_dispatch quiet_complete : calm.
Lemma quiet_take e b p ids : quiet (take_checkpoint dout limit e b p ids).
Proof. unfold take_checkpoint. calmly. Qed.

Lemma transition_state (e e' : Effect Value) next now :
  transition_effect e next now = Ok e' → effect_state e' = next.
Proof. unfold transition_effect. destruct (negb _); [done|]. by intros [= <-]. Qed.
Lemma dispatch_effect_Ok b w w' :
  dispatch_effect dout b w = (Ok tt, w') → dispatches b = true →
  ∃ e, ds_effect (dstate w') = Some e ∧ effect_state e = Dispatched.
Proof.
  unfold dispatch_effect. intros Hd Hb. rewrite Hb in Hd. revert Hd.
  unfold mbind, SE_bind, state, utc, try_durable, update, mret, SE_ret. simpl.
  destruct (ds_effect _) as [e0|]; simpl; [|done].
  destruct (transition_effect _ _ _) as [e1|] eqn:Ht; simpl; [|done].
  apply transition_state in Ht. intros Hd. exists e1. split; [|done]. revert Hd.
  case_bool_decide; [|by intros [= <-]].
  by destruct (ok_or _ _); intros [= <-].
Qed.
Lemma take_checkpoint_dispatched e b p ids w ck w' :
  take_checkpoint dout limit e b p ids w = (Ok ck, w') → dispatches b = true → dispatched ck.
Proof.
  unfold take_checkpoint. intros Ht Hb. inv_se.
  match goal with H : dispatch_effect _ _ _ = _ |- _ => apply dispatch_effect_Ok in H as (e1 & He & Hs);
    [|done] end.
  match goal with H : complete_effect _ _ _ ?w1 = (_, ?w2) |- _ =>
    assert (dstate w2 = dstate w1) as Hw end.
  { unfold complete_effect, state in *. inv_se. simplify_eq/=.
    destruct (ds_effect _); [|by inv_se]. destruct (completes b) eqn:Hc; [|by inv_se].
    by destruct b. }
  unfold state, utc, try_durable in *. inv_se. simplify_eq/=. exists e1. split; [|done]. simpl.
  repeat case_match; simplify_eq/=; congruence.
Qed.

(** What a persist adds to the record: writes only, and an acknowledged
    dispatch leaves it armed. *)
Definition writes {A} (m : D A) : Prop :=
  ∀ w, ∃ evs, events (m w).2 = events w ++ evs ∧ Forall (λ ev, written ev = true) evs.
Lemma writes_quiet {A} (m : D A) : quiet m → writes m.
Proof. intros Hm w. exists []. by rewrite app_nil_r, Hm. Qed.
Lemma writes_bind {A B} (m : D A) (f : A → D B) :
  writes m → (∀ a, writes (f a)) → writes (m ≫= f).
Proof.
  intros Hm Hf w. specialize (Hm w). unfold mbind, SE_bind. destruct (m w) as [[a|] w1]; [|done].
  simpl in Hm. destruct Hm as (evs & He & Hw). destruct (Hf a w1) as (evs' & He' & Hw').
  exists (evs ++ evs'). rewrite He', He, app_assoc. split; [done|by apply Forall_app].
Qed.
Lemma writes_write ck : writes (write dout ck).
Proof.
  intros w. unfold write, on_rest, record. destruct (store_persist dout ck (rest w)) as [[[]|f] x].
  - exists [Committed ck]. by repeat constructor.
  - exists [Doubtful ck]. by repeat constructor.
Qed.
#[local] Hint Resolve writes_write : calm.
#[local] Hint Extern 1 (writes (_ ≫= _)) => (apply writes_bind; [|intros ?]) : calm.
#[local] Hint Extern 2 (writes _) => (apply writes_quiet; calmly) : calm.
#[local] Hint Resolve quiet_take : calm.
Lemma persist_writes e b p : writes (persist_boundary dout until limit e b p).
Proof. unfold persist_boundary, persist. calmly. Qed.
Lemma write_Ok ck w w' : write dout ck w = (Ok tt, w') → events w' = events w ++ [Committed ck].
Proof.
  unfold write, on_rest, record. destruct (store_persist dout ck (rest w)) as [[[]|f] x]; [|done].
  by intros [= <-].
Qed.
Lemma persist_armed e b p w w' :
  persist_boundary dout until limit e b p w = (Ok tt, w') → dispatches b = true →
  armed (events w').
Proof.
  unfold persist_boundary, persist. intros Hp Hb.
  apply SE_bind_Ok in Hp as ([] & w1 & _ & Hp). apply SE_bind_Ok in Hp as (ids & w2 & _ & Hp).
  apply SE_bind_Ok in Hp as ([] & w3 & _ & Hp). apply SE_bind_Ok in Hp as (ck & w4 & Hck & Hp).
  apply SE_bind_Ok in Hp as ([] & w5 & Hw & Hp). apply SE_bind_Ok in Hw as ([] & w6 & _ & Hw).
  apply SE_bind_Ok in Hp as ([] & w7 & Hu & Hp).
  assert (events w' = events w6 ++ [Committed ck]) as ->.
  { rewrite <-(write_Ok _ _ _ Hw). transitivity (events w7).
    - match type of Hp with ?m w7 = _ => assert (quiet m) as Hq by calmly end.
      specialize (Hq w7). by rewrite Hp in Hq.
    - by injection Hu as <-. }
  exists ck. split; [|by eapply take_checkpoint_dispatched].
  rewrite List.filter_app. apply last_snoc.
Qed.

(** ** Safe operations *)

Definition holds s : Prop := safe_events (events (world s)).
Definition ready s : Prop := holds s ∧ armed (events (world s)).
Definition steady : relation St := λ s s', ready s → ready s'.
#[local] Instance steady_preorder : PreOrder steady.
Proof. split; [by intros s|]. intros s1 s2 s3 H12 H23 Hs. by apply H23, H12. Qed.
Lemma calm_steady {A} (m : M A) : keeps calm m → keeps steady m.
Proof. intros Hm s. unfold steady, ready, holds. by rewrite (Hm s). Qed.
#[local] Hint Extern 3 (keeps steady _) => apply calm_steady : calm.

Lemma safe_writes evs evs' :
  safe_events evs → Forall (λ ev, written ev = true) evs' → safe_events (evs ++ evs').
Proof.
  intros Hs Hw. revert evs Hs. induction Hw as [|ev evs' Hev _ IH]; intros evs Hs.
  { by rewrite app_nil_r. }
  rewrite cons_middle, app_assoc. apply IH. apply safe_snoc; [done|]. by rewrite Hev.
Qed.
Lemma ext_persist_safe e b p : keeps safe (ext (Runner.persist_boundary out e b p)).
Proof.
  intros s Hs. destruct (persist_writes e b p (world s)) as (evs & He & Hw). unfold ext.
  change (Runner.persist_boundary out e b p (world s))
    with (persist_boundary dout until limit e b p (world s)).
  destruct (persist_boundary _ _ _ _ _ _ _) as [r w]. simpl in *. rewrite He.
  by apply safe_writes.
Qed.
#[local] Hint Resolve ext_persist_safe : calm.
Lemma checkpoint_safe b p : keeps safe (checkpoint b p : M unit).
Proof. unfold checkpoint. calmly. Qed.
#[local] Hint Resolve checkpoint_safe : calm.

(** A computation that may dispatch when the record is armed. *)
Definition from_ready {A} (m : M A) : Prop := ∀ s, ready s → holds (m s).2.
Lemma from_ready_safe {A} (m : M A) : keeps safe m → from_ready m.
Proof. intros Hm s [Hs _]. by apply (Hm s). Qed.
Lemma from_ready_bind {A B} (m : M A) (f : A → M B) :
  keeps steady m → (∀ a, from_ready (f a)) → from_ready (m ≫= f).
Proof.
  intros Hm Hf s Hs. specialize (Hm s Hs). unfold mbind, SE_bind.
  destruct (m s) as [[a|] s1]; [by apply Hf|by destruct Hm].
Qed.
Lemma dispatch_then {A} b p (m : M A) :
  dispatches b = true → from_ready m → keeps safe (_ ← checkpoint b p; m).
Proof.
  intros Hb Hm s Hs. unfold mbind, SE_bind.
  pose proof (checkpoint_safe b p s Hs) as Hc.
  destruct (checkpoint b p s) as [[[]|] s1] eqn:He; [|done]. apply Hm. split; [done|].
  revert He. unfold checkpoint. simpl negb. cbn [andb]. intros He.
  apply SE_bind_Ok in He as (e & s2 & _ & He). apply SE_bind_Ok in He as ([] & s3 & Hp & He).
  apply SE_bind_Ok in He as ([] & s4 & Hd & He).
  assert (armed (events (world s3))) as Ha.
  { cbn in Hp. unfold ext in Hp.
    destruct (persist_boundary dout until limit e b p (world s2)) as [r w] eqn:Hpb.
    injection Hp as -> <-. by eapply persist_armed. }
  assert (calm s3 s1) as Hcalm; [|by rewrite Hcalm].
  etrans; [exact (f_equal (events ∘ world ∘ snd) (eq_sym Hd))|].
  match type of He with ?m s4 = _ => assert (keeps calm m) as Hk by calmly end.
  specialize (Hk s4). by rewrite He in Hk.
Qed.

(** *** Dispatches *)

Lemma recorded_steady {A} ev (op : X → result Failure A * X) :
  written ev = false → keeps steady (ext (recorded ev op)).
Proof.
  intros Hev s [Hs Ha]. unfold ext, recorded, record, on_rest, mbind, SE_bind. simpl.
  destruct (op (rest (world s))) as [r x]. unfold ready, holds. simpl. split.
  - by apply safe_snoc.
  - by apply armed_snoc.
Qed.
Lemma execute_steady t c call : keeps steady (ext (execute out t c call)).
Proof. by apply recorded_steady. Qed.
Lemma complete_steady b r : keeps steady (ext (complete out b r)).
Proof. by apply recorded_steady. Qed.
#[local] Hint Resolve execute_steady complete_steady : calm.
Lemma bounded_steady {A} (m : M A) : keeps steady m → keeps steady (bounded m).
Proof.
  intros Hm. apply (bounded_keeps steady); [|done]. intros s s' Hc. unfold steady, ready, holds.
  by rewrite Hc.
Qed.
#[local] Hint Resolve bounded_steady : calm.
Lemma execute_tool_steady t c : keeps steady (execute_tool t c : M _).
Proof. unfold execute_tool. calmly. Qed.

(** What a model streams does not write or dispatch. *)
Lemma ext_stream b r s :
  ready s →
  wp (ext (stream out b r)) (λ st s', ready s' ∧ ∃ st0, st = lift_stream st0) ready s.
Proof.
  intros [Hs Ha].
  assert (safe_events (events (world s) ++ [Requested (binding_name b)])) as Hsafe
    by (by apply safe_snoc).
  assert (armed (events (world s) ++ [Requested (binding_name b)])) as Harmed by (by apply armed_snoc).
  unfold wp, ext. change (stream out b r (world s)) with (open_stream (base := base) b r (world s)).
  unfold open_stream, recorded, record, on_rest, mbind, SE_bind. cbn [rest dstate events].
  match goal with |- context [Runner.stream ?o b r ?x] => destruct (Runner.stream o b r x) as [[st|f] y] end.
  - split; [by split|by exists st].
  - by split.
Qed.
Lemma model_attempt_steady b r : keeps steady (model_attempt b r : M _).
Proof.
  unfold model_attempt. apply (keeps_bind steady); [calmly|]. intros e.
  apply (keeps_bind steady); [calmly|]. intros _. case_match; [|calmly].
  intros s Hs.
  assert (wp (attempt (bounded (ext (stream out b r))))
    (λ o s', ready s' ∧ ∀ st, o = Ok st → ∃ st0, st = lift_stream st0) ready s) as Hw.
  { apply wp_attempt. unfold bounded. apply wp_bind.
    pose proof (calm_steady _ calm_check_context s Hs) as Hc. unfold wp.
    destruct (check_context s) as [[[]|f] s1]; [|by intros f'; split]. simpl in Hc.
    pose proof (ext_stream b r s1 Hc) as Hx. unfold wp in Hx.
    destruct (ext _ s1) as [[st|f] s2].
    - destruct Hx as [Hr [st0 ->]]. split; [done|]. intros st [= <-]. by exists st0.
    - by intros f'. }
  unfold mbind, SE_bind. unfold wp in Hw.
  destruct (attempt _ s) as [[[st|f]|f] s1]; [|by destruct Hw|done].
  destruct Hw as [Hr Hst]. destruct (Hst st eq_refl) as [st0 ->].
  pose proof (calm_steady _ (calm_pull st0 (mkStreamed None [] "" false)) s1 Hr) as Hp.
  destruct (pull _ _ s1) as [[[[response|f] acc]|f] s2]; try done.
  assert (keeps steady (keep_partial b acc)) as Hk by calmly. specialize (Hk s2 Hp).
  by destruct (keep_partial b acc s2) as [[]].
Qed.
#[local] Hint Resolve execute_tool_steady model_attempt_steady : calm.

(** *** The engine *)

(** Step to the next dispatch, leaving what follows it. *)
Ltac walk :=
  repeat lazymatch goal with
  | |- keeps safe (checkpoint ModelDispatched _ ≫= _) => apply dispatch_then; [done|]
  | |- keeps safe (checkpoint ToolDispatched _ ≫= _) => apply dispatch_then; [done|]
  | |- keeps safe (_ ≫= _) => apply (keeps_bind safe); [calmly|intros ?]
  | |- keeps safe (match ?x with _ => _ end) => destruct x
  | |- keeps safe _ => calmly
  end.

Lemma recover_safe b i nx r n f c : keeps safe (recover b i nx r n f c : M _).
Proof. unfold recover. calmly. Qed.
#[local] Hint Resolve recover_safe : calm.
Lemma attempt_model_safe b i nx r n : keeps safe (attempt_model b i nx r n : M _).
Proof.
  unfold attempt_model. walk.
  apply from_ready_bind; [calmly|]. intros [|]; [apply from_ready_safe; calmly|].
  apply from_ready_bind; [calmly|]. intros [response|[f c]]; apply from_ready_safe; calmly.
Qed.
#[local] Hint Resolve attempt_model_safe : calm.
Lemma model_loop_safe fuel l i r n : keeps safe (model_loop fuel l i r n : M _).
Proof. revert l i r n. induction fuel; intros l i r n; destruct l; simpl; calmly. Qed.
#[local] Hint Resolve model_loop_safe : calm.
Lemma model_response_safe r : keeps safe (model_response r : M _).
Proof. unfold model_response. calmly. Qed.
#[local] Hint Resolve model_response_safe : calm.
Lemma after_response_safe r : keeps safe (after_response r : M unit).
Proof. unfold after_response. calmly. Qed.
#[local] Hint Resolve after_response_safe : calm.
Lemma model_turn_safe : keeps safe (model_turn : M unit).
Proof. unfold model_turn. calmly. Qed.
Lemma finish_tool_safe c x : keeps safe (finish_tool c x : M unit).
Proof. unfold finish_tool. calmly. Qed.
Lemma approve_call_safe c : keeps safe (approve_call c : M _).
Proof. unfold approve_call. calmly. Qed.
Lemma hand_off_safe c h : keeps safe (hand_off c h : M unit).
Proof. unfold hand_off. calmly. Qed.
#[local] Hint Resolve model_turn_safe finish_tool_safe approve_call_safe hand_off_safe : calm.
Lemma tool_safe c : keeps safe (tool c : M bool).
Proof.
  unfold tool. walk.
  apply from_ready_bind; [calmly|]. intros x. apply from_ready_safe. calmly.
Qed.
Lemma stop_after_tool_safe : keeps safe (stop_after_tool : M unit).
Proof. unfold stop_after_tool. calmly. Qed.
#[local] Hint Resolve tool_safe stop_after_tool_safe : calm.
(** A durable run has no parallel batches. *)
Lemma no_batch e : parallel_batch_ready e = false.
Proof. done. Qed.
Lemma tool_phase_safe : keeps safe (tool_phase : M _).
Proof.
  unfold tool_phase. apply (keeps_bind safe); [calmly|]. intros e.
  apply (keeps_bind safe); [calmly|]. intros _. apply (keeps_bind safe); [calmly|]. intros e'.
  rewrite no_batch. calmly.
Qed.
#[local] Hint Resolve tool_phase_safe : calm.
Lemma advance_step_safe : keeps safe (advance_step : M _).
Proof. unfold advance_step. calmly. Qed.
Lemma conclude_safe st : keeps safe (conclude st : M _).
Proof. unfold conclude. calmly. Qed.

Lemma advance_safe fuel s r s' : holds s → advance fuel s = Some (r, s') → holds s'.
Proof.
  revert s. induction fuel as [|fuel IH]; intros s Hs; [done|]. simpl.
  pose proof (advance_step_safe s Hs) as Hs'.
  destruct (advance_step s) as [[[st|]|f] s1]; [|by apply IH|]; by intros [= <- <-].
Qed.
Lemma fail_run_safe f s : holds s → holds (fail_run f s).2.
Proof.
  intros Hs. unfold fail_run, modify. set (s1 := mkSt _ (world s) (trace s)).
  pose proof (keeps_calm _ (calm_emit (Failed (info f))) s1 Hs) as He.
  by destruct (emit _ s1).
Qed.
Lemma drive_safe fuel s o s' : holds s → drive fuel s = Some (o, s') → holds s'.
Proof.
  intros Hs. unfold drive. destruct (advance fuel s) as [[r s1]|] eqn:Ha; [|done].
  apply (advance_safe _ _ _ _ Hs) in Ha. intros [= Heq].
  assert (holds (settle_run r s1).2) as Hr; [|by rewrite Heq in Hr].
  unfold settle_run. destruct r as [st|f]; [|by apply fail_run_safe].
  pose proof (conclude_safe st s1 Ha) as Hc.
  destruct (conclude st s1) as [[[]|f] s2]; try exact Hc. by apply fail_run_safe.
Qed.
End safety.

(** ** Crashes *)

Section settled.
Context {Value X : Type} `{EqDecision Value} {J : JsonValue Value} {base : Setup Value X}.
Lemma recover_settled visited e st now instant ck o :
  recover_checkpoint visited e st now instant ck = Ok o → in_flight (ck_effect ck) = false.
Proof.
  unfold recover_checkpoint. intros Hr.
  apply bind_Ok in Hr as (? & _ & Hr). apply bind_Ok in Hr as ([saved p] & _ & Hr).
  apply bind_Ok in Hr as (? & _ & Hr). apply bind_Ok in Hr as (? & Hc & _).
  unfold check_settled in Hc. apply bind_Ok in Hc as (? & Hc & _).
  by apply ensure_Ok, negb_true_iff in Hc.
Qed.
End settled.

Section crashes.
Context {Value X : Type} `{EqDecision Value} {J : JsonValue Value}.
Context {base : Setup Value X} (dout : DurableOutside (Value := Value) (X := X)).
Notation Event := (Event (Value := Value)).

Lemma quiet_enter o ck : quiet (enter (Value := Value) dout o ck).
Proof.
  unfold enter. apply quiet_bind.
  - case_match; [|done]. case_match; [|done].
    apply quiet_bind; [apply quiet_try|]. intros children. apply quiet_bind; [done|]. intros []. apply quiet_rest.
  - intros []. case_match; [apply quiet_rest|done].
Qed.
Lemma drive_opened_safe fuel o w out w' :
  safe_events (events w) → drive_opened dout fuel o w = Some (out, w') → safe_events (events w').
Proof.
  unfold drive_opened. intros Hw. destruct (drive _ _) as [[r s]|] eqn:Hd; [|done]. intros [= _ <-].
  by apply (drive_safe dout (opened_deadline o) (opened_limit o)) in Hd.
Qed.
Lemma drive_durable_safe visits fuel initial request sender run x out w :
  drive_durable dout visits fuel initial request sender run x = Some (out, Some w) →
  safe_events (events w).
Proof.
  unfold drive_durable. destruct (run_allowed _ _) as [[]|]; [|done].
  destruct (visit_agents _ _ _) as [visited|]; [|done].
  destruct (durable_fingerprint _ _) as [fp|]; [|done].
  assert (safe_events (events (open_run dout visited initial request sender run fp x).2)) as Ho.
  { unfold open_run. destruct (fresh_id dout x). intros pre ev post Heq.
    by repeat case_match; destruct pre. }
  destruct (open_run _ _ _ _ _ _ _ _) as [[o|e] w1]; [|by intros [= _ <-]]. simpl in Ho.
  destruct (run_resume run) as [ck|].
  - unfold enter_opened. pose proof (quiet_enter o ck w1) as Hq.
    destruct (enter dout o ck w1) as [[[]|f] w2]; simpl in Hq.
    + destruct (entrance o).
      * destruct (drive_opened dout fuel o w2) as [[r w3]|] eqn:Hd; [|done]. intros [= _ <-].
        eapply drive_opened_safe, Hd. by rewrite Hq.
      * intros [= _ <-]. by rewrite Hq.
      * case_bool_decide; intros [= _ <-]; by rewrite Hq.
    + intros [= _ <-]. by rewrite Hq.
  - destruct (drive_opened dout fuel o w1) as [[r w3]|] eqn:Hd; [|done]. intros [= _ <-].
    by eapply drive_opened_safe.
Qed.
(** C3: Nothing is replayed after a crash.  Wherever a durable run stops, and whichever
    checkpoint the store then holds (the last it acknowledged, or one whose write was left in
    doubt after it), if a later run is allowed to recover from that checkpoint, then no model
    was called and no tool was run since it was written. *)
Theorem recovery_never_replays visits fuel initial request sender run x out w before ev ck after
    lost (base' : Setup Value X) visited e st now instant o :
  drive_durable (base := base) dout visits fuel initial request sender run x = Some (out, Some w) →
  events w = before ++ ev :: after ++ lost →
  ev = Committed ck ∨ ev = Doubtful ck →
  (∀ c, Committed c ∉ after) →
  recover_checkpoint (base := base') visited e st now instant ck = Ok o →
  Forall (λ ev, written ev = true) after.
Proof.
  intros Hd Hevs Hck Hafter Hr%recover_settled. apply drive_durable_safe in Hd.
  apply Forall_forall. intros x' Hx'. apply not_false_iff_true. intros Hw.
  apply list_elem_of_split in Hx' as (a1 & a2 & ->).
  destruct (Hd (before ++ ev :: a1) x' (a2 ++ lost)) as (ck' & Hlast & (eff & He & Hs)); [|done|].
  { rewrite Hevs. by simplify_list_eq. }
  rewrite List.filter_app in Hlast. cbn [List.filter] in Hlast.
  assert (written ev = true) as Hev by (by destruct Hck as [-> | ->]). rewrite Hev in Hlast.
  destruct (decide (List.filter written a1 = [])) as [Hnil|Hne].
  - rewrite Hnil, last_snoc in Hlast. injection Hlast as ->.
    destruct Hck as [[= ->]|]; [|done]. revert Hr. unfold in_flight. rewrite He. simpl.
    by rewrite Hs.
  - apply (Hafter ck'). apply elem_of_app. left.
    destruct (exists_last Hne) as (l & y & Hl). rewrite Hl, app_comm_cons, app_assoc, last_snoc in Hlast.
    injection Hlast as ->. assert (Committed ck' ∈ List.filter written a1) as Hin
      by (rewrite Hl; apply elem_of_app; right; by left).
    apply list_elem_of_In, filter_In in Hin as [Hin _]. by apply list_elem_of_In.
Qed.
End crashes.

(** ** What a recovery gives back *)

Section round_trip.
Context {Value X : Type} `{EqDecision Value} {J : JsonValue Value}.
Context {base : Setup Value X} (dout : DurableOutside (Value := Value) (X := X)).
Context (until : option N) (limit : N).
Notation World := (World (Value := Value) (X := X)).
Notation Engine := (Engine Value).
Implicit Types (e : Engine) (w : World).

(** The engine that goes on from a checkpoint of [e].  What is not persisted starts afresh: the
    reasons of denials, the deferred calls, the marker events that wait, whether the tools were
    prepared, the calibration of the estimates, the state of the fallbacks, the spilled outputs; what
    was already in the session is not written again. *)
Definition reopened e (b : Boundary) (decided : gmap string ApprovalDecision) (streaming sender : bool) : Engine :=
  mkEngine (agent e) (policy e) (if bool_decide (b = BStarted) then ModelPhase else phase e) (calls e) decided
    ∅ [] [] (approval_journal e) false (tool_turn_start e) (consecutive_tool_errors e) (tool_error_escalated e)
    (stop_gate_blocks e) (engine_turns e) (length (new_items (run_result e)))
    (length (entries (approval_journal e))) default_calibration ∅ (engine_cost e) (tool_pause e)
    (tool_final e) streaming sender [] (applied_child_messages e) (run_result e).
(** The last word of the journal on a call. *)
Definition ruling (c : ToolCall Value) (l : list (ApprovalJournalEntry Value)) (d : option ApprovalDecision) : Prop :=
  (d = None ∧ ∀ x, x ∈ l → approval_call (marker_data (entry_marker x)) ≠ Ok c)
  ∨ ∃ before x after, l = before ++ x :: after ∧ approval_call (marker_data (entry_marker x)) = Ok c
      ∧ (∀ y, y ∈ after → approval_call (marker_data (entry_marker y)) ≠ Ok c)
      ∧ d = match marker_phase (entry_marker x) with
            | PhaseApproved => Some Approve
            | PhaseDenied => Some DenyCall
            | PhasePending => None
            end.

(** The engine is at rest in a state the checks of a recovery allow. *)
Record recoverable e : Prop := {
  rec_agent : last_agent (run_result e) = Some (agent_name (agents (agent e)));
  rec_pairs : ∃ pending, scan_history ∅ ∅ (history (run_result e)) = Ok pending
    ∧ size pending = length (calls e)
    ∧ (∀ c, c ∈ calls e → pending !! call_id c = Some c)
    ∧ (phase e ≠ Tools → pending = ∅);
  rec_cost : is_finite (engine_cost e) = true ∧ f64_ltb (engine_cost e) f64_zero = false;
  rec_journal : restore_journal (entries (approval_journal e)) (length (history (run_result e)))
    (length (new_items (run_result e))) = Ok (mkJournal (entries (approval_journal e)) false);
  rec_calls : ∀ x, x ∈ entries (approval_journal e) →
    is_ok (approval_call (marker_data (entry_marker x))) = true;
}.

Lemma take_checkpoint_Ok e b p ids w ck w' :
  take_checkpoint dout limit e b p ids w = (Ok ck, w') →
  ∃ wire u seq now, ck = checkpoint_of limit e b (dstate w') ids wire u seq now
    ∧ wire_history e = Ok wire ∧ seq ≠ 0%N.
Proof.
  unfold take_checkpoint. intros Ht.
  do 3 (apply SE_bind_Ok in Ht as ([] & ? & _ & Ht)).
  apply SE_bind_Ok in Ht as (wire & w1 & Hw & Ht). apply SE_bind_Ok in Ht as (st & w2 & Hst & Ht).
  apply SE_bind_Ok in Ht as (seq & w3 & Hs & Ht). apply SE_bind_Ok in Ht as (u & w4 & Hu & Ht).
  apply SE_bind_Ok in Ht as (now & w5 & Hn & [= <- <-]). injection Hn as <- <-.
  unfold state in Hst. injection Hst as <- <-. unfold try_durable in *.
  destruct (usage_data e) as [u0|]; [|done]. injection Hu as -> <-.
  destruct (wire_history e) as [wire0|]; [|done]. injection Hw as -> <-.
  destruct (checked_add (ds_sequence _) 1) as [n|] eqn:Hadd; [|done]. injection Hs as -> <-.
  eexists wire, u, seq, _. split_and!; [done..|]. unfold checked_add in Hadd.
  destruct (_ <=? _)%N; [|done]. injection Hadd as <-. lia.
Qed.
Lemma persist_Ok e b p w w' :
  persist_boundary dout until limit e b p w = (Ok tt, w') →
  ∃ ids wire u now,
    let ck := checkpoint_of limit e b (dstate w') ids wire u (ds_sequence (dstate w')) now in
    last (events w') = Some (Committed ck) ∧ wire_history e = Ok wire
    ∧ ds_sequence (dstate w') ≠ 0%N.
Proof.
  unfold persist_boundary, persist. intros Hp.
  apply SE_bind_Ok in Hp as ([] & w1 & _ & Hp). apply SE_bind_Ok in Hp as (ids & w2 & _ & Hp).
  apply SE_bind_Ok in Hp as ([] & w3 & _ & Hp). apply SE_bind_Ok in Hp as (ck & w4 & Hck & Hp).
  apply SE_bind_Ok in Hp as ([] & w5 & Hw & Hp). apply SE_bind_Ok in Hw as ([] & w6 & Ha & Hw).
  apply SE_bind_Ok in Hp as ([] & w7 & Hu & Hp).
  apply take_checkpoint_Ok in Hck as (wire & u & seq & now & -> & Hwire & Hseq).
  assert (w6 = w4) as ->.
  { unfold still_active, try_durable in Ha. by destruct (check_active _ _) in Ha; simplify_eq. }
  assert (dstate w5 = dstate w4) as Hd5.
  { revert Hw. unfold write, on_rest, record. destruct (store_persist _ _ _) as [[[]|] x]; [|done].
    by intros [= <-]. }
  apply write_Ok in Hw. injection Hu as <-.
  assert (events w' = events w5 ∧ dstate w' = set_ds_sequence seq (dstate w5)) as [He Hd].
  { destruct (subagents config); [|by injection Hp as <-].
    unfold on_rest in Hp. destruct (deliver dout ids _) as [[]]; [|done]. by injection Hp as _ <-. }
  exists ids, wire, u, now. rewrite He, Hw, Hd, Hd5, last_snoc. by split_and!.
Qed.

(** A later attempt at the same run, under the same configuration. *)
Record same_run e (request : RunRequest Value) (st st' : DurableState Value) : Prop := {
  same_input : run_input request = [];
  same_tools : tools (policy e) = tools (run_policy request);
  same_use : tool_use (policy e) = tool_use (run_policy request);
  same_limit : max_turns (run_policy request) = limit;
  same_turns : max_turns (policy e) = limit
    ∨ (stop_gate config || subagents config = true ∧ (limit <= max_turns (policy e))%N);
  same_gate : stop_gate_blocks e = 0%N
    ∨ (stop_gate config = true ∧ (stop_gate_blocks e <= stop_gate_max_blocks config)%N);
  same_fingerprint : ds_fingerprint st' = ds_fingerprint st;
  new_attempt : ds_attempt_id st' ≠ ds_attempt_id st;
}.

Lemma last_named (visited : list N) a :
  NoDup ((λ b, agent_name (agents b)) <$> visited) → a ∈ visited →
  last (List.filter (λ b, String.eqb (agent_name (agents b)) (agent_name (agents a))) visited) = Some a.
Proof.
  intros Hn Ha. apply list_elem_of_split in Ha as (l1 & l2 & ->).
  rewrite fmap_app, fmap_cons in Hn. apply NoDup_app in Hn as (_ & Hd & [Hn _]%NoDup_cons).
  assert (∀ l, (∀ b, b ∈ l → agent_name (agents b) ≠ agent_name (agents a)) →
    List.filter (λ b, String.eqb (agent_name (agents b)) (agent_name (agents a))) l = []) as Hf.
  { intros l Hl. induction l as [|b l IH]; [done|]. simpl.
    destruct (String.eqb_spec (agent_name (agents b)) (agent_name (agents a))) as [He|_].
    - by destruct (Hl b ltac:(by left)).
    - apply IH. intros c Hc. apply Hl. by right. }
  rewrite List.filter_app. simpl. rewrite String.eqb_refl, !Hf; [done|..].
  - intros b Hb He. apply Hn. rewrite <-He. apply list_elem_of_fmap. by exists b.
  - intros b Hb He. apply (Hd (agent_name (agents b))); [apply list_elem_of_fmap; by exists b|].
    rewrite He. by left.
Qed.
Lemma same_configuration_true e request st st' ids b :
  same_run e request st st' →
  same_configuration (runtime_of limit e b st ids) (policy e) (run_policy request)
    (ds_fingerprint st') = true.
Proof.
  intros [_ Ht Hu Hl Hm Hg Hf _]. unfold same_configuration, original_policy. simpl.
  rewrite <-Hf, String.eqb_refl, Ht, Hu, <-Hl. simpl.
  assert (mkRunPolicy (max_turns (run_policy request)) (tools (run_policy request))
    (tool_use (run_policy request)) = run_policy request) as -> by by destruct (run_policy request).
  rewrite bool_decide_true by done. simpl. rewrite orb_false_r. rewrite Hl.
  apply negb_true_iff. rewrite !orb_false_iff. split_and!.
  - destruct Hg as [->|[-> _]]; [by rewrite andb_false_r|done].
  - destruct Hm as [->|[Hb _]]; [by rewrite N.eqb_refl, andb_false_r|].
    by destruct (stop_gate config), (subagents config).
  - destruct Hm as [->|[_ Hle]]; apply N.ltb_ge; lia.
  - destruct Hg as [->|[_ Hle]]; apply N.ltb_ge; lia.
  - done.
Qed.

Lemma restore_approvals_Ok (cs : list (ToolCall Value)) l m :
  (∀ x, x ∈ l → is_ok (approval_call (marker_data (entry_marker x))) = true) →
  ∃ m', foldM (restore_approval cs) m l = Ok m'.
Proof.
  revert m. induction l as [|x l IH]; intros m Hl; simpl; [by eexists|].
  destruct (proj1 (is_ok_Ok _) (Hl x ltac:(by left))) as (c & Hc).
  assert (∃ m', restore_approval cs m x = Ok m') as (m' & ->)
    by (unfold restore_approval; rewrite Hc; simpl; case_bool_decide; by eexists).
  apply IH. intros y Hy. apply Hl. by right.
Qed.
Lemma queue_ids e c c' : recoverable e → c ∈ calls e → c' ∈ calls e → call_id c = call_id c' → c = c'.
Proof.
  intros [_ (pending & _ & _ & Hp & _) _ _ _] Hc Hc' Heq. apply Hp in Hc. apply Hp in Hc'.
  rewrite Heq in Hc. congruence.
Qed.
Lemma wire_history_valid e wire :
  wire_history e = Ok wire → history_invalidated (approval_journal e) = false.
Proof.
  unfold wire_history, history_markers. intros Hw.
  apply bind_Ok in Hw as (? & _ & Hw). apply bind_Ok in Hw as (? & Hm & _).
  by destruct (history_invalidated _).
Qed.
Lemma queue_matches_true e b st ids pending :
  size pending = length (calls e) → (∀ c, c ∈ calls e → pending !! call_id c = Some c) →
  (phase e ≠ Tools → pending = ∅) →
  queue_matches (runtime_of limit e b st ids) pending = true.
Proof.
  intros Hs Hc Hp. unfold queue_matches. simpl. rewrite Hs, Nat.eqb_refl. simpl.
  apply negb_true_iff, orb_false_iff. split.
  - apply not_true_iff_false. intros (c & Hin%list_elem_of_In & Hb)%existsb_exists.
    rewrite bool_decide_true in Hb by eauto. done.
  - case_bool_decide as Ht; [done|]. simpl. by rewrite bool_decide_true by eauto.
Qed.
Lemma boundary_resumable b : dispatches b = false → resumable_boundary (boundary_name b) = true.
Proof. by destruct b. Qed.

Lemma ruling_snoc c l x d :
  ruling c l d → approval_call (marker_data (entry_marker x)) ≠ Ok c → ruling c (l ++ [x]) d.
Proof.
  intros [[-> Hl]|(before & y & after & -> & Hy & Ha & ->)] Hx.
  - left. split; [done|]. intros y [Hy| ->%list_elem_of_singleton]%elem_of_app; [by apply Hl|done].
  - right. exists before, y, (after ++ [x]). rewrite <-app_assoc. split_and!; [done..| |done].
    intros z [Hz| ->%list_elem_of_singleton]%elem_of_app; [by apply Ha|done].
Qed.
Lemma restore_approvals_ruling (cs : list (ToolCall Value)) l m :
  (∀ c c', c ∈ cs → c' ∈ cs → call_id c = call_id c' → c = c') →
  foldM (restore_approval cs) ∅ l = Ok m →
  (∀ c, c ∈ cs → ruling c l (m !! call_id c)) ∧ (∀ id, is_Some (m !! id) → ∃ c, c ∈ cs ∧ call_id c = id).
Proof.
  intros Hinj. revert m. induction l as [|x l IH] using rev_ind; intros m Hm.
  { injection Hm as <-. split; [|intros id [? Hid]; by rewrite lookup_empty in Hid].
    intros c _. left. rewrite lookup_empty. split; [done|]. by intros x ?%elem_of_nil. }
  rewrite foldM_app in Hm. destruct (foldM _ ∅ l) as [m0|] eqn:Hm0; [|done].
  destruct (IH m0 eq_refl) as [Hrule Hdom]. cbn [foldM] in Hm.
  assert (restore_approval cs m0 x = Ok m) as Hx by by destruct (restore_approval cs m0 x). clear IH Hm0 Hm.
  unfold restore_approval in Hx. apply bind_Ok in Hx as (call & Hcall & Hx).
  assert (approval_call (marker_data (entry_marker x)) = Ok call) as Hc
    by (unfold bridge_invalid in Hcall; by destruct (approval_call _); simplify_eq).
  case_bool_decide as Hin; injection Hx as <-.
  - split.
    + intros c Hcs. destruct (decide (c = call)) as [->|Hne].
      * right. exists l, x, []. split_and!; [done|done|by intros y ?%elem_of_nil|].
        destruct (marker_phase _); by rewrite ?lookup_insert_eq, ?lookup_delete_eq.
      * assert (call_id call ≠ call_id c) as Hid by (intros Heq; apply Hne; symmetry; by apply Hinj).
        assert (ruling c (l ++ [x]) (m0 !! call_id c)) as Hr by (apply ruling_snoc; [by apply Hrule|congruence]).
        destruct (marker_phase _); by rewrite ?lookup_insert_ne, ?lookup_delete_ne by done.
    + intros id Hid. destruct (decide (id = call_id call)) as [->|Hne]; [by exists call|]. apply Hdom.
      destruct (marker_phase _); by rewrite ?lookup_insert_ne, ?lookup_delete_ne in Hid by done.
  - split; [|done]. intros c Hcs. apply ruling_snoc; [by apply Hrule|]. rewrite Hc. intros [= ->]. done.
Qed.
Lemma restored_reopened e b initial request streaming sender st ids m :
  history_invalidated (approval_journal e) = false →
  restored_engine (new_engine initial request streaming sender) (agent e) (runtime_of limit e b st ids) (policy e)
    (boundary_name b) (mkJournal (entries (approval_journal e)) false) m = reopened e b m streaming sender.
Proof.
  destruct e as [????????[es inv]]. simpl. intros ->. by destruct b.
Qed.

(** The checks of a recovery pass on what a durable run has just persisted. *)
Section accepted.
Context e (request : RunRequest Value) (st st' : DurableState Value) (b : Boundary).
Context (ids : list string) (wire : list (WireItem Value)) (u : UsageData) (now : time).
Let ck := checkpoint_of limit e b st ids wire u (ds_sequence st) now.
Lemma envelope_Ok initial streaming sender :
  same_run e request st st' → ds_children st = None →
  check_envelope (new_engine initial request streaming sender) st' ck = Ok tt.
Proof.
  intros [Hin _ _ _ _ _ _ Ha] Hch. unfold check_envelope. simpl. rewrite Hch, Hin. simpl.
  rewrite String.eqb_refl. by destruct (String.eqb_spec (ds_attempt_id st) (ds_attempt_id st')).
Qed.
Lemma configuration_Ok :
  same_run e request st st' → child = false →
  check_configuration (run_policy request) (ds_fingerprint st') (ck_runtime ck)
  = Ok (runtime_of limit e b st ids, policy e).
Proof.
  intros Hs Hc. unfold check_configuration, adopt_policy. simpl. rewrite Hc. simpl.
  by rewrite (same_configuration_true _ _ _ _ _ _ Hs).
Qed.
Lemma consistency_Ok :
  recoverable e → ds_sequence st ≠ 0%N → ds_step_id st ≠ "" →
  check_consistency ck (runtime_of limit e b st ids) = Ok tt.
Proof.
  intros [Hl (pending & Hs & Hsz & Hcs & Hp) [Hf Hlt] _ _] Hseq Hstep.
  unfold check_consistency. simpl. rewrite Hl, Hs, Hf, Hlt. simpl.
  destruct (N.eqb_spec (ds_sequence st) 0); [done|].
  destruct (String.eqb_spec (ds_step_id st) ""); [done|].
  rewrite bool_decide_true by done. simpl.
  by rewrite queue_matches_true by done.
Qed.
Lemma settled_Ok :
  dispatches b = false → in_flight (ds_effect st) = false →
  check_settled ck (runtime_of limit e b st ids) = Ok tt.
Proof.
  intros Hb He. unfold check_settled, execution_boundary. simpl. rewrite He. simpl.
  rewrite boundary_resumable by done. simpl. by case_bool_decide.
Qed.
End accepted.

(** C17: A checkpoint gives the run back.  Let a boundary that is not a dispatch be persisted by a
    run that is not a child, has no children and nothing in flight and is at rest in a state the
    checks of a recovery allow ([recoverable]: its result names its agent, its queue is what its
    history leaves unanswered, its cost is a finite number that is not negative, its journal is the
    one its history restores).  Then a new attempt at the same run, under the same configuration
    ([same_run]) and with its agent registered under a name of its own, recovers from the checkpoint
    the store acknowledged: with the engine [reopened], which keeps
    the agent, the policy, the phase, the queue, the journal, the result with its history and usage,
    the turns, the cost and the counters of tool errors and of the stop gate, and starts the rest
    afresh; a queued call is decided as the journal decided it last; the turn limit is that of the request, and
    the durable counters go on from where they were. *)
Theorem checkpoint_round_trip e b p w w' request initial streaming sender visited st now instant :
  persist_boundary dout until limit e b p w = (Ok tt, w') →
  child = false → dispatches b = false → recoverable e →
  in_flight (ds_effect (dstate w')) = false →
  ds_children (dstate w') = None → ds_step_id (dstate w') ≠ "" →
  same_run e request (dstate w') st →
  NoDup ((λ a, agent_name (agents a)) <$> visited) → agent e ∈ visited →
  ∃ ck o decided, last (events w') = Some (Committed ck)
    ∧ recover_checkpoint visited (new_engine initial request streaming sender) st now instant ck = Ok o
    ∧ opened_engine o = reopened e b decided streaming sender
    ∧ (∀ c, c ∈ calls e → ruling c (entries (approval_journal e)) (decided !! call_id c))
    ∧ (∀ id, is_Some (decided !! id) → ∃ c, c ∈ calls e ∧ call_id c = id)
    ∧ opened_limit o = limit
    ∧ ds_sequence (opened_state o) = ds_sequence (dstate w')
    ∧ ds_tool_calls (opened_state o) = ds_tool_calls (dstate w')
    ∧ ds_effect (opened_state o) = ds_effect (dstate w')
    ∧ ds_started_at (opened_state o) = ds_started_at (dstate w').
Proof.
  intros Hp Hchild Hb Hrec Hfl Hch Hstep Hsame Hnd Hvis.
  apply persist_Ok in Hp as (ids & wire & u & now' & Hlast & Hwire & Hseq).
  eexists. destruct (restore_approvals_Ok (calls e) (entries (approval_journal e)) ∅
    (rec_calls _ Hrec)) as (m & Hm).
  pose proof (rec_journal _ Hrec) as Hj. pose proof (wire_history_valid _ _ Hwire) as Hv.
  apply restore_approvals_ruling in Hm as Hdecided; [|intros *; by apply queue_ids].
  unfold recover_checkpoint.
  erewrite envelope_Ok by done. cbn [mbind result_bind].
  change (policy (new_engine initial request streaming sender)) with (run_policy request).
  erewrite configuration_Ok by done. cbn [mbind result_bind].
  erewrite consistency_Ok by done. cbn [mbind result_bind].
  rewrite settled_Ok by done. cbn [mbind result_bind].
  change (ck_agent_name _) with (agent_name (agents (agent e))).
  rewrite last_named by done. cbn [ok_or mbind result_bind].
  change (rt_approval_journal _) with (entries (approval_journal e)).
  change (rt_result _) with (run_result e). rewrite Hj. cbn [bridge_invalid mbind result_bind].
  change (rt_calls _) with (calls e). change (approvals _) with (∅ : gmap string ApprovalDecision).
  cbn [entries]. rewrite Hm. cbn [mbind result_bind].
  match goal with |- context [if ?c then _ else _] => destruct c end;
    [|match goal with |- context [if ?c then _ else _] => destruct c end].
  all: eexists _, m; split; [exact Hlast|]; split; [reflexivity|]; split; [by apply restored_reopened|].
  all: destruct Hdecided; by split_and!.
Qed.
End round_trip.

(** ** A concrete crash *)

(** JSON texts, none of which is looked into. *)
#[export] Instance text_json : JsonValue string := {| shape := λ _, None; json := λ _, "" |}.
Definition durable_script : DurableOutside (Value := string) (X := Script) := {|
  utc_now := λ _, 0%Z;
  duration_of := Z.of_N;
  fresh_id := λ x, ("id", x);
  effect_key_of := λ run id, run +:+ "/" +:+ id;
  owner_checkpoint := nothing "";
  owner_restore := λ _, nothing tt;
  delivery_ids := λ _, [];
  deliver := λ _, nothing tt;
  store_persist := λ _, nothing tt;
  session_durable := false;
  gate_key := None;
  run_hooks_durable := false;
  agent_hooks_durable := λ _, false;
  output_digest := λ _, Ok "baseline";
|}.
Definition durable_sample (attempt : string) (request : RunRequest string)
    (resume : option (RunnerCheckpoint string)) (x : Script) :=
  drive_durable durable_script 10 40 0 request false (mkDurableRun attempt resume false) x.
Definition sample_world : World :=
  match durable_sample "first" sample_request None sample_script with
  | Some (_, Some w) => w
  | _ => mkWorld sample_script (mkDurable false None 0%Z None "" 0 "" "" None 0) []
  end.

(** The same run when nobody answers: it pauses at the edit. *)
Definition paused_sample : Engine string * World :=
  match durable_sample "first" sample_request None (mkScript (script_responses sample_script) []) with
  | Some (Drove (Outcome _ _ (Some e)), Some w) => (e, w)
  | _ => (new_engine 0 sample_request false false, sample_world)
  end.
Definition later_request : RunRequest string := mkRunRequest [] sample_policy.
Definition later_state : DurableState string :=
  mkDurable false None 0%Z None "second" 0 "step" "baseline" None 0.

Lemma recovery_never_replays_witness :
  ∃ before ck,
    events sample_world = before ++ Committed ck :: [] ++ drop 19 (events sample_world)
    ∧ is_ok (recover_checkpoint [0; 1]%N (new_engine 0 later_request false false) later_state 0%Z 0 ck)
      = true
    ∧ Forall (λ ev, written ev = true) ([] : list (Event (Value := string))).
Proof.
  eexists (take 18 (events sample_world)), _. split; [vm_compute; reflexivity|].
  split; [vm_compute; reflexivity|].
  eapply (recovery_never_replays durable_script 10 40 0 sample_request false
    (mkDurableRun "first" None false) sample_script _ sample_world
    (take 18 (events sample_world)) _ _ [] (drop 19 (events sample_world)) sample_setup [0; 1]%N
    (new_engine 0 later_request false false) later_state 0%Z 0).
  - vm_compute. reflexivity.
  - vm_compute. reflexivity.
  - left. reflexivity.
  - intros c Hc. inversion Hc.
  - vm_compute. reflexivity.
Defined.

Lemma checkpoint_round_trip_witness :
  let e := paused_sample.1 in
  ∃ ck o,
    recover_checkpoint [0; 1]%N (new_engine 0 later_request false false) later_state 0%Z 0 ck = Ok o
    ∧ (∃ decided, opened_engine o = reopened e BPaused decided false false) ∧ calls e ≠ [].
Proof.
  destruct (checkpoint_round_trip durable_script None 5 paused_sample.1 BPaused None paused_sample.2
    (persist_boundary durable_script None 5 paused_sample.1 BPaused None paused_sample.2).2
    later_request 0 false false [0; 1]%N later_state 0%Z 0) as (ck & o & decided & _ & Ho & Hp & _).
  - vm_compute. reflexivity.
  - reflexivity.
  - reflexivity.
  - split.
    + vm_compute. reflexivity.
    + eexists. split; [vm_compute; reflexivity|]. split; [vm_compute; reflexivity|].
      split; [|vm_compute; done].
      apply Forall_forall. vm_compute. repeat constructor.
    + vm_compute. done.
    + vm_compute. reflexivity.
    + apply Forall_forall. vm_compute. repeat constructor.
  - vm_compute. reflexivity.
  - vm_compute. reflexivity.
  - vm_compute. discriminate.
  - split; try (vm_compute; reflexivity); try (left; vm_compute; reflexivity). vm_compute. discriminate.
  - vm_compute. repeat constructor; set_solver.
  - vm_compute. left.
  - exists ck, o. split; [exact Ho|]. split; [by exists decided|]. vm_compute. discriminate.
Defined.
