(* ===== verification/StoredStore.v ===== *)
(** * StoredStore: checkpoints of a run in a durable store

    [StoredCheckpointStore] of [crates/adk-runtime/src/durable.rs]: the adapter that
    writes the checkpoints of one run to a [RunStore] ([DurableSpec]) under a lease.
    A session keeps the snapshot it last saw; a write appends one event at that
    revision, and a write that does not succeed closes the session for good.

    [S] is the world outside of the session: the store, the clock, other processes.
    The session's mutex is poisoned by panics only, of which there are none here. *)

From Stdlib Require Import SpecFloat.
From S2P Require Import Prelude Text Core SecurityPolicy Subagent RunTypes Approvals Codec Compaction.
From S2P Require Import Runner Checkpoint RunnerDurable Durable DurableSpec.

(** [x.ceil()] on a finite float. *)
Definition ceil (x : f64) : option Z :=
  match x with
  | S754_zero _ => Some 0%Z
  | S754_finite s m e =>
      let v := if s then Zneg m else Zpos m in
      Some (if (0 <=? e)%Z then Z.shiftl v e else - Z.shiftr (- v) (- e))%Z
  | _ => None
  end.
Definition persistence_error (m : string) : Error := mkError Host ("durable persistence: " +:+ m).

Section stored.
Context {Value S : Type} `{EqDecision Value}.
Notation RunSnapshot := (Durable.RunSnapshot Value).
Notation Event := (Durable.Event Value).
Notation RunnerCheckpoint := (RunnerCheckpoint Value).
Notation RuntimeCheckpoint := (RuntimeCheckpoint Value).

(** The two operations of a [RunStore] the adapter calls. *)
Class RunStore := {
  store_load : string → string → SE S DurableError (RunSnapshot * list Event);
  store_append : Lease → N → list Event → RunSnapshot → SE S DurableError RunSnapshot;
}.
(** serde: the value of a checkpoint, and what it reads in the bytes of a value (a
    schema version and a checkpoint); errors are messages. *)
Class CheckpointSerde := {
  to_value : RunnerCheckpoint → result string Value;
  read_value : Value → result string (option N * result Error RunnerCheckpoint);
}.
Context {R : RunStore} {C : CheckpointSerde}.

Record StoredSession := mkSession {
  session_lease : Lease;
  session_snapshot : RunSnapshot;
  session_sequence : N;
  poisoned : bool;
}.

(** [.map_err(persistence_error)] and [.map_err(invalid)] *)
Definition persisting {A} (r : result DurableError A) : result Error A :=
  match r with Ok a => Ok a | Err e => Err (persistence_error (durable_message e)) end.
Definition invalid_if {A} (r : result string A) : result Error A :=
  match r with Ok a => Ok a | Err m => Err (invalid_input m) end.
Definition decode_value (v : Value) : result Error RunnerCheckpoint :=
  '(version, parsed) ← invalid_if (read_value v);
  decode_checkpoint version parsed.

(** ** [StoredCheckpointStore::open] and [checkpoint] *)
Definition open (lease : Lease) : SE S Error StoredSession := λ w,
  let '(loaded, w) := store_load (lease_tenant lease) (lease_run lease) w in
  (('(snapshot, _) ← persisting loaded;
    _ ← ensure (bool_decide (cancellation snapshot = None) && (length (child_runs snapshot) =? 0)%nat)
          (unsupported "stored cancellation/child runs require reconciliation");
    _ ← ensure (negb (existsb (λ e, in_flight (Some e)) (effects snapshot)))
          (unsupported "operator_resolution: stored effect outcome is unknown");
    sequence ← match state snapshot with
      | Some v => checkpoint ← decode_value v; Ok (ck_sequence checkpoint)
      | None => Ok 0%N
      end;
    Ok (mkSession lease snapshot sequence false)), w).
Definition stored_checkpoint (s : StoredSession) : result Error (option RunnerCheckpoint) :=
  match state (session_snapshot s) with
  | Some v => checkpoint ← decode_value v; Ok (Some checkpoint)
  | None => Ok None
  end.

(** ** [persist] *)

(** [iter_mut().find(|e| e.id == effect.id)], or pushed. *)
Fixpoint put_effect (effect : Effect Value) (l : list (Effect Value)) : list (Effect Value) :=
  match l with
  | [] => [effect]
  | e :: l => if String.eqb (effect_id e) (effect_id effect) then effect :: l else e :: put_effect effect l
  end.
Definition budget_of (runtime : RuntimeCheckpoint) (now : time) (prior : BudgetCounters)
    : result Error BudgetCounters :=
  let overflow := invalid_input "durable cost counter overflow" in
  cost ← ok_or (ceil (f64_mul (rt_cost runtime) (f64_of_N 1000000))) overflow;
  _ ← ensure (negb (cost <? 0)%Z && negb (2 ^ 63 <=? cost)%Z) overflow;
  i ← count (RunTypes.input_tokens (usage (rt_result runtime)));
  o ← count (RunTypes.output_tokens (usage (rt_result runtime)));
  t ← count (rt_tool_calls runtime);
  let budget := mkBudgetCounters i o t cost (Z.max (Checkpoint.wall_time_ms runtime now) (wall_time_ms prior)) in
  _ ← ensure (negb ((i <? input_tokens prior)%Z || (o <? output_tokens prior)%Z
                    || (t <? tool_call_count prior)%Z || (cost <? cost_micros prior)%Z))
        (invalid_input "durable counters cannot decrease");
  Ok budget.
(** The checkpoint is the next one of this run. *)
Definition check_identity (run : string) (s : StoredSession) (ck : RunnerCheckpoint) : result Error unit :=
  let conflict := persistence_error "run identity or checkpoint sequence conflict" in
  if negb (String.eqb (ck_run_id ck) run) || negb (String.eqb (ck_run_id ck) (run_id (session_snapshot s)))
  then Err conflict
  else
    next ← ok_or (checked_add (session_sequence s) 1) (invalid_input "sequence overflow");
    ensure (ck_sequence ck =? next)%N conflict.
Definition next_snapshot (s : RunSnapshot) (ck : RunnerCheckpoint) : result Error RunSnapshot :=
  runtime ← ok_or (ck_runtime ck) (invalid_input "missing runtime checkpoint");
  next ← ok_or (checked_add (revision s) 1) (invalid_input "revision overflow");
  value ← invalid_if (to_value ck);
  budget ← budget_of runtime (ck_created_at ck) (cumulative_budget s);
  Ok {| schema_version := schema_version s; tenant_id := tenant_id s; run_id := run_id s;
        revision := next; event_sequence := event_sequence s;
        status := if String.eqb (execution_boundary ck) "run_completed" then StatusSucceeded else StatusRunning;
        classification := classification s; state := Some value; attempts := attempts s;
        steps := steps s; tool_calls := tool_calls s; approvals := approvals s;
        child_runs := child_runs s;
        effects := match ck_effect ck with Some e => put_effect e (effects s) | None => effects s end;
        cancellation := cancellation s; cumulative_budget := budget;
        created_at := created_at s; updated_at := ck_created_at ck; retain_until := retain_until s |}.
Definition event_of (ck : RunnerCheckpoint) (next : RunSnapshot) : Event :=
  mkEvent "" "" "" 0 zero_time (execution_boundary ck) (classification next) (state next).

(** [context.run_id] and [context.check_active()]. *)
Context (run : string) (check_active : S → result Error unit).
Notation M := (SE (S * StoredSession) Error).
Definition session : M StoredSession := λ ws, (Ok ws.2, ws).
Definition set_session (s : StoredSession) : M unit := λ ws, (Ok tt, (ws.1, s)).
Definition active : M unit := λ ws, (check_active ws.1, ws).
Definition appending (l : Lease) (expected : N) (evs : list Event) (next : RunSnapshot) : M RunSnapshot :=
  λ ws, let '(r, w) := store_append l expected evs next ws.1 in (persisting r, (w, ws.2)).
Definition set_poisoned (b : bool) (s : StoredSession) : StoredSession :=
  mkSession (session_lease s) (session_snapshot s) (session_sequence s) b.
Definition persist (ck : RunnerCheckpoint) : M unit :=
  _ ← active;
  s ← session;
  if poisoned s then fail (persistence_error "session closed after persistence failure")
  else
    _ ← set_session (set_poisoned true s);
    _ ← lift (check_identity run s ck);
    next ← lift (next_snapshot (session_snapshot s) ck);
    committed ← appending (session_lease s) (revision (session_snapshot s)) [event_of ck next] next;
    _ ← lift (ensure (bool_decide (state committed = state next))
          (persistence_error "redaction changed executable continuation"));
    let s := mkSession (session_lease s) committed (ck_sequence ck) true in
    _ ← set_session s;
    _ ← active;
    set_session (set_poisoned false s).
End stored.
