(* ===== verification/StoredStoreProps.v ===== *)
(** * StoredStoreProps: an acknowledged checkpoint is in the store

    Properties of [StoredStore] over any store that keeps the contract of
    [DurableSpec] ([RunStoreLaws]), with other processes at work on it; the
    filesystem store of [DurableFs] is one. *)

From Stdlib Require Import SpecFloat.
From S2P Require Import Prelude Text Core SecurityPolicy Subagent RunTypes Approvals Codec Compaction.
From S2P Require Import Runner Checkpoint RunnerDurable Durable DurableSpec StoredStore.

Section props.
Context {Value S : Type} `{EqDecision Value} {Ch : Chrono} {R : RunStore (Value := Value) (S := S)}
  {C : CheckpointSerde (Value := Value)}.
Notation Spec := (gmap (string * string) (Entry Value)).
Notation RunnerCheckpoint := (RunnerCheckpoint Value).
Notation Session := (StoredSession (Value := Value)).
Context (redactor : option (Redactor Value)).
Implicit Types (evs : list (Event Value)) (sn : RunSnapshot Value) (σ : Spec) (k : string * string)
  (tok : string) (used : gset string).

(** [represents w σ used]: the store of the world [w] holds [σ], and the lease
    tokens [used] were drawn. *)
Class RunStoreLaws (represents : S → Spec → gset string → Prop) : Prop := {
  represents_functional w σ u σ' u' : represents w σ u → represents w σ' u' → σ = σ' ∧ u = u';
  store_load_spec w σ u t r : represents w σ u →
    ∃ σ', spec_step redactor σ (OpLoad (t, r)) ((λ x, RetLoaded x.1 x.2) <$> (store_load t r w).1) σ'
          ∧ represents (store_load t r w).2 σ' u;
  store_append_spec w σ u l n evs s : represents w σ u →
    ∃ check now ids σ',
      spec_step redactor σ (OpAppend check now ids l n evs s) (RetSnapshot <$> (store_append l n evs s w).1) σ'
      ∧ represents (store_append l n evs s w).2 σ' u;
}.

(** ** What becomes of an entry while a token is stored for it *)

Lemma post_load σ k r σ' : post redactor (OpLoad k) σ r σ' → σ' = σ.
Proof. by intros (e & _ & _ & ->). Qed.
Lemma nothing_purged (σ σ' : Spec) op : (∀ k e, ¬ purges op k e) → σ' ⊆ σ →
  (∀ k x, σ !! k = Some x → σ' !! k = None → purges op k x) → σ' = σ.
Proof.
  intros Hno Hsub Hp. apply map_eq. intros k. destruct (σ' !! k) as [e|] eqn:He.
  - symmetry. by eapply lookup_weaken.
  - destruct (σ !! k) as [x|] eqn:Hx; [|done]. by destruct (Hno k x (Hp k x Hx He)).
Qed.

Definition kept (k : string * string) (sn : RunSnapshot Value) (evs : list (Event Value)) (σ : Spec) : Prop :=
  ∃ e, σ !! k = Some e ∧
    ((entry_snapshot e = sn ∧ entry_events e = evs) ∨ (revision sn < revision (entry_snapshot e))%N).
Definition kept_by (tok : string) (k : string * string) (sn : RunSnapshot Value) (evs : list (Event Value)) (σ : Spec) : Prop := holds σ k tok → kept k sn evs σ.

Lemma kept_insert tok k sn evs σ k' e e' :
  kept_by tok k sn evs σ → σ !! k' = Some e →
  (k' = k → holds (<[k' := e']> σ) k tok → holds σ k tok) →
  entry_snapshot e' = entry_snapshot e ∧ entry_events e' = entry_events e
  ∨ (revision (entry_snapshot e) < revision (entry_snapshot e'))%N →
  kept_by tok k sn evs (<[k' := e']> σ).
Proof.
  intros Hk He Hh Hc Hh'. destruct (decide (k' = k)) as [->|Hne].
  - destruct (Hk (Hh eq_refl Hh')) as (e0 & He0 & H0). simplify_eq. exists e'.
    rewrite lookup_insert_eq. split; [done|].
    destruct Hc as [(-> & ->)|Hlt]; [done|]. right. destruct H0 as [(<- & _)|]; lia.
  - destruct Hh' as (e1 & l & He1 & Hl). rewrite lookup_insert_ne in He1 by done.
    destruct Hk as (e2 & He2 & H2); [by exists e1, l|]. exists e2. by rewrite lookup_insert_ne.
Qed.
Lemma kept_subset tok k sn evs (σ σ' : Spec) : kept_by tok k sn evs σ → σ' ⊆ σ → kept_by tok k sn evs σ'.
Proof.
  intros Hk Hsub (e & l & He & Hl). destruct Hk as (e2 & He2 & H2).
  - exists e, l. split; [by eapply lookup_weaken|done].
  - exists e. split; [done|]. eapply lookup_weaken in He; [|done]. by simplify_eq.
Qed.

#[local] Instance holds_dec σ k tok : Decision (holds σ k tok).
Proof.
  destruct (σ !! k) as [e|] eqn:He; [|right; intros (? & ? & ? & _); congruence].
  destruct (entry_lease e) as [l|] eqn:Hl; [|right; intros (? & ? & ? & ? & _); congruence].
  destruct (decide (token l = tok)); [left; by exists e, l|right; intros (? & ? & ? & ? & ?); congruence].
Defined.
Lemma kept_post tok k sn evs op σ r σ' used :
  kept_by tok k sn evs σ → tok ∈ used → drawn op ## used → post redactor op σ r σ' → kept_by tok k sn evs σ'.
Proof.
  intros Hk Hu Hd Hp.
  assert (∀ k', k' = k → holds σ' k tok → holds σ k tok) as Hh.
  { intros ? _ Hh. destruct (decide (holds σ k tok)) as [|Hn]; [done|].
    by destruct (post_not_holds redactor op σ r σ' used k tok). }
  destruct op as [now s|k'|check now ids l n es s|now fresh k' o ttl|check now l ttl|l|k'|t|now]; simpl in Hp.
  - destruct Hp as (s' & Hn & _ & _ & ->). intros Hh'. destruct (Hk (Hh _ eq_refl Hh')) as (e & He & Hc).
    exists e. rewrite lookup_insert_ne; [done|congruence].
  - by destruct Hp as (e0 & _ & _ & ->).
  - destruct Hp as (e0 & s' & evs' & H0 & _ & <- & Ha & _ & ->). eapply kept_insert; [done|done|exact (Hh _)|].
    right. apply prepare_append_fields in Ha. destruct_and!. simpl. lia.
  - destruct Hp as (e0 & t & H0 & _ & _ & _ & _ & ->). eapply kept_insert; [done|done|exact (Hh _)|by left].
  - destruct Hp as (e0 & st & t & H0 & _ & _ & _ & _ & ->). eapply kept_insert; [done|done|exact (Hh _)|by left].
  - destruct Hp as (e0 & H0 & _ & _ & ->). eapply kept_insert; [done|done|exact (Hh _)|by left].
  - destruct Hp as (_ & _ & ->). eapply kept_subset; [done|apply delete_subseteq].
  - destruct Hp as (_ & ->). eapply kept_subset; [done|apply map_filter_subseteq].
  - destruct Hp as (-> & _). eapply kept_subset; [done|apply map_filter_subseteq].
Qed.
Lemma kept_run tok k sn evs σ used ops σ' used' :
  run redactor σ used ops σ' used' → tok ∈ used → kept_by tok k sn evs σ →
  kept_by tok k sn evs σ'.
Proof.
  intros Hrun Hu Hk. apply (run_invariant redactor (λ σ used, tok ∈ used ∧ kept_by tok k sn evs σ)) in Hrun.
  - by destruct Hrun.
  - intros σ0 u0 op r σ1 [H1 H2] Hd Hp. split; [set_solver|]. by eapply kept_post.
  - intros σ0 u0 σ1 u1 [H1 H2] Hsub Hu'. split; [set_solver|]. by eapply kept_subset.
  - done.
Qed.

Lemma run_keeps_used tok σ used ops σ' used' : run redactor σ used ops σ' used' → tok ∈ used → tok ∈ used'.
Proof.
  intros Hrun Hu. apply (run_invariant redactor (λ _ used, tok ∈ used)) in Hrun; [done|set_solver|set_solver|done].
Qed.

(** ** One write *)

Notation World := (S * Session)%type.
Implicit Types (run : string) (active : S → result Error unit) (ck : RunnerCheckpoint) (s : Session) (w : S).

(** The stored event and snapshot of a checkpoint. *)
Definition recorded_as ck (ev : Event Value) : Prop :=
  event_type ev = execution_boundary ck ∧ ∃ v, to_value ck = Ok v ∧ payload ev = Some v.
Definition budget_le (a b : BudgetCounters) : Prop :=
  (input_tokens a ≤ input_tokens b ∧ output_tokens a ≤ output_tokens b ∧ tool_call_count a ≤ tool_call_count b
   ∧ cost_micros a ≤ cost_micros b ∧ wall_time_ms a ≤ wall_time_ms b)%Z.
Lemma budget_le_trans a b c : budget_le a b → budget_le b c → budget_le a c.
Proof. unfold budget_le. lia. Qed.
Lemma budget_of_le (rt : RuntimeCheckpoint Value) now prior b : budget_of rt now prior = Ok b → budget_le prior b.
Proof.
  unfold budget_of, budget_le. intros Hb. inv_ok. bools. simpl. lia.
Qed.
Lemma redact_snapshot_state (sn sn' : RunSnapshot Value) :
  redact_snapshot redactor sn = Ok sn' →
  redact_value redactor (classification sn) (state sn) = Ok (state sn')
  ∧ classification sn' = classification sn ∧ cumulative_budget sn' = cumulative_budget sn.
Proof. unfold redact_snapshot. destruct redactor as [rd|]; intros Hs; inv_ok; simpl; [done|done]. Qed.

(** An append that keeps the state records it unchanged. *)
Lemma prepare_append_event now ids l rev seq ck (sn sn' : RunSnapshot Value) evs' :
  prepare_append now redactor ids l rev seq [event_of ck sn] sn = Ok (sn', evs') → state sn' = state sn →
  cumulative_budget sn' = cumulative_budget sn
  ∧ ∃ ev, evs' = [ev] ∧ event_type ev = execution_boundary ck ∧ payload ev = state sn
      ∧ sequence ev = (seq + 1)%N.
Proof.
  intros Hp Hst. unfold prepare_append in Hp. inv_add.
  match goal with H : redact_snapshot _ _ = _ |- _ => apply redact_snapshot_state in H as (Hr & _ & Hb) end.
  simpl in *. rewrite Hst in Hr. split; [done|].
  match goal with H : context[prepare_event] |- _ => rename H into He end.
  destruct (prepare_event _ _ _ _ _ _ _) as [ev|] eqn:Hev; [|done]. injection He as <-.
  exists ev. split; [done|]. unfold prepare_event in Hev. simpl in Hev. rewrite Hr in Hev. simpl in Hev.
  injection Hev as <-. simpl. split_and!; [done|done|lia].
Qed.

Definition next_session s (committed : RunSnapshot Value) ck : Session :=
  mkSession (session_lease s) committed (ck_sequence ck) false.
Lemma stored_Ok run active ck w s w' s' :
  persist run active ck (w, s) = (Ok tt, (w', s')) →
  poisoned s = false ∧ check_identity run s ck = Ok tt ∧
  ∃ next committed, next_snapshot (session_snapshot s) ck = Ok next ∧
    store_append (session_lease s) (revision (session_snapshot s)) [event_of ck next] next w = (Ok committed, w') ∧
    state committed = state next ∧ s' = next_session s committed ck.
Proof.
  unfold persist. intros Hp. unfold StoredStore.active, session, set_session, appending in Hp.
  destruct s as [l sn seq [|]]; simpl in *; [by inv_se|].
  apply SE_bind_Ok in Hp as (? & ? & Ha & Hp). injection Ha as _ <-.
  apply SE_bind_Ok in Hp as (? & ? & Ha & Hp). injection Ha as <- <-. simpl in Hp.
  apply SE_bind_Ok in Hp as (? & ? & Ha & Hp). injection Ha as _ <-.
  apply SE_bind_Ok in Hp as ([] & ? & Ha & Hp). injection Ha as Hid <-.
  apply SE_bind_Ok in Hp as (next & ? & Ha & Hp). injection Ha as Hnext <-.
  apply SE_bind_Ok in Hp as (committed & ws & Ha & Hp). simpl in Ha.
  destruct (store_append l _ _ next w) as [r w1] eqn:Happ. destruct r as [c|]; simpl in Ha; [|done].
  injection Ha as <- <-.
  apply SE_bind_Ok in Hp as (? & ? & Ha & Hp). injection Ha as Hst%ensure_Ok%bool_decide_eq_true <-.
  apply SE_bind_Ok in Hp as (? & ? & Ha & Hp). injection Ha as _ <-.
  apply SE_bind_Ok in Hp as (? & ? & Ha & Hp). injection Ha as _ <-. injection Hp as <- <-.
  split_and!; [done|done|]. by exists next, c.
Qed.
(** A write that fails closes the session, unless the context had ended before it. *)
Lemma stored_Err run active ck w s e w' s' :
  persist run active ck (w, s) = (Err e, (w', s')) →
  (w', s') = (w, s) ∨ poisoned s' = true.
Proof.
  unfold persist, StoredStore.active, session, set_session, appending, mbind, SE_bind, lift. simpl.
  destruct (active w); simpl; [|intros [= <- <- <-]; by left].
  destruct (poisoned s); simpl; [intros [= <- <- <-]; by left|].
  repeat (case_match; simpl in *; simplify_eq); intros; simplify_eq; by right.
Qed.
Lemma stored_closed run active ck w s :
  poisoned s = true → ∃ e, persist run active ck (w, s) = (Err e, (w, s)).
Proof.
  intros Hs. unfold persist, StoredStore.active, session, mbind, SE_bind. simpl.
  destruct (active w); simpl; [|by eexists]. rewrite Hs. by eexists.
Qed.

(** ** A session among other processes *)

Context (represents : S → Spec → gset string → Prop) {L : RunStoreLaws represents}.

(** Other processes call the store, in any way and with any failures. *)
Definition others w w' : Prop :=
  ∀ σ u, represents w σ u → ∃ ops σ' u', run redactor σ u ops σ' u' ∧ represents w' σ' u'.
(** The writes of a session, with the checkpoints it acknowledged. *)
Inductive session_steps (start : World) : list RunnerCheckpoint → World → Prop :=
| steps_none : session_steps start [] start
| steps_others acked w s w' :
    session_steps start acked (w, s) → others w w' → session_steps start acked (w', s)
| steps_persist acked w s run active ck r w' s' :
    session_steps start acked (w, s) → persist run active ck (w, s) = (r, (w', s')) →
    session_steps start (acked ++ if is_ok r then [ck] else []) (w', s').

(** What the entry holds once the checkpoints were acknowledged. *)
Record follows (e : Entry Value) (first : N) (acked : list RunnerCheckpoint)
    (sn : RunSnapshot Value) (seq : N) (evs : list (Event Value)) : Prop := {
  follows_revision : revision sn = (revision (entry_snapshot e) + N.of_nat (length acked))%N;
  follows_sequence : seq = (first + N.of_nat (length acked))%N;
  follows_budget : budget_le (cumulative_budget (entry_snapshot e)) (cumulative_budget sn);
  follows_events : ∃ new, evs = entry_events e ++ new ∧ Forall2 recorded_as acked new;
}.
Definition session_inv lease (e : Entry Value) first acked w s : Prop :=
  ∃ σ u, represents w σ u ∧ token lease ∈ u ∧ session_lease s = lease ∧
    (poisoned s = false → ∃ evs,
       follows e first acked (session_snapshot s) (session_sequence s) evs
       ∧ kept_by (token lease) (lease_key lease) (session_snapshot s) evs σ).

Lemma load_step (σ σ' : Spec) k r : spec_step redactor σ (OpLoad k) r σ' → σ' = σ.
Proof.
  intros Hs. inversion Hs; subst; [by eapply post_load|done|by eapply post_load|].
  eapply nothing_purged; [|done..]. intros ? ? [].
Qed.
Lemma append_step (σ σ' : Spec) u c now ids l n es sn r :
  spec_step redactor σ (OpAppend c now ids l n es sn) r σ' →
  run redactor σ u [(OpAppend c now ids l n es sn, r)] σ' u.
Proof.
  intros Hs. eapply run_step; [set_solver|exact Hs|]. simpl. rewrite (left_id_L ∅ (∪)). apply run_nil.
Qed.
(** An append by the session's token finds the entry as the session left it. *)
Lemma append_committed (σ σ' : Spec) c now ids l ck old (sn committed : RunSnapshot Value) evs v :
  kept_by (token l) (lease_key l) old evs σ →
  spec_step redactor σ (OpAppend c now ids l (revision old) [event_of ck sn] sn) (Ok (RetSnapshot committed)) σ' →
  state committed = state sn → to_value ck = Ok v → state sn = Some v →
  revision committed = (revision old + 1)%N ∧ cumulative_budget committed = cumulative_budget sn ∧
  ∃ ev e', recorded_as ck ev ∧ σ' !! lease_key l = Some e' ∧ entry_snapshot e' = committed
    ∧ entry_events e' = evs ++ [ev].
Proof.
  intros Hk Hs Hst Hv Hsv. inversion Hs as [? ? ? ? Hp| | |]; subst.
  assert (holds σ (lease_key l) (token l)) as Hh by (eapply post_presents; [|exact Hp]; done).
  destruct Hp as (e & s' & evs' & He & _ & Hrev & Ha & [= <-] & ->).
  destruct (Hk Hh) as (e0 & He0 & Hc). simplify_eq.
  destruct Hc as [(<- & <-)|Hlt]; [|lia].
  pose proof (prepare_append_fields _ _ _ _ _ _ _ _ _ _ Ha) as Hf. destruct_and!.
  destruct (prepare_append_event _ _ _ _ _ _ _ _ _ Ha Hst) as (Hb & ev & -> & Ht & Hpay & _).
  split_and!; [done|done|]. exists ev. rewrite lookup_insert_eq. eexists. split_and!; [|done|done|done].
  split; [done|]. exists v. by rewrite Hpay.
Qed.
Lemma next_snapshot_fields (sn next : RunSnapshot Value) ck :
  next_snapshot sn ck = Ok next →
  ∃ v, to_value ck = Ok v ∧ state next = Some v ∧ budget_le (cumulative_budget sn) (cumulative_budget next).
Proof.
  unfold next_snapshot. destruct (to_value ck) as [v|m] eqn:Hv; intros Hn; inv_ok; [|done]. simpl in *. simplify_eq.
  eexists. split_and!; [done|done|by eapply budget_of_le].
Qed.
Lemma check_identity_sequence run s ck :
  check_identity run s ck = Ok tt → ck_sequence ck = (session_sequence s + 1)%N.
Proof.
  unfold check_identity. case_match; [done|]. intros Hc. inv_add. by bools.
Qed.

(** What an acknowledged write leaves. *)
Lemma stored_follows lease e first acked w s run active ck w' s' :
  session_inv lease e first acked w s → persist run active ck (w, s) = (Ok tt, (w', s')) →
  ∃ σ u e' v, represents w' σ u ∧ token lease ∈ u ∧ session_lease s' = lease ∧ poisoned s' = false ∧
    σ !! lease_key lease = Some e' ∧ entry_snapshot e' = session_snapshot s' ∧
    to_value ck = Ok v ∧ state (session_snapshot s') = Some v ∧
    follows e first (acked ++ [ck]) (session_snapshot s') (session_sequence s') (entry_events e').
Proof.
  intros (σ & u & Hr & Htok & <- & Hinv) (Hpz & Hid & next & committed & Hnext & Happ & Hst & ->)%stored_Ok.
  destruct (Hinv Hpz) as (evs & [Hrev Hseq Hbud (new & -> & Hnew)] & Hk).
  apply next_snapshot_fields in Hnext as (v & Hv & Hsv & Hb).
  destruct (store_append_spec w σ u (session_lease s) (revision (session_snapshot s)) [event_of ck next] next Hr)
    as (c & now & ids & σ' & Hstep & Hr'). rewrite Happ in Hstep, Hr'. simpl in Hstep, Hr'.
  destruct (append_committed _ _ _ _ _ _ _ _ _ _ _ _ Hk Hstep Hst Hv Hsv)
    as (Hrev' & Hbud' & ev & e' & Hrec & He' & Hsn & Hevs).
  exists σ', u, e', v. simpl. split_and!; [done|done|done|done|done|done|done|congruence|].
  apply check_identity_sequence in Hid. rewrite Hevs. constructor.
  - rewrite length_app. simpl. lia.
  - rewrite length_app. simpl. lia.
  - rewrite Hbud'. by eapply budget_le_trans.
  - exists (new ++ [ev]). rewrite (assoc_L (++)). split; [done|]. apply Forall2_app; [done|]. by constructor.
Qed.
(** Whatever a write answers, the store went through its one call at most. *)
Lemma stored_world run active ck w s r w' s' σ u :
  represents w σ u → persist run active ck (w, s) = (r, (w', s')) →
  session_lease s' = session_lease s ∧ ∃ ops σ' u', DurableSpec.run redactor σ u ops σ' u' ∧ represents w' σ' u'.
Proof.
  intros Hr Hp.
  assert (session_lease s' = session_lease s ∧
    (w' = w ∨ ∃ n evs sn, w' = (store_append (session_lease s) n evs sn w).2)) as [Hl Hw].
  { revert Hp. unfold persist, StoredStore.active, session, set_session, appending, mbind, SE_bind, lift, fail. simpl.
    repeat (case_match; simpl in *; simplify_eq/=); intros; simplify_eq/=; (split; [done|]); try by left.
    all: right; eexists _, _, _; by match goal with H : store_append _ _ _ _ _ = _ |- _ => rewrite H end. }
  split; [done|]. destruct Hw as [->|(n & evs & sn & ->)].
  - exists [], σ, u. split; [apply run_nil|done].
  - destruct (store_append_spec w σ u (session_lease s) n evs sn Hr) as (c & now & ids & σ' & Hs & Hr').
    eexists _, σ', u. split; [by apply append_step|done].
Qed.
Lemma session_steps_inv lease e first start acked w s :
  session_inv lease e first [] start.1 start.2 → session_steps start acked (w, s) →
  session_inv lease e first acked w s.
Proof.
  intros Hstart Hsteps. remember (w, s) as ws eqn:Hws. revert w s Hws.
  induction Hsteps as [|acked w s w' _ IH Ho|acked w s run active ck r w' s' _ IH Hp]; intros w0 s0 Hws;
    simplify_eq.
  - done.
  - destruct (IH _ _ eq_refl) as (σ & u & Hr & Htok & Hl & Hinv).
    destruct (Ho σ u Hr) as (ops & σ' & u' & Hrun & Hr'). exists σ', u'.
    split_and!; [done|by eapply run_keeps_used|done|]. intros Hpz. destruct (Hinv Hpz) as (evs & Hf & Hk).
    exists evs. split; [done|]. by eapply kept_run.
  - destruct r as [[]|err].
    + destruct (stored_follows _ _ _ _ _ _ _ _ _ _ _ (IH _ _ eq_refl) Hp)
        as (σ & u & e' & v & Hr & Htok & Hl & _ & He' & Hsn & _ & _ & Hf).
      exists σ, u. split_and!; [done|done|done|]. intros _. exists (entry_events e'). split; [done|].
      intros _. exists e'. split; [done|by left].
    + simpl. rewrite (right_id_L [] (++)). pose proof (stored_Err _ _ _ _ _ _ _ _ Hp) as [Heq|Hpz].
      { simplify_eq. by apply IH. }
      destruct (IH _ _ eq_refl) as (σ & u & Hr & Htok & Hl & _).
      destruct (stored_world _ _ _ _ _ _ _ _ _ _ Hr Hp) as (Hl' & ops & σ' & u' & Hrun & Hr').
      exists σ', u'. split_and!; [done|by eapply run_keeps_used|congruence|congruence].
Qed.
Lemma open_start lease w σ u s w' :
  represents w σ u → token lease ∈ u → open lease w = (Ok s, w') →
  ∃ e, σ !! lease_key lease = Some e ∧ session_inv lease e (session_sequence s) [] w' s.
Proof.
  intros Hr Htok Ho. unfold open in Ho.
  destruct (store_load_spec w σ u (lease_tenant lease) (lease_run lease) Hr) as (σ' & Hstep & Hr').
  pose proof (load_step _ _ _ _ Hstep) as ->.
  destruct (store_load _ _ w) as [[[sn evs]|err] w1]; simpl in *; [|done].
  inversion Hstep as [? ? ? ? Hp| | |]; subst. destruct Hp as (e & He & [= -> ->] & _).
  injection Ho as Ho <-. inv_ok. exists e. split; [done|]. exists σ, u. simpl.
  split_and!; [done|done|done|]. intros _. exists (entry_events e). split.
  - constructor; simpl; [lia|lia|unfold budget_le; lia|]. exists []. rewrite (right_id_L [] (++)). by split.
  - intros _. exists e. split; [done|by left].
Qed.

(** C18: An acknowledged checkpoint is the stored one.  Whatever other processes do to
    the store and whatever fails, after a write of a session is acknowledged the stored run has the
    checkpoint as its state, and its log is what it was when the session was opened
    followed by one event for every acknowledged checkpoint, in order; its revision
    and the checkpoints' sequence count them, and its budget has not gone back.  A
    write that is not acknowledged did nothing, or it closes the session: no later one succeeds. *)
Theorem acknowledged_checkpoints lease w σ u s w1 :
  represents w σ u → token lease ∈ u → open lease w = (Ok s, w1) →
  ∃ e, σ !! lease_key lease = Some e ∧
  ∀ acked w2 s2 run active ck r w3 s3,
    session_steps (w1, s) acked (w2, s2) → persist run active ck (w2, s2) = (r, (w3, s3)) →
    match r with
    | Ok _ => ∃ σ' u' e' v, represents w3 σ' u' ∧ σ' !! lease_key lease = Some e' ∧
        to_value ck = Ok v ∧ state (entry_snapshot e') = Some v ∧
        follows e (session_sequence s) (acked ++ [ck]) (entry_snapshot e') (ck_sequence ck) (entry_events e')
    | Err _ => (w3, s3) = (w2, s2) ∨
        ∀ run active ck, ∃ err, persist run active ck (w3, s3) = (Err err, (w3, s3))
    end.
Proof.
  intros Hr Htok Ho. destruct (open_start _ _ _ _ _ _ Hr Htok Ho) as (e & He & Hinv). exists e. split; [done|].
  intros acked w2 s2 run active ck r w3 s3 Hsteps Hp. destruct r as [[]|err].
  - pose proof (session_steps_inv _ _ _ (w1, s) _ _ _ Hinv Hsteps) as Hinv2.
    destruct (stored_follows _ _ _ _ _ _ _ _ _ _ _ Hinv2 Hp)
      as (σ' & u' & e' & v & Hr' & _ & _ & _ & He' & Hsn & Hv & Hst & Hf).
    exists σ', u', e', v. rewrite Hsn. split_and!; [done|done|done|done|].
    apply stored_Ok in Hp as (_ & _ & next & c & _ & _ & _ & ->). done.
  - destruct (stored_Err _ _ _ _ _ _ _ _ Hp) as [|Hpz]; [by left|right]. intros. by apply stored_closed.
Qed.
End props.
