(* ===== verification/StoredStoreFs.v ===== *)
(** * StoredStoreFs: checkpoints on the filesystem store

    The filesystem store of [DurableFs] keeps the contract [StoredStoreProps] asks
    of a store, and a session on it. *)

From Stdlib Require Import SpecFloat.
From stdpp Require Import pretty.
From S2P Require Import Prelude Text Core SecurityPolicy Subagent RunTypes Approvals Codec Compaction.
From S2P Require Import Runner Checkpoint RunnerDurable Durable DurableSpec DurableCodec DurableFs.
From S2P Require Import StoredStore StoredStoreProps.

Section fs_store.
Context {V B Value T64 : Type} {Ch : Chrono}.
Context {J : JsonLib B Value T64} {Sd : Serde B Value (FileRecord Value)} {C : DocCodec B V}.
Context (options : StoreOptions V B).

(** The disk, the tokens drawn so far, and how many calls were made; the other
    arguments say what each call meets. *)
Record FsWorld := mkFsWorld { disk : Fs B; tokens : gset string; call_count : nat }.
Context (env_at : nat → Env) (check_at now_at : nat → time) (id_at : nat → nat → string).

(** [load] returns nothing but what it loaded, [append] nothing but a snapshot. *)
Definition loaded (r : Result (Ret (V := V))) : Result (RunSnapshot V * list (Event V)) :=
  match r with Ok (RetLoaded s evs) => Ok (s, evs) | Ok _ => Err NotFound | Err e => Err e end.
Definition appended (r : Result (Ret (V := V))) : Result (RunSnapshot V) :=
  match r with Ok (RetSnapshot s) => Ok s | Ok _ => Err NotFound | Err e => Err e end.
Definition next_call (fs : Fs B) (w : FsWorld) : FsWorld := mkFsWorld fs (tokens w) (S (call_count w)).
#[local] Instance fs_store : RunStore (Value := V) (S := FsWorld) := {|
  store_load t r w :=
    let '(res, fs) := load options (env_at (call_count w)) t r (disk w) in (loaded res, next_call fs w);
  store_append l n evs s w :=
    let i := call_count w in
    let '(res, fs) := append options (env_at i) (check_at i) (now_at i) (id_at i) l n evs s (disk w) in
    (appended res, next_call fs w);
|}.

Definition fs_represents (w : FsWorld) (σ : gmap key (Entry V)) (used : gset string) : Prop :=
  refines options (disk w) σ ∧ used = tokens w.

Lemma stored_functional data e e' : stored options data e → stored options data e' → e = e'.
Proof.
  intros (v & Hu & Hd) (v' & Hu' & Hd'). rewrite Hu in Hu'. injection Hu' as <- Hl.
  rewrite Hd in Hd'. injection Hd' as Hs Hev. destruct e, e'; simpl in *; congruence.
Qed.
Lemma refines_functional fs σ σ' : refines options fs σ → refines options fs σ' → σ = σ'.
Proof.
  intros H1 H2. apply map_eq. intros k. destruct (σ !! k) as [e|] eqn:He.
  - pose proof (ref_entry _ _ _ H1 _ _ He) as (_ & _ & _ & data & Hd & Hst).
    destruct (proj2 (lookup_is_Some_iff _ _ _ k H2)) as [e' He']; [by eexists|].
    pose proof (ref_entry _ _ _ H2 _ _ He') as (_ & _ & _ & data' & Hd' & Hst'). simplify_eq.
    rewrite He'. f_equal. by eapply stored_functional.
  - symmetry. apply (refines_files _ _ _ _ H2). by apply (refines_files _ _ _ _ H1).
Qed.

Context {FL : FileLaws options}.
#[local] Instance fs_store_laws : RunStoreLaws (opt_redactor options) fs_represents.
Proof.
  constructor.
  - intros w σ u σ' u' [H1 ->] [H2 ->]. split; [by eapply refines_functional|done].
  - intros w σ u t r [Href ->]. simpl.
    destruct (sim_load options (env_at (call_count w)) (disk w) σ (t, r) Href) as (σ' & Hs & Href').
    simpl in Hs, Href'. destruct (load _ _ _ _ _) as [res fs]. exists σ'. simpl. split; [|done].
    destruct res as [a|e]; [|done]. simpl in Hs. inversion Hs as [? ? ? ? Hp| | |]; subst.
    pose proof Hp as (e & _ & -> & _). done.
  - intros w σ u l n evs s [Href ->]. simpl. set (i := call_count w).
    exists (check_at i), (now_at i), (id_at i).
    destruct (sim_append options (env_at i) (disk w) σ (check_at i) (now_at i) (id_at i) l n evs s Href)
      as (σ' & Hs & Href').
    destruct (append _ _ _ _ _ _ _ _ _ _) as [res fs]. exists σ'. simpl in *. split; [|done].
    destruct res as [a|e]; [|done]. simpl in Hs. inversion Hs as [? ? ? ? Hp| | |]; subst.
    pose proof Hp as (e & s' & evs' & _ & _ & _ & _ & -> & _). done.
Qed.
End fs_store.

(** ** Witness: two checkpoints of a run on the disk of [DurableFs] *)

Section demo_stored.
#[local] Existing Instance fs_chrono.
#[local] Existing Instance tree_json.
#[local] Existing Instance tree_serde.
#[local] Existing Instance tree_codec.
#[local] Existing Instance tree_laws.
#[local] Existing Instance fs_store.
#[local] Existing Instance fs_store_laws.

Definition demo_store : RunStore (Value := unit) (S := FsWorld) :=
  fs_store tree_options (λ _, quiet) (λ _, 20%Z) (λ _, 20%Z) (λ i j, "event_" +:+ pretty i +:+ "_" +:+ pretty j).
#[local] Existing Instance demo_store.
#[local] Instance demo_serde : CheckpointSerde (Value := unit) :=
  {| to_value _ := Ok tt; read_value _ := Err "not a checkpoint" |}.
#[local] Instance demo_store_laws : RunStoreLaws None (fs_represents tree_options) :=
  fs_store_laws tree_options _ _ _ _.

Definition demo_runtime (tokens : N) : RuntimeCheckpoint unit :=
  mkRuntime 1 "model_completed" 5 None "agents"
    (mkRunResult RunIncomplete None [] [] [] (mkUsage tokens 2 0 0 None) [] (Some "first"))
    default_run_policy None 0 ModelPhase [] 1 (f64_of_N 1) 0 false None None 0 false ∅ [] false [].
Definition demo_checkpoint (sequence tokens : N) : RunnerCheckpoint unit :=
  mkCheckpoint 1 "run_1" "attempt" "step" sequence "model_completed" "first" [] None
    (mkUsageData 1 0 0 0 0) None 7 (Some (demo_runtime tokens)) None.

Definition demo_world : FsWorld := mkFsWorld demo_fs1 {["lease_a"]} 0.
Definition demo_session : StoredSession (Value := unit) := mkSession demo_lease1 demo_snapshot 0 false.
Definition demo_write (ck : RunnerCheckpoint unit) (ws : FsWorld * StoredSession (Value := unit)) :
    result Error unit * (FsWorld * StoredSession (Value := unit)) :=
  persist "run_1" (λ _, Ok tt) ck ws.
Definition demo_opened : FsWorld := (open demo_lease1 demo_world).2.
Definition demo_first : FsWorld * StoredSession (Value := unit) :=
  (demo_write (demo_checkpoint 1 10) (demo_opened, demo_session)).2.
Definition demo_second : FsWorld * StoredSession (Value := unit) :=
  (demo_write (demo_checkpoint 2 25) demo_first).2.

Lemma acknowledged_checkpoints_witness :
  ∃ σ u e, fs_represents tree_options demo_second.1 σ u ∧ σ !! demo_key = Some e ∧
    revision (entry_snapshot e) = 2%N ∧ length (entry_events e) = 2.
Proof.
  destruct (acknowledged_checkpoints None (fs_represents tree_options) demo_lease1 demo_world
    {[demo_key := demo_entry]} {["lease_a"]} demo_session demo_opened) as (e & He & H).
  - split; [exact demo_refines1|reflexivity].
  - set_solver.
  - vm_compute. reflexivity.
  - rewrite lookup_singleton_eq in He. injection He as <-.
    specialize (H [demo_checkpoint 1 10] demo_first.1 demo_first.2 "run_1" (λ _, Ok tt)
      (demo_checkpoint 2 25) (Ok tt) demo_second.1 demo_second.2).
    destruct H as (σ & u & e & v & Hr & He & Hv & Hst & Hf).
    + change [demo_checkpoint 1 10] with ([] ++ if is_ok (Ok tt : result Error unit) then [demo_checkpoint 1 10] else []).
      eapply (steps_persist None (fs_represents tree_options) _ [] demo_opened demo_session "run_1" (λ _, Ok tt));
        [apply steps_none|vm_compute; reflexivity].
    + vm_compute. reflexivity.
    + exists σ, u, e. split_and!; [exact Hr|exact He| |].
      * exact (follows_revision _ _ _ _ _ _ Hf).
      * destruct (follows_events _ _ _ _ _ _ Hf) as (new & -> & Hnew). by apply Forall2_length in Hnew.
Defined.
End demo_stored.
