(* ===== verification/GoMigration.v ===== *)
(** * GoMigration: checkpoints written by the Go runtime

    [Runner::migrate_go_checkpoint] of [crates/adk-runtime/src/durable.rs]: a
    checkpoint of the earlier Go runtime has no continuation; the host supplies what
    is missing ([GoRecovery]) and the migration makes one that the recovery of
    [RunnerDurable] takes. *)

From Stdlib Require Import SpecFloat.
From S2P Require Import Prelude Text Durable Core SecurityPolicy Subagent.
From S2P Require Import RunTypes Approvals Codec Compaction Runner Checkpoint RunnerDurable.

(** What the host has verified of the run: totals, not deltas. *)
Record GoRecovery {Value : Type} := mkGoRecovery {
  go_policy : RunPolicy;
  go_stop_gate_blocks : option N;
  go_effective_max_turns : option N;
  go_turns : N;
  go_usage : Usage;
  go_cost : f64;
  go_tool_calls : N;
  go_started_at : time;
  go_deadline_at : option time;
  go_final_output : option Value;
}.
Arguments GoRecovery : clear implicits.
Arguments mkGoRecovery {_}.

Section migration.
Context {Value X : Type} `{EqDecision Value} {J : JsonValue Value}.
Context {base : Setup Value X} (dout : DurableOutside (Value := Value) (X := X)).
Notation Item := (RunItem Value).
Notation Entry := (ApprovalJournalEntry Value).
Notation RunnerCheckpoint := (RunnerCheckpoint Value).

Definition go_boundary (b : string) : bool :=
  is_one_of b ["run_started"; "run_completed"; "tool_completed"; "handoff_completed"; "paused"; "child_changed"].

(** [u64::try_from] of an [i64] *)
Definition unsigned (n : Z) : result Error N :=
  if (0 <=? n)%Z then Ok (Z.to_N n)
  else Err (invalid_input "out of range integral type conversion attempted").
(** The counters do not go back; the disjunction stops at its first true term. *)
Fixpoint all_reached (totals : list (N * Z)) : result Error bool :=
  match totals with
  | [] => Ok true
  | (now, before) :: totals =>
      n ← unsigned before;
      if (now <? n)%N then Ok false else all_reached totals
  end.
Definition check_totals (u : UsageData) (r : GoRecovery Value) : result Error unit :=
  reached ← all_reached
    [(go_turns r, data_requests u); (input_tokens (go_usage r), data_input_tokens u);
     (output_tokens (go_usage r), data_output_tokens u);
     (cache_read_tokens (go_usage r), data_cache_read_tokens u);
     (cache_creation_tokens (go_usage r), data_cache_create_tokens u)];
  ensure (reached && is_finite (go_cost r) && negb (f64_ltb (go_cost r) f64_zero))
    (invalid_input "verified counters cannot decrease Go checkpoint totals").

(** The wire item of a snapshot other than an approval; a reasoning or a compaction
    is read back from its JSON, whose fields are those of the wire's. *)
Definition snapshot_agent (item : RunItemSnapshot Value) : option string :=
  if String.eqb (snap_agent_name item) "" then None else Some (snap_agent_name item).
Definition migrate_wire (item : RunItemSnapshot Value) : result Error (WireItem Value) :=
  let agent := snapshot_agent item in
  match snap_kind item with
  | SnapMessage =>
      Ok (mkWire 0 agent (Some (mkMessageOutput (snap_message_text item) (snap_message_phase item)
            (snap_message_images item))) None None None None None None None)
  | SnapToolCall =>
      call ← ok_or (snap_tool_call item) (invalid_input "missing Go tool call");
      Ok (mkWire 1 agent None (Some call) None None None None None None)
  | SnapToolOutput => Ok (mkWire 2 agent None None (snap_tool_output item) None None None None None)
  | SnapReasoning =>
      r ← ok_or (snap_reasoning item) (invalid_input "missing Go reasoning payload");
      Ok (mkWire 5 agent None None None None None
            (Some (mkReasoning (snap_reasoning_id r) (snap_reasoning_text r) (snap_signature r)
                     (snap_redacted_data r) (snap_encrypted_content r))) None None)
  | SnapCompaction =>
      c ← ok_or (snap_compaction item) (invalid_input "missing Go compaction payload");
      Ok (mkWire 7 agent None None None None None None (Some c) None)
  | _ => Err (unsupported "Go approval/handoff/unknown history requires explicit migration")
  end.
(** One item of the history, or one entry of the approval journal. *)
Definition migrate_item (acc : list Item * list Entry) (item : RunItemSnapshot Value)
    : result Error (list Item * list Entry) :=
  let '(history, journal) := acc in
  if bool_decide (snap_kind item = SnapToolApproval) then
    data ← ok_or (snap_tool_approval item) (invalid_input "missing Go approval payload");
    let m := mkApprovalMarker data (if approved data then PhaseApproved else PhasePending)
               (snapshot_agent item) in
    Ok (history, journal ++ [mkEntry m 0 (Some (length history)) None])
  else
    wire ← migrate_wire item;
    i ← bridge_invalid (decode_item wire);
    Ok (history ++ [i], journal).

(** The blocks of the stop gate and the turns it has granted. *)
Definition migrate_gate (r : GoRecovery Value) : result Error (N * RunPolicy) :=
  let p := go_policy r in
  if stop_gate config then
    blocks ← ok_or (go_stop_gate_blocks r)
      (invalid_input "Go stop gate migration requires verified block count");
    turns ← ok_or (go_effective_max_turns r)
      (invalid_input "Go stop gate migration requires verified effective turn limit");
    _ ← ensure (negb ((stop_gate_max_blocks config <? blocks)%N || (turns <? max_turns p)%N))
      (invalid_input "invalid verified Go stop gate state");
    Ok (blocks, mkRunPolicy turns (tools p) (tool_use p))
  else Ok (0%N, p).

Definition check_go (ck : RunnerCheckpoint) : result Error unit :=
  _ ← ensure ((ck_schema_version ck =? 1)%N && negb (bool_decide (is_Some (ck_runtime ck))))
    (unsupported "migration requires a baseline Go schema-1 checkpoint");
  _ ← ensure (go_boundary (ck_boundary ck))
    (unsupported "Go boundary requires operator reconciliation; prepared does not prove undispatched");
  _ ← ensure (negb (bool_decide (is_Some (ck_effect ck)) || interrupted (ck_interruptions ck)))
    (unsupported "Go child, effect or approval state requires reconciliation");
  match ck_children ck with
  | Some children => if is_null children then Ok tt else _ ← reconcile_children children; Ok tt
  | None => Ok tt
  end.

Definition migrated_runtime (ck : RunnerCheckpoint) (r : GoRecovery Value) (fingerprint : string)
    (history : list Item) (journal : list Entry) (blocks : N) (p : RunPolicy) : RuntimeCheckpoint Value :=
  let completed := String.eqb (ck_boundary ck) "run_completed" in
  mkRuntime 1 (ck_boundary ck) (go_started_at r) (go_deadline_at r) fingerprint
    (mkRunResult (if completed then RunCompleted else RunIncomplete) (go_final_output r) [] history []
       (go_usage r) [] (Some (ck_agent_name ck)))
    p (Some (max_turns (go_policy r))) blocks (if completed then Finish else ModelPhase) []
    (go_turns r) (go_cost r) (go_tool_calls r) false None None 0 false ∅ []
    (negb (bool_decide (length journal = 0%nat))) journal.
Definition with_runtime (ck : RunnerCheckpoint) (rt : RuntimeCheckpoint Value) : RunnerCheckpoint :=
  mkCheckpoint (ck_schema_version ck) (ck_run_id ck) (ck_attempt_id ck) (ck_step_id ck) (ck_sequence ck)
    (if String.eqb (ck_boundary ck) "run_completed" then ck_boundary ck else "model_completed")
    (ck_agent_name ck) (ck_history ck) (ck_interruptions ck) (ck_usage ck) (ck_children ck)
    (ck_created_at ck) (Some rt) (ck_effect ck).

(** [Runner::migrate_go_checkpoint], for the agents in the order of their visit. *)
Definition migrate_go_checkpoint (visited : list N) (ck : RunnerCheckpoint) (r : GoRecovery Value)
    : result Error RunnerCheckpoint :=
  _ ← check_go ck;
  _ ← check_totals (ck_usage ck) r;
  '(history, journal) ← foldM migrate_item ([], []) (ck_history ck);
  _ ← validate_history_pairs history;
  _ ← ensure (negb (String.eqb (ck_boundary ck) "run_completed" && negb (bool_decide (is_Some (go_final_output r)))))
    (invalid_input "terminal Go migration requires verified final output");
  '(blocks, p) ← migrate_gate r;
  fingerprint ← durable_fingerprint dout visited;
  Ok (with_runtime ck (migrated_runtime ck r fingerprint history journal blocks p)).
End migration.
