(* ===== verification/GoMigrationProps.v ===== *)
(** * GoMigrationProps: a migrated checkpoint is recovered

    [GoMigration] composed with the codec ([Codec]) and the recovery
    ([RunnerDurable]). *)

From Stdlib Require Import SpecFloat.
From S2P Require Import Prelude Text Durable Core SecurityPolicy Subagent.
From S2P Require Import RunTypes Approvals Codec CodecProps Compaction Runner Checkpoint RunnerDurable.
From S2P Require Import RunnerDurableProps RunnerExample GoMigration.

Section migration.
Context {Value X : Type} `{EqDecision Value} {J : JsonValue Value}.
Context {base : Setup Value X} (dout : DurableOutside (Value := Value) (X := X)).
Notation Item := (RunItem Value).
Notation Entry := (ApprovalJournalEntry Value).

(** ** Items *)

Lemma named_agent agent :
  agent ≠ Some "" → (if String.eqb (default "" agent) "" then None else Some (default "" agent)) = agent.
Proof. destruct agent as [n|]; [|done]. simpl. by destruct (String.eqb_spec n ""); subst. Qed.

Lemma migrate_encoded (i : Item) agent w :
  encode_item i agent = Ok w → agent ≠ Some "" →
  snap_kind (snapshot_item w) ≠ SnapToolApproval ∧ migrate_wire (snapshot_item w) = Ok w.
Proof.
  intros He Ha.
  apply named_agent in Ha as Hag.
  destruct i; unfold encode_item, encode_message in He; inv_ok;
    repeat match goal with x : _ * _ |- _ => destruct x end; inv_ok;
    unfold migrate_wire, snapshot_agent; simpl; rewrite Hag; (split; [done|]); try done.
  by match goal with x : Reasoning |- _ => destruct x end.
Qed.
Lemma migrate_snapshot (w : WireItem Value) (i : Item) :
  decode_item w = Ok i → wire_agent w ≠ Some "" →
  snap_kind (snapshot_item w) ≠ SnapToolApproval ∧ migrate_wire (snapshot_item w) = Ok w.
Proof. intros (He & _ & _)%decode_item_Ok. by eapply migrate_encoded. Qed.

(** ** Histories *)

(** A marker in the journal of a migrated run. *)
Definition entry_of (m : ApprovalMarkerBoundary Value) : Entry :=
  mkEntry (marker m) 0 (Some (before_item m)) None.
Lemma migrate_history (acc : list Item) journal wire phases (h : NativeHistory Value) :
  decode_from (length acc) wire phases = Ok h →
  Forall (λ w : WireItem Value, wire_agent w ≠ Some "") wire → PhaseDenied ∉ phases →
  foldM migrate_item (acc, journal) (snapshot_items wire)
  = Ok (acc ++ native_items h, journal ++ (entry_of <$> native_markers h)).
Proof.
  unfold snapshot_items. revert acc journal phases h. induction wire as [|w wire IH]; intros acc journal phases h.
  { simpl. intros Hh _ _. inv_ok. case_bool_decide; simplify_eq/=. by rewrite !(right_id_L [] (++)). }
  cbn [decode_from fmap list_fmap foldM]. intros Hh [Ha Hw]%Forall_cons Hp.
  destruct (Z.eqb_spec (wire_kind w) 6) as [Hk|Hk].
  - apply bind_Ok in Hh as (data & Hdata & Hh). destruct phases as [|p phases]; [done|].
    apply bind_Ok in Hh as (again & Hto & ([] & He%ensure_Ok%bool_decide_eq_true & Hh)%bind_Ok). subst again.
    apply bind_Ok in Hh as (h1 & Hh & [= <-]). apply not_elem_of_cons in Hp as [Hpd Hp].
    unfold to_wire in Hto. apply bind_Ok in Hto as ([] & Hv & [= <-]). simpl in Hdata, Ha, Hk.
    apply ensure_Ok, bool_decide_eq_true in Hv. simpl in Hv.
    unfold migrate_item at 1. simpl. unfold snapshot_agent. simpl. rewrite named_agent by done.
    assert ((if approved data then PhaseApproved else PhasePending) = p) as ->.
    { rewrite Hv. by destruct p. }
    rewrite (IH _ _ _ _ Hh) by done. by rewrite <-(assoc_L (++)).
  - apply bind_Ok in Hh as (i & Hi & Hh). apply bind_Ok in Hh as (h1 & Hh & [= <-]).
    destruct (migrate_snapshot _ _ Hi Ha) as [Hsk Hmw].
    unfold migrate_item at 1. rewrite bool_decide_false by done. rewrite Hmw. simpl. rewrite Hi. simpl.
    rewrite (IH _ _ phases h1); [by rewrite <-(assoc_L (++))| |done|done].
    rewrite length_app. simpl. by rewrite Nat.add_1_r.
Qed.

(** Where every call has an identifier of its own, what is answered once is nowhere
    pending. *)
Definition call_ids (l : list Item) : list string :=
  omap (λ i, match i with ItemToolCall c => Some (call_id c) | _ => None end) l.
Lemma scan_pairs pending seen (l : list Item) (left : gset string) :
  NoDup (call_ids l) → (∀ id, id ∈ call_ids l → id ∉ seen) → dom pending ⊆ seen →
  pairs_from (dom pending) l = Ok left → ∃ p, scan_history pending seen l = Ok p ∧ dom p = left.
Proof.
  revert pending seen. induction l as [|i l IH]; intros pending seen Hnd Hseen Hsub Hp.
  { simpl in *. simplify_eq. by exists pending. }
  destruct i as [m|m ph|c|id o|id g|r|c]; simpl in Hp; try by apply IH.
  - cbn in Hnd. apply NoDup_cons in Hnd as [Hn Hnd]. case_bool_decide as Hd; [done|].
    cbn [scan_history]. rewrite bool_decide_false by (apply Hseen; cbn; by left).
    apply IH; [done| | |by rewrite dom_insert_L].
    + intros id Hid [->%elem_of_singleton|Hin]%elem_of_union; [done|]. eapply Hseen; [|done]. cbn. by right.
    + rewrite dom_insert_L. set_solver.
  - case_bool_decide as Hd; [|done]. cbn [scan_history]. rewrite bool_decide_true by by apply elem_of_dom.
    apply IH; [done|done|set_solver|by rewrite dom_delete_L].
  - case_bool_decide as Hd; [|done]. cbn [scan_history]. rewrite bool_decide_true by by apply elem_of_dom.
    apply IH; [done|done|set_solver|by rewrite dom_delete_L].
Qed.
Lemma scan_answered (l : list Item) :
  NoDup (call_ids l) → validate_history_pairs l = Ok tt → scan_history ∅ ∅ l = Ok ∅.
Proof.
  intros Hnd Hv. unfold validate_history_pairs in Hv. apply bind_Ok in Hv as (left & Hp & Hl).
  apply ensure_Ok, bool_decide_eq_true in Hl as ->.
  destruct (scan_pairs ∅ ∅ l ∅ Hnd) as (p & Hs & Hd); [set_solver|set_solver|by rewrite dom_empty_L|].
  by apply dom_empty_inv_L in Hd as ->.
Qed.

Lemma restore_migrated len previous (ms : list (ApprovalMarkerBoundary Value)) :
  check_boundaries len previous ms = Ok tt →
  restore_journal (entry_of <$> ms) len 0 = Ok (mkJournal (entry_of <$> ms) false).
Proof.
  intros Hc. unfold restore_journal.
  match goal with |- context[mapR ?f ?l] => assert (∃ us, mapR f l = Ok us) as [us ->]; [|done] end.
  revert previous Hc. induction ms as [|m ms IH]; intros previous Hc; [by eexists|].
  apply check_boundaries_cons in Hc as (Hb & Hv & Hc). destruct (IH _ Hc) as [us Hus].
  csimpl. rewrite Hv. csimpl. replace (len <? before_item m) with false by (symmetry; apply Nat.ltb_ge; lia).
  csimpl. rewrite Hus. by eexists.
Qed.
Lemma go_boundary_resumable b : go_boundary b = true → resumable_boundary b = true.
Proof.
  unfold go_boundary, resumable_boundary, is_one_of. rewrite !existsb_exists.
  intros (x & Hx & He). exists x. split; [|done]. simpl in *. tauto.
Qed.

(** ** Recovery *)

Lemma migrate_gate_Ok (r : GoRecovery Value) blocks p :
  migrate_gate r = Ok (blocks, p) →
  tools p = tools (go_policy r) ∧ tool_use p = tool_use (go_policy r)
  ∧ (max_turns (go_policy r) <= max_turns p)%N
  ∧ (stop_gate config = false → p = go_policy r ∧ blocks = 0%N)
  ∧ (stop_gate config = true → (blocks <= stop_gate_max_blocks config)%N).
Proof.
  unfold migrate_gate. destruct (stop_gate config); intros Hm; inv_ok; bools.
  - simpl. split_and!; try done; lia.
  - split_and!; try done; lia.
Qed.
Lemma migrated_configuration (r : GoRecovery Value) ck f hist j blocks p :
  migrate_gate r = Ok (blocks, p) →
  same_configuration (migrated_runtime ck r f hist j blocks p) p (go_policy r) f = true.
Proof.
  intros (Ht & Hu & Hle & Hoff & Hon)%migrate_gate_Ok. unfold same_configuration, original_policy. simpl.
  rewrite String.eqb_refl, Ht, Hu. simpl. rewrite orb_false_r.
  assert (mkRunPolicy (max_turns (go_policy r)) (tools (go_policy r)) (tool_use (go_policy r)) = go_policy r)
    as -> by by destruct (go_policy r).
  rewrite bool_decide_true by done. rewrite orb_false_r. apply negb_true_iff. rewrite !orb_false_iff.
  destruct (stop_gate config); simpl.
  - split_and!; [done|done|apply N.ltb_ge; lia|apply N.ltb_ge; auto].
  - destruct (Hoff eq_refl) as [-> ->]. rewrite !N.eqb_refl, !andb_false_r.
    split_and!; [done|done|apply N.ltb_ge; lia|apply N.ltb_ge; lia].
Qed.
Lemma check_go_Ok (ck : RunnerCheckpoint Value) :
  check_go ck = Ok tt →
  ck_schema_version ck = 1%N ∧ go_boundary (ck_boundary ck) = true ∧ ck_effect ck = None
  ∧ interrupted (ck_interruptions ck) = false.
Proof.
  unfold check_go. intros (? & H1%ensure_Ok & (? & H2%ensure_Ok & (? & H3%ensure_Ok & _)%bind_Ok)%bind_Ok)%bind_Ok.
  apply andb_true_iff in H1 as [H1%N.eqb_eq _]. apply negb_true_iff, orb_false_iff in H3 as [H3 H4].
  apply bool_decide_eq_false in H3. split_and!; [done|done|by apply eq_None_not_Some|done].
Qed.
Lemma check_totals_cost u (r : GoRecovery Value) :
  check_totals u r = Ok tt → is_finite (go_cost r) && negb (f64_ltb (go_cost r) f64_zero) = true.
Proof.
  unfold check_totals. intros (b & _ & Hb%ensure_Ok)%bind_Ok. by destruct b.
Qed.

(** C19: A migrated Go checkpoint is recovered.  Let the migration accept a checkpoint whose
    history is the snapshot of a wire history that decodes, names no agent by the empty
    string, has no denial among its approvals, each of them with the call it is about, and
    does not use a call id twice.  The migration does not ensure all of this (it lets a history pass
    that uses a call id twice).  Then a new attempt, with another id, at the same run, that is not a child and
    has no children, with no input, under the host's policy and the fingerprint of the agents,
    each of which has a name of its own and one the name of the checkpoint, whose sequence and step are set,
    recovers from it: the run goes on after (or is complete with) the native history that the
    wire history decodes to, its approvals in the journal at their places, with the verified usage,
    turns, cost and tool calls, and nothing left to call. *)
Theorem migration_recovers ck (r : GoRecovery Value) visited ck' wire phases h request initial streaming sender
    st now instant a :
  migrate_go_checkpoint dout visited ck r = Ok ck' →
  ck_history ck = snapshot_items wire → decode_history wire phases = Ok h →
  Forall (λ w : WireItem Value, wire_agent w ≠ Some "") wire → PhaseDenied ∉ phases →
  Forall (λ m, is_ok (approval_call (marker_data (marker m))) = true) (native_markers h) →
  NoDup (call_ids (native_items h)) →
  child = false → ck_run_id ck = context_run_id out → ds_attempt_id st ≠ ck_attempt_id ck →
  ck_children ck = None → ck_sequence ck ≠ 0%N → ck_step_id ck ≠ "" →
  run_input request = [] → run_policy request = go_policy r →
  durable_fingerprint dout visited = Ok (ds_fingerprint st) →
  NoDup ((λ b, agent_name (agents b)) <$> visited) → a ∈ visited → agent_name (agents a) = ck_agent_name ck →
  ∃ o, recover_checkpoint visited (new_engine initial request streaming sender) st now instant ck' = Ok o ∧
    entrance o = (if String.eqb (ck_boundary ck) "run_completed" then EnterCompleted else EnterRun) ∧
    opened_limit o = max_turns (go_policy r) ∧
    ds_sequence (opened_state o) = ck_sequence ck ∧ ds_tool_calls (opened_state o) = go_tool_calls r ∧
    ds_started_at (opened_state o) = go_started_at r ∧
    let e := opened_engine o in
    agent e = a ∧ calls e = [] ∧ history (run_result e) = native_items h ∧
    entries (approval_journal e) = entry_of <$> native_markers h ∧
    usage (run_result e) = go_usage r ∧ engine_turns e = go_turns r ∧ engine_cost e = go_cost r.
Proof.
  intros Hm Hh Hdec Hag Hden Hcalls Hnd Hchild Hrun Hatt Hch Hseq Hstep Hin Hpol Hfp Hnames Ha Hname.
  unfold migrate_go_checkpoint in Hm. apply bind_Ok in Hm as ([] & Hgo%check_go_Ok & Hm).
  destruct Hgo as (Hver & Hb & Heff & Hint).
  apply bind_Ok in Hm as ([] & Hcost%check_totals_cost & Hm).
  rewrite Hh, (migrate_history [] [] wire phases h Hdec Hag Hden) in Hm. simpl in Hm.
  apply bind_Ok in Hm as ([] & Hpairs & Hm). apply bind_Ok in Hm as ([] & _ & Hm).
  apply bind_Ok in Hm as ([blocks p] & Hgate & Hm). rewrite Hfp in Hm. injection Hm as <-.
  apply decode_from_encode in Hdec as (_ & Hbound & _). simpl in Hbound.
  destruct (restore_approvals_Ok [] (entry_of <$> native_markers h) ∅) as (apps & Happs).
  { intros x (m & -> & Hmm)%list_elem_of_fmap. rewrite Forall_forall in Hcalls. by apply Hcalls. }
  unfold recover_checkpoint, check_envelope, check_configuration, adopt_policy, check_consistency, check_settled.
  cbn [with_runtime ck_schema_version ck_run_id ck_attempt_id ck_children ck_interruptions ck_runtime
    ck_sequence ck_step_id ck_agent_name ck_effect execution_boundary].
  rewrite Hver, Hrun, Hch, Hint, Heff, String.eqb_refl, Hchild.
  simpl. rewrite Hin, Hpol, (migrated_configuration _ _ _ _ _ _ _ Hgate).
  destruct (String.eqb_spec (ck_attempt_id ck) (ds_attempt_id st)); [congruence|]. simpl.
  destruct (N.eqb_spec (ck_sequence ck) 0); [done|]. destruct (String.eqb_spec (ck_step_id ck) ""); [done|].
  rewrite (bool_decide_true (Some (ck_agent_name ck) = _)) by done. simpl. rewrite (scan_answered _ Hnd Hpairs), Hcost, go_boundary_resumable by done.
  unfold queue_matches. simpl. rewrite (bool_decide_true (∅ = ∅)), andb_false_r by done. simpl.
  assert (∀ l : list Entry, negb (negb (bool_decide (length l = 0)) && bool_decide (length l = 0)
    && negb (ck_boundary ck =? "run_completed")%string) = true) as -> by (intros l; by case_bool_decide).
  simpl. rewrite <-Hname, last_named by done. simpl.
  rewrite (restore_migrated _ _ _ Hbound). simpl. rewrite Happs. simpl.
  rewrite andb_false_r. destruct (ck_boundary ck =? "run_completed")%string.
  all: eexists; split; [reflexivity|]; simpl.
  all: by split_and!.
Qed.
End migration.

(** ** A Go checkpoint after a tool *)

Definition go_wire : list (WireItem string) :=
  [mkWire 0 None (Some (mkMessageOutput "go" "" [])) None None None None None None None;
   mkWire 1 (Some "first") None (Some (mkToolCallData "c1" "read" (Present ""))) None None None None None None;
   mkWire 6 (Some "first") None None None None None None None
     (Some (mkToolApprovalData "read" (Present "") "c1" true));
   mkWire 2 (Some "first") None None (Some (mkToolOutputData [] "c1" "done" false)) None None None None None].
Definition go_native : NativeHistory string :=
  match decode_history go_wire [PhaseApproved] with Ok h => h | Err _ => mkNative [] [] [] end.
Definition go_checkpoint : RunnerCheckpoint string :=
  mkCheckpoint 1 (context_run_id script_outside) "attempt-1" "step" 4 "tool_completed" "first" (snapshot_items go_wire) None
    (mkUsageData 1 10 5 0 0) None 7 None None.
Definition go_recovery : GoRecovery string :=
  mkGoRecovery sample_policy None None 1 (mkUsage 10 5 0 0 None) f64_zero 1 3 None None.
Definition go_migrated : RunnerCheckpoint string :=
  match migrate_go_checkpoint durable_script [0%N] go_checkpoint go_recovery with Ok c => c | Err _ => go_checkpoint end.
Definition go_state : DurableState string :=
  mkDurable false None 9 None "attempt-2" 0 "later"
    (match durable_fingerprint durable_script [0%N] with Ok f => f | Err _ => "" end) None 0.
Lemma migration_recovers_witness :
  ∃ o, recover_checkpoint [0%N] (new_engine 0 (mkRunRequest [] sample_policy) false false) go_state 9 9 go_migrated = Ok o
    ∧ history (run_result (opened_engine o)) = native_items go_native
    ∧ length (native_markers go_native) = 1%nat.
Proof.
  destruct (migration_recovers durable_script go_checkpoint go_recovery [0%N] go_migrated go_wire [PhaseApproved]
    go_native (mkRunRequest [] sample_policy) 0 false false go_state 9 9 0) as (o & Ho & Hr);
    try (vm_compute; reflexivity); try (vm_compute; discriminate).
  - repeat constructor; discriminate.
  - apply (bool_decide_unpack _). vm_compute. exact I.
  - repeat constructor.
  - apply (bool_decide_unpack _). vm_compute. exact I.
  - apply (bool_decide_unpack _). vm_compute. exact I.
  - apply (bool_decide_unpack _). vm_compute. exact I.
  - exists o. split; [exact Ho|]. split; [apply Hr|vm_compute; reflexivity].
Defined.
