(* ===== verification/CompactionProps.v ===== *)
(** * CompactionProps: what a compaction keeps, and that it is well formed

    A local compaction keeps what it must, puts one summary in the place of the
    rest, and is used only when it is smaller; its finalization answers every
    call exactly once, but for the calls answered by a handoff. *)

From Stdlib Require Import SpecFloat.
From S2P Require Import Prelude Text Core RunTypes Compaction.

Section keeping.
Context {Value : Type}.
Notation HistoryItem := (HistoryItem Value).
Context (to_string : Value → string).
Context (summarize summarize_terse : list HistoryItem → nat → string).
Implicit Types items : list HistoryItem.

(** The items at protected positions, counted from [index]. *)
Fixpoint kept (protected : gset nat) (index : nat) (items : list HistoryItem) : list HistoryItem :=
  match items with
  | [] => []
  | item :: items =>
      if bool_decide (index ∈ protected) then item :: kept protected (S index) items
      else kept protected (S index) items
  end.
(** [l] with one [x] put in somewhere. *)
Definition with_one {A} (x : A) (l k : list A) : Prop := ∃ l1 l2, l = l1 ++ l2 ∧ k = l1 ++ x :: l2.

Lemma rebuild_inserted protected defer summary index items :
  rebuild_from protected defer summary index true items = kept protected index items.
Proof.
  revert index. induction items as [|x items IH]; intros index; simpl; [done|].
  rewrite !andb_false_r. simpl. case_bool_decide; by rewrite IH.
Qed.
Lemma with_one_cons {A} (x y : A) l k : with_one x l k → with_one x (y :: l) (y :: k).
Proof. intros (l1 & l2 & -> & ->). by exists (y :: l1), l2. Qed.
Lemma rebuild_here protected summary index items :
  (∃ i, index <= i < index + length items ∧ i ∉ protected) →
  with_one (summary_item summary) (kept protected index items)
    (rebuild_from protected None summary index false items).
Proof.
  revert index. induction items as [|x items IH]; intros index (i & Hi & Hp); simpl in *; [lia|].
  case_bool_decide as Hin.
  - apply with_one_cons, IH. exists i.
    split; [|done]. assert (i ≠ index) by congruence. lia.
  - rewrite rebuild_inserted. by exists [], (kept protected (S index) items).
Qed.
Lemma rebuild_deferred protected summary d index items :
  index <= d < index + length items → d ∈ protected →
  with_one (summary_item summary) (kept protected index items)
    (rebuild_from protected (Some d) summary index false items).
Proof.
  revert index. induction items as [|x items IH]; intros index Hd Hp; simpl in *; [lia|].
  destruct (decide (index = d)) as [->|Hne].
  - rewrite (bool_decide_eq_true_2 (d ∈ protected)) by done.
    rewrite bool_decide_eq_true_2 by done. simpl. rewrite rebuild_inserted.
    by exists [x], (kept protected (S d) items).
  - rewrite (bool_decide_eq_false_2 (Some d = Some index)) by congruence. simpl.
    assert ((d <? index) = false) as -> by (apply Nat.ltb_ge; lia).
    case_bool_decide; [apply with_one_cons|]; apply IH; by try lia.
Qed.
Lemma first_index_spec p n i : first_index p n = Some i → p i = true ∧ i < n.
Proof. intros [Hi Hp]%find_some. apply in_seq in Hi. split; [done|lia]. Qed.

Lemma removed_exists protected items :
  removed_items items protected ≠ [] → ∃ i, i < length items ∧ i ∉ protected.
Proof.
  unfold removed_items. intros Hr.
  destruct (omap _ _) as [|y l] eqn:Ho; [done|].
  assert (y ∈ y :: l) as Hy by by left. rewrite <-Ho in Hy.
  apply list_elem_of_omap in Hy as ([i x] & Hix & Hp). simpl in Hp.
  apply list_elem_of_lookup in Hix as [j Hj]. rewrite list_lookup_imap in Hj.
  destruct (items !! j) eqn:Hjx; [|done]. injection Hj as <- <-.
  exists j. split; [by eapply lookup_lt_Some|]. by case_bool_decide.
Qed.
Lemma rebuild_spec protected summary items :
  removed_items items protected ≠ [] →
  with_one (summary_item summary) (kept protected 0 items) (rebuild items protected summary).
Proof.
  intros (i & Hi & Hp)%removed_exists. unfold rebuild.
  destruct (first_index (λ i, bool_decide (i ∈ protected)) _) as [p|] eqn:Hfirst;
    [|apply rebuild_here; exists i; split; [lia|done]].
  apply first_index_spec in Hfirst as [Hin%bool_decide_eq_true Hlt].
  destruct (_ && _); [apply rebuild_deferred; [lia|done]|apply rebuild_here; exists i; split; [lia|done]].
Qed.

(** *** The loop over candidates *)

(** What a compaction that changed the history did: one summary in the place of
    what is not protected, the protected positions including [prefix] and the last. *)
Definition sound (items : list HistoryItem) (prefix : gset nat) (before overhead : N)
    (o : LocalCompactionOutcome Value) : Prop :=
  ∃ protected summary h,
    prefix ⊆ protected ∧ length items - 1 ∈ protected
    ∧ with_one (summary_item summary) (kept protected 0 items) h
    ∧ split_history h = (outcome_history o, outcome_markers o)
    ∧ before_tokens o = before
    ∧ after_tokens o = (estimate_mixed_tokens to_string h + overhead)%N
    ∧ (after_tokens o < before_tokens o)%N.

Lemma candidate_spec items protected limit target :
  removed_items items protected ≠ [] →
  ∃ summary, with_one (summary_item summary) (kept protected 0 items)
    (candidate to_string summarize summarize_terse items protected limit target).
Proof.
  intros Hr. unfold candidate. repeat case_match; eexists; by apply rebuild_spec.
Qed.
Lemma candidates_sound items prefix limit target before overhead recent best reason o :
  items ≠ [] → recent <= length items →
  (∀ b, best = Some b → sound items prefix before overhead b) →
  candidates to_string summarize summarize_terse items prefix limit target before overhead
    recent best reason = o →
  changed o = true → sound items prefix before overhead o.
Proof.
  intros Hne. revert best reason. induction recent as [|fewer IH]; intros best reason Hle Hb Ho Hc.
  - simpl in Ho. destruct best as [b|]; [by apply Hb; rewrite Ho|]. subst o. unfold unchanged in Hc.
    by destruct (split_history items).
  - cbn [candidates] in Ho. set (protected := protect_pairs items _) in Ho.
    case_bool_decide as Hrem; [eapply IH; try done; lia|].
    destruct (candidate_spec items protected limit target Hrem) as [summary Hcand].
    set (h := candidate _ _ _ _ _ _ _) in *.
    destruct (_ <=? _)%N eqn:Hineff in Ho; [by eapply IH; try done; lia|].
    apply N.leb_gt in Hineff.
    destruct (split_history h) as [items' markers] eqn:Hsplit.
    set (oc := mkOutcome items' markers before _ true "") in *.
    assert (sound items prefix before overhead oc) as Hoc.
    { exists protected, summary, h. split_and!; try done; [| |simpl; lia].
      - unfold protected, protect_pairs. set_solver.
      - assert (length items ≠ 0) by (by destruct items).
        assert (length items - 1 ∈ seq (length items - S fewer) (Nat.min (S fewer) (length items)))
          by (apply elem_of_seq; lia).
        unfold protected, protect_pairs. set_solver. }
    set (best' := match best with Some b => _ | None => oc end) in *.
    assert (sound items prefix before overhead best') as Hb'.
    { unfold best'. destruct best as [b|]; [|done]. destruct (_ <? _)%N; [done|by apply Hb]. }
    destruct (_ <=? _)%N in Ho; [by subst o|].
    apply (IH (Some best') reason); [lia|by intros b [= <-]|done|done].
Qed.

Lemma preserved_prefix_spec index n items i x :
  items !! i = Some x → must_preserve x = true → index + i ∈ preserved_prefix index n items.
Proof.
  revert index n i. induction items as [|y items IH]; intros index n i Hi Hx; [done|].
  simpl. destruct i as [|i].
  - injection Hi as ->. rewrite Hx. simpl. rewrite Nat.add_0_r. set_solver.
  - rewrite Nat.add_succ_r, <-Nat.add_succ_l. apply elem_of_union_r. by apply IH.
Qed.
Lemma unchanged_unchanged items n reason : changed (unchanged items n reason) = false.
Proof. unfold unchanged. by destruct (split_history items). Qed.

(** C34: A compaction that changes the history keeps, in their order, every system or developer
    message, every item with content other than text, every handoff and encrypted summary,
    and the last item; it puts exactly one summary among them, and the estimate of what
    it leaves is strictly smaller than before. *)
Theorem compaction_keeps items policy overhead o :
  compact_mixed to_string summarize summarize_terse items policy overhead = o →
  changed o = true →
  ∃ protected summary h,
    (∀ i x, items !! i = Some x → must_preserve x = true → i ∈ protected)
    ∧ length items - 1 ∈ protected
    ∧ with_one (summary_item summary) (kept protected 0 items) h
    ∧ split_history h = (outcome_history o, outcome_markers o)
    ∧ after_tokens o = (estimate_mixed_tokens to_string h + Z.to_N (Z.max overhead 0))%N
    ∧ (after_tokens o < before_tokens o)%N.
Proof.
  unfold compact_mixed. intros Ho Hc. subst o. revert Hc.
  case_match; [by rewrite unchanged_unchanged|]. apply orb_false_iff in H as [_ Hne].
  apply bool_decide_eq_false in Hne.
  case_match; [by rewrite unchanged_unchanged|]. case_match; [by rewrite unchanged_unchanged|].
  intros Hc. assert (length items ≠ 0) by (by destruct items).
  edestruct (candidates_sound items)
    as (protected & summary & h & Hpre & Hlast & Hone & Hs & Hb & Ha & Hlt);
    [exact Hne| | |reflexivity|exact Hc|]; [lia|done|].
  exists protected, summary, h. split_and!; try done.
  intros i x Hi Hx. apply Hpre. by apply (preserved_prefix_spec 0 _ items i x).
Qed.
End keeping.

(** ** Finalization *)

Section finalization.
Context {Value : Type}.
Notation HistoryItem := (HistoryItem Value).
Implicit Types items : list HistoryItem.

Definition natives items : list (RunItem Value) := (split_history items).1.
Lemma split_from_items n items : (split_from n items).1 = natives items.
Proof.
  unfold natives, split_history. revert n. induction items as [|[i|m] items IH]; intros n; simpl; [done|..].
  - destruct (split_from (S n) items) eqn:H1, (split_from 1 items) eqn:H2. simpl.
    f_equal. pose proof (IH (S n)) as Hn. rewrite H1 in Hn. pose proof (IH 1) as H1'. rewrite H2 in H1'.
    simpl in *. congruence.
  - destruct (split_from n items) eqn:H1, (split_from 0 items) eqn:H2. simpl.
    pose proof (IH n) as Hn. by rewrite H1 in Hn.
Qed.
Lemma natives_native i items : natives (Native i :: items) = i :: natives items.
Proof.
  unfold natives at 1, split_history. simpl. rewrite <-(split_from_items 1).
  by destruct (split_from 1 items).
Qed.
Lemma natives_approval m items : natives (Approval m :: items) = natives items.
Proof.
  unfold natives, split_history. simpl. by destruct (split_from 0 items).
Qed.

Definition call_ids items : list string := omap call_of items.
Definition output_ids items : list string := omap output_of items.
Definition is_handoff_item (item : HistoryItem) : bool :=
  match item with Native (ItemHandoff _ _) => true | _ => false end.

Lemma last_by_spec key items id item :
  last_by key items !! id = Some item → item ∈ items ∧ key item = Some id.
Proof.
  unfold last_by. 
  assert (∀ m : gmap string HistoryItem, (∀ id item, m !! id = Some item → key item = Some id) →
    foldl (λ m item, match key item with Some id => <[id := item]> m | None => m end) m items !! id
      = Some item → (item ∈ items ∨ m !! id = Some item) ∧ key item = Some id) as Hgen.
  { induction items as [|x items IH]; intros m Hm Hid; simpl in Hid; [by split; [right|apply Hm]|].
    apply IH in Hid as [Hin Hk].
    - split; [|done]. destruct Hin as [Hin|Hin]; [left; by right|]. destruct (key x) as [k|] eqn:Hx; [|by right].
      apply lookup_insert_Some in Hin as [[<- <-]|[_ Hin]]; [left; by left|by right].
    - intros id' item' Hid'. destruct (key x) as [k|] eqn:Hx; [|by apply Hm].
      apply lookup_insert_Some in Hid' as [[<- <-]|[_ Hid']]; [done|by apply Hm]. }
  intros Hid. destruct (Hgen ∅) as [[Hin|Hin] Hk]; [by intros ??; rewrite lookup_empty|done|done|].
  by rewrite lookup_empty in Hin.
Qed.
Lemma last_by_some key items id :
  id ∈ omap key items → is_Some (last_by key items !! id).
Proof.
  unfold last_by. 
  assert (∀ m : gmap string HistoryItem, id ∈ omap key items ∨ is_Some (m !! id) → is_Some (foldl (λ m item,
    match key item with Some id => <[id := item]> m | None => m end) m items !! id)) as Hgen;
    [|intros Hid; apply Hgen; by left].
  induction items as [|x items IH]; intros m Hid; simpl.
  - destruct Hid as [Hid|Hid]; [by inversion Hid|done].
  - apply IH. simpl in Hid. destruct (key x) as [k|]; [|done].
    destruct (decide (k = id)) as [->|Hne].
    + right. rewrite lookup_insert_eq. done.
    + rewrite lookup_insert_ne by done. destruct Hid as [[->|Hid]%elem_of_cons|Hid]; [done|by left|by right].
Qed.

(** What the references of a finalization promise about the items still to come. *)
Record consistent (refs : References (Value := Value)) items (calls outputs : gset string) : Prop :=
  mkConsistent {
    no_handoff : ∀ x, x ∈ items → is_handoff_item x = false;
    answered_calls : outputs ⊆ calls;
    open_calls : ∀ id, id ∈ calls → id ∉ outputs → id ∈ output_ids items;
    coming_outputs : ∀ id, id ∈ current_outputs refs → is_Some (ref_calls refs !! id) →
      id ∈ outputs ∨ id ∈ output_ids items;
    known_calls : ∀ id, id ∈ call_ids items →
      is_Some (ref_outputs refs !! id) ∧ is_Some (ref_calls refs !! id);
    call_keys : ∀ id x, ref_calls refs !! id = Some x → call_of x = Some id;
    output_keys : ∀ id x, ref_outputs refs !! id = Some x → output_of x = Some id;
  }.

Lemma call_of_inv (x : HistoryItem) id :
  call_of x = Some id → ∃ c, x = Native (ItemToolCall c) ∧ call_id c = id ∧ id ≠ "".
Proof.
  destruct x as [[]|]; try done. simpl. destruct (String.eqb_spec (call_id call) ""); [done|].
  intros [= <-]. by exists call.
Qed.
Lemma output_of_inv (x : HistoryItem) id :
  output_of x = Some id → ∃ o, x = Native (ItemToolResult id o) ∧ id ≠ "".
Proof.
  destruct x as [[]|]; try done. simpl. destruct (String.eqb_spec call_id ""); [done|].
  intros [= <-]. by exists output.
Qed.
Lemma consistent_other refs x items calls outputs :
  call_of x = None → output_of x = None →
  consistent refs (x :: items) calls outputs → consistent refs items calls outputs.
Proof.
  intros Hc Ho [Hn Ha Hop Hco Hk Hck Hok].
  assert (output_ids (x :: items) = output_ids items) as Heo by (unfold output_ids; simpl; by rewrite Ho).
  assert (call_ids (x :: items) = call_ids items) as Hec by (unfold call_ids; simpl; by rewrite Hc).
  rewrite Heo in *. rewrite Hec in *. split; try done. intros y Hy. apply Hn. by right.
Qed.
Lemma consistent_call refs x id items calls outputs :
  call_of x = Some id → consistent refs (x :: items) calls outputs →
  consistent refs items calls outputs ∧ is_Some (ref_outputs refs !! id) ∧ is_Some (ref_calls refs !! id).
Proof.
  intros Hx [Hn Ha Hop Hco Hk Hck Hok]. destruct (call_of_inv _ _ Hx) as (c & -> & _ & _).
  assert (call_ids (Native (ItemToolCall c) :: items) = id :: call_ids items) as Hec
    by (unfold call_ids; cbn [omap list_omap]; by rewrite Hx).
  split; [|apply Hk; rewrite Hec; by left].
  split; try done; [intros y Hy; apply Hn; by right|]. intros id' Hid. apply Hk. rewrite Hec. by right.
Qed.
Lemma consistent_output refs x id items calls outputs calls' outputs' :
  output_of x = Some id → consistent refs (x :: items) calls outputs →
  outputs' ⊆ calls' → (∀ i, i ∈ calls' → i ∉ outputs' → i ∈ calls ∧ i ∉ outputs ∧ i ≠ id) →
  outputs ⊆ outputs' → (id ∈ outputs' ∨ ref_calls refs !! id = None) →
  consistent refs items calls' outputs'.
Proof.
  intros Hx [Hn Ha Hop Hco Hk Hck Hok] Hsub Hopen Hgrow Hid.
  destruct (output_of_inv _ _ Hx) as (o & -> & _).
  assert (output_ids (Native (ItemToolResult id o) :: items) = id :: output_ids items) as Heo
    by (unfold output_ids; cbn [omap list_omap]; by rewrite Hx).
  rewrite Heo in *. split; try done.
  - intros y Hy. apply Hn. by right.
  - intros i Hi Hi'. destruct (Hopen i Hi Hi') as (H1 & H2 & H3).
    specialize (Hop i H1 H2). by apply elem_of_cons in Hop as [->|Hop].
  - intros i Hi Hs. destruct (Hco i Hi Hs) as [Hio|[->|Hio]%elem_of_cons]; [left; by apply Hgrow| |by right].
    destruct Hid as [Hid|Hid]; [by left|]. rewrite Hid in Hs. by destruct Hs.
Qed.

Lemma pairs_call pend (c : ToolCall Value) l :
  call_id c ∉ pend →
  pairs_from pend (ItemToolCall c :: l) = pairs_from ({[call_id c]} ∪ pend) l.
Proof. intros Hc. simpl. by rewrite bool_decide_eq_false_2. Qed.
Lemma pairs_result pend id o (l : list (RunItem Value)) :
  id ∈ pend → pairs_from pend (ItemToolResult id o :: l) = pairs_from (pend ∖ {[id]}) l.
Proof. intros Hc. simpl. by rewrite bool_decide_eq_true_2. Qed.

Notation finalized refs items :=
  (∀ index calls outputs, consistent refs items calls outputs →
   pairs_from (calls ∖ outputs) (natives (finalize_from refs index items calls outputs)) = Ok ∅).
Lemma finalize_other refs x index items calls outputs :
  finalized refs items → call_of x = None → output_of x = None →
  consistent refs (x :: items) calls outputs →
  pairs_from (calls ∖ outputs) (natives (finalize_from refs index (x :: items) calls outputs)) = Ok ∅.
Proof.
  intros IH Hx Ho Hc. pose proof (consistent_other _ _ _ _ _ Hx Ho Hc) as Hrest.
  specialize (IH (S index) calls outputs Hrest).
  pose proof (no_handoff _ _ _ _ Hc x ltac:(by left)) as Hh.
  destruct x as [[]|m]; simpl in Hh; try done; cbn [finalize_from];
    rewrite ?natives_native, ?natives_approval; try exact IH.
  - simpl in Hx. destruct (String.eqb (call_id call) ""); [exact IH|done].
  - simpl in Ho. destruct (String.eqb call_id ""); [exact IH|done].
Qed.
Lemma finalize_call refs x id index items calls outputs :
  finalized refs items → call_of x = Some id → consistent refs (x :: items) calls outputs →
  pairs_from (calls ∖ outputs) (natives (finalize_from refs index (x :: items) calls outputs)) = Ok ∅.
Proof.
  intros IH Hx Hc. destruct (consistent_call _ _ _ _ _ _ Hx Hc) as (Hrest & [out Hout] & Hcall).
  destruct (call_of_inv _ _ Hx) as (c & -> & <- & Hne). cbn [finalize_from].
  rewrite (proj2 (String.eqb_neq _ _) Hne). simpl.
  case_bool_decide as Hseen; [by apply IH|].
  assert (call_id c ∉ outputs) by (destruct Hrest; set_solver).
  rewrite Hout, andb_false_r. simpl.
  case_bool_decide as Hcur; simpl.
  - rewrite natives_native, pairs_call by set_solver.
    replace ({[call_id c]} ∪ calls ∖ outputs) with (({[call_id c]} ∪ calls) ∖ outputs) by set_solver.
    apply IH. destruct Hrest as [Hn Ha Hop Hco Hk Hck Hok]. split; try done; [set_solver|].
    intros i [->%elem_of_singleton|Hi]%elem_of_union Hi'; [|by apply Hop].
    by destruct (Hco _ Hcur Hcall).
  - destruct Hrest as [Hn Ha Hop Hco Hk Hck Hok].
    destruct (output_of_inv _ _ (Hok _ _ Hout)) as (o & -> & _).
    rewrite !natives_native, pairs_call, pairs_result by set_solver.
    replace (({[call_id c]} ∪ calls ∖ outputs) ∖ {[call_id c]})
      with (({[call_id c]} ∪ calls) ∖ ({[call_id c]} ∪ outputs)) by set_solver.
    apply IH. split; try done; [set_solver| |].
    + intros i Hi Hi'. apply Hop; set_solver.
    + intros i Hi Hs. destruct (Hco i Hi Hs); [left; set_solver|by right].
Qed.
Lemma finalize_result refs x id index items calls outputs :
  finalized refs items → output_of x = Some id → consistent refs (x :: items) calls outputs →
  pairs_from (calls ∖ outputs) (natives (finalize_from refs index (x :: items) calls outputs)) = Ok ∅.
Proof.
  intros IH Hx Hc. pose proof (λ c' o', consistent_output refs x id items calls outputs c' o' Hx Hc) as Hnext.
  destruct (output_of_inv _ _ Hx) as (o & -> & Hne). cbn [finalize_from].
  rewrite (proj2 (String.eqb_neq _ _) Hne). simpl.
  pose proof (answered_calls _ _ _ _ Hc) as Hsub.
  case_bool_decide as Hdone.
  { apply IH, (Hnext calls outputs); try done; [set_solver|by left]. }
  case_bool_decide as Hopen.
  - rewrite natives_native, pairs_result by set_solver.
    replace ((calls ∖ outputs) ∖ {[id]}) with (calls ∖ ({[id]} ∪ outputs)) by set_solver.
    apply IH, (Hnext calls ({[id]} ∪ outputs)); try done; [set_solver..|left; set_solver].
  - destruct (ref_calls refs !! id) as [call|] eqn:Hcall.
    + pose proof (call_keys _ _ _ _ Hc _ _ Hcall) as Hk.
      destruct (call_of_inv _ _ Hk) as (c & -> & Hid & _). subst id.
      rewrite !natives_native, pairs_call, pairs_result by set_solver.
      replace (({[call_id c]} ∪ calls ∖ outputs) ∖ {[call_id c]})
        with (({[call_id c]} ∪ calls) ∖ ({[call_id c]} ∪ outputs)) by set_solver.
      apply IH, (Hnext ({[call_id c]} ∪ calls) ({[call_id c]} ∪ outputs)); try done;
        [set_solver..|left; set_solver].
    + apply IH, (Hnext calls outputs); try done; [set_solver|by right].
Qed.
Lemma finalize_pairs refs index items calls outputs :
  consistent refs items calls outputs →
  pairs_from (calls ∖ outputs) (natives (finalize_from refs index items calls outputs)) = Ok ∅.
Proof.
  revert index calls outputs. induction items as [|x items IH]; intros index calls outputs Hc.
  { simpl. f_equal. apply set_eq. intros id. split; [|set_solver].
    intros [H1 H2]%elem_of_difference. pose proof (open_calls _ _ _ _ Hc id H1 H2) as Hn.
    inversion Hn. }
  destruct (call_of x) as [id|] eqn:Hx; [|destruct (output_of x) as [id|] eqn:Ho].
  - by eapply finalize_call.
  - by eapply finalize_result.
  - by eapply finalize_other.
Qed.

Lemma consistent_start items previous :
  (∀ x, x ∈ items → is_handoff_item x = false) →
  (∀ id, id ∈ call_ids items → id ∈ output_ids (previous ++ items)) →
  consistent (references items previous) items ∅ ∅.
Proof.
  intros Hn Hans. split; try done; simpl.
  - intros id Hid _. right. by apply elem_of_list_to_set in Hid.
  - intros id Hid. split; [by apply last_by_some, Hans|]. apply last_by_some.
    unfold call_ids in *. rewrite omap_app. apply elem_of_app. by right.
  - intros id x Hx. by apply last_by_spec in Hx as [_ Hx].
  - intros id x Hx. by apply last_by_spec in Hx as [_ Hx].
Qed.
(** The carry-forward messages that are left out are no calls and no results. *)
Lemma carried_over {A} (f : HistoryItem → option A) items :
  (∀ x, carry_forward x = true → f x = None) →
  omap f (List.filter (λ item, negb (carry_forward item)) items) = omap f items.
Proof.
  intros Hf. induction items as [|x items IH]; [done|]. cbn [List.filter].
  destruct (carry_forward x) eqn:Hc; csimpl; [by rewrite IH, (Hf x Hc)|by rewrite IH].
Qed.
Lemma carry_forward_plain (x : HistoryItem) :
  carry_forward x = true → call_of x = None ∧ output_of x = None.
Proof.
  intros [[m Hm]%bool_decide_eq_true _]%andb_true_iff. by destruct x as [[]|].
Qed.

(** C25: The finalization of a compacted history without handoffs, each of whose calls has a
    result there or in the history it was made from, answers every call exactly once, in
    order, whatever the compaction dropped, duplicated or reordered. *)
Theorem finalization_balanced compacted previous :
  (∀ x, x ∈ compacted → is_handoff_item x = false) →
  (∀ id, id ∈ call_ids compacted → id ∈ output_ids (previous ++ compacted)) →
  validate_history_pairs (split_history (finalize_mixed_history compacted previous)).1 = Ok tt.
Proof.
  intros Hn Hans. unfold validate_history_pairs, finalize_mixed_history.
  set (items := List.filter _ compacted).
  assert (call_ids items = call_ids compacted) as Hcalls
    by (apply carried_over; intros x Hx; by apply carry_forward_plain).
  assert (output_ids items = output_ids compacted) as Houts
    by (apply carried_over; intros x Hx; by apply carry_forward_plain).
  assert (consistent (references items previous) items ∅ ∅) as Hc.
  { apply consistent_start.
    - intros x Hx. apply Hn. apply list_elem_of_In, filter_In in Hx as [Hx _].
      by apply list_elem_of_In.
    - intros id. rewrite Hcalls. intros Hid%Hans. unfold output_ids in *.
      rewrite omap_app in *. by rewrite Houts. }
  pose proof (finalize_pairs _ 0 _ _ _ Hc) as Hp. unfold natives in Hp.
  replace (∅ ∖ ∅) with (∅ : gset string) in Hp by set_solver. by rewrite Hp.
Qed.
End finalization.

(** ** Concrete histories *)

Definition sample_call (id : string) : RunItem string := ItemToolCall (mkToolCall id "look" "").
Definition sample_result (id : string) : RunItem string :=
  ItemToolResult id (mkToolOutput [Text "done"] false false).
(** A call answered by a handoff, and a later one answered by a result. *)
Definition handed_off : list (RunItem string) :=
  [ItemMessage (text_message User "go"); sample_call "h"; ItemHandoff "h" "second";
   sample_call "a"; sample_result "a"].

(** A history in which a call was answered by a handoff does not survive a compaction: the
    finalization drops that call and keeps its handoff, and the pairs no longer match, which
    fails the run. *)
Theorem handoff_not_compactable :
  validate_history_pairs handed_off = Ok tt
  ∧ (split_history (finalize_mixed_history (native handed_off) (native handed_off))).1
    = [ItemMessage (text_message User "go"); ItemHandoff "h" "second";
       sample_call "a"; sample_result "a"]
  ∧ validate_history_pairs
      (split_history (finalize_mixed_history (native handed_off) (native handed_off))).1
    = Err (mkError InvalidInput "orphan compacted tool result").
Proof. split_and!; vm_compute; reflexivity. Qed.

Definition dropped_pair : list (HistoryItem string) :=
  [Native (sample_result "a"); Native (sample_call "b")].
Lemma finalization_balanced_witness :
  validate_history_pairs
    (split_history (finalize_mixed_history dropped_pair
      (native [sample_call "a"; sample_call "b"; sample_result "b"; sample_result "a"]))).1 = Ok tt.
Proof.
  apply (finalization_balanced dropped_pair
    (native [sample_call "a"; sample_call "b"; sample_result "b"; sample_result "a"])).
  - intros x Hx. apply elem_of_cons in Hx as [->|Hx]; [reflexivity|].
    apply list_elem_of_singleton in Hx as ->. reflexivity.
  - intros id Hid. apply list_elem_of_singleton in Hid as ->. vm_compute. left.
Defined.

Definition long_text : string := String.concat " " (repeat "a long message of many words" 40).
Definition long_history : list (HistoryItem string) :=
  Native (ItemMessage (text_message System "rules"))
    :: repeat (Native (ItemMessage (text_message Assistant long_text))) 6
    ++ [Native (ItemMessage (text_message User "now"))].
Definition short_policy : LocalCompactionPolicy := mkLocalPolicy true 900 800 3 1 1.
Definition short_outcome : LocalCompactionOutcome string :=
  compact_mixed (λ s, s) (λ _ _, "summary") (λ _ _, "summary") long_history short_policy 0.
Lemma compaction_keeps_witness :
  changed short_outcome = true ∧
  ∃ protected summary h,
    (∀ i x, long_history !! i = Some x → must_preserve x = true → i ∈ protected)
    ∧ length long_history - 1 ∈ protected
    ∧ with_one (summary_item summary) (kept protected 0 long_history) h
    ∧ split_history h = (outcome_history short_outcome, outcome_markers short_outcome)
    ∧ after_tokens short_outcome
      = (estimate_mixed_tokens (λ s, s) h + Z.to_N (Z.max 0 0))%N
    ∧ (after_tokens short_outcome < before_tokens short_outcome)%N.
Proof.
  split; [vm_compute; reflexivity|].
  apply (compaction_keeps (λ s, s) (λ _ _, "summary") (λ _ _, "summary") long_history short_policy 0).
  - reflexivity.
  - vm_compute. reflexivity.
Defined.

