(* ===== verification/Chars.v ===== *)
(** * Chars: Rust strings as sequences of Unicode scalar values

    Code that walks [str::chars] sees a string as a list of scalar values; a
    [char] is an [N] here.  [utf8_len] gives the length in bytes that
    [str::len] reports.  The searches below ([starts_with], [split], ...) are
    the ones of [str] and of slices, on lists of any type with decidable
    equality. *)

From Stdlib Require Import Ascii.
From S2P Require Import Prelude.

Notation char := N (only parsing).
Notation chars := (list N) (only parsing).

(** A string literal of the source (ASCII). *)
Definition lit (s : string) : chars := (λ a, N_of_ascii a) <$> String.list_ascii_of_string s.
(** [c == 'a'], and [matches!(c, 'a' | 'b' | ...)]. *)
Definition is_char (c : char) (a : ascii) : bool := (c =? N_of_ascii a)%N.
Definition one_of (c : char) (s : string) : bool := existsb (N.eqb c) (lit s).
Arguments lit _%_string : simpl never.
#[global] Arguments N_of_ascii : simpl never.
Arguments is_char _ _%_char.
Arguments one_of _ _%_string.

(** [char::len_utf8] and [str::len]. *)
Definition len_utf8 (c : char) : N :=
  if (c <? 128)%N then 1 else if (c <? 2048)%N then 2 else if (c <? 65536)%N then 3 else 4.
Definition utf8_len (l : chars) : N := foldr (λ c n, (len_utf8 c + n)%N) 0%N l.

(** [char::is_control]: the general category Cc. *)
Definition is_control (c : char) : bool :=
  (c <? 32)%N || ((127 <=? c)%N && (c <=? 159)%N).
Definition char_between (lo hi c : char) : bool := (lo <=? c)%N && (c <=? hi)%N.
(** [char::is_ascii_digit] and [u8::is_ascii_alphanumeric]. *)
Definition is_digit (c : char) : bool := char_between 48 57 c.
Definition is_alphanumeric (c : char) : bool :=
  is_digit c || char_between 65 90 c || char_between 97 122 c.

(** [char::is_whitespace] (the property White_Space) and what follows it. *)
Definition is_whitespace (c : char) : bool :=
  char_between 9 13 c || existsb (N.eqb c) [32; 0x85; 0xa0; 0x1680; 0x2028; 0x2029; 0x202f; 0x205f; 0x3000]%N
  || char_between 0x2000 0x200a c.
Fixpoint drop_chars (f : char → bool) (l : chars) : chars :=
  match l with c :: l' => if f c then drop_chars f l' else l | [] => [] end.
(** [trim_start_matches], [trim_end_matches], [trim] *)
Definition drop_end (f : char → bool) (l : chars) : chars := reverse (drop_chars f (reverse l)).
Definition trim (l : chars) : chars := drop_end is_whitespace (drop_chars is_whitespace l).
(** [take_while] and the rest. *)
Fixpoint span_chars (f : char → bool) (l : chars) : chars * chars :=
  match l with
  | c :: l' => if f c then let '(a, b) := span_chars f l' in (c :: a, b) else ([], l)
  | [] => ([], [])
  end.
Definition split_whitespace (l : chars) : list chars :=
  let '(w, ws) := foldr (λ c acc, if is_whitespace c then ([], if bool_decide (acc.1 = []) then acc.2 else acc.1 :: acc.2)
                                  else (c :: acc.1, acc.2)) ([], []) l in
  if bool_decide (w = []) then ws else w :: ws.
Definition lower_ascii (c : char) : char := if char_between 65 90 c then (c + 32)%N else c.
Definition eq_ignore_ascii_case (a b : chars) : bool := bool_decide (lower_ascii <$> a = lower_ascii <$> b).
Definition is_alphabetic (c : char) : bool := char_between 65 90 c || char_between 97 122 c.

Section search.
Context {A : Type} `{EqDecision A}.
Implicit Types (l p : list A).

(** [strip_prefix], [starts_with], [ends_with], [contains] *)
Fixpoint strip (p l : list A) : option (list A) :=
  match p, l with
  | [], _ => Some l
  | a :: p, b :: l => if decide (a = b) then strip p l else None
  | _ :: _, [] => None
  end.
Definition starts (p l : list A) : bool := bool_decide (is_Some (strip p l)).
Definition ends (p l : list A) : bool := starts (reverse p) (reverse l).
Fixpoint includes (p l : list A) : bool :=
  starts p l || match l with [] => false | _ :: l => includes p l end.
Definition member (x : A) l : bool := bool_decide (x ∈ l).

(** [split(sep)], collected. *)
Fixpoint split (sep : A) l : list (list A) :=
  match l with
  | [] => [[]]
  | a :: l =>
      if decide (a = sep) then [] :: split sep l
      else match split sep l with
           | [] => [[a]]
           | w :: ws => (a :: w) :: ws
           end
  end.
(** [split_once(sep)] *)
Fixpoint split_first (sep : A) l : option (list A * list A) :=
  match l with
  | [] => None
  | a :: l =>
      if decide (a = sep) then Some ([], l)
      else prod_map (cons a) id <$> split_first sep l
  end.

Lemma strip_Some p l r : strip p l = Some r ↔ l = p ++ r.
Proof.
  revert l; induction p as [|a p IH]; intros [|b l]; simpl; [naive_solver..|].
  case_decide; [subst; rewrite IH|]; naive_solver.
Qed.
Lemma starts_spec p l : starts p l = true ↔ ∃ r, l = p ++ r.
Proof.
  unfold starts. rewrite bool_decide_eq_true. unfold is_Some. by setoid_rewrite strip_Some.
Qed.
Lemma ends_spec p l : ends p l = true ↔ ∃ r, l = r ++ p.
Proof.
  unfold ends. rewrite starts_spec. split; intros [r Hr].
  - exists (reverse r). by rewrite <-(reverse_involutive l), Hr, reverse_app, reverse_involutive.
  - exists (reverse r). by rewrite Hr, reverse_app.
Qed.
Lemma includes_spec p l : includes p l = true ↔ ∃ a b, l = a ++ p ++ b.
Proof.
  induction l as [|x l IH]; simpl; rewrite orb_true_iff, starts_spec.
  - split; [intros [[r Hr]|]; [by exists [], r|done]|].
    intros (a & b & Hl). left. destruct a; [by exists b|done].
  - rewrite IH. split.
    + intros [[r Hr]|(a & b & ->)]; [by exists [], r|by exists (x :: a), b].
    + intros ([|y a] & b & Hl); [left; by exists b|right].
      simplify_eq/=. by exists a, b.
Qed.
Lemma split_not_nil sep l : split sep l ≠ [].
Proof. destruct l; simpl; [done|]. case_decide; [done|]. by destruct (split sep l). Qed.
Lemma split_first_Some sep l a b :
  split_first sep l = Some (a, b) ↔ l = a ++ sep :: b ∧ sep ∉ a.
Proof.
  revert a; induction l as [|x l IH]; intros a; simpl.
  - split; [done|]. by intros [? _]; destruct a.
  - case_decide as Hx.
    + subst. split; [intros [= <- <-]; split; [done|set_solver]|].
      intros [Hl Ha]. destruct a as [|y a]; simplify_eq/=; [done|set_solver].
    + rewrite fmap_Some. split.
      * intros ([a' b'] & Hs & Heq). simplify_eq/=. apply IH in Hs as [-> ?].
        split; [done|]. set_solver.
      * intros [Hl Ha]. destruct a as [|y a]; simplify_eq/=. exists (a, b).
        split; [|done]. apply IH. split; [done|set_solver].
Qed.
Lemma split_first_None sep l : split_first sep l = None ↔ sep ∉ l.
Proof.
  induction l as [|x l IH]; simpl; [set_solver|]. case_decide; [set_solver|].
  rewrite fmap_None, IH. set_solver.
Qed.
End search.
