(* ===== verification/Shell.v ===== *)
(** * Shell: the classifier of literal shell commands

    [crates/adk-security/src/shell.rs].  [tokenize] recognizes a literal subset
    of the shell's grammar, [inspect_literal_commands] returns the argument
    vectors of a command line, [classify_command] decides whether it only reads,
    and [validate_git_push] checks the arguments of a push.  A command is a list
    of scalar values ([Chars]). *)

From Stdlib Require Import Ascii.
From S2P Require Import Prelude Core Chars.

Notation str := (list N) (only parsing).
Notation Result := (result Error).

Inductive CommandClass := ReadOnlyCommand | Mutating.
#[export] Instance CommandClass_eq_dec : EqDecision CommandClass.
Proof. solve_decision. Defined.

Inductive Token :=
| Word (word : str)
| Separator (terminal : bool)
| Redirect (write : bool).
#[export] Instance Token_eq_dec : EqDecision Token.
Proof. solve_decision. Defined.

Definition blocked (message : string) : Error := mkError PermissionDenied message.

(** ** [tokenize] *)

(** The variables of the loop. *)
Record Lexer := mkLexer {
  tokens : list Token;
  word : str;
  started : bool;
  quote : option char;
  literal : bool;
}.
Definition init_lexer : Lexer := mkLexer [] [] false None true.

Definition squote : char := 39.
Definition dquote : char := 34.
Definition backslash : char := 92.

(** Characters refused anywhere: controls, zero-width and bidirectional ones. *)
Definition forbidden (c : char) : bool :=
  (c =? 0)%N || (is_control c && negb ((c =? 10)%N || (c =? 9)%N))
  || char_between 0x200b 0x200f c || char_between 0x202a 0x202e c
  || char_between 0x2060 0x206f c || (c =? 0xfeff)%N.

Definition push_char (c : char) (lx : Lexer) : Lexer :=
  mkLexer (tokens lx) (word lx ++ [c]) (started lx) (quote lx) (literal lx).
Definition set_quote (q : option char) (lx : Lexer) : Lexer :=
  mkLexer (tokens lx) (word lx) (started lx) q (literal lx).
Definition push_token (t : Token) (lx : Lexer) : Lexer :=
  mkLexer (tokens lx ++ [t]) (word lx) (started lx) (quote lx) (literal lx).
(** [if started { tokens.push(Word(take(&mut word))); started = false }
    literal = true] *)
Definition flush (lx : Lexer) : Lexer :=
  if started lx
  then mkLexer (tokens lx ++ [Word (word lx)]) [] false (quote lx) true
  else mkLexer (tokens lx) (word lx) (started lx) (quote lx) true.
(** The same before a redirection, where an unquoted adjacent numeric word is
    an IO descriptor. *)
Definition flush_descriptor (lx : Lexer) : Lexer :=
  if started lx
  then
    let tokens :=
      if negb (literal lx) || negb (forallb is_digit (word lx))
      then tokens lx ++ [Word (word lx)] else tokens lx in
    mkLexer tokens [] false (quote lx) true
  else mkLexer (tokens lx) (word lx) (started lx) (quote lx) true.

(** [chars.peek() == Some(&c)] *)
Definition peek_is (c : char) (rest : str) : bool := bool_decide (head rest = Some c).
(** [matches!(chars.peek(), Some(..))] *)
Definition peek_one_of (s : string) (rest : str) : bool :=
  match rest with [] => false | c :: _ => one_of c s end.

(** The [match c] of the loop: outside quotes, after escapes.  The boolean says
    whether the next character was consumed too. *)
Definition unquoted (c : char) (rest : str) (lx : Lexer) : Result (bool * Lexer) :=
  if (c =? squote)%N || (c =? dquote)%N
  then Ok (false, mkLexer (tokens lx) (word lx) true (Some c) false)
  else if is_char c " " || (c =? 9)%N then Ok (false, flush lx)
  else if (c =? 10)%N || one_of c ";|&" then
    let lx := flush lx in
    let doubled := one_of c "|&" && peek_is c rest in
    if negb doubled && is_char c "&"
    then Err (blocked "background shell execution is unsupported")
    else Ok (doubled, push_token (Separator (is_char c ";" || (c =? 10)%N)) lx)
  else if one_of c "><" then
    let lx := flush_descriptor lx in
    let append := is_char c ">" && peek_is c rest in
    if peek_one_of "<>&|(" (if append then tail rest else rest)
    then Err (blocked "unsupported shell redirection")
    else Ok (append, push_token (Redirect (is_char c ">")) lx)
  else if one_of c "(){}*?[]~#" then Err (blocked "unsupported or dynamic shell syntax")
  else Ok (false, mkLexer (tokens lx) (word lx ++ [c]) true (quote lx) (literal lx)).

(** One iteration of the loop on [c] with [rest] to come. *)
Definition step (c : char) (rest : str) (lx : Lexer) : Result (bool * Lexer) :=
  if forbidden c then Err (blocked "control characters in shell command")
  else if bool_decide (quote lx = Some squote)
  then Ok (false, if (c =? squote)%N then set_quote None lx else push_char c lx)
  else if (c =? backslash)%N then
    match rest with
    | [] => Err (blocked "incomplete shell escape")
    | next :: _ =>
        if is_control next then Err (blocked "escaped control character")
        else
          let kept := bool_decide (quote lx = Some dquote)
                      && negb (one_of next "$`\" || (next =? dquote)%N) in
          Ok (true, mkLexer (tokens lx) (word lx ++ (if kept then [backslash] else []) ++ [next])
                      true (quote lx) false)
    end
  else if one_of c "$`" then Err (blocked "shell expansion is not statically authorized")
  else if bool_decide (quote lx = Some dquote)
  then Ok (false, if (c =? dquote)%N then set_quote None lx else push_char c lx)
  else
    r ← unquoted c rest lx;
    if (2048 <? length (tokens r.2)) then Err (blocked "too many shell tokens") else Ok r.

(** The loop; [skip] when the iteration before consumed this character. *)
Fixpoint lex (skip : bool) (input : str) (lx : Lexer) : Result Lexer :=
  match input with
  | [] => Ok lx
  | c :: rest =>
      if skip then lex false rest lx
      else match step c rest lx with
           | Ok (skip, lx) => lex skip rest lx
           | Err e => Err e
           end
  end.

Definition tokenize (input : str) : Result (list Token) :=
  if (65536 <? utf8_len input)%N then Err (blocked "command exceeds classifier limit")
  else
    lx ← lex false input init_lexer;
    if bool_decide (is_Some (quote lx)) then Err (blocked "unterminated shell quote")
    else
      let tokens := if started lx then tokens lx ++ [Word (word lx)] else tokens lx in
      if (2048 <? length tokens) then Err (blocked "too many shell tokens") else Ok tokens.

(** ** [inspect_literal_commands] *)
Fixpoint inspect (tokens : list Token) (commands : list (list str)) (argv : list str)
    : Result (list (list str)) :=
  match tokens with
  | [] =>
      let commands := match argv with [] => commands | _ => commands ++ [argv] end in
      match commands with
      | [] => Err (blocked "empty shell command")
      | _ => Ok commands
      end
  | Word word :: rest => inspect rest commands (argv ++ [word])
  | Redirect _ :: Word _ :: rest => inspect rest commands argv
  | Redirect _ :: _ => Err (blocked "missing redirect target")
  | Separator terminal :: rest =>
      if negb terminal && bool_decide (rest = []) then Err (blocked "incomplete shell operator")
      else match argv with
           | [] => Err (blocked "empty shell statement")
           | _ => inspect rest (commands ++ [argv]) []
           end
  end.
Definition inspect_literal_commands (command : str) : Result (list (list str)) :=
  tokens ← tokenize command;
  inspect tokens [] [].

(** ** Programs and their arguments *)

Definition is_lit (w : str) (s : string) : bool := bool_decide (w = lit s).
Definition is_any (w : str) (l : list string) : bool := existsb (is_lit w) l.

Definition protected_path (path : str) : bool :=
  if member (lit "..") (split (N_of_ascii "/") path) then true
  else if negb (starts (lit "/") path) then false
  else
    let components := foldl (λ components part,
      if is_any part [""; "."] then components
      else if is_lit part ".." then take (pred (length components)) components
      else components ++ [part]) [] (split (N_of_ascii "/") path) in
    match components with
    | [] => true
    | c :: _ => is_any c ["etc"; "usr"; "bin"; "sbin"; "lib"; "lib64"; "var"; "boot"; "root";
                          "home"; "opt"; "dev"; "proc"; "sys"]
    end.

Fixpoint options (args : list str) (shorts : string) (longs : list string) : bool :=
  match args with
  | [] => true
  | arg :: args =>
      if is_lit arg "--" then true
      else
        match strip (lit "--") arg with
        | Some long => if is_any long longs then options args shorts longs else false
        | None =>
            match strip (lit "-") arg with
            | Some short =>
                if forallb (λ c, one_of c shorts) short then options args shorts longs else false
            | None => options args shorts longs
            end
        end
  end.

Definition simple_ref (value : str) : bool :=
  negb (bool_decide (value = []))
  && negb (starts (lit "-") value) && negb (starts (lit "/") value)
  && negb (includes (lit "..") value) && negb (includes (lit "//") value)
  && negb (ends (lit "/") value) && negb (ends (lit ".lock") value)
  && forallb (λ b, is_alphanumeric b || one_of b "/_-.") value.

Definition validate_git_push (rest : list str) : Result unit :=
  let rest :=
    match rest with
    | first :: tail => if is_any first ["-u"; "--set-upstream"] then tail else rest
    | [] => rest
    end in
  match rest with
  | [remote; spec] =>
      if negb (simple_ref remote)
      then Err (blocked "push requires explicit remote and single refspec")
      else
        let '(source, dest) := default (spec, spec) (split_first (N_of_ascii ":") spec) in
        if negb (simple_ref source) || negb (simple_ref dest)
        then Err (blocked "unsupported push refspec")
        else
          let branch := default dest (strip (lit "refs/heads/") dest) in
          if is_any branch ["main"; "master"; "HEAD"]
             || (starts (lit "refs/") dest && negb (starts (lit "refs/heads/") dest))
          then Err (blocked "push to protected or ambiguous ref")
          else Ok tt
  | _ => Err (blocked "push requires explicit remote and single refspec")
  end.

(** [args.strip_prefix(&["--no-pager"]).unwrap_or(args)] *)
Definition git_args (args : list str) : list str :=
  match args with
  | first :: rest => if is_lit first "--no-pager" then rest else args
  | [] => args
  end.
(** The program named by the first word: [/usr/bin] and [/bin] are trusted. *)
Definition program (head : str) : str :=
  match strip (lit "/usr/bin/") head with
  | Some h => h
  | None => match strip (lit "/bin/") head with Some h => h | None => head end
  end.

Definition classify_git (args : list str) (remote : bool) : Result CommandClass :=
  match git_args args with
  | [] => Err (blocked "missing git subcommand")
  | sub :: rest =>
      let safe (b : bool) :=
        if b then Ok ReadOnlyCommand
        else Err (blocked "unsupported git subcommand or options") in
      if is_lit sub "status" then
        safe (options rest "sbzuno" ["short"; "branch"; "porcelain"; "porcelain=v1";
                "porcelain=v2"; "untracked-files=no"; "untracked-files=all"])
      else if is_any sub ["diff"; "show"; "log"] then
        let flags := default [] (head (split (lit "--") rest)) in
        if negb (member (lit "--no-ext-diff") flags) || negb (member (lit "--no-textconv") flags)
        then Err (blocked "git diff helpers must be explicitly disabled")
        else
          safe (options rest "pUsw0123456789" ["stat"; "numstat"; "shortstat"; "name-only";
                  "name-status"; "oneline"; "no-patch"; "no-ext-diff"; "no-textconv"; "cached";
                  "staged"; "all"; "decorate"; "reverse"])
      else if is_lit sub "rev-parse" then
        safe (options rest "" ["verify"; "short"; "show-toplevel"; "is-inside-work-tree";
                "abbrev-ref"])
      else if is_lit sub "ls-files" then
        safe (options rest "zcmdos" ["cached"; "modified"; "deleted"; "others";
                "exclude-standard"])
      else if is_lit sub "push" then
        if negb remote then Err (blocked "git remote writes are disabled")
        else _ ← validate_git_push rest; Ok Mutating
      else if is_lit sub "add" then
        if negb (options rest "Auv" ["all"; "update"; "verbose"])
        then Err (blocked "unsupported git add option")
        else Ok Mutating
      else safe false
  end.

(** [classify_argv] on [head :: args]: its callers never pass an empty vector. *)
Definition classify_argv (head : str) (args : list str) (remote : bool) : Result CommandClass :=
  let head := program head in
  let read_only (b : bool) :=
    if b then Ok ReadOnlyCommand else Err (blocked "unsupported command arguments") in
  if is_any head ["true"; "false"] then read_only (bool_decide (args = []))
  else if is_lit head "echo" then read_only true
  else if is_lit head "pwd" then read_only (options args "LP" [])
  else if is_lit head "cat" then
    read_only (options args "AbenstuvET" ["show-all"; "number"; "number-nonblank";
      "squeeze-blank"])
  else if is_lit head "ls" then
    read_only (options args "aAbBcCdDfFghHiIklLmnpqQrRstTuUvwxX1" ["all"; "almost-all";
      "directory"; "human-readable"; "numeric-uid-gid"; "recursive"; "reverse"])
  else if is_lit head "wc" then
    read_only (options args "clmwL" ["bytes"; "chars"; "lines"; "words"; "max-line-length"])
  else if is_lit head "grep" then
    read_only (options args "EFGPeifvwxclLnhHsqrRoaAbBC0123456789" ["fixed-strings";
      "extended-regexp"; "ignore-case"; "line-number"; "recursive"; "files-with-matches";
      "count"])
  else if is_any head ["head"; "tail"] then read_only (options args "cnqv0123456789" [])
  else if is_lit head "git" then classify_git args remote
  else if is_lit head "rm" then
    if negb (options args "rfRivd" ["recursive"; "force"; "verbose"; "dir"])
    then Err (blocked "unsupported rm option")
    else if existsb protected_path args then Err (blocked "removal of protected paths")
    else Ok Mutating
  else if is_lit head "mkdir" then
    if negb (options args "pv" ["parents"; "verbose"])
    then Err (blocked "unsupported mkdir option")
    else if existsb protected_path args then Err (blocked "mutation of protected paths")
    else Ok Mutating
  else Err (blocked "unknown or indirect-execution program").

(** ** [classify_command] *)

Definition is_mutating (k : CommandClass) : bool := bool_decide (k = Mutating).
Fixpoint classify (remote : bool) (tokens : list Token) (argv : list str) (mutated any : bool)
    : Result (bool * bool) :=
  match tokens with
  | [] =>
      match argv with
      | [] => Ok (mutated, any)
      | head :: args => k ← classify_argv head args remote; Ok (mutated || is_mutating k, true)
      end
  | Word word :: rest => classify remote rest (argv ++ [word]) mutated any
  | Redirect write :: Word path :: rest =>
      if write && negb (is_lit path "/dev/null") then
        if protected_path path then Err (blocked "redirect to protected path")
        else classify remote rest argv true any
      else classify remote rest argv mutated any
  | Redirect _ :: _ => Err (blocked "missing redirect target")
  | Separator terminal :: rest =>
      if negb terminal && bool_decide (rest = []) then Err (blocked "incomplete shell operator")
      else match argv with
           | [] => Err (blocked "empty shell statement")
           | head :: args =>
               k ← classify_argv head args remote;
               classify remote rest [] (mutated || is_mutating k) true
           end
  end.
Definition classify_command (command : str) (access : AccessMode) (git_remote_writes : bool)
    : Result CommandClass :=
  tokens ← tokenize command;
  '(mutated, any) ← classify git_remote_writes tokens [] false false;
  if negb any then Err (blocked "empty shell command")
  else if mutated && bool_decide (access = ReadOnly)
  then Err (blocked "command mutates in read-only mode")
  else Ok (if mutated then Mutating else ReadOnlyCommand).
