(* ===== verification/ShellProps.v ===== *)
(** * ShellProps: what the shell classifier guarantees

    The tokenizer reads back every command line printed from argument vectors;
    the classifier decides exactly by the vectors [inspect_literal_commands]
    returns and by the redirections; and the destinations of pushes. *)

From Stdlib Require Import Ascii.
From S2P Require Import Prelude Core Chars Shell.

(** ** Printing argument vectors *)

(** A word in single quotes; a single quote inside as [quote escape quote]. *)
Definition escape (c : char) : str :=
  if (c =? squote)%N then [squote; backslash; squote; squote] else [c].
Definition quote_word (w : str) : str := squote :: (w ≫= escape) ++ [squote].
(** One command per line. *)
Definition render_argv (argv : list str) : str := argv ≫= λ w, quote_word w ++ [32%N].
Definition render (cmds : list (list str)) : str := cmds ≫= λ argv, render_argv argv ++ [10%N].
Definition word_tokens (cmds : list (list str)) : list Token :=
  cmds ≫= λ argv, (Word <$> argv) ++ [Separator true].

Definition idle (ts : list Token) : Lexer := mkLexer ts [] false None true.
Definition in_word (ts : list Token) (w : str) : Lexer := mkLexer ts w true (Some squote) false.

Lemma lex_escape ts w c k :
  length ts ≤ 2048 → forbidden c = false →
  lex false (escape c ++ k) (in_word ts w) = lex false k (in_word ts (w ++ [c])).
Proof.
  intros Hlen Hc. unfold escape. destruct (c =? squote)%N eqn:Hq.
  - apply N.eqb_eq in Hq as ->. simpl. unfold step, unquoted. simpl.
    by rewrite (proj2 (Nat.ltb_ge 2048 (length ts))) by done.
  - simpl. unfold step. rewrite Hc. simpl. by rewrite Hq.
Qed.

Lemma lex_escapes ts w v k :
  length ts ≤ 2048 → Forall (λ c, forbidden c = false) v →
  lex false ((v ≫= escape) ++ k) (in_word ts w) = lex false k (in_word ts (w ++ v)).
Proof.
  intros Hlen. revert w; induction v as [|c v IH]; intros w Hv; simpl.
  - by rewrite app_nil_r.
  - apply Forall_cons in Hv as [Hc Hv]. rewrite <-(assoc_L (++)), lex_escape by done.
    by rewrite IH, <-(assoc_L (++)).
Qed.

Lemma lex_word ts w k :
  length ts < 2048 → Forall (λ c, forbidden c = false) w →
  lex false (quote_word w ++ 32%N :: k) (idle ts) = lex false k (idle (ts ++ [Word w])).
Proof.
  intros Hlen Hw. unfold quote_word. simpl. unfold step at 1, unquoted. simpl.
  rewrite (proj2 (Nat.ltb_ge 2048 (length ts))) by lia. fold (in_word ts []).
  rewrite <-(assoc_L (++)), lex_escapes by (done || lia). simpl.
  unfold step, unquoted. simpl. rewrite length_app. simpl.
  by rewrite (proj2 (Nat.ltb_ge 2048 (length ts + 1))) by lia.
Qed.

Lemma render_argv_cons w argv k :
  render_argv (w :: argv) ++ k = quote_word w ++ 32%N :: render_argv argv ++ k.
Proof. unfold render_argv. rewrite bind_cons. by rewrite <-!(assoc_L (++)). Qed.
Lemma render_cons argv cmds k :
  render (argv :: cmds) ++ k = render_argv argv ++ 10%N :: render cmds ++ k.
Proof. unfold render. rewrite bind_cons. by rewrite <-!(assoc_L (++)). Qed.

Lemma lex_argv ts argv k :
  length ts + length argv ≤ 2048 → Forall (Forall (λ c, forbidden c = false)) argv →
  lex false (render_argv argv ++ k) (idle ts) = lex false k (idle (ts ++ (Word <$> argv))).
Proof.
  revert ts; induction argv as [|w argv IH]; intros ts Hlen Hw.
  - csimpl. by rewrite app_nil_r.
  - apply Forall_cons in Hw as [Hw Hws]. simpl in Hlen. rewrite fmap_cons, render_argv_cons.
    rewrite lex_word by (done || lia). rewrite IH by (done || rewrite length_app; simpl; lia).
    by rewrite <-(assoc_L (++)).
Qed.

Lemma lex_render ts cmds k :
  length ts + length (word_tokens cmds) ≤ 2048 →
  Forall (Forall (Forall (λ c, forbidden c = false))) cmds →
  lex false (render cmds ++ k) (idle ts) = lex false k (idle (ts ++ word_tokens cmds)).
Proof.
  revert ts; induction cmds as [|argv cmds IH]; intros ts Hlen Hw.
  - csimpl. by rewrite app_nil_r.
  - apply Forall_cons in Hw as [Hw Hws]. unfold word_tokens in Hlen. rewrite bind_cons in Hlen.
    rewrite !length_app, length_fmap in Hlen. simpl in Hlen.
    rewrite render_cons, lex_argv by (done || lia). cbn [lex].
    unfold step, unquoted. simpl. rewrite !length_app, length_fmap. simpl.
    rewrite (proj2 (Nat.ltb_ge _ _)) by lia.
    change (push_token _ _) with (idle ((ts ++ (Word <$> argv)) ++ [Separator true])).
    rewrite <-(assoc_L (++)).
    rewrite IH by (done || rewrite !length_app, length_fmap; simpl; unfold word_tokens; lia).
    by rewrite <-!(assoc_L (++)).
Qed.

Lemma inspect_words ts commands argv ws :
  inspect ((Word <$> ws) ++ ts) commands argv = inspect ts commands (argv ++ ws).
Proof.
  revert argv; induction ws as [|w ws IH]; intros argv; csimpl.
  - by rewrite app_nil_r.
  - by rewrite IH, <-(assoc_L (++)).
Qed.
Lemma inspect_render commands cmds :
  commands ++ cmds ≠ [] → Forall (.≠ []) cmds →
  inspect (word_tokens cmds) commands [] = Ok (commands ++ cmds).
Proof.
  revert commands; induction cmds as [|argv cmds IH]; intros commands Hne Hc.
  - simpl. rewrite app_nil_r in Hne |- *. by destruct commands.
  - apply Forall_cons in Hc as [Ha Hc]. unfold word_tokens. csimpl.
    rewrite <-(assoc_L (++)), inspect_words. simpl. fold (word_tokens cmds).
    destruct argv as [|w argv]; [done|]. rewrite IH; [|by destruct commands|done].
    by rewrite <-(assoc_L (++)).
Qed.

(** The tokenizer is faithful to quoting.  Any nonempty commands with
    nonempty argument vectors, printed one per line with every word in single
    quotes, are read back word for word (spaces, operators, expansions and
    quotes inside the words included), within the classifier's limits. *)
Theorem inspect_round_trip cmds :
  cmds ≠ [] → Forall (.≠ []) cmds →
  Forall (Forall (Forall (λ c, forbidden c = false))) cmds →
  (utf8_len (render cmds) <= 65536)%N → length (word_tokens cmds) ≤ 2048 →
  inspect_literal_commands (render cmds) = Ok cmds.
Proof.
  intros Hne Hargv Hchars Hlen Htok. unfold inspect_literal_commands, tokenize.
  rewrite (proj2 (N.ltb_ge _ _)) by done.
  rewrite <-(app_nil_r (render cmds)). change init_lexer with (idle []).
  rewrite lex_render by done. simpl. rewrite (proj2 (Nat.ltb_ge _ _)) by done. simpl.
  by rewrite inspect_render.
Qed.

(** ** The classification and the inspected commands *)

Definition classify_command_argv (remote : bool) (argv : list str) : Result CommandClass :=
  match argv with
  | [] => Err (blocked "empty shell statement")
  | head :: args => classify_argv head args remote
  end.
(** The files the redirections write, [/dev/null] apart. *)
Fixpoint write_targets (ts : list Token) : list str :=
  match ts with
  | Redirect write :: (Word path :: rest) as ts =>
      (if write && negb (is_lit path "/dev/null") then [path] else []) ++ write_targets rest
  | _ :: rest => write_targets rest
  | [] => []
  end.
Definition writes (command : str) : list str :=
  match tokenize command with Ok ts => write_targets ts | Err _ => [] end.

Lemma negb_nil {A} `{EqDecision A} (l : list A) x : negb (bool_decide (l ++ [x] = [])) = true.
Proof. by destruct l. Qed.

Lemma inspect_last commands h args :
  inspect [] commands (h :: args) = Ok (commands ++ [h :: args]).
Proof. by destruct commands. Qed.
(** Induction two tokens at a time over a redirection and its target. *)
Lemma tokens_ind (P : list Token → Prop) :
  P [] → (∀ w ts, P ts → P (Word w :: ts)) → (∀ t ts, P ts → P (Separator t :: ts)) →
  (∀ b w ts, P ts → P (Redirect b :: Word w :: ts)) →
  (∀ b ts, match ts with Word _ :: _ => False | _ => True end → P (Redirect b :: ts)) →
  ∀ ts, P ts.
Proof.
  intros Hn Hw Hs Hr Ho. fix IH 1. intros [|[w|t|b] ts].
  - apply Hn.
  - apply Hw, (IH ts).
  - apply Hs, (IH ts).
  - destruct ts as [|[w|t|b'] ts]; [by apply Ho|apply Hr, (IH ts)|by apply Ho..].
Qed.
Lemma inspect_grows ts : ∀ commands argv r,
  inspect ts commands argv = Ok r → ∃ new, r = commands ++ new.
Proof.
  induction ts as [|w ts IH|terminal ts IH|write w ts IH|write ts Hts] using tokens_ind;
    intros commands argv r.
  - destruct argv.
    + simpl. destruct commands; [done|]. intros [= <-]. exists []. by rewrite app_nil_r.
    + rewrite inspect_last. intros [= <-]. by eexists.
  - apply IH.
  - simpl. destruct (_ && _); [done|]. destruct argv; [done|].
    intros (new & ->)%IH. rewrite <-(assoc_L (++)). by eexists.
  - apply IH.
  - by destruct ts as [|[] ?].
Qed.

(** Both loops refuse. *)
Ltac refused := split; [discriminate|intros (? & ? & ? & _); discriminate].

(** A loop state of [classify] is one of [inspect] with a verdict. *)
Lemma classify_inspect remote m' ts : ∀ commands argv m,
  classify remote ts argv m (negb (bool_decide (commands = []))) = Ok (m', true) ↔
  ∃ new ks, inspect ts commands argv = Ok (commands ++ new) ∧
    mapR (classify_command_argv remote) new = Ok ks ∧
    Forall (λ p, protected_path p = false) (write_targets ts) ∧
    m' = m || existsb is_mutating ks || negb (bool_decide (write_targets ts = [])).
Proof.
  induction ts as [|w ts IH|terminal ts IH|write w ts IH|write ts Hts] using tokens_ind;
    intros commands argv m.
  - destruct argv as [|h args].
    + simpl. split.
      * intros [= -> Hne]. exists [], []. simpl. rewrite app_nil_r, !orb_false_r.
        by destruct commands.
      * intros (new & ks & Hi & Hk & _ & ->). destruct commands as [|c commands]; [done|].
        injection Hi as Hi. rewrite <-(app_nil_r commands) in Hi at 1.
        apply app_inv_head in Hi as <-. injection Hk as <-. simpl. by rewrite !orb_false_r.
    + rewrite inspect_last. simpl. split.
      * destruct (classify_argv h args remote) as [k|] eqn:Hk; [|done]. intros [= <-].
        exists [h :: args], [k]. simpl. rewrite Hk. by rewrite !orb_false_r.
      * intros (new & ks & Hi & Hk & _ & ->). apply Ok_inj, app_inv_head in Hi as <-.
        simpl in Hk. destruct (classify_argv h args remote) as [k|]; [|done].
        injection Hk as <-. simpl. by rewrite !orb_false_r.
  - apply IH.
  - simpl. destruct (negb terminal && _); [refused|].
    destruct argv as [|h args]; [refused|].
    specialize (IH (commands ++ [h :: args]) []). rewrite negb_nil in IH.
    split.
    + destruct (classify_argv h args remote) as [k|] eqn:Hk; [|done].
      intros (new & ks & Hi & Hks & Hw & ->)%IH. exists ((h :: args) :: new), (k :: ks). simpl.
      rewrite Hk, Hks, Hi, <-(assoc_L (++)), !orb_assoc. done.
    + intros (new & ks & Hi & Hks & Hw & ->).
      destruct (inspect_grows _ _ _ _ Hi) as [new' Hnew].
      rewrite <-(assoc_L (++)) in Hnew. apply app_inv_head in Hnew as ->. simpl in Hks.
      destruct (classify_argv h args remote) as [k|] eqn:Hk; [|done].
      destruct (mapR _ new') as [ks'|] eqn:Hks'; [|done]. injection Hks as <-. simpl.
      apply IH. exists new', ks'. rewrite Hi, <-(assoc_L (++)). split_and!; [done..|].
      simpl. by rewrite !orb_assoc.
  - simpl.
    specialize (IH commands argv).
    destruct (write && negb (is_lit w "/dev/null")); simpl; [|apply IH].
    destruct (protected_path w) eqn:Hp.
    + split; [done|]. intros (? & ? & _ & _ & Hf & _). apply Forall_cons in Hf as [Hf _].
      congruence.
    + rewrite IH. setoid_rewrite Forall_cons.
      split; intros (new & ks & Hi & Hks & Hw & ->); exists new, ks.
      * by rewrite orb_true_r.
      * destruct Hw as [_ Hw]. by rewrite orb_true_r.
  - destruct ts as [|[] ?]; [refused|done|refused..].
Qed.

Lemma classify_command_spec' command access remote k :
  classify_command command access remote = Ok k ↔
  ∃ cmds ks, inspect_literal_commands command = Ok cmds ∧
    mapR (classify_command_argv remote) cmds = Ok ks ∧
    Forall (λ p, protected_path p = false) (writes command) ∧
    let mutated := existsb is_mutating ks || negb (bool_decide (writes command = [])) in
    (access = ReadOnly → mutated = false) ∧
    k = if mutated then Mutating else ReadOnlyCommand.
Proof.
  unfold classify_command, inspect_literal_commands, writes.
  destruct (tokenize command) as [ts|]; simpl; [|naive_solver].
  pose proof (λ m', classify_inspect remote m' ts [] [] false) as Hci. simpl in Hci.
  split.
  - destruct (classify remote ts [] false false) as [[m [|]]|] eqn:Hc; simpl; [|done..].
    destruct (proj1 (Hci m) eq_refl) as (cmds & ks & Hi & Hk & Hw & ->).
    destruct (_ || _) eqn:Hm; simpl.
    + destruct (bool_decide (access = ReadOnly)) eqn:Ha; [done|]. intros [= <-].
      apply bool_decide_eq_false in Ha. exists cmds, ks. by rewrite Hm.
    + intros [= <-]. exists cmds, ks. by rewrite Hm.
  - intros (cmds & ks & Hi & Hk & Hw & Ha & ->).
    rewrite (proj2 (Hci (existsb is_mutating ks || negb (bool_decide (write_targets ts = [])))))
      by (exists cmds, ks; done).
    simpl. destruct (_ || _); simpl; [|done].
    rewrite bool_decide_eq_false_2; [done|]. intros Hro. by specialize (Ha Hro).
Qed.

(** Classification is decided by the inspected commands.  A command line
    is accepted exactly when it is in the literal grammar, every command
    [inspect_literal_commands] returns is accepted on its own, no redirection
    writes a protected path, and, in read-only mode, nothing mutates; it is
    mutating exactly when one of its commands is or a redirection writes a file
    other than [/dev/null]. *)
Theorem classify_command_spec command access remote k :
  classify_command command access remote = Ok k ↔
  ∃ cmds ks, inspect_literal_commands command = Ok cmds ∧
    mapR (classify_command_argv remote) cmds = Ok ks ∧
    Forall (λ p, protected_path p = false) (writes command) ∧
    let mutated := existsb is_mutating ks || negb (bool_decide (writes command = [])) in
    (access = ReadOnly → mutated = false) ∧
    k = if mutated then Mutating else ReadOnlyCommand.
Proof. apply classify_command_spec'. Qed.

(** ** Read-only commands *)

Lemma is_lit_true w s : is_lit w s = true ↔ w = lit s.
Proof. apply bool_decide_eq_true. Qed.
Lemma is_any_true w l : is_any w l = true ↔ w ∈ lit <$> l.
Proof.
  unfold is_any. rewrite existsb_exists, list_elem_of_fmap.
  setoid_rewrite is_lit_true. setoid_rewrite <-list_elem_of_In. naive_solver.
Qed.
Lemma mapR_Forall {E A B} (f : A → result E B) l bs :
  mapR f l = Ok bs → Forall2 (λ a b, f a = Ok b) l bs.
Proof.
  revert bs; induction l as [|a l IH]; intros bs; simpl; [by intros [= <-]|].
  destruct (f a) eqn:Ha; [|done]. destruct (mapR f l) eqn:Hl; [|done].
  intros [= <-]. constructor; [done|by apply IH].
Qed.

(** The arguments before [--], the options among them. *)
Fixpoint flags (args : list str) : list str :=
  match args with
  | [] => []
  | a :: args => if bool_decide (a = lit "--") then [] else a :: flags args
  end.
(** An operand, a cluster of the single-letter options [shorts], or one of the options
    [longs], which take no value after an equals sign. *)
Definition plain_argument (shorts : string) (longs : list string) (a : str) : Prop :=
  starts (lit "-") a = false
  ∨ (∃ cluster, a = lit "-" ++ cluster ∧ starts (lit "-") cluster = false
       ∧ ∀ c, c ∈ cluster → c ∈ lit shorts)
  ∨ ∃ long, a = lit "--" ++ lit long ∧ long ∈ longs.
(** The readers, each with its options that only choose what is read and printed. *)
Definition reader_options : list (string * (string * list string)) :=
  [("pwd", ("LP", []));
   ("cat", ("AbenstuvET", ["show-all"; "number"; "number-nonblank"; "squeeze-blank"]));
   ("ls", ("aAbBcCdDfFghHiIklLmnpqQrRstTuUvwxX1",
      ["all"; "almost-all"; "directory"; "human-readable"; "numeric-uid-gid"; "recursive"; "reverse"]));
   ("wc", ("clmwL", ["bytes"; "chars"; "lines"; "words"; "max-line-length"]));
   ("grep", ("EFGPeifvwxclLnhHsqrRoaAbBC0123456789",
      ["fixed-strings"; "extended-regexp"; "ignore-case"; "line-number"; "recursive"; "files-with-matches"; "count"]));
   ("head", ("cnqv0123456789", [])); ("tail", ("cnqv0123456789", []))].
Definition history_options : string * list string :=
  ("pUsw0123456789", ["stat"; "numstat"; "shortstat"; "name-only"; "name-status"; "oneline"; "no-patch";
     "no-ext-diff"; "no-textconv"; "cached"; "staged"; "all"; "decorate"; "reverse"]).
Definition git_reader_options : list (string * (string * list string)) :=
  [("status", ("sbzuno", ["short"; "branch"; "porcelain"; "porcelain=v1"; "porcelain=v2"; "untracked-files=no";
      "untracked-files=all"]));
   ("diff", history_options); ("show", history_options); ("log", history_options);
   ("rev-parse", ("", ["verify"; "short"; "show-toplevel"; "is-inside-work-tree"; "abbrev-ref"]));
   ("ls-files", ("zcmdos", ["cached"; "modified"; "deleted"; "others"; "exclude-standard"]))].
(** What makes Git write its output to a file or run another program: an option that names
    one of these, in full or abbreviated, with a value or without. *)
Definition redirects_or_runs (a : str) : Prop :=
  ∃ name value, a = lit "--" ++ name ++ value ∧ name ≠ []
    ∧ (value = [] ∨ ∃ v, value = lit "=" ++ v)
    ∧ ∃ long rest, long ∈ ["output"; "output-directory"; "ext-diff"; "textconv"; "exec"; "exec-path";
                           "upload-pack"; "receive-pack"; "paginate"; "open-files-in-pager"]
        ∧ lit long = name ++ rest.
Definition git_reader (args : list str) : Prop :=
  ∃ pager sub rest shorts longs, args = pager ++ lit sub :: rest ∧ pager ∈ [[]; [lit "--no-pager"]]
    ∧ (sub, (shorts, longs)) ∈ git_reader_options
    ∧ Forall (plain_argument shorts longs) (flags rest)
    ∧ Forall (λ a, ¬ redirects_or_runs a) (flags rest)
    ∧ (sub ∈ ["diff"; "show"; "log"] →
       lit "--no-ext-diff" ∈ flags rest ∧ lit "--no-textconv" ∈ flags rest).
Definition reader (argv : list str) : Prop :=
  ∃ head args, argv = head :: args
    ∧ (program head ∈ lit <$> ["true"; "false"] ∧ args = []
       ∨ program head = lit "echo"
       ∨ (∃ name shorts longs, (name, (shorts, longs)) ∈ reader_options ∧ program head = lit name
            ∧ Forall (plain_argument shorts longs) (flags args))
       ∨ program head = lit "git" ∧ git_reader args).

Lemma options_plain args shorts longs :
  options args shorts longs = true → Forall (plain_argument shorts longs) (flags args).
Proof.
  induction args as [|a args IH]; cbn [options flags]; [constructor|].
  unfold is_lit. case_bool_decide as Hd; [done|].
  destruct (strip (lit "--") a) as [long|] eqn:Hl.
  - apply strip_Some in Hl as ->. destruct (is_any long longs) eqn:Hin; [|done].
    intros H. constructor; [|by apply IH]. apply is_any_true, list_elem_of_fmap in Hin as (x & -> & Hx).
    right. right. by exists x.
  - destruct (strip (lit "-") a) as [cluster|] eqn:Hs.
    + apply strip_Some in Hs as ->. destruct (forallb _ cluster) eqn:Hf; [|done].
      intros H. constructor; [|by apply IH]. right. left. exists cluster. split_and!; [done| |].
      * destruct (starts (lit "-") cluster) eqn:Hst; [|done]. apply starts_spec in Hst as [r ->].
        exfalso. assert (strip (lit "--") (lit "-" ++ lit "-" ++ r) = Some r) as Hx; [|by rewrite Hx in Hl].
        by apply strip_Some.
      * rewrite forallb_forall in Hf. intros c Hc%list_elem_of_In%Hf. unfold one_of in Hc.
        apply existsb_exists in Hc as (d & Hd'%list_elem_of_In & ->%N.eqb_eq). done.
    + intros H. constructor; [|by apply IH]. left. destruct (starts _ a) eqn:Hst; [|done].
      apply starts_spec in Hst as [r Hr]. by rewrite (proj2 (strip_Some _ _ r) Hr) in Hs.
Qed.
(** None of Git's options that are let through is such an option. *)
Lemma plain_harmless sub shorts longs a :
  (sub, (shorts, longs)) ∈ git_reader_options → plain_argument shorts longs a → ¬ redirects_or_runs a.
Proof.
  intros Hsub Hp (name & value & -> & Hn & Hv & long & rest & Hlong & Hl).
  destruct Hp as [Hp|[(cluster & Hc & Hd & _)|(l & He & Hin)]].
  - assert (starts (lit "-") (lit "--" ++ name ++ value) = true) as Hx; [|congruence].
    apply starts_spec. by exists (lit "-" ++ name ++ value).
  - change (lit "-" ++ lit "-" ++ name ++ value = lit "-" ++ cluster) in Hc. apply app_inv_head in Hc as <-.
    assert (starts (lit "-") (lit "-" ++ name ++ value) = true) as Hx; [|congruence].
    apply starts_spec. by eexists.
  - apply app_inv_head in He.
    assert (Forall (λ o : string * (string * list string), Forall (λ l : string, Forall (λ long : string,
      starts (from_option fst (lit l) (split_first 61%N (lit l))) (lit long) = false ∧ 61%N ∉ lit long)
        ["output"; "output-directory"; "ext-diff"; "textconv"; "exec"; "exec-path"; "upload-pack"; "receive-pack";
         "paginate"; "open-files-in-pager"]) o.2.2) git_reader_options) as Hall
      by (apply (bool_decide_unpack _); vm_compute; exact I).
    rewrite Forall_forall in Hall. specialize (Hall _ Hsub). simpl in Hall.
    rewrite Forall_forall in Hall. specialize (Hall _ Hin). simpl in Hall.
    rewrite Forall_forall in Hall. specialize (Hall _ Hlong). simpl in Hall. destruct Hall as [Hst Hno].
    assert (61%N ∉ name) as Hnn by (rewrite Hl in Hno; set_solver).
    assert (from_option fst (lit l) (split_first 61%N (lit l)) = name) as Hname.
    { rewrite <-He. destruct Hv as [->|[v ->]].
      - rewrite app_nil_r. by rewrite (proj2 (split_first_None _ _) Hnn).
      - by rewrite (proj2 (split_first_Some _ _ name v)). }
    rewrite Hname in Hst. assert (starts name (lit long) = true); [|congruence].
    apply starts_spec. by exists rest.
Qed.

Lemma flags_split args : default [] (head (split (lit "--") args)) = flags args.
Proof.
  induction args as [|a args IH]; [done|]. cbn [split flags]. rewrite <-IH.
  case_decide as Ha; [by rewrite bool_decide_eq_true_2|]. rewrite bool_decide_eq_false_2 by done.
  pose proof (split_not_nil (lit "--") args). by destruct (split (lit "--") args).
Qed.

(** The branch of a chain of [is_lit] and [is_any] tests that was taken. *)
Ltac branches H :=
  repeat match type of H with
  | (if is_lit ?w ?s then _ else _) = _ =>
      let E := fresh "E" in destruct (is_lit w s) eqn:E; [apply is_lit_true in E|]
  | (if is_any ?w ?l then _ else _) = _ =>
      let E := fresh "E" in destruct (is_any w l) eqn:E; [apply is_any_true in E|]
  end.

Lemma git_args_split args sub rest :
  git_args args = sub :: rest → ∃ pager, args = pager ++ sub :: rest ∧ pager ∈ [[]; [lit "--no-pager"]].
Proof.
  unfold git_args. destruct args as [|a args]; [done|]. destruct (is_lit a "--no-pager") eqn:Ha.
  - apply is_lit_true in Ha as ->. intros ->. exists [lit "--no-pager"]. split; [done|]. right. by left.
  - intros ->. exists []. split; [done|by left].
Qed.
Lemma git_reader_intro args sub rest shorts longs :
  git_args args = lit sub :: rest → (sub, (shorts, longs)) ∈ git_reader_options →
  options rest shorts longs = true →
  (sub ∈ ["diff"; "show"; "log"] → lit "--no-ext-diff" ∈ flags rest ∧ lit "--no-textconv" ∈ flags rest) →
  git_reader args.
Proof.
  intros (pager & -> & Hp)%git_args_split Hin Ho%options_plain Hh.
  exists pager, sub, rest, shorts, longs. split_and!; [done..| |done].
  eapply Forall_impl; [exact Ho|]. intros a. by apply (plain_harmless sub).
Qed.
Lemma classify_git_reader args remote :
  classify_git args remote = Ok ReadOnlyCommand → git_reader args.
Proof.
  unfold classify_git. destruct (git_args args) as [|sub rest] eqn:Hargs; [done|].
  intros H. branches H.
  - subst. destruct (options _ _ _) eqn:Ho; [|done]. eapply git_reader_intro; [done| |exact Ho|].
    + apply (bool_decide_unpack _). vm_compute. exact I.
    + intros Hin. exfalso. set_solver.
  - rewrite flags_split in H. destruct (negb _ || negb _) eqn:Hf; [done|].
    apply orb_false_iff in Hf as [H1%negb_false_iff H2%negb_false_iff]. unfold member in *. bools.
    destruct (options _ _ _) eqn:Ho; [|done].
    apply list_elem_of_fmap in E0 as (x & -> & Hx). eapply (git_reader_intro _ x); [done| |exact Ho|done].
    rewrite !elem_of_cons, elem_of_nil in Hx. destruct_or! Hx; try done; subst x; unfold git_reader_options; set_solver.
  - subst. destruct (options _ _ _) eqn:Ho; [|done]. eapply git_reader_intro; [done| |exact Ho|].
    + apply (bool_decide_unpack _). vm_compute. exact I.
    + intros Hin. exfalso. set_solver.
  - subst. destruct (options _ _ _) eqn:Ho; [|done]. eapply git_reader_intro; [done| |exact Ho|].
    + apply (bool_decide_unpack _). vm_compute. exact I.
    + intros Hin. exfalso. set_solver.
  - destruct (negb remote); [done|]. by destruct (validate_git_push rest).
  - destruct (negb _); done.
  - done.
Qed.

Lemma classify_argv_reader remote argv :
  classify_command_argv remote argv = Ok ReadOnlyCommand → reader argv.
Proof.
  destruct argv as [|head args]; simpl; [done|]. unfold classify_argv, reader.
  assert (∀ name shorts longs, (name, (shorts, longs)) ∈ reader_options → program head = lit name →
    options args shorts longs = true →
    ∃ name shorts longs, (name, (shorts, longs)) ∈ reader_options ∧ program head = lit name
      ∧ Forall (plain_argument shorts longs) (flags args)) as Hread.
  { intros name shorts longs ? ? ?%options_plain. by exists name, shorts, longs. }
  intros H. exists head, args. split; [done|]. branches H.
  - left. split; [done|]. case_bool_decide; done.
  - right. by left.
  - right. right. left. destruct (options _ _ _) eqn:Ho; [|done].
    eapply Hread; [|done|exact Ho]. apply (bool_decide_unpack _). vm_compute. exact I.
  - right. right. left. destruct (options _ _ _) eqn:Ho; [|done].
    eapply Hread; [|done|exact Ho]. apply (bool_decide_unpack _). vm_compute. exact I.
  - right. right. left. destruct (options _ _ _) eqn:Ho; [|done].
    eapply Hread; [|done|exact Ho]. apply (bool_decide_unpack _). vm_compute. exact I.
  - right. right. left. destruct (options _ _ _) eqn:Ho; [|done].
    eapply Hread; [|done|exact Ho]. apply (bool_decide_unpack _). vm_compute. exact I.
  - right. right. left. destruct (options _ _ _) eqn:Ho; [|done].
    eapply Hread; [|done|exact Ho]. apply (bool_decide_unpack _). vm_compute. exact I.
  - right. right. left. destruct (options _ _ _) eqn:Ho; [|done].
    match goal with E : _ ∈ lit <$> _ |- _ => apply list_elem_of_fmap in E as (x & Hx & Hin) end.
    eapply Hread; [|exact Hx|exact Ho]. unfold reader_options. set_solver.
  - right. right. right. split; [done|]. by eapply classify_git_reader.
  - destruct (negb _); [done|]. by destruct (existsb _ _).
  - destruct (negb _); [done|]. by destruct (existsb _ _).
  - done.
Qed.

(** C39: what read-only means.  Whatever the classifier lets through in read-only mode, and
    whatever it calls read-only in any mode, redirects its output to no file but
    [/dev/null] and runs only readers, under their own name or in the system directories:
    each with operands and with options of its own table ([reader_options],
    [git_reader_options]), which has none that makes Git write its output to a file or run
    another program, in full or abbreviated, and with Git's external helpers disabled
    wherever it would run them.  (What the readers do with these options is theirs.) *)
Theorem read_only_programs command access remote k :
  classify_command command access remote = Ok k → access = ReadOnly ∨ k = ReadOnlyCommand →
  k = ReadOnlyCommand ∧ writes command = [] ∧
  ∃ cmds, inspect_literal_commands command = Ok cmds ∧ Forall reader cmds.
Proof.
  intros (cmds & ks & Hi & Hk & _ & Ha & ->)%classify_command_spec' Hro.
  assert (existsb is_mutating ks || negb (bool_decide (writes command = [])) = false) as Hm.
  { destruct Hro as [Hro|Hro]; [by apply Ha|]. by destruct (_ || _). }
  rewrite Hm. apply orb_false_iff in Hm as [Hm Hw]. bools.
  split_and!; [done..|]. exists cmds. split; [done|].
  apply mapR_Forall in Hk. apply Forall_forall. intros argv Hargv.
  apply list_elem_of_lookup in Hargv as [i Hargv].
  destruct (Forall2_lookup_l _ _ _ _ _ Hk Hargv) as (k & Hki & Hc).
  apply (classify_argv_reader remote). rewrite Hc. f_equal.
  destruct k; [done|]. exfalso.
  assert (existsb is_mutating ks = true); [|congruence].
  apply existsb_exists. exists Mutating. split; [|done].
  apply list_elem_of_In. by eapply list_elem_of_lookup_2.
Qed.

(** ** Pushes *)

Definition push_args (argv : list str) : option (list str) :=
  match argv with
  | [] => None
  | head :: args =>
      match git_args args with
      | sub :: rest =>
          if is_lit (program head) "git" && is_lit sub "push" then Some rest else None
      | [] => None
      end
  end.

Lemma validate_git_push_Ok rest :
  validate_git_push rest = Ok tt →
  ∃ opts remote spec source dest, rest = opts ++ [remote; spec] ∧
    opts ∈ [[]; [lit "-u"]; [lit "--set-upstream"]] ∧
    (spec = source ++ lit ":" ++ dest ∨ spec = source ∧ spec = dest) ∧
    simple_ref remote = true ∧ simple_ref source = true ∧ simple_ref dest = true ∧
    dest ∉ lit <$> ["main"; "master"; "HEAD"; "refs/heads/main"; "refs/heads/master";
                    "refs/heads/HEAD"] ∧
    (starts (lit "refs/") dest = true → starts (lit "refs/heads/") dest = true).
Proof.
  unfold validate_git_push. intros H.
  set (tl := match rest with [] => rest | _ => _ end) in H.
  assert (∃ opts, rest = opts ++ tl ∧ opts ∈ [[]; [lit "-u"]; [lit "--set-upstream"]])
    as (opts & Hrest & Hopts).
  { subst tl. destruct rest as [|a rest]; [by exists []; split; [|left]|].
    destruct (is_any a _) eqn:Ha.
    - apply is_any_true in Ha. exists [a]. split; [done|]. set_solver.
    - exists []. split; [done|left]. }
  destruct tl as [|remote [|spec [|]]]; try done.
  destruct (simple_ref remote) eqn:Hr; [|done]. cbn [negb orb] in H.
  destruct (default (spec, spec) (split_first _ spec)) as [source dest] eqn:Hs.
  destruct (simple_ref source) eqn:Hsrc; [|done]. destruct (simple_ref dest) eqn:Hd; [|done].
  cbn [negb orb] in H. destruct (_ || _) eqn:Hb; [done|]. apply orb_false_iff in Hb as [Hb Hp].
  exists opts, remote, spec, source, dest. split_and!; try done.
  - destruct (split_first (N_of_ascii ":") spec) as [[s d]|] eqn:Hsp; simplify_eq/=.
    + apply split_first_Some in Hsp as [-> _]. by left.
    + by right.
  - intros Hin. assert (is_any (default dest (strip (lit "refs/heads/") dest))
      ["main"; "master"; "HEAD"] = true) as Ht; [|by rewrite Ht in Hb].
    clear Hb Hp H Hd Hs. rewrite list_elem_of_fmap in Hin. destruct Hin as (y & -> & Hy).
    rewrite !elem_of_cons, elem_of_nil in Hy.
    destruct_or! Hy; try done; subst; vm_compute; reflexivity.
  - intros Hst. rewrite Hst in Hp. cbn [andb] in Hp. bools. done.
Qed.

(** Pushes are guarded.  A [git push] the classifier accepts needs remote
    writes enabled and a writable mode, names one remote and one literal
    refspec, and its destination is no protected branch, neither by its short
    name nor under [refs/heads].  The guard stops there: the destination
    [heads/main], which Git resolves to the same branch, is accepted. *)
Theorem git_push_guard :
  (∀ command access remote k cmds argv rest,
  classify_command command access remote = Ok k →
  inspect_literal_commands command = Ok cmds → argv ∈ cmds → push_args argv = Some rest →
  remote = true ∧ access ≠ ReadOnly ∧ k = Mutating ∧
  ∃ opts r spec source dest, rest = opts ++ [r; spec] ∧
    opts ∈ [[]; [lit "-u"]; [lit "--set-upstream"]] ∧
    (spec = source ++ lit ":" ++ dest ∨ spec = source ∧ spec = dest) ∧
    simple_ref r = true ∧ simple_ref source = true ∧ simple_ref dest = true ∧
    dest ∉ lit <$> ["main"; "master"; "HEAD"; "refs/heads/main"; "refs/heads/master";
                    "refs/heads/HEAD"] ∧
    (starts (lit "refs/") dest = true → starts (lit "refs/heads/") dest = true)) ∧
  classify_command (lit "git push origin feature:heads/main") FullAccess true = Ok Mutating.
Proof.
  split; [|vm_compute; reflexivity]. intros command access remote k cmds argv rest.
  intros (cmds' & ks & Hi & Hk & _ & Ha & ->)%classify_command_spec' Hi' Hargv Hp. det.
  apply mapR_Forall in Hk. apply list_elem_of_lookup in Hargv as [i Hargv].
  destruct (Forall2_lookup_l _ _ _ _ _ Hk Hargv) as (k & Hki & Hc).
  assert (remote = true ∧ k = Mutating ∧ validate_git_push rest = Ok tt) as (-> & -> & Hv).
  { destruct argv as [|head args]; [done|]. simpl in Hp, Hc.
    destruct (git_args args) as [|sub rest'] eqn:Hg; [done|].
    destruct (is_lit (program head) "git") eqn:Hh; [|done].
    destruct (is_lit sub "push") eqn:Hsub; [|done]. simplify_eq/=.
    apply is_lit_true in Hh, Hsub. unfold classify_argv in Hc. rewrite Hh in Hc. simpl in Hc.
    unfold classify_git in Hc. rewrite Hg, Hsub in Hc. simpl in Hc.
    destruct remote; [|done]. simpl in Hc. destruct (validate_git_push rest) as [[]|]; [|done].
    by simplify_eq/=. }
  assert (existsb is_mutating ks = true) as Hm.
  { apply existsb_exists. exists Mutating. split; [|done].
    apply list_elem_of_In. by eapply list_elem_of_lookup_2. }
  rewrite Hm in *. simpl in *. split_and!; [done| |done|].
  - intros Hro. by specialize (Ha Hro).
  - by apply validate_git_push_Ok.
Qed.

(** An escape hides a zero-width character from the check of [tokenize]. *)
Lemma escaped_zero_width_accepted :
  tokenize (0x200b%N :: lit "x") = Err (blocked "control characters in shell command") ∧
  tokenize (backslash :: 0x200b%N :: lit "x") = Ok [Word (0x200b%N :: lit "x")].
Proof. split; vm_compute; reflexivity. Qed.

(** ** The theorems at concrete inputs *)

Lemma inspect_round_trip_witness :
  let cmds := [[lit "echo"; lit "it's; $(rm -rf /) > x"; []]; [lit "ls"]] in
  inspect_literal_commands (render cmds) = Ok cmds.
Proof.
  apply inspect_round_trip; [done|by repeat constructor| | |vm_compute; lia].
  - repeat constructor.
  - vm_compute. discriminate.
Defined.

Lemma read_only_programs_witness :
  let command := lit "/bin/ls -la | grep -n foo 2>/dev/null" in
  ReadOnlyCommand = ReadOnlyCommand ∧ writes command = [] ∧
  ∃ cmds, inspect_literal_commands command = Ok cmds ∧ Forall reader cmds.
Proof.
  apply (read_only_programs _ ReadOnly false); [vm_compute; reflexivity|by left].
Defined.

Lemma git_push_guard_witness :
  true = true ∧ FullAccess ≠ ReadOnly ∧ Mutating = Mutating ∧
  ∃ opts r spec source dest, [lit "-u"; lit "origin"; lit "topic"] = opts ++ [r; spec] ∧
    opts ∈ [[]; [lit "-u"]; [lit "--set-upstream"]] ∧
    (spec = source ++ lit ":" ++ dest ∨ spec = source ∧ spec = dest) ∧
    simple_ref r = true ∧ simple_ref source = true ∧ simple_ref dest = true ∧
    dest ∉ lit <$> ["main"; "master"; "HEAD"; "refs/heads/main"; "refs/heads/master";
                    "refs/heads/HEAD"] ∧
    (starts (lit "refs/") dest = true → starts (lit "refs/heads/") dest = true).
Proof.
  apply (proj1 git_push_guard (lit "git push -u origin topic") FullAccess true Mutating
    [[lit "git"; lit "push"; lit "-u"; lit "origin"; lit "topic"]]
    [lit "git"; lit "push"; lit "-u"; lit "origin"; lit "topic"]);
    [vm_compute; reflexivity|vm_compute; reflexivity|by left|vm_compute; reflexivity].
Defined.
