(* ===== verification/ShellPolicy.v ===== *)
(** * ShellPolicy: the guard of the shell tool

    [crates/adk-tools/src/shell_policy.rs]: [command_blocked] says why a command
    may not run.  [check] reads the command with a lenient parser of its own, looks
    through wrappers ([unwrap]) and into nested commands; in a restricted mode
    [literal_check] also requires that the strict parser of adk-security
    ([Shell]) accepts it.  A string is a list of scalar values; the classes the
    code tests on bytes are ASCII, so it reads the same on either.  [debug] is the
    format [{:?}] of a string and [is_f64] says that a string parses as a float. *)

From Stdlib Require Import Ascii.
From S2P Require Import Prelude Core Chars Shell.

Section policy.
Context (debug : str → str) (is_f64 : str → bool).
Notation "a +: b" := (lit a%string ++ b) (at level 60, right associativity).
Notation reason := (option str).

(** The part of a path after its last slash. *)
Definition base (s : str) : str := default [] (last (split (N_of_ascii "/") s)).
Definition shell (s : str) : bool := is_any s ["sh"; "bash"; "zsh"; "ksh"; "dash"; "ash"].
Definition assignment (s : str) : bool :=
  match split_first (N_of_ascii "=") s with
  | Some (c :: name, _) =>
      (is_char c "_" || is_alphabetic c)
      && forallb (λ c, is_char c "_" || is_alphabetic c || is_digit c) name
  | _ => false
  end.

(** ** [unwrap] *)
Fixpoint drop_assignments (words : list str) : list str :=
  match words with
  | w :: rest => if assignment w then drop_assignments rest else words
  | [] => []
  end.
(** The options of a wrapper that take an operand. *)
Definition operands (head : str) : option (list string) :=
  if is_lit head "sudo" then
    Some ["-u"; "--user"; "-g"; "--group"; "-h"; "--host"; "-p"; "--prompt"; "-C"; "--close-from"; "-D";
          "--chdir"; "-R"; "--chroot"; "-r"; "--role"; "-t"; "--type"; "-T"; "--command-timeout"; "-U";
          "--other-user"]
  else if is_lit head "doas" then Some ["-C"; "-u"]
  else if is_lit head "env" then Some ["-u"; "--unset"; "-C"; "--chdir"]
  else if is_lit head "nice" then Some ["-n"; "--adjustment"]
  else if is_lit head "ionice" then Some ["-c"; "--class"; "-n"; "--classdata"; "-p"; "--pid"]
  else if is_lit head "stdbuf" then Some ["-i"; "--input"; "-o"; "--output"; "-e"; "--error"]
  else if is_lit head "exec" then Some ["-a"]
  else if is_lit head "timeout" then Some ["-k"; "--kill-after"; "-s"; "--signal"]
  else if is_any head ["command"; "nohup"; "setsid"; "builtin"] then Some []
  else None.
(** The words after the options of a wrapper; [inl] when [env -S] replaces them
    by the words it splits. *)
Fixpoint skip_options (head : str) (ops : list string) (skip : bool) (words : list str)
    : list str + list str :=
  match words with
  | [] => inr []
  | a :: rest =>
      if skip then skip_options head ops false rest
      else if starts (lit "-") a then
        let '(name, value) := match split_first (N_of_ascii "=") a with
                              | Some (n, v) => (n, Some v)
                              | None => (a, None)
                              end in
        if is_lit head "env" && is_any name ["-S"; "--split-string"] then
          let value' := match value with Some v => v | None => default [] (hd_error rest) end in
          inl (split_whitespace value' ++ (if member (N_of_ascii "=") a then rest else tail rest))
        else skip_options head ops (bool_decide (value = None) && is_any name ops) rest
      else if is_any head ["env"; "sudo"; "doas"] && assignment a then skip_options head ops false rest
      else inr words
  end.
Fixpoint unwrap_go (fuel : nat) (words : list str) : list str :=
  match fuel with
  | O => words
  | S fuel =>
      match drop_assignments words with
      | [] => []
      | first :: rest =>
          let head := base first in
          match operands head with
          | None => first :: rest
          | Some ops =>
              match skip_options head ops false rest with
              | inl split => unwrap_go fuel split
              | inr rest => unwrap_go fuel (if is_lit head "timeout" then tail rest else rest)
              end
          end
      end
  end.
(** Every round drops at least a wrapper's name. *)
Definition words_size (words : list str) : nat := sum_list_with length words.
Definition unwrap (words : list str) : list str := unwrap_go (S (words_size words)) words.

(** ** Git *)
Fixpoint git_sub_at (skip : bool) (args : list str) : option (str * list str) :=
  match args with
  | [] => None
  | a :: rest =>
      if skip then git_sub_at false rest
      else if is_any a ["-c"; "-C"; "--git-dir"; "--work-tree"; "--namespace"; "--config-env"]
      then git_sub_at true rest
      else if starts (lit "-") a then git_sub_at false rest
      else Some (a, rest)
  end.
(** The subcommand and its arguments. *)
Definition git_sub (argv : list str) : option (str * list str) := git_sub_at false (tail argv).
(** [windows(2)] *)
Fixpoint windows {A} (l : list A) : list (A * A) :=
  match l with
  | a :: (b :: _) as rest => (a, b) :: windows rest
  | _ => []
  end.
Definition alias_push (argv : list str) (sub : str) : bool :=
  existsb (λ pair,
    is_lit pair.1 "-c" &&
    match split_first (N_of_ascii "=") pair.2 with
    | Some (key, body) =>
        eq_ignore_ascii_case (trim key) ("alias." +: sub) &&
        let fields := split_whitespace (drop_chars (λ c, is_char c "!") (trim body)) in
        match fields with
        | f :: _ => is_any f ["push"; "git-push"]
        | [] => false
        end || starts [lit "git"; lit "push"] fields
    | None => false
    end) (windows argv).
Definition protected_ref (s : str) : bool :=
  let s := drop_chars (λ c, is_char c "+") s in
  is_any s ["main"; "master"; "refs/heads/main"; "refs/heads/master"]
  || starts (lit "main:") s || starts (lit "master:") s
  || existsb (λ e, ends (lit e) s) [":main"; ":master"; ":refs/heads/main"; ":refs/heads/master"].

(** ** [destructive] *)
Definition forbidden (path : str) : bool :=
  if is_any path ["/dev/null"; "/dev/zero"; "/dev/full"; "/dev/tty"; "/dev/stdin"; "/dev/stdout";
                  "/dev/stderr"; "/dev/random"; "/dev/urandom"] || starts (lit "/dev/fd/") path
  then false
  else existsb (λ p, is_lit path p || starts (lit p ++ lit "/") path) ["/etc"; "/dev"; "/sys"; "/proc"; "/boot"].
Definition has_char (s : string) (a : str) : bool := existsb (λ c, one_of c s) a.
Definition root_path (a : str) : bool :=
  starts (lit "/*") a
  || is_any (drop_end (λ c, is_char c "/") a)
       [""; "/etc"; "/usr"; "/bin"; "/sbin"; "/lib"; "/lib64"; "/var"; "/boot"; "/root"; "/home"; "/opt"; "/dev";
        "/proc"; "/sys"].
Definition destructive (argv : list str) (redirects : list (str * str)) : reason :=
  match List.find (λ r, starts (lit ">") r.1 && forbidden r.2) redirects with
  | Some (_, target) => Some ("redirect to protected path " +: debug target ++ lit " is not allowed")
  | None =>
      match argv with
      | [] => None
      | first :: args =>
          let head := base first in
          if is_lit head "rm"
             && existsb (λ a, is_lit a "--recursive"
                  || (starts (lit "-") a && negb (starts (lit "--") a) && has_char "rR" a)) args
             && existsb root_path args
          then Some (lit "recursive removal of root paths is not allowed")
          else if is_any head ["chmod"; "chown"]
             && existsb (λ a, is_lit a "--recursive" || (starts (lit "-") a && has_char "R" a)) args
             && existsb (λ a, is_lit a "/" || starts (lit "/*") a) args
          then Some (head ++ lit " recursive at root is not allowed")
          else if is_lit head "dd" && existsb (starts (lit "of=/dev/")) args
          then Some (lit "dd to block device is not allowed")
          else if starts (lit "mkfs") head then Some (head ++ lit " is not allowed")
          else match (if is_lit head "tee" then List.find forbidden args else None) with
          | Some path => Some ("tee to protected path " +: debug path ++ lit " is not allowed")
          | None =>
              if starts (lit ":()") head then Some (lit "fork bomb pattern is not allowed")
              else if is_any head ["python"; "python3"; "perl"; "ruby"; "node"]
                && existsb (λ p, is_lit p.1 "-c"
                     && existsb (λ s, includes (lit s) p.2)
                          ["/etc/passwd"; "/etc/shadow"; "/etc/hosts"; "/etc/sudoers"]) (windows args)
              then Some (head ++ lit " -c writing to system files is not allowed")
              else None
          end
      end
  end.

(** ** The lenient parser *)
Record Token := mkToken { text : str; op : bool; token_subs : list str }.
Record Command := mkCommand {
  piped : bool;
  argv : list str;
  redirects : list (str * str);
  substitutions : list str;
}.
(** The loop's variables: the tokens, the current token and whether it began. *)
Record Lex := mkLex { out : list Token; cur : str; subs : list str; in_word : bool }.
Definition push (c : char) (lx : Lex) : Lex := mkLex (out lx) (cur lx ++ [c]) (subs lx) (in_word lx).
Definition begin (lx : Lex) : Lex := mkLex (out lx) (cur lx) (subs lx) true.
Definition substitute (s : str) (lx : Lex) : Lex := mkLex (out lx) (cur lx) (subs lx ++ [s]) true.
Definition flush (lx : Lex) : Lex :=
  if in_word lx then mkLex (out lx ++ [mkToken (cur lx) false (subs lx)]) [] [] false else lx.
Definition push_op (o : str) (lx : Lex) : Lex := mkLex (out lx ++ [mkToken o true []]) (cur lx) (subs lx) (in_word lx).

(** To the parenthesis that closes [depth] open ones, and after it. *)
Fixpoint parenthesized (depth : nat) (r : str) : str * str :=
  match r with
  | [] => ([], [])
  | c :: r =>
      if is_char c ")" && (depth <=? 1) then ([], r)
      else
        let depth := if is_char c "(" then S depth else if is_char c ")" then pred depth else depth in
        let '(body, rest) := parenthesized depth r in (c :: body, rest)
  end.
Definition to_digit (radix c : N) : option N :=
  let v := if is_digit c then Some (c - 48)%N
           else if char_between 97 122 c then Some (c - 87)%N
           else if char_between 65 90 c then Some (c - 55)%N else None in
  match v with Some v => if (v <? radix)%N then Some v else None | None => None end.
Fixpoint digits (radix n : N) (count : nat) (r : str) : N * str :=
  match count, r with
  | S count, c :: rest =>
      match to_digit radix c with
      | Some v => digits radix (n * radix + v) count rest
      | None => (n, r)
      end
  | _, _ => (n, r)
  end.
(** The text of [$'..'], and what follows it; an escape of at most three octal
    or two hexadecimal digits is always a character. *)
Fixpoint ansi (fuel : nat) (r : str) : str * str :=
  match fuel with
  | O => ([], r)
  | S fuel =>
      match r with
      | [] => ([], [])
      | c :: r =>
          if (c =? squote)%N then ([], r)
          else
            let '(c, r) :=
              match r with
              | e :: r' =>
                  if (c =? backslash)%N then
                    if is_char e "x" then digits 16 0 2 r'
                    else if bool_decide (is_Some (to_digit 8 e)) then digits 8 0 3 r
                    else
                      (if is_char e "n" then 10 else if is_char e "r" then 13 else if is_char e "t" then 9
                       else if one_of e "eE" then 27 else if is_char e "a" then 7 else if is_char e "b" then 8
                       else if is_char e "f" then 12 else if is_char e "v" then 11 else e, r')%N
                  else (c, r)
              | [] => (c, r)
              end in
            let '(text, rest) := ansi fuel r in (c :: text, rest)
      end
  end.
(** The characters of an operator: [c] and its repetitions, at most [count]. *)
Fixpoint repeated (c : char) (count : nat) (r : str) : str * str :=
  match count, r with
  | S count, d :: rest => if (d =? c)%N then let '(o, r) := repeated c count rest in (c :: o, r) else ([], r)
  | _, _ => ([], r)
  end.
(** [quote] is 0 outside of quotes. *)
Fixpoint tokenize_go (fuel : nat) (r : str) (quote : char) (lx : Lex) : Lex :=
  match fuel with
  | O => lx
  | S fuel =>
      match r with
      | [] => lx
      | c :: r =>
          let unquoted := (quote =? 0)%N in
          let next := hd_error r in
          let plain (_ : unit) :=
            if is_char c "`" then
              let '(body, r) := span_chars (λ d, negb (is_char d "`")) r in
              tokenize_go fuel (tail r) quote (substitute body lx)
            else if unquoted && is_char c "#" && negb (in_word lx) then
              tokenize_go fuel (drop_chars (λ d, negb (d =? 10)%N) r) quote lx
            else if unquoted && (one_of c ";|&<>" || (c =? 10)%N || is_whitespace c) then
              let lx := flush lx in
              if negb (is_whitespace c) || (c =? 10)%N then
                let '(more, r) := if one_of c "|&<>" then repeated c (if is_char c "<" then 2 else 1) r else ([], r) in
                tokenize_go fuel r quote (push_op (c :: more) lx)
              else tokenize_go fuel r quote lx
            else tokenize_go fuel r quote (begin (push c lx)) in
          if (quote =? squote)%N then
            tokenize_go fuel r (if (c =? squote)%N then 0%N else quote) (if (c =? squote)%N then lx else push c lx)
          else if (c =? backslash)%N
               && match next with Some d => unquoted || one_of d "\$`" || (d =? dquote)%N || (d =? 10)%N | None => false end
          then
            match r with
            | d :: r => tokenize_go fuel r quote (if (d =? 10)%N then lx else begin (push d lx))
            | [] => lx
            end
          else if (c =? quote)%N && negb unquoted then tokenize_go fuel r 0%N lx
          else if unquoted && ((c =? squote)%N || (c =? dquote)%N) then tokenize_go fuel r c (begin lx)
          else if is_char c "$" then
            match r with
            | [] => plain tt
            | d :: r' =>
                if is_char d "(" then
                  let '(body, rest) := parenthesized 1 r' in tokenize_go fuel rest quote (substitute body lx)
                else if (d =? squote)%N then
                  let '(body, rest) := ansi (length r') r' in
                  tokenize_go fuel rest quote (begin (mkLex (out lx) (cur lx ++ body) (subs lx) (in_word lx)))
                else if is_char d "{" || is_char d "_" || is_alphabetic d then
                  let '(name, rest) :=
                    if is_char d "{" then span_chars (λ e, negb (is_char e "}")) r'
                    else span_chars (λ e, is_char e "_" || is_alphanumeric e) r in
                  let rest := if is_char d "{" then tail rest else rest in
                  if is_lit name "IFS" then
                    tokenize_go fuel rest quote (if (quote =? dquote)%N then push 32 lx else flush lx)
                  else tokenize_go fuel rest quote (begin lx)
                else plain tt
            end
          else plain tt
      end
  end.
Definition tokenize (input : str) : list Token :=
  out (flush (tokenize_go (S (length input)) input 0%N (mkLex [] [] [] false))).

Fixpoint parse_go (tokens : list Token) (cmd : Command) : list Command :=
  match tokens with
  | [] => [cmd]
  | t :: rest =>
      if negb (op t) then
        parse_go rest (mkCommand (piped cmd) (argv cmd ++ [text t]) (redirects cmd) (substitutions cmd ++ token_subs t))
      else if is_any (text t) [">"; ">>"; "<"; "<<"; "<<<"] then
        match rest with
        | n :: rest' =>
            if op n then
              parse_go rest (mkCommand (piped cmd) (argv cmd) (redirects cmd ++ [(text t, [])]) (substitutions cmd))
            else
              parse_go rest' (mkCommand (piped cmd) (argv cmd) (redirects cmd ++ [(text t, text n)])
                                (substitutions cmd ++ token_subs n))
        | [] => parse_go rest (mkCommand (piped cmd) (argv cmd) (redirects cmd ++ [(text t, [])]) (substitutions cmd))
        end
      else cmd :: parse_go rest (mkCommand (is_lit (text t) "|") [] [] [])
  end.
Definition parse (input : str) : list Command := parse_go (tokenize input) (mkCommand false [] [] []).

(** ** [check] *)
Fixpoint syntax_go (r : str) (single double escaped : bool) : reason :=
  match r with
  | [] => None
  | c :: r =>
      if escaped then syntax_go r single double false
      else if (c =? backslash)%N && negb single then syntax_go r single double true
      else if (c =? squote)%N && negb double then syntax_go r (negb single) double false
      else if single then syntax_go r single double false
      else if (c =? dquote)%N then syntax_go r single (negb double) false
      else
        let next := default 0%N (hd_error r) in
        if is_char c "`" then Some (lit "backtick substitution cannot be authorized statically")
        else if is_char c "$" && (next =? squote)%N
        then Some (lit "ANSI-C shell quoting cannot be authorized statically")
        else if is_char c "$" && (is_alphanumeric next || one_of next "({_@*#?$!-")
        then Some (lit "shell substitution cannot be authorized statically")
        else if negb double && one_of c "<>" && is_char next "("
        then Some (lit "process substitution cannot be authorized statically")
        else if negb double && is_char c "<" && is_char next "<"
        then Some (lit "heredocs and here-strings cannot be authorized statically")
        else syntax_go r single double false
  end.
Definition syntax_reason (command : str) : reason := syntax_go command false false false.
Definition or_else (a b : reason) : reason := match a with Some _ => a | None => b end.
(** What makes one parsed command dynamic. *)
Definition dynamic_reason (cmd : Command) : reason :=
  match List.find assignment (argv cmd) with
  | Some w => Some ("shell assignment " +: default [] (head (split (N_of_ascii "=") w))
                    ++ lit " cannot be authorized statically")
  | None =>
      let head := default [] (base <$> hd_error (unwrap (argv cmd))) in
      if is_any head ["eval"; "source"; "."; "alias"] then Some (head ++ lit " cannot be authorized statically")
      else if is_lit head "function" || ends (lit "()") head || starts (lit ":()") head
      then Some (lit "function definitions cannot be authorized statically")
      else None
  end.
Definition find_map {A B} (f : A → option B) : list A → option B :=
  foldr (λ a r, match f a with Some b => Some b | None => r end) None.

Definition mode (access : AccessMode) : str :=
  lit (match access with
       | ReadOnly => "read-only"
       | WorkspaceWrite => "workspace-write"
       | FullAccess => "danger-full-access"
       end).
Definition em_dash : str := [0x2014%N].
Definition blocked_in (access : AccessMode) (text : str) : str :=
  "Command blocked in " +: mode access ++ lit " mode: " ++ text.
Definition git_mutations : list string :=
  ["push"; "commit"; "reset"; "remote"; "merge"; "rebase"; "cherry-pick"; "add"; "rm"; "clean"; "tag"; "branch";
   "stash"].
Definition restricted (access : AccessMode) : bool := negb (bool_decide (access = FullAccess)).

(** What a git command is blocked for. *)
Definition git_reason (access : AccessMode) (remote dynamic : bool) (argv : list str) : reason :=
  let sub_args := git_sub argv in
  let sub := match sub_args with Some (s, _) => s | None => [] end in
  if negb remote && (is_lit sub "push" || alias_push argv sub)
  then Some (lit "Command blocked: git push is disabled by the GitRemoteWrites policy")
  else if bool_decide (access = WorkspaceWrite) && dynamic && is_lit sub "push"
  then Some (blocked_in access (lit "dynamic git push arguments cannot be authorized statically"))
  else if (bool_decide (access = ReadOnly) && is_any sub git_mutations)
          || (bool_decide (access = WorkspaceWrite) && is_lit sub "remote")
  then Some (blocked_in access ("git " +: sub ++ lit " is not allowed " ++ em_dash ++
         lit (if is_lit sub "remote"
              then " remote configuration is platform-managed; use git_status or the built-in git/GitHub tools instead"
              else " this session cannot mutate the repository")))
  else if restricted access && is_lit sub "push"
       && match sub_args with Some (_, args) => existsb protected_ref args | None => false end
  then Some (blocked_in access (lit "push to main/master is not allowed"))
  else None.
Fixpoint join (words : list str) : str :=
  match words with
  | [] => []
  | [w] => w
  | w :: words => w ++ 32%N :: join words
  end.
(** The command lines a shell or [eval] runs inside this command. *)
Definition nested (cmd : Command) (words : list str) (previous : option Command) : list str :=
  match words with
  | [] => []
  | first :: args =>
      substitutions cmd
      ++ (if shell (base first) then
            (snd <$> List.filter (λ p, starts (lit "-") p.1 && has_char "c" p.1) (windows args))
            ++ (snd <$> List.filter (λ r, starts (lit "<<") r.1) (redirects cmd))
            ++ match previous with
               | Some before =>
                   if piped cmd then
                     match unwrap (argv before) with
                     | echo :: words => if is_any (base echo) ["echo"; "printf"] then [join words] else []
                     | [] => []
                     end
                   else []
               | None => []
               end
          else [])
      ++ (if is_lit (base first) "eval" then [join args] else [])
  end.
(** The arguments of a command; a lone [git] takes those of the next line. *)
Definition arguments (cmd : Command) (following : list Command) : list str :=
  let words := unwrap (argv cmd) in
  match words, following with
  | [w], next :: _ => if is_lit (base w) "git" then words ++ unwrap (argv next) else words
  | _, _ => words
  end.
Definition command_reason (access : AccessMode) (remote enforced dynamic : bool) (cmd : Command) (argv : list str)
    : reason :=
  or_else
    (if restricted access && negb enforced then
       match destructive argv (redirects cmd) with
       | Some r => Some (blocked_in access r)
       | None =>
           match argv with
           | first :: _ =>
               if piped cmd && shell (base first)
               then Some (blocked_in access ("piping into " +: debug first ++ lit " is not allowed"))
               else None
           | [] => None
           end
       end
     else None)
    match argv with
    | first :: _ =>
        or_else (if is_lit (base first) "git" then git_reason access remote dynamic argv else None)
          (if restricted access && is_lit (base first) "gh"
           then Some (blocked_in access (lit "the gh CLI is not allowed; use the built-in GitHub tools (create_pull_request, get_pull_request, list_review_threads, submit_pull_request_review, create_github_issue, ...) instead"))
           else None)
    | [] => None
    end.
Fixpoint visit (recurse : str → reason) (access : AccessMode) (remote enforced dynamic : bool)
    (previous : option Command) (commands : list Command) : reason :=
  match commands with
  | [] => None
  | cmd :: rest =>
      let argv := arguments cmd rest in
      or_else (command_reason access remote enforced dynamic cmd argv)
        (or_else (find_map recurse (nested cmd argv previous))
           (visit recurse access remote enforced dynamic (Some cmd) rest))
  end.
(** [depth] is how much deeper nested commands may go. *)
Fixpoint check (depth : nat) (access : AccessMode) (remote enforced : bool) (command : str) : reason :=
  match depth with
  | O => Some (lit "Command blocked: shell nesting cannot be authorized statically")
  | S depth =>
      let commands := parse command in
      let dynamic := or_else (syntax_reason command) (find_map dynamic_reason commands) in
      match dynamic with
      | Some r =>
          if bool_decide (access = ReadOnly) || (bool_decide (access = WorkspaceWrite) && negb enforced)
          then Some (blocked_in access (r ++ lit " " ++ em_dash ++ lit " write the command with only literal arguments, or split it into separate Bash calls"))
          else visit (check depth access remote enforced) access remote enforced true None commands
      | None => visit (check depth access remote enforced) access remote enforced false None commands
      end
  end.

(** ** [literal_check] *)
Fixpoint skip_env (args : list str) : option (list str) :=
  match args with
  | a :: rest =>
      if is_any a ["-u"; "--unset"] then match rest with _ :: rest => skip_env rest | [] => None end
      else if starts (lit "-") a then None else Some args
  | [] => None
  end.
Fixpoint literal_unwrap (fuel : nat) (argv : list str) : result str (list str) :=
  match fuel, argv with
  | S fuel, first :: args =>
      if is_lit (base first) "env" then
        match skip_env args with
        | Some argv => literal_unwrap fuel argv
        | None => Err (lit "unsupported env invocation")
        end
      else if is_lit (base first) "timeout" then
        let duration := default [] (hd_error args) in
        let number := drop_end (λ c, one_of c "smhd") duration in
        if (length argv <? 3) || negb (is_f64 number) || starts (lit "-") duration
        then Err (lit "unsupported timeout invocation")
        else literal_unwrap fuel (tail args)
      else Ok argv
  | _, _ => Ok argv
  end.
Definition indirect (first : str) : bool :=
  let head := base first in
  assignment first || shell head
  || is_any head ["if"; "then"; "else"; "elif"; "fi"; "for"; "while"; "until"; "do"; "done"; "case"; "esac"; "select";
       "in"; "!"; "time"; "function"; "coproc"; "eval"; "source"; "."; "alias"; "sudo"; "doas"; "nice"; "ionice";
       "stdbuf"; "exec"; "command"; "nohup"; "setsid"; "builtin"; "xargs"; "parallel"; "export"; "unset"; "readonly";
       "declare"; "typeset"; "local"; "let"; "set"; "enable"; "unalias"; "bind"; "trap"; "read"; "mapfile";
       "readarray"; "hash"; "busybox"; "toybox"]
  || starts (lit "git-") head.
(** The words after [--no-pager] and [-C dir]. *)
Fixpoint git_options (args : list str) : list str :=
  match args with
  | a :: rest =>
      if is_lit a "--no-pager" then git_options rest
      else if is_lit a "-C" then match rest with _ :: rest => git_options rest | [] => args end
      else args
  | [] => []
  end.
Definition git_subcommands : list string :=
  ["status"; "diff"; "show"; "log"; "rev-parse"; "ls-files"; "add"; "commit"; "reset"; "merge"; "rebase";
   "cherry-pick"; "rm"; "clean"; "tag"; "branch"; "stash"; "checkout"; "switch"; "restore"; "fetch"; "pull"; "clone";
   "init"; "revert"].
Definition literal_git (access : AccessMode) (remote : bool) (args : list str) : result str unit :=
  let options := git_options args in
  let sub := default [] (hd_error options) in
  if bool_decide (access = ReadOnly) && is_any sub git_mutations
  then Err (lit "git mutation is not allowed in read-only mode")
  else if is_lit sub "push" then
    if negb remote then Err (lit "git push is disabled by the GitRemoteWrites policy")
    else match validate_git_push (tail options) with
         | Ok _ => Ok tt
         | Err e => Err (lit (message e))
         end
  else if is_any sub git_subcommands then Ok tt
  else Err (lit "unsupported git subcommand, configuration, or alias").
Definition literal_command (access : AccessMode) (remote : bool) (words : list str) : result str unit :=
  argv ← literal_unwrap (length words) words;
  match argv with
  | [] => Ok tt
  | first :: args =>
      let head := base first in
      if is_lit head "gh" then Err (lit "the gh CLI is not allowed; use the built-in GitHub tools")
      else if indirect first
      then Err (lit "compound, dynamic, or indirect execution cannot be authorized statically")
      else if is_lit head "find" && existsb (λ a, is_any a ["-exec"; "-execdir"; "-ok"; "-okdir"]) argv
      then Err (lit "indirect execution through find is unsupported")
      else if negb (is_lit head "git") then Ok tt
      else if negb (length argv =? length words) then Err (lit "indirect git invocation is unsupported")
      else literal_git access remote args
  end.
Definition literal_check (command : str) (access : AccessMode) (remote : bool) : result str unit :=
  match inspect_literal_commands command with
  | Err e => Err (lit (message e))
  | Ok commands => foldM (λ _ words, literal_command access remote words) tt commands
  end.

Definition MAX_DEPTH : nat := 65.
Definition command_blocked (access : AccessMode) (git_remote_writes : bool) (command : str) (filesystem_enforced : bool)
    : reason :=
  if negb git_remote_writes && negb filesystem_enforced
  then Some (lit "Command blocked: GitRemoteWrites=disabled requires an enforcing command sandbox so Git credentials remain unavailable to subprocesses")
  else
    or_else (check MAX_DEPTH access git_remote_writes filesystem_enforced command)
      (if bool_decide (access = FullAccess) then None
       else match literal_check command access git_remote_writes with
            | Ok _ => None
            | Err r => Some ("Command blocked in restricted mode: " +: r)
            end).
End policy.
