(* ===== verification/ShellAgree.v ===== *)
(** * ShellAgree: the two shell parsers read a literal command the same way

    The guard of the shell tool parses leniently ([ShellPolicy]), the classifier of
    adk-security strictly ([Shell]).  On a command without redirections and without
    exotic white space that the strict parser accepts, both find the same argument
    vectors, so what one checks is what the other checks. *)

From Stdlib Require Import Ascii.
From S2P Require Import Prelude Core Chars Shell ShellProps ShellPolicy.

Definition plain_char (c : char) : Prop :=
  c ≠ 60%N ∧ c ≠ 62%N ∧ (is_whitespace c = true → c = 32%N ∨ c = 9%N ∨ c = 10%N).

(** ** The tokenizers in step *)
Inductive same_token : Shell.Token → Token → Prop :=
| same_word w : same_token (Word w) (mkToken w false [])
| same_separator t o : is_any o [">"; ">>"; "<"; "<<"; "<<<"] = false → same_token (Separator t) (mkToken o true []).
Record in_step (ls : Lexer) (q : char) (lp : Lex) : Prop := {
  step_tokens : Forall2 same_token (tokens ls) (out lp);
  step_word : cur lp = word ls;
  step_subs : subs lp = [];
  step_started : in_word lp = started ls;
  step_quote : quote ls = None ∧ q = 0%N ∨ quote ls = Some squote ∧ q = squote ∨ quote ls = Some dquote ∧ q = dquote;
  step_quoted : quote ls ≠ None → started ls = true;
}.
Lemma flush_in_step ls q lp : quote ls = None → in_step ls q lp → in_step (Shell.flush ls) q (flush lp).
Proof.
  intros Hnone [Ht Hw Hs Hst Hq Hqs]. unfold Shell.flush, flush. rewrite Hst.
  destruct (started ls) eqn:Hstart; split; simpl; try done.
  - apply Forall2_app; [done|]. constructor; [|done]. rewrite Hw, Hs. constructor.
Qed.
Lemma unfold_one_of c s : one_of c s = existsb (N.eqb c) (N_of_ascii <$> String.list_ascii_of_string s).
Proof. done. Qed.
(** The classes of a character that is none of those that mean something. *)
Ltac classes c :=
  unfold is_char, one_of, squote, dquote, backslash;
  repeat match goal with
  | |- context [existsb (N.eqb c) (lit ?s)] =>
      let l := eval vm_compute in (lit s) in change (lit s) with l; cbn [existsb]
  | |- context [(c =? ?k)%N] => rewrite (proj2 (N.eqb_neq c k)) by (first [assumption|congruence|discriminate])
  end.
Lemma in_step_push ls q lp c :
  in_step ls q lp → in_step (mkLexer (tokens ls) (word ls ++ [c]) true (quote ls) (literal ls)) q (begin (push c lp)).
Proof. intros [Ht Hw Hs Hst Hq Hqs]. split; simpl; try done. by rewrite Hw. Qed.
Lemma in_step_literal ls q lp b :
  in_step ls q lp → in_step (mkLexer (tokens ls) (word ls) (started ls) (quote ls) b) q lp.
Proof. by intros []. Qed.

Lemma push_twice lp c d : begin (push d (begin (push c lp))) = mkLex (out lp) (cur lp ++ [c; d]) (subs lp) true.
Proof. unfold begin, push. simpl. by rewrite <-(assoc_L (++)). Qed.

(** What the lenient tokenizer does, case by case. *)
Section equations.
Context (n : nat) (lp : Lex).
Lemma t_squote c r :
  tokenize_go (S n) (c :: r) squote lp
  = tokenize_go n r (if (c =? squote)%N then 0%N else squote) (if (c =? squote)%N then lp else push c lp).
Proof. done. Qed.
Lemma t_dquote_end r : tokenize_go (S n) (dquote :: r) dquote lp = tokenize_go n r 0%N lp.
Proof. done. Qed.
Lemma t_dquote c r :
  c ≠ dquote → c ≠ backslash → c ≠ 36%N → c ≠ 96%N →
  tokenize_go (S n) (c :: r) dquote lp = tokenize_go n r dquote (begin (push c lp)).
Proof.
  unfold dquote, backslash. intros. cbn [tokenize_go hd_error]. classes c. reflexivity.
Qed.
Lemma t_dquote_escape d r :
  (one_of d "$`\" || (d =? dquote)%N) = true →
  tokenize_go (S n) (backslash :: d :: r) dquote lp = tokenize_go n r dquote (begin (push d lp)).
Proof.
  intros H. assert (d ∈ [36; 96; 92; 34]%N) as Hd.
  { unfold one_of, dquote in H. rewrite orb_true_iff, existsb_exists, N.eqb_eq in H.
    destruct H as [(x & Hx & ->%N.eqb_eq)| ->]; [|set_solver]. vm_compute in Hx. set_solver. }
  rewrite !elem_of_cons, elem_of_nil in Hd. destruct_or! Hd; try done; subst; reflexivity.
Qed.
Lemma t_dquote_kept d r :
  d ≠ 10%N → (one_of d "$`\" || (d =? dquote)%N) = false →
  tokenize_go (S n) (backslash :: d :: r) dquote lp = tokenize_go n (d :: r) dquote (begin (push backslash lp)).
Proof.
  intros Hn H. assert (d ≠ 36 ∧ d ≠ 96 ∧ d ≠ 92 ∧ d ≠ 34)%N as (? & ? & ? & ?).
  { split_and!; intros ->; vm_compute in H; discriminate H. }
  cbn [tokenize_go hd_error]. classes d. reflexivity.
Qed.
Lemma t_escape d r :
  d ≠ 10%N → tokenize_go (S n) (backslash :: d :: r) 0%N lp = tokenize_go n r 0%N (begin (push d lp)).
Proof. intros Hd. cbn [tokenize_go hd_error]. classes d. reflexivity. Qed.
Lemma t_open c r :
  c = squote ∨ c = dquote → tokenize_go (S n) (c :: r) 0%N lp = tokenize_go n r c (begin lp).
Proof. by intros [-> | ->]. Qed.
Lemma t_blank c r : c = 32%N ∨ c = 9%N → tokenize_go (S n) (c :: r) 0%N lp = tokenize_go n r 0%N (flush lp).
Proof. by intros [-> | ->]. Qed.
Lemma t_end c r :
  c = 59%N ∨ c = 10%N → tokenize_go (S n) (c :: r) 0%N lp = tokenize_go n r 0%N (push_op [c] (flush lp)).
Proof. by intros [-> | ->]. Qed.
Lemma t_pipe c r :
  c = 124%N ∨ c = 38%N →
  tokenize_go (S n) (c :: r) 0%N lp
  = if peek_is c r then tokenize_go n (tail r) 0%N (push_op [c; c] (flush lp))
    else tokenize_go n r 0%N (push_op [c] (flush lp)).
Proof.
  intros Hc. assert (tokenize_go (S n) (c :: r) 0%N lp
    = let '(more, r) := repeated c 1 r in tokenize_go n r 0%N (push_op (c :: more) (flush lp))) as ->
    by (by destruct Hc as [-> | ->]).
  unfold peek_is. destruct r as [|d r]; [done|]. simpl. destruct (N.eqb_spec d c) as [->|Hd].
  - by rewrite bool_decide_eq_true_2.
  - rewrite bool_decide_eq_false_2; [done|]. by intros [= ->].
Qed.
Lemma t_char c r :
  c ≠ squote → c ≠ dquote → c ≠ backslash → c ∉ [36; 96; 35; 59; 124; 38; 60; 62]%N → is_whitespace c = false →
  tokenize_go (S n) (c :: r) 0%N lp = tokenize_go n r 0%N (begin (push c lp)).
Proof.
  unfold squote, dquote, backslash. intros ??? Hc Hw. rewrite !not_elem_of_cons in Hc.
  destruct Hc as (?&?&?&?&?&?&?&?&_).
  assert (c ≠ 10)%N by (by intros ->).
  cbn [tokenize_go hd_error]. classes c. rewrite Hw. destruct (N.eqb_spec c 0) as [->|]; reflexivity.
Qed.
End equations.

Lemma lex_step c r ls ls' :
  lex false (c :: r) ls = Ok ls' → ∃ skip ls1, step c r ls = Ok (skip, ls1) ∧ lex skip r ls1 = Ok ls'.
Proof. cbn [lex]. destruct (step c r ls) as [[skip ls1]|]; [|done]. eauto. Qed.
Lemma not_one_of c s : one_of c s = false → c ∉ lit s.
Proof.
  unfold one_of. intros H Hin. rewrite <-not_true_iff_false in H. apply H. apply existsb_exists. exists c.
  split; [by apply list_elem_of_In|apply N.eqb_refl].
Qed.

Section simulation.
Context (n : nat).
Hypothesis IH : ∀ r ls q lp ls', length r < n → Forall plain_char r → in_step ls q lp → lex false r ls = Ok ls' →
  ∃ q', in_step ls' q' (tokenize_go n r q lp).

Lemma simulate_squote c r ls lp ls' :
  length r < n → Forall plain_char r → in_step ls squote lp → quote ls = Some squote →
  lex false (c :: r) ls = Ok ls' → ∃ q', in_step ls' q' (tokenize_go (S n) (c :: r) squote lp).
Proof.
  intros Hlen Hr Hin Hq (skip & ls1 & Hs & Hl)%lex_step. unfold step in Hs.
  destruct (Shell.forbidden c); [done|]. rewrite bool_decide_eq_true_2 in Hs by done. injection Hs as <- <-.
  rewrite t_squote. destruct (c =? squote)%N; eapply IH; try done; destruct Hin; split; simpl; try done.
  - by left.
  - by rewrite step_word0.
Qed.
Lemma simulate_dquote c r ls lp ls' :
  length (c :: r) < S n → Forall plain_char (c :: r) → in_step ls dquote lp → quote ls = Some dquote →
  lex false (c :: r) ls = Ok ls' →
  (∀ d r' lp' ls1, r = d :: r' → length r' < n - 1 → in_step ls1 dquote lp' → quote ls1 = Some dquote →
     d ≠ dquote → d ≠ backslash → d ≠ 36%N → d ≠ 96%N → lex false r' (mkLexer (tokens ls1) (word ls1 ++ [d]) true (quote ls1) (literal ls1)) = Ok ls' →
     ∃ q', in_step ls' q' (tokenize_go n (d :: r') dquote lp')) →
  ∃ q', in_step ls' q' (tokenize_go (S n) (c :: r) dquote lp).
Proof.
  intros Hlen Hr Hin Hq (skip & ls1 & Hs & Hl)%lex_step Hkept. unfold step in Hs. simpl in Hlen.
  apply Forall_cons in Hr as [Hc Hr].
  destruct (Shell.forbidden c); [done|]. rewrite Hq in Hs. rewrite bool_decide_eq_false_2 in Hs by done.
  destruct (N.eqb_spec c backslash) as [->|Hb].
  - destruct r as [|d r]; [done|]. destruct (is_control d) eqn:Hctl; [done|]. apply Forall_cons in Hr as [Hd Hr].
    rewrite bool_decide_eq_true_2 in Hs by done. simpl in Hlen.
    assert (d ≠ 10%N) as Hd10 by (intros ->; done).
    destruct (one_of d "$`\" || (d =? dquote)%N) eqn:Hone; cbn [andb negb] in Hs; injection Hs as <- <-; cbn [lex] in Hl.
    + rewrite t_dquote_escape by done. eapply IH; [lia|done| |exact Hl]. rewrite <-Hq.
      by apply (in_step_literal _ _ _ false), (in_step_push _ _ _ d) in Hin.
    + rewrite t_dquote_kept by done.
      assert (d ≠ 36 ∧ d ≠ 96 ∧ d ≠ backslash ∧ d ≠ dquote)%N as (? & ? & ? & ?).
      { split_and!; intros ->; vm_compute in Hone; discriminate Hone. }
      eapply (Hkept d r _ (mkLexer (tokens ls) (word ls ++ [backslash]) true (quote ls) false)); try done; [lia| |].
      * by apply (in_step_literal _ _ _ false), (in_step_push _ _ _ backslash) in Hin.
      * simpl. rewrite <-(assoc_L (++)). by rewrite Hq.
  - destruct (one_of c "$`") eqn:Hone; [done|]. rewrite bool_decide_eq_true_2 in Hs by done. injection Hs as <- <-.
    apply not_one_of in Hone. destruct (N.eqb_spec c dquote) as [->|Hnd].
    + rewrite t_dquote_end. eapply IH; [lia|done| |exact Hl]. destruct Hin; split; simpl; try done. by left.
    + assert (c ≠ 36 ∧ c ≠ 96)%N as [? ?] by (split; intros ->; apply Hone; vm_compute; set_solver).
      rewrite t_dquote by done. eapply IH; [lia|done| |exact Hl].
      assert (push_char c ls = mkLexer (tokens ls) (word ls ++ [c]) true (quote ls) (literal ls)) as ->.
      { unfold push_char. f_equal. apply (step_quoted _ _ _ Hin). by rewrite Hq. }
      by apply in_step_push.
Qed.
Lemma in_step_separator ls lp c more t :
  quote ls = None → in_step ls 0%N lp → is_any (c :: more) [">"; ">>"; "<"; "<<"; "<<<"] = false →
  in_step (push_token (Separator t) (Shell.flush ls)) 0%N (push_op (c :: more) (flush lp)).
Proof.
  intros Hq Hin Ho. apply flush_in_step in Hin; [|done]. destruct Hin. split; simpl; try done.
  apply Forall2_app; [done|]. by repeat constructor.
Qed.
Lemma simulate_unquoted c r ls lp ls' :
  length (c :: r) < S n → Forall plain_char (c :: r) → in_step ls 0%N lp → quote ls = None →
  lex false (c :: r) ls = Ok ls' → ∃ q', in_step ls' q' (tokenize_go (S n) (c :: r) 0%N lp).
Proof.
  intros Hlen Hr Hin Hq (skip & ls1 & Hs & Hl)%lex_step. unfold step in Hs. simpl in Hlen.
  apply Forall_cons in Hr as [(Hlt & Hgt & Hws) Hr].
  destruct (Shell.forbidden c) eqn:Hforb; [done|]. rewrite Hq in Hs. rewrite bool_decide_eq_false_2 in Hs by done.
  destruct (N.eqb_spec c backslash) as [->|Hb].
  { destruct r as [|d r]; [done|]. destruct (is_control d) eqn:Hctl; [done|]. apply Forall_cons in Hr as [Hd Hr].
    rewrite bool_decide_eq_false_2 in Hs by done. simpl in Hlen. cbn [andb] in Hs. injection Hs as <- <-. cbn [lex] in Hl.
    rewrite t_escape by (by intros ->). eapply IH; [lia|done| |exact Hl]. rewrite <-Hq.
    by apply (in_step_literal _ _ _ false), (in_step_push _ _ _ d) in Hin. }
  destruct (one_of c "$`") eqn:Hone; [done|]. apply not_one_of in Hone. rewrite bool_decide_eq_false_2 in Hs by done.
  apply bind_Ok in Hs as ([skip' ls2] & Hu & Hs). destruct (_ <? _); [done|]. injection Hs as -> ->.
  unfold unquoted in Hu. destruct ((c =? squote)%N || (c =? dquote)%N) eqn:Hquote.
  { injection Hu as <- <-. rewrite orb_true_iff, !N.eqb_eq in Hquote. rewrite t_open by done.
    eapply IH; [lia|done| |exact Hl]. destruct Hin. split; simpl; try done. destruct Hquote as [-> | ->]; auto. }
  rewrite orb_false_iff, !N.eqb_neq in Hquote. destruct Hquote as [Hsq Hdq].
  destruct (is_char c " " || (c =? 9)%N) eqn:Hblank.
  { injection Hu as <- <-. rewrite orb_true_iff, N.eqb_eq in Hblank. unfold is_char in Hblank. rewrite N.eqb_eq in Hblank.
    rewrite t_blank by (by destruct Hblank; [left|right]). eapply IH; [lia|done| |exact Hl]. by apply flush_in_step. }
  destruct ((c =? 10)%N || one_of c ";|&") eqn:Hsep.
  { assert (c = 59 ∨ c = 10 ∨ c = 124 ∨ c = 38)%N as Hc.
    { rewrite orb_true_iff, N.eqb_eq in Hsep. destruct Hsep as [->|Hsep]; [auto|]. unfold one_of in Hsep.
      apply existsb_exists in Hsep as (x & Hx & ->%N.eqb_eq). vm_compute in Hx. naive_solver. }
    destruct (decide (c = 124 ∨ c = 38)%N) as [Hpipe|Hpipe].
    - rewrite t_pipe by done. assert (one_of c "|&" = true) as Hand by (by destruct Hpipe as [-> | ->]).
      rewrite Hand in Hu. cbn [andb] in Hu. destruct (peek_is c r) eqn:Hpeek.
      + cbn [negb andb] in Hu. injection Hu as <- <-. destruct r as [|d r]; [done|]. simpl in Hl, Hlen |- *.
        apply Forall_cons in Hr as [_ Hr]. eapply IH; [lia|done| |exact Hl].
        apply in_step_separator; [done..|]. by destruct Hpipe as [-> | ->].
      + destruct (negb false && _); [done|]. injection Hu as <- <-. eapply IH; [lia|done| |exact Hl].
        apply in_step_separator; [done..|]. by destruct Hpipe as [-> | ->].
    - assert (c = 59 ∨ c = 10)%N as Hend by naive_solver. rewrite t_end by done.
      assert (one_of c "|&" = false) as Hand by (by destruct Hend as [-> | ->]).
      rewrite Hand in Hu. cbn [andb] in Hu. destruct (negb false && _) eqn:Hamp; [by destruct Hend as [-> | ->]|].
      injection Hu as <- <-. eapply IH; [lia|done| |exact Hl].
      apply in_step_separator; [done..|]. by destruct Hend as [-> | ->]. }
  destruct (one_of c "><") eqn:Hred.
  { exfalso. unfold one_of in Hred. apply existsb_exists in Hred as (x & Hx & ->%N.eqb_eq). vm_compute in Hx. naive_solver. }
  destruct (one_of c "(){}*?[]~#") eqn:Hdyn; [done|]. injection Hu as <- <-.
  assert (is_whitespace c = false) as Hnw.
  { destruct (is_whitespace c); [|done]. exfalso. destruct (Hws eq_refl) as [-> |[-> | ->]]; done. }
  rewrite t_char; try done.
  - eapply IH; [lia|done| |exact Hl]. by apply in_step_push.
  - apply not_one_of in Hdyn. apply orb_false_iff in Hsep as [_ Hsep%not_one_of]. 
    assert (lit "$`" = [36; 96]%N) as He1 by done. assert (lit ";|&" = [59; 124; 38]%N) as He2 by done.
    assert (lit "(){}*?[]~#" = [40; 41; 123; 125; 42; 63; 91; 93; 126; 35]%N) as He3 by done.
    rewrite He1 in Hone. rewrite He2 in Hsep. rewrite He3 in Hdyn.
    repeat rewrite not_elem_of_cons in Hone. repeat rewrite not_elem_of_cons in Hdyn. repeat rewrite not_elem_of_cons in Hsep.
    repeat rewrite not_elem_of_cons. destruct_and!; split_and!; first [done|apply not_elem_of_nil].
Qed.
End simulation.
Lemma simulate n : ∀ r ls q lp ls',
  length r < n → Forall plain_char r → in_step ls q lp → lex false r ls = Ok ls' →
  ∃ q', in_step ls' q' (tokenize_go n r q lp).
Proof.
  induction n as [n IHn] using lt_wf_ind. intros r ls q lp ls' Hlen Hr Hin Hl. destruct n as [|n]; [lia|].
  destruct r as [|c r]; [injection Hl as <-; by exists q|].
  pose proof (step_quote _ _ _ Hin) as [[Hq ->]|[[Hq ->]|[Hq ->]]].
  - eapply simulate_unquoted; try done. intros. by eapply IHn; [lia|..].
  - simpl in Hlen. apply Forall_cons in Hr as [_ Hr]. eapply simulate_squote; try done; [|lia]. intros. by eapply IHn; [lia|..].
  - eapply simulate_dquote; try done; [intros; by eapply IHn; [lia|..]|].
    intros d r' lp' ls1 -> Hlen' Hin' Hq' ? ? ? ? Hl'. destruct n as [|n]; [simpl in *; lia|].
    rewrite t_dquote by done. eapply IHn; [lia| | | |exact Hl']; [lia| |by apply in_step_push].
    by apply Forall_cons in Hr as [_ [_ Hr]%Forall_cons].
Qed.

(** ** The parsers *)
Definition no_empty (l : list (list str)) : list (list str) := List.filter (λ a, negb (bool_decide (a = []))) l.
Lemma tokenize_same command ts :
  Forall plain_char command → Shell.tokenize command = Ok ts → Forall2 same_token ts (tokenize command).
Proof.
  unfold Shell.tokenize, tokenize. intros Hc. destruct (_ <? _)%N; [done|].
  intros (ls & Hl & H)%bind_Ok. case_bool_decide as Hq; [done|].
  destruct (_ <? _); [done|]. injection H as <-.
  destruct (simulate (S (length command)) command init_lexer 0%N (mkLex [] [] [] false) ls) as [q Hin]; [lia|done| |done|].
  { split; simpl; try done. by left. }
  assert (quote ls = None) as Hn by (destruct (quote ls); [by destruct Hq|done]).
  apply flush_in_step in Hin; [|done]. apply step_tokens in Hin. unfold Shell.flush in Hin.
  by destruct (started ls).
Qed.
Lemma inspect_same ts toks :
  Forall2 same_token ts toks → ∀ commands argv piped r,
  inspect ts commands argv = Ok r →
  let parsed := parse_go toks (mkCommand piped argv [] []) in
  r = commands ++ no_empty (ShellPolicy.argv <$> parsed)
  ∧ Forall (λ c, redirects c = [] ∧ substitutions c = []) parsed.
Proof.
  induction 1 as [|t tok ts toks Ht _ IH]; intros commands argv piped r H; cbn zeta.
  - split; [|by constructor]. simpl. unfold no_empty. simpl.
    destruct argv as [|a argv]; simpl in *.
    + destruct commands; [done|]. injection H as <-. by rewrite app_nil_r.
    + destruct commands; by injection H as <-.
  - destruct Ht as [w|t o Ho].
    + simpl in H |- *. by apply IH.
    + cbn [inspect] in H. cbn [parse_go op negb text]. rewrite Ho. destruct (_ && _); [done|].
      destruct argv as [|a argv]; [done|]. apply (IH _ _ (is_lit o "|")) in H as [-> Hf].
      split; [|by constructor]. rewrite fmap_cons. unfold no_empty at 2. simpl.
      by rewrite <-(assoc_L (++)).
Qed.

(** C40: The two shell parsers agree.  On a command line without redirections and with no white space
    but blanks, tabs and line ends, if the strict parser of the classifier accepts it, the lenient one of the
    shell tool's guard finds the same argument vectors in the same order (apart from commands
    without words), and no redirection or substitution. *)
Theorem parsers_agree command cmds :
  Forall plain_char command → inspect_literal_commands command = Ok cmds →
  no_empty (ShellPolicy.argv <$> parse command) = cmds
  ∧ Forall (λ c, redirects c = [] ∧ substitutions c = []) (parse command).
Proof.
  unfold inspect_literal_commands, parse. intros Hc (ts & Ht & Hi)%bind_Ok.
  apply tokenize_same in Ht; [|done]. destruct (inspect_same _ _ Ht [] [] false _ Hi) as [-> Hf]. done.
Qed.

#[export] Instance plain_char_dec c : Decision (plain_char c).
Proof. unfold plain_char. apply _. Defined.
Lemma parsers_agree_witness :
  no_empty (ShellPolicy.argv <$> parse (lit "git -C 'a b' status; echo x\ y && ls -l | wc"))
  = [[lit "git"; lit "-C"; lit "a b"; lit "status"]; [lit "echo"; lit "x y"]; [lit "ls"; lit "-l"]; [lit "wc"]].
Proof.
  refine (proj1 (parsers_agree (lit "git -C 'a b' status; echo x\ y && ls -l | wc") _ _ _)).
  - apply (bool_decide_unpack _). vm_compute. exact I.
  - vm_compute. reflexivity.
Defined.
