(* ===== verification/PatchHunks.v ===== *)
(** * PatchHunks: applying the hunks of a patch to a file

    [crates/adk-tools/src/patch_hunks.rs] over the records of [patch.rs]: unified
    hunks, placed by their line numbers, and range-less ones, placed by a search
    for their context (Knuth, Morris and Pratt over lines).  A file is the list
    of its bytes; offsets are byte offsets. *)

From stdpp Require Import pretty.
From S2P Require Import Prelude Text.

(** ** The records of [patch.rs] *)

Notation text := (list ascii) (only parsing).
Notation nl := ("010"%char).
Notation cr := ("013"%char).
Notation blank := (" "%char).
Notation plus := ("+"%char).
Notation minus := ("-"%char).

Record Line := mkLine { kind : ascii; line_text : text; no_newline : bool }.
Record Hunk := mkHunk {
  old_start : Z;
  old_count : Z;
  new_start : Z;
  new_count : Z;
  range_less : bool;
  locator : text;
  hunk_eof : bool;
  hunk_lines : list Line;
}.
Definition default_hunk : Hunk := mkHunk 0 0 0 0 false [] false [].
Record PatchFile := mkPatchFile {
  old_path : string;
  new_path : string;
  old_mode : option N;
  new_mode : option N;
  delete_all : bool;
  hunks : list Hunk;
}.
Definition default_file : PatchFile := mkPatchFile "" "" None None false [].

Definition MAX_FILE : N := (5 * 1024 * 1024)%N.

(** ** Unified hunks *)

Definition bounded (r : text) : result string text :=
  if (MAX_FILE <? N.of_nat (length r))%N
  then Err ("patched file is too large (" +:+ pretty (length r) +:+ " bytes, limit "
            +:+ pretty MAX_FILE +:+ ")")
  else Ok r.

(** [str::split_inclusive('\n')], and the [scan] of the offsets. *)
Fixpoint split_inclusive (l : text) : list text :=
  match l with
  | [] => []
  | c :: l =>
      if Ascii.eqb c nl then [c] :: split_inclusive l
      else match split_inclusive l with [] => [[c]] | w :: ws => (c :: w) :: ws end
  end.
Fixpoint scan_starts (start : nat) (l : list text) : list nat :=
  match l with [] => [] | w :: l => start :: scan_starts (start + length w) l end.

(** The text a hunk takes out and the text it puts in. *)
Definition side (other : ascii) (h : Hunk) : text :=
  concat ((λ l, if Ascii.eqb (kind l) other then []
                else line_text l ++ if no_newline l then [] else [nl]) <$> hunk_lines h).
Definition old_text : Hunk → text := side plus.
Definition new_text : Hunk → text := side minus.

Definition position (h : Hunk) : Z :=
  if (0 <? old_count h)%Z then (old_start h - 1)%Z else old_start h.
Definition one_if (b : bool) : Z := if b then 1%Z else 0%Z.

Record Progress := mkProgress { cursor : nat; delta : Z; written : text }.
(** The body of the loop over the hunks; the sums of counts stay far from the
    bounds of [i64] because a patch is bounded. *)
Definition apply_hunk (content : text) (starts : list nat) (p : Progress) (h : Hunk)
    : result string Progress :=
  _ ← (if (0 <? old_count h)%Z
       then ensure ((0 <=? position h)%Z
                    && (position h + old_count h <=? Z.of_nat (length starts))%Z)
              "hunk line range does not exist"
       else ensure ((0 <=? position h)%Z && (position h <=? Z.of_nat (length starts))%Z)
              "hunk insertion line range does not exist");
  let expected := (position h + delta p + one_if (0 <? new_count h)%Z)%Z in
  _ ← ensure (new_start h =? expected)%Z
        ("hunk new-file range is inconsistent: got " +:+ pretty (new_start h) +:+ ", want "
         +:+ pretty expected);
  let start := default (length content) (starts !! Z.to_nat (position h)) in
  _ ← ensure (cursor p <=? start)%nat "overlapping hunks";
  _ ← ensure (starts_with (old_text h) (drop start content)) "hunk does not match file content";
  Ok (mkProgress (start + length (old_text h)) (delta p + new_count h - old_count h)
        (written p ++ take (start - cursor p) (drop (cursor p) content) ++ new_text h)).
Definition apply_unified (content : text) (hs : list Hunk) : result string text :=
  let starts := scan_starts 0 (split_inclusive content) in
  p ← foldM (apply_hunk content starts) (mkProgress 0 0 []) hs;
  bounded (written p ++ drop (cursor p) content).

(** ** Range-less hunks *)

Fixpoint find_nl (l : text) : option nat :=
  match l with
  | [] => None
  | c :: l => if Ascii.eqb c nl then Some 0%nat else S <$> find_nl l
  end.
Definition next_end (content : text) (start : nat) : nat :=
  match find_nl (drop start content) with
  | Some n => (start + n + 1)%nat
  | None => length content
  end.
(** [&content[start..end]] *)
Definition slice (content : text) (start stop : nat) : text := take (stop - start) (drop start content).
(** [strip_suffix] of one character. *)
Definition chop (c : ascii) (l : text) : option text :=
  match last l with Some d => if Ascii.eqb c d then Some (removelast l) else None | None => None end.
(** A line without its ending. *)
Definition text_of (line : text) : text :=
  match chop nl line with Some l => default l (chop cr l) | None => line end.

Definition hash (line : text) : N :=
  foldl (λ h b, (N.lxor h (byte_val b) * 1099511628211 mod 2 ^ 64)%N) 14695981039346656037%N line.

Section search.
Context {A : Type} `{EqDecision A}.

(** [while matched > 0 && value != pattern[matched] { matched = prefix[matched - 1] }]:
    [matched] only decreases, so it is fuel enough. *)
Fixpoint fall_back (fuel : nat) (pattern : list A) (prefix : list nat) (v : A) (matched : nat) : nat :=
  match fuel with
  | O => matched
  | S fuel =>
      if (0 <? matched)%nat && negb (bool_decide (pattern !! matched = Some v))
      then fall_back fuel pattern prefix v (default 0%nat (prefix !! (matched - 1)%nat))
      else matched
  end.
Definition advance (pattern : list A) (prefix : list nat) (v : A) (matched : nat) : nat :=
  let m := fall_back matched pattern prefix v matched in
  if bool_decide (pattern !! m = Some v) then S m else m.
(** The loop that fills [prefix], from its second entry on. *)
Fixpoint fill_prefix (pattern rest : list A) (prefix : list nat) (matched : nat) : list nat :=
  match rest with
  | [] => prefix
  | v :: rest =>
      let m := advance pattern prefix v matched in
      fill_prefix pattern rest (prefix ++ [m]) m
  end.
Definition prefix_table (pattern : list A) : list nat :=
  match pattern with [] => [] | _ :: rest => fill_prefix pattern rest [0%nat] 0 end.
End search.

Record Scan := mkScan {
  scan_matched : nat;
  scan_line : nat;
  ring : list nat;
  scan_found : option nat;
}.
Definition hashed (l : text) : N * text := (hash l, l).
(** The loop over the lines of the file; [fuel] exceeds their number. *)
Fixpoint sequence_loop (fuel : nat) (content : text) (pattern : list (N * text))
    (prefix : list nat) (eof : bool) (start : nat) (s : Scan) : option (result string (option nat)) :=
  match fuel with
  | O => None
  | S fuel =>
      if (start <? length content)%nat then
        let stop := next_end content start in
        let matched := advance pattern prefix (hashed (text_of (slice content start stop)))
                         (scan_matched s) in
        let n := length pattern in
        let ring := <[(scan_line s mod n)%nat := start]> (ring s) in
        let line := S (scan_line s) in
        if (matched =? n)%nat then
          let next := default 0%nat (prefix !! (matched - 1)%nat) in
          if negb eof || (stop =? length content)%nat then
            if bool_decide (is_Some (scan_found s))
            then Some (Err "range-less hunk matches file content more than once")
            else sequence_loop fuel content pattern prefix eof stop
                   (mkScan next line ring (ring !! ((line - n) mod n)%nat))
          else sequence_loop fuel content pattern prefix eof stop
                 (mkScan next line ring (scan_found s))
        else sequence_loop fuel content pattern prefix eof stop
               (mkScan matched line ring (scan_found s))
      else Some (Ok (scan_found s))
  end.
Definition sequence (content : text) (start : nat) (lines : list text) (eof : bool)
    : result string nat :=
  let pattern := hashed <$> lines in
  let s := mkScan 0 0 (replicate (length pattern) 0%nat) None in
  match sequence_loop (S (length content)) content pattern (prefix_table pattern) eof start s with
  | Some (Ok found) => ok_or found "range-less hunk does not match file content"
  | Some (Err e) => Err e
  | None => Err ""
  end.

Record Edit := mkEdit { edit_start : nat; edit_end : nat; edit_new : text }.

(** [content.find('\n').is_some_and(|n| n > 0 && content.as_bytes()[n - 1] == b'\r')] *)
Definition ending_of (content : text) : text :=
  match find_nl content with
  | Some n => if (0 <? n)%nat && bool_decide (content !! (n - 1)%nat = Some cr) then [cr; nl] else [nl]
  | None => [nl]
  end.
Definition ends_with_nl (content : text) : bool := bool_decide (last content = Some nl).

(** The search for the locator: the offset behind the first line equal to it. *)
Fixpoint find_locator (fuel : nat) (content : text) (search : nat) (loc : text)
    : option (option nat) :=
  match fuel with
  | O => None
  | S fuel =>
      if (search <? length content)%nat then
        let stop := next_end content search in
        if bool_decide (text_of (slice content search stop) = loc) then Some (Some stop)
        else find_locator fuel content stop loc
      else Some None
  end.

(** The inner loop: a run of removed and added lines. *)
Fixpoint take_run (content ending : text) (ls : list Line) (e : Edit) (added : bool) (position : nat)
    : Edit * bool * nat * list Line :=
  match ls with
  | l :: rest =>
      if Ascii.eqb (kind l) blank then (e, added, position, ls)
      else if Ascii.eqb (kind l) minus then
        let stop := next_end content (edit_end e) in
        take_run content ending rest (mkEdit (edit_start e) stop (edit_new e)) added stop
      else
        take_run content ending rest
          (mkEdit (edit_start e) (edit_end e) (edit_new e ++ line_text l ++ ending)) true position
  | [] => (e, added, position, [])
  end.
(** What the end of an unterminated file changes. *)
Definition close_edit (content ending : text) (e : Edit) (added : bool) : Edit :=
  let unterminated (n : nat) :=
    (n =? length content)%nat && (0 <? n)%nat && negb (ends_with_nl content) && added in
  let new := if unterminated (edit_start e) then ending ++ edit_new e else edit_new e in
  let new := if unterminated (edit_end e) then take (length new - length ending) new else new in
  mkEdit (edit_start e) (edit_end e) new.
Fixpoint edits_of (fuel : nat) (content ending : text) (ls : list Line) (position changed : nat)
    : option (result string (list Edit * nat)) :=
  match fuel with
  | O => None
  | S fuel =>
      match ls with
      | [] => Some (Ok ([], changed))
      | l :: rest =>
          if Ascii.eqb (kind l) blank
          then edits_of fuel content ending rest (next_end content position) changed
          else
            let '(e, added, position, rest) :=
              take_run content ending ls (mkEdit position position []) false position in
            let e := close_edit content ending e added in
            if (edit_start e <? changed)%nat
            then Some (Err "overlapping range-less hunks")
            else
              r ← edits_of fuel content ending rest position (edit_end e);
              Some ('(edits, changed) ← r; Ok (e :: edits, changed))
      end
  end.

Record Cursors := mkCursors { hunk_cursor : nat; changed_cursor : nat; edits : list Edit }.
Definition wanted (h : Hunk) : list text :=
  line_text <$> List.filter (λ l, negb (Ascii.eqb (kind l) plus)) (hunk_lines h).
(** A hunk with nothing to look for fills an empty file. *)
Definition fill_empty (content ending : text) (alone : bool) (h : Hunk) : result string Edit :=
  if negb (bool_decide (content = [])) || negb alone
  then Err "range-less hunk has no context or removed lines"
  else Ok (mkEdit 0 0 (concat ((λ l, if Ascii.eqb (kind l) minus then [] else line_text l ++ ending)
                               <$> hunk_lines h))).
Definition locate (content : text) (search : nat) (h : Hunk) : result string nat :=
  if bool_decide (locator h = []) then Ok search
  else match find_locator (S (length content)) content search (locator h) with
       | Some (Some search) => Ok search
       | _ => Err "range-less hunk locator does not match file content"
       end.
Definition range_less_hunk (content ending : text) (alone : bool) (c : Cursors) (h : Hunk)
    : result string Cursors :=
  _ ← ensure (range_less h) "cannot mix range-less and unified hunks";
  if bool_decide (wanted h = []) then
    e ← fill_empty content ending alone h;
    Ok (mkCursors (hunk_cursor c) (changed_cursor c) (edits c ++ [e]))
  else
    search ← locate content (hunk_cursor c) h;
    matched ← sequence content search (wanted h) (hunk_eof h);
    match edits_of (S (length (hunk_lines h))) content ending (hunk_lines h) matched
            (changed_cursor c) with
    | Some (Ok (es, changed)) => Ok (mkCursors matched changed (edits c ++ es))
    | Some (Err e) => Err e
    | None => Err ""
    end.
Fixpoint apply_edits (content : text) (cur : nat) (es : list Edit) : text :=
  match es with
  | [] => drop cur content
  | e :: es => slice content cur (edit_start e) ++ edit_new e ++ apply_edits content (edit_end e) es
  end.
Definition apply_range_less (content : text) (hs : list Hunk) : result string text :=
  c ← foldM (range_less_hunk content (ending_of content) (length hs =? 1)%nat) (mkCursors 0 0 []) hs;
  bounded (apply_edits content 0 (edits c)).

(** [hunks::apply] *)
Definition apply (content : text) (hs : list Hunk) : result string text :=
  match hs with
  | [] => Ok content
  | h :: _ => if range_less h then apply_range_less content hs else apply_unified content hs
  end.
