(* ===== verification/PatchHunksProps.v ===== *)
(** * PatchHunksProps: what applying hunks does

    [patched]: the file with the old text of every hunk, each at its line,
    replaced by the new one and everything between the hunks kept.  The unified
    application computes exactly that, so the reversed hunks undo it. *)

From S2P Require Import Prelude Text PatchHunks.

(** ** Lines *)

Definition aligned (l : list ascii) : Prop := l = [] ∨ last l = Some nl.
Definition line_count (l : list ascii) : nat := length (split_inclusive l).

Lemma concat_split l : concat (split_inclusive l) = l.
Proof.
  induction l as [|c l IH]; [done|]. simpl. destruct (Ascii.eqb c nl); simpl; [by rewrite IH|].
  destruct (split_inclusive l) as [|w ws]; simpl in *; by rewrite IH.
Qed.
Lemma split_nil l : split_inclusive l = [] → l = [].
Proof. intros H. by rewrite <-(concat_split l), H. Qed.
Lemma line_count_le l : (line_count l <= length l)%nat.
Proof.
  unfold line_count. induction l as [|c l IH]; simpl; [done|]. destruct (Ascii.eqb c nl); simpl; [lia|].
  destruct (split_inclusive l); simpl in *; lia.
Qed.
Lemma aligned_app_r l k : aligned k → aligned l → aligned (l ++ k).
Proof.
  intros [->|Hk] Hl; [by rewrite app_nil_r|]. right. by rewrite last_app, Hk.
Qed.
Lemma aligned_cons c l : l ≠ [] → aligned (c :: l) → aligned l.
Proof. destruct l as [|d l]; [done|]. intros _ [|H]; [done|]. right. exact H. Qed.
Lemma split_app l k : aligned l → split_inclusive (l ++ k) = split_inclusive l ++ split_inclusive k.
Proof.
  induction l as [|c l IH]; intros Hl; [done|]. simpl.
  destruct (Ascii.eqb_spec c nl) as [->|Hc].
  - simpl. f_equal. apply IH. destruct l as [|d l]; [by left|]. by eapply aligned_cons.
  - assert (l ≠ []) as Hne by (destruct Hl as [|Hl]; [done|]; intros ->; by injection Hl).
    rewrite IH by by eapply aligned_cons. destruct (split_inclusive l) eqn:Hs; [|done].
    by apply split_nil in Hs.
Qed.
Lemma aligned_app_inv l k : k ≠ [] → aligned (l ++ k) → aligned k.
Proof.
  intros Hk [H|H]; [by apply app_nil in H as [_ ->]|]. right.
  rewrite last_app in H. by destruct (last k) eqn:?; [|apply last_None in Heqo].
Qed.
Lemma split_head l w ws :
  split_inclusive l = w :: ws →
  w ≠ [] ∧ (ws = [] ∨ aligned w) ∧ split_inclusive w = [w] ∧ split_inclusive (concat ws) = ws.
Proof.
  revert w ws. induction l as [|c l IH]; intros w ws; [done|]. simpl.
  destruct (Ascii.eqb_spec c nl) as [->|Hc].
  - intros [= <- <-]. split_and!; [done|right; by right|done|by rewrite concat_split].
  - destruct (split_inclusive l) as [|w' ws'] eqn:Hl.
    + intros [= <- <-]. split_and!; [done|by left| |done]. simpl. by destruct (Ascii.eqb_spec c nl).
    + intros [= <- <-]. destruct (IH w' ws' eq_refl) as (Hne & Ha & Hs & Hc').
      split_and!; [done| |simpl; destruct (Ascii.eqb_spec c nl); [done|by rewrite Hs]|done].
      destruct Ha as [?|[?|Ha]]; [by left|done|right; right]. by destruct w'.
Qed.
(** A prefix made of whole lines. *)
Lemma split_take l n :
  let p := concat (take n (split_inclusive l)) in
  split_inclusive p = take n (split_inclusive l) ∧ ((n < line_count l)%nat → aligned p).
Proof.
  unfold line_count. revert l. induction n as [|n IH]; intros l; [by split; [|left]|].
  destruct (split_inclusive l) as [|w ws] eqn:Hl; [by split; [|simpl; lia]|].
  destruct (split_head _ _ _ Hl) as (_ & Ha & Hs & Hc). simpl.
  pose proof (IH (concat ws)) as [IH1 IH2]. rewrite Hc in IH1, IH2.
  destruct Ha as [->|Ha].
  - rewrite take_nil in *. simpl in *. rewrite app_nil_r. split; [done|lia].
  - rewrite split_app, Hs by done. simpl. rewrite IH1. split; [done|]. intros Hn.
    apply aligned_app_r; [apply IH2; lia|done].
Qed.

Lemma lookup_starts start ls n :
  (n < length ls)%nat → scan_starts start ls !! n = Some (start + length (concat (take n ls)))%nat.
Proof.
  revert start n. induction ls as [|w ls IH]; intros start [|n] Hn; simpl in *; try lia.
  - by rewrite Nat.add_0_r.
  - rewrite IH by lia. rewrite length_app. f_equal. lia.
Qed.
Lemma length_starts start ls : length (scan_starts start ls) = length ls.
Proof. revert start. induction ls; intros; simpl; auto. Qed.

(** Where the [n]th line of a file starts. *)
Definition line_start (content : list ascii) (n : nat) : nat :=
  default (length content) (scan_starts 0 (split_inclusive content) !! n).
Lemma line_start_prefix content n :
  (n <= line_count content)%nat →
  take (line_start content n) content = concat (take n (split_inclusive content)).
Proof.
  unfold line_start, line_count. intros Hn. destruct (decide (n < length (split_inclusive content))%nat).
  - rewrite lookup_starts by done. simpl. rewrite <-(concat_split content) at 2.
    rewrite <-(take_drop n (split_inclusive content)) at 2. rewrite concat_app. by rewrite take_app_length.
  - rewrite (lookup_ge_None_2 _ n) by (rewrite length_starts; lia). simpl.
    rewrite !take_ge by lia. by rewrite concat_split.
Qed.
Lemma line_start_le content n : (line_start content n <= length content)%nat.
Proof.
  unfold line_start. destruct (decide (n < length (split_inclusive content))%nat).
  - rewrite lookup_starts by done. simpl. rewrite <-(concat_split content) at 2.
    rewrite <-(take_drop n (split_inclusive content)) at 2. rewrite concat_app, length_app. lia.
  - by rewrite (lookup_ge_None_2 _ n) by (rewrite length_starts; lia).
Qed.

(** [pre] is [n] whole lines of the file [pre ++ post]. *)
Definition at_line (pre post : list ascii) (n : Z) : Prop :=
  Z.of_nat (line_count pre) = n ∧ (aligned pre ∨ post = []).
Lemma at_line_start content n :
  (n <= line_count content)%nat →
  at_line (take (line_start content n) content) (drop (line_start content n) content) (Z.of_nat n).
Proof.
  intros Hn. unfold at_line. rewrite line_start_prefix by done.
  destruct (split_take content n) as [Hs Ha]. unfold line_count in *. rewrite Hs.
  rewrite length_take. split; [lia|]. destruct (decide (n < length (split_inclusive content))%nat).
  - left. by apply Ha.
  - right. unfold line_start. rewrite (lookup_ge_None_2 _ n) by (rewrite length_starts; lia).
    by rewrite drop_ge.
Qed.
Lemma line_start_at pre post n :
  at_line pre post n → (0 <= n <= Z.of_nat (line_count (pre ++ post)))%Z
    ∧ line_start (pre ++ post) (Z.to_nat n) = length pre.
Proof.
  unfold at_line, line_count. intros [<- Ha]. rewrite Nat2Z.id.
  assert (split_inclusive (pre ++ post) = split_inclusive pre ++ split_inclusive post) as Hs.
  { destruct Ha as [Ha| ->]; [by apply split_app|]. by rewrite !app_nil_r. }
  assert (length (split_inclusive pre) <= line_count (pre ++ post))%nat as Hle
    by (unfold line_count; rewrite Hs, length_app; lia).
  split; [unfold line_count in Hle; lia|].
  pose proof (line_start_prefix (pre ++ post) (length (split_inclusive pre)) Hle) as Hp.
  rewrite Hs, take_app_length, concat_split in Hp.
  apply (f_equal length) in Hp. rewrite length_take in Hp.
  pose proof (line_start_le (pre ++ post) (length (split_inclusive pre))). lia.
Qed.

(** ** Unified hunks *)

(** The hunk goes between [before ++ gap] and [rest]. *)
Record fits (before gap rest : list ascii) (d : Z) (h : Hunk) : Prop := {
  fits_at : at_line (before ++ gap) (old_text h ++ rest) (position h);
  fits_in : (0 < old_count h)%Z →
    (position h + old_count h <= Z.of_nat (line_count (before ++ gap ++ old_text h ++ rest)))%Z;
  fits_new : new_start h = (position h + d + one_if (0 <? new_count h)%Z)%Z;
}.
(** Behind [before], and with [d] lines more so far, the hunks turn a text into another. *)
Inductive patched : list ascii → Z → list Hunk → list ascii → list ascii → Prop :=
| patched_nil before d rest : patched before d [] rest rest
| patched_cons before d h hs gap rest rest' :
    fits before gap rest d h →
    patched (before ++ gap ++ old_text h) (d + new_count h - old_count h) hs rest rest' →
    patched before d (h :: hs) (gap ++ old_text h ++ rest) (gap ++ new_text h ++ rest').

Lemma starts_with_app p l r : starts_with p (p ++ r) = true ∧ (starts_with p l = true → ∃ k, l = p ++ k).
Proof. split; [apply starts_with_spec; by apply prefix_app_r|]. by intros [k ->]%starts_with_spec; exists k. Qed.
Lemma apply_hunk_Ok before rem p p' h :
  cursor p = length before →
  apply_hunk (before ++ rem) (scan_starts 0 (split_inclusive (before ++ rem))) p h = Ok p' ↔
  ∃ gap rest, rem = gap ++ old_text h ++ rest ∧ fits before gap rest (delta p) h
    ∧ p' = mkProgress (length (before ++ gap ++ old_text h)) (delta p + new_count h - old_count h)
             (written p ++ gap ++ new_text h).
Proof.
  intros Hcur. unfold apply_hunk. rewrite length_starts, Hcur.
  change (default _ _) with (line_start (before ++ rem) (Z.to_nat (position h))). split.
  - intros Ha. apply bind_Ok in Ha as ([] & Hrange & Ha).
    apply bind_Ok in Ha as ([] & Hnew%ensure_Ok%Z.eqb_eq & Ha).
    apply bind_Ok in Ha as ([] & Hle%ensure_Ok%Nat.leb_le & Ha).
    apply bind_Ok in Ha as ([] & Hold%ensure_Ok & [= <-]).
    assert ((0 <= position h <= Z.of_nat (line_count (before ++ rem)))%Z
      ∧ ((0 < old_count h)%Z → (position h + old_count h <= Z.of_nat (line_count (before ++ rem)))%Z))
      as [Hpos Hin].
    { unfold line_count. destruct (0 <? old_count h)%Z eqn:Hc; apply ensure_Ok, andb_true_iff in Hrange as [];
      lia. }
    pose proof (line_start_le (before ++ rem) (Z.to_nat (position h))) as Hend.
    pose proof (at_line_start (before ++ rem) (Z.to_nat (position h)) ltac:(lia)) as Hat.
    set (start := line_start _ _) in *. rewrite Z2Nat.id in Hat by lia.
    rewrite !take_app_ge, !drop_app_ge in * by lia. rewrite Nat.sub_diag, drop_0.
    apply (proj2 (starts_with_app _ _ [])) in Hold as [rest Hrest]. set (gap := take (start - length before) rem) in *.
    assert (rem = gap ++ old_text h ++ rest) as Hrem by (rewrite <-Hrest; unfold gap; by rewrite take_drop).
    assert (length gap = (start - length before)%nat) as Hgap.
    { unfold gap. rewrite length_take. rewrite length_app in Hend. lia. }
    exists gap, rest. split_and!; [done| |].
    + rewrite Hrest in Hat. split; [done| |done]. rewrite <-Hrem. done.
    + rewrite !length_app, Hgap. f_equal. lia.
  - intros (gap & rest & -> & [Hat Hin Hnew] & ->).
    rewrite (app_assoc before) in *. apply line_start_at in Hat as [Hpos Hstart].
    rewrite Hstart, drop_app_length. unfold line_count in *.
    assert ((if (0 <? old_count h)%Z then _ else _ : result string unit) = Ok tt) as ->.
    { destruct (0 <? old_count h)%Z eqn:Hc.
      - apply ensure_Ok, andb_true_iff. rewrite <-app_assoc in *. apply Z.ltb_lt in Hc. specialize (Hin Hc). lia.
      - apply ensure_Ok, andb_true_iff. lia. }
    simpl. rewrite Hnew, Z.eqb_refl. simpl. rewrite (proj2 (Nat.leb_le _ _)) by (rewrite length_app; lia).
    simpl. rewrite (proj1 (starts_with_app _ [] _)). simpl. f_equal.
    rewrite <-!app_assoc, drop_app_length, !length_app, Nat.add_sub', take_app_length. f_equal. lia.
Qed.
Lemma written_grows content starts p hs p' :
  foldM (apply_hunk content starts) p hs = Ok p' → ∃ t, written p' = written p ++ t.
Proof.
  apply (foldM_inv _ (λ q, ∃ t, written q = written p ++ t)).
  - exists []. by rewrite app_nil_r.
  - intros q h q' _ [t Ht] Hq. unfold apply_hunk in Hq.
    do 4 (apply bind_Ok in Hq as ([] & _ & Hq)). injection Hq as <-. simpl. rewrite Ht, <-app_assoc.
    by eexists.
Qed.
Lemma apply_hunks_Ok before rem p hs c' :
  cursor p = length before →
  (∃ p', foldM (apply_hunk (before ++ rem) (scan_starts 0 (split_inclusive (before ++ rem)))) p hs = Ok p'
    ∧ written p' ++ drop (cursor p') (before ++ rem) = written p ++ c') ↔
  patched before (delta p) hs rem c'.
Proof.
  revert before rem p c'. induction hs as [|h hs IH]; intros before rem p c' Hcur.
  - simpl. split.
    + intros (p' & [= <-] & Hw). rewrite Hcur, drop_app_length in Hw. simplify_list_eq. constructor.
    + intros Hp. inversion Hp; subst. exists p. by rewrite Hcur, drop_app_length.
  - assert (∀ gap rest, (before ++ gap ++ old_text h) ++ rest = before ++ gap ++ old_text h ++ rest)
      as Happ by (intros; by rewrite <-!app_assoc).
    cbn [foldM]. split.
    + intros (p' & Hf & Hw). destruct (apply_hunk _ _ p h) as [p1|] eqn:Ha; [|done].
      apply apply_hunk_Ok in Ha as (gap & rest & -> & Hfits & ->); [|done].
      rewrite <-Happ in Hf, Hw.
      pose proof (written_grows _ _ _ _ _ Hf) as [t Ht]. cbn [written] in Ht.
      assert (c' = gap ++ new_text h ++ t ++ drop (cursor p') ((before ++ gap ++ old_text h) ++ rest)) as ->.
      { rewrite Ht, <-!app_assoc in Hw. apply app_inv_head in Hw. by rewrite <-Hw, <-!app_assoc. }
      constructor; [done|].
      apply (IH _ rest (mkProgress (length (before ++ gap ++ old_text h))
        (delta p + new_count h - old_count h) (written p ++ gap ++ new_text h)));
        [done|].
      exists p'. split; [done|]. cbn [written]. by rewrite Hw, <-!app_assoc.
    + intros Hp. inversion Hp as [|? ? ? ? gap rest rest' Hfits Hrest]; subst.
      assert (apply_hunk (before ++ gap ++ old_text h ++ rest) (scan_starts 0 (split_inclusive
        (before ++ gap ++ old_text h ++ rest))) p h = Ok _) as ->
        by (apply apply_hunk_Ok; [done|]; exists gap, rest; by split_and!).
      apply (IH _ rest (mkProgress (length (before ++ gap ++ old_text h))
        (delta p + new_count h - old_count h) (written p ++ gap ++ new_text h)))
        in Hrest as (p' & Hf & Hw); [|done].
      rewrite <-Happ. exists p'. split; [done|]. rewrite Hw. simpl. by rewrite <-!app_assoc.
Qed.

(** ** Undoing a patch *)

Definition reverse_line (l : Line) : Line :=
  mkLine (if Ascii.eqb (kind l) plus then minus else if Ascii.eqb (kind l) minus then plus else kind l)
    (line_text l) (no_newline l).
Definition reverse_hunk (h : Hunk) : Hunk :=
  mkHunk (new_start h) (new_count h) (old_start h) (old_count h) (range_less h) (locator h)
    (hunk_eof h) (reverse_line <$> hunk_lines h).
(** The counts of a hunk are those of its texts, which are whole lines. *)
Record exact (h : Hunk) : Prop := {
  exact_kind : range_less h = false;
  exact_old : old_count h = Z.of_nat (line_count (old_text h));
  exact_new : new_count h = Z.of_nat (line_count (new_text h));
  exact_lines : aligned (old_text h) ∧ aligned (new_text h);
}.

Lemma reverse_line_kinds l :
  Ascii.eqb (kind (reverse_line l)) plus = Ascii.eqb (kind l) minus
  ∧ Ascii.eqb (kind (reverse_line l)) minus = Ascii.eqb (kind l) plus.
Proof.
  destruct l as [k t n]. unfold reverse_line. cbn [kind].
  destruct (Ascii.eqb_spec k plus) as [->|Hp]; [done|].
  destruct (Ascii.eqb_spec k minus) as [->|Hm]; [done|]. by apply Ascii.eqb_neq in Hp, Hm.
Qed.
Lemma reverse_old h : old_text (reverse_hunk h) = new_text h.
Proof.
  unfold old_text, new_text, side. simpl. rewrite <-list_fmap_compose. f_equal.
  apply list_fmap_ext. intros ? l _. cbn [compose]. by rewrite (proj1 (reverse_line_kinds l)).
Qed.
Lemma reverse_new h : new_text (reverse_hunk h) = old_text h.
Proof.
  unfold old_text, new_text, side. simpl. rewrite <-list_fmap_compose. f_equal.
  apply list_fmap_ext. intros ? l _. cbn [compose]. by rewrite (proj2 (reverse_line_kinds l)).
Qed.
Lemma line_count_app l k : aligned l → line_count (l ++ k) = (line_count l + line_count k)%nat.
Proof. intros Hl. unfold line_count. by rewrite split_app, length_app. Qed.

Lemma patched_reverse before before' d hs c c' :
  patched before d hs c c' → Forall exact hs → aligned before → aligned before' → aligned c →
  Z.of_nat (line_count before') = (Z.of_nat (line_count before) + d)%Z →
  aligned c' ∧ patched before' (-d) (reverse_hunk <$> hs) c' c.
Proof.
  intros Hp. revert before'. induction Hp as [before d rest|before d h hs gap rest rest' Hfits _ IH];
    intros before' Hex Hb Hb' Hc Hd; [split; [done|constructor]|].
  apply Forall_cons in Hex as [[_ Ho Hn [Hao Han]] Hex]. destruct Hfits as [[Hat Hal] Hin Hnew].
  assert (aligned rest) as Hrest.
  { destruct (decide (rest = [])) as [->|Hr]; [by left|].
    rewrite app_assoc in Hc. by eapply aligned_app_inv. }
  assert (aligned gap) as Hgap.
  { destruct Hal as [Ha|He].
    - destruct (decide (gap = [])) as [->|Hg]; [by left|]. by eapply aligned_app_inv.
    - by rewrite He, app_nil_r in Hc. }
  destruct (IH (before' ++ gap ++ new_text h)) as [Hrest' Hp]; auto using aligned_app_r.
  { rewrite !line_count_app by auto using aligned_app_r. lia. }
  split; [auto using aligned_app_r|]. simpl. rewrite <-(reverse_old h), <-(reverse_new h).
  assert (position (reverse_hunk h) = (position h + d)%Z) as Hpos.
  { unfold position at 1. simpl. rewrite Hnew. unfold one_if. destruct (0 <? new_count h)%Z; lia. }
  constructor.
  - split.
    + rewrite Hpos. split; [|left; auto using aligned_app_r].
      rewrite line_count_app by done. rewrite <-Hat, line_count_app by done. lia.
    + rewrite Hpos, reverse_old. simpl. intros _.
      rewrite !line_count_app by auto using aligned_app_r. rewrite line_count_app in Hat by done. lia.
    + rewrite Hpos. simpl. unfold position, one_if. destruct (0 <? old_count h)%Z; lia.
  - rewrite reverse_old. simpl. by replace (- d + old_count h - new_count h)%Z with
      (- (d + new_count h - old_count h))%Z by lia.
Qed.

Lemma bounded_Ok t r : bounded t = Ok r ↔ r = t ∧ (N.of_nat (length t) <= MAX_FILE)%N.
Proof.
  unfold bounded. destruct (N.ltb_spec MAX_FILE (N.of_nat (length t))); naive_solver lia.
Qed.
Lemma apply_unified_Ok content hs r :
  apply_unified content hs = Ok r ↔
  patched [] 0 hs content r ∧ (N.of_nat (length r) <= MAX_FILE)%N.
Proof.
  rewrite <-(apply_hunks_Ok [] content (mkProgress 0 0 []) hs r eq_refl). simpl.
  unfold apply_unified. split.
  - intros (p & Hf & [-> Hb]%bounded_Ok)%bind_Ok. eauto.
  - intros [(p & Hf & <-) Hb]. rewrite Hf. simpl. by apply bounded_Ok.
Qed.

(** A unified patch is applied exactly when every hunk fits: the result is the file with the old
    text of each hunk, found at its line, replaced by the new one, and everything between the
    hunks kept. *)
Theorem unified_apply_spec content h hs r :
  range_less h = false →
  apply content (h :: hs) = Ok r ↔
  patched [] 0 (h :: hs) content r ∧ (N.of_nat (length r) <= MAX_FILE)%N.
Proof. intros Hh. simpl. rewrite Hh. apply apply_unified_Ok. Qed.

(** C26: The reversed patch undoes a patch.  Let the file be empty or end with a newline and be
    within the size limit, and let every hunk say its ranges, take out and put in whole lines, the
    last of which has its newline too, and count them right, as a parsed hunk does.  When the hunks apply, applying them with the ranges and the removals and additions
    swapped gives the file back.  Hunks without ranges, which are searched for in the file, are not
    covered. *)
Theorem patch_reverses content hs r :
  apply content hs = Ok r → Forall exact hs → aligned content →
  (N.of_nat (length content) <= MAX_FILE)%N →
  apply r (reverse_hunk <$> hs) = Ok content.
Proof.
  destruct hs as [|h hs]; [by intros [= <-]|]. intros Ha Hex Hc Hlen.
  pose proof (Forall_inv Hex) as Hh. apply exact_kind in Hh.
  simpl in Ha. rewrite Hh in Ha. apply apply_unified_Ok in Ha as [Hp _].
  simpl. rewrite Hh. change (apply_unified r (reverse_hunk <$> h :: hs) = Ok content).
  apply apply_unified_Ok. split; [|done].
  by eapply (patched_reverse [] []) in Hp as [_ Hp]; [|try done; by left..].
Qed.

(** ** Concrete patches *)

(** The lines of a file, all with the same ending. *)
Definition render (ending : list ascii) (ts : list (list ascii)) : list ascii :=
  concat ((λ t, t ++ ending) <$> ts).

Definition demo_line (k : ascii) (s : string) : Line := mkLine k (bytes s) false.
Definition demo_file : list (list ascii) := bytes <$> ["fn a() {"; "  x"; "}"; "fn b() {"; "  x"; "}"].
Definition demo_content : list ascii := render [nl] demo_file.
Definition demo_hunks : list Hunk :=
  [mkHunk 2 1 2 2 false [] false [demo_line minus "  x"; demo_line plus "  y"; demo_line plus "  z"];
   mkHunk 5 0 7 1 false [] false [demo_line plus "  w"]].
Lemma unified_apply_spec_witness :
  ∃ r, apply demo_content demo_hunks = Ok r ∧ patched [] 0 demo_hunks demo_content r.
Proof.
  eexists. split; [vm_compute; reflexivity|].
  apply (unified_apply_spec demo_content (hd default_hunk demo_hunks) (tl demo_hunks)); vm_compute; reflexivity.
Defined.
Lemma patch_reverses_witness :
  ∃ r, apply demo_content demo_hunks = Ok r ∧ apply r (reverse_hunk <$> demo_hunks) = Ok demo_content.
Proof.
  eexists. split; [vm_compute; reflexivity|].
  apply (patch_reverses demo_content demo_hunks).
  - vm_compute. reflexivity.
  - repeat constructor; vm_compute; reflexivity || (left; reflexivity) || (right; reflexivity).
  - right. reflexivity.
  - vm_compute. discriminate.
Defined.

(** The marker "No newline at end of file" is not checked against the file: a hunk that removes an
    unterminated line "abc" is applied to the line "abcdef", of which it replaces the beginning. *)
Theorem no_newline_not_checked :
  apply (bytes "abcdef" ++ [nl])
    [mkHunk 1 1 1 1 false [] false [mkLine minus (bytes "abc") true; demo_line plus "xyz"]]
  = Ok (bytes "xyz" ++ [nl] ++ bytes "def" ++ [nl]).
Proof. vm_compute. reflexivity. Qed.
