(* ===== verification/PatchSearch.v ===== *)
(** * PatchSearch: the search of a range-less hunk

    The scan of Knuth, Morris and Pratt with its table of borders, its ring of
    line starts and its hashed lines finds exactly the places where a block of
    lines occurs. *)

From S2P Require Import Prelude Text PatchHunks PatchHunksProps.

(** ** The search for a block of lines *)

Section kmp.
Context {A : Type} `{EqDecision A} (P : list A).

(** The first [k] elements of the pattern end the text [s]. *)
Definition border (s : list A) (k : nat) : Prop := (k <= length P)%nat ∧ take k P `suffix_of` s.
(** [k] is the longest border below [n]. *)
Definition longest (s : list A) (n k : nat) : Prop :=
  border s k ∧ (k < n)%nat ∧ ∀ j, border s j → (j < n)%nat → (j <= k)%nat.
(** The table is right for the borders of length up to [n]. *)
Definition table (prefix : list nat) (n : nat) : Prop :=
  ∀ m, (0 < m <= n)%nat → ∃ k, prefix !! (m - 1)%nat = Some k ∧ longest (take m P) m k.

Lemma border_0 s : border s 0.
Proof. split; [lia|]. apply suffix_nil. Qed.
Lemma border_snoc s v k :
  border (s ++ [v]) (S k) ↔ border s k ∧ P !! k = Some v.
Proof.
  unfold border. split.
  - intros [Hk Hs]. destruct (lookup_lt_is_Some_2 P k ltac:(lia)) as [w Hw].
    rewrite (take_S_r _ _ w Hw) in Hs. apply suffix_snoc_inv_1 in Hs as Hv. 
    apply suffix_snoc_inv_2 in Hs. subst. split; [split; [lia|done]|done].
  - intros [[Hk Hs] Hv]. apply lookup_lt_Some in Hv as Hlt. split; [lia|].
    rewrite (take_S_r _ _ v Hv). by apply suffix_snoc.
Qed.
Lemma suffixes_nested (l k s : list A) :
  l `suffix_of` s → k `suffix_of` s → (length l <= length k)%nat → l `suffix_of` k.
Proof.
  intros [a ->] [b Hb] Hl. exists (drop (length b) a).
  assert (length b <= length a)%nat by (apply (f_equal length) in Hb; rewrite !length_app in Hb; lia).
  apply (f_equal (drop (length b))) in Hb. by rewrite drop_app_length, drop_app_le in Hb by done.
Qed.
(** The shorter borders of a text are the borders of its longer borders. *)
Lemma border_border s k j : border s k → (j <= k)%nat → border s j ↔ border (take k P) j.
Proof.
  intros [Hk Ht] Hj. unfold border. split; intros [Hl Hs]; split; try done; [|by etrans].
  eapply suffixes_nested; [done..|]. rewrite !length_take. lia.
Qed.

Lemma fall_back_spec prefix v s n k :
  (n <= length P)%nat → table prefix (n - 1) → longest s n k →
  let m := fall_back k P prefix v k in
  border s m ∧ (m < n)%nat ∧ (m = 0%nat ∨ P !! m = Some v)
  ∧ ∀ j, border s j → (j < n)%nat → P !! j = Some v → (j <= m)%nat.
Proof.
  intros Hn Htab.
  (* [k] may be any border below [n] whose longer ones are no candidates. *)
  assert (∀ fuel k, (k <= fuel)%nat → border s k → (k < n)%nat →
    (∀ j, border s j → (j < n)%nat → P !! j = Some v → (j <= k)%nat) →
    let m := fall_back fuel P prefix v k in
    border s m ∧ (m < n)%nat ∧ (m = 0%nat ∨ P !! m = Some v)
    ∧ ∀ j, border s j → (j < n)%nat → P !! j = Some v → (j <= m)%nat) as Hgo.
  { induction fuel as [|fuel IH]; intros i Hf Hb Hi Hmax; simpl.
    { replace i with 0%nat in * by lia. by split_and!; [..|left|]. }
    destruct (Nat.ltb_spec 0 i); simpl; [|split_and!; auto; left; lia].
    case_bool_decide as Hv; simpl; [by split_and!; auto|].
    destruct (Htab i ltac:(lia)) as (b & -> & Hbb & Hlt & Hlong). simpl.
    apply IH; [lia|by apply (border_border s i); [|lia|]|lia|].
    intros j Hj Hjn Hjv. apply Hlong.
    - apply (border_border s i); [done|by apply Hmax|done].
    - destruct (decide (j = i)) as [->|]; [done|]. specialize (Hmax j Hj Hjn Hjv). lia. }
  intros (Hb & Hk & Hlong). by apply Hgo; auto.
Qed.
Lemma advance_spec prefix v s n k :
  (n <= length P)%nat → table prefix (n - 1) → longest s n k →
  longest (s ++ [v]) (S n) (advance P prefix v k).
Proof.
  intros Hn Htab Hk. unfold advance. pose proof (fall_back_spec prefix v s n k Hn Htab Hk) as Hm.
  cbv zeta in Hm. set (m := fall_back _ _ _ _ _) in *. destruct Hm as (Hb & Hlt & Hor & Hmax).
  assert (∀ j, border (s ++ [v]) j → (j < S n)%nat → j = 0%nat ∨ ∃ i, j = S i ∧ border s i
    ∧ (i < n)%nat ∧ P !! i = Some v) as Hinv.
  { intros [|i] Hj Hjn; [by left|right]. exists i. apply border_snoc in Hj as []. auto with lia. }
  case_bool_decide as Hv.
  - split_and!; [by apply border_snoc|lia|]. intros j Hj Hjn.
    destruct (Hinv j Hj Hjn) as [->|(i & -> & Hi & Hin & Hiv)]; [lia|]. specialize (Hmax i Hi Hin Hiv). lia.
  - destruct Hor as [Hz|]; [|done]. rewrite Hz in *. split_and!; [apply border_0|lia|]. intros j Hj Hjn.
    destruct (Hinv j Hj Hjn) as [->|(i & -> & Hi & Hin & Hiv)]; [lia|].
    specialize (Hmax i Hi Hin Hiv). by replace i with 0%nat in Hiv by lia.
Qed.

Lemma table_snoc prefix i m :
  table prefix i → length prefix = i → longest (take (S i) P) (S i) m → table (prefix ++ [m]) (S i).
Proof.
  intros Ht Hl Hm j Hj. destruct (decide (j = S i)) as [->|].
  - exists m. split; [|done]. simpl. rewrite Nat.sub_0_r, <-Hl. by rewrite lookup_app_r, Nat.sub_diag by lia.
  - destruct (Ht j ltac:(lia)) as (k & Hk & Hlong). exists k. split; [|done].
    rewrite lookup_app_l by lia. done.
Qed.
Lemma fill_prefix_spec rest prefix i k :
  rest = drop i P → length prefix = i → (0 < i <= length P)%nat → table prefix i →
  longest (take i P) i k → table (fill_prefix P rest prefix k) (length P).
Proof.
  revert prefix i k. induction rest as [|v rest IH]; intros prefix i k Hr Hl Hi Ht Hk; simpl.
  - symmetry in Hr. apply (f_equal length) in Hr. rewrite length_drop in Hr. simpl in Hr.
    by replace (length P) with i by lia.
  - assert (P !! i = Some v) as Hv.
    { replace i with (i + 0)%nat by lia. rewrite <-lookup_drop, <-Hr. done. }
    assert (longest (take (S i) P) (S i) (advance P prefix v k)) as Hm.
    { rewrite (take_S_r _ _ v Hv). apply advance_spec; [lia| |done]. intros j Hj. apply Ht. lia. }
    apply lookup_lt_Some in Hv. apply (IH _ (S i)); [|by rewrite length_app, Hl, Nat.add_1_r|lia|..].
    + symmetry in Hr. apply (f_equal (drop 1)) in Hr. simpl in Hr. rewrite drop_drop in Hr.
      rewrite drop_0 in Hr. rewrite <-Hr. f_equal. lia.
    + by apply table_snoc.
    + done.
Qed.
Lemma prefix_table_spec : table (prefix_table P) (length P).
Proof.
  unfold prefix_table. destruct P as [|a rest] eqn:HP; [intros m Hm; simpl in Hm; lia|].
  rewrite <-HP. apply (fill_prefix_spec _ _ 1); [by rewrite HP|done|rewrite HP; simpl; lia|..].
  - intros m Hm. replace m with 1%nat by lia. exists 0%nat. split; [done|].
    split_and!; [apply border_0|lia|lia].
  - split_and!; [apply border_0|lia|lia].
Qed.

(** One step of the search: whether the pattern ends here, and the state behind. *)
Definition next_matched (m : nat) : nat :=
  if (m =? length P)%nat then default 0%nat (prefix_table P !! (m - 1)%nat) else m.
Lemma search_step s v k :
  P ≠ [] → longest s (length P) k →
  let m := advance P (prefix_table P) v k in
  (m = length P ↔ P `suffix_of` s ++ [v]) ∧ longest (s ++ [v]) (length P) (next_matched m).
Proof.
  intros HP Hk. assert (0 < length P)%nat by (destruct P; simpl; [done|lia]).
  assert (longest (s ++ [v]) (S (length P)) (advance P (prefix_table P) v k)) as (Hb & Hlt & Hmax).
  { apply advance_spec; [done| |done]. intros j Hj. apply prefix_table_spec. lia. }
  set (m := advance _ _ _ _) in *. cbv zeta. unfold next_matched. split.
  - split.
    + intros Hm. destruct Hb as [_ Hb]. by rewrite Hm, take_ge in Hb.
    + intros Hs. assert (length P <= m)%nat; [|lia]. apply Hmax; [|lia]. split; [done|]. by rewrite take_ge.
  - destruct (Nat.eqb_spec m (length P)) as [Hm|Hm].
    + destruct (prefix_table_spec (length P) ltac:(lia)) as (k' & Hk' & Hb' & Hlt' & Hmax').
      rewrite Hm, Hk'. simpl. rewrite Hm in Hb. split_and!; [by apply (border_border _ (length P)); [|lia|]|lia|].
      intros j Hj Hjl. apply Hmax'; [|lia]. apply (border_border (s ++ [v])); [done|lia|done].
    + split_and!; [done|lia|]. intros j Hj Hjl. apply Hmax; [done|lia].
Qed.
End kmp.

(** The line at an offset and the offset behind it. *)
Lemma find_nl_split l w ws :
  split_inclusive l = w :: ws →
  match find_nl l with Some n => (n + 1)%nat = length w | None => ws = [] ∧ w = l end.
Proof.
  revert w ws. induction l as [|c l IH]; intros w ws; [done|]. simpl.
  destruct (Ascii.eqb_spec c nl) as [->|Hc]; [by intros [= <- _]|].
  destruct (split_inclusive l) as [|w' ws'] eqn:Hs.
  - intros [= <- <-]. apply split_nil in Hs as ->. done.
  - intros [= <- <-]. specialize (IH w' ws' eq_refl). destruct (find_nl l) as [n|]; simpl in *; [lia|].
    by destruct IH as [-> ->].
Qed.
Lemma next_line content o w ws :
  split_inclusive (drop o content) = w :: ws →
  (o < length content)%nat ∧ next_end content o = (o + length w)%nat
  ∧ slice content o (o + length w) = w ∧ split_inclusive (drop (o + length w) content) = ws.
Proof.
  intros Hs. pose proof (find_nl_split _ _ _ Hs) as Hn. pose proof (concat_split (drop o content)) as Hd.
  apply split_head in Hs as Hh. destruct Hh as (Hw & _ & _ & Hws). rewrite Hs in Hd. simpl in Hd.
  assert (length content - o = length w + length (concat ws))%nat as Hlen
    by (rewrite <-length_drop, <-Hd; apply length_app).
  assert (0 < length w)%nat by (destruct w; simpl; [done|lia]).
  split_and!; [lia| | |].
  - unfold next_end. destruct (find_nl _); [lia|]. destruct Hn as [-> _]. simpl in Hlen. lia.
  - unfold slice. by rewrite Nat.add_sub', <-Hd, take_app_length.
  - by rewrite <-drop_drop, <-Hd, drop_app_length.
Qed.

Section sequence.
Context (content : list ascii) (start : nat) (pattern : list (N * list ascii)) (eof : bool).
Notation ls := (split_inclusive (drop start content)).
Notation vs := ((hashed ∘ text_of) <$> ls).
Notation n := (length pattern).

(** The pattern ends behind line [i]. *)
Definition ends_at (i : nat) : Prop := pattern `suffix_of` take i vs ∧ (eof = true → i = length ls).
#[local] Instance ends_at_dec i : Decision (ends_at i) := _.
Definition ends_upto (i : nat) : list nat := filter ends_at (seq 1 i).
Definition offset (i : nat) : nat := (start + length (concat (take i ls)))%nat.
Definition outcome (l : list nat) : result string (option nat) :=
  match l with
  | [] => Ok None
  | [i] => Ok (Some (offset (i - n)))
  | _ => Err "range-less hunk matches file content more than once"
  end.

(** Before line [i] is read. *)
Record scanned (i : nat) (s : Scan) : Prop := {
  scanned_longest : longest pattern (take i vs) n (scan_matched s);
  scanned_line : scan_line s = i;
  scanned_ring : length (ring s) = n
    ∧ ∀ j, (i <= j + n)%nat → (j < i)%nat → ring s !! (j mod n)%nat = Some (offset j);
  scanned_found : outcome (ends_upto i) = Ok (scan_found s);
}.

Lemma ends_upto_S i : ends_upto (S i) = ends_upto i ++ if decide (ends_at (S i)) then [S i] else [].
Proof.
  unfold ends_upto. by rewrite seq_S, filter_app.
Qed.
Lemma ends_upto_more i k : (i <= k)%nat → ∃ l, ends_upto k = ends_upto i ++ l.
Proof.
  intros Hik. unfold ends_upto. replace k with (i + (k - i))%nat by lia. rewrite seq_app, filter_app.
  by eexists.
Qed.
Lemma mod_neq i j : (0 < n)%nat → (j < i)%nat → (i < j + n)%nat → (i mod n)%nat ≠ (j mod n)%nat.
Proof.
  intros Hn Hj Hi He. pose proof (Nat.div_mod_eq i n). pose proof (Nat.div_mod_eq j n).
  assert (i - j = n * (i / n - j / n))%nat as Hd by nia.
  destruct (i / n - j / n)%nat as [|q]; [lia|nia].
Qed.
Lemma ring_step i s :
  (0 < n)%nat → scanned i s → (i < length ls)%nat →
  let r := <[(i mod n)%nat := offset i]> (ring s) in
  length r = n ∧ ∀ j, (S i <= j + n)%nat → (j < S i)%nat → r !! (j mod n)%nat = Some (offset j).
Proof.
  intros Hn [_ _ [Hl Hr] _] Hi. cbv zeta. rewrite length_insert. split; [done|]. intros j Hj Hji.
  destruct (decide (j = i)) as [->|Hne].
  - apply list_lookup_insert_eq. rewrite Hl. apply Nat.mod_upper_bound. lia.
  - rewrite list_lookup_insert_ne by (apply mod_neq; lia). apply Hr; lia.
Qed.
Lemma offset_lines i : (i <= length ls)%nat → split_inclusive (drop (offset i) content) = drop i ls.
Proof.
  unfold offset. induction i as [|i IH]; intros Hi; [by rewrite Nat.add_0_r, drop_0|].
  destruct (lookup_lt_is_Some_2 ls i ltac:(lia)) as [w Hw].
  specialize (IH ltac:(lia)). rewrite (drop_S _ _ _ Hw) in IH. apply next_line in IH as (_ & _ & _ & IH).
  rewrite (take_S_r _ _ _ Hw), concat_app, length_app. simpl. rewrite app_nil_r, Nat.add_assoc. done.
Qed.

Lemma outcome_more i k :
  (i <= k)%nat → (2 <= length (ends_upto i))%nat →
  outcome (ends_upto k) = Err "range-less hunk matches file content more than once".
Proof.
  intros Hik Hl. destruct (ends_upto_more i k Hik) as [l ->].
  destruct (ends_upto i) as [|a [|b t]]; simpl in *; [lia..|done].
Qed.
Lemma sequence_loop_spec fuel i s :
  (0 < n)%nat → scanned i s → (i <= length ls)%nat → (length ls - i < fuel)%nat →
  sequence_loop fuel content pattern (prefix_table pattern) eof (offset i) s
  = Some (outcome (ends_upto (length ls))).
Proof.
  intros Hn. assert (pattern ≠ []) as Hp by (intros Hz; rewrite Hz in Hn; simpl in Hn; lia).
  revert i s. induction fuel as [|fuel IH]; intros i s Hs Hi Hf; [lia|]. simpl.
  pose proof (offset_lines i Hi) as Hls. destruct (decide (i = length ls)) as [->|Hne].
  { rewrite (drop_ge ls) in Hls by lia. apply split_nil, (f_equal length) in Hls.
    rewrite length_drop in Hls. simpl in Hls.
    destruct (Nat.ltb_spec (offset (length ls)) (length content)); [lia|].
    by rewrite (scanned_found _ _ Hs). }
  destruct (lookup_lt_is_Some_2 ls i ltac:(lia)) as [w Hw].
  rewrite (drop_S _ _ _ Hw) in Hls. apply next_line in Hls as (Hlt & Hend & Hsl & Hrest).
  rewrite (proj2 (Nat.ltb_lt _ _) Hlt), Hend, Hsl.
  assert (offset (S i) = (offset i + length w)%nat) as Hoff.
  { unfold offset. rewrite (take_S_r _ _ _ Hw), concat_app, length_app. simpl. rewrite app_nil_r. lia. }
  assert (take (S i) vs = take i vs ++ [hashed (text_of w)]) as Htake.
  { apply take_S_r. by rewrite list_lookup_fmap, Hw. }
  destruct (search_step pattern (take i vs) (hashed (text_of w)) (scan_matched s) Hp
    (scanned_longest _ _ Hs)) as [Hend' Hlong].
  rewrite <-Htake in Hend', Hlong. rewrite <-Hoff, (scanned_line _ _ Hs).
  pose proof (ring_step i s Hn Hs ltac:(lia)) as Hring.
  assert (offset (S i) =? length content = (S i =? length ls))%nat as Hlast.
  { rewrite <-Hoff in Hrest. apply Bool.eq_iff_eq_true. rewrite !Nat.eqb_eq. split; intros He.
    - rewrite (drop_ge content) in Hrest by lia. symmetry in Hrest. apply (f_equal length) in Hrest.
      rewrite length_drop in Hrest. simpl in Hrest. lia.
    - rewrite (drop_ge ls) in Hrest by lia. apply split_nil, (f_equal length) in Hrest.
      rewrite length_drop in Hrest. simpl in Hrest.
      pose proof (f_equal length Hsl) as Hwl. unfold slice in Hwl. rewrite length_take, length_drop in Hwl. lia. }
  rewrite Hlast. set (m := advance _ _ _ _) in *. unfold next_matched in Hlong.
  assert (ends_at (S i) ↔ m = n ∧ (negb eof || (S i =? length ls)%nat) = true) as Hat.
  { unfold ends_at. rewrite <-Hend', orb_true_iff, negb_true_iff, Nat.eqb_eq.
    destruct eof; naive_solver. }
  pose proof (ends_upto_S i) as HS. pose proof (scanned_found _ _ Hs) as Hfound.
  assert (∀ s', longest pattern (take (S i) vs) n (scan_matched s') → scan_line s' = S i →
    ring s' = <[(i mod n)%nat := offset i]> (ring s) → outcome (ends_upto (S i)) = Ok (scan_found s') →
    sequence_loop fuel content pattern (prefix_table pattern) eof (offset (S i)) s'
    = Some (outcome (ends_upto (length ls)))) as Hgo.
  { intros s' H1 H2 H3 H4. apply IH; [|lia..]. split; [done..| |done]. by rewrite H3. }
  destruct (Nat.eqb_spec m n) as [Hm|Hm].
  - destruct (negb eof || (S i =? length ls)%nat) eqn:He.
    + rewrite decide_True in HS by (by apply Hat).
      destruct (ends_upto i) as [|a [|b t]] eqn:Hu; [injection Hfound as Hfound..|done].
      * rewrite <-Hfound. simpl. apply Hgo; try done. rewrite HS. simpl. f_equal. symmetry.
        apply Hend', suffix_length in Hm as Hlen. rewrite length_take in Hlen. apply (proj2 Hring); lia.
      * rewrite <-Hfound. simpl. f_equal. symmetry. eapply outcome_more; [|by rewrite HS, length_app]. lia.
    + rewrite decide_False in HS by (intros []%Hat; congruence).
      apply Hgo; try done. by rewrite HS, app_nil_r.
  - rewrite decide_False in HS by (intros []%Hat; congruence).
    apply Hgo; try done. by rewrite HS, app_nil_r.
Qed.
End sequence.

(** The lines of the file from an offset on, and where a block of lines occurs
    in them: at the end of the file only, when the hunk says so. *)
Definition lines_from (content : list ascii) (start : nat) : list (list ascii) :=
  text_of <$> split_inclusive (drop start content).
Definition occurs (ts lines : list (list ascii)) (eof : bool) (i : nat) : Prop :=
  take (length lines) (drop i ts) = lines ∧ (eof = true → (i + length lines)%nat = length ts).
#[export] Instance occurs_dec ts lines eof i : Decision (occurs ts lines eof i) := _.
Definition occurrences (ts lines : list (list ascii)) (eof : bool) : list nat :=
  filter (occurs ts lines eof) (seq 0 (S (length ts) - length lines)).

#[export] Instance hashed_inj : Inj (=) (=) hashed.
Proof. by intros l k [= _ ->]. Qed.
Lemma suffix_take {A} (p l : list A) i :
  (i + length p <= length l)%nat → p `suffix_of` take (i + length p) l ↔ take (length p) (drop i l) = p.
Proof.
  intros Hl. assert (take (i + length p) l = take i l ++ take (length p) (drop i l)) as ->
    by (by rewrite take_take_drop).
  split; [|intros Hp; exists (take i l); by rewrite Hp].
  intros [t Ht]. apply app_inj_2 in Ht as [_ Ht]; [done|].
  rewrite length_take, length_drop. lia.
Qed.
Lemma filter_ext_in {A} (P Q : A → Prop) `{∀ x, Decision (P x)} `{∀ x, Decision (Q x)} (l : list A) :
  (∀ x, x ∈ l → P x ↔ Q x) → filter P l = filter Q l.
Proof.
  induction l as [|x l IH]; intros Hl; [done|]. rewrite !filter_cons, IH
    by (intros y Hy; apply Hl; by right).
  pose proof (Hl x ltac:(by left)). by repeat case_decide; naive_solver.
Qed.
Lemma filter_none {A} (P : A → Prop) `{∀ x, Decision (P x)} (l : list A) : (∀ x, x ∈ l → ¬ P x) → filter P l = [].
Proof.
  intros Hl. rewrite (filter_ext_in P (λ _, False)) by (intros x Hx; specialize (Hl x Hx); naive_solver).
  induction l as [|x l IH]; [done|]. rewrite filter_cons_False by (by intros []). apply IH.
  intros y Hy. apply Hl. by right.
Qed.
Lemma filter_shift (P : nat → Prop) `{∀ i, Decision (P i)} n m :
  filter P (seq n m) = (λ i, (i + n)%nat) <$> filter (λ i, P (i + n)%nat) (seq 0 m).
Proof.
  induction m as [|m IH]; [done|]. rewrite !seq_S, !filter_app, fmap_app, IH. f_equal. simpl.
  rewrite !filter_cons, !filter_nil, (Nat.add_comm n m). by case_decide.
Qed.
Lemma ends_occurrences content start lines eof :
  lines ≠ [] →
  let ts := lines_from content start in
  ends_upto content start (hashed <$> lines) eof (length (split_inclusive (drop start content)))
  = (λ i, (i + length lines)%nat) <$> occurrences ts lines eof.
Proof.
  intros Hne. cbv zeta. unfold ends_upto, occurrences. set (ls := split_inclusive _).
  assert (length (lines_from content start) = length ls) as Hts by apply length_fmap.
  assert (0 < length lines)%nat by (destruct lines; simpl; [done|lia]).
  assert (∀ e, ends_at content start (hashed <$> lines) eof e → (e < length lines)%nat → False) as Hshort.
  { intros e [Hs _] He. apply suffix_length in Hs. rewrite length_take, length_fmap in Hs. lia. }
  rewrite Hts. destruct (decide (length lines <= length ls)%nat) as [Hl|Hl].
  - replace (length ls) with ((length lines - 1) + (S (length ls) - length lines))%nat at 1 by lia.
    rewrite seq_app, filter_app. replace (1 + (length lines - 1))%nat with (length lines) by lia.
    rewrite (filter_none _ (seq 1 _)); [rewrite filter_shift|].
    + simpl. f_equal. apply filter_ext_in. intros i Hi%elem_of_seq.
      unfold ends_at, occurs. fold ls. rewrite Hts.
      assert ((hashed <$> lines) `suffix_of` take (i + length lines) ((hashed ∘ text_of) <$> ls)
        ↔ take (length lines) (drop i (lines_from content start)) = lines) as ->; [|done].
      pose proof (suffix_take (hashed <$> lines) ((hashed ∘ text_of) <$> ls) i) as Hs.
      rewrite !length_fmap in Hs. rewrite Hs by lia. unfold lines_from. fold ls.
      rewrite list_fmap_compose, <-fmap_drop, <-fmap_take. split; [apply (inj _)|by intros ->].
    + intros e He%elem_of_seq Hend. apply (Hshort e Hend). lia.
  - replace (S (length ls) - length lines)%nat with 0%nat by lia. simpl.
    apply filter_none. intros e He%elem_of_seq Hend. apply (Hshort e Hend). lia.
Qed.

Lemma sequence_found content start lines eof :
  lines ≠ [] →
  sequence content start lines eof =
  match occurrences (lines_from content start) lines eof with
  | [] => Err "range-less hunk does not match file content"
  | [i] => Ok (start + length (concat (take i (split_inclusive (drop start content)))))%nat
  | _ => Err "range-less hunk matches file content more than once"
  end.
Proof.
  intros Hne. unfold sequence. set (pattern := hashed <$> lines).
  assert (length pattern = length lines) as Hp by apply length_fmap.
  assert (0 < length lines)%nat by (destruct lines; simpl; [done|lia]).
  assert (offset content start 0 = start) as H0 by (unfold offset; simpl; lia).
  rewrite <-H0 at 1. rewrite sequence_loop_spec; [|lia|..].
  - unfold pattern. rewrite ends_occurrences by done. unfold outcome, offset. rewrite length_fmap.
    destruct (occurrences _ _ _) as [|i [|j l]]; simpl; [done| |done]. by rewrite Nat.add_sub.
  - split; simpl.
    + split_and!; [apply border_0|lia|]. intros j [_ Hj] _. apply suffix_length in Hj.
      rewrite length_take in Hj. simpl in Hj. lia.
    + done.
    + split; [by rewrite length_replicate|lia].
    + done.
  - lia.
  - pose proof (line_count_le (drop start content)) as Hle. unfold line_count in Hle.
    rewrite length_drop in Hle. lia.
Qed.

(** C27: The search of a range-less hunk finds the one place where its lines occur: with the offset
    of that place when there is exactly one, and with an error when there is none or more than
    one.  Occurrences may overlap, and an end-of-file hunk occurs at the end only. *)
Theorem sequence_spec content start lines eof :
  lines ≠ [] →
  sequence content start lines eof =
  match occurrences (lines_from content start) lines eof with
  | [] => Err "range-less hunk does not match file content"
  | [i] => Ok (start + length (concat (take i (split_inclusive (drop start content)))))%nat
  | _ => Err "range-less hunk matches file content more than once"
  end.
Proof. apply sequence_found. Qed.

Lemma sequence_spec_witness :
  sequence demo_content 0 (bytes <$> ["  x"; "}"]) true = Ok 24%nat
  ∧ sequence demo_content 0 (bytes <$> ["  x"; "}"]) false
    = Err "range-less hunk matches file content more than once".
Proof.
  split; rewrite sequence_spec by discriminate; vm_compute; reflexivity.
Defined.
