(* ===== verification/PatchRangeLess.v ===== *)
(** * PatchRangeLess: what a range-less hunk does

    Over a file of lines with one kind of ending, the byte offsets of the code are
    line numbers, and a hunk replaces the block of lines it names. *)

From S2P Require Import Prelude Text PatchHunks PatchHunksProps PatchSearch.

(** ** Range-less hunks *)

(** The text a hunk leaves, and a file of lines with one kind of ending. *)
Definition kept (ls : list Line) : list (list ascii) :=
  line_text <$> List.filter (λ l, negb (Ascii.eqb (kind l) minus)) ls.
Definition sought (ls : list Line) : list (list ascii) :=
  line_text <$> List.filter (λ l, negb (Ascii.eqb (kind l) plus)) ls.
Definition plain_line (ending t : list ascii) : Prop :=
  nl ∉ t ∧ (ending = [nl] → last t ≠ Some cr).
Definition line_ending (ending : list ascii) : Prop := ending = [nl] ∨ ending = [cr; nl].

Section uniform.
Context (ending : list ascii) (ts : list (list ascii)).
Context (Hending : line_ending ending) (Hts : Forall (plain_line ending) ts).
Notation content := (render ending ts).
(** Where line [k] starts. *)
Definition at_offset (k : nat) : nat := length (render ending (take k ts)).

Lemma render_app us vs : render ending (us ++ vs) = render ending us ++ render ending vs.
Proof. unfold render. by rewrite fmap_app, concat_app. Qed.
Lemma split_line t l :
  nl ∉ t → split_inclusive ((t ++ ending) ++ l) = (t ++ ending) :: split_inclusive l.
Proof.
  intros Ht. induction t as [|c t IH]; simpl.
  - by destruct Hending as [->| ->].
  - destruct (Ascii.eqb_spec c nl) as [->|Hc]; [by destruct Ht; left|].
    rewrite IH; [done|]. intros Hin. apply Ht. by right.
Qed.
Lemma split_render us : Forall (plain_line ending) us → split_inclusive (render ending us) = (λ t, t ++ ending) <$> us.
Proof.
  induction 1 as [|t us [Ht _] _ IH]; [done|]. unfold render. csimpl. rewrite split_line by done.
  f_equal. exact IH.
Qed.
Lemma text_of_line t : plain_line ending t → text_of (t ++ ending) = t.
Proof.
  intros [_ Hcr]. unfold text_of, chop. destruct Hending as [->| ->].
  - rewrite last_snoc, Ascii.eqb_refl, removelast_last. destruct (last t) as [d|] eqn:Hl; [|done].
    destruct (Ascii.eqb_spec cr d) as [<-|]; [by destruct (Hcr eq_refl)|done].
  - change [cr; nl] with ([cr] ++ [nl]). rewrite app_assoc, last_snoc, Ascii.eqb_refl, removelast_last.
    by rewrite last_snoc, Ascii.eqb_refl, removelast_last.
Qed.
Lemma drop_offset k : drop (at_offset k) content = render ending (drop k ts).
Proof.
  unfold at_offset. rewrite <-(take_drop k ts) at 2. by rewrite render_app, drop_app_length.
Qed.
Lemma slice_offsets i k : (i <= k)%nat → slice content (at_offset i) (at_offset k) = render ending (take (k - i) (drop i ts)).
Proof.
  intros Hik. unfold slice. rewrite drop_offset. rewrite <-(take_drop (k - i) (drop i ts)) at 1.
  rewrite render_app. replace (at_offset k - at_offset i)%nat with (length (render ending (take (k - i) (drop i ts))));
    [by rewrite take_app_length|].
  unfold at_offset. replace k with (i + (k - i))%nat at 2 by lia. rewrite <-take_take_drop, render_app, length_app. lia.
Qed.
Lemma next_offset k t : ts !! k = Some t → next_end content (at_offset k) = at_offset (S k).
Proof.
  intros Hk. assert (Forall (plain_line ending) (drop k ts)) as Hd by by apply Forall_drop.
  assert (split_inclusive (drop (at_offset k) content) = (t ++ ending) :: split_inclusive (drop (at_offset (S k)) content)) as Hs.
  { rewrite !drop_offset. rewrite (drop_S _ _ _ Hk) in Hd |- *.
    rewrite split_render by done. csimpl. rewrite split_render; [done|by inversion Hd]. }
  apply next_line in Hs as (_ & -> & _ & _). unfold at_offset. rewrite (take_S_r _ _ _ Hk), render_app.
  rewrite (length_app (render _ _)). unfold render at 3. csimpl. by rewrite app_nil_r.
Qed.
Lemma offset_le i k : (i <= k)%nat → (at_offset i <= at_offset k)%nat.
Proof.
  intros Hik. unfold at_offset. replace k with (i + (k - i))%nat by lia.
  rewrite <-take_take_drop, render_app, length_app. lia.
Qed.
Lemma content_ends : ends_with_nl content = negb (bool_decide (ts = [])).
Proof.
  unfold ends_with_nl. destruct (decide (ts = [])) as [->|Hne]; [done|].
  rewrite (bool_decide_false (ts = [])) by done. apply bool_decide_true.
  destruct (exists_last Hne) as (us & t & ->). rewrite render_app. unfold render at 2. simpl.
  rewrite app_nil_r, !last_app. by destruct Hending as [->| ->].
Qed.

Definition hunk_line (l : Line) : Prop := kind l = blank ∨ kind l = plus ∨ kind l = minus.
Lemma take_run_spec hl k start new added :
  Forall hunk_line hl → sought hl = take (length (sought hl)) (drop k ts) →
  ∃ run rest added',
    take_run content ending hl (mkEdit start (at_offset k) new) added (at_offset k)
    = (mkEdit start (at_offset (k + length (sought run))) (new ++ render ending (kept run)), added',
       at_offset (k + length (sought run)), rest)
    ∧ hl = run ++ rest ∧ (∀ l rest', hl = l :: rest' → kind l ≠ blank → run ≠ []).
Proof.
  intros Hk. revert k new added. induction Hk as [|l hl Hl _ IH]; intros k new added Hs.
  { exists [], [], added. simpl. by rewrite Nat.add_0_r, app_nil_r. }
  simpl. destruct (Ascii.eqb_spec (kind l) blank) as [Hb|Hb].
  { exists [], (l :: hl), added. simpl. rewrite Nat.add_0_r, app_nil_r. split_and!; [done..|].
    by intros ? ? [= <- _] Hn. }
  destruct (Ascii.eqb_spec (kind l) minus) as [Hm|Hm].
  - unfold sought in Hs. simpl in Hs. rewrite Hm in Hs. simpl in Hs.
    destruct (drop k ts) as [|t d] eqn:Hd; [done|]. injection Hs as Ht Hs.
    assert (ts !! k = Some t) as Htk by (replace k with (k + 0)%nat by lia; by rewrite <-lookup_drop, Hd).
    assert (d = drop (S k) ts) as -> by (rewrite (drop_S _ _ _ Htk) in Hd; by injection Hd).
    rewrite (next_offset _ _ Htk).
    destruct (IH (S k) new added Hs) as (run & rest & added' & -> & -> & _).
    exists (l :: run), rest, added'. unfold sought, kept. simpl. rewrite Hm. simpl.
    rewrite Nat.add_succ_r. by split_and!.
  - assert (kind l = plus) as Hp by (by destruct Hl as [|[|]]).
    unfold sought in Hs. simpl in Hs. rewrite Hp in Hs. simpl in Hs.
    destruct (IH k (new ++ line_text l ++ ending) true Hs) as (run & rest & added' & -> & -> & _).
    exists (l :: run), rest, added'. unfold sought, kept. simpl. rewrite Hp. simpl.
    unfold render. csimpl. by rewrite <-!app_assoc.
Qed.
Lemma sought_app r1 r2 : sought (r1 ++ r2) = sought r1 ++ sought r2.
Proof. unfold sought. by rewrite List.filter_app, fmap_app. Qed.
Lemma kept_app r1 r2 : kept (r1 ++ r2) = kept r1 ++ kept r2.
Proof. unfold kept. by rewrite List.filter_app, fmap_app. Qed.

Lemma edits_of_spec fuel hl k changed :
  ts ≠ [] → (length hl < fuel)%nat → Forall hunk_line hl →
  sought hl = take (length (sought hl)) (drop k ts) →
  (changed <= at_offset k)%nat →
  ∃ es changed', edits_of fuel content ending hl (at_offset k) changed = Some (Ok (es, changed'))
    ∧ ∀ c, (c <= k)%nat → apply_edits content (at_offset c) es
        = slice content (at_offset c) (at_offset k) ++ render ending (kept hl)
          ++ drop (at_offset (k + length (sought hl))) content.
Proof.
  intros Hne. revert hl k changed. induction fuel as [|fuel IH]; intros hl k changed Hf Hk Hs Hc; [lia|].
  destruct hl as [|l hl].
  { exists [], changed. split; [done|]. intros c Hck. simpl. rewrite Nat.add_0_r.
    rewrite slice_offsets, !drop_offset by done.
    replace (drop k ts) with (drop (k - c) (drop c ts)) by (rewrite drop_drop; f_equal; lia).
    by rewrite <-render_app, take_drop. }
  cbn [edits_of]. destruct (Ascii.eqb_spec (kind l) blank) as [Hb|Hb].
  - unfold sought in Hs. simpl in Hs. rewrite Hb in Hs. simpl in Hs.
    destruct (drop k ts) as [|t d] eqn:Hd; [done|]. injection Hs as Ht Hs.
    assert (ts !! k = Some t) as Htk by (replace k with (k + 0)%nat by lia; by rewrite <-lookup_drop, Hd).
    assert (d = drop (S k) ts) as -> by (rewrite (drop_S _ _ _ Htk) in Hd; by injection Hd).
    rewrite (next_offset _ _ Htk). apply Forall_cons in Hk as [_ Hk].
    destruct (IH hl (S k) changed) as (es & ch & He & Ha); [simpl in Hf; lia|done|done| |].
    { pose proof (offset_le k (S k)). lia. }
    exists es, ch. split; [done|]. intros c Hck. rewrite Ha by lia.
    rewrite !slice_offsets by lia. replace (S k - c)%nat with (S (k - c)) by lia.
    rewrite (take_S_r _ _ t) by (rewrite lookup_drop; by replace (c + (k - c))%nat with k by lia).
    rewrite render_app, <-app_assoc. f_equal. unfold kept, sought. simpl. rewrite Hb. simpl.
    rewrite Nat.add_succ_r, Ht. unfold render. csimpl. by rewrite app_nil_r, <-!app_assoc.
  - destruct (take_run_spec (l :: hl) k (at_offset k) [] false Hk Hs) as
      (run & rest & added & -> & Hrun & Hne').
    specialize (Hne' _ _ eq_refl Hb). unfold close_edit. rewrite content_ends, bool_decide_false by done.
    cbn [edit_start edit_end edit_new negb]. rewrite !andb_false_r, !andb_false_l. cbn [app].
    rewrite (proj2 (Nat.ltb_ge _ _)) by done. set (q := length (sought run)) in *.
    rewrite Hrun in Hs, Hk, Hf. apply Forall_app in Hk as [_ Hk].
    rewrite sought_app, length_app in Hs. rewrite <-take_take_drop in Hs.
    assert (length (take (length (sought run)) (drop k ts)) = length (sought run)) as Hlen.
    { apply (f_equal length) in Hs. rewrite !length_app, !length_take in *. lia. }
    apply app_inj_1 in Hs as [Hs1 Hs2]; [|by rewrite Hlen]. rewrite drop_drop in Hs2.
    destruct (IH rest (k + q)%nat (at_offset (k + q))) as (es & ch & -> & Ha);
      [destruct run; [done|]; rewrite length_app in Hf; simpl in Hf; lia|done|done|done|].
    eexists _, ch. split; [reflexivity|]. intros c Hck. cbn [apply_edits edit_start edit_end edit_new].
    rewrite Ha by done. f_equal. rewrite Hrun, kept_app, sought_app, render_app, length_app, <-!app_assoc.
    f_equal. unfold slice at 1. rewrite Nat.sub_diag. cbn [take app]. by rewrite Nat.add_assoc.
Qed.

Lemma find_nl_app t l : nl ∉ t → find_nl (t ++ nl :: l) = Some (length t).
Proof.
  induction t as [|c t IH]; intros Ht; [done|]. simpl.
  destruct (Ascii.eqb_spec c nl) as [->|]; [by destruct Ht; left|].
  rewrite IH; [done|]. intros Hin. apply Ht. by right.
Qed.
Lemma ending_of_render : ts ≠ [] → ending_of content = ending.
Proof.
  destruct ts as [|t us]; [done|]. intros _. apply Forall_cons in Hts as [[Ht Hcr] _].
  unfold ending_of, render. csimpl. destruct Hending as [->| ->].
  - rewrite <-app_assoc. simpl. rewrite find_nl_app by done.
    destruct (decide (t = [])) as [->|Hne]; [done|]. destruct (exists_last Hne) as (u & c & ->).
    rewrite bool_decide_false; [by rewrite andb_false_r|]. rewrite length_app. simpl.
    rewrite Nat.add_sub, <-app_assoc, lookup_app_r, Nat.sub_diag by lia. intros [= ->].
    by destruct (Hcr eq_refl); rewrite last_snoc.
  - rewrite <-app_assoc. change ([cr; nl] ++ _) with ([cr] ++ nl :: concat ((λ t0, t0 ++ [cr; nl]) <$> us)).
    rewrite app_assoc, find_nl_app.
    + rewrite length_app, bool_decide_true; [by destruct t|]. simpl.
      by rewrite Nat.add_sub, <-app_assoc, lookup_app_r, Nat.sub_diag by lia.
    + rewrite elem_of_app. intros [?|Hin]; [done|]. by apply list_elem_of_singleton in Hin.
Qed.
Lemma offset_lt k : (at_offset k <? length content)%nat = (k <? length ts)%nat.
Proof.
  apply Bool.eq_iff_eq_true. rewrite !Nat.ltb_lt.
  pose proof (f_equal length (drop_offset k)) as Hd. rewrite length_drop in Hd. split; intros Hl.
  - destruct (decide (k < length ts)%nat); [done|]. rewrite drop_ge in Hd by lia. simpl in Hd. lia.
  - apply lookup_lt_is_Some_2 in Hl as [t Ht]. rewrite (drop_S _ _ _ Ht) in Hd.
    unfold render in Hd at 2. csimpl in Hd. rewrite !length_app in Hd.
    assert (0 < length ending)%nat by (by destruct Hending as [->| ->]; simpl; lia). lia.
Qed.
Lemma line_at k t : ts !! k = Some t → text_of (slice content (at_offset k) (at_offset (S k))) = t.
Proof.
  intros Hk. rewrite slice_offsets by lia. replace (S k - k)%nat with 1%nat by lia.
  rewrite (drop_S _ _ _ Hk). unfold render. csimpl. rewrite app_nil_r.
  apply text_of_line. by eapply Forall_lookup_1.
Qed.
Lemma lines_from_offset k : lines_from content (at_offset k) = drop k ts.
Proof.
  unfold lines_from. rewrite drop_offset, split_render by by apply Forall_drop.
  rewrite <-list_fmap_compose. etrans; [|apply list_fmap_id].
  apply Forall_fmap_ext_1. apply Forall_drop. eapply Forall_impl; [done|]. intros t Ht. by apply text_of_line.
Qed.

(** The line behind the first one equal to the locator. *)
Definition behind (loc : list ascii) : option nat :=
  if bool_decide (loc = []) then Some 0%nat else (λ p, S p.1) <$> list_find (eq loc) ts.
Lemma find_locator_spec fuel loc k :
  (length ts - k < fuel)%nat →
  find_locator fuel content (at_offset k) loc
  = Some ((λ p, at_offset (k + S p.1)) <$> list_find (eq loc) (drop k ts)).
Proof.
  revert k. induction fuel as [|fuel IH]; intros k Hf; [lia|]. simpl. rewrite offset_lt.
  destruct (Nat.ltb_spec k (length ts)) as [Hk|Hk]; [|by rewrite drop_ge by lia].
  apply lookup_lt_is_Some_2 in Hk as [t Ht]. rewrite (next_offset _ _ Ht), (line_at _ _ Ht), (drop_S _ _ _ Ht).
  simpl. case_bool_decide as Heq; case_decide as Heq'; try congruence.
  - csimpl. by replace (k + 1)%nat with (S k) by lia.
  - apply lookup_lt_Some in Ht. rewrite IH by lia. f_equal. rewrite <-!option_fmap_compose. apply option_fmap_ext. intros [j u].
    simpl. f_equal. lia.
Qed.
Lemma locate_spec h :
  locate content 0 h =
  match behind (locator h) with
  | Some k => Ok (at_offset k)
  | None => Err "range-less hunk locator does not match file content"
  end.
Proof.
  unfold locate, behind. case_bool_decide; [done|]. change 0%nat with (at_offset 0) at 1.
  rewrite find_locator_spec; [|pose proof (line_count_le content) as Hl; unfold line_count in Hl;
    rewrite split_render, length_fmap in Hl by done; lia].
  rewrite drop_0. by destruct (list_find _ ts) as [[]|].
Qed.
End uniform.

(** A range-less hunk edits exactly the lines it names.  In a file of lines with one kind of
    ending, a single hunk is applied exactly when its context and removed lines occur once behind
    its locator (at the end, if it says so): there the context and the added lines take their
    place, and every other line is kept.  The bound is the one on the size of the result. *)
Theorem range_less_spec ending ts h r :
  line_ending ending → Forall (plain_line ending) ts → ts ≠ [] →
  range_less h = true → Forall hunk_line (hunk_lines h) → wanted h ≠ [] →
  apply (render ending ts) [h] = Ok r ↔
  ∃ s i, behind ts (locator h) = Some s
    ∧ occurrences (drop s ts) (wanted h) (hunk_eof h) = [i]
    ∧ r = render ending (take (s + i) ts ++ kept (hunk_lines h)
                         ++ drop (s + i + length (wanted h)) ts)
    ∧ (N.of_nat (length r) <= MAX_FILE)%N.
Proof.
  intros He Hts Hne Hr Hk Hw. unfold apply. rewrite Hr. unfold apply_range_less. cbn [foldM].
  unfold range_less_hunk. rewrite Hr. cbn [ensure mbind result_bind].
  rewrite bool_decide_false, (locate_spec _ _ He Hts), ending_of_render by done.
  destruct (behind ts (locator h)) as [s|]; cbn [mbind result_bind];
    [|split; [done|]; by intros (? & ? & ? & _)].
  rewrite sequence_found, lines_from_offset by done.
  destruct (occurrences _ _ _) as [|i [|j l]] eqn:Hocc; cbn [mbind result_bind];
    [split; [done|]; by intros (? & ? & [= <-] & Hi & _); rewrite Hocc in Hi| |
     split; [done|]; by intros (? & ? & [= <-] & Hi & _); rewrite Hocc in Hi].
  assert (i ∈ occurrences (drop s ts) (wanted h) (hunk_eof h)) as Hi by (rewrite Hocc; by left).
  unfold occurrences in Hi. apply list_elem_of_filter in Hi as [[Hi _] _]. rewrite drop_drop in Hi.
  assert ((at_offset ending ts s + length (concat (take i (split_inclusive
    (drop (at_offset ending ts s) (render ending ts))))))%nat = at_offset ending ts (s + i)) as ->.
  { rewrite (drop_offset ending ts), (split_render _ ts He Hts), <-fmap_take by by apply Forall_drop.
    fold (render ending (take i (drop s ts))). unfold at_offset.
    by rewrite <-length_app, <-render_app, take_take_drop. }
  cbn [changed_cursor].
  destruct (edits_of_spec _ _ He Hts (S (length (hunk_lines h))) (hunk_lines h) (s + i) 0) as
    (es & ch & -> & Ha); [done|lia|done|by symmetry|lia|].
  cbn [mbind result_bind edits app].
  specialize (Ha 0%nat ltac:(lia)). change (at_offset ending ts 0) with 0%nat in Ha. rewrite Ha, bounded_Ok.
  change 0%nat with (at_offset ending ts 0) at 1 2. rewrite slice_offsets, drop_offset, drop_0 by lia.
  rewrite Nat.sub_0_r, <-!render_app. change (sought (hunk_lines h)) with (wanted h).
  split; [|intros (s' & i' & [= <-] & Hi' & -> & Hb); rewrite Hocc in Hi'; by injection Hi' as <-].
  intros [-> Hb]. by exists s, i.
Qed.

(** The [x] behind [fn b() {]. *)
Definition demo_locator : Hunk :=
  mkHunk 0 0 0 0 true (bytes "fn b() {") false [demo_line minus "  x"; demo_line plus "  y"; demo_line blank "}"].

Lemma range_less_spec_witness :
  ∃ r, apply demo_content [demo_locator] = Ok r.
Proof.
  eexists. apply (range_less_spec [nl] demo_file demo_locator).
  - left. reflexivity.
  - repeat constructor; try (intros _; vm_compute; discriminate); apply (bool_decide_unpack _); reflexivity.
  - discriminate.
  - reflexivity.
  - repeat apply Forall_cons_2; try apply Forall_nil_2; unfold hunk_line; simpl; auto.
  - discriminate.
  - exists 4%nat, 0%nat. split; [vm_compute; reflexivity|]. split; [vm_compute; reflexivity|].
    split; [reflexivity|]. vm_compute. discriminate.
Defined.
