(* ===== verification/PatchParse.v ===== *)
(** * PatchParse: reading a patch

    [crates/adk-tools/src/patch_parse.rs]: the patches of Git (unified hunks,
    modes, renames) and those in the format of OpenAI (range-less hunks).  A line
    is the list of its bytes; the loops walk the lines that remain, and their fuel
    is the number of lines.  [quote], which escapes a value for an error message
    with the tables of the [regex] crate, is a parameter. *)

From Stdlib Require Import DecimalString DecimalN.
From stdpp Require Import pretty.
From S2P Require Import Prelude Text PatchHunks.

Definition MAX_PATCH : N := (1024 * 1024)%N.
Definition MAX_FILES : nat := 128.
Definition MAX_HUNKS : nat := 256.
Definition MAX_LINES : nat := 16384.

(** ** Lines *)

Definition control (line : text) : text := default line (chop cr line).
Definition begins (p : string) (l : text) : bool := starts_with (bytes p) l.
(** [strip_prefix] *)
Definition after (p : string) (l : text) : option text :=
  if begins p l then Some (drop (String.length p) l) else None.
Definition is_body (c : ascii) : bool := Ascii.eqb c blank || Ascii.eqb c plus || Ascii.eqb c minus.
(** [line.starts_with([' ', '+', '-'])], with the first byte and the rest. *)
Definition body_line (l : text) : option (ascii * text) :=
  match l with c :: t => if is_body c then Some (c, t) else None | [] => None end.
Definition join (sep : ascii) (parts : list text) : text :=
  match parts with [] => [] | p :: ps => p ++ concat ((λ q, sep :: q) <$> ps) end.

Section parse.
Context (quote : string → string).

(** ** Paths and modes *)

Definition forbidden (c : ascii) : bool :=
  bool_decide (c ∈ ["\"%char; "000"%char; "009"%char; nl; cr]).
Definition path (value : text) (strip : bool) : result string string :=
  let value := bytes (trim (of_bytes value)) in
  if bool_decide (value = bytes "/dev/null") then Ok ""
  else
    let value := if strip && (begins "a/" value || begins "b/" value) then drop 2 value else value in
    _ ← ensure (negb (String.eqb (trim (of_bytes value)) "")) "path is required";
    _ ← ensure (length value <=? 512)%nat
          ("path is too long (" +:+ pretty (length value) +:+ " bytes, limit 512)");
    _ ← ensure (negb (begins "/" value || existsb forbidden value))
          "path must be a relative slash-separated path";
    let parts := List.filter (λ s, negb (bool_decide (s = []))) (split_on "/"%char value) in
    _ ← ensure (negb (bool_decide (parts = []) || existsb (λ s, bool_decide (s ∈ [bytes "."; bytes ".."])) parts))
          "path traversal is not allowed";
    Ok (of_bytes (join "/"%char parts)).

(** [0o644] and [0o755] *)
Definition mode (value : text) : result string N :=
  if bool_decide (value = bytes "100644") then Ok 420%N
  else if bool_decide (value = bytes "100755") then Ok 493%N
  else Err ("unsupported Git blob mode " +:+ quote (of_bytes value)
            +:+ " (only 100644 and 100755 are supported)").

Definition push_file (files : list PatchFile) (file : PatchFile) : result string (list PatchFile) :=
  let files := files ++ [file] in
  if (MAX_FILES <? length files)%nat
  then Err ("patch changes too many files (limit " +:+ pretty MAX_FILES +:+ ")")
  else Ok files.

(** ** The format of OpenAI *)

(** An end-of-file mark that is not on the last hunk. *)
Fixpoint early_eof (hs : list Hunk) : bool :=
  match hs with
  | [] | [_] => false
  | h :: hs => hunk_eof h || early_eof hs
  end.
Definition finish_openai (files : list PatchFile) (current : option PatchFile)
    : result string (list PatchFile) :=
  match current with
  | None => Ok files
  | Some file =>
      _ ← ensure (negb (early_eof (hunks file))) "*** End of File must terminate an update";
      _ ← ensure (negb (negb (String.eqb (old_path file) "")
                        && String.eqb (old_path file) (new_path file)
                        && bool_decide (hunks file = [])))
            ("update file " +:+ old_path file +:+ " contains no changes");
      push_file files file
  end.
Definition with_hunks (hs : list Hunk) (f : PatchFile) : PatchFile :=
  mkPatchFile (old_path f) (new_path f) (old_mode f) (new_mode f) (delete_all f) hs.
Definition append_hunk (file : PatchFile) (hunk : Hunk) (count : nat)
    : result string (PatchFile * nat) :=
  if (MAX_HUNKS <=? count)%nat then Err "OpenAI patch has too many hunks (limit 256)"
  else Ok (with_hunks (hunks file ++ [hunk]) file, S count).
Definition openai_path (directive : string) (value : text) : result string string :=
  match path value false with
  | Err e => Err (directive +:+ ": " +:+ e)
  | Ok value =>
      if String.eqb value "" then Err (directive +:+ " cannot be /dev/null") else Ok value
  end.

(** One line of a hunk, counted on the sides it belongs to. *)
Definition push_line (c : ascii) (t : text) (h : Hunk) : Hunk :=
  mkHunk (old_start h) (if Ascii.eqb c plus then old_count h else (old_count h + 1)%Z)
    (new_start h) (if Ascii.eqb c minus then new_count h else (new_count h + 1)%Z)
    (range_less h) (locator h) (hunk_eof h) (hunk_lines h ++ [mkLine c t false]).
Definition new_hunk (loc : text) : Hunk := mkHunk 0 0 0 0 true loc false [].
(** [range_hunk]: the hunk and the lines from the directive that ends it. *)
Fixpoint range_hunk (hunk : Hunk) (changed : bool) (lines : list text)
    : result string (Hunk * list text) :=
  match lines with
  | [] => Err "range-less hunk is not followed by a patch directive"
  | raw :: rest =>
      let line := control raw in
      if begins "@@" line || begins "*** " line then
        if bool_decide (hunk_lines hunk = []) then Err "range-less hunk has no body"
        else if negb changed then Err "range-less hunk has no changes"
        else Ok (hunk, lines)
      else
        '(c, t) ← ok_or (body_line line) "malformed range-less hunk body";
        if (MAX_LINES <=? length (hunk_lines hunk))%nat
        then Err "OpenAI hunk has too many lines (limit 16384)"
        else range_hunk (push_line c t hunk) (changed || negb (Ascii.eqb c blank)) rest
  end.

Inductive Directive := NoFile | Update | Add | Delete.
#[export] Instance Directive_eq_dec : EqDecision Directive.
Proof. solve_decision. Defined.
Record OpenAI := mkOpenAI {
  ai_files : list PatchFile;
  ai_current : option PatchFile;
  ai_kind : Directive;
  ai_moved : bool;
  ai_count : nat;
}.
Definition set_current (f : PatchFile) (s : OpenAI) : OpenAI :=
  mkOpenAI (ai_files s) (Some f) (ai_kind s) (ai_moved s) (ai_count s).

(** A file directive. *)
Definition open_file (line : text) (s : OpenAI) : result string OpenAI :=
  files ← finish_openai (ai_files s) (ai_current s);
  match after "*** Update File: " line, after "*** Add File: " line, after "*** Delete File: " line with
  | Some value, _, _ =>
      p ← openai_path "update file path" value;
      Ok (mkOpenAI files (Some (mkPatchFile p p None None false [])) Update false (ai_count s))
  | _, Some value, _ =>
      p ← openai_path "add file path" value;
      Ok (mkOpenAI files (Some (mkPatchFile "" p None None false [])) Add false (ai_count s))
  | _, _, value =>
      p ← openai_path "delete file path" (default [] value);
      Ok (mkOpenAI files (Some (mkPatchFile p "" None None true [])) Delete false (ai_count s))
  end.
Definition move_file (value : text) (s : OpenAI) : result string OpenAI :=
  match ai_current s with
  | Some f =>
      if bool_decide (ai_kind s = Update) && negb (ai_moved s) then
        p ← openai_path "move destination" value;
        Ok (mkOpenAI (ai_files s)
              (Some (mkPatchFile (old_path f) p (old_mode f) (new_mode f) (delete_all f) (hunks f)))
              (ai_kind s) true (ai_count s))
      else Err "move destination must follow one update file directive"
  | None => Err "move destination must follow one update file directive"
  end.
(** A hunk of the current update. *)
Definition add_hunk (loc : text) (lines : list text) (f : PatchFile) (s : OpenAI)
    : result string (OpenAI * list text) :=
  '(hunk, rest) ← range_hunk (new_hunk loc) false lines;
  '(f, count) ← append_hunk f hunk (ai_count s);
  Ok (mkOpenAI (ai_files s) (Some f) (ai_kind s) (ai_moved s) count, rest).
Definition mark_eof (s : OpenAI) : result string OpenAI :=
  match ai_current s with
  | Some f =>
      match bool_decide (ai_kind s = Update), last (hunks f) with
      | true, Some h =>
          if hunk_eof h then Err "duplicate *** End of File"
          else
            let h := mkHunk (old_start h) (old_count h) (new_start h) (new_count h) (range_less h)
                       (locator h) true (hunk_lines h) in
            Ok (set_current (with_hunks (removelast (hunks f) ++ [h]) f) s)
      | _, _ => Err "*** End of File must follow an update hunk"
      end
  | None => Err "*** End of File must follow an update hunk"
  end.
(** A line of a new file. *)
Definition add_line (line : text) (s : OpenAI) : result string OpenAI :=
  let unsupported := Err ("unsupported OpenAI patch line " +:+ quote (of_bytes line)) in
  match ai_current s, line with
  | Some f, c :: t =>
      if bool_decide (ai_kind s = Add) && Ascii.eqb c plus then
        '(f, count) ← (if bool_decide (hunks f = []) then append_hunk f (new_hunk []) (ai_count s)
                       else Ok (f, ai_count s));
        match hunks f with
        | h :: hs =>
            if (MAX_LINES <=? length (hunk_lines h))%nat
            then Err "OpenAI hunk has too many lines (limit 16384)"
            else
              Ok (mkOpenAI (ai_files s) (Some (with_hunks (push_line plus t h :: hs) f)) (ai_kind s)
                    (ai_moved s) count)
        | [] => unsupported
        end
      else unsupported
  | _, _ => unsupported
  end.
(** Whether the line opens the first hunk of an update that has no header. *)
Definition bare_hunk (line : text) (s : OpenAI) : option PatchFile :=
  match ai_current s with
  | Some f =>
      if bool_decide (ai_kind s = Update) && bool_decide (hunks f = [])
         && bool_decide (is_Some (body_line line))
      then Some f else None
  | None => None
  end.

Inductive Read (A : Type) := More (state : A) (rest : list text) | Done (files : list PatchFile).
Arguments More {_}.
Arguments Done {_}.
Definition openai_line (s : OpenAI) (raw : text) (rest : list text) : result string (Read OpenAI) :=
  let line := control raw in
  let next (r : result string OpenAI) := s ← r; Ok (More s rest) in
  if bool_decide (line = bytes "*** End Patch") then
    _ ← ensure (bool_decide (rest = []) || bool_decide (rest = [[]])) "content follows *** End Patch";
    files ← finish_openai (ai_files s) (ai_current s);
    _ ← ensure (negb (bool_decide (files = []))) "patch contains no file changes";
    Ok (Done files)
  else if begins "*** Update File: " line || begins "*** Add File: " line
          || begins "*** Delete File: " line then next (open_file line s)
  else match after "*** Move to: " line with
  | Some value => next (move_file value s)
  | None =>
  match after "@@" line with
  | Some loc =>
      match ai_current s with
      | Some f =>
          if bool_decide (ai_kind s = Update) then
            '(s, rest) ← add_hunk (bytes (trim (of_bytes loc))) rest f s;
            Ok (More s rest)
          else Err "range-less hunk must follow an update file directive"
      | None => Err "range-less hunk must follow an update file directive"
      end
  | None =>
  if bool_decide (line = bytes "*** End of File") then next (mark_eof s)
  else match bare_hunk line s with
  | Some f =>
      '(s, rest) ← add_hunk [] (raw :: rest) f s;
      Ok (More s rest)
  | None => next (add_line line s)
  end end end.
Fixpoint openai (fuel : nat) (s : OpenAI) (lines : list text)
    : option (result string (list PatchFile)) :=
  match fuel with
  | O => None
  | S fuel =>
      match lines with
      | [] => Some (Err "patch is missing *** End Patch")
      | raw :: rest =>
          match openai_line s raw rest with
          | Ok (More s rest) => openai fuel s rest
          | Ok (Done files) => Some (Ok files)
          | Err e => Some (Err e)
          end
      end
  end.

(** ** Unified patches *)

Record Headers := mkHeaders {
  old_literal : bool;
  new_literal : bool;
  has_old : bool;
  has_new : bool;
  rename_from : bool;
  rename_to : bool;
  diff : option (text * text);
}.
Definition no_headers : Headers := mkHeaders false false false false false false None.

Definition prefixed (p : string) {A} (r : result string A) : result string A :=
  match r with Ok a => Ok a | Err e => Err (p +:+ e) end.
(** The paths of the headers, the diff line filling in for a missing one. *)
Definition raw_paths (file : PatchFile) (h : Headers) : result string (string * string) :=
  _ ← ensure (negb (String.eqb (old_path file) "" && String.eqb (new_path file) ""
                    && negb (bool_decide (is_Some (diff h))))) "patch file has no paths";
  Ok match diff h with
     | Some (old, new) =>
         (if String.eqb (old_path file) "" then of_bytes old else old_path file,
          if String.eqb (new_path file) "" then of_bytes new else new_path file)
     | None => (old_path file, new_path file)
     end.
Definition check_diff (h : Headers) (old new : string) : result string unit :=
  match diff h with
  | None => Ok tt
  | Some (dold, dnew) =>
      dold ← prefixed "diff old path: " (path dold true);
      dnew ← prefixed "diff new path: " (path dnew true);
      let disagree (p d : string) :=
        negb (String.eqb p "") && negb (String.eqb d "") && negb (String.eqb p d) in
      ensure (negb (disagree old dold || disagree new dnew))
        "patch headers or rename metadata disagree with diff paths"
  end.
(** The checks once the paths are known. *)
Definition check_file (file : PatchFile) (h : Headers) (old new : string) : result string unit :=
  _ ← ensure (negb (String.eqb old "" && String.eqb new ""))
        "patch file cannot have /dev/null as both paths";
  _ ← check_diff h old new;
  _ ← ensure (String.eqb old "" || String.eqb new "" || String.eqb old new
              || (rename_from h && rename_to h))
        ("rename from " +:+ old +:+ " to " +:+ new +:+ " requires paired rename metadata");
  _ ← ensure (negb (String.eqb old new && bool_decide (hunks file = [])
                    && negb (bool_decide (is_Some (old_mode file)))
                    && negb (bool_decide (is_Some (new_mode file)))))
        ("patch file " +:+ old +:+ " contains no changes");
  _ ← ensure (negb (String.eqb old "" && bool_decide (is_Some (old_mode file))))
        ("new file " +:+ new +:+ " cannot declare an old mode");
  ensure (negb (String.eqb new "" && bool_decide (is_Some (new_mode file))))
    ("deleted file " +:+ old +:+ " cannot declare a new mode").
Definition finish_unified (files : list PatchFile) (current : option PatchFile) (h : Headers)
    : result string (list PatchFile * Headers) :=
  match current with
  | None => Ok (files, h)
  | Some file =>
      '(old, new) ← raw_paths file h;
      _ ← ensure (bool_decide (hunks file = []) || (has_old h && has_new h))
            "patch hunks require exactly one ---/+++ header pair";
      _ ← ensure (Bool.eqb (rename_from h) (rename_to h))
            "rename requires paired rename from/to directives";
      old ← prefixed "old path: " (path (bytes old) (negb (old_literal h)));
      new ← prefixed "new path: " (path (bytes new) (negb (new_literal h)));
      _ ← check_file file h old new;
      files ← push_file files
                (mkPatchFile old new (old_mode file) (new_mode file) (delete_all file) (hunks file));
      Ok (files, no_headers)
  end.

(** [@@ -l,c +l,c @@], with the counts optional: the groups of the regular
    expression. *)
Fixpoint span_digits (l : text) : text * text :=
  match l with
  | c :: t => if is_ascii_digit c then let '(d, r) := span_digits t in (c :: d, r) else ([], l)
  | [] => ([], [])
  end.
Definition digits (l : text) : option (text * text) :=
  match span_digits l with ([], _) => None | (d, r) => Some (d, r) end.
(** [([0-9]+)(?:,([0-9]+))?] *)
Definition range (l : text) : option (text * option text * text) :=
  '(d, r) ← digits l;
  match after "," r ≫= digits with
  | Some (c, r) => Some (d, Some c, r)
  | None => Some (d, None, r)
  end.
Definition hunk_header (l : text) : option ((text * option text) * (text * option text)) :=
  l ← after "@@ -" l;
  '(a, b, l) ← range l;
  l ← after " +" l;
  '(c, d, l) ← range l;
  _ ← after " @@" l;
  Some ((a, b), (c, d)).
(** [str::parse::<i64>] of digits. *)
Definition parse_i64 (l : text) : option Z :=
  d ← NilEmpty.uint_of_string (of_bytes l);
  let n := Z.of_N (N.of_uint d) in
  if (n <=? i64_max)%Z then Some n else None.
Definition number (l : option text) (def : Z) : result string Z :=
  match l with
  | None => Ok def
  | Some l => ok_or (parse_i64 l)
                ("strconv.Atoi: parsing " +:+ quote (of_bytes l) +:+ ": value out of range")
  end.

Definition marker_line : text := bytes "\ No newline at end of file".
Definition mark_newline (h : Hunk) : result string Hunk :=
  match last (hunk_lines h) with
  | None => Err "newline marker without a hunk line"
  | Some l =>
      Ok (mkHunk (old_start h) (old_count h) (new_start h) (new_count h) (range_less h) (locator h)
            (hunk_eof h) (removelast (hunk_lines h) ++ [mkLine (kind l) (line_text l) true]))
  end.
Definition add_body (c : ascii) (t : text) (h : Hunk) : Hunk :=
  mkHunk (old_start h) (old_count h) (new_start h) (new_count h) (range_less h) (locator h)
    (hunk_eof h) (hunk_lines h ++ [mkLine c t false]).
(** The markers behind a complete hunk. *)
Fixpoint trailing_markers (h : Hunk) (lines : list text) : result string (Hunk * list text) :=
  match lines with
  | raw :: rest =>
      if bool_decide (control raw = marker_line)
      then h ← mark_newline h; trailing_markers h rest
      else Ok (h, lines)
  | [] => Ok (h, [])
  end.
(** The body of a hunk, with the lines seen on each side. *)
Fixpoint hunk_body (h : Hunk) (old new : Z) (lines : list text) : result string (Hunk * list text) :=
  if (old =? old_count h)%Z && (new =? new_count h)%Z then trailing_markers h lines
  else match lines with
  | [] => Err "hunk body is shorter than its header"
  | raw :: rest =>
      if bool_decide (control raw = marker_line)
      then h ← mark_newline h; hunk_body h old new rest
      else
        '(c, t) ← ok_or (body_line raw) "malformed hunk body";
        let old := if Ascii.eqb c plus then old else (old + 1)%Z in
        let new := if Ascii.eqb c minus then new else (new + 1)%Z in
        _ ← ensure ((old <=? old_count h)%Z && (new <=? new_count h)%Z)
              "hunk body is longer than its header";
        hunk_body (add_body c t h) old new rest
  end.
Definition unified_hunk (header : text) (lines : list text) : result string (Hunk * list text) :=
  '((a, b), (c, d)) ← ok_or (hunk_header header)
                        ("malformed hunk header " +:+ quote (of_bytes header));
  old_start ← number (Some a) 0;
  old_count ← number b 1;
  new_start ← number (Some c) 0;
  new_count ← number d 1;
  _ ← ensure (negb ((0 <? old_count)%Z && (old_start =? 0)%Z || (0 <? new_count)%Z && (new_start =? 0)%Z))
        "invalid hunk line range";
  hunk_body (mkHunk old_start old_count new_start new_count false [] false []) 0 0 lines.

Record Unified := mkUnified {
  un_files : list PatchFile;
  un_current : option PatchFile;
  un_headers : Headers;
}.
(** [value.split('\t').next()] *)
Definition before_tab (value : text) : text := hd [] (split_on "009"%char value).
Definition mode_line (line : text) : option (string * text) :=
  head (omap (λ p, (λ v, (p, v)) <$> after p line)
    ["old mode "; "new mode "; "new file mode "; "deleted file mode "]).

Definition diff_line (line : text) (s : Unified) : result string Unified :=
  '(files, h) ← finish_unified (un_files s) (un_current s) (un_headers s);
  match split_whitespace line with
  | [_; _; old; new] =>
      Ok (mkUnified files (Some default_file)
            (mkHeaders (old_literal h) (new_literal h) (has_old h) (has_new h) (rename_from h)
               (rename_to h) (Some (old, new))))
  | _ => Err "quoted or malformed diff paths are not supported"
  end.
Definition old_line (value : text) (s : Unified) : result string Unified :=
  s ← match un_current s with
      | Some f =>
          if has_old (un_headers s) then
            if has_new (un_headers s) && negb (bool_decide (hunks f = []))
               && negb (bool_decide (is_Some (diff (un_headers s))))
            then '(files, h) ← finish_unified (un_files s) (Some f) (un_headers s);
                 Ok (mkUnified files None h)
            else Err "duplicate old-file header"
          else Ok s
      | None => Ok s
      end;
  let f := default default_file (un_current s) in
  let h := un_headers s in
  Ok (mkUnified (un_files s)
        (Some (mkPatchFile (of_bytes (before_tab value)) (new_path f) (old_mode f) (new_mode f)
                 (delete_all f) (hunks f)))
        (mkHeaders (old_literal h) (new_literal h) true (has_new h) (rename_from h) (rename_to h)
           (diff h))).
Definition new_line (value : text) (s : Unified) : result string Unified :=
  let h := un_headers s in
  match un_current s, has_old h with
  | Some f, true =>
      if has_new h then Err "duplicate new-file header"
      else
        Ok (mkUnified (un_files s)
              (Some (mkPatchFile (old_path f) (of_bytes (before_tab value)) (old_mode f) (new_mode f)
                       (delete_all f) (hunks f)))
              (mkHeaders (old_literal h) (new_literal h) (has_old h) true (rename_from h)
                 (rename_to h) (diff h)))
  | _, _ => Err "new path appears before old path"
  end.
Definition set_mode (p : string) (value : text) (s : Unified) : result string Unified :=
  f ← ok_or (un_current s) (of_bytes (trim_end (bytes p)) +:+ " appears before a file path");
  let old := String.eqb p "old mode " || String.eqb p "deleted file mode " in
  _ ← ensure (negb (bool_decide (is_Some (if old then old_mode f else new_mode f))))
        ("duplicate " +:+ (if old then "old" else "new") +:+ " mode");
  m ← mode value;
  Ok (mkUnified (un_files s)
        (Some (mkPatchFile (old_path f) (new_path f) (if old then Some m else old_mode f)
                 (if old then new_mode f else Some m) (delete_all f) (hunks f))) (un_headers s)).
Definition rename_line (from : bool) (value : text) (s : Unified) : result string Unified :=
  let h := un_headers s in
  f ← ok_or (un_current s)
        ("rename " +:+ (if from then "source" else "destination") +:+ " appears before a file path");
  if from then
    _ ← ensure (negb (rename_from h)) "duplicate rename source";
    Ok (mkUnified (un_files s)
          (Some (mkPatchFile (of_bytes value) (new_path f) (old_mode f) (new_mode f) (delete_all f)
                   (hunks f)))
          (mkHeaders true (new_literal h) (has_old h) (has_new h) true (rename_to h) (diff h)))
  else
    _ ← ensure (negb (rename_to h)) "duplicate rename destination";
    Ok (mkUnified (un_files s)
          (Some (mkPatchFile (old_path f) (of_bytes value) (old_mode f) (new_mode f) (delete_all f)
                   (hunks f)))
          (mkHeaders (old_literal h) true (has_old h) (has_new h) (rename_from h) true (diff h))).
Definition ignored_line (line : text) : bool :=
  bool_decide (line = []) || begins "index " line || begins "similarity index " line
  || begins "dissimilarity index " line.

Definition unified_line (s : Unified) (raw : text) (rest : list text)
    : result string (Unified * list text) :=
  let line := control raw in
  let next (r : result string Unified) := s ← r; Ok (s, rest) in
  if begins "GIT binary patch" line || begins "Binary files " line
  then Err "binary patches are not supported"
  else if begins "diff --git " line then next (diff_line line s)
  else match after "--- " line, after "+++ " line, mode_line line with
  | Some value, _, _ => next (old_line value s)
  | None, Some value, _ => next (new_line value s)
  | None, None, Some (p, value) => next (set_mode p value s)
  | None, None, None =>
  match after "rename from " line, after "rename to " line with
  | Some value, _ => next (rename_line true value s)
  | None, Some value => next (rename_line false value s)
  | None, None =>
  if begins "copy from " line || begins "copy to " line then Err "copy directives are not supported"
  else if begins "@@ " line then
    f ← ok_or (un_current s) "hunk appears before a file path";
    '(hunk, rest) ← unified_hunk line rest;
    Ok (mkUnified (un_files s) (Some (with_hunks (hunks f ++ [hunk]) f)) (un_headers s), rest)
  else if ignored_line line then Ok (s, rest)
  else Err ("unsupported or out-of-hunk patch line " +:+ quote (of_bytes line))
  end end.
Fixpoint unified (fuel : nat) (s : Unified) (lines : list text)
    : option (result string (list PatchFile)) :=
  match fuel with
  | O => None
  | S fuel =>
      match lines with
      | [] =>
          Some ('(files, _) ← finish_unified (un_files s) (un_current s) (un_headers s);
                _ ← ensure (negb (bool_decide (files = []))) "patch contains no file changes";
                Ok files)
      | raw :: rest =>
          match unified_line s raw rest with
          | Ok (s, rest) => unified fuel s rest
          | Err e => Some (Err e)
          end
      end
  end.

(** ** [parse] *)

Definition parse (patch : text) : option (result string (list PatchFile)) :=
  if bool_decide (trim (of_bytes patch) = "") then Some (Err "patch is required")
  else if (MAX_PATCH <? N.of_nat (length patch))%N
  then Some (Err ("patch is too large (" +:+ pretty (length patch) +:+ " bytes, limit "
                  +:+ pretty MAX_PATCH +:+ ")"))
  else if bool_decide ("000"%char ∈ patch) then Some (Err "binary patch data is not supported")
  else
    let lines := split_on nl patch in
    match lines with
    | first :: rest =>
        if bool_decide (control first = bytes "*** Begin Patch")
        then openai (S (length lines)) (mkOpenAI [] None NoFile false 0) rest
        else unified (S (length lines)) (mkUnified [] None no_headers) lines
    | [] => Some (Err "patch contains no file changes")
    end.
End parse.
