(* ===== verification/PatchParseProps.v ===== *)
(** * PatchParseProps: what the parser of patches accepts

    Parsing ends, and what it accepts is well formed: confined paths, and hunks
    whose counts are those of their lines. *)

From Stdlib Require Import DecimalString DecimalN.
From S2P Require Import Prelude Text PatchHunks PatchHunksProps PatchParse.

#[local] Opaque MAX_LINES MAX_FILES MAX_HUNKS.

(** ** Lines *)

Notation clean l := (nl ∉ (l : list ascii)) (only parsing).

Lemma split_on_clean sep l : Forall (λ w, sep ∉ w) (split_on sep l).
Proof.
  induction l as [|c l IH]; simpl; [repeat constructor; set_solver|].
  destruct (Ascii.eqb_spec c sep) as [->|Hc]; [constructor; [set_solver|done]|].
  destruct (split_on sep l) as [|w ws]; [repeat constructor; set_solver|].
  apply Forall_cons in IH as [Hw Hws]. constructor; [set_solver|done].
Qed.
Lemma chop_Some c l k : chop c l = Some k → l = k ++ [c].
Proof.
  unfold chop. destruct (last l) as [d|] eqn:Hl; [|done].
  destruct (Ascii.eqb_spec c d) as [->|]; [|done]. intros [= <-].
  apply last_Some in Hl as [k ->]. by rewrite removelast_last.
Qed.
Lemma control_clean l : clean l → clean (control l).
Proof.
  unfold control. destruct (chop cr l) as [k|] eqn:Hc; [|done]. apply chop_Some in Hc as ->. set_solver.
Qed.
Lemma body_line_Some l c t :
  body_line l = Some (c, t) → l = c :: t ∧ is_body c = true.
Proof. destruct l as [|d u]; simpl; [done|]. by destruct (is_body d) eqn:Hd; intros [= <- <-]. Qed.
Lemma is_body_kind c : is_body c = true ↔ c = blank ∨ c = plus ∨ c = minus.
Proof. unfold is_body. rewrite !orb_true_iff, !Ascii.eqb_eq. tauto. Qed.
Lemma after_Some p l k : after p l = Some k → l = bytes p ++ k.
Proof.
  unfold after, begins. destruct (starts_with _ _) eqn:Hs; [|done]. intros [= <-].
  apply starts_with_spec in Hs as [k ->]. by rewrite <-length_bytes, drop_app_length.
Qed.

(** ** Confined paths *)

Definition component (w : list ascii) : Prop :=
  w ≠ [] ∧ w ≠ bytes "." ∧ w ≠ bytes ".." ∧ "/"%char ∉ w ∧ Forall (λ c, forbidden c = false) w.
(** Nothing, for a file that is created or deleted; or components that lead
    down from the root of the workspace. *)
Definition confined (p : string) : Prop :=
  p = "" ∨ ∃ parts, parts ≠ [] ∧ Forall component parts ∧ bytes p = join "/"%char parts.

Lemma split_on_sub sep l (P : ascii → Prop) : Forall P l → Forall (Forall P) (split_on sep l).
Proof.
  induction 1 as [|c l Hc Hl IH]; simpl; [repeat constructor|].
  destruct (Ascii.eqb c sep); [by repeat constructor|].
  destruct (split_on sep l) as [|w ws]; [by repeat constructor|].
  apply Forall_cons in IH as [Hw Hws]. by repeat constructor.
Qed.
(** A path the parser accepts stays inside the workspace: it is relative, and its components are
    not empty, not "." or "..", and without a backslash, a NUL, a tab or a line break. *)
Lemma patch_path_Ok value strip p : path value strip = Ok p → confined p.
Proof.
  unfold path. case_bool_decide; [intros [= <-]; by left|]. set (v := if strip && _ then _ else _).
  intros Hp. apply bind_Ok in Hp as ([] & _ & Hp). apply bind_Ok in Hp as ([] & _ & Hp).
  apply bind_Ok in Hp as ([] & Hf & Hp). apply bind_Ok in Hp as ([] & Ht & [= <-]).
  apply ensure_Ok, negb_true_iff, orb_false_iff in Hf as [_ Hf].
  apply ensure_Ok, negb_true_iff, orb_false_iff in Ht as [Hne Hdots].
  right. eexists. split_and!; [|  |by rewrite bytes_of_bytes].
  - by apply bool_decide_eq_false in Hne.
  - apply Forall_forall. intros w Hw. apply list_elem_of_In, filter_In in Hw as [Hw Hnil].
    assert (Forall (λ c, forbidden c = false) v) as Hv.
    { apply Forall_forall. intros c Hc. apply not_true_iff_false. intros Hcf.
      apply not_true_iff_false in Hf. apply Hf, existsb_exists. exists c. by rewrite <-list_elem_of_In. }
    assert (bool_decide (w ∈ [bytes "."; bytes ".."]) = false) as Hdot.
    { apply not_true_iff_false. intros Hd. apply not_true_iff_false in Hdots. apply Hdots, existsb_exists.
      exists w. split; [|done]. apply filter_In. by split. }
    apply bool_decide_eq_false in Hdot. apply negb_true_iff, bool_decide_eq_false in Hnil.
    apply list_elem_of_In in Hw. pose proof (split_on_sub "/"%char _ _ Hv) as Hs.
    pose proof (split_on_clean "/"%char v) as Hcl. rewrite Forall_forall in Hs, Hcl.
    repeat split; [done|set_solver|set_solver|by apply Hcl|by apply Hs].
Qed.

(** ** Well-formed patches *)

Definition lines_without (c : ascii) (ls : list Line) : Z :=
  Z.of_nat (length (List.filter (λ l, negb (Ascii.eqb (kind l) c)) ls)).
(** A line of the file without its ending; only unified hunks carry markers. *)
Definition line_ok (rl : bool) (l : Line) : Prop :=
  is_body (kind l) = true ∧ clean (line_text l) ∧ (rl = true → no_newline l = false).
Record hunk_ok (rl : bool) (h : Hunk) : Prop := {
  hunk_kind : range_less h = rl;
  hunk_lines_ok : Forall (line_ok rl) (hunk_lines h);
  hunk_old : old_count h = lines_without plus (hunk_lines h);
  hunk_new : new_count h = lines_without minus (hunk_lines h);
}.
Definition mode_ok (m : option N) : Prop := m = None ∨ m = Some 420%N ∨ m = Some 493%N.
Record file_ok (rl : bool) (f : PatchFile) : Prop := {
  file_paths : confined (old_path f) ∧ confined (new_path f);
  file_path : old_path f ≠ "" ∨ new_path f ≠ "";
  file_hunks : Forall (hunk_ok rl) (hunks f);
  file_modes : mode_ok (old_mode f) ∧ mode_ok (new_mode f);
  file_delete : delete_all f = true → new_path f = "" ∧ hunks f = [];
}.

Lemma lines_without_snoc c ls l :
  lines_without c (ls ++ [l]) = (lines_without c ls + if Ascii.eqb (kind l) c then 0 else 1)%Z.
Proof.
  unfold lines_without. rewrite List.filter_app, length_app. simpl. destruct (Ascii.eqb _ _); simpl; lia.
Qed.
Lemma push_line_ok c t h :
  is_body c = true → clean t → hunk_ok true h → hunk_ok true (push_line c t h).
Proof.
  intros Hc Ht [Hr Hl Ho Hn]. split; simpl; [done| | |].
  - apply Forall_app. split; [done|]. by repeat constructor.
  - rewrite lines_without_snoc, Ho. simpl. destruct (Ascii.eqb c plus); lia.
  - rewrite lines_without_snoc, Hn. simpl. destruct (Ascii.eqb c minus); lia.
Qed.
Lemma new_hunk_ok loc : hunk_ok true (new_hunk loc).
Proof. by split. Qed.

Section parse.
Context (quote : string → string).

(** What the loops keep: the lines are clean, and there are ever fewer. *)
Notation rests k lines := (Forall (λ l : list ascii, clean l) k ∧ (length k <= length lines)%nat).

Lemma body_clean l c t : clean l → body_line l = Some (c, t) → is_body c = true ∧ clean t.
Proof. intros Hl [-> Hc]%body_line_Some. set_solver. Qed.
Lemma range_hunk_ok hunk ch lines h rest :
  range_hunk hunk ch lines = Ok (h, rest) → hunk_ok true hunk → Forall (λ l, clean l) lines →
  hunk_ok true h ∧ Forall (λ l, clean l) rest ∧ (length rest <= length lines)%nat
  ∧ (hunk_lines hunk = [] → (length rest < length lines)%nat).
Proof.
  revert hunk ch. induction lines as [|raw lines IH]; intros hunk ch; [done|]. cbn [range_hunk].
  intros Hr Hh Hc. apply Forall_cons in Hc as Hc'. destruct Hc' as [Hraw Hlines].
  destruct (begins _ _ || begins _ _).
  - case_bool_decide as Hnil; [done|]. destruct (negb ch); [done|]. injection Hr as <- <-.
    split_and!; [done..|by intros ?].
  - apply bind_Ok in Hr as ([c t] & Hb & Hr). destruct (_ <=? _)%nat; [done|].
    destruct (body_line (control raw)) as [[c' t']|] eqn:Hbl; [|done]. injection Hb as -> ->.
    apply body_clean in Hbl as [Hkc Ht]; [|by apply control_clean].
    apply IH in Hr as (H1 & H2 & H3 & _); [|by apply push_line_ok|done].
    simpl. split_and!; [done..|lia|lia].
Qed.
Lemma push_file_Ok files f files' :
  push_file files f = Ok files' → files' = files ++ [f] ∧ (length files' <= MAX_FILES)%nat.
Proof.
  unfold push_file. destruct (Nat.ltb_spec MAX_FILES (length (files ++ [f]))); [done|]. by intros [= <-].
Qed.

Record openai_ok (s : OpenAI) : Prop := {
  ai_files_ok : Forall (file_ok true) (ai_files s) ∧ (length (ai_files s) <= MAX_FILES)%nat;
  ai_current_ok : ∀ f, ai_current s = Some f →
    file_ok true f ∧ (ai_kind s = Delete ∨ delete_all f = false);
}.
Lemma finish_openai_ok s files :
  openai_ok s → finish_openai (ai_files s) (ai_current s) = Ok files →
  Forall (file_ok true) files ∧ (length files <= MAX_FILES)%nat.
Proof.
  intros [[Hf Hl] Hc]. unfold finish_openai. destruct (ai_current s) as [f|]; [|by intros [= <-]].
  intros Hp. apply bind_Ok in Hp as ([] & _ & Hp). apply bind_Ok in Hp as ([] & _ & Hp).
  apply push_file_Ok in Hp as [-> Hn]. split; [|done]. apply Forall_app. split; [done|].
  constructor; [|done]. by apply Hc.
Qed.
Lemma openai_path_Ok d v p : openai_path d v = Ok p → confined p ∧ p ≠ "".
Proof.
  unfold openai_path. destruct (path v false) as [q|] eqn:Hp; [|done]. apply patch_path_Ok in Hp.
  by destruct (String.eqb_spec q ""); intros [= <-].
Qed.
Lemma open_file_ok line s s' : openai_ok s → open_file line s = Ok s' → openai_ok s'.
Proof.
  intros Hs Ho. unfold open_file in Ho. apply bind_Ok in Ho as (files & Hf & Ho).
  apply finish_openai_ok in Hf; [|done].
  assert (confined "") as H0 by by left. assert (mode_ok None) as Hm by by left.
  destruct (after "*** Update File: " line); [|destruct (after "*** Add File: " line)];
    apply bind_Ok in Ho as (p & [Hp Hne]%openai_path_Ok & [= <-]); split; try done; simpl;
    intros f [= <-]; (split; [split; simpl; try done; auto|by auto]).
Qed.
Lemma move_file_ok v s s' : openai_ok s → move_file v s = Ok s' → openai_ok s'.
Proof.
  intros [Hf Hc]. unfold move_file. destruct (ai_current s) as [f|] eqn:Hcur; [|done].
  destruct (Hc f eq_refl) as [[[Ho Hn] Hp Hh Hm Hd] Hk].
  case_bool_decide as Hu; [|done]. destruct (negb _); [|done]. simpl. intros Ho'.
  apply bind_Ok in Ho' as (p & [Hp' Hne]%openai_path_Ok & [= <-]). split; [done|]. simpl.
  intros g [= <-]. destruct Hk as [Hk|Hk]; [congruence|]. split; [|by right].
  split; simpl; auto. by rewrite Hk.
Qed.
Lemma with_hunks_ok hs f :
  file_ok true f → delete_all f = false → Forall (hunk_ok true) hs → file_ok true (with_hunks hs f).
Proof. intros [Hp Hne Hh Hm Hd] Hf Hhs. split; simpl; auto. by rewrite Hf. Qed.
Lemma add_hunk_ok loc lines f s s' rest :
  openai_ok s → ai_current s = Some f → ai_kind s = Update → Forall (λ l, clean l) lines →
  add_hunk loc lines f s = Ok (s', rest) →
  openai_ok s' ∧ Forall (λ l, clean l) rest ∧ (length rest < length lines)%nat.
Proof.
  intros Hs Hf Hu Hl Ha. unfold add_hunk in Ha. apply bind_Ok in Ha as ([h r] & Hr & Ha).
  apply range_hunk_ok in Hr as (Hh & Hc & _ & Hlt); [|apply new_hunk_ok|done].
  apply bind_Ok in Ha as ([f' n] & Hap & [= <- <-]). unfold append_hunk in Hap.
  destruct (_ <=? _)%nat; [done|]. injection Hap as <- _.
  destruct Hs as [Hfs Hcur]. destruct (Hcur f Hf) as [Hok [Hk|Hk]]; [congruence|].
  split_and!; [|done|by apply Hlt]. split; [done|]. simpl. intros g [= <-]. split; [|by right].
  apply with_hunks_ok; [done..|]. apply Forall_app. split; [by apply (file_hunks _ _ Hok)|by constructor].
Qed.

Lemma mark_eof_ok s s' : openai_ok s → mark_eof s = Ok s' → openai_ok s'.
Proof.
  intros [Hf Hc]. unfold mark_eof. destruct (ai_current s) as [f|] eqn:Hcur; [|done].
  destruct (Hc f eq_refl) as [Hok Hk]. case_bool_decide as Hu; [|done].
  destruct (last (hunks f)) as [h|] eqn:Hl; [|done]. destruct (hunk_eof h); [done|].
  intros [= <-]. split; [done|]. simpl. intros g [= <-]. destruct Hk as [Hk|Hk]; [congruence|].
  split; [|by right]. apply with_hunks_ok; [done..|].
  pose proof (file_hunks _ _ Hok) as Hh. apply last_Some in Hl as [k Hl]. rewrite Hl, removelast_last in *.
  apply Forall_app in Hh as [Hk' Hh]. apply Forall_app. split; [done|].
  apply Forall_cons in Hh as [[Hr Hls Ho Hn] _]. by repeat constructor.
Qed.
Lemma add_line_ok line s s' : openai_ok s → clean line → add_line quote line s = Ok s' → openai_ok s'.
Proof.
  intros [Hf Hc] Hl. unfold add_line. destruct (ai_current s) as [f|] eqn:Hcur; [|done].
  destruct line as [|c t]; [done|]. destruct (Hc f eq_refl) as [Hok Hk].
  case_bool_decide as Ha; [|done]. destruct (Ascii.eqb_spec c plus) as [->|]; [|done]. simpl. intros Hr.
  destruct Hk as [Hk|Hk]; [congruence|].
  apply bind_Ok in Hr as ([g n] & Hg & Hr).
  assert (Forall (hunk_ok true) (hunks g) ∧ g = with_hunks (hunks g) f) as [Hg' Hgf].
  { pose proof (file_hunks _ _ Hok) as Hh. case_bool_decide as Hnil.
    - unfold append_hunk in Hg. destruct (_ <=? _)%nat; [done|]. injection Hg as <- _. rewrite Hnil.
      split; [|done]. simpl. constructor; [apply new_hunk_ok|done].
    - injection Hg as <- _. split; [done|]. by destruct f. }
  destruct (hunks g) as [|h hs] eqn:Hhs; [done|]. destruct (_ <=? _)%nat; [done|]. injection Hr as <-.
  split; [done|]. simpl. intros e [= <-]. split; [|right; by rewrite Hgf].
  apply Forall_cons in Hg' as [Hh Hhs']. rewrite Hgf. apply with_hunks_ok; [|done|].
  - apply with_hunks_ok; [done..|by constructor].
  - constructor; [|done]. apply push_line_ok; [done|set_solver|done].
Qed.

Lemma openai_line_ok s raw rest s' rest' :
  openai_ok s → clean raw → Forall (λ l, clean l) rest →
  openai_line quote s raw rest = Ok (More _ s' rest') →
  openai_ok s' ∧ Forall (λ l, clean l) rest' ∧ (length rest' <= length rest)%nat.
Proof.
  intros Hs Hraw Hrest. apply control_clean in Hraw as Hline. unfold openai_line. cbv zeta.
  assert (∀ r : result string OpenAI, (∀ s1, r = Ok s1 → openai_ok s1) →
    (s1 ← r; Ok (More OpenAI s1 rest)) = Ok (More OpenAI s' rest') →
    openai_ok s' ∧ Forall (λ l, clean l) rest' ∧ (length rest' <= length rest)%nat) as Hnext.
  { intros r Hr Hm. apply bind_Ok in Hm as (s1 & Hs1 & [= -> ->]). split_and!; [by apply Hr|done|done]. }
  case_bool_decide.
  { intros Hd. apply bind_Ok in Hd as (? & _ & Hd). apply bind_Ok in Hd as (? & _ & Hd).
    by apply bind_Ok in Hd as (? & _ & Hd). }
  destruct (_ || _ || _); [apply Hnext; intros s1; by apply open_file_ok|].
  destruct (after "*** Move to: " _) as [v|]; [apply Hnext; intros s1; by apply move_file_ok|].
  destruct (after "@@" _) as [loc|].
  { destruct (ai_current s) as [f|] eqn:Hcur; [|done]. case_bool_decide; [|done]. intros Ha.
    apply bind_Ok in Ha as ([s1 r1] & Ha & [= -> ->]).
    eapply add_hunk_ok in Ha as (? & ? & ?); [|done..]. split_and!; [done..|lia]. }
  case_bool_decide; [apply Hnext; intros s1; by apply mark_eof_ok|].
  destruct (bare_hunk _ _) as [f|] eqn:Hb; [|apply Hnext; intros s1; by apply add_line_ok].
  unfold bare_hunk in Hb. destruct (ai_current s) as [g|] eqn:Hcur; [|done].
  destruct (bool_decide (ai_kind s = Update)) eqn:Hk; [|done]. simpl in Hb.
  destruct (_ && _); [|done]. injection Hb as ->. intros Ha.
  apply bind_Ok in Ha as ([s1 r1] & Ha & [= -> ->]). apply bool_decide_eq_true in Hk.
  eapply add_hunk_ok in Ha as (? & ? & ?); [| |done|done|by constructor]; [|done].
  simpl in *. split_and!; [done..|lia].
Qed.
Lemma openai_done s raw rest files :
  openai_ok s → openai_line quote s raw rest = Ok (Done _ files) →
  files ≠ [] ∧ Forall (file_ok true) files ∧ (length files <= MAX_FILES)%nat.
Proof.
  intros Hs. unfold openai_line. cbv zeta.
  assert (∀ r : result string OpenAI, (s1 ← r; Ok (More OpenAI s1 rest)) ≠ Ok (Done OpenAI files)) as Hnext
    by (by intros [?|?]).
  case_bool_decide.
  { intros Hd. apply bind_Ok in Hd as (? & _ & Hd). apply bind_Ok in Hd as (fs & Hfs & Hd).
    apply bind_Ok in Hd as ([] & Hne & [= <-]). apply ensure_Ok, negb_true_iff, bool_decide_eq_false in Hne.
    split; [done|]. by eapply finish_openai_ok. }
  repeat (match goal with
    | |- (_ ≫= _) = Ok (Done _ _) → _ => intros Hd; by apply Hnext in Hd
    | |- context [match ?x with _ => _ end] => destruct x
    | |- (_ ≫= _) = Ok (Done _ _) → _ =>
        let H := fresh in intros H; apply bind_Ok in H as ([] & _ & ?)
    end || done).
Qed.

(** Enough fuel: every step of the loops leaves fewer lines. *)
Lemma openai_spec fuel s lines :
  openai_ok s → Forall (λ l, clean l) lines → (length lines < fuel)%nat →
  ∃ r, openai quote fuel s lines = Some r ∧ ∀ files, r = Ok files →
    files ≠ [] ∧ Forall (file_ok true) files ∧ (length files <= MAX_FILES)%nat.
Proof.
  revert s lines. induction fuel as [|fuel IH]; intros s lines Hs Hl Hf; [lia|]. cbn [openai].
  destruct lines as [|raw rest]; [by eexists|]. apply Forall_cons in Hl as [Hraw Hrest].
  destruct (openai_line quote s raw rest) as [[s' rest'|files]|e] eqn:Ho.
  - apply openai_line_ok in Ho as (Hs' & Hr' & Hlen); [|done..]. simpl in Hf. apply IH; [done..|lia].
  - eexists. split; [done|]. intros ? [= <-]. by eapply openai_done.
  - by eexists.
Qed.

(** ** Unified patches *)

Definition body_ok (h : Hunk) (old new : Z) : Prop :=
  range_less h = false ∧ Forall (line_ok false) (hunk_lines h)
  ∧ old = lines_without plus (hunk_lines h) ∧ new = lines_without minus (hunk_lines h).
Lemma mark_newline_ok h h' old new :
  mark_newline h = Ok h' → body_ok h old new →
  body_ok h' old new ∧ old_count h' = old_count h ∧ new_count h' = new_count h.
Proof.
  unfold mark_newline. destruct (last (hunk_lines h)) as [l|] eqn:Hl; [|done]. intros [= <-].
  apply last_Some in Hl as [k Hl]. unfold body_ok. simpl. rewrite Hl, removelast_last, !lines_without_snoc.
  intros (Hr & Hk & Ho & Hn). split_and!; try done. apply Forall_app in Hk as [Hk Hk'].
  apply Forall_app. split; [done|]. apply Forall_cons in Hk' as [(H1 & H2 & _) _]. by repeat constructor.
Qed.
Lemma trailing_markers_ok h lines h' rest old new :
  trailing_markers h lines = Ok (h', rest) → body_ok h old new → Forall (λ l, clean l) lines →
  body_ok h' old new ∧ old_count h' = old_count h ∧ new_count h' = new_count h
  ∧ Forall (λ l, clean l) rest ∧ (length rest <= length lines)%nat.
Proof.
  revert h. induction lines as [|raw lines IH]; intros h; simpl; [by intros [= <- <-]|].
  intros Ht Hh Hc. apply Forall_cons in Hc as Hc'. destruct Hc' as [_ Hls].
  case_bool_decide; [|by injection Ht as <- <-].
  apply bind_Ok in Ht as (h1 & Hm & Ht). eapply mark_newline_ok in Hm as (Hm & <- & <-); [|done].
  apply IH in Ht as (? & ? & ? & ? & ?); [|done..]. split_and!; try done. lia.
Qed.
Lemma hunk_body_ok h old new lines h' rest :
  hunk_body h old new lines = Ok (h', rest) → body_ok h old new → Forall (λ l, clean l) lines →
  hunk_ok false h' ∧ Forall (λ l, clean l) rest ∧ (length rest <= length lines)%nat.
Proof.
  revert h old new. induction lines as [|raw lines IH]; intros h old new Hb Hh Hc.
  all: cbn [hunk_body] in Hb; destruct ((old =? old_count h)%Z && (new =? new_count h)%Z) eqn:Hd;
    [apply andb_true_iff in Hd as [->%Z.eqb_eq ->%Z.eqb_eq];
     eapply trailing_markers_ok in Hb as ((? & ? & ? & ?) & Ho & Hn & ? & ?); [|done..];
     split_and!; [split; congruence|done..]|].
  { done. }
  apply Forall_cons in Hc as [Hraw Hc]. case_bool_decide.
  - apply bind_Ok in Hb as (h1 & Hm & Hb). eapply mark_newline_ok in Hm as (Hm & Ho & Hn); [|done].
    apply IH in Hb as (? & ? & ?); [|done..]. simpl. split_and!; [done..|lia].
  - apply bind_Ok in Hb as ([c t] & Hbl & Hb). apply bind_Ok in Hb as ([] & _ & Hb).
    destruct (body_line raw) as [[c' t']|] eqn:Hbody; [|done]. injection Hbl as -> ->.
    apply body_clean in Hbody as [Hk Ht]; [|done].
    apply IH in Hb as (? & ? & ?); [|clear IH|done]; [simpl; split_and!; [done..|lia]|].
    destruct Hh as (Hr & Hls & Ho & Hn). unfold body_ok. simpl. rewrite !lines_without_snoc, <-Ho, <-Hn. simpl.
    split_and!; [done| |destruct (Ascii.eqb c plus); lia|destruct (Ascii.eqb c minus); lia].
    apply Forall_app. split; [done|]. by repeat constructor.
Qed.
Lemma unified_hunk_ok header lines h rest :
  unified_hunk quote header lines = Ok (h, rest) → Forall (λ l, clean l) lines →
  hunk_ok false h ∧ Forall (λ l, clean l) rest ∧ (length rest <= length lines)%nat.
Proof.
  intros Hu Hl. unfold unified_hunk in Hu. apply bind_Ok in Hu as ([[a b] [c d]] & _ & Hu).
  do 4 (apply bind_Ok in Hu as (? & _ & Hu)). apply bind_Ok in Hu as ([] & _ & Hu).
  by eapply hunk_body_ok.
Qed.

(** A file whose headers are still being read. *)
Definition open_ok (f : PatchFile) : Prop :=
  Forall (hunk_ok false) (hunks f) ∧ mode_ok (old_mode f) ∧ mode_ok (new_mode f)
  ∧ delete_all f = false.
Definition files_ok (files : list PatchFile) : Prop :=
  Forall (file_ok false) files ∧ (length files <= MAX_FILES)%nat.
Definition unified_ok (s : Unified) : Prop :=
  files_ok (un_files s) ∧ ∀ f, un_current s = Some f → open_ok f.

Lemma prefixed_Ok {A} p (r : result string A) a : prefixed p r = Ok a → r = Ok a.
Proof. by destruct r. Qed.
Lemma finish_unified_ok files current h files' h' :
  finish_unified files current h = Ok (files', h') → files_ok files →
  (∀ f, current = Some f → open_ok f) → files_ok files'.
Proof.
  unfold finish_unified. destruct current as [f|]; [|by intros [= <- <-]]. intros Hf [Hfs Hn] Hc.
  destruct (Hc f eq_refl) as (Hh & Hmo & Hmn & Hd).
  apply bind_Ok in Hf as ([o n] & _ & Hf). do 2 (apply bind_Ok in Hf as ([] & _ & Hf)).
  apply bind_Ok in Hf as (old & Ho%prefixed_Ok%patch_path_Ok & Hf).
  apply bind_Ok in Hf as (new & Hw%prefixed_Ok%patch_path_Ok & Hf).
  apply bind_Ok in Hf as ([] & Hck & Hf). apply bind_Ok in Hf as (fs & Hp & [= <- <-]).
  apply push_file_Ok in Hp as [-> Hlen]. split; [|done]. apply Forall_app. split; [done|].
  constructor; [|done]. unfold check_file in Hck. apply bind_Ok in Hck as ([] & Hne & _).
  apply ensure_Ok, negb_true_iff in Hne. split; simpl; [done| |done..|].
  - destruct (String.eqb_spec old ""); [|by left]. destruct (String.eqb_spec new ""); [done|by right].
  - by rewrite Hd.
Qed.
Lemma mode_Ok v m : mode quote v = Ok m → mode_ok (Some m).
Proof.
  unfold mode. case_bool_decide; [intros [= <-]; by right; left|].
  case_bool_decide; [intros [= <-]; by right; right|done].
Qed.
Lemma default_open : open_ok default_file.
Proof. split_and!; [constructor|by left..|done]. Qed.
Lemma diff_line_ok line s s' : unified_ok s → diff_line line s = Ok s' → unified_ok s'.
Proof.
  intros [Hf Hc] Hd. unfold diff_line in Hd. apply bind_Ok in Hd as ([fs h] & Hfin & Hd).
  eapply finish_unified_ok in Hfin; [|done..].
  destruct (split_whitespace line) as [|? [|? [|? [|? [|]]]]]; try done. injection Hd as <-.
  split; [done|]. simpl. intros f [= <-]. apply default_open.
Qed.
Lemma old_line_ok v s s' : unified_ok s → old_line v s = Ok s' → unified_ok s'.
Proof.
  intros Hs Ho. unfold old_line in Ho. apply bind_Ok in Ho as (s1 & Hs1 & [= <-]).
  assert (unified_ok s1) as [Hf Hc].
  { destruct Hs as [Hf Hc]. destruct (un_current s) as [f|] eqn:Hcur; [|injection Hs1 as <-; split; [done|by rewrite Hcur]].
    destruct (has_old _); [|injection Hs1 as <-; split; [done|by rewrite Hcur]].
    destruct (_ && _ && _); [|done]. apply bind_Ok in Hs1 as ([fs h] & Hfin & [= <-]).
    split; [|done]. by eapply finish_unified_ok in Hfin. }
  split; [done|]. simpl. intros f [= <-].
  assert (open_ok (default default_file (un_current s1))) as H; [|exact H].
  destruct (un_current s1) as [g|]; [by apply Hc|apply default_open].
Qed.
Lemma new_line_ok v s s' : unified_ok s → new_line v s = Ok s' → unified_ok s'.
Proof.
  intros [Hf Hc] Hn. unfold new_line in Hn. destruct (un_current s) as [f|]; [|done].
  destruct (has_old _); [|done]. destruct (has_new _); [done|]. injection Hn as <-.
  split; [done|]. intros g [= <-]. exact (Hc f eq_refl).
Qed.
Lemma set_mode_ok p v s s' : unified_ok s → set_mode quote p v s = Ok s' → unified_ok s'.
Proof.
  intros [Hf Hc] Hm. unfold set_mode in Hm. destruct (un_current s) as [f|]; [|done]. simpl in Hm.
  apply bind_Ok in Hm as ([] & _ & Hm). apply bind_Ok in Hm as (m & Hmo%mode_Ok & [= <-]).
  split; [done|]. intros g [= <-]. destruct (Hc f eq_refl) as (Hh & H1 & H2 & Hd).
  split_and!; simpl; [done|by destruct (_ || _)..|done].
Qed.
Lemma rename_line_ok b v s s' : unified_ok s → rename_line b v s = Ok s' → unified_ok s'.
Proof.
  intros [Hf Hc] Hm. unfold rename_line in Hm. destruct (un_current s) as [f|]; [|done]. simpl in Hm.
  destruct b; apply bind_Ok in Hm as ([] & _ & [= <-]); (split; [done|]); intros g [= <-];
    exact (Hc f eq_refl).
Qed.
Lemma unified_line_ok s raw rest s' rest' :
  unified_ok s → clean raw → Forall (λ l, clean l) rest →
  unified_line quote s raw rest = Ok (s', rest') →
  unified_ok s' ∧ Forall (λ l, clean l) rest' ∧ (length rest' <= length rest)%nat.
Proof.
  intros Hs Hraw Hrest. unfold unified_line. cbv zeta.
  assert (∀ r : result string Unified, (∀ s1, r = Ok s1 → unified_ok s1) →
    (s1 ← r; Ok (s1, rest)) = Ok (s', rest') →
    unified_ok s' ∧ Forall (λ l, clean l) rest' ∧ (length rest' <= length rest)%nat) as Hnext.
  { intros r Hr Hm. apply bind_Ok in Hm as (s1 & Hs1 & [= -> ->]). split_and!; [by apply Hr|done|done]. }
  destruct (_ || _); [done|].
  destruct (begins _ _); [apply Hnext; intros s1; by apply diff_line_ok|].
  destruct (after "--- " _); [apply Hnext; intros s1; by apply old_line_ok|].
  destruct (after "+++ " _); [apply Hnext; intros s1; by apply new_line_ok|].
  destruct (mode_line _) as [[]|]; [apply Hnext; intros s1; by apply set_mode_ok|].
  destruct (after "rename from " _); [apply Hnext; intros s1; by apply rename_line_ok|].
  destruct (after "rename to " _); [apply Hnext; intros s1; by apply rename_line_ok|].
  destruct (_ || _); [done|]. destruct (begins "@@ " _).
  - intros Hh. destruct Hs as [Hf Hc]. destruct (un_current s) as [f|]; [|done]. simpl in Hh.
    apply bind_Ok in Hh as ([h r] & Hu & [= <- ->]). apply unified_hunk_ok in Hu as (Hh & ? & ?); [|done].
    split_and!; [|done|done]. split; [done|]. intros g [= <-].
    destruct (Hc f eq_refl) as (Hhs & ? & ? & ?). split_and!; try done. simpl.
    apply Forall_app. split; [done|by constructor].
  - destruct (ignored_line _); [|done]. intros [= <- <-]. by split_and!.
Qed.
Lemma unified_spec fuel s lines :
  unified_ok s → Forall (λ l, clean l) lines → (length lines < fuel)%nat →
  ∃ r, unified quote fuel s lines = Some r ∧ ∀ files, r = Ok files → files ≠ [] ∧ files_ok files.
Proof.
  revert s lines. induction fuel as [|fuel IH]; intros s lines Hs Hl Hf; [lia|]. cbn [unified].
  destruct lines as [|raw rest].
  - eexists. split; [done|]. intros files Hu. apply bind_Ok in Hu as ([fs h] & Hfin & Hu).
    apply bind_Ok in Hu as ([] & Hne & [= <-]). apply ensure_Ok, negb_true_iff, bool_decide_eq_false in Hne.
    split; [done|]. destruct Hs. by eapply finish_unified_ok in Hfin.
  - apply Forall_cons in Hl as [Hraw Hrest].
    destruct (unified_line quote s raw rest) as [[s' rest']|e] eqn:Hu; [|by eexists].
    apply unified_line_ok in Hu as (? & ? & ?); [|done..]. simpl in Hf. apply IH; [done..|lia].
Qed.

Lemma parse_accepted patch :
  ∃ r, parse quote patch = Some r ∧ ∀ files, r = Ok files →
    files ≠ [] ∧ (length files <= MAX_FILES)%nat
    ∧ ∃ range_less, Forall (file_ok range_less) files.
Proof.
  unfold parse. case_bool_decide; [by eexists|]. destruct (_ <? _)%N; [by eexists|].
  case_bool_decide; [by eexists|]. pose proof (split_on_clean nl patch) as Hc.
  destruct (split_on nl patch) as [|first rest]; [by eexists|]. case_bool_decide.
  - apply Forall_cons in Hc as [_ Hc].
    destruct (openai_spec (S (length (first :: rest))) (mkOpenAI [] None NoFile false 0) rest)
      as (r & Hr & Hspec); [by split; [split; [constructor|simpl; lia]|]|done|simpl; lia|].
    exists r. split; [done|]. intros files (Hne & Hok & Hlen)%Hspec. by eauto.
  - destruct (unified_spec (S (length (first :: rest))) (mkUnified [] None no_headers) (first :: rest))
      as (r & Hr & Hspec); [by split; [split; [constructor|simpl; lia]|]|done|lia|].
    exists r. split; [done|]. intros files (Hne & Hok & Hlen)%Hspec. by eauto.
Qed.

(** C29: Parsing a patch ends, and what it accepts is well formed: one to 128 files, each
    with at least one path and every path inside the workspace; hunks all of one kind, made of
    context, added and removed lines without line breaks, whose counts are those of their lines;
    the two Git modes; and a whole-file deletion has no target and no hunks. *)
Theorem parse_well_formed patch :
  ∃ r, parse quote patch = Some r ∧ ∀ files, r = Ok files →
    files ≠ [] ∧ (length files <= MAX_FILES)%nat
    ∧ ∃ range_less, Forall (file_ok range_less) files.
Proof. apply parse_accepted. Qed.
End parse.
