(* ===== verification/PatchFs.v ===== *)
(** * PatchFs: planning and applying a patch to the workspace

    [crates/adk-tools/src/patch.rs] (planning and the tool's run) and
    [patch_fs.rs] (the transaction).  The file system is a map from a directory
    and a name to what is found there; a path is walked component by component
    and no link is followed.  Every system call may fail, and the other
    processes may change the tree before it; a write that fails may have
    written a part of its data.  A file is read as it is when it is opened.

    The paths of a patch come from the parser, which refuses [.] and [..]. *)

From stdpp Require Import sorting.
From S2P Require Import Prelude Text PatchHunks PatchParse.

Notation text := (list ascii).

(** [State]: a regular file, or nothing. *)
Record State := mkState { exists_ : bool; data : text; state_mode : N }.
#[export] Instance State_eq_dec : EqDecision State.
Proof. solve_decision. Defined.
Definition absent : State := mkState false [] 0.

(** What a directory holds under a name. *)
Inductive Node :=
| Regular (links : N) (content : text) (mode : N)
| Directory (id : N)
| Symlink
| Special.

(** The errors of the file system; those of [rollback] keep the structure that
    the source writes into a message. *)
Inductive IoError :=
| NotFound
| Errno (name : string)
| Other (message : string)
| Panic (message : string)
| RestoreFailed (restore : IoError) (recovery : result IoError unit)
| RollbackFailed (error : IoError) (failures : list (string * IoError)).

Notation Key := (N * string)%type.
Notation Tree := (gmap Key Node).

(** [Path::components], without the empty ones. *)
Definition components (path : string) : list string :=
  filter (λ p, p ≠ "" ∧ p ≠ ".") (of_bytes <$> split_on "/"%char (bytes path)).
Definition parent_of (path : string) : list string := take (length (components path) - 1) (components path).
Definition file_name (path : string) : string := default "" (last (components path)).

(** [Workspace::open] below a directory. *)
Fixpoint walk (fs : Tree) (dir : N) (parts : list string) : result IoError Node :=
  match parts with
  | [] => Ok (Directory dir)
  | name :: rest =>
      match fs !! (dir, name) with
      | None => Err NotFound
      | Some Symlink => Err (Errno "ELOOP")
      | Some (Directory id) => walk fs id rest
      | Some node => match rest with [] => Ok node | _ => Err (Errno "ENOTDIR") end
      end
  end.

(** [read]: what a patch may touch is a small text file with a single link. *)
Definition read (node : Node) : result IoError State :=
  match node with
  | Regular links content mode =>
      _ ← ensure (links =? 1)%N (Other "file must have exactly one hard link");
      _ ← ensure (N.of_nat (length content) <=? MAX_FILE)%N (Other "is too large");
      _ ← ensure (negb (bool_decide ("000"%char ∈ content)) && valid_utf8 content)
            (Other "is a binary file");
      Ok (mkState true content (N.land mode 511))
  | Symlink => Err (Errno "ELOOP")
  | _ => Err (Other "is not a regular file")
  end.

(** [path.is_empty()]: /dev/null. *)
Definition no_path (path : string) : bool := String.eqb path "".

(** The state of what is found, or not. *)
Definition state_of (found : result IoError Node) : result IoError State :=
  match found with
  | Ok node => read node
  | Err NotFound => Ok absent
  | Err e => Err e
  end.
Definition at_key (fs : Tree) (key : Key) : result IoError Node := ok_or (fs !! key) NotFound.

(** [Ok(actual) if actual == expected]. *)
Definition found_is (expected : State) (found : result IoError State) : bool :=
  match found with Ok actual => bool_decide (actual = expected) | Err _ => false end.

(** [renameat_with(.., NOREPLACE)]. *)
Definition rename_noreplace (fs : Tree) (from to : Key) : result IoError unit * Tree :=
  match fs !! from, fs !! to with
  | None, _ => (Err NotFound, fs)
  | Some _, Some _ => (Err (Errno "EEXIST"), fs)
  | Some node, None => (Ok tt, <[to := node]> (delete from fs))
  end.
Definition unlink (fs : Tree) (key : Key) : result IoError unit * Tree :=
  match fs !! key with
  | None => (Err NotFound, fs)
  | Some (Directory _) => (Err (Errno "EISDIR"), fs)
  | Some _ => (Ok tt, delete key fs)
  end.
Definition create_excl (fs : Tree) (key : Key) (mode : N) : result IoError unit * Tree :=
  match fs !! key with
  | Some _ => (Err (Errno "EEXIST"), fs)
  | None => (Ok tt, <[key := Regular 1 [] mode]> fs)
  end.
(** What a descriptor of the file does to it. *)
Definition on_file (f : text → N → Node) (key : Key) (fs : Tree) : Tree :=
  alter (λ node, match node with Regular _ content mode => f content mode | _ => node end) key fs.

(** [Plan]. *)
Inductive Operation := Create | Delete | Modify | Rename.
#[export] Instance Operation_eq_dec : EqDecision Operation.
Proof. solve_decision. Defined.
Record Plan := mkPlan { operation : Operation; plan_old : string; plan_new : string; plan_state : State }.

(** [Entry]; its directory handle is the directory's identity. *)
Record Entry := mkEntry {
  parent : N;
  name : string;
  entry_path : string;
  original : State;
  final_state : State;
  staged : option string;
  quarantine : option string;
  claimed : bool;
  published : bool;
}.
Definition set_staged (s : option string) (e : Entry) : Entry :=
  mkEntry (parent e) (name e) (entry_path e) (original e) (final_state e) s (quarantine e) (claimed e) (published e).
Definition set_quarantine (q : option string) (e : Entry) : Entry :=
  mkEntry (parent e) (name e) (entry_path e) (original e) (final_state e) (staged e) q (claimed e) (published e).
Definition set_claimed (c : bool) (e : Entry) : Entry :=
  mkEntry (parent e) (name e) (entry_path e) (original e) (final_state e) (staged e) (quarantine e) c (published e).
Definition set_published (p : bool) (e : Entry) : Entry :=
  mkEntry (parent e) (name e) (entry_path e) (original e) (final_state e) (staged e) (quarantine e) (claimed e) p.

Definition home (e : Entry) : Key := (parent e, name e).

(** ** The system calls

    The world is the tree, the number of system calls made, the number of
    temporary names drawn, and the history of what [unlinkat] removed. *)
Record World := mkWorld { tree : Tree; calls : nat; drawn : nat; removed : list Node }.

(** The outside: the identity of the workspace root, the error of each system
    call that fails, what the other processes do to the tree before it, how
    much of its data a failing write has written, the temporary names, and the
    process's umask. *)
Record Outside := mkOutside {
  root : N;
  fault : nat → option string;
  others : nat → Tree → Tree;
  short : nat → nat;
  fresh : nat → string;
  umask : N;
}.

Section world.
Context (o : Outside).
Notation M := (SE World IoError).

(** One system call: the others' changes, then the failure or the effect. *)
Definition sys {A} (f : Tree → result IoError A * Tree) : M A := λ w,
  let fs := others o (calls w) (tree w) in
  let '(r, fs') := match fault o (calls w) with Some e => (Err (Errno e), fs) | None => f fs end in
  (r, mkWorld fs' (S (calls w)) (drawn w) (removed w)).
Definition look {A} (f : Tree → result IoError A) : M A := sys (λ fs, (f fs, fs)).

Definition temporary_name : M string := λ w,
  (Ok (fresh o (drawn w)), mkWorld (tree w) (calls w) (S (drawn w)) (removed w)).
Definition inspect (path : string) : M State := look (λ fs, state_of (walk fs (root o) (components path))).
Definition inspect_at (dir : N) (n : string) : M State := look (λ fs, state_of (at_key fs (dir, n))).
Definition move_exclusive (dir : N) (from to : string) : M unit :=
  sys (λ fs, rename_noreplace fs (dir, from) (dir, to)).
Definition unlinkat (dir : N) (n : string) : M unit := λ w,
  let '(r, w') := sys (λ fs, unlink fs (dir, n)) w in
  (r, mkWorld (tree w') (calls w') (drawn w')
        (if is_ok r then removed w ++ option_list (others o (calls w) (tree w) !! (dir, n)) else removed w)).
Definition create (dir : N) (n : string) (mode : N) : M unit :=
  sys (λ fs, create_excl fs (dir, n) (N.ldiff mode (umask o))).
Definition fchmod (key : Key) (mode : N) : M unit :=
  sys (λ fs, (Ok tt, on_file (λ content _, Regular 1 content mode) key fs)).
Definition sync_all : M unit := look (λ _, Ok tt).
(** [write_all] to a new file. *)
Definition write_all (key : Key) (content : text) : M unit := λ w,
  let fs := others o (calls w) (tree w) in
  let '(r, written) :=
    match fault o (calls w) with
    | Some e => (Err (Errno e), take (short o (calls w)) content)
    | None => (Ok tt, content)
    end in
  (r, mkWorld (on_file (λ _ mode, Regular 1 written mode) key fs) (S (calls w)) (drawn w) (removed w)).

(** ** [Entry]: the methods change the entry and the world *)
Definition EM : Type → Type := SE (Entry * World) IoError.
Definition io {A} (m : M A) : EM A := λ '(e, w), let '(r, w') := m w in (r, (e, w')).
Definition self : EM Entry := λ s, (Ok s.1, s).
Definition update (f : Entry → Entry) : EM unit := λ s, (Ok tt, (f s.1, s.2)).
(** The result of a step, errors included. *)
Definition attempt {A} (m : EM A) : EM (result IoError A) := λ s, let '(r, s') := m s in (Ok r, s').

Definition validate_parent : EM unit :=
  e ← self;
  current ← io (look (λ fs, walk fs (root o) (parent_of (entry_path e))));
  match current with
  | Directory id => lift (ensure (id =? parent e)%N (Other "destination parent changed during patch"))
  | _ => fail (Other "destination parent changed during patch")
  end.

(** A new file with the state's content and mode. *)
Definition fill (dir : N) (n : string) (s : State) : M unit :=
  _ ← fchmod (dir, n) (state_mode s);
  _ ← write_all (dir, n) (data s);
  sync_all.

Definition stage : EM unit :=
  e ← self;
  if negb (exists_ (final_state e)) then mret tt
  else
    n ← io temporary_name;
    _ ← io (create (parent e) n (state_mode (final_state e)));
    _ ← update (set_staged (Some n));
    io (fill (parent e) n (final_state e)).

Definition claim : EM unit :=
  e ← self;
  if negb (exists_ (original e)) then mret tt
  else
    n ← io temporary_name;
    _ ← io (move_exclusive (parent e) (name e) n);
    _ ← update (λ e, set_claimed true (set_quarantine (Some n) e));
    found ← attempt (io (inspect_at (parent e) n));
    if found_is (original e) found then mret tt
    else
      back ← attempt (io (move_exclusive (parent e) n (name e)));
      match back with
      | Err _ => fail (Other "source changed during patch and restoring quarantine failed")
      | Ok _ =>
          _ ← update (λ e, set_claimed false (set_quarantine None e));
          match found with
          | Err error => fail error
          | Ok _ => fail (Other "file changed during patch validation")
          end
      end.

Definition publish : EM unit :=
  e ← self;
  match staged e with
  | None => mret tt
  | Some n =>
      found ← io (inspect_at (parent e) n);
      if bool_decide (found = final_state e)
      then
        _ ← io (move_exclusive (parent e) n (name e));
        update (λ e, set_published true (set_staged None e))
      else fail (Other "staged patch file changed")
  end.

(** The clean-up of a committed entry. *)
Definition release : EM unit :=
  e ← self;
  match quarantine e with
  | None => mret tt
  | Some n =>
      _ ← io (unlinkat (parent e) n);
      update (set_quarantine None)
  end.

Definition restore : EM unit :=
  e ← self;
  if negb (claimed e) then mret tt
  else
    _ ← match quarantine e with
        | Some n =>
            _ ← io (move_exclusive (parent e) n (name e));
            update (set_quarantine None)
        | None =>
            n ← io temporary_name;
            _ ← io (create (parent e) n (state_mode (original e)));
            result ← attempt (io (
              _ ← fill (parent e) n (original e);
              move_exclusive (parent e) n (name e)));
            _ ← (if is_ok result then mret tt else
                   _ ← attempt (io (unlinkat (parent e) n)); mret tt);
            lift result
        end;
    update (set_claimed false).

Definition rollback : EM unit :=
  e ← self;
  if published e then
    n ← io temporary_name;
    _ ← io (move_exclusive (parent e) (name e) n);
    found ← attempt (io (inspect_at (parent e) n));
    if found_is (final_state e) found then
      restored ← attempt restore;
      match restored with
      | Err error =>
          recovery ← attempt (io (move_exclusive (parent e) n (name e)));
          fail (RestoreFailed error recovery)
      | Ok _ =>
          _ ← io (unlinkat (parent e) n);
          update (set_published false)
      end
    else
      _ ← io (move_exclusive (parent e) n (name e));
      fail (Other "refusing to overwrite concurrent changes")
  else restore.

(** ** [apply_inner] *)
Definition ES : Type → Type := SE (list Entry * World) IoError.

(** [for (i, entry) in entries.iter_mut().enumerate() { f(i, entry)?; }] *)
Fixpoint each (f : nat → EM unit) (i : nat) (es : list Entry) (w : World)
    : result IoError unit * (list Entry * World) :=
  match es with
  | [] => (Ok tt, ([], w))
  | e :: es =>
      match f i (e, w) with
      | (Err error, (e, w)) => (Err error, (e :: es, w))
      | (Ok _, (e, w)) => let '(r, (es, w)) := each f (S i) es w in (r, (e :: es, w))
      end
  end.
Definition for_each (f : nat → EM unit) : ES unit := λ '(es, w), each f 0 es w.

(** [entries.iter_mut().rev()]: every entry is rolled back, the failures collected. *)
Fixpoint rollback_all (es : list Entry) (w : World) : list (string * IoError) * (list Entry * World) :=
  match es with
  | [] => ([], ([], w))
  | e :: es =>
      let '(failures, (es, w)) := rollback_all es w in
      match rollback (e, w) with
      | (Err error, (e, w)) => (failures ++ [(entry_path e, error)], (e :: es, w))
      | (Ok _, (e, w)) => (failures, (e :: es, w))
      end
  end.

(** [Drop for Entry]. *)
Definition drop_entry (w : World) (e : Entry) : World :=
  match staged e with
  | Some n => (unlinkat (parent e) n w).2
  | None => w
  end.

Definition unchanged (path : string) (expected : State) (found : M State) : M unit :=
  actual ← found;
  lift (ensure (bool_decide (actual = expected)) (Other "file changed during patch validation")).

Fixpoint check_states (states : list (string * State)) : M unit :=
  match states with
  | [] => mret tt
  | (path, expected) :: states =>
      _ ← unchanged path expected (inspect path);
      check_states states
  end.

Definition add_final (finals : gmap string State) (p : Plan) : gmap string State :=
  let finals :=
    if no_path (plan_new p) then finals else <[plan_new p := plan_state p]> finals in
  if negb (no_path (plan_old p)) && negb (String.eqb (plan_old p) (plan_new p))
  then <[plan_old p := absent]> finals else finals.
Definition finals_of (plans : list Plan) : gmap string State := foldl add_final ∅ plans.

Definition open_parent (path : string) : M N := λ w,
  match look (λ fs, walk fs (root o) (parent_of path)) w with
  | (Ok (Directory id), w) => (Ok id, w)
  | (Ok _, w) => (Err (Other "destination parent is not a directory"), w)
  | (Err _, w) => (Err (Other "destination parent"), w)
  end.

Fixpoint open_entries (finals : gmap string State) (states : list (string * State)) : M (list Entry) :=
  match states with
  | [] => mret []
  | (path, expected) :: states =>
      dir ← open_parent path;
      _ ← unchanged path expected (inspect_at dir (file_name path));
      final ← lift (ok_or (finals !! path) (Panic "planned final"));
      es ← open_entries (delete path finals) states;
      mret (mkEntry dir (file_name path) path expected final None None false false :: es)
  end.

Section apply_inner.
Context (checkpoint : string → nat → M unit).
Definition step (phase : string) (f : EM unit) (i : nat) : EM unit :=
  _ ← io (checkpoint phase i);
  _ ← validate_parent;
  f.
Definition commit : ES unit :=
  _ ← for_each (step "claim" claim);
  _ ← for_each (step "publish" publish);
  for_each (step "cleanup" release).

(** From the staging on: [entries] is dropped when the function returns. *)
Definition transaction (es : list Entry) : M unit := λ w,
  let '(r, (es, w)) := for_each (λ _, stage) (es, w) in
  let '(r, (es, w)) :=
    match r with
    | Err error => (Err error, (es, w))
    | Ok _ =>
        match commit (es, w) with
        | (Ok _, s) => (Ok tt, s)
        | (Err error, (es, w)) =>
            let '(failures, s) := rollback_all es w in
            (Err (match failures with [] => error | _ => RollbackFailed error failures end), s)
        end
    end in
  (r, foldl drop_entry w es).

Definition apply_inner (plans : list Plan) (states : list (string * State)) : M unit :=
  _ ← check_states states;
  es ← open_entries (finals_of plans) states;
  transaction es.
End apply_inner.

Definition apply_plans : list Plan → list (string * State) → M unit := apply_inner (λ _ _, mret tt).

(** ** [plan] *)
Inductive PatchError :=
| InvalidPatch (message : string)
| Validation (message : string)
| ValidationIo (path : string) (error : IoError)
| ResultTooLarge
| Applying (error : IoError).

Record Paths := mkPaths { sources : gset string; targets : gset string; paths : gset string }.
Definition claim_paths (p : Paths) (f : PatchFile) : result PatchError Paths :=
  p ← (if no_path (old_path f) then Ok p
       else if bool_decide (old_path f ∈ sources p)
       then Err (Validation ("multiple patch operations use source " +:+ old_path f))
       else Ok (mkPaths ({[old_path f]} ∪ sources p) (targets p) ({[old_path f]} ∪ paths p)));
  if no_path (new_path f) then Ok p
  else if String.eqb (new_path f) (old_path f)
  then Ok (mkPaths (sources p) (targets p) ({[new_path f]} ∪ paths p))
  else if bool_decide (new_path f ∈ targets p)
  then Err (Validation ("multiple patch operations use destination " +:+ new_path f))
  else Ok (mkPaths (sources p) ({[new_path f]} ∪ targets p) ({[new_path f]} ∪ paths p)).

(** A [BTreeSet] in its order. *)
Definition sorted (s : gset string) : list string := merge_sort String.le (elements s).

Definition below (path dir : string) : bool := starts_with (bytes (dir +:+ "/")) (bytes path).
Definition check_ancestors (finals : list string) (f : PatchFile) : result PatchError (list string) :=
  if no_path (new_path f) then Ok finals
  else
    _ ← ensure (negb (existsb (λ e, below (new_path f) e || below e (new_path f)) finals))
          (Validation "conflicting ancestor patch paths");
    Ok (finals ++ [new_path f]).

Definition MAX_AGGREGATE : N := (64 * 1024 * 1024)%N.
Fixpoint read_states (total : N) (l : list string) : SE World PatchError (list (string * State)) := λ w,
  match l with
  | [] => (Ok [], w)
  | path :: l =>
      match inspect path w with
      | (Err e, w) => (Err (ValidationIo path e), w)
      | (Ok state, w) =>
          let total := (total + N.of_nat (length (data state)))%N in
          if (MAX_AGGREGATE <? total)%N
          then (Err (Validation "patch source data exceeds aggregate limit"), w)
          else
            match read_states total l w with
            | (Ok states, w) => (Ok ((path, state) :: states), w)
            | (Err e, w) => (Err e, w)
            end
      end
  end.

Definition state_at (states : list (string * State)) (path : string) : State :=
  default absent ((list_to_map states : gmap string State) !! path).
Definition operation_of (f : PatchFile) : Operation :=
  if no_path (old_path f) then Create
  else if no_path (new_path f) then Delete
  else if String.eqb (old_path f) (new_path f) then Modify
  else Rename.
Definition exec_bits (mode : N) : N := N.land mode 73.

Definition plan_mode (op : Operation) (source : State) (new_mode : option N) : N :=
  let mode := match op with Create => 420 | _ => state_mode source end%N in
  match new_mode, op with
  | None, _ | _, Delete => mode
  | Some new_mode, Create => new_mode
  | Some new_mode, _ => N.lor (N.ldiff mode 73) (exec_bits new_mode)
  end.

Definition updated (source : State) (f : PatchFile) : result PatchError text :=
  if delete_all f then Ok []
  else match apply (data source) (hunks f) with Ok t => Ok t | Err e => Err (Validation e) end.

Definition plan_file (states : list (string * State)) (f : PatchFile) : result PatchError Plan :=
  let source := state_at states (old_path f) in
  let op := operation_of f in
  _ ← ensure (bool_decide (op = Create) || exists_ source) (Validation "source does not exist");
  _ ← ensure (negb (bool_decide (op = Create ∨ op = Rename) && exists_ (state_at states (new_path f))))
        (Validation "destination already exists");
  _ ← ensure (negb (is_some_and (old_mode f) (λ mode, negb (no_path (old_path f))
                && negb (exec_bits mode =? exec_bits (state_mode source))%N)))
        (Validation "mode conflict");
  _ ← ensure (negb (bool_decide (op = Create ∧ is_Some (old_mode f))))
        (Validation "create operation has an old mode");
  _ ← ensure (negb (bool_decide (op = Delete ∧ is_Some (new_mode f))))
        (Validation "delete operation has a new mode");
  content ← updated source f;
  _ ← ensure (negb (bool_decide (op = Delete ∧ content ≠ [])))
        (Validation "delete patch does not remove all file content");
  _ ← ensure (N.of_nat (length content) <=? MAX_FILE)%N (Validation "patched file is too large");
  Ok (mkPlan op (old_path f) (new_path f)
        (mkState true content (plan_mode op source (new_mode f)))).

Definition plan (fs : list PatchFile) : SE World PatchError (list Plan * list (string * State)) :=
  ps ← lift (foldM claim_paths (mkPaths ∅ ∅ ∅) fs);
  _ ← lift (match filter (λ t, t ∈ sources ps) (sorted (targets ps)) with
            | [] => Ok tt
            | t :: _ => Err (Validation ("conflicting patch paths include " +:+ t))
            end);
  _ ← lift (foldM check_ancestors [] fs);
  states ← read_states 0 (sorted (paths ps));
  plans ← lift (mapR (plan_file states) fs);
  mret (plans, states).

(** ** [ApplyPatch::run]: the arguments are decoded, the tool's lock is held,
    and the size of the JSON report is the renderer's. *)
Context (quote : string → string) (report_size : list Plan → text → bool → N).

Definition on_world {A} (err : IoError → PatchError) (m : M A) : SE World PatchError A := λ w,
  match m w with (Ok a, w) => (Ok a, w) | (Err e, w) => (Err (err e), w) end.

Definition run (patch : text) (dry_run : bool) : SE World PatchError (list Plan) :=
  files ← lift (match parse quote patch with
                | Some (Ok files) => Ok files
                | Some (Err e) => Err (InvalidPatch e)
                | None => Err (InvalidPatch "")
                end);
  '(plans, states) ← plan files;
  _ ← lift (ensure (report_size plans patch dry_run <=? 65536)%N ResultTooLarge);
  _ ← (if dry_run then mret tt else on_world Applying (apply_plans plans states));
  mret plans.
End world.
