(* ===== verification/PatchTxn.v ===== *)
(** * PatchTxn: the transaction of a patch is atomic

    [patch_fs.rs] when no other process interferes, and any system call may
    fail.  Every entry owns its home and the private files it has; a step of an
    entry changes nothing else, what it gives up is as it was before the
    transaction, and what it owns is described by [local]. *)

From S2P Require Import Prelude Text PatchHunks PatchParse PatchFs.

(** What reads as a state. *)
Definition reads (fs : Tree) (key : Key) (s : State) : Prop := state_of (at_key fs key) = Ok s.

Lemma reads_absent fs key : reads fs key absent ↔ fs !! key = None.
Proof.
  unfold reads, at_key, state_of. destruct (fs !! key) as [node|]; simpl; [|done]. split; [|done].
  destruct node; simpl; try done. intros Hr. apply bind_Ok in Hr as (? & _ & Hr).
  apply bind_Ok in Hr as (? & _ & Hr). by apply bind_Ok in Hr as (? & _ & [= ]).
Qed.
Lemma reads_regular fs key s :
  reads fs key s → s ≠ absent → ∃ l c m, fs !! key = Some (Regular l c m) ∧ read (Regular l c m) = Ok s.
Proof.
  unfold reads, at_key, state_of. destruct (fs !! key) as [[| | |]|]; simpl; intros Hr Hs; naive_solver.
Qed.
Definition readable (s : State) : Prop := read (Regular 1 (data s) (state_mode s)) = Ok s.
Lemma read_readable node s : read node = Ok s → readable s ∧ exists_ s = true.
Proof.
  destruct node; simpl; try done. intros Hr. apply bind_Ok in Hr as ([] & H1 & Hr).
  apply bind_Ok in Hr as ([] & H2 & Hr). apply bind_Ok in Hr as ([] & H3 & [= <-]).
  split; [|done]. unfold readable. simpl. rewrite H2. simpl. rewrite H3. simpl.
  by rewrite <-N.land_assoc, N.land_diag.
Qed.
Lemma reads_cases fs key s : reads fs key s → s = absent ∨ (readable s ∧ exists_ s = true).
Proof.
  unfold reads, at_key, state_of. destruct (fs !! key); simpl.
  - intros ?%read_readable. by right.
  - intros [= <-]. by left.
Qed.
Lemma reads_same fs fs' key s : fs' !! key = fs !! key → reads fs key s → reads fs' key s.
Proof. unfold reads, at_key. by intros ->. Qed.

Section quiet.
Context (o : Outside) (Hquiet : ∀ n fs, others o n fs = fs).

(** ** The system calls when the others are quiet *)
Lemma sys_quiet {A} (f : Tree → result IoError A * Tree) w r w' :
  sys o f w = (r, w') → drawn w' = drawn w
  ∧ ((∃ e, r = Err (Errno e) ∧ tree w' = tree w) ∨ f (tree w) = (r, tree w')).
Proof.
  unfold sys. rewrite Hquiet. destruct (fault o (calls w)).
  - intros [= <- <-]. eauto.
  - destruct (f (tree w)) eqn:Hf. intros [= <- <-]. auto.
Qed.
Lemma look_quiet {A} (f : Tree → result IoError A) w r w' :
  look o f w = (r, w') → drawn w' = drawn w ∧ tree w' = tree w
  ∧ ((∃ e, r = Err (Errno e)) ∨ r = f (tree w)).
Proof.
  intros [? [(e & -> & ?)|[= <- <-]]]%sys_quiet; eauto.
Qed.
Lemma move_quiet dir from to w r w' :
  move_exclusive o dir from to w = (r, w') → drawn w' = drawn w
  ∧ ((∃ e, r = Err e ∧ tree w' = tree w) ∨
     r = Ok tt ∧ ∃ node, tree w !! (dir, from) = Some node ∧ tree w !! (dir, to) = None
       ∧ tree w' = <[(dir, to) := node]> (delete (dir, from) (tree w))).
Proof.
  intros [? [(e & -> & ?)|Hr]]%sys_quiet; (split; [done|]); [eauto|]. unfold rename_noreplace in Hr; cbv beta in Hr.
  destruct (tree w !! (dir, from)) eqn:Hf; [|apply pair_equal_spec in Hr as [<- <-]; eauto].
  destruct (tree w !! (dir, to)) eqn:Ht; apply pair_equal_spec in Hr as [<- <-]; eauto 10.
Qed.
Lemma create_quiet dir n mode w r w' :
  create o dir n mode w = (r, w') → drawn w' = drawn w
  ∧ ((∃ e, r = Err e ∧ tree w' = tree w) ∨
     r = Ok tt ∧ tree w !! (dir, n) = None ∧ ∃ m, tree w' = <[(dir, n) := Regular 1 [] m]> (tree w)).
Proof.
  intros [? [(e & -> & ?)|Hr]]%sys_quiet; (split; [done|]); [eauto|]. unfold create_excl in Hr; cbv beta in Hr.
  destruct (tree w !! (dir, n)) eqn:Hf; apply pair_equal_spec in Hr as [<- <-]; eauto 10.
Qed.
Lemma unlink_quiet dir n w r w' :
  unlinkat o dir n w = (r, w') → drawn w' = drawn w
  ∧ ((∃ e, r = Err e ∧ tree w' = tree w) ∨ r = Ok tt ∧ tree w' = delete (dir, n) (tree w)).
Proof.
  unfold unlinkat. destruct (sys o _ w) as [r0 w0] eqn:Hs. intros [= <- <-].
  apply sys_quiet in Hs as [? [(e & -> & ?)|Hr]]; (split; [done|]); [eauto|]. unfold unlink in Hr; cbv beta in Hr.
  destruct (tree w !! (dir, n)) as [[]|]; apply pair_equal_spec in Hr as [<- <-]; eauto.
Qed.
Lemma on_file_frame f k k' fs : k ≠ k' → on_file f k fs !! k' = fs !! k'.
Proof. apply lookup_alter_ne. Qed.
(** [fill] on a file that was just created. *)
Lemma fill_quiet dir n s w r w' c m :
  fill o dir n s w = (r, w') → tree w !! (dir, n) = Some (Regular 1 c m) →
  drawn w' = drawn w ∧ (∀ k, k ≠ (dir, n) → tree w' !! k = tree w !! k)
  ∧ (∃ c' m', tree w' !! (dir, n) = Some (Regular 1 c' m'))
  ∧ (r = Ok tt → tree w' !! (dir, n) = Some (Regular 1 (data s) (state_mode s))).
Proof.
  unfold fill, fchmod, sync_all. intros Hf Hn. unfold mbind, SE_bind in Hf.
  destruct (sys o _ w) as [r1 w1] eqn:H1. apply sys_quiet in H1 as [Hd1 H1].
  assert (∃ m, tree w1 !! (dir, n) = Some (Regular 1 c m)
    ∧ (is_ok r1 = true → m = state_mode s)
    ∧ ∀ k, k ≠ (dir, n) → tree w1 !! k = tree w !! k) as (m1 & Hn1 & Hm1 & Hk1).
  { destruct H1 as [(e & -> & ->)|[= <- <-]]; [by exists m|]. exists (state_mode s).
    split_and!; [|done|intros; by apply on_file_frame].
    unfold on_file. by rewrite lookup_alter_eq, Hn. }
  destruct r1 as [[]|]; [|by injection Hf as <- <-; split_and!; eauto].
  destruct (write_all o _ _ w1) as [r2 w2] eqn:H2. unfold write_all in H2. rewrite Hquiet in H2.
  assert (∃ c', tree w2 !! (dir, n) = Some (Regular 1 c' m1) ∧ drawn w2 = drawn w1
    ∧ (is_ok r2 = true → c' = data s) ∧ ∀ k, k ≠ (dir, n) → tree w2 !! k = tree w1 !! k)
    as (c2 & Hn2 & Hd2 & Hc2 & Hk2).
  { destruct (fault o (calls w1)); injection H2 as <- <-; (eexists; split_and!;
      [simpl; unfold on_file; by rewrite lookup_alter_eq, Hn1|done|done|intros; by apply on_file_frame]). }
  destruct r2 as [[]|]; [|injection Hf as <- <-; split_and!; [congruence| |by eauto|done];
    intros; by rewrite Hk2, Hk1].
  apply look_quiet in Hf as (Hd3 & Ht3 & _). rewrite Ht3.
  split_and!; [congruence| |by eauto|]; [intros; by rewrite Hk2, Hk1|].
  intros _. by rewrite Hn2, Hc2, Hm1.
Qed.

(** ** Ownership *)
Context (fs0 : Tree) (Hfresh : Inj (=) (=) (fresh o)).

Definition private (e : Entry) : list string := option_list (staged e) ++ option_list (quarantine e).
Definition owned (e : Entry) : list Key := home e :: ((λ n, (parent e, n)) <$> private e).

Record local (w : World) (e : Entry) : Prop := {
  local_name : ∀ i, name e ≠ fresh o i;
  local_base : reads fs0 (home e) (original e);
  local_final : exists_ (final_state e) = false → final_state e = absent;
  local_private : ∀ n, n ∈ private e →
    (∃ i, (i < drawn w)%nat ∧ n = fresh o i) ∧ fs0 !! (parent e, n) = None;
  local_distinct : ∀ n, staged e = Some n → quarantine e ≠ Some n;
  local_quarantine : ∀ n, quarantine e = Some n →
    claimed e = true ∧ reads (tree w) (parent e, n) (original e);
  local_claimed : claimed e = true → original e ≠ absent;
  local_published : published e = true →
    staged e = None ∧ final_state e ≠ absent ∧ (claimed e = false → original e = absent);
  local_home : reads (tree w) (home e)
    (if published e then final_state e else if claimed e then absent else original e);
}.

Definition same (e e' : Entry) : Prop :=
  parent e' = parent e ∧ name e' = name e ∧ entry_path e' = entry_path e
  ∧ original e' = original e ∧ final_state e' = final_state e.

(** One step of an entry, as the other entries see it. *)
Record stepped (e : Entry) (w : World) (e' : Entry) (w' : World) : Prop := {
  step_same : same e e';
  step_drawn : (drawn w <= drawn w')%nat;
  step_frame : ∀ k, k ∉ owned e → k ∉ owned e' → tree w' !! k = tree w !! k;
  step_release : ∀ k, k ∈ owned e → k ∉ owned e' → tree w' !! k = fs0 !! k;
  step_gain : ∀ k, k ∈ owned e' → k ∈ owned e ∨
    ∃ i, (drawn w <= i < drawn w')%nat ∧ k = (parent e, fresh o i);
  step_local : local w' e';
}.

(** An entry may move: it is as [local] says, and the names it may draw are as
    they were. *)
Definition ready (w : World) (e : Entry) : Prop :=
  local w e ∧ ∀ i, (drawn w <= i)%nat → tree w !! (parent e, fresh o i) = fs0 !! (parent e, fresh o i).

Lemma owned_spec e k : k ∈ owned e ↔ k = home e ∨ ∃ n, n ∈ private e ∧ k = (parent e, n).
Proof. unfold owned. rewrite elem_of_cons, list_elem_of_fmap. naive_solver. Qed.
Lemma same_refl e : same e e.
Proof. by split_and!. Qed.
#[local] Instance same_trans : Transitive same.
Proof. unfold same. intros ? ? ?. intuition congruence. Qed.
Lemma stepped_idle e w w' :
  local w e → tree w' = tree w → (drawn w <= drawn w')%nat → stepped e w e w'.
Proof.
  intros [] Ht Hd. split; [apply same_refl|done|by rewrite Ht|done|by left|].
  split; rewrite ?Ht; eauto. intros n (Hn & ?)%local_private0. split; [|done].
  destruct Hn as (i & ? & ?). exists i. split; [lia|done].
Qed.
Lemma original_cases w e : local w e →
  original e = absent ∧ exists_ (original e) = false ∨ readable (original e) ∧ exists_ (original e) = true.
Proof. intros [_ [Hb|Hb]%reads_cases]; [|by right]. left. by rewrite Hb. Qed.

(** Running a method: take the next system call apart. *)
Ltac run_in H := unfold mbind, SE_bind, self, io, update, attempt, lift, fail, mret, SE_ret in H; cbn in H.

Lemma stage_step e w r e' w' :
  ready w e → staged e = None → published e = false →
  stage o (e, w) = (r, (e', w')) →
  stepped e w e' w' ∧ (∃ s, e' = set_staged s e)
  ∧ (exists_ (final_state e) = false → staged e' = None)
  ∧ (r = Ok tt → exists_ (final_state e) = true → is_Some (staged e')).
Proof.
  intros [Hl Hfree] Hst Hpub. unfold stage. intros H. run_in H.
  assert (Hid : ∀ w1, tree w1 = tree w → (drawn w <= drawn w1)%nat →
    stepped e w e w1 ∧ (∃ s, e = set_staged s e)).
  { intros. split; [by apply stepped_idle|]. exists (staged e). by destruct e. }
  destruct (exists_ (final_state e)) eqn:Hex; run_in H.
  2:{ injection H as <- <- <-. destruct (Hid w) as [? ?]; [done..|]. by split_and!. }
  set (n := fresh o (drawn w)) in *. set (w1 := mkWorld _ _ (S (drawn w)) _) in *.
  destruct (create o (parent e) n _ w1) as [r2 w2] eqn:H2.
  apply create_quiet in H2 as [Hd2 [(er & -> & Ht2)|(-> & Hn2 & m & Ht2)]]; run_in H.
  { injection H as <- <- <-. assert (drawn w <= drawn w2)%nat by (rewrite Hd2; simpl; lia).
    destruct (Hid w2) as [? ?]; [done..|]. by split_and!. }
  destruct (fill o (parent e) n _ w2) as [r3 w3] eqn:H3.
  assert (n ≠ name e) as Hne by (intros Hn; by apply (local_name _ _ Hl (drawn w))).
  eapply fill_quiet in H3 as (Hd3 & Hk3 & _); [|rewrite Ht2; apply lookup_insert_eq].
  injection H as <- <- <-. split_and!; [|by eexists|done|by eexists].
  assert (∀ k, k ≠ (parent e, n) → tree w3 !! k = tree w !! k) as Hk.
  { intros k Hkn. rewrite Hk3, Ht2 by done. by rewrite lookup_insert_ne. }
  assert (fs0 !! (parent e, n) = None) as H0 by (unfold n; by rewrite <-(Hfree (drawn w))).
  assert (drawn w3 = S (drawn w)) as Hd by (rewrite Hd3, Hd2; done).
  destruct Hl. split.
  - by repeat split.
  - lia.
  - intros k _ Hk'. apply Hk. intros ->. apply Hk'. apply owned_spec. right. exists n. by split; [left|].
  - intros k [->|(n' & Hn' & ->)]%owned_spec Hk'; exfalso; apply Hk', owned_spec; [by left|right].
    exists n'. split; [|done]. unfold private in *. rewrite Hst in Hn'. simpl. by right.
  - intros k [->|(n' & Hn' & ->)]%owned_spec; [left; by left|]. unfold private in Hn'. simpl in Hn'.
    apply elem_of_cons in Hn' as [->|Hn'].
    + right. exists (drawn w). split; [lia|done].
    + left. apply owned_spec. right. exists n'. split; [|done]. unfold private. by rewrite Hst.
  - assert (∀ q, quarantine e = Some q → q ≠ n) as Hqn.
    { intros q Hq ->. destruct (local_private0 n) as [(i & Hi & Hn%(inj _)) _]; [|lia].
      unfold private. rewrite Hq. apply elem_of_app. right. by left. }
    split; simpl; try done.
    + intros n' [->|Hn']%elem_of_cons; [split; [|done]; exists (drawn w); split; [lia|done]|].
      destruct (local_private0 n') as [(i & ? & ?) ?]; [unfold private; by rewrite Hst|].
      split; [|done]. exists i. split; [lia|done].
    + intros n' [= <-] Hq. by apply (Hqn n).
    + intros q Hq. destruct (local_quarantine0 q Hq). split; [done|].
      eapply reads_same; [|done]. apply Hk. intros [= ->]. by apply (Hqn n).
    + rewrite Hpub in *. done.
    + eapply reads_same; [|done]. apply Hk. unfold home. intros [= Hn]. by apply Hne.
Qed.

Lemma move_back (t : Tree) a b node :
  a ≠ b → t !! a = Some node → t !! b = None →
  <[a := node]> (delete b (<[b := node]> (delete a t))) = t.
Proof.
  intros Hab Ha Hb. rewrite delete_insert_id by by rewrite lookup_delete_ne.
  by apply insert_delete_id.
Qed.
Lemma reads_node (t t' : Tree) k k' s : t' !! k' = t !! k → reads t k s → reads t' k' s.
Proof. unfold reads, at_key. by intros ->. Qed.

Definition moved (e : Entry) (n : string) : Entry := set_claimed true (set_quarantine (Some n) e).
(** The home of an entry goes into quarantine. *)
Lemma moved_step e w w1 node :
  ready w e → quarantine e = None → claimed e = false → published e = false →
  original e ≠ absent →
  drawn w1 = S (drawn w) → tree w !! (parent e, fresh o (drawn w)) = None →
  tree w !! home e = Some node →
  tree w1 = <[(parent e, fresh o (drawn w)) := node]> (delete (home e) (tree w)) →
  stepped e w (moved e (fresh o (drawn w))) w1.
Proof.
  intros [Hl Hfree] Hq Hc Hp Ho Hd Hn Hh Ht. set (n := fresh o (drawn w)) in *.
  assert ((parent e, n) ≠ home e) as Hne.
  { intros [= Hne]. by apply (local_name _ _ Hl (drawn w)). }
  assert (∀ k, k ≠ (parent e, n) → k ≠ home e → tree w1 !! k = tree w !! k) as Hk.
  { intros k ? ?. rewrite Ht. by rewrite lookup_insert_ne, lookup_delete_ne. }
  assert (fs0 !! (parent e, n) = None) as H0 by (unfold n; by rewrite <-(Hfree (drawn w))).
  assert (∀ q, q ∈ private e → q ≠ n) as Hqn.
  { intros q Hq' ->. destruct (local_private _ _ Hl n Hq') as [(i & Hi & He%(inj _)) _]. lia. }
  assert (∀ q, q ∈ private (moved e n) ↔ q ∈ private e ∨ q = n) as Hpriv.
  { intros q. unfold private. rewrite Hq. simpl. rewrite !elem_of_app, elem_of_nil, list_elem_of_singleton. tauto. }
  assert (∀ k, k ∈ owned (moved e n) ↔ k ∈ owned e ∨ k = (parent e, n)) as Hown.
  { intros k. rewrite !owned_spec. setoid_rewrite Hpriv. simpl. naive_solver. }
  destruct Hl. split.
  - by repeat split.
  - lia.
  - intros k Hk1 Hk2. apply Hk; [intros ->; apply Hk2, Hown; by right|].
    intros ->. apply Hk1, owned_spec. by left.
  - intros k Hk1 []. apply Hown. by left.
  - intros k [Hk'| ->]%Hown; [by left|]. right. exists (drawn w). split; [lia|done].
  - split; try done.
    + intros q [Hq'| ->]%Hpriv; [|split; [|done]; exists (drawn w); split; [lia|done]].
      destruct (local_private0 q Hq') as [(i & ? & ?) ?]. split; [|done]. exists i. split; [lia|done].
    + intros q Hq' [= <-]. apply (Hqn n); [|done]. unfold private. simpl in Hq'. rewrite Hq'. by left.
    + simpl. intros q [= <-]. split; [done|]. rewrite Hp, Hc in local_home0.
      eapply reads_node; [|exact local_home0]. by rewrite Ht, lookup_insert_eq.
    + intros Hp'. simpl in Hp'. congruence.
    + simpl. rewrite Hp. apply reads_absent. change (home (moved e n)) with (home e).
      rewrite Ht, lookup_insert_ne by done. apply lookup_delete_eq.
Qed.

Lemma claim_step e w r e' w' :
  ready w e → quarantine e = None → claimed e = false → published e = false →
  claim o (e, w) = (r, (e', w')) →
  stepped e w e' w' ∧ staged e' = staged e ∧ published e' = false
  ∧ (r = Ok tt → original e ≠ absent → claimed e' = true).
Proof.
  intros Hr Hq Hc Hp. pose proof Hr as [Hl Hfree]. unfold claim. intros H. run_in H.
  destruct (original_cases _ _ Hl) as [[Ho Hex]|[Hrd Hex]]; rewrite Hex in H; run_in H.
  { injection H as <- <- <-. split_and!; [by apply stepped_idle|done|done|done]. }
  set (n := fresh o (drawn w)) in *. set (w1 := mkWorld _ _ (S (drawn w)) _) in *.
  assert (original e ≠ absent) as Ho by (intros Ho; by rewrite Ho in Hex).
  destruct (move_exclusive o _ _ _ w1) as [r2 w2] eqn:H2.
  apply move_quiet in H2 as [Hd2 [(er & -> & Ht2)|(-> & node & Hh & Hn & Ht2)]]; run_in H.
  { injection H as <- <- <-. split_and!; [|done..]. apply stepped_idle; [done..|rewrite Hd2; simpl; lia]. }
  assert (∀ w3, tree w3 = tree w2 → drawn w3 = drawn w2 → stepped e w (moved e n) w3) as Hmoved.
  { intros w3 Ht3 Hd3. eapply moved_step; try done; [by rewrite Hd3, Hd2|by rewrite Ht3]. }
  destruct (inspect_at o (parent e) n w2) as [found w3] eqn:H3. run_in H.
  apply look_quiet in H3 as (Hd3 & Ht3 & Hfound).
  destruct (found_is (original e) found) eqn:Hf; run_in H.
  { injection H as <- <- <-. split_and!; [by apply Hmoved|done..]. }
  destruct (move_exclusive o _ n (name e) w3) as [back w4] eqn:H4. run_in H.
  apply move_quiet in H4 as [Hd4 [(er & -> & Ht4)|(-> & node' & Hn' & Hh' & Ht4)]]; run_in H.
  { injection H as <- <- <-. split_and!; [|done..].
    apply Hmoved; [by rewrite Ht4|by rewrite Hd4]. }
  assert (is_ok r = false ∧ e' = e ∧ w' = w4) as (Hr' & -> & ->).
  { destruct e; simpl in *. subst. by destruct found; injection H as <- <- <-. }
  split_and!; [|done|done|by intros ->].
  assert (drawn w4 = S (drawn w)) as Hd by (rewrite Hd4, Hd3, Hd2; done).
  apply stepped_idle; [done| |lia]. rewrite Ht4, Ht3, Ht2. rewrite Ht3, Ht2, lookup_insert_eq in Hn'.
  injection Hn' as <-. apply move_back; [|done..]. intros [= Hne]. by apply (local_name _ _ Hl (drawn w)).
Qed.

Lemma private_ne w e n : local w e → n ∈ private e → (parent e, n) ≠ home e.
Proof. intros Hl Hn [= ->]. destruct (local_private _ _ Hl _ Hn) as [(i & _ & Hi) _]. by eapply local_name. Qed.
Lemma private_inj w e n m : local w e → staged e = Some n → quarantine e = Some m → (parent e, n) ≠ (parent e, m).
Proof. intros Hl Hn Hm [= ->]. by eapply local_distinct. Qed.
Lemma staged_private e n : staged e = Some n → n ∈ private e.
Proof. unfold private. intros ->. by left. Qed.
Lemma quarantine_private e n : quarantine e = Some n → n ∈ private e.
Proof. unfold private. intros ->. apply elem_of_app. right. by left. Qed.
Lemma reads_functional fs k s s' : reads fs k s → reads fs k s' → s = s'.
Proof. unfold reads. intros ->. by intros [= ->]. Qed.

Lemma publish_step e w r e' w' :
  ready w e → publish o (e, w) = (r, (e', w')) →
  stepped e w e' w' ∧ claimed e' = claimed e ∧ (staged e = None → e' = e)
  ∧ (r = Ok tt → is_Some (staged e) → published e' = true).
Proof.
  intros [Hl _]. unfold publish. intros H. run_in H.
  destruct (staged e) as [n|] eqn:Hst; run_in H.
  2:{ injection H as <- <- <-. split_and!; [by apply stepped_idle|done|done|by intros _ []]. }
  assert (published e = false) as Hpub.
  { apply not_true_is_false. intros Hp. apply (local_published _ _ Hl) in Hp as [Hs _]. congruence. }
  destruct (inspect_at o (parent e) n w) as [found w2] eqn:H2.
  apply look_quiet in H2 as (Hd2 & Ht2 & Hfound).
  assert (∀ w3, tree w3 = tree w → drawn w3 = drawn w → stepped e w e w3) as Hidle.
  { intros w3 Ht3 Hd3. by apply stepped_idle; [..|rewrite Hd3]. }
  destruct found as [s|er]; run_in H; [|injection H as <- <- <-; split_and!; [by apply Hidle|done..]].
  case_bool_decide as Hs; run_in H; [|injection H as <- <- <-; split_and!; [by apply Hidle|done..]].
  destruct (move_exclusive o _ _ _ w2) as [r3 w3] eqn:H3.
  apply move_quiet in H3 as [Hd3 [(er & -> & Ht3)|(-> & node & Hn & Hh & Ht3)]]; run_in H;
    injection H as <- <- <-; (split_and!; [|done..]); [apply Hidle; congruence|].
  assert (reads (tree w) (parent e, n) (final_state e)) as Hfin.
  { destruct Hfound as [[? ?]|Hfound]; [done|]. unfold reads. by rewrite <-Hfound, Hs. }
  rewrite Ht2 in *.
  assert (final_state e ≠ absent) as Hne by (intros Ha; rewrite Ha in Hfin; apply reads_absent in Hfin; congruence).
  pose proof (private_ne _ _ _ Hl (staged_private _ _ Hst)) as Hnh.
  assert (Horig : claimed e = false → original e = absent).
  { intros Hc. pose proof (local_home _ _ Hl) as Hlh. rewrite Hpub, Hc in Hlh.
    by eapply reads_functional; [|apply reads_absent]. }
  set (e' := set_published true (set_staged None e)).
  assert (∀ k, k ∈ owned e ↔ k ∈ owned e' ∨ k = (parent e, n)) as Hown.
  { intros k. rewrite !owned_spec. unfold private. rewrite Hst. simpl. setoid_rewrite elem_of_cons. naive_solver. }
  assert (∀ k, k ≠ (parent e, n) → k ≠ home e → tree w3 !! k = tree w !! k) as Hk.
  { intros k ? ?. rewrite Ht3. by rewrite lookup_insert_ne, lookup_delete_ne. }
  pose proof Hl as [].  split.
  - by repeat split.
  - lia.
  - intros k Hk1 Hk2. apply Hk; intros ->; apply Hk1; [apply Hown; by right|by left].
  - intros k [Hk'| ->]%Hown Hk2; [done|]. rewrite Ht3, lookup_insert_ne by done.
    rewrite lookup_delete_eq. symmetry. by apply local_private0, staged_private.
  - intros k Hk'. left. apply Hown. by left.
  - assert (∀ q, q ∈ private e' → q ∈ private e) as Hp.
    { unfold private. simpl. intros q Hq. apply elem_of_app. by right. }
    split; try done.
    + intros q [(i & ? & ?) ?]%Hp%local_private0. split; [|done]. exists i. split; [lia|done].
    + simpl. intros q Hq. destruct (local_quarantine0 q Hq). split; [done|].
      eapply reads_same; [|done]. apply Hk; [|by apply (private_ne w), quarantine_private].
      apply not_eq_sym. by eapply private_inj.
    + simpl. eapply reads_node; [|exact Hfin]. change (home e') with (home e).
      by rewrite Ht3, lookup_insert_eq.
Qed.

Lemma release_step e w r e' w' :
  ready w e → release o (e, w) = (r, (e', w')) →
  stepped e w e' w' ∧ (∃ q, e' = set_quarantine q e)
  ∧ (r = Ok tt → quarantine e' = None).
Proof.
  intros [Hl _]. unfold release. intros H. run_in H.
  assert (e = set_quarantine (quarantine e) e) as Hself by by destruct e.
  destruct (quarantine e) as [n|] eqn:Hq; run_in H.
  2:{ injection H as <- <- <-. split_and!; [by apply stepped_idle|by eexists|done]. }
  destruct (unlinkat o _ _ w) as [r2 w2] eqn:H2.
  apply unlink_quiet in H2 as [Hd2 [(er & -> & Ht2)|[-> Ht2]]]; run_in H;
    injection H as <- <- <-; (split_and!; [|by eexists|done]); [apply stepped_idle; [done..|lia]|].
  pose proof (private_ne _ _ _ Hl (quarantine_private _ _ Hq)) as Hnh.
  set (e' := set_quarantine None e).
  assert (∀ k, k ∈ owned e ↔ k ∈ owned e' ∨ k = (parent e, n)) as Hown.
  { intros k. rewrite !owned_spec. unfold private. rewrite Hq. simpl.
    setoid_rewrite elem_of_app. setoid_rewrite list_elem_of_singleton. setoid_rewrite elem_of_nil. naive_solver. }
  assert (∀ k, k ≠ (parent e, n) → tree w2 !! k = tree w !! k) as Hk.
  { intros k ?. rewrite Ht2. by rewrite lookup_delete_ne. }
  pose proof Hl as []. split.
  - by repeat split.
  - lia.
  - intros k Hk1 Hk2. apply Hk; intros ->; apply Hk1, Hown; by right.
  - intros k [Hk'| ->]%Hown Hk2; [done|]. rewrite Ht2, lookup_delete_eq.
    symmetry. by apply local_private0, quarantine_private.
  - intros k Hk'. left. apply Hown. by left.
  - split; try done.
    + intros q Hq'. assert (q ∈ private e) as Hqe.
      { unfold private in *. simpl in Hq'. rewrite app_nil_r in Hq'. apply elem_of_app. by left. }
      apply local_private0 in Hqe as [(i & ? & ?) ?]. split; [|done]. exists i. split; [lia|done].
    + eapply reads_same; [|exact local_home0]. apply Hk. by apply not_eq_sym.
Qed.

(** [restore], into a free home. *)
Lemma restore_quiet e w e' w' :
  (∀ i, name e ≠ fresh o i) →
  (∀ q, quarantine e = Some q →
    claimed e = true ∧ (parent e, q) ≠ home e ∧ reads (tree w) (parent e, q) (original e)) →
  (claimed e = true → readable (original e) ∧ tree w !! home e = None) →
  restore o (e, w) = (Ok tt, (e', w')) →
  e' = set_claimed false (set_quarantine None e) ∧ (drawn w <= drawn w')%nat
  ∧ (∀ k, k ≠ home e → (∀ q, quarantine e = Some q → k ≠ (parent e, q)) → tree w' !! k = tree w !! k)
  ∧ (∀ q, quarantine e = Some q → tree w' !! (parent e, q) = None)
  ∧ (claimed e = true → reads (tree w') (home e) (original e))
  ∧ (claimed e = false → tree w' = tree w).
Proof.
  intros Hname Hquar Hcl. unfold restore. intros H. run_in H.
  destruct (claimed e) eqn:Hc; run_in H.
  2:{ injection H as <- <-. assert (quarantine e = None) as Hq.
    { destruct (quarantine e) as [q|]; [|done]. by destruct (Hquar q eq_refl). }
    split_and!; try done; [destruct e; simpl in *; by subst|by rewrite Hq]. }
  destruct (Hcl eq_refl) as [Hread _].
  destruct (quarantine e) as [q|] eqn:Hq; run_in H.
  - destruct (move_exclusive o _ _ _ w) as [r2 w2] eqn:H2.
    apply move_quiet in H2 as [Hd2 [(er & -> & Ht2)|(-> & node & Hn & _ & Ht2)]]; run_in H; [done|].
    injection H as <- <-. destruct (Hquar q eq_refl) as (_ & Hnh & Hr).
    split_and!; [done|lia| | | |done].
    + intros k Hk Hkq. rewrite Ht2, lookup_insert_ne, lookup_delete_ne; [done|..]; [|done].
      apply not_eq_sym. by apply Hkq.
    + intros q' [= <-]. rewrite Ht2, lookup_insert_ne by done. apply lookup_delete_eq.
    + intros _. eapply reads_node; [|exact Hr].
      by rewrite Ht2, lookup_insert_eq.
  - set (n := fresh o (drawn w)) in *. set (w1 := mkWorld _ _ (S (drawn w)) _) in *.
    destruct (create o _ n _ w1) as [r2 w2] eqn:H2.
    apply create_quiet in H2 as [Hd2 [(er & -> & Ht2)|(-> & Hn & m & Ht2)]]; run_in H; [done|].
    destruct (fill o _ n _ w2) as [r3 w3] eqn:H3.
    eapply fill_quiet in H3 as (Hd3 & Hk3 & _ & Hn3); [|rewrite Ht2; apply lookup_insert_eq].
    destruct r3 as [[]|]; run_in H.
    2:{ destruct (unlinkat _ _ _ _) in H. run_in H. done. }
    destruct (move_exclusive o _ n _ w3) as [r4 w4] eqn:H4.
    apply move_quiet in H4 as [Hd4 [(er & -> & Ht4)|(-> & node & Hn4 & _ & Ht4)]]; run_in H.
    { destruct (unlinkat _ _ _ _) in H. run_in H. done. }
    injection H as <- <-. rewrite (Hn3 eq_refl) in Hn4. injection Hn4 as <-.
    assert ((parent e, n) ≠ home e) as Hnh by (intros [= Hne]; by apply (Hname (drawn w))).
    split_and!; [by destruct e; simpl in *; subst|rewrite Hd4, Hd3, Hd2; simpl; lia| |done| |done].
    + intros k Hk _. rewrite Ht4, lookup_insert_ne by done. destruct (decide (k = (parent e, n))) as [->|Hkn].
      * rewrite lookup_delete_eq. by rewrite <-Hn.
      * by rewrite lookup_delete_ne, Hk3, Ht2, lookup_insert_ne.
    + intros _. unfold reads, at_key. rewrite Ht4, lookup_insert_eq. exact Hread.
Qed.

Lemma restored_step e w e' w' :
  local w e → e' = set_published false (set_claimed false (set_quarantine None e)) →
  (drawn w <= drawn w')%nat →
  (∀ k, k ≠ home e → (∀ q, quarantine e = Some q → k ≠ (parent e, q)) → tree w' !! k = tree w !! k) →
  (∀ q, quarantine e = Some q → tree w' !! (parent e, q) = None) →
  reads (tree w') (home e) (original e) → stepped e w e' w'.
Proof.
  intros Hl -> Hd Hk Hq Hh. set (e' := set_published false _).
  assert (∀ n, n ∈ private e' ↔ staged e = Some n) as Hpriv.
  { intros n. unfold private. simpl. rewrite app_nil_r. destruct (staged e); simpl;
      rewrite ?list_elem_of_singleton, ?elem_of_nil; naive_solver. }
  assert (∀ k, k ∈ owned e ↔ k ∈ owned e' ∨ ∃ q, quarantine e = Some q ∧ k = (parent e, q)) as Hown.
  { intros k. rewrite !owned_spec. setoid_rewrite Hpriv. unfold private. setoid_rewrite elem_of_app.
    destruct (staged e), (quarantine e); simpl; setoid_rewrite list_elem_of_singleton || setoid_rewrite elem_of_nil;
      try setoid_rewrite elem_of_nil; change (home e') with (home e); naive_solver. }
  pose proof Hl as []. split.
  - by repeat split.
  - done.
  - intros k Hk1 Hk2. apply Hk; [intros ->; apply Hk1; by left|]. intros q Hq' ->. apply Hk1, Hown. eauto.
  - intros k [Hk'|(q & Hq' & ->)]%Hown Hk2; [done|]. rewrite Hq by done.
    symmetry. by apply local_private0, quarantine_private.
  - intros k Hk'. left. apply Hown. by left.
  - split; try done. intros n Hn%Hpriv%staged_private.
    destruct (local_private0 n Hn) as [(i & ? & ?) ?]. split; [|done]. exists i. split; [lia|done].
Qed.

Lemma rollback_step e w e' w' :
  ready w e → rollback o (e, w) = (Ok tt, (e', w')) →
  stepped e w e' w' ∧ published e' = false ∧ claimed e' = false ∧ quarantine e' = None.
Proof.
  intros [Hl Hfree]. unfold rollback. intros H. run_in H.
  assert (∀ q, quarantine e = Some q → q ≠ fresh o (drawn w)) as Hqn.
  { intros q Hq ->. destruct (local_private _ _ Hl _ (quarantine_private _ _ Hq)) as [(i & ? & Hi%(inj _)) _]. lia. }
  assert (claimed e = true → readable (original e)) as Hread.
  { intros Hc. destruct (original_cases _ _ Hl) as [[Ho _]|[Hr _]]; [|done].
    by apply (local_claimed _ _ Hl) in Hc. }
  assert (Hquar : ∀ t, (∀ q, quarantine e = Some q → t !! (parent e, q) = tree w !! (parent e, q)) →
    ∀ q, quarantine e = Some q → claimed e = true ∧ (parent e, q) ≠ home e ∧ reads t (parent e, q) (original e)).
  { intros t Ht q Hq. destruct (local_quarantine _ _ Hl q Hq). split_and!; [done|by eapply private_ne, quarantine_private|].
    eapply reads_same; [|done]. by apply Ht. }
  pose proof (local_home _ _ Hl) as Hh. pose proof (local_published _ _ Hl) as Hpub.
  destruct (published e) eqn:Hp; run_in H.
  2:{ apply restore_quiet in H as (-> & Hd & Hk & Hq & Hc & Hnc); [|apply Hl|by apply Hquar|].
    - split_and!; [|done..]. apply restored_step; try done; [by destruct e; simpl in *; subst|].
      destruct (claimed e) eqn:Hcl; [by apply Hc|]. by rewrite Hnc.
    - intros Hcl. rewrite Hcl in Hh. split; [by apply Hread|by apply reads_absent]. }
  set (n := fresh o (drawn w)) in *. set (w1 := mkWorld _ _ (S (drawn w)) _) in *.
  assert ((parent e, n) ≠ home e) as Hnh by (intros [= Hne]; by apply (local_name _ _ Hl (drawn w))).
  destruct (move_exclusive o _ _ _ w1) as [r2 w2] eqn:H2.
  apply move_quiet in H2 as [Hd2 [(er & -> & Ht2)|(-> & node & Hnode & Hn & Ht2)]]; run_in H; [done|].
  destruct (inspect_at o (parent e) n w2) as [found w3] eqn:H3. run_in H.
  apply look_quiet in H3 as (Hd3 & Ht3 & Hfound).
  destruct (found_is (final_state e) found) eqn:Hf; run_in H.
  2:{ destruct (move_exclusive _ _ _ _ _) as [[] ] in H; run_in H; done. }
  assert (∀ k, k ≠ (parent e, n) → k ≠ home e → tree w3 !! k = tree w !! k) as Hk3.
  { intros k ? ?. rewrite Ht3, Ht2. by rewrite lookup_insert_ne, lookup_delete_ne. }
  assert (tree w3 !! home e = None) as Hhome.
  { rewrite Ht3, Ht2, lookup_insert_ne by done. apply lookup_delete_eq. }
  destruct (restore o (e, w3)) as [r4 [e4 w4]] eqn:H4. destruct r4 as [[]|]; run_in H.
  2:{ destruct (move_exclusive _ _ _ _ _) in H. run_in H. done. }
  destruct (unlinkat o (parent e) n w4) as [r5 w5] eqn:H5.
  apply unlink_quiet in H5 as [Hd5 [(er & -> & Ht5)|[-> Ht5]]]; run_in H; [done|].
  injection H as <- <-.
  assert (∀ q, quarantine e = Some q → (parent e, q) ≠ (parent e, n)) as Hqn'.
  { intros q Hq [= He]. by apply (Hqn q). }
  apply restore_quiet in H4 as (-> & Hd4 & Hk4 & Hq4 & Hc4 & Hnc4); [|apply Hl| |intros; split; [by apply Hread|done]].
  2:{ apply Hquar. intros q Hq. apply Hk3; [by apply Hqn'|by eapply private_ne, quarantine_private]. }
  split_and!; [|done..]. apply restored_step; [done|done| | | |].
  - rewrite Hd5. rewrite Hd3, Hd2 in Hd4. simpl in Hd4. lia.
  - intros k Hkh Hkq. rewrite Ht5. destruct (decide (k = (parent e, n))) as [->|Hkn].
    + rewrite lookup_delete_eq. by rewrite <-Hn.
    + by rewrite lookup_delete_ne, Hk4, Hk3.
  - intros q Hq. rewrite Ht5, lookup_delete_ne by (apply not_eq_sym; by apply Hqn'). by apply Hq4.
  - eapply reads_same; [rewrite Ht5; by apply lookup_delete_ne|].
    destruct (claimed e) eqn:Hc; [by apply Hc4|]. rewrite Hnc4 by done.
    destruct (Hpub eq_refl) as (_ & _ & Ho). rewrite Ho by done. by apply reads_absent.
Qed.

(** ** All the entries of a transaction *)
Record owners (es : list Entry) (w : World) : Prop := {
  owners_local : Forall (local w) es;
  owners_apart : ∀ i j e1 e2 k, es !! i = Some e1 → es !! j = Some e2 → k ∈ owned e1 → k ∈ owned e2 → i = j;
  owners_rest : ∀ k, (∀ e, e ∈ es → k ∉ owned e) → tree w !! k = fs0 !! k;
}.

Lemma undrawn_unowned w e dir i : local w e → (drawn w <= i)%nat → (dir, fresh o i) ∉ owned e.
Proof.
  intros Hl Hi [[= _ He]|(n & Hn & [= _ He])]%owned_spec; [by apply (local_name _ _ Hl i)|].
  destruct (local_private _ _ Hl n Hn) as [(j & Hj & ->) _]. apply (inj _) in He. lia.
Qed.
Lemma owners_ready es w e : owners es w → e ∈ es → ready w e.
Proof.
  intros [Hl _ Hr] He. rewrite Forall_forall in Hl. split; [by apply Hl|].
  intros i Hi. apply Hr. intros e2 He2. apply (undrawn_unowned w); [by apply Hl|done].
Qed.
Lemma local_frame w w' e :
  local w e → (drawn w <= drawn w')%nat → (∀ k, k ∈ owned e → tree w' !! k = tree w !! k) → local w' e.
Proof.
  intros [] Hd Hk. split; try done.
  - intros n Hn. destruct (local_private0 n Hn) as [(i & ? & ?) ?]. split; [|done]. exists i. split; [lia|done].
  - intros q Hq. destruct (local_quarantine0 q Hq). split; [done|]. eapply reads_same; [|done].
    apply Hk, owned_spec. right. exists q. split; [by apply quarantine_private|done].
  - eapply reads_same; [|done]. apply Hk. by left.
Qed.
Lemma owners_step pre e post w e' w' :
  owners (pre ++ e :: post) w → stepped e w e' w' → owners (pre ++ e' :: post) w'.
Proof.
  intros [Hl Ha Hr] [Hsame Hd Hframe Hrel Hgain Hloc].
  set (es := pre ++ e :: post) in *. set (i := length pre).
  assert (es !! i = Some e) as Hi by apply list_lookup_middle, eq_refl.
  assert (pre ++ e' :: post = <[i := e']> es) as ->.
  { unfold es, i. rewrite <-(Nat.add_0_r (length pre)), insert_app_r. done. }
  assert (∀ j e2 k, es !! j = Some e2 → i ≠ j → k ∈ owned e2 → k ∉ owned e ∧ k ∉ owned e') as Hother.
  { intros j e2 k Hj Hij Hk. assert (k ∉ owned e) as Hke by (intros Hke; by apply Hij, (Ha i j e e2 k)).
    split; [done|]. intros [|(m & Hm & ->)]%Hgain; [done|]. rewrite Forall_lookup in Hl.
    eapply undrawn_unowned in Hk; [done|by eapply Hl|lia]. }
  split.
  - apply Forall_lookup. intros j e2 [(<- & -> & _)|[Hij Hj]]%list_lookup_insert_Some; [done|].
    rewrite Forall_lookup in Hl. apply (local_frame w); [by eapply Hl|done|].
    intros k Hk. by apply Hframe; eapply Hother.
  - intros j1 j2 e1 e2 k [(<- & -> & _)|[Hij1 H1]]%list_lookup_insert_Some
      [(<- & -> & _)|[Hij2 H2]]%list_lookup_insert_Some Hk1 Hk2; [done| | |by eapply Ha].
    + by eapply Hother in Hk2 as [_ []].
    + by eapply Hother in Hk1 as [_ []].
  - intros k Hk. assert (k ∉ owned e') as Hke'.
    { apply Hk. apply list_elem_of_insert. by apply lookup_lt_Some in Hi. }
    destruct (decide (k ∈ owned e)) as [Hke|Hke]; [by apply Hrel|]. rewrite Hframe by done.
    apply Hr. intros e2 [j Hj]%list_elem_of_lookup. destruct (decide (i = j)) as [<-|Hij].
    + by simplify_eq.
    + apply Hk. apply list_elem_of_lookup. exists j. by rewrite list_lookup_insert_ne.
Qed.

(** The rule of the loops: [P] holds of the entries ahead, [Q] of those behind,
    and [R] of all. *)
Lemma each_rule (f : nat → EM unit) (P Q R : Entry → Prop) :
  (∀ e, P e → R e) →
  (∀ i e w r e' w', ready w e → P e → f i (e, w) = (r, (e', w')) →
    stepped e w e' w' ∧ R e' ∧ (r = Ok tt → Q e')) →
  ∀ es pre i w r es' w', Forall P es → owners (pre ++ es) w → each f i es w = (r, (es', w')) →
    owners (pre ++ es') w' ∧ Forall2 same es es' ∧ Forall R es' ∧ (r = Ok tt → Forall Q es').
Proof.
  intros HR Hf es. induction es as [|e es IH]; intros pre i w r es' w' HP Hw He; simpl in He.
  { injection He as <- <- <-. split_and!; [done|constructor..]. }
  apply Forall_cons in HP as [HPe HPs].
  destruct (f i (e, w)) as [r1 [e1 w1]] eqn:H1.
  apply Hf in H1 as (Hs & HRe & HQe); [|eapply owners_ready; [exact Hw|set_solver]|done].
  pose proof (owners_step _ _ _ _ _ _ Hw Hs) as Hw1.
  destruct r1 as [[]|er].
  - destruct (each f (S i) es w1) as [r2 [es2 w2]] eqn:H2. injection He as <- <- <-.
    rewrite cons_middle, app_assoc in Hw1. apply (IH (pre ++ [e1])) in H2 as (? & ? & ? & ?); [|done..].
    rewrite <-app_assoc in *. split_and!; [done|by constructor; [apply Hs|]|by constructor|].
    intros ->. constructor; auto.
  - injection He as <- <- <-. split_and!; [done| |by constructor; [|by eapply Forall_impl]|done].
    constructor; [apply Hs|]. clear. induction es; constructor; [apply same_refl|done].
Qed.

(** A step of the commit: the parent is looked at, then the method runs. *)
Lemma step_run phase f i e w r e' w' :
  step o (λ _ _, mret tt) phase f i (e, w) = (r, (e', w')) →
  (e' = e ∧ tree w' = tree w ∧ drawn w' = drawn w ∧ ∃ er, r = Err er)
  ∨ ∃ w1, tree w1 = tree w ∧ drawn w1 = drawn w ∧ f (e, w1) = (r, (e', w')).
Proof.
  unfold step, validate_parent. intros H. run_in H.
  destruct (look o _ w) as [r1 w1] eqn:H1. apply look_quiet in H1 as (Hd & Ht & _).
  destruct r1 as [[| id | |]|er]; run_in H; try (injection H as <- <- <-; left; by eauto 10).
  destruct (id =? parent e)%N; run_in H; [right; by eauto|injection H as <- <- <-; left; by eauto 10].
Qed.
Lemma ready_tree w w1 e : tree w1 = tree w → drawn w1 = drawn w → ready w e → ready w1 e.
Proof.
  intros Ht Hd [Hl Hf]. split; [by apply (local_frame w); rewrite ?Ht, ?Hd|].
  intros i Hi. rewrite Ht. apply Hf. by rewrite <-Hd.
Qed.
Lemma stepped_tree w w1 e e' w' :
  tree w1 = tree w → drawn w1 = drawn w → stepped e w1 e' w' → stepped e w e' w'.
Proof. intros Ht Hd []. split; rewrite <-?Ht, <-?Hd; done. Qed.
Lemma step_rule phase f (P Q R : Entry → Prop) :
  (∀ e, P e → R e) →
  (∀ e w r e' w', ready w e → P e → f (e, w) = (r, (e', w')) →
    stepped e w e' w' ∧ R e' ∧ (r = Ok tt → Q e')) →
  ∀ es w r es' w', Forall P es → owners es w →
    for_each (step o (λ _ _, mret tt) phase f) (es, w) = (r, (es', w')) →
    owners es' w' ∧ Forall2 same es es' ∧ Forall R es' ∧ (r = Ok tt → Forall Q es').
Proof.
  intros HR Hf es w r es' w' HP Hw He. eapply (each_rule _ P Q R HR) with (pre := []); [|done..].
  intros i e w0 r0 e' w0' Hr HPe Hs.
  apply step_run in Hs as [(-> & Ht & Hd & er & ->)|(w1 & Ht & Hd & Hs)].
  - split_and!; [|by apply HR|done]. apply stepped_idle; [apply Hr|done|lia].
  - apply Hf in Hs as (? & ? & ?); [|by eapply ready_tree|done].
    split_and!; [by eapply stepped_tree|done..].
Qed.

Definition fresh_entry (e : Entry) : Prop :=
  staged e = None ∧ quarantine e = None ∧ claimed e = false ∧ published e = false.
Definition unclaimed (e : Entry) : Prop := quarantine e = None ∧ claimed e = false ∧ published e = false.
(** A file to write is staged, and nothing else is. *)
Definition was_staged (e : Entry) : Prop :=
  (exists_ (final_state e) = false → staged e = None)
  ∧ (exists_ (final_state e) = true → is_Some (staged e)).
Definition was_claimed (e : Entry) : Prop := original e ≠ absent → claimed e = true.
Definition was_published (e : Entry) : Prop :=
  staged e = None ∧ (exists_ (final_state e) = true → published e = true).

Lemma stage_all es w r es' w' :
  Forall fresh_entry es → owners es w → for_each (λ _, stage o) (es, w) = (r, (es', w')) →
  owners es' w' ∧ Forall2 same es es' ∧ Forall unclaimed es'
  ∧ (r = Ok tt → Forall (λ e, unclaimed e ∧ was_staged e) es').
Proof.
  intros HP Hw He. eapply (each_rule _ fresh_entry) with (pre := []); [| |done..]; [by intros e (_ & ?)|].
  intros _ e w0 r0 e' w0' Hr (Hst & Hq & Hc & Hp) Hs.
  apply stage_step in Hs as (Hs & [s ->] & Hno & Hyes); [|done..].
  assert (unclaimed (set_staged s e)) by done. split_and!; [done..|]. intros Hok. split; [done|].
  split; [exact Hno|]. intros. by apply Hyes.
Qed.

Lemma commit_all es w r es' w' :
  Forall (λ e, unclaimed e ∧ was_staged e) es → owners es w →
  commit o (λ _ _, mret tt) (es, w) = (r, (es', w')) →
  owners es' w' ∧ Forall2 same es es'
  ∧ (r = Ok tt → Forall (λ e, quarantine e = None ∧ was_claimed e ∧ was_published e) es').
Proof.
  intros HP Hw. unfold commit, mbind, SE_bind. intros Hc.
  destruct (for_each (step _ _ "claim" _) (es, w)) as [r1 [es1 w1]] eqn:H1.
  eapply (step_rule _ _ _ (λ e, published e = false ∧ was_staged e ∧ was_claimed e) (λ _, True))
    in H1 as (Hw1 & Hs1 & _ & H1); [|done| |exact HP|done].
  2:{ intros e w0 r0 e' w0' Hr [(Hq & Hcl & Hp) Hst] Hcm.
    apply claim_step in Hcm as (Hs & Hst' & Hp' & Hok); [|done..]. split_and!; [done..|].
    intros Hr0. destruct (step_same _ _ _ _ Hs) as (_ & _ & _ & Ho & Hf).
    unfold was_staged, was_claimed in *. rewrite Hst', Ho, Hf. auto. }
  destruct r1 as [[]|]; [|by injection Hc as <- <- <-].
  destruct (for_each (step _ _ "publish" _) (es1, w1)) as [r2 [es2 w2]] eqn:H2.
  eapply (step_rule _ _ _ (λ e, was_claimed e ∧ was_published e) (λ _, True))
    in H2 as (Hw2 & Hs2 & _ & H2); [|done| |by apply H1|done].
  2:{ intros e w0 r0 e' w0' Hr (Hp & [Hno Hyes] & Hcl) Hpb.
    apply publish_step in Hpb as (Hs & Hcl' & Hnone & Hok); [|done]. split_and!; [done..|].
    intros Hr0. destruct (step_same _ _ _ _ Hs) as (_ & _ & _ & Ho & Hf).
    unfold was_claimed, was_published. rewrite Hcl', Ho, Hf. split; [done|]. split; [|by auto].
    destruct (exists_ (final_state e)) eqn:Hex.
    - apply (local_published w0'); [apply Hs|]. by auto.
    - rewrite (Hnone (Hno eq_refl)). by auto. }
  assert (Forall2 same es es2) as Hs12.
  { by etrans. }
  destruct r2 as [[]|]; [|by injection Hc as <- <- <-].
  eapply (step_rule _ _ _ (λ e, quarantine e = None ∧ was_claimed e ∧ was_published e) (λ _, True))
    in Hc as (Hw3 & Hs3 & _ & H3); [|done| |by apply H2|done].
  2:{ intros e w0 r0 e' w0' Hr Hq Hrl.
    apply release_step in Hrl as (Hs & [q ->] & Hok); [|done]. split_and!; [done..|]. auto. }
  split_and!; [done|by etrans|done].
Qed.

Lemma rollback_all_step es pre w es' w' :
  owners (pre ++ es) w → rollback_all o es w = ([], (es', w')) →
  owners (pre ++ es') w' ∧ Forall unclaimed es'.
Proof.
  revert pre w es' w'. induction es as [|e es IH]; intros pre w es' w' Hw; simpl.
  { intros [= <- <-]. split; [done|constructor]. }
  destruct (rollback_all o es w) as [fl [es1 w1]] eqn:H1. destruct (rollback o (e, w1)) as [[[]|er] [e2 w2]] eqn:H2.
  - intros [= -> <- <-]. rewrite cons_middle, app_assoc in Hw. apply (IH (pre ++ [e])) in H1 as [Hw1 Hu]; [|done].
    rewrite <-app_assoc in Hw1. simpl in Hw1.
    apply rollback_step in H2 as (Hs & Hp & Hc & Hq); [|eapply owners_ready; [exact Hw1|set_solver]].
    split; [by eapply owners_step|]. by constructor.
  - intros [= He _ _]. by destruct fl.
Qed.

(** Dropping the entries removes what is still staged, if the system lets it. *)
Lemma drop_all es w :
  Forall (local w) es → ∀ k, (∀ e n, e ∈ es → staged e = Some n → k ≠ (parent e, n)) →
  tree (foldl (drop_entry o) w es) !! k = tree w !! k.
Proof.
  intros _. revert w. induction es as [|e es IH]; intros w k Hk; [done|]. simpl.
  rewrite IH by (intros e' n He; apply Hk; by right).
  unfold drop_entry. destruct (staged e) as [n|] eqn:Hn; [|done].
  destruct (unlinkat o (parent e) n w) as [r w'] eqn:Hu. simpl.
  apply unlink_quiet in Hu as [_ [(er & _ & ->)|[_ ->]]]; [done|].
  apply lookup_delete_ne, not_eq_sym. apply Hk; [by left|done].
Qed.

(** Every system call of a commit may fail: then the homes are as they were,
    unless a roll-back was reported to have failed. *)
Definition restored (w : World) : Prop :=
  ∀ k, (∀ i, k.2 ≠ fresh o i) → state_of (at_key (tree w) k) = state_of (at_key fs0 k).

Lemma unclaimed_restored es w : owners es w → Forall unclaimed es → restored (foldl (drop_entry o) w es).
Proof.
  intros [Hl _ Hr] Hu k Hk. rewrite Forall_forall in Hl, Hu.
  assert (tree (foldl (drop_entry o) w es) !! k = tree w !! k) as Hd.
  { apply drop_all; [by apply Forall_forall|]. intros e n He Hn ->.
    destruct (local_private _ _ (Hl e He) n (staged_private _ _ Hn)) as [(i & _ & Hi) _]. by apply (Hk i). }
  unfold at_key. rewrite Hd. change (state_of (at_key (tree w) k) = state_of (at_key fs0 k)).
  destruct (decide (Exists (λ e, k = home e) es)) as [(e & He & ->)%Exists_exists|Hno].
  - destruct (Hu e He) as (_ & Hc & Hp). pose proof (local_home _ _ (Hl e He)) as Hh.
    rewrite Hp, Hc in Hh. rewrite Hh. symmetry. apply (local_base _ _ (Hl e He)).
  - unfold at_key. rewrite Hr; [done|]. intros e He [->|(n & Hn & ->)]%owned_spec.
    + apply Hno, Exists_exists. eauto.
    + destruct (local_private _ _ (Hl e He) n Hn) as [(i & _ & Hi) _]. by apply (Hk i).
Qed.
Lemma published_final es w :
  owners es w → Forall (λ e, quarantine e = None ∧ was_claimed e ∧ was_published e) es →
  (∀ e, e ∈ es → reads (tree w) (home e) (final_state e))
  ∧ ∀ k, (∀ e, e ∈ es → k ≠ home e) → tree w !! k = fs0 !! k.
Proof.
  intros [Hl _ Hr] HQ. rewrite Forall_forall in Hl, HQ. split.
  - intros e He. destruct (HQ e He) as (_ & Hc & _ & Hp). pose proof (local_home _ _ (Hl e He)) as Hh.
    destruct (published e) eqn:Hpub; [done|].
    assert (final_state e = absent) as ->.
    { apply (local_final _ _ (Hl e He)). by destruct (exists_ (final_state e)); [discriminate Hp|]. }
    destruct (claimed e) eqn:Hcl; [done|]. destruct (decide (original e = absent)) as [Ho|Ho]; [by rewrite <-Ho|].
    by apply Hc in Ho; congruence.
  - intros k Hk. apply Hr. intros e He [->|(n & Hn & ->)]%owned_spec; [by eapply Hk|].
    destruct (HQ e He) as (Hq & _ & Hs & _). unfold private in Hn. rewrite Hs, Hq in Hn.
    by apply elem_of_nil in Hn.
Qed.

Lemma transaction_atomic es w r w' :
  owners es w → Forall fresh_entry es → transaction o (λ _ _, mret tt) es w = (r, w') →
  match r with
  | Ok _ => (∀ e, e ∈ es → reads (tree w') (home e) (final_state e))
            ∧ ∀ k, (∀ e, e ∈ es → k ≠ home e) → tree w' !! k = fs0 !! k
  | Err (RollbackFailed _ _) => True
  | Err _ => restored w'
  end.
Proof.
  intros Hw HP. unfold transaction.
  destruct (for_each (λ _, stage o) (es, w)) as [r1 [es1 w1]] eqn:H1.
  apply stage_all in H1 as (Hw1 & Hs1 & Hu1 & H1); [|done..].
  destruct r1 as [[]|er].
  2:{ intros [= <- <-]. assert (restored (foldl (drop_entry o) w1 es1)) by by apply unclaimed_restored.
      by destruct er. }
  destruct (commit o _ (es1, w1)) as [r2 [es2 w2]] eqn:H2.
  apply commit_all in H2 as (Hw2 & Hs2 & H2); [|by apply H1|done].
  assert (Forall2 same es es2) as Hs by by etrans.
  destruct r2 as [[]|er].
  - intros [= <- <-]. specialize (H2 eq_refl). destruct (published_final _ _ Hw2 H2) as [Hf Hk].
    assert (∀ k, tree (foldl (drop_entry o) w2 es2) !! k = tree w2 !! k) as Hd.
    { intros k. apply drop_all; [apply Hw2|]. intros e n He Hn.
      rewrite Forall_forall in H2. destruct (H2 e He) as (_ & _ & ? & _). congruence. }
    split.
    + intros e He. apply list_elem_of_lookup in He as [i Hi].
      eapply Forall2_lookup_l in Hs as (e2 & Hi2 & Hp & Hn & _ & _ & Hfin); [|exact Hi].
      rewrite <-Hfin. eapply reads_node; [apply Hd|]. unfold home. rewrite <-Hp, <-Hn.
      apply Hf. by apply list_elem_of_lookup; eauto.
    + intros k Hke. rewrite Hd. apply Hk. intros e2 [i Hi2]%list_elem_of_lookup.
      eapply Forall2_lookup_r in Hs as (e & Hi & Hp & Hn & _); [|exact Hi2].
      unfold home. rewrite Hp, Hn. apply Hke. apply list_elem_of_lookup. eauto.
  - destruct (rollback_all o es2 w2) as [fl [es3 w3]] eqn:H3.
    destruct fl as [|f fl]; intros [= <- <-]; [|done].
    apply (rollback_all_step es2 []) in H3 as [Hw3 Hu3]; [|done].
    assert (restored (foldl (drop_entry o) w3 es3)) by by apply unclaimed_restored. by destruct er.
Qed.
End quiet.
