(* ===== verification/PatchFsProps.v ===== *)
(** * PatchFsProps: what planning and applying a patch guarantee

    The plan of a patch writes every path once; and the tool, when no other
    process interferes, applies the plan as a whole or leaves the files as they
    were, whichever system calls fail. *)

From stdpp Require Import sorting pretty.
From S2P Require Import Prelude Text PatchHunks PatchParse PatchParseProps PatchFs PatchTxn.

(** ** Paths *)
Lemma split_on_clean_one sep w : sep ∉ w → split_on sep w = [w].
Proof.
  induction w as [|c w IH]; [done|]. intros Hw. simpl. rewrite IH by set_solver.
  destruct (Ascii.eqb_spec c sep) as [->|]; [set_solver|done].
Qed.
Lemma split_on_cons sep w l :
  sep ∉ w → split_on sep (w ++ sep :: l) = w :: split_on sep l.
Proof.
  induction w as [|c w IH]; intros Hw; simpl.
  - by rewrite Ascii.eqb_refl.
  - rewrite IH by set_solver. destruct (Ascii.eqb_spec c sep) as [->|]; [set_solver|done].
Qed.
Lemma split_on_join sep parts :
  parts ≠ [] → Forall (λ w, sep ∉ w) parts → split_on sep (join sep parts) = parts.
Proof.
  intros Hne Hp. destruct parts as [|p ps]; [done|]. clear Hne. revert p Hp.
  induction ps as [|q ps IH]; intros p [Hp Hps]%Forall_cons; simpl.
  - rewrite app_nil_r. by apply split_on_clean_one.
  - rewrite split_on_cons by done. f_equal. by apply IH.
Qed.

Lemma confined_components p :
  confined p → p ≠ "" →
  components p ≠ [] ∧ bytes p = join "/"%char (bytes <$> components p).
Proof.
  intros [->|(parts & Hne & Hc & Hp)] Hp0; [done|].
  assert (components p = of_bytes <$> parts) as ->.
  { unfold components. rewrite Hp, split_on_join; [|done|eapply Forall_impl; [exact Hc|by intros w (_ & _ & _ & ? & _)]].
    clear Hp Hne. induction Hc as [|w parts (H0 & H1 & _) Hc IH]; [done|].
    rewrite fmap_cons, filter_cons_True; [by rewrite IH|]. split.
    - intros He. apply H0. by rewrite <-(bytes_of_bytes w), He.
    - intros He. apply H1. by rewrite <-(bytes_of_bytes w), He. }
  split; [by destruct parts|]. rewrite Hp. f_equal. rewrite <-list_fmap_compose. symmetry.
  rewrite <-(list_fmap_id parts) at 2. apply list_fmap_ext. intros. apply bytes_of_bytes.
Qed.
Lemma components_inj p q :
  confined p → confined q → p ≠ "" → q ≠ "" → components p = components q → p = q.
Proof.
  intros Hp Hq Hp0 Hq0 He. destruct (confined_components p) as [_ Hb]; [done..|].
  destruct (confined_components q) as [_ Hb']; [done..|]. apply (inj bytes). by rewrite Hb, Hb', He.
Qed.
Lemma components_split p : components p ≠ [] → components p = parent_of p ++ [file_name p].
Proof.
  intros Hne. unfold parent_of, file_name. destruct (components p) as [|c cs] using rev_ind; [done|].
  rewrite last_snoc, length_app. simpl. replace (length cs + 1 - 1)%nat with (length cs) by lia.
  by rewrite take_app_length.
Qed.

(** ** Walking *)
(** Every directory has one place, and the root none: what the system keeps, bind mounts aside. *)
Definition tree_ok (r : N) (fs : Tree) : Prop :=
  (∀ k1 k2 d, fs !! k1 = Some (Directory d) → fs !! k2 = Some (Directory d) → k1 = k2)
  ∧ ∀ k, fs !! k ≠ Some (Directory r).

Lemma walk_app fs d l d' l' :
  walk fs d l = Ok (Directory d') → walk fs d (l ++ l') = walk fs d' l'.
Proof.
  revert d. induction l as [|n l IH]; intros d; simpl; [by intros [= ->]|].
  destruct (fs !! (d, n)) as [[| | |]|]; try done; [destruct l; by intros|by apply IH|by destruct l].
Qed.
Lemma walk_snoc fs d l n d' :
  walk fs d (l ++ [n]) = Ok (Directory d') →
  ∃ d0, walk fs d l = Ok (Directory d0) ∧ fs !! (d0, n) = Some (Directory d').
Proof.
  revert d. induction l as [|m l IH]; intros d; simpl.
  - destruct (fs !! (d, n)) as [[| | |]|] eqn:Hn; try done. intros [= ->]. eauto.
  - destruct (fs !! (d, m)) as [[| | |]|]; try done; [by destruct l|by apply IH|by destruct l].
Qed.
Lemma walk_inj r fs l1 l2 d :
  tree_ok r fs → walk fs r l1 = Ok (Directory d) → walk fs r l2 = Ok (Directory d) → l1 = l2.
Proof.
  intros [Hone Hroot]. revert l2 d. induction l1 as [|n l1 IH] using rev_ind; intros l2 d H1 H2.
  - simpl in H1. injection H1 as <-. destruct l2 as [|m l2 _] using rev_ind; [done|].
    by apply walk_snoc in H2 as (d0 & _ & []%Hroot).
  - apply walk_snoc in H1 as (d1 & H1 & Hn). destruct l2 as [|m l2 _] using rev_ind.
    { simpl in H2. injection H2 as <-. by apply Hroot in Hn. }
    apply walk_snoc in H2 as (d2 & H2 & Hm). pose proof (Hone _ _ _ Hn Hm) as [= -> ->]. f_equal. by eapply IH.
Qed.
(** What is seen at a path whose directory is known. *)
Lemma walk_at fs r p d :
  components p ≠ [] → walk fs r (parent_of p) = Ok (Directory d) →
  state_of (walk fs r (components p)) = state_of (at_key fs (d, file_name p)).
Proof.
  intros Hp Hw. rewrite components_split, (walk_app _ _ _ _ _ Hw) by done. simpl. unfold at_key.
  by destruct (fs !! (d, file_name p)) as [[]|].
Qed.
Lemma walk_preserved fs fs' r l d :
  (∀ k d, fs !! k = Some (Directory d) → fs' !! k = Some (Directory d)) →
  walk fs r l = Ok (Directory d) → walk fs' r l = Ok (Directory d).
Proof.
  intros Hp. revert r. induction l as [|n l IH]; intros r; simpl; [done|].
  destruct (fs !! (r, n)) as [[| id | |]|] eqn:Hn; try done; [by destruct l| |by destruct l].
  apply Hp in Hn. rewrite Hn. apply IH.
Qed.

(** ** The plan *)
(** The paths a planned file writes, and what it leaves there. *)
Definition writes (p : Plan) : list (string * State) :=
  (if no_path (plan_new p) then [] else [(plan_new p, plan_state p)])
  ++ (if negb (no_path (plan_old p)) && negb (String.eqb (plan_old p) (plan_new p))
      then [(plan_old p, absent)] else []).
Definition insert_all (m : gmap string State) (l : list (string * State)) : gmap string State :=
  foldl (λ m ps, <[ps.1 := ps.2]> m) m l.

Lemma finals_insert m plans : foldl add_final m plans = insert_all m (plans ≫= writes).
Proof.
  revert m. induction plans as [|p plans IH]; intros m; [done|]. csimpl. rewrite IH.
  unfold insert_all. rewrite foldl_app. f_equal. unfold add_final, writes.
  by destruct (no_path (plan_new p)), (negb _ && negb _).
Qed.
Lemma insert_all_lookup l m k :
  NoDup l.*1 → insert_all m l !! k = (list_to_map l : gmap string State) !! k ∪ m !! k.
Proof.
  revert m. induction l as [|[k' s] l IH]; intros m; csimpl.
  - intros _. by rewrite lookup_empty, (left_id_L None _).
  - intros [Hk Hl]%NoDup_cons. unfold insert_all in *. rewrite IH by done.
    destruct (decide (k = k')) as [->|].
    + rewrite !lookup_insert_eq. rewrite (not_elem_of_list_to_map_1 (M := gmap string)) by done.
      by destruct (m !! k').
    + by rewrite !lookup_insert_ne.
Qed.
Lemma finals_lookup plans path s :
  NoDup (plans ≫= writes).*1 → finals_of plans !! path = Some s ↔ (path, s) ∈ (plans ≫= writes).
Proof.
  intros Hnd. unfold finals_of. rewrite finals_insert, insert_all_lookup, lookup_empty, (right_id_L None _) by done.
  symmetry. by apply elem_of_list_to_map.
Qed.

(** The paths of a file, as its targets and sources. *)
Definition targets_of (f : PatchFile) : list string :=
  if no_path (new_path f) || String.eqb (new_path f) (old_path f) then [] else [new_path f].
Definition sources_of (f : PatchFile) : list string := if no_path (old_path f) then [] else [old_path f].

Record claims (p : Paths) (fs : list PatchFile) : Prop := {
  claims_sources : NoDup (fs ≫= sources_of);
  claims_targets : NoDup (fs ≫= targets_of);
  claims_in_sources : ∀ path, path ∈ sources p ↔ path ∈ fs ≫= sources_of;
  claims_in_targets : ∀ path, path ∈ targets p ↔ path ∈ fs ≫= targets_of;
  claims_in_paths : ∀ path, path ∈ paths p ↔ path ∈ fs ≫= targets_of ∨ path ∈ fs ≫= sources_of;
}.
Lemma no_path_spec path : reflect (path = "") (no_path path).
Proof. apply String.eqb_spec. Qed.

Lemma claim_paths_ok p fs f p' : claims p fs → claim_paths p f = Ok p' → claims p' (fs ++ [f]).
Proof.
  intros [Hs Ht Hins Hint Hinp] Hc. unfold claim_paths in Hc. apply bind_Ok in Hc as (q & Hq & Hc).
  assert (Hsf : sources_of f = if no_path (old_path f) then [] else [old_path f]) by done.
  assert (Htf : targets_of f = if no_path (new_path f) || String.eqb (new_path f) (old_path f)
    then [] else [new_path f]) by done.
  assert (NoDup ((fs ≫= sources_of) ++ sources_of f)
    ∧ (∀ path, path ∈ sources q ↔ path ∈ (fs ≫= sources_of) ++ sources_of f) ∧ targets q = targets p
    ∧ (∀ path, path ∈ paths q ↔ path ∈ paths p ∨ path ∈ sources_of f)) as (Hs' & Hins' & Htq & Hpq).
  { revert Hq Hsf. destruct (no_path_spec (old_path f)) as [Ho|Ho]; intros Hq Hsf; rewrite Hsf.
    - injection Hq as <-. rewrite app_nil_r. split_and!; [done..|set_solver].
    - case_bool_decide as Hin; [done|]. injection Hq as <-. simpl. split_and!; [|set_solver..].
      apply NoDup_app. split_and!; [done| |apply NoDup_singleton]. set_solver. }
  assert (new_path f = old_path f → new_path f ≠ "" → new_path f ∈ sources_of f) as Hmod.
  { intros He Hn. rewrite Hsf, <-He. destruct (no_path_spec (new_path f)); [done|set_solver]. }
  assert (NoDup ((fs ≫= targets_of) ++ targets_of f) ∧ sources p' = sources q
    ∧ (∀ path, path ∈ targets p' ↔ path ∈ (fs ≫= targets_of) ++ targets_of f)
    ∧ (∀ path, path ∈ paths p' ↔ path ∈ paths q ∨ path ∈ targets_of f)) as (Ht' & Hsq & Hint' & Hpq').
  { revert Hc Htf Hmod. destruct (no_path_spec (new_path f)) as [Hn|Hn]; simpl; intros Hc -> Hmod.
    { injection Hc as <-. rewrite app_nil_r, Htq. split_and!; [done..|set_solver]. }
    revert Hc. destruct (String.eqb_spec (new_path f) (old_path f)) as [He|He]; intros Hc.
    { injection Hc as <-. simpl. rewrite app_nil_r, Htq. split_and!; [done..|].
      specialize (Hmod He Hn). set_solver. }
    case_bool_decide as Hin; [done|]. injection Hc as <-. simpl. rewrite Htq, Hint in *.
    split_and!; [|done|set_solver..]. apply NoDup_app. split_and!; [done| |apply NoDup_singleton]. set_solver. }
  split; rewrite ?bind_app; csimpl; rewrite ?app_nil_r; [done|done|by rewrite Hsq|done|].
  intros path. rewrite Hpq', Hpq, Hinp, !elem_of_app. tauto.
Qed.
Lemma claim_all fs fs0 p p' : claims p fs0 → foldM claim_paths p fs = Ok p' → claims p' (fs0 ++ fs).
Proof.
  revert fs0 p. induction fs as [|f fs IH]; intros fs0 p Hp; simpl; [intros [= <-]; by rewrite app_nil_r|].
  destruct (claim_paths p f) as [p1|] eqn:H1; [|done]. intros H.
  rewrite cons_middle, app_assoc. eapply IH; [|done]. by eapply claim_paths_ok.
Qed.
Lemma claims_empty : claims (mkPaths ∅ ∅ ∅) [].
Proof. split; simpl; [constructor|constructor|set_solver..]. Qed.

Lemma plan_file_paths states f p :
  plan_file states f = Ok p →
  plan_old p = old_path f ∧ plan_new p = new_path f ∧ exists_ (plan_state p) = true.
Proof. unfold plan_file. intros H. do 8 (apply bind_Ok in H as (? & _ & H)). by injection H as <-. Qed.
Lemma writes_paths states f p :
  plan_file states f = Ok p → (writes p).*1 ≡ₚ targets_of f ++ sources_of f.
Proof.
  intros (Ho & Hn & _)%plan_file_paths. unfold writes, targets_of, sources_of. rewrite Ho, Hn.
  destruct (no_path_spec (new_path f)) as [Hn0|Hn0], (no_path_spec (old_path f)) as [Ho0|Ho0]; simpl; try done.
  - rewrite Hn0. by destruct (String.eqb_spec (old_path f) "").
  - destruct (String.eqb_spec (new_path f) (old_path f)) as [He|]; [|done]. congruence.
  - rewrite String.eqb_sym. destruct (String.eqb_spec (new_path f) (old_path f)) as [He|]; simpl; [by rewrite He|done].
Qed.
Lemma plans_paths states fs plans :
  Forall2 (λ f p, plan_file states f = Ok p) fs plans →
  (plans ≫= writes).*1 ≡ₚ (fs ≫= targets_of) ++ (fs ≫= sources_of).
Proof.
  induction 1 as [|f p fs plans Hp Hfs IH]; [done|]. csimpl.
  rewrite fmap_app, (writes_paths _ _ _ Hp), IH. solve_Permutation.
Qed.
Lemma sorted_spec s : NoDup (sorted s) ∧ ∀ path, path ∈ sorted s ↔ path ∈ s.
Proof.
  unfold sorted. split.
  - rewrite merge_sort_Permutation. apply NoDup_elements.
  - intros path. rewrite merge_sort_Permutation. apply elem_of_elements.
Qed.

Section quiet.
Context (o : Outside) (Hquiet : ∀ n fs, others o n fs = fs).

(** What is seen at a path of the workspace. *)
Definition sees (w : World) (path : string) (s : State) : Prop :=
  state_of (walk (tree w) (root o) (components path)) = Ok s.

Lemma inspect_quiet path w s w' :
  inspect o path w = (Ok s, w') → tree w' = tree w ∧ drawn w' = drawn w ∧ sees w path s.
Proof.
  unfold inspect. intros (Hd & Ht & [[? ?]|Hs])%(look_quiet o Hquiet); [done|]. by unfold sees.
Qed.
Lemma inspect_tree path w r w' : inspect o path w = (r, w') → tree w' = tree w ∧ drawn w' = drawn w.
Proof. intros (Hd & Ht & _)%(look_quiet o Hquiet). done. Qed.

Lemma read_states_quiet total l w r w' :
  read_states o total l w = (r, w') →
  tree w' = tree w ∧ drawn w' = drawn w
  ∧ ∀ states, r = Ok states → states.*1 = l ∧ Forall (λ ps, sees w ps.1 ps.2) states.
Proof.
  revert total w r w'. induction l as [|path l IH]; intros total w r w'; simpl.
  { intros [= <- <-]. split_and!; [done..|]. by intros ? [= <-]. }
  destruct (inspect o path w) as [[s|e] w1] eqn:H1.
  2:{ intros [= <- <-]. apply inspect_tree in H1 as [? ?]. by split_and!. }
  apply inspect_quiet in H1 as (Ht & Hd & Hs). case_match; [by intros [= <- <-]|].
  destruct (read_states _ _ l w1) as [[states|e] w2] eqn:H2;
    apply IH in H2 as (Ht2 & Hd2 & Hst); intros [= <- <-]; (split_and!; [congruence..|]); [|done].
  intros ? [= <-]. destruct (Hst _ eq_refl) as [<- Hall]. split; [done|]. constructor; [done|].
  eapply Forall_impl; [exact Hall|]. intros ps. unfold sees. by rewrite Ht.
Qed.

(** A plan writes each path once, the paths it has read are those it writes,
    and every file is planned from what was read. *)
Record planned (w : World) (fs : list PatchFile) (plans : list Plan) (states : list (string * State)) : Prop := {
  planned_files : Forall2 (λ f p, plan_file states f = Ok p) fs plans;
  planned_once : NoDup (plans ≫= writes).*1;
  planned_states : NoDup states.*1;
  planned_paths : ∀ path, path ∈ states.*1 ↔ path ∈ (plans ≫= writes).*1;
  planned_seen : Forall (λ ps, sees w ps.1 ps.2) states;
}.
Lemma plan_quiet fs w r w' :
  plan o fs w = (r, w') → tree w' = tree w ∧ drawn w' = drawn w
  ∧ ∀ plans states, r = Ok (plans, states) → planned w fs plans states.
Proof.
  unfold plan, mbind, SE_bind, lift, mret, SE_ret. intros H.
  destruct (foldM claim_paths _ fs) as [ps|e] eqn:Hc; [|by injection H as <- <-].
  apply (claim_all _ []) in Hc as [Hs Ht Hins Hint Hinp]; [|apply claims_empty]. simpl in *.
  destruct (sorted_spec (targets ps)) as [_ Hst]. destruct (sorted_spec (paths ps)) as [Hnd Hsp].
  destruct (filter _ (sorted (targets ps))) as [|t ts] eqn:Hf; [|by injection H as <- <-].
  destruct (foldM check_ancestors [] fs) as [an|e]; [|by injection H as <- <-].
  destruct (read_states o 0 (sorted (paths ps)) w) as [[states|e] w1] eqn:Hr;
    apply read_states_quiet in Hr as (Htr & Hdr & Hstates);
    [|by injection H as <- <-].
  destruct (Hstates _ eq_refl) as [Hfst Hseen].
  destruct (mapR (plan_file states) fs) as [plans|e] eqn:Hm; injection H as <- <-; [|done].
  split_and!; [done..|]. intros ? ? [= <- <-]. apply mapR_Ok in Hm.
  pose proof (plans_paths _ _ _ Hm) as Hperm.
  assert (NoDup ((fs ≫= targets_of) ++ (fs ≫= sources_of))) as Hnd2.
  { apply NoDup_app. split_and!; [done| |done]. intros path Hpt Hps.
    assert (path ∈ filter (λ t, t ∈ sources ps) (sorted (targets ps))) as Hin.
    { apply list_elem_of_filter. rewrite Hins, Hst, Hint. done. }
    rewrite Hf in Hin. by apply elem_of_nil in Hin. }
  split; [done|by rewrite Hperm|by rewrite Hfst| |done].
  intros path. by rewrite Hfst, Hperm, Hsp, Hinp, elem_of_app.
Qed.

(** ** Opening the entries *)
Lemma at_key_no_panic fs key m : state_of (at_key fs key) ≠ Err (Panic m).
Proof.
  unfold at_key, state_of. destruct (fs !! key) as [[links content mode| | |]|]; simpl; try done.
  unfold ensure. by repeat case_match.
Qed.
Definition opened (w : World) (finals : gmap string State) (ps : string * State) (e : Entry) : Prop :=
  walk (tree w) (root o) (parent_of ps.1) = Ok (Directory (parent e))
  ∧ name e = file_name ps.1 ∧ original e = ps.2 ∧ finals !! ps.1 = Some (final_state e)
  ∧ reads (tree w) (home e) (original e) ∧ fresh_entry e.

Lemma check_states_quiet states w r w' :
  check_states o states w = (r, w') → tree w' = tree w ∧ drawn w' = drawn w.
Proof.
  revert w. induction states as [|[path s] states IH]; intros w; simpl; [by intros [= _ <-]|].
  unfold unchanged, mbind, SE_bind, lift. destruct (inspect o path w) as [[a|e] w1] eqn:H1;
    apply inspect_tree in H1 as [Ht Hd]; [|by intros [= <- <-]].
  destruct (ensure _ _); [|by intros [= <- <-]]. intros [? ?]%IH. split; congruence.
Qed.
Lemma open_parent_quiet path w r w' :
  open_parent o path w = (r, w') → tree w' = tree w ∧ drawn w' = drawn w
  ∧ ∀ d, r = Ok d → walk (tree w) (root o) (parent_of path) = Ok (Directory d).
Proof.
  unfold open_parent. destruct (look o _ w) as [r1 w1] eqn:H1.
  apply (look_quiet o Hquiet) in H1 as (Hd & Ht & Hr).
  destruct r1 as [[| id | |]|e]; intros [= <- <-]; (split_and!; [done..|]); try done.
  intros d [= <-]. by destruct Hr as [[? ?]|Hr].
Qed.
Lemma open_entries_quiet finals states w r w' :
  NoDup states.*1 → (∀ path, path ∈ states.*1 → is_Some (finals !! path)) →
  open_entries o finals states w = (r, w') →
  tree w' = tree w ∧ drawn w' = drawn w ∧ (∀ m, r ≠ Err (Panic m))
  ∧ ∀ es, r = Ok es → Forall2 (opened w finals) states es.
Proof.
  revert finals w r w'. induction states as [|[path s] states IH]; intros finals w r w' Hnd Hfin; simpl.
  { intros [= <- <-]. split_and!; [done..|]. intros es [= <-]. constructor. }
  apply NoDup_cons in Hnd as [Hp Hnd]. simpl in Hp.
  unfold unchanged, mbind, SE_bind, lift, mret, SE_ret. intros H.
  destruct (open_parent o path w) as [[d|e] w1] eqn:H1.
  2:{ injection H as <- <-. pose proof H1 as H1'. apply open_parent_quiet in H1 as (? & ? & _).
      split_and!; [done..| |done]. intros m [= ->]. unfold open_parent in H1'.
      destruct (look o _ w) as [[[]|] ?]; congruence. }
  apply open_parent_quiet in H1 as (Ht1 & Hd1 & Hw1). specialize (Hw1 d eq_refl).
  destruct (inspect_at o d (file_name path) w1) as [[a|e] w2] eqn:H2;
    apply (look_quiet o Hquiet) in H2 as (Hd2 & Ht2 & Hr2).
  2:{ injection H as <- <-. split_and!; [congruence..| |done]. intros m [= ->].
      destruct Hr2 as [[? [= ]]|Hr2]. by apply (at_key_no_panic (tree w1) (d, file_name path) m). }
  destruct (bool_decide (a = s)) eqn:Has; simpl in H; [|injection H as <- <-; by split_and!; congruence].
  apply bool_decide_eq_true in Has as ->.
  destruct (Hfin path) as [final Hf]; [by left|]. rewrite Hf in H. simpl in H.
  destruct (open_entries o (delete path finals) states w2) as [r3 w3] eqn:H3.
  apply IH in H3 as (Ht3 & Hd3 & Hp3 & He3); [|done|].
  2:{ intros q Hq. rewrite lookup_delete_ne; [|by intros ->]. apply Hfin. by right. }
  assert (tree w3 = tree w ∧ drawn w3 = drawn w) as [Ht Hd] by (split; congruence).
  destruct r3 as [es|e]; injection H as <- <-.
  2:{ split_and!; [done..| |done]. intros m [= ->]. by apply (Hp3 m). }
  split_and!; [done..|].
  intros es' Hes. apply Ok_inj in Hes as <-. constructor.
  - split_and!; try done. unfold reads, home. simpl. destruct Hr2 as [[? ?]|Hr2]; [done|].
    by rewrite <-Ht1, <-Hr2.
  - eapply Forall2_impl; [by apply He3|]. intros ps e (? & ? & ? & Hl & ? & ?). unfold opened.
    rewrite Ht2, Ht1 in *. apply lookup_delete_Some in Hl as [_ Hl]. by split_and!.
Qed.

(** ** The transaction on the opened entries *)
Context (Hfresh : Inj (=) (=) (fresh o)).
Definition proper (path : string) : Prop :=
  confined path ∧ path ≠ "" ∧ ∀ i, file_name path ≠ fresh o i.
Definition settled_state (s : State) : Prop := exists_ s = false → s = absent.

Lemma fresh_owned e : fresh_entry e → owned e = [home e].
Proof. intros (Hs & Hq & _). unfold owned, private. by rewrite Hs, Hq. Qed.
Lemma opened_owners w finals states es :
  tree_ok (root o) (tree w) → NoDup states.*1 → Forall (λ ps, proper ps.1) states →
  map_Forall (λ _, settled_state) finals → Forall2 (opened w finals) states es →
  owners o (tree w) es w ∧ Forall fresh_entry es.
Proof.
  intros Htree Hnd Hprop Hfin Hop. assert (Forall fresh_entry es) as Hfr.
  { eapply Forall2_Forall_r; [exact Hop|]. apply Forall_forall. by intros ps _ e (_ & _ & _ & _ & _ & ?). }
  split; [|done]. pose proof (proj1 (Forall_lookup _ _) Hprop) as Hprop'.
  pose proof (proj1 (Forall_lookup _ _) Hfr) as Hfr'. split.
  - apply Forall_lookup. intros i e Hi. eapply Forall2_lookup_r in Hop as (ps & Hps & Hop); [|done].
    destruct Hop as (Hw & Hn & Ho & Hf & Hr & Hfe). pose proof Hfe as (Hs & Hq & Hc & Hp).
    destruct (Hprop' i ps Hps) as (_ & _ & Hnf). split; try done.
    + intros j. by rewrite Hn.
    + by apply (Hfin ps.1).
    + unfold private. rewrite Hs, Hq. by intros n ?%elem_of_nil.
    + by rewrite Hs.
    + by rewrite Hq.
    + by rewrite Hc.
    + by rewrite Hp.
    + by rewrite Hp, Hc.
  - intros i j e1 e2 k H1 H2. rewrite !fresh_owned, !list_elem_of_singleton by (by eapply Hfr').
    intros -> Hhome.
    eapply Forall2_lookup_r in Hop as Hop1; [|exact H1]. eapply Forall2_lookup_r in Hop as Hop2; [|exact H2].
    destruct Hop1 as (ps1 & Hi & Hw1 & Hn1 & _), Hop2 as (ps2 & Hj & Hw2 & Hn2 & _).
    unfold home in Hhome. injection Hhome as Hpar Hname. rewrite Hpar in Hw1.
    pose proof (walk_inj _ _ _ _ _ Htree Hw1 Hw2) as Hpo.
    destruct (Hprop' _ _ Hi) as (Hc1 & He1 & _), (Hprop' _ _ Hj) as (Hc2 & He2 & _).
    assert (ps1.1 = ps2.1) as Heq.
    { apply components_inj; [done..|]. destruct (confined_components _ Hc1 He1) as [Hne1 _].
      destruct (confined_components _ Hc2 He2) as [Hne2 _].
      rewrite (components_split _ Hne1), (components_split _ Hne2). congruence. }
    rewrite NoDup_alt in Hnd. apply (Hnd i j (ps1.1)); rewrite list_lookup_fmap; [by rewrite Hi|by rewrite Hj, Heq].
  - done.
Qed.

(** What the transaction of a plan guarantees. *)
Definition applied (w w' : World) (plans : list Plan) : Prop :=
  (∀ path s, (path, s) ∈ plans ≫= writes → sees w' path s)
  ∧ ∀ k, (∀ path, path ∈ (plans ≫= writes).*1 → ∀ d,
            walk (tree w) (root o) (parent_of path) = Ok (Directory d) → k ≠ (d, file_name path)) →
         tree w' !! k = tree w !! k.
Definition untouched (w w' : World) : Prop :=
  ∀ k, (∀ i, k.2 ≠ fresh o i) → state_of (at_key (tree w') k) = state_of (at_key (tree w) k).

Lemma writes_settled plans states fs :
  Forall2 (λ f p, plan_file states f = Ok p) fs plans →
  Forall (λ ps, settled_state ps.2) (plans ≫= writes).
Proof.
  induction 1 as [|f p fs plans Hp Hfs IH]; [constructor|]. csimpl. apply Forall_app. split; [|done].
  apply plan_file_paths in Hp as (_ & _ & Hex). unfold writes.
  destruct (no_path (plan_new p)), (negb _ && negb _); repeat constructor; unfold settled_state; simpl; congruence.
Qed.
Lemma restored_untouched w w' : restored o (tree w) w' → untouched w w'.
Proof. intros Hr k Hk. by apply Hr. Qed.
Lemma same_tree_untouched w w' : tree w' = tree w → untouched w w'.
Proof. intros Ht k _. by rewrite Ht. Qed.

Lemma transaction_applied w w' fs plans states es :
  tree_ok (root o) (tree w) → planned w fs plans states → Forall (λ ps, proper ps.1) states →
  Forall2 (opened w (finals_of plans)) states es →
  (∀ e, e ∈ es → reads (tree w') (home e) (final_state e)) →
  (∀ k, (∀ e, e ∈ es → k ≠ home e) → tree w' !! k = tree w !! k) →
  applied w w' plans.
Proof.
  intros Htree Hpl Hprop Hop Hhome Hrest. rewrite Forall_lookup in Hprop.
  assert (∀ k d, tree w !! k = Some (Directory d) → tree w' !! k = Some (Directory d)) as Hdir.
  { intros k d Hk. rewrite Hrest; [done|]. intros e [i Hi]%list_elem_of_lookup ->.
    eapply Forall2_lookup_r in Hop as (ps & _ & _ & _ & _ & _ & Hr & _); [|exact Hi].
    unfold reads, at_key in Hr. by rewrite Hk in Hr. }
  split.
  - intros path s Hs. assert (path ∈ states.*1) as Hin.
    { apply (planned_paths _ _ _ _ Hpl). apply list_elem_of_fmap. by exists (path, s). }
    apply list_elem_of_fmap in Hin as (ps & -> & [i Hi]%list_elem_of_lookup).
    eapply Forall2_lookup_l in Hop as (e & He & Hw & Hn & _ & Hf & _); [|exact Hi].
    destruct (Hprop _ _ Hi) as (Hc & Hne & _). destruct (confined_components _ Hc Hne) as [Hcs _].
    apply finals_lookup in Hf; [|apply Hpl].
    assert (s = final_state e) as ->.
    { apply finals_lookup in Hs; [|apply Hpl]. apply finals_lookup in Hf; [|apply Hpl]. congruence. }
    unfold sees. rewrite (walk_at _ _ _ (parent e)); [|done|by apply (walk_preserved (tree w))].
    rewrite <-Hn. apply Hhome. apply list_elem_of_lookup. eauto.
  - intros k Hk. apply Hrest. intros e [i Hi]%list_elem_of_lookup ->.
    eapply Forall2_lookup_r in Hop as (ps & Hps & Hw & Hn & _); [|exact Hi].
    eapply (Hk ps.1); [|exact Hw|by unfold home; rewrite Hn].
    apply (planned_paths _ _ _ _ Hpl), list_elem_of_fmap. exists ps. split; [done|].
    apply list_elem_of_lookup. eauto.
Qed.

Lemma apply_plans_atomic w w1 w' fs plans states r :
  tree_ok (root o) (tree w) → planned w fs plans states → tree w1 = tree w →
  Forall (λ ps, proper ps.1) states → apply_plans o plans states w1 = (r, w') →
  match r with
  | Ok _ => applied w w' plans
  | Err (RollbackFailed _ _) => True
  | Err _ => untouched w w'
  end.
Proof.
  intros Htree Hpl Ht1 Hprop. unfold apply_plans, apply_inner, mbind, SE_bind. intros H.
  assert (∀ e w2, tree w2 = tree w → match e with RollbackFailed _ _ => True | _ => untouched w w2 end) as Hun.
  { intros e w2 Ht2. assert (untouched w w2) by by apply same_tree_untouched. by destruct e. }
  destruct (check_states o states w1) as [[[]|e] w2] eqn:H2; apply check_states_quiet in H2 as [Ht2 _];
    [|injection H as <- <-; apply Hun; congruence].
  destruct (open_entries o (finals_of plans) states w2) as [r3 w3] eqn:H3.
  apply open_entries_quiet in H3 as (Ht3 & Hd3 & _ & Hop); [|apply Hpl|].
  2:{ intros path (ps & -> & Hps)%(planned_paths _ _ _ _ Hpl)%list_elem_of_fmap.
      exists ps.2. apply finals_lookup; [apply Hpl|by destruct ps]. }
  destruct r3 as [es|e]; [|injection H as <- <-; apply Hun; congruence].
  specialize (Hop es eq_refl). assert (tree w2 = tree w) as Ht by congruence.
  assert (Forall2 (opened w3 (finals_of plans)) states es) as Hop3.
  { eapply Forall2_impl; [exact Hop|]. unfold opened. by rewrite Ht3. }
  assert (tree w3 = tree w) as Htw by congruence.
  apply opened_owners in Hop3 as [How Hfr]; [|by rewrite Htw|apply Hpl|done|].
  2:{ intros path s Hs. apply finals_lookup in Hs; [|apply Hpl].
      pose proof (writes_settled _ _ _ (planned_files _ _ _ _ Hpl)) as Hset. rewrite Forall_forall in Hset.
      by apply (Hset (path, s)). }
  apply (transaction_atomic o Hquiet (tree w3) Hfresh) in H; [|done..]. rewrite Htw in H.
  destruct r as [[]|[]]; try done; try by apply restored_untouched.
  destruct H as [Hf Hr]. eapply transaction_applied; try done.
  eapply Forall2_impl; [exact Hop|]. unfold opened. by rewrite Ht.
Qed.

(** ** The tool *)
Context (quote : string → string) (report_size : list Plan → text → bool → N).

Lemma planned_proper w fs plans states rl :
  planned w fs plans states → Forall (file_ok rl) fs →
  (∀ f i, f ∈ fs → file_name (old_path f) ≠ fresh o i ∧ file_name (new_path f) ≠ fresh o i) →
  Forall (λ ps, proper ps.1) states.
Proof.
  intros Hpl Hok Hnames. apply Forall_forall. intros ps Hps.
  assert (ps.1 ∈ (plans ≫= writes).*1) as Hin.
  { apply (planned_paths _ _ _ _ Hpl), list_elem_of_fmap. eauto. }
  rewrite (plans_paths _ _ _ (planned_files _ _ _ _ Hpl)), elem_of_app, !list_elem_of_bind in Hin.
  rewrite Forall_forall in Hok. unfold targets_of, sources_of in Hin.
  destruct Hin as [(f & Hin & Hf)|(f & Hin & Hf)]; destruct (file_paths _ _ (Hok f Hf)) as [Ho Hn].
  - destruct (no_path_spec (new_path f)); simpl in Hin; [by apply elem_of_nil in Hin|].
    destruct (String.eqb _ _); [by apply elem_of_nil in Hin|]. apply list_elem_of_singleton in Hin as ->.
    split_and!; [done..|]. intros i. by destruct (Hnames f i).
  - destruct (no_path_spec (old_path f)); [by apply elem_of_nil in Hin|].
    apply list_elem_of_singleton in Hin as ->. split_and!; [done..|]. intros i. by destruct (Hnames f i).
Qed.

(** C12: A patch is applied as a whole or not at all.  When no other process changes the workspace,
    and whichever system calls fail: if the tool reports success, every path of its plan holds what
    was planned, each file being planned from what was read, and nothing else has changed; if it
    reports an error, every file is as it was (private leftovers aside), unless the error says that
    the roll-back failed; and a dry run changes nothing. *)
Theorem patch_all_or_nothing patch dry_run files w r w' :
  parse quote patch = Some (Ok files) →
  tree_ok (root o) (tree w) →
  (∀ f i, f ∈ files → file_name (old_path f) ≠ fresh o i ∧ file_name (new_path f) ≠ fresh o i) →
  run o quote report_size patch dry_run w = (r, w') →
  (dry_run = true → tree w' = tree w) ∧
  match r with
  | Ok plans => (∃ states, planned w files plans states) ∧ (dry_run = false → applied w w' plans)
  | Err (Applying (RollbackFailed _ _)) => True
  | Err _ => untouched w w'
  end.
Proof.
  intros Hp Htree Hnames. destruct (parse_accepted quote patch) as (r0 & Hr0 & Hacc).
  rewrite Hp in Hr0. injection Hr0 as <-. destruct (Hacc files eq_refl) as (_ & _ & rl & Hok).
  unfold run, mbind, SE_bind, lift, mret, SE_ret. rewrite Hp.
  destruct (plan o files w) as [[[plans states]|e] w1] eqn:Hplan; apply plan_quiet in Hplan as (Ht & _ & Hpl).
  2:{ intros [= <- <-]. assert (untouched w w1) by by apply same_tree_untouched. split; [done|].
      by destruct e as [| | | |[]]. }
  specialize (Hpl _ _ eq_refl). destruct (ensure _ _) as [[]|e] eqn:Hsize.
  2:{ intros [= <- <-]. apply ensure_Err in Hsize as [_ <-]. split; [done|]. by apply same_tree_untouched. }
  destruct dry_run; [intros [= <- <-]; split_and!; [done|by eauto|done]|]. unfold on_world.
  destruct (apply_plans o plans states w1) as [r2 w2] eqn:Ha.
  eapply apply_plans_atomic in Ha; [|done..|by eapply planned_proper].
  destruct r2 as [[]|e]; intros [= <- <-]; (split; [done|]); [split; [by eauto|done]|]. by destruct e.
Qed.
End quiet.

(** ** A concrete workspace *)
Definition is_directory (n : Node) : bool := match n with Directory _ => true | _ => false end.
Definition files_only (fs : Tree) : bool := forallb (λ kn, negb (is_directory kn.2)) (map_to_list fs).
Lemma files_only_ok r fs : files_only fs = true → tree_ok r fs.
Proof.
  unfold files_only. rewrite forallb_forall. intros Hf.
  assert (∀ k d, fs !! k ≠ Some (Directory d)) as Hno.
  { intros k d Hk%elem_of_map_to_list%list_elem_of_In%Hf. done. }
  split; [|done]. intros k1 k2 d Hk. by apply Hno in Hk.
Qed.

Definition demo_line (s : string) : text := bytes s ++ [nl].
Definition demo_patch : text :=
  demo_line "*** Begin Patch" ++ demo_line "*** Update File: a" ++ demo_line "-old a" ++ demo_line "+new a"
  ++ demo_line "*** Delete File: b" ++ demo_line "*** Add File: c" ++ demo_line "+new c"
  ++ demo_line "*** End Patch".
Definition demo_world : World :=
  mkWorld {[ (0%N, "a") := Regular 1 (demo_line "old a") 420; (0%N, "b") := Regular 1 (demo_line "old b") 420 ]}
    0 0 [].
(** The root directory 0, nobody else, and one system call that may fail. *)
Definition demo_outside (failing : option nat) : Outside :=
  mkOutside 0 (λ n, if bool_decide (failing = Some n) then Some "EIO" else None) (λ _ fs, fs) (λ _, 1%nat)
    (λ n, ".agentsdk-patch-" +:+ pretty n) 18.
Definition demo_run (failing : option nat) : result PatchError (list Plan) * World :=
  run (demo_outside failing) id (λ _ _ _, 100%N) demo_patch false demo_world.
#[local] Instance demo_fresh failing : Inj (=) (=) (fresh (demo_outside failing)).
Proof. intros m n Hmn. by apply (inj pretty), (inj (λ s, ".agentsdk-patch-" +:+ s)). Qed.
Definition demo_files : list PatchFile :=
  match parse id demo_patch with Some (Ok files) => files | _ => [] end.
Lemma demo_names failing f i :
  f ∈ demo_files → file_name (old_path f) ≠ fresh (demo_outside failing) i
                   ∧ file_name (new_path f) ≠ fresh (demo_outside failing) i.
Proof.
  intros Hf. assert (forallb (λ f, negb (starts_with (bytes ".") (bytes (file_name (old_path f))))
    && negb (starts_with (bytes ".") (bytes (file_name (new_path f))))) demo_files = true) as Hall
    by by vm_compute.
  rewrite forallb_forall in Hall. apply list_elem_of_In, Hall in Hf. bools. simpl.
  split; intros He; rewrite He in *; done.
Qed.
Lemma demo_parse : parse id demo_patch = Some (Ok demo_files).
Proof. vm_compute. reflexivity. Qed.
Lemma demo_tree r : tree_ok r (tree demo_world).
Proof. apply files_only_ok. vm_compute. reflexivity. Qed.
Lemma patch_all_or_nothing_witness :
  (∃ plans w', demo_run None = (Ok plans, w') ∧ applied (demo_outside None) demo_world w' plans)
  ∧ ∃ w', demo_run (Some 30) = (Err (Applying (Errno "EIO")), w')
      ∧ untouched (demo_outside (Some 30)) demo_world w'.
Proof.
  unfold demo_run. split.
  - destruct (run (demo_outside None) _ _ _ _ _) as [r w'] eqn:Hrun.
    pose proof (patch_all_or_nothing (demo_outside None) (λ _ _, eq_refl) (demo_fresh None) _ _ _ _
      demo_files _ _ _ demo_parse (demo_tree _) (demo_names None) Hrun) as [_ H].
    destruct r as [plans|e]; [|vm_compute in Hrun; discriminate Hrun].
    exists plans, w'. split; [done|]. by apply H.
  - destruct (run (demo_outside (Some 30)) _ _ _ _ _) as [r w'] eqn:Hrun.
    pose proof (patch_all_or_nothing (demo_outside (Some 30)) (λ _ _, eq_refl) (demo_fresh (Some 30)) _ _ _ _
      demo_files _ _ _ demo_parse (demo_tree _) (demo_names (Some 30)) Hrun) as [_ H].
    assert (r = Err (Applying (Errno "EIO"))) as ->.
    { change r with (r, w').1. rewrite <-Hrun. vm_compute. reflexivity. }
    exists w'. by split.
Defined.
