(* ===== verification/EditTool.v ===== *)
(** * EditTool: writing a file and replacing a string in it

    The tools [Edit] ([crates/adk-tools/src/edit.rs]) and [Write] ([write.rs]), over
    the tree of [PatchFs].  The finder of memchr is an argument;
    so are the system's view of a path that is not below the workspace's descriptor
    ([Paths]).  A report says what was done; its wording and its diff are not modelled. *)

From S2P Require Import Prelude Core Text PatchFs.

Definition MAX_FILE : N := 5 * 1024 * 1024.

(** A [PathBuf], without empty and [.] components. *)
Record PathBuf := mkPath { rooted : bool; parts : list string }.
Definition path_of (s : string) : PathBuf := mkPath (String.prefix "/" s) (components s).
Definition join_path (dir p : PathBuf) : PathBuf :=
  if rooted p then p else mkPath (rooted dir) (parts dir ++ parts p).
(** [Path::file_name] and [Path::parent]; there is no name after the root or [..]. *)
Definition path_name (p : PathBuf) : option string :=
  match last (parts p) with
  | Some n => if String.eqb n ".." then None else Some n
  | None => None
  end.
Definition path_parent (p : PathBuf) : PathBuf := mkPath (rooted p) (take (length (parts p) - 1) (parts p)).
Definition starts_with (p root : PathBuf) : bool :=
  Bool.eqb (rooted p) (rooted root) && bool_decide (take (length (parts root)) (parts p) = parts root).

(** [clean] *)
Definition clean_step (root : bool) (done : list string) (part : string) : list string :=
  if String.eqb part ".." then
    match path_name (mkPath root done) with
    | Some _ => take (length done - 1) done
    | None => if root then done else done ++ [part]
    end
  else done ++ [part].
Definition clean (p : PathBuf) : PathBuf := mkPath (rooted p) (foldl (clean_step (rooted p)) [] (parts p)).

(** The tool's errors: a message, or a message with the error of the system. *)
Inductive EditError := Said (message : string) | Failed (doing : string) (error : IoError).
Definition resolving : string := "Error resolving file path".
Definition reading : string := "Error reading file".
Definition writing : string := "Error writing file".

Record Input := mkInput { file_path : string; old_string : text; new_string : text; replace_all : bool }.
Record Report := mkReport {
  report_path : PathBuf;
  report_count : nat;
  report_all : bool;
  diff_offsets : list nat;
  diff_truncated : bool;
}.

(** [memchr::memmem::Finder::find_iter]: the offsets of the needle, which do not
    overlap, from left to right. *)
Class Finder := find_iter : text → text → list nat.
Definition occurs_at (old content : text) (i : nat) : Prop := take (length old) (drop i content) = old.
Fixpoint leftmost (old content : text) (from : nat) (offsets : list nat) : Prop :=
  match offsets with
  | [] => ∀ i, from <= i → ¬ occurs_at old content i
  | o :: offsets => from <= o ∧ o + length old <= length content ∧ occurs_at old content o
      ∧ (∀ i, from <= i < o → ¬ occurs_at old content i) ∧ leftmost old content (o + length old) offsets
  end.
Class FinderLaws `{Finder} : Prop :=
  find_iter_spec old content : old ≠ [] → leftmost old content 0 (find_iter old content).

(** What the system says of paths, and how it makes directories; the first three
    only look. *)
Record Paths := mkPaths {
  absolute : PathBuf → SE World IoError PathBuf;
  canonicalize : PathBuf → SE World IoError PathBuf;
  is_symlink : PathBuf → SE World IoError bool;
  locate : Tree → PathBuf → result IoError Key;
  create_dir_all : PathBuf → SE World IoError unit;
  new_directory : Tree → N;
}.

Section edit.
Context {F : Finder} (o : Outside) (paths : Paths).
Notation IO := (SE World IoError).
Notation M := (SE World EditError).
Definition told {A} (doing : string) (m : IO A) : M A := λ w,
  match m w with (Ok a, w) => (Ok a, w) | (Err e, w) => (Err (Failed doing e), w) end.
Definition attempted {A} (m : IO A) : IO (result IoError A) := λ w, let '(r, w) := m w in (Ok r, w).
Definition check (b : bool) (m : string) : M unit := lift (ensure b (Said m)).
(** [metadata] of an open file, or the reading of its content. *)
Definition query : IO unit := look o (λ _, Ok tt).

(** ** [resolve_existing] *)
Fixpoint resolve_from (fuel : nat) (parent : PathBuf) (tail : list string) : IO PathBuf :=
  match fuel with
  | O => fail NotFound
  | S fuel =>
      found ← attempted (canonicalize paths parent);
      match found with
      | Ok resolved => mret (mkPath (rooted resolved) (parts resolved ++ tail))
      | Err NotFound =>
          link ← attempted (is_symlink paths parent);
          if match link with Ok b => b | Err _ => false end then fail NotFound
          else
            name ← lift (ok_or (path_name parent) NotFound);
            resolve_from fuel (path_parent parent) (name :: tail)
      | Err e => fail e
      end
  end.
Definition resolve_existing (p : PathBuf) : IO PathBuf := resolve_from (S (length (parts p))) p [].

(** ** [atomic_write_default] *)
Definition rename_over (fs : Tree) (from to : Key) : result IoError unit * Tree :=
  match fs !! from, fs !! to with
  | None, _ => (Err NotFound, fs)
  | Some _, Some (Directory _) => (Err (Errno "EISDIR"), fs)
  | Some node, _ => (Ok tt, <[to := node]> (delete from fs))
  end.
Definition existing_mode (found : result IoError Node) : result IoError (option N) :=
  match found with
  | Ok (Regular _ _ mode) => Ok (Some (N.land mode 511))
  | Ok _ => Err (Other "target is not a regular file")
  | Err NotFound => Ok None
  | Err e => Err e
  end.
(** The temporary file is removed unless it was renamed. *)
Definition atomic_write_default (path : list string) (bytes : text) (mode : option N) (default_mode : N) : IO unit :=
  parent ← look o (λ fs, walk fs (root o) (take (length path - 1) path));
  name ← lift (ok_or (last path) (Other "target is not a regular file"));
  dir ← lift (match parent with Directory id => Ok id | _ => Err (Errno "ENOTDIR") end);
  existing ← look o (λ fs, existing_mode (at_key fs (dir, name)));
  let mode := default default_mode (match mode with Some m => Some m | None => existing end) in
  temporary ← temporary_name o;
  _ ← create o dir temporary mode;
  result ← attempted (
    _ ← fill o dir temporary (mkState true bytes mode);
    sys o (λ fs, rename_over fs (dir, temporary) (dir, name)));
  match result with
  | Ok _ => mret tt
  | Err e => _ ← attempted (unlinkat o dir temporary); fail e
  end.
Definition atomic_write (path : list string) (bytes : text) (mode : option N) : IO unit :=
  atomic_write_default path bytes mode 420.

(** ** Reading and writing the file *)

(** [Workspace::read_file] *)
Definition read_file (path : list string) : IO Node :=
  node ← look o (λ fs, walk fs (root o) path);
  _ ← query;
  match node with
  | Regular links _ _ =>
      _ ← lift (ensure (links =? 1)%N (Errno "hard-linked file refused"));
      mret node
  | _ => fail (Other "not a regular file")
  end.
(** [open] without a link at the end. *)
Definition open_file (path : PathBuf) : IO Node :=
  look o (λ fs,
    match locate paths fs path with
    | Ok key => match at_key fs key with Ok Symlink => Err (Errno "ELOOP") | found => found end
    | Err e => Err e
    end).
Definition with_content (content : text) (key : Key) (fs : Tree) : Tree :=
  alter (λ node, match node with Regular l _ m => Regular l content m | node => node end) key fs.
(** [open] for writing, which may create the file, [set_len] and [write_all]. *)
Definition open_write (path : PathBuf) (mode : N) (fs : Tree) : result IoError Key * Tree :=
  match locate paths fs path with
  | Err e => (Err e, fs)
  | Ok key =>
      match fs !! key with
      | None => (Ok key, <[key := Regular 1 [] (N.ldiff mode (umask o))]> fs)
      | Some Symlink => (Err (Errno "ELOOP"), fs)
      | Some (Directory _) => (Err (Errno "EISDIR"), fs)
      | Some _ => (Ok key, fs)
      end
  end.
Definition write_in_place (key : Key) (bytes : text) : IO unit := λ w,
  let fs := others o (calls w) (tree w) in
  let '(r, written) :=
    match fault o (calls w) with
    | Some e => (Err (Errno e), take (short o (calls w)) bytes)
    | None => (Ok tt, bytes)
    end in
  (r, mkWorld (with_content written key fs) (S (calls w)) (drawn w) (removed w)).
Definition overwrite (path : PathBuf) (bytes : text) (mode : N) : M unit :=
  key ← told writing (sys o (open_write path mode));
  node ← told writing (look o (λ fs, at_key fs key));
  _ ← check (match node with Regular _ _ _ => true | _ => false end) "Error writing file: target is not a regular file";
  _ ← told writing (sys o (λ fs, (Ok tt, with_content [] key fs)));
  told writing (write_in_place key bytes).

(** ** The replacement *)
Fixpoint splice (old new content : text) (position : nat) (offsets : list nat) : text :=
  match offsets with
  | [] => drop position content
  | offset :: offsets =>
      take (offset - position) (drop position content) ++ new
        ++ splice old new content (offset + length old) offsets
  end.
(** The occurrences the loop goes through: the first, or all. *)
Definition chosen (all : bool) (offsets : list nat) : list nat := if all then offsets else take 1 offsets.

(** [Edit::edit] on the parsed arguments; [confined] tools stay below the workspace. *)
Definition edit (confined : bool) (work_dir : PathBuf) (input : Input) : M Report :=
  _ ← check (negb (String.eqb (file_path input) "")) "file_path is required";
  _ ← check (negb (bool_decide (old_string input = []))) "old_string is required";
  _ ← check (negb (bool_decide (old_string input = new_string input))) "old_string and new_string are identical";
  let path := clean (join_path work_dir (path_of (file_path input))) in
  '(path, below) ← (if confined then
      root ← told resolving (canonicalize paths work_dir);
      _ ← told resolving query;
      full ← told resolving (absolute paths path);
      path ← told resolving (resolve_existing (clean full));
      _ ← check (starts_with path root) "Error resolving file path: path is outside the workspace root";
      mret (path, Some (drop (length (parts root)) (parts path)))
    else mret (path, None));
  node ← told reading (match below with
    | Some relative => read_file relative
    | None => open_file path
    end);
  _ ← told reading query;
  '(content, mode) ← lift (match node with
    | Regular _ content mode => Ok (content, mode)
    | _ => Err (Said "is not a regular file")
    end);
  _ ← check (N.of_nat (length content) <=? MAX_FILE)%N "file is too large to edit";
  _ ← told reading query;
  let old := old_string input in
  let offsets := find_iter old content in
  let count := length offsets in
  _ ← check (negb (count =? 0)) "old_string not found in file";
  _ ← check (negb ((1 <? count) && negb (replace_all input))) "old_string is not unique in file";
  let used := chosen (replace_all input) offsets in
  let replacement := splice old (new_string input) content 0 used in
  let mode := N.land mode 511 in
  _ ← match below with
    | Some relative => told writing (atomic_write relative replacement (Some mode))
    | None => overwrite path replacement mode
    end;
  mret (mkReport path count (replace_all input) (take 256 used) ((256 <? count) && replace_all input)).

(** ** [FileWrite] *)

(** [mkdirat], and [openat] of the directory that is there. *)
Definition make_dir (dir : N) (name : string) (fs : Tree) : result IoError unit * Tree :=
  match fs !! (dir, name) with
  | Some _ => (Err (Errno "EEXIST"), fs)
  | None => (Ok tt, <[(dir, name) := Directory (new_directory paths fs)]> fs)
  end.
Definition open_dir (dir : N) (name : string) (fs : Tree) : result IoError N :=
  match at_key fs (dir, name) with
  | Ok (Directory id) => Ok id
  | Ok Symlink => Err (Errno "ELOOP")
  | Ok _ => Err (Errno "ENOTDIR")
  | Err e => Err e
  end.
Definition already_there (e : IoError) : bool :=
  match e with Errno n => String.eqb n "EEXIST" | _ => false end.
Fixpoint make_from (dir : N) (path : list string) : IO unit :=
  match path with
  | [] => mret tt
  | name :: path =>
      made ← attempted (sys o (make_dir dir name));
      _ ← lift (match made with
        | Ok _ => Ok tt
        | Err e => if already_there e then Ok tt else Err e
        end);
      id ← look o (open_dir dir name);
      make_from id path
  end.
Definition make_parents (path : list string) : IO unit :=
  _ ← look o (λ fs, walk fs (root o) []);
  make_from (root o) path.

(** [FileWrite::write] on the parsed arguments; it answers the path it wrote. *)
Definition write_file (confined : bool) (work_dir : PathBuf) (file : string) (content : text) : M PathBuf :=
  _ ← check (negb (String.eqb file "")) "file_path is required";
  let path := clean (join_path work_dir (path_of file)) in
  if confined then
    root ← told resolving (canonicalize paths work_dir);
    _ ← told resolving query;
    full ← told resolving (absolute paths path);
    path ← told resolving (resolve_existing (clean full));
    _ ← check (starts_with path root) "Error resolving file path: path is outside the workspace root";
    let relative := drop (length (parts root)) (parts path) in
    _ ← told "Error creating parent directory" (make_parents (take (length relative - 1) relative));
    _ ← told writing (atomic_write relative content None);
    mret path
  else
    _ ← told "Error creating directory" (create_dir_all paths (path_parent path));
    _ ← overwrite path content 420;
    mret path.

(** [for_access]: a tool for the workspace is a confined one. *)
Definition tool_for_access (access : AccessMode) (confined : bool) : option bool :=
  if bool_decide (access = WorkspaceWrite) && negb confined then Some true else None.
End edit.
