(* ===== verification/EditToolProps.v ===== *)
(** * EditToolProps: edits and writes are exact and all or nothing

    Properties of [EditTool] where no other process interferes and any system call
    may fail. *)

From S2P Require Import Prelude Core Text PatchFs PatchTxn EditTool.

(** ** The replacement *)

(** The pieces with the separator between them. *)
Fixpoint glue (sep : text) (pieces : list text) : text :=
  match pieces with
  | [] => []
  | [p] => p
  | p :: rest => p ++ sep ++ glue sep rest
  end.
Lemma glue_cons sep p q rest : glue sep (p :: q :: rest) = p ++ sep ++ glue sep (q :: rest).
Proof. done. Qed.
Definition free (old piece : text) : Prop := ∀ i, ¬ occurs_at old piece i.

Lemma occurs_length old content i : old ≠ [] → occurs_at old content i → i + length old <= length content.
Proof.
  unfold occurs_at. intros Ho Hi. apply (f_equal length) in Hi as Hl.
  rewrite length_take, length_drop in Hl.
  assert (1 <= length old) by (destruct old; simpl; [done|lia]). lia.
Qed.
Lemma occurs_piece old content from k i :
  old ≠ [] → occurs_at old (take k (drop from content)) i → i + length old <= k ∧ occurs_at old content (from + i).
Proof.
  intros Ho Hi. pose proof (occurs_length _ _ _ Ho Hi) as Hl. rewrite length_take in Hl. split; [lia|].
  unfold occurs_at in *. rewrite <-drop_drop. rewrite skipn_firstn_comm, take_take in Hi.
  by rewrite Nat.min_l in Hi by lia.
Qed.
Lemma splice_pieces old new content offsets from :
  old ≠ [] → leftmost old content from offsets →
  ∃ pieces, drop from content = glue old pieces ∧ splice old new content from offsets = glue new pieces
    ∧ length pieces = S (length offsets) ∧ Forall (free old) pieces.
Proof.
  intros Ho. revert from. induction offsets as [|o offsets IH]; intros from Hl.
  - exists [drop from content]. split_and!; [done|done|done|]. constructor; [|done]. intros i Hi.
    simpl in Hl. rewrite <-(take_ge (drop from content) (length (drop from content))) in Hi by done.
    apply occurs_piece in Hi as [_ Hi]; [|done]. by apply (Hl (from + i)); [lia|].
  - destruct Hl as (Hle & Hlen & Hocc & Hno & Hrest). destruct (IH _ Hrest) as (pieces & Hd & Hs & Hn & Hf).
    exists (take (o - from) (drop from content) :: pieces).
    destruct pieces as [|q pieces]; [done|]. rewrite !glue_cons. cbn [splice length].
    rewrite <-Hd, <-Hs. split_and!; [|done|simpl in *; lia|].
    + rewrite <-(take_drop (o - from) (drop from content)) at 1. f_equal. rewrite drop_drop.
      replace (from + (o - from)) with o by lia.
      rewrite <-(take_drop (length old) (drop o content)) at 1. rewrite Hocc, drop_drop. done.
    + constructor; [|done]. intros i Hi. apply occurs_piece in Hi as [Hi1 Hi2]; [|done].
      apply (Hno (from + i)); [|done].
      assert (1 <= length old) by (destruct old; simpl; [done|lia]). lia.
Qed.

(** ** Where nothing interferes *)

Section quiet.
Context {F : Finder} {FL : FinderLaws}.
Context (o : Outside) (Hquiet : ∀ n fs, others o n fs = fs) (paths : Paths).
Implicit Types (w : World).

(** A computation that only looks. *)
Definition still {E A} (m : SE World E A) : Prop :=
  ∀ w, tree (m w).2 = tree w ∧ drawn (m w).2 = drawn w.
(** The system says of paths without changing anything. *)
Class PathsLaws : Prop := {
  still_absolute p : still (absolute paths p);
  still_canonicalize p : still (canonicalize paths p);
  still_symlink p : still (is_symlink paths p);
}.
Context {PL : PathsLaws}.

Lemma still_run {E A} (m : SE World E A) w r w' : still m → m w = (r, w') → tree w' = tree w ∧ drawn w' = drawn w.
Proof. intros Hs Hm. specialize (Hs w). by rewrite Hm in Hs. Qed.
Lemma still_ret {E A} (a : A) : still (mret a : SE World E A).
Proof. done. Qed.
Lemma still_lift {E A} (r : result E A) : still (lift r : SE World E A).
Proof. done. Qed.
Lemma still_fail {E A} (e : E) : still (fail e : SE World E A).
Proof. done. Qed.
Lemma still_bind {E A B} (m : SE World E A) (f : A → SE World E B) :
  still m → (∀ a, still (f a)) → still (m ≫= f).
Proof.
  intros Hm Hf w. unfold mbind, SE_bind. specialize (Hm w). destruct (m w) as [[a|e] w1]; simpl in *; [|done].
  destruct Hm as [<- <-]. apply Hf.
Qed.
Lemma still_look {A} (f : Tree → result IoError A) : still (look o f).
Proof. intros w. destruct (look o f w) as [r w'] eqn:Hl. by apply look_quiet in Hl as (? & ? & _). Qed.
Lemma still_attempted {A} (m : SE World IoError A) : still m → still (attempted m).
Proof. intros Hm w. specialize (Hm w). unfold attempted. by destruct (m w). Qed.
Lemma still_told {A} doing (m : SE World IoError A) : still m → still (told doing m).
Proof. intros Hm w. specialize (Hm w). unfold told. by destruct (m w) as [[]]. Qed.
Lemma still_resolve fuel p tail : still (resolve_from paths fuel p tail).
Proof.
  revert p tail. induction fuel as [|fuel IH]; intros p tail; [done|]. simpl.
  apply still_bind; [apply still_attempted, still_canonicalize|]. intros [q|[]]; try done.
  apply still_bind; [apply still_attempted, still_symlink|]. intros [[]|]; try done.
  all: apply still_bind; [done|]; intros n; apply IH.
Qed.

(** A new file is left, or nothing. *)
Definition left_behind (w w' : World) : Prop :=
  tree w' = tree w
  ∨ ∃ dir node, tree w !! (dir, fresh o (drawn w)) = None ∧ tree w' = <[(dir, fresh o (drawn w)) := node]> (tree w).

Lemma only_new (t : Key) (node : Node) (m m0 : Tree) :
  (∀ k, k ≠ t → m !! k = m0 !! k) → m0 !! t = None → m !! t = Some node →
  delete t m = m0 ∧ m = <[t := node]> m0.
Proof.
  intros Hk H0 Ht. split; apply map_eq; intros k; destruct (decide (t = k)) as [<-|Hne].
  - by rewrite lookup_delete_eq.
  - rewrite lookup_delete_ne by done. by apply Hk.
  - by rewrite lookup_insert_eq.
  - rewrite lookup_insert_ne by done. by apply Hk.
Qed.
(** A failure after the temporary file was made. *)
Lemma cleaned dir n (node : Node) w w' r e w2 :
  (attempted (unlinkat o dir n) ≫= λ _, fail e : SE World IoError unit) w2 = (r, w') →
  n = fresh o (drawn w) → tree w !! (dir, n) = None → tree w2 = <[(dir, n) := node]> (tree w) →
  r = Err e ∧ left_behind w w'.
Proof.
  intros Hr -> Hn Ht. unfold attempted, mbind, SE_bind, fail in Hr. destruct (unlinkat _ _ _ _) as [r1 w1] eqn:Hu.
  injection Hr as <- <-. split; [done|]. apply unlink_quiet in Hu as [_ Hu]; [|done]. destruct Hu as [(e1 & _ & H1)|[_ H1]].
  - right. exists dir, node. by rewrite H1.
  - left. by rewrite H1, Ht, delete_insert_id.
Qed.
Definition written_mode (mode old : option N) (otherwise : N) : N :=
  default otherwise (match mode with Some m => Some m | None => old end).
Lemma atomic_write_quiet path bytes mode dm w r w' :
  atomic_write_default o path bytes mode dm w = (r, w') →
  match r with
  | Ok _ => ∃ dir name old, last path = Some name
      ∧ walk (tree w) (root o) (take (length path - 1) path) = Ok (Directory dir)
      ∧ existing_mode (at_key (tree w) (dir, name)) = Ok old
      ∧ tree w' = <[(dir, name) := Regular 1 bytes (written_mode mode old dm)]> (tree w)
  | Err _ => left_behind w w'
  end.
Proof.
  unfold atomic_write_default, mbind, SE_bind. intros Ha.
  destruct (look o _ w) as [r1 w1] eqn:H1. apply look_quiet in H1 as (Hd1 & Ht1 & Hr1); [|done].
  destruct r1 as [node|e]; [|injection Ha as <- <-; by left]. destruct Hr1 as [(e & [=])|Hr1].
  unfold lift in Ha. destruct (last path) as [name|]; simpl in Ha; [|injection Ha as <- <-; by left].
  destruct node as [| dir | |]; simpl in Ha; try (injection Ha as <- <-; by left).
  destruct (look o _ w1) as [r2 w2] eqn:H2. apply look_quiet in H2 as (Hd2 & Ht2 & Hr2); [|done].
  destruct r2 as [ex|e]; [|injection Ha as <- <-; left; congruence]. simpl in Ha.
  destruct Hr2 as [(e & [=])|Hr2]. change (default dm _) with (written_mode mode ex dm) in Ha.
  set (n := fresh o (drawn w2)) in *. assert (n = fresh o (drawn w)) as Hn by (unfold n; congruence).
  destruct (create o dir n (written_mode mode ex dm) _) as [r3 w3] eqn:H3. apply create_quiet in H3 as [_ H3]; [|done]. simpl in H3.
  destruct H3 as [(e & -> & Ht3)|(-> & Hnone & m & Ht3)]; [injection Ha as <- <-; left; congruence|].
  rewrite Ht2, Ht1 in Hnone, Ht3. unfold attempted at 1 in Ha.
  destruct (fill o dir n _ w3) as [r4 w4] eqn:H4.
  eapply fill_quiet in H4 as (_ & Hk4 & (c' & m' & Hc4) & Hok4); [|done|by rewrite Ht3, lookup_insert_eq].
  assert (∀ k, k ≠ (dir, n) → tree w4 !! k = tree w !! k) as Hk.
  { intros k Hk'. rewrite Hk4, Ht3 by done. by rewrite lookup_insert_ne. }
  destruct r4 as [[]|e].
  - destruct (sys o _ w4) as [r5 w5] eqn:H5.
    apply sys_quiet in H5 as [_ H5]; [|done]. specialize (Hok4 eq_refl). simpl in Hok4.
    destruct (only_new _ _ _ _ Hk Hnone Hok4) as [Hdel Hins].
    assert (is_ok r5 = true ∧ tree w5 = <[(dir, name) := Regular 1 bytes (written_mode mode ex dm)]> (tree w)
      ∨ is_ok r5 = false ∧ tree w5 = tree w4) as Hr5.
    { destruct H5 as [(e & -> & H5)|H5]; [by right|]. unfold rename_over in H5. rewrite Hok4 in H5.
      destruct (tree w4 !! (dir, name)) as [[]|]; injection H5 as <- <-; rewrite ?Hdel; auto. }
    destruct r5 as [[]|e]; destruct Hr5 as [[? Ht5]|[? Ht5]]; try done.
    + injection Ha as <- <-. exists dir, name, ex. split_and!; [done|congruence|congruence|done].
    + eapply cleaned in Ha as [-> ?]; [done|done|done|]. by rewrite Ht5.
  - destruct (only_new _ _ _ _ Hk Hnone Hc4) as [Hdel Hins].
    eapply cleaned in Ha as [-> ?]; [done|done|done|done].
Qed.

(** ** The edit *)

(** [m] ends in [Q], or fails in [L]. *)
Definition ends (L : World → Prop) {A} (m : SE World EditError A) (Q : A → World → Prop) (w : World) : Prop :=
  match m w with (Ok a, w1) => Q a w1 | (Err _, w1) => L w1 end.
Definition at_start (w0 w : World) : Prop := tree w = tree w0 ∧ drawn w = drawn w0.
Section ends.
Context (w0 : World) (L : World → Prop) (HL : ∀ w, at_start w0 w → L w).
Lemma ends_bind {A B} (m : SE World EditError A) (f : A → SE World EditError B) Q w :
  ends L m (λ a, ends L (f a) Q) w → ends L (m ≫= f) Q w.
Proof. unfold ends, mbind, SE_bind. by destruct (m w) as [[a|e] w1]. Qed.
Lemma ends_still {A} (m : SE World EditError A) (Q : A → World → Prop) w :
  still m → at_start w0 w → (∀ a w1, m w = (Ok a, w1) → at_start w0 w1 → Q a w1) → ends L m Q w.
Proof.
  intros Hs [Ht Hd] HQ. unfold ends. destruct (m w) as [[a|e] w1] eqn:Hm.
  - apply (still_run _ _ _ _ Hs) in Hm as [H1 H2]. all: try done. apply (HQ a w1); [done|split; congruence].
  - apply (still_run _ _ _ _ Hs) in Hm as [H1 H2]. apply HL. split; congruence.
Qed.
Lemma ends_check b s (Q : unit → World → Prop) w :
  at_start w0 w → (b = true → Q tt w) → ends L (check b s) Q w.
Proof. intros Ht HQ. unfold ends, check, lift. destruct b; simpl; [by apply HQ|by apply HL]. Qed.
End ends.

Lemma walk_last fs dir path name id node :
  walk fs dir (path ++ [name]) = Ok node → walk fs dir path = Ok (Directory id) → fs !! (id, name) = Some node.
Proof.
  revert dir. induction path as [|p path IH]; intros dir; simpl.
  - intros Hw [= ->]. by destruct (fs !! (id, name)) as [[]|]; simplify_eq.
  - destruct (fs !! (dir, p)) as [[| d | |]|]; try done; [by destruct path|by eauto|by destruct path].
Qed.
Lemma read_file_Ok path w node w1 :
  read_file o path w = (Ok node, w1) →
  walk (tree w) (root o) path = Ok node ∧ ∃ content mode, node = Regular 1 content mode.
Proof.
  unfold read_file. intros Hr. apply SE_bind_Ok in Hr as (n & w2 & Hl & Hr).
  apply SE_bind_Ok in Hr as ([] & w3 & _ & Hr).
  apply look_quiet in Hl as (_ & _ & [(e & [=])|Hl]); [|done].
  destruct n as [links content mode| | |]; try done. apply SE_bind_Ok in Hr as ([] & w4 & He & Hr).
  injection He as He _. apply ensure_Ok, N.eqb_eq in He as ->. injection Hr as <- _. split; [done|by exists content, mode].
Qed.
Lemma still_read_file path : still (read_file o path).
Proof.
  unfold read_file. apply still_bind; [apply still_look|]. intros node.
  apply still_bind; [apply still_look|]. intros _. destruct node; try done.
  apply still_bind; [apply still_lift|]. intros _. apply still_ret.
Qed.
Lemma told_Ok {A} doing (m : SE World IoError A) w a w1 : told doing m w = (Ok a, w1) → m w = (Ok a, w1).
Proof. unfold told. destruct (m w) as [[]]; congruence. Qed.

(** What a successful edit did: the file below the workspace that the path leads to
    has the new string between the pieces that the old one separated. *)
Definition edited work_dir input w report w' : Prop :=
  ∃ base relative dir name content mode pieces,
    (canonicalize paths work_dir w).1 = Ok base ∧
    report_path report = mkPath (rooted base) (parts base ++ relative) ∧ last relative = Some name ∧
    walk (tree w) (root o) (take (length relative - 1) relative) = Ok (Directory dir) ∧
    tree w !! (dir, name) = Some (Regular 1 content mode) ∧
    content = glue (old_string input) pieces ∧ Forall (free (old_string input)) pieces ∧
    length pieces = S (report_count report) ∧ 1 <= report_count report ∧
    (replace_all input = false → report_count report = 1) ∧
    tree w' = <[(dir, name) := Regular 1 (glue (new_string input) pieces) (N.land mode 511)]> (tree w).
Lemma starts_with_split p base :
  starts_with p base = true → p = mkPath (rooted base) (parts base ++ drop (length (parts base)) (parts p)).
Proof.
  unfold starts_with. intros [Hr%Bool.eqb_prop Hp%bool_decide_eq_true]%andb_true_iff. destruct p as [r ps].
  simpl in *. subst r. f_equal. by rewrite <-Hp at 1; rewrite take_drop.
Qed.
Lemma last_init (l : list string) n : last l = Some n → l = take (length l - 1) l ++ [n].
Proof.
  intros (k & ->)%last_Some. rewrite length_app. simpl. rewrite Nat.add_sub, take_app_length. done.
Qed.
Lemma chosen_all all (offsets : list nat) :
  negb ((1 <? length offsets) && negb all) = true → chosen all offsets = offsets.
Proof.
  destruct all; [done|]. rewrite andb_true_r, negb_true_iff. intros Hl%Nat.ltb_ge.
  destruct offsets as [|x [|y l]]; simpl in *; [done|done|lia].
Qed.

Lemma edit_ends work_dir input w :
  ends (left_behind w) (edit o paths true work_dir input) (edited work_dir input w) w.
Proof.
  assert (at_start w w) as Hw0 by done.
  assert (∀ w1, at_start w w1 → left_behind w w1) as HL by (intros w1 [? _]; by left). unfold edit.
  apply ends_bind, (ends_check w _ HL); [done|intros _]. apply ends_bind, (ends_check w _ HL); [done|].
  intros Hold%negb_true_iff%bool_decide_eq_false. apply ends_bind, (ends_check w _ HL); [done|intros _].
  apply ends_bind. cbv iota.
  apply ends_bind, (ends_still w _ HL); [apply still_told, still_canonicalize|done|]. intros base w1 Hb%told_Ok Hw1.
  apply ends_bind, (ends_still w _ HL); [apply still_told, still_look|done|]. intros [] w2 _ Hw2.
  apply ends_bind, (ends_still w _ HL); [apply still_told, still_absolute|done|]. intros full w3 _ Hw3.
  apply ends_bind, (ends_still w _ HL); [apply still_told, still_resolve|done|]. intros path w4 _ Hw4.
  apply ends_bind, (ends_check w _ HL); [done|]. intros Hstart%starts_with_split.
  set (relative := drop (length (parts base)) (parts path)) in *. unfold ends at 1, mret, SE_ret.
  apply ends_bind, (ends_still w _ HL); [apply still_told, still_read_file|done|]. intros node w5 Hread%told_Ok Hw5.
  apply read_file_Ok in Hread as (Hwalk & content & mode & ->).
  apply ends_bind, (ends_still w _ HL); [apply still_told, still_look|done|]. intros [] w6 _ Hw6.
  apply ends_bind. unfold ends at 1, lift.
  apply ends_bind, (ends_check w _ HL); [done|intros _].
  apply ends_bind, (ends_still w _ HL); [apply still_told, still_look|done|]. intros [] w7 _ Hw7.
  apply ends_bind, (ends_check w _ HL); [done|]. intros Hsome%negb_true_iff%Nat.eqb_neq.
  apply ends_bind, (ends_check w _ HL); [done|]. intros Hone. rewrite (chosen_all _ _ Hone).
  apply ends_bind. unfold ends at 1, told. destruct (atomic_write _ _ _ _ w7) as [r8 w8] eqn:Hwrite.
  apply atomic_write_quiet in Hwrite. destruct Hw7 as [Ht7 Hd7]. destruct Hw4 as [Ht4 _].
  destruct (splice_pieces (old_string input) (new_string input) content
    (find_iter (old_string input) content) 0 Hold (find_iter_spec _ _ Hold)) as (pieces & Hc & Hs & Hn & Hf).
  destruct r8 as [[]|e].
  - destruct Hwrite as (dir & name & old & Hlast & Hdir & _ & Htree). unfold ends, mret, SE_ret, edited. simpl.
    exists base, relative, dir, name, content, mode, pieces. rewrite Ht7 in Hdir, Htree. rewrite Ht4 in Hwalk.
    split_and!; try done.
    + by rewrite Hb.
    + rewrite (last_init _ _ Hlast) in Hwalk. by eapply walk_last.
    + lia.
    + intros Hall. rewrite Hall in Hone. rewrite andb_true_r, negb_true_iff in Hone. apply Nat.ltb_ge in Hone. lia.
    + by rewrite Hs in Htree.
  - unfold left_behind in *. by rewrite Ht7, Hd7 in Hwrite.
Qed.
(** Of two occurrences that overlap the finder gives the first only. *)
Lemma overlapping c : find_iter [c; c] [c; c; c] = [0].
Proof.
  pose proof (find_iter_spec [c; c] [c; c; c] ltac:(done)) as Hl.
  destruct (find_iter [c; c] [c; c; c]) as [|x l]; simpl in Hl; [by destruct (Hl 0); [lia|]|].
  destruct Hl as (_ & Hx & _ & Hno & Hrest). destruct x as [|x]; [|by destruct (Hno 0); [lia|]].
  destruct l as [|y l]; [done|]. simpl in Hrest. lia.
Qed.

(** ** The write *)

(** Nothing but directories was added. *)
Definition grown (t t1 : Tree) : Prop :=
  ∀ k, t1 !! k = t !! k ∨ (t !! k = None ∧ ∃ id, t1 !! k = Some (Directory id)).
#[local] Instance grown_preorder : PreOrder grown.
Proof.
  split; [intros t k; by left|]. intros t1 t2 t3 H1 H2 k.
  destruct (H1 k) as [He|(Hn & id & Hd)], (H2 k) as [He'|(Hn' & id' & Hd')]; [left; congruence| | |congruence].
  - right. split; [congruence|by exists id'].
  - right. split; [done|]. exists id. congruence.
Qed.
Lemma make_from_grown dir path w r w' : make_from o paths dir path w = (r, w') → grown (tree w) (tree w').
Proof.
  revert dir w. induction path as [|name path IH]; intros dir w; simpl.
  { by intros [= <- <-]. }
  unfold mbind at 1, SE_bind at 1, attempted. destruct (sys o _ w) as [r1 w1] eqn:H1.
  assert (grown (tree w) (tree w1)) as Hg.
  { apply sys_quiet in H1 as [_ [(e & _ & ->)|H1]]; [done| |done]. unfold make_dir in H1.
    destruct (tree w !! (dir, name)) eqn:Hn; injection H1 as _ <-; [done|]. intros k.
    destruct (decide ((dir, name) = k)) as [<-|Hne]; [right; rewrite lookup_insert_eq; eauto|].
    left. by rewrite lookup_insert_ne. }
  unfold lift, mbind, SE_bind. simpl. destruct (match r1 with Ok _ => _ | Err e => _ end) as [[]|e];
    [|by intros [= <- <-]].
  destruct (look o _ w1) as [r2 w2] eqn:H2. apply look_quiet in H2 as (_ & H2 & _); [|done].
  destruct r2 as [id|e]; [|intros [= <- <-]; by rewrite H2]. intros Hm%IH. by rewrite H2 in Hm; etrans.
Qed.
Lemma make_parents_grown path w r w' : make_parents o paths path w = (r, w') → grown (tree w) (tree w').
Proof.
  unfold make_parents, mbind, SE_bind. destruct (look o _ w) as [r1 w1] eqn:H1.
  apply look_quiet in H1 as (_ & H1 & _); [|done]. rewrite <-H1.
  destruct r1 as [node|e]; [apply make_from_grown|by intros [= <- <-]].
Qed.
(** A failed write leaves new directories and one new file at most. *)
Definition kept (w w' : World) : Prop :=
  ∃ t1, grown (tree w) t1 ∧
    (tree w' = t1 ∨ ∃ dir n node, t1 !! (dir, n) = None ∧ tree w' = <[(dir, n) := node]> t1).
Definition wrote work_dir content w path w' : Prop :=
  ∃ base relative dir name t1 old,
    (canonicalize paths work_dir w).1 = Ok base ∧
    path = mkPath (rooted base) (parts base ++ relative) ∧ last relative = Some name ∧ grown (tree w) t1 ∧
    walk t1 (root o) (take (length relative - 1) relative) = Ok (Directory dir) ∧
    existing_mode (at_key t1 (dir, name)) = Ok old ∧
    tree w' = <[(dir, name) := Regular 1 content (default 420%N old)]> t1.
Lemma write_ends work_dir file content w :
  ends (kept w) (write_file o paths true work_dir file content) (wrote work_dir content w) w.
Proof.
  assert (at_start w w) as Hw0 by done.
  assert (∀ w1, at_start w w1 → kept w w1) as HL by (intros w1 [? _]; exists (tree w); split; [done|by left]).
  unfold write_file. apply ends_bind, (ends_check w _ HL); [done|intros _]. cbv iota.
  apply ends_bind, (ends_still w _ HL); [apply still_told, still_canonicalize|done|]. intros base w1 Hb%told_Ok Hw1.
  apply ends_bind, (ends_still w _ HL); [apply still_told, still_look|done|]. intros [] w2 _ Hw2.
  apply ends_bind, (ends_still w _ HL); [apply still_told, still_absolute|done|]. intros full w3 _ Hw3.
  apply ends_bind, (ends_still w _ HL); [apply still_told, still_resolve|done|]. intros path w4 _ Hw4.
  apply ends_bind, (ends_check w _ HL); [done|]. intros Hstart%starts_with_split.
  set (relative := drop (length (parts base)) (parts path)) in *. destruct Hw4 as [Ht4 _].
  apply ends_bind. unfold ends at 1, told. destruct (make_parents _ _ _ w4) as [r5 w5] eqn:Hmake.
  apply make_parents_grown in Hmake. rewrite Ht4 in Hmake.
  destruct r5 as [[]|e]; [|exists (tree w5); split; [done|by left]].
  apply ends_bind. unfold ends at 1, told. destruct (atomic_write _ _ _ _ w5) as [r6 w6] eqn:Hwrite.
  apply atomic_write_quiet in Hwrite. destruct r6 as [[]|e].
  - destruct Hwrite as (dir & name & old & Hlast & Hdir & Hold & Htree).
    exists base, relative, dir, name, (tree w5), old. split_and!; try done. by rewrite Hb.
  - exists (tree w5). split; [done|]. destruct Hwrite as [Ht|(dir & node & Hn & Ht)]; [by left|right].
    by exists dir, (fresh o (drawn w5)), node.
Qed.

(** C21: The file tools are exact, and all or nothing.  With no interference and any
    failing system calls, an edit that succeeds changed one file, below the workspace,
    whose content is the old string between pieces without it: exactly once unless all
    were asked for; now the new string is between the same pieces, and every other
    file is as it was.  A write that succeeds put its content in one file below the
    workspace, after making directories, with the mode the file had.  One that fails
    changed no file.  Occurrences that overlap count as one: the edit of a string
    that matches at two such places is let through. *)
Theorem file_tools_exact :
  (∀ work_dir input w r w',
     edit o paths true work_dir input w = (r, w') →
     match r with
     | Ok report => edited work_dir input w report w'
     | Err _ => left_behind w w'
     end)
  ∧ (∀ work_dir file content w r w',
     write_file o paths true work_dir file content w = (r, w') →
     match r with
     | Ok path => wrote work_dir content w path w'
     | Err _ => kept w w'
     end)
  ∧ ∀ c, find_iter [c; c] [c; c; c] = [0].
Proof.
  split_and!; [| |exact overlapping].
  - intros work_dir input w r w' He. pose proof (edit_ends work_dir input w) as Hends.
    unfold ends in Hends. rewrite He in Hends. by destruct r.
  - intros work_dir file content w r w' He. pose proof (write_ends work_dir file content w) as Hends.
    unfold ends in Hends. rewrite He in Hends. by destruct r.
Qed.
End quiet.

(** ** A finder *)

Fixpoint scan (fuel : nat) (old content : text) (from : nat) : list nat :=
  match fuel with
  | O => []
  | S fuel =>
      if bool_decide (take (length old) (drop from content) = old)
      then from :: scan fuel old content (from + length old)
      else scan fuel old content (S from)
  end.
Definition plain_finder : Finder := λ old content, scan (S (length content)) old content 0.
Lemma leftmost_later old content from offsets :
  leftmost old content (S from) offsets → ¬ occurs_at old content from → leftmost old content from offsets.
Proof.
  intros Hl Hn. destruct offsets as [|x offsets]; simpl in *.
  - intros i Hi. destruct (decide (i = from)) as [->|]; [done|]. apply Hl. lia.
  - destruct Hl as (? & ? & ? & Hno & ?). split_and!; [lia|done|done| |done].
    intros i Hi. destruct (decide (i = from)) as [->|]; [done|]. apply Hno. lia.
Qed.
Lemma scan_spec fuel old content from :
  old ≠ [] → length content < fuel + from → leftmost old content from (scan fuel old content from).
Proof.
  intros Ho. revert from. induction fuel as [|fuel IH]; intros from Hf; simpl.
  - intros i Hi Hocc%occurs_length; [|done]. lia.
  - case_bool_decide as Hocc.
    + pose proof (occurs_length _ _ _ Ho Hocc). split_and!; [done|done|done|lia|]. apply IH.
      assert (1 <= length old) by (destruct old; simpl; [done|lia]). lia.
    + apply leftmost_later; [|done]. apply IH. lia.
Qed.
#[export] Instance plain_finder_laws : FinderLaws (H := plain_finder).
Proof. intros old content Ho. apply scan_spec; [done|lia]. Qed.

(** ** An edit *)

Definition edit_outside (failing : option nat) : Outside :=
  mkOutside 0 (λ n, if bool_decide (failing = Some n) then Some "EIO" else None) (λ _ fs, fs) (λ _, 1%nat)
    (λ n, String (ascii_of_nat (48 + n)) "tmp") 18.
Definition edit_paths : Paths :=
  mkPaths (λ p w, (Ok p, w)) (λ p w, (Ok p, w)) (λ _ w, (Ok false, w)) (λ _ _, Err NotFound) (λ _ w, (Ok tt, w)) (λ _, 7%N).
#[local] Instance edit_paths_laws : PathsLaws edit_paths.
Proof. by constructor. Qed.
#[local] Existing Instance plain_finder.
Definition edit_tree : Tree :=
  <[(0%N, "src") := Directory 1]> {[(1%N, "a.txt") := Regular 1 (bytes "one two one") 420]}.
Definition edit_world : World := mkWorld edit_tree 0 0 [].
Definition edit_input (all : bool) : Input := mkInput "lib/../src/./a.txt" (bytes "one") (bytes "three") all.
Definition edit_run (failing : option nat) (all : bool) : result EditError Report * World :=
  edit (edit_outside failing) edit_paths true (path_of "/work") (edit_input all) edit_world.
Definition new_file (failing : option nat) : result EditError PathBuf * World :=
  write_file (edit_outside failing) edit_paths true (path_of "/work") "doc/b.txt" (bytes "text") edit_world.
Lemma file_tools_exact_witness :
  (∃ report, (edit_run None true).1 = Ok report ∧ report_count report = 2
     ∧ edited (edit_outside None) edit_paths (path_of "/work") (edit_input true) edit_world report (edit_run None true).2)
  ∧ left_behind (edit_outside (Some 10)) edit_world (edit_run (Some 10) true).2
  ∧ left_behind (edit_outside None) edit_world (edit_run None false).2
  ∧ (∃ path, (new_file None).1 = Ok path
       ∧ wrote (edit_outside None) edit_paths (path_of "/work") (bytes "text") edit_world path (new_file None).2)
  ∧ kept edit_world (new_file (Some 7)).2.
Proof.
  split_and!.
  - eexists. split; [vm_compute; reflexivity|]. split; [reflexivity|].
    refine (proj1 (file_tools_exact (edit_outside None) (λ _ _, eq_refl) edit_paths) (path_of "/work") (edit_input true)
      edit_world (Ok _) (edit_run None true).2 _). vm_compute. reflexivity.
  - refine (proj1 (file_tools_exact (edit_outside (Some 10)) (λ _ _, eq_refl) edit_paths) (path_of "/work") (edit_input true)
      edit_world (Err _) (edit_run (Some 10) true).2 _). vm_compute. reflexivity.
  - refine (proj1 (file_tools_exact (edit_outside None) (λ _ _, eq_refl) edit_paths) (path_of "/work") (edit_input false)
      edit_world (Err _) (edit_run None false).2 _). vm_compute. reflexivity.
  - eexists. split; [vm_compute; reflexivity|].
    refine (proj1 (proj2 (file_tools_exact (edit_outside None) (λ _ _, eq_refl) edit_paths)) (path_of "/work") "doc/b.txt"
      (bytes "text") edit_world (Ok _) (new_file None).2 _). vm_compute. reflexivity.
  - refine (proj1 (proj2 (file_tools_exact (edit_outside (Some 7)) (λ _ _, eq_refl) edit_paths)) (path_of "/work") "doc/b.txt"
      (bytes "text") edit_world (Err _) (new_file (Some 7)).2 _). vm_compute. reflexivity.
Defined.
