(* ===== verification/ProjectState.v ===== *)
(** * ProjectState: the project state and its events

    [crates/adk-project-state/src]: the records of [types.rs] and, from
    [engine.rs], [State] with the replay of the event log and the derived
    [blocks] links.  [serde_json] is a parameter: the values of payloads, how
    records become values and back, and the fields of a value ([Json], its
    documented behaviour in [JsonLaws]).  A [DateTime<Utc>] is its number of
    nanoseconds; a [BTreeMap] is a [gmap] listed in the order of its keys. *)

From S2P Require Import Prelude Text.

Notation time := Z.

(** [Error], of lib.rs. *)
Inductive Error :=
| Invalid (message : string)
| NotFound (what : string)
| LockTimeout
| Poisoned
| Denied (message : string)
| Io (message : string)
| Json_ (message : string)
| Sqlite (message : string).
Notation Result := (result Error).

Definition SCHEMA_VERSION : Z := 1.

Section types.
Context {V : Type}.

Record Event := mkEvent {
  seq : Z;
  event_id : string;
  event_project : string;
  event_run : string;
  event_actor : string;
  event_time : time;
  event_type : string;
  payload : V;
}.
Record Project := mkProject {
  schema_version : Z;
  project_id : string;
  workdir : string;
  state_dir : string;
  project_created : time;
  project_updated : time;
}.
Record TaskComment := mkComment { comment_id : string; comment_actor : string; body : string; comment_at : time }.
Record Task := mkTask {
  task_id : string;
  title : string;
  description : string;
  task_type : string;
  status : string;
  priority : Z;
  assignee : string;
  depends_on : list string;
  blocks : list string;
  labels : list string;
  comments : list TaskComment;
  created_at : time;
  updated_at : time;
  closed_at : option time;
  source_run : string;
  metadata : V;
}.
Record Memory := mkMemory {
  memory_id : string;
  kind : string;
  scope : string;
  content : string;
  tags : list string;
  task_ids : list string;
  file_paths : list string;
  memory_run : string;
  memory_created : time;
  memory_updated : time;
  last_read_at : option time;
  memory_metadata : V;
}.
Record SessionSummary := mkSession {
  session_id : string;
  session_run : string;
  summary : string;
  session_tasks : list string;
  session_created : time;
  session_updated : time;
}.

(** The inputs of the operations. *)
Record CreateTaskInput := mkCreateTask {
  in_title : string; in_description : string; in_type : string; in_priority : Z;
  in_assignee : string; in_depends_on : list string; in_labels : list string;
  in_source_run : string; in_metadata : V;
}.
Record TaskPatch := mkTaskPatch {
  p_title : option string; p_description : option string; p_type : option string;
  p_status : option string; p_priority : option Z; p_assignee : option string;
  p_labels : list string; replace_labels : bool; p_metadata : option V;
}.
Record TaskFilter := mkTaskFilter {
  f_actor : string; f_assignee : string; f_labels : list string; f_limit : Z; include_assigned : bool;
}.
Record UpsertMemoryInput := mkUpsertMemory {
  u_id : string; u_kind : string; u_scope : string; u_content : string; u_tags : list string;
  u_task_ids : list string; u_file_paths : list string; u_source_run : string; u_metadata : V;
}.
Record MemoryFilter := mkMemoryFilter { query : string; kinds : list string; f_tags : list string; m_limit : Z }.
Record RetentionPolicy := mkRetention {
  before : option time; max_count : option nat; keep_pinned : bool; purge_history : bool;
}.
End types.
Arguments Event : clear implicits.
Arguments Task : clear implicits.
Arguments Memory : clear implicits.
Arguments CreateTaskInput : clear implicits.
Arguments TaskPatch : clear implicits.
Arguments UpsertMemoryInput : clear implicits.

(** ** [serde_json] *)
Class Json (V : Type) := {
  null : V;
  str : string → V;
  strs : list string → V;
  obj : list (string * V) → V;  (* [json!({..})] *)
  of_time : time → V;
  of_project : Project → V;
  of_task : Task V → V;
  of_comment : TaskComment → V;
  of_memory : Memory V → V;
  of_session : SessionSummary → V;
  of_patch : TaskPatch V → V;
  field : V → string → V;  (* [value["name"]] *)
  as_str : V → option string;
  to_time : V → Result time;
  to_project : V → Result Project;
  to_task : V → Result (Task V);
  to_comment : V → Result TaskComment;
  to_memory : V → Result (Memory V);
  to_session : V → Result SessionSummary;
}.
Class JsonLaws {V} (J : Json V) := {
  field_obj : ∀ l k v, NoDup l.*1 → (k, v) ∈ l → field (obj l) k = v;
  as_str_str : ∀ s, as_str (str s) = Some s;
  time_round_trip : ∀ t, to_time (of_time t) = Ok t;
  project_round_trip : ∀ p, to_project (of_project p) = Ok p;
  task_round_trip : ∀ t, to_task (of_task t) = Ok t;
  comment_round_trip : ∀ c, to_comment (of_comment c) = Ok c;
  memory_round_trip : ∀ m, to_memory (of_memory m) = Ok m;
  session_round_trip : ∀ s, to_session (of_session s) = Ok s;
  field_task : ∀ t, as_str (field (of_task t) "id") = Some (task_id t);
  field_memory : ∀ m, as_str (field (of_memory m) "id") = Some (memory_id m);
}.

(** ** Helpers of engine.rs *)
Definition empty (s : string) : bool := String.eqb s "".
Definition required (value name : string) : Result string :=
  if empty (trim value) then Err (Invalid (name +:+ " is required")) else Ok (trim value).
(** The values trimmed, without the empty ones and the repetitions. *)
Fixpoint unique_from (seen : list string) (values : list string) : list string :=
  match values with
  | [] => []
  | v :: values =>
      let s := trim v in
      if empty s || bool_decide (s ∈ seen) then unique_from seen values
      else s :: unique_from (s :: seen) values
  end.
Definition unique : list string → list string := unique_from [].
Definition first (a b : string) : string := if empty (trim a) then trim b else trim a.
Definition limit {A} (values : list A) (count : Z) : list A :=
  if (0 <? count)%Z then take (Z.to_nat count) values else values.
Definition matches_labels (actual wanted : list string) : bool :=
  forallb (λ w, existsb (λ a, eq_ignore_ascii_case (trim a) (trim w)) actual) wanted.
Definition matches_any (actual : string) (wanted : list string) : bool :=
  bool_decide (wanted = []) || existsb (λ w, eq_ignore_ascii_case (trim actual) (trim w)) wanted.

(** [Ordering::then] *)
Definition then_ (a b : comparison) : comparison := match a with Eq => b | _ => a end.

(** ** [State] *)
Section state.
Context {V : Type} {J : Json V}.
Notation Event := (Event V).
Notation Task := (Task V).
Notation Memory := (Memory V).

Record State := mkState {
  project : Project;
  tasks : gmap string Task;
  memories : gmap string Memory;
  sessions : gmap string SessionSummary;
  last_seq : Z;
}.
Definition default_project : Project := mkProject 0 "" "" "" 0 0.
Definition empty_state : State := mkState default_project ∅ ∅ ∅ 0.

Definition set_project (p : Project) (s : State) : State :=
  mkState p (tasks s) (memories s) (sessions s) (last_seq s).
Definition set_tasks (t : gmap string Task) (s : State) : State :=
  mkState (project s) t (memories s) (sessions s) (last_seq s).
Definition set_memories (m : gmap string Memory) (s : State) : State :=
  mkState (project s) (tasks s) m (sessions s) (last_seq s).
Definition set_sessions (x : gmap string SessionSummary) (s : State) : State :=
  mkState (project s) (tasks s) (memories s) x (last_seq s).
Definition set_last_seq (n : Z) (s : State) : State :=
  mkState (project s) (tasks s) (memories s) (sessions s) n.
(** [self.tasks.insert(task.id.clone(), task)] and the like. *)
Definition put_task (t : Task) (s : State) : State := set_tasks (<[task_id t := t]> (tasks s)) s.
Definition put_memory (m : Memory) (s : State) : State := set_memories (<[memory_id m := m]> (memories s)) s.
Definition put_session (x : SessionSummary) (s : State) : State :=
  set_sessions (<[session_id x := x]> (sessions s)) s.

Definition task_mut (id : string) (s : State) : Result Task :=
  ok_or (tasks s !! id) (NotFound ("task " +:+ id)).

(** What the events of a task change in it. *)
Definition claimed_by (actor : string) (at_ : time) (t : Task) : Task :=
  mkTask (task_id t) (title t) (description t) (task_type t) "in_progress" (priority t) actor
    (depends_on t) (blocks t) (labels t) (comments t) (created_at t) at_ None (source_run t) (metadata t).
Definition closed_with (at_ : time) (t : Task) : Task :=
  mkTask (task_id t) (title t) (description t) (task_type t) "closed" (priority t) (assignee t)
    (depends_on t) (blocks t) (labels t) (comments t) (created_at t) at_ (Some at_) (source_run t) (metadata t).
Definition with_comments (c : list TaskComment) (at_ : time) (t : Task) : Task :=
  mkTask (task_id t) (title t) (description t) (task_type t) (status t) (priority t) (assignee t)
    (depends_on t) (blocks t) (labels t) c (created_at t) at_ (closed_at t) (source_run t) (metadata t).
Definition with_deps (deps : list string) (at_ : time) (t : Task) : Task :=
  mkTask (task_id t) (title t) (description t) (task_type t) (status t) (priority t) (assignee t)
    deps (blocks t) (labels t) (comments t) (created_at t) at_ (closed_at t) (source_run t) (metadata t).
Definition with_blocks (bs : list string) (t : Task) : Task :=
  mkTask (task_id t) (title t) (description t) (task_type t) (status t) (priority t) (assignee t)
    (depends_on t) bs (labels t) (comments t) (created_at t) (updated_at t) (closed_at t) (source_run t)
    (metadata t).

(** [p["..."].as_str().unwrap_or_default()] *)
Definition str_at (p : V) (k : string) : string := default "" (as_str (field p k)).
(** [p["task"]["id"].as_str().is_some_and(|id| !id.is_empty())] *)
Definition has_task (p : V) : bool := negb (empty (str_at (field p "task") "id")).
(** [*self.task_mut(id)? = f(..)]: the entry of the map is changed in place. *)
Definition change_task (id : string) (f : Task → Result Task) (s : State) : Result State :=
  t ← task_mut id s;
  t ← f t;
  Ok (set_tasks (<[id := t]> (tasks s)) s).

Definition apply (ev : Event) (s : State) : Result State :=
  let p := payload ev in
  let id := str_at p "id" in
  let at_ := to_time (field p "at") in
  let is_ := String.eqb (event_type ev) in
  if is_ "project.initialized" then
    project ← to_project p;
    _ ← ensure (schema_version project =? SCHEMA_VERSION)%Z (Invalid "unsupported project schema version");
    Ok (set_project project s)
  else if is_ "task.created" then task ← to_task p; Ok (put_task task s)
  else if is_ "task.updated" then
    if has_task p then task ← to_task (field p "task"); Ok (put_task task s) else Ok s
  else if is_ "task.claimed" then
    change_task id (λ t, at_ ← at_; Ok (claimed_by (str_at p "actor") at_ t)) s
  else if is_ "task.closed" then
    if has_task p then task ← to_task (field p "task"); Ok (put_task task s)
    else
      change_task id (λ t,
        at_ ← at_;
        let t := closed_with at_ t in
        let reason := str_at p "reason" in
        Ok (if empty reason then t
            else with_comments (comments t ++ [mkComment ("comment_" +:+ event_id ev) (event_actor ev)
                                                ("Closed: " +:+ reason) at_]) (updated_at t) t)) s
  else if is_ "task.comment_added" then
    comment ← to_comment (field p "comment");
    change_task id (λ t, Ok (with_comments (comments t ++ [comment]) (comment_at comment) t)) s
  else if is_ "task.dependency_added" then
    change_task id (λ t, at_ ← at_; Ok (with_deps (unique (depends_on t ++ [str_at p "depends_on"])) at_ t)) s
  else if is_ "task.dependency_removed" then
    change_task id (λ t,
      at_ ← at_;
      Ok (with_deps (List.filter (λ d, negb (String.eqb d (str_at p "depends_on"))) (depends_on t)) at_ t)) s
  else if is_ "memory.upserted" then memory ← to_memory p; Ok (put_memory memory s)
  else if is_ "memory.deleted" then Ok (set_memories (delete id (memories s)) s)
  else if is_ "session.summary_saved" then x ← to_session p; Ok (put_session x s)
  else Ok s.

Definition add_block (ts : gmap string Task) (link : string * string) : gmap string Task :=
  alter (λ t, if bool_decide (link.1 ∈ blocks t) then t else with_blocks (blocks t ++ [link.1]) t) link.2 ts.
Definition links (ts : gmap string Task) : list (string * string) :=
  values ts ≫= λ t, (λ d, (task_id t, d)) <$> depends_on t.
Definition recompute_blocks (s : State) : State :=
  set_tasks (foldl add_block (with_blocks [] <$> tasks s) (links (tasks s))) s.

Definition replay_event (s : State) (ev : Event) : Result State :=
  s ← apply ev s;
  Ok (set_last_seq (Z.max (last_seq s) (seq ev)) s).
Definition replay (events : list Event) : Result State :=
  s ← foldM replay_event empty_state events;
  Ok (recompute_blocks s).

(** ** Queries *)
Definition compare_tasks (a b : Task) : comparison :=
  then_ (String.compare (status a) (status b)) (then_ (Z.compare (priority a) (priority b))
    (then_ (Z.compare (updated_at b) (updated_at a)) (String.compare (task_id a) (task_id b)))).
Definition sorted_tasks (s : State) : list Task :=
  merge_sort (λ a b, compare_tasks a b ≠ Gt) (values (tasks s)).
Definition compare_memories (a b : Memory) : comparison :=
  then_ (Z.compare (memory_updated b) (memory_updated a)) (String.compare (memory_id a) (memory_id b)).
Definition sorted_memories (s : State) : list Memory :=
  merge_sort (λ a b, compare_memories a b ≠ Gt) (values (memories s)).
Definition compare_sessions (a b : SessionSummary) : comparison :=
  then_ (Z.compare (session_updated b) (session_updated a)) (String.compare (session_id a) (session_id b)).
Definition sorted_sessions (s : State) : list SessionSummary :=
  merge_sort (λ a b, compare_sessions a b ≠ Gt) (values (sessions s)).

Definition has_blocker (s : State) (t : Task) : bool :=
  existsb (λ id, is_none_or (tasks s !! id) (λ t, negb (String.eqb (status t) "closed"))) (depends_on t).
Definition is_ready (s : State) (f : TaskFilter) (t : Task) : bool :=
  let actor := first (f_actor f) (f_assignee f) in
  String.eqb (status t) "open"
  && matches_labels (labels t) (f_labels f)
  && (empty (f_assignee f) || empty (assignee t) || String.eqb (assignee t) (f_assignee f))
  && (include_assigned f || empty (assignee t) || String.eqb (assignee t) actor)
  && negb (has_blocker s t).
Definition ready (s : State) (f : TaskFilter) : list Task :=
  limit (List.filter (is_ready s f) (sorted_tasks s)) (f_limit f).

(** ** [filter_memories]; [lower] is [str::to_lowercase]. *)
Context (lower : string → string).
Definition haystack (m : Memory) : string :=
  lower (String.concat " " ([content m; kind m; scope m] ++ tags m ++ task_ids m ++ file_paths m)).
Definition matches_query (q : string) (m : Memory) : bool :=
  let h := bytes (haystack m) in
  empty q || contains (bytes q) h || existsb (λ term, contains term h) (split_whitespace (bytes q)).
Definition compare_found (a b : Memory) : comparison :=
  let pinned m := String.eqb (kind m) "pinned" in
  then_ (Bool.compare (pinned b) (pinned a)) (compare_memories a b).
Definition filter_memories (ms : list Memory) (f : MemoryFilter) : list Memory :=
  let q := lower (trim (query f)) in
  let found := List.filter (λ m, matches_any (kind m) (kinds f) && matches_labels (tags m) (f_tags f)
                                 && matches_query q m) ms in
  limit (merge_sort (λ a b, compare_found a b ≠ Gt) found) (m_limit f).

Definition normalize (value : string) (valid : list string) (default : string) : string :=
  let v := lower (trim value) in
  if bool_decide (v ∈ valid) then v else default.
Definition normalize_type (value : string) : string :=
  if eq_ignore_ascii_case (trim value) "feat" then "feature"
  else normalize value ["task"; "bug"; "feature"; "chore"; "epic"] "task".
Definition normalize_status (value : string) : string :=
  let v := lower (trim value) in
  if bool_decide (v ∈ ["claimed"; "in-progress"]) then "in_progress"
  else if bool_decide (v ∈ ["done"; "completed"]) then "closed"
  else normalize value ["open"; "in_progress"; "blocked"; "closed"; "deferred"] "open".
End state.
Arguments State : clear implicits.
