(* ===== verification/ProjectStore.v ===== *)
(** * ProjectStore: the operations on the project state

    [crates/adk-project-state/src/engine.rs], [ProjectStore]: every operation
    replays the event log, checks its input, and appends one event, inside a
    transaction of the backend ([Backend], the trait [Transaction] with
    [Backend::transaction]).  The clock, the random identifiers and the hooks
    are arguments.  [prime_context], [memory_stats] and the ranking of recall are
    not modelled. *)

From S2P Require Import Prelude Text ProjectState.

(** A vector of the embedding cache; whether it still belongs to a memory. *)
Class Embeddings (V R : Type) := embedding_fresh : R → Memory V → string → bool.

(** The trait [Transaction], and how a transaction begins and ends. *)
Class Backend (V R B : Type) := {
  tx_events : SE B Error (list (Event V));
  tx_append : Event V → SE B Error unit;
  tx_replace : list (Event V) → SE B Error unit;
  tx_snapshot : State V → SE B Error unit;
  tx_embeddings : SE B Error (gmap string R);
  tx_put_embeddings : gmap string R → SE B Error unit;
  tx_delete_embeddings : list string → SE B Error unit;
  tx_begin : SE B Error unit;
  (** the end of a transaction that succeeded, and of one that failed, from
      the states it began and ended in *)
  tx_commit : B → SE B Error unit;
  tx_abort : B → B → B;
}.

Section store.
Context {V R B : Type} {J : Json V} {Em : Embeddings V R} {Bk : Backend V R B}.
Context (lower : string → string).
Notation Event := (Event V).
Notation Task := (Task V).
Notation Memory := (Memory V).
Notation State := (State V).

(** [StoreOptions], the state directory, and the hooks. *)
Record ProjectStore := mkStore {
  opt_project : string;
  opt_work_dir : string;
  opt_actor : string;
  opt_run : string;
  store_dir : string;
  prepare_memory : UpsertMemoryInput V → Result (UpsertMemoryInput V);
  before_write : Event → Result unit;
}.
(** What the operations meet: the readings of the clock and the random
    identifiers. *)
Record Outside := mkOutside { now_at : nat → time; fresh : nat → string }.
Record World := mkWorld { backend : B; ticks : nat; drawn : nat }.

Context (store : ProjectStore) (o : Outside).
Notation M := (SE World Error).

Definition tx {A} (m : SE B Error A) : M A := λ w,
  let '(r, b) := m (backend w) in (r, mkWorld b (ticks w) (drawn w)).
Definition utc_now : M time := λ w,
  (Ok (now_at o (ticks w)), mkWorld (backend w) (S (ticks w)) (drawn w)).
Definition id (prefix : string) : M string := λ w,
  (Ok (prefix +:+ "_" +:+ fresh o (drawn w)), mkWorld (backend w) (ticks w) (S (drawn w))).

(** [Backend::transaction] *)
Definition transaction {A} (m : M A) : M A := λ w,
  match tx tx_begin w with
  | (Err e, w) => (Err e, w)
  | (Ok _, w0) =>
      match m w0 with
      | (Ok a, w) =>
          match tx (tx_commit (backend w0)) w with
          | (Ok _, w) => (Ok a, w)
          | (Err e, w) => (Err e, w)
          end
      | (Err e, w) => (Err e, mkWorld (tx_abort (backend w0) (backend w)) (ticks w) (drawn w))
      end
  end.

Definition replayed : M State := events ← tx tx_events; lift (replay events).

(** [ProjectStore::event] *)
Definition event (seq : Z) (kind : string) (payload : V) (t : time) : M Event :=
  evt ← id "evt";
  mret (mkEvent seq evt (opt_project store) (opt_run store) (opt_actor store) t kind payload).

Definition touch (now : time) (s : State) : State :=
  let p := project s in
  set_project (mkProject (schema_version p) (project_id p) (workdir p) (state_dir p) (project_created p) now) s.

(** [mutate] *)
Definition mutate {T} (kind : string) (f : State → time → M (V * T)) : M T :=
  transaction (
    state ← replayed;
    now ← utc_now;
    '(payload, out) ← f state now;
    ev ← event (last_seq state + 1) kind payload now;
    _ ← lift (before_write store ev);
    state ← lift (apply ev state);
    let state := touch now (recompute_blocks state) in
    _ ← (if String.eqb kind "memory.deleted" then tx (tx_delete_embeddings [str_at payload "id"]) else mret tt);
    _ ← tx (tx_append ev);
    _ ← tx (tx_snapshot state);
    mret out).

(** [open] *)
Definition open : M unit :=
  transaction (
    state ← replayed;
    state ← (if (last_seq state =? 0)%Z then
      now ← utc_now;
      let project := mkProject SCHEMA_VERSION (opt_project store) (opt_work_dir store) (store_dir store) now now in
      ev ← event 1 "project.initialized" (of_project project) now;
      _ ← tx (tx_append ev);
      state ← lift (apply ev state);
      mret (set_last_seq 1 state)
    else if negb (String.eqb (project_id (project state)) (opt_project store))
    then fail (Invalid "state belongs to another project")
    else mret state);
    embeddings ← tx tx_embeddings;
    let orphans := List.filter (λ id, negb (bool_decide (is_Some (memories state !! id)))) (map_to_list embeddings).*1 in
    _ ← (if bool_decide (orphans = []) then mret tt else tx (tx_delete_embeddings orphans));
    tx (tx_snapshot state)).

(** ** Tasks *)
Definition create_task (input : CreateTaskInput V) : M Task :=
  mutate "task.created" (λ _ now,
    t ← lift (required (in_title input) "title");
    task_id ← id "task";
    let task := mkTask task_id t (trim (in_description input)) (normalize_type lower (in_type input)) "open"
      (Z.max 0 (Z.min 4 (in_priority input))) (trim (in_assignee input)) (unique (in_depends_on input)) []
      (unique (in_labels input)) [] now now None (first (in_source_run input) (opt_run store))
      (in_metadata input) in
    mret (of_task task, task)).

(** The fields of [patch], one after the other. *)
Definition patched (patch : TaskPatch V) (now : time) (t : Task) : Task :=
  let status' := match p_status patch with Some v => normalize_status lower v | None => status t end in
  mkTask (task_id t)
    (match p_title patch with Some v => trim v | None => title t end)
    (match p_description patch with Some v => trim v | None => description t end)
    (match p_type patch with Some v => normalize_type lower v | None => task_type t end)
    status'
    (match p_priority patch with Some v => Z.max 0 (Z.min 4 v) | None => priority t end)
    (match p_assignee patch with Some v => trim v | None => assignee t end)
    (depends_on t) (blocks t)
    (if replace_labels patch then unique (p_labels patch) else labels t)
    (comments t) (created_at t) now
    (match p_status patch with
     | Some _ => if String.eqb status' "closed" then Some now else None
     | None => closed_at t
     end)
    (source_run t)
    (match p_metadata patch with Some v => v | None => metadata t end).
Definition update_task (id : string) (patch : TaskPatch V) : M Task :=
  mutate "task.updated" (λ state now,
    t ← lift (task_mut (trim id) state);
    let task := patched patch now t in
    mret (obj [("id", str (task_id task)); ("patch", of_patch patch); ("task", of_task task)], task)).
Definition claim_task (id actor : string) : M Task :=
  mutate "task.claimed" (λ state now,
    t ← lift (task_mut (trim id) state);
    let actor := first (first actor (opt_actor store)) "agent" in
    let task := claimed_by actor now t in
    mret (obj [("id", str (task_id task)); ("actor", str actor); ("at", of_time now)], task)).
Definition close_task (task reason : string) : M Task :=
  mutate "task.closed" (λ state now,
    t ← lift (task_mut (trim task) state);
    let closed := closed_with now t in
    closed ← (if empty (trim reason) then mret closed else
      comment ← id "comment";
      mret (with_comments (comments closed ++ [mkComment comment (opt_actor store) ("Closed: " +:+ trim reason) now])
              now closed));
    mret (obj [("id", str (task_id closed)); ("reason", str (trim reason)); ("at", of_time now);
               ("task", of_task closed)], closed)).
Definition dependency (task dep : string) (add : bool) : M unit :=
  mutate (if add then "task.dependency_added" else "task.dependency_removed") (λ state now,
    let task := trim task in
    let dep := trim dep in
    _ ← lift (task_mut task state);
    _ ← lift (ensure (negb add || bool_decide (is_Some (tasks state !! dep))) (NotFound ("dependency task " +:+ dep)));
    _ ← lift (ensure (negb add || negb (String.eqb task dep)) (Invalid "task cannot depend on itself"));
    mret (obj [("id", str task); ("depends_on", str dep); ("at", of_time now)], tt)).
Definition add_dependency (task dep : string) : M unit := dependency task dep true.
Definition remove_dependency (task dep : string) : M unit := dependency task dep false.
Definition add_comment (task actor body : string) : M TaskComment :=
  mutate "task.comment_added" (λ state now,
    t ← lift (task_mut (trim task) state);
    comment ← id "comment";
    text ← lift (required body "comment body");
    let c := mkComment comment (first actor (opt_actor store)) text now in
    mret (obj [("id", str (task_id t)); ("comment", of_comment c)], c)).

(** [state], and the queries on it *)
Definition events : M (list Event) := transaction (tx tx_events).
Definition state : M State := l ← events; lift (replay l).
Definition ready_tasks (f : TaskFilter) : M (list Task) := s ← state; mret (ready s f).
Definition list_tasks : M (list Task) := s ← state; mret (sorted_tasks s).
Definition get_task (id : string) : M Task := s ← state; lift (ok_or (tasks s !! trim id) (NotFound ("task " +:+ id))).
Definition list_memories (f : MemoryFilter) : M (list Memory) :=
  s ← state; mret (filter_memories lower (sorted_memories s) f).
Definition search_memories (f : MemoryFilter) : M (list Memory) :=
  _ ← lift (required (query f) "query"); list_memories f.
Definition list_session_summaries (count : Z) : M (list SessionSummary) :=
  s ← state; mret (limit (sorted_sessions s) count).

(** ** Memories and sessions *)
Definition upsert_memory (input : UpsertMemoryInput V) : M Memory :=
  input ← lift (prepare_memory store input);
  mutate "memory.upserted" (λ state now,
    mem ← (if empty (trim (u_id input)) then id "mem" else mret (trim (u_id input)));
    text ← lift (required (u_content input) "memory content");
    let memory := mkMemory mem
      (normalize lower (u_kind input) ["pinned"; "semantic"; "episodic"; "procedural"] "semantic")
      (normalize lower (u_scope input) ["project"; "user"; "task"; "file"] "project")
      text (unique (u_tags input)) (unique (u_task_ids input)) (unique (u_file_paths input))
      (first (u_source_run input) (opt_run store))
      (match memories state !! mem with Some m => memory_created m | None => now end)
      now None (u_metadata input) in
    mret (of_memory memory, memory)).
Definition delete_memory (mem : string) : M unit :=
  mutate "memory.deleted" (λ state now,
    let mem := trim mem in
    _ ← lift (ensure (bool_decide (is_Some (memories state !! mem))) (NotFound ("memory " +:+ mem)));
    mret (obj [("id", str mem); ("at", of_time now)], tt)).
Definition save_session_summary (x : SessionSummary) : M SessionSummary :=
  mutate "session.summary_saved" (λ state now,
    _ ← lift (required (summary x) "session summary");
    '(key, created) ← (if empty (trim (session_id x)) then key ← id "session"; mret (key, now)
                       else mret (session_id x, session_created x));
    let created := match sessions state !! key with Some old => session_created old | None => created end in
    let x := mkSession key (first (session_run x) (opt_run store)) (summary x) (unique (session_tasks x)) created now in
    mret (of_session x, x)).

(** [purge_locked]: the events of these memories leave the log, which is
    numbered again. *)
Definition purged (ids : list string) (ev : Event) : bool :=
  (String.eqb (event_type ev) "memory.upserted" || String.eqb (event_type ev) "memory.deleted")
  && is_some_and (as_str (field (payload ev) "id")) (λ id, bool_decide (id ∈ ids)).
Definition with_seq (n : nat) (ev : Event) : Event :=
  mkEvent (Z.of_nat n + 1) (event_id ev) (event_project ev) (event_run ev) (event_actor ev) (event_time ev)
    (event_type ev) (payload ev).
Definition purge_events (ids : list string) (l : list Event) : list Event :=
  imap with_seq (List.filter (λ ev, negb (purged ids ev)) l).
Definition purge_locked (ids : list string) : M nat :=
  events ← tx tx_events;
  now ← utc_now;
  notice ← event 0 "memory.purged" (obj [("ids", strs ids)]) now;
  _ ← lift (before_write store notice);
  let kept := purge_events ids events in
  state ← lift (replay kept);
  _ ← tx (tx_delete_embeddings ids);
  _ ← tx (tx_replace kept);
  _ ← tx (tx_snapshot state);
  mret (length events - length kept)%nat.
Definition purge_memories (ids : list string) : M nat := transaction (purge_locked (unique ids)).

(** [retain_memories] *)
Definition expired (r : RetentionPolicy) (i : nat) (m : Memory) : bool :=
  is_some_and (before r) (λ t, (memory_updated m <? t)%Z) || is_some_and (max_count r) (λ n, (n <=? i)%nat).
Definition candidate (r : RetentionPolicy) (m : Memory) : bool :=
  negb (keep_pinned r) || negb (String.eqb (kind m) "pinned").
Definition retired (r : RetentionPolicy) (s : State) : list string :=
  let candidates := List.filter (candidate r) (sorted_memories s) in
  memory_id ∘ snd <$> List.filter (λ im, expired r im.1 im.2) (imap (λ i m, (i, m)) candidates).
Fixpoint pending (seq : Z) (ids : list string) : M (list Event) :=
  match ids with
  | [] => mret []
  | mem :: ids =>
      now ← utc_now;
      ev ← event seq "memory.deleted" (obj [("id", str mem); ("at", of_time now)]) now;
      _ ← lift (before_write store ev);
      rest ← pending (seq + 1) ids;
      mret (ev :: rest)
  end.
Fixpoint append_all (s : State) (evs : list Event) : M State :=
  match evs with
  | [] => mret s
  | ev :: evs =>
      s ← lift (apply ev s);
      _ ← tx (tx_append ev);
      append_all s evs
  end.
Definition retain_memories (r : RetentionPolicy) : M (list string) :=
  transaction (
    state ← replayed;
    let ids := retired r state in
    _ ← (if purge_history r then _ ← purge_locked ids; mret tt
         else
           evs ← pending (last_seq state + 1) ids;
           _ ← tx (tx_delete_embeddings ids);
           state ← append_all state evs;
           tx (tx_snapshot state));
    mret ids).

(** The transaction of recall.rs that caches new vectors. *)
Definition cache_embeddings (model : string) (records : gmap string R) : M unit :=
  transaction (
    current ← replayed;
    let still (kr : string * R) :=
      is_some_and (memories current !! kr.1) (λ m, embedding_fresh kr.2 m model) in
    tx (tx_put_embeddings (list_to_map (List.filter still (map_to_list records))))).
End store.
