(* ===== verification/ProjectReplay.v ===== *)
(** * ProjectReplay: replaying the event log

    The links [blocks] are derived: replaying does not depend on them, and
    after it they are the inverse of [depends_on].  What a well-formed log
    keeps true of the state. *)

From stdpp Require Import sorting.
From S2P Require Import Prelude Text ProjectState.

(** ** [unique] *)
Lemma unique_from_spec seen vs s :
  s ∈ unique_from seen vs ↔ s ≠ "" ∧ s ∉ seen ∧ ∃ v, v ∈ vs ∧ s = trim v.
Proof.
  revert seen. induction vs as [|v vs IH]; intros seen; simpl; [set_solver|].
  unfold empty. destruct (String.eqb_spec (trim v) ""); simpl; [rewrite IH; set_solver|].
  case_bool_decide; simpl; [rewrite IH; set_solver|]. rewrite elem_of_cons, IH.
  destruct (decide (s = trim v)); set_solver.
Qed.
Lemma unique_from_NoDup seen vs : NoDup (unique_from seen vs).
Proof.
  revert seen. induction vs as [|v vs IH]; intros seen; simpl; [constructor|].
  destruct (_ || _); [done|]. constructor; [|done]. rewrite unique_from_spec. set_solver.
Qed.
Lemma unique_NoDup vs : NoDup (unique vs).
Proof. apply unique_from_NoDup. Qed.

(** ** [values] *)
Lemma values_fmap {A B} (f : A → B) (m : gmap string A) : values (f <$> m) = f <$> values m.
Proof.
  unfold values. rewrite dom_fmap_L. induction (merge_sort _ _) as [|k ks IH]; [done|]. csimpl.
  rewrite lookup_fmap, IH. by destruct (m !! k).
Qed.
Lemma values_NoDup {A} (m : gmap string A) (key : A → string) :
  map_Forall (λ k x, key x = k) m → NoDup (values m).
Proof.
  intros Hk. unfold values.
  assert (NoDup (merge_sort String.le (elements (dom m)))) as Hnd.
  { rewrite merge_sort_Permutation. apply NoDup_elements. }
  induction Hnd as [|k ks Hk' Hks IH]; csimpl; [constructor|].
  destruct (m !! k) as [x|] eqn:Hx; [|done]. constructor; [|done].
  rewrite list_elem_of_omap. intros (k2 & Hk2 & Hx2). apply Hk in Hx, Hx2. congruence.
Qed.

(** ** Equal but for the derived links *)
Section replay.
Context {V : Type} {J : Json V}.
Notation Event := (Event V).
Notation Task := (Task V).
Notation State := (State V).

Definition erase (s : State) : State := set_tasks (with_blocks [] <$> tasks s) s.
Definition alike (s s' : State) : Prop := erase s = erase s'.
#[export] Instance alike_equivalence : Equivalence alike.
Proof. unfold alike. split; repeat intro; congruence. Qed.

Lemma with_blocks_twice b b' (t : Task) : with_blocks b (with_blocks b' t) = with_blocks b t.
Proof. done. Qed.
Lemma erase_fmap (m : gmap string Task) : with_blocks [] <$> (with_blocks [] <$> m) = with_blocks [] <$> m.
Proof. rewrite <-map_fmap_compose. by apply map_fmap_ext. Qed.
Lemma erase_erase s : erase (erase s) = erase s.
Proof. unfold erase, set_tasks. simpl. by rewrite erase_fmap. Qed.
Lemma alike_spec s s' :
  alike s s' ↔ project s = project s' ∧ memories s = memories s' ∧ sessions s = sessions s'
    ∧ last_seq s = last_seq s' ∧ with_blocks [] <$> tasks s = with_blocks [] <$> tasks s'.
Proof.
  unfold alike, erase, set_tasks. split.
  - intros Hs. split_and!; [apply (f_equal project Hs)|apply (f_equal memories Hs)|
      apply (f_equal sessions Hs)|apply (f_equal last_seq Hs)|apply (f_equal tasks Hs)].
  - intros (-> & -> & -> & -> & Ht). by rewrite Ht.
Qed.
Lemma alike_lookup s s' k t :
  alike s s' → tasks s !! k = Some t → ∃ t', tasks s' !! k = Some t' ∧ with_blocks [] t = with_blocks [] t'.
Proof.
  intros (_ & _ & _ & _ & Ht)%alike_spec Hk. apply (f_equal (.!! k)) in Ht.
  rewrite !lookup_fmap, Hk in Ht. simpl in Ht. destruct (tasks s' !! k) as [t'|]; [|done].
  apply (inj Some) in Ht. by exists t'.
Qed.
Lemma alike_dom s s' k : alike s s' → is_Some (tasks s !! k) ↔ is_Some (tasks s' !! k).
Proof.
  intros Hs. split; intros [t Ht]; [|symmetry in Hs]; eapply alike_lookup in Ht as (t' & ? & _); eauto.
Qed.

(** Replacing the same task by tasks that are alike. *)
Lemma alike_put s s' k (t t' : Task) :
  alike s s' → with_blocks [] t = with_blocks [] t' →
  alike (set_tasks (<[k := t]> (tasks s)) s) (set_tasks (<[k := t']> (tasks s')) s').
Proof.
  rewrite !alike_spec. intros (? & ? & ? & ? & Ht) Heq. simpl. split_and!; [done..|].
  by rewrite !fmap_insert, Ht, Heq.
Qed.
Lemma alike_fields (t t' : Task) :
  with_blocks [] t = with_blocks [] t' → t' = with_blocks (blocks t') t.
Proof. destruct t, t'. unfold with_blocks. simpl. intros [=]. by subst. Qed.

(** A change of a task that does not look at its links. *)
Definition blind (f : Task → Result Task) : Prop :=
  ∀ b t, f (with_blocks b t) = with_blocks b <$> f t.
Lemma change_task_alike id f s s' s1 :
  blind f → alike s s' → change_task id f s = Ok s1 →
  ∃ s1', change_task id f s' = Ok s1' ∧ alike s1 s1'.
Proof.
  intros Hf Hs Hc. unfold change_task in *. apply bind_Ok in Hc as (t & Ht & Hc).
  apply ok_or_Ok in Ht. apply bind_Ok in Hc as (t1 & Ht1 & [= <-]).
  eapply alike_lookup in Ht as (t' & Ht' & Heq); [|done].
  unfold task_mut. rewrite Ht'. simpl. rewrite (alike_fields _ _ Heq), Hf, Ht1. simpl.
  eexists. split; [done|]. by apply alike_put.
Qed.

Lemma apply_alike ev s s' s1 :
  alike s s' → apply ev s = Ok s1 → ∃ s1', apply ev s' = Ok s1' ∧ alike s1 s1'.
Proof.
  intros Hs. unfold apply. cbv zeta.
  destruct (String.eqb _ "project.initialized").
  { intros Hp. apply bind_Ok in Hp as (p & -> & Hp). apply bind_Ok in Hp as ([] & He & [= <-]).
    simpl. rewrite He. eexists. split; [done|]. apply alike_spec in Hs as (? & ? & ? & ? & ?).
    by apply alike_spec. }
  assert (∀ t s1, @Ok Error _ (put_task t s) = Ok s1 →
    ∃ s1', @Ok Error _ (put_task t s') = Ok s1' ∧ alike s1 s1') as Hput.
  { intros t s2 [= <-]. eexists. split; [done|]. by apply alike_put. }
  destruct (String.eqb _ "task.created").
  { intros Hp. apply bind_Ok in Hp as (t & -> & Hp). simpl. by apply Hput. }
  destruct (String.eqb _ "task.updated").
  { destruct (has_task _); [|intros [= <-]; eauto].
    intros Hp. apply bind_Ok in Hp as (t & -> & Hp). simpl. by apply Hput. }
  destruct (String.eqb _ "task.claimed").
  { apply change_task_alike; [|done]. intros b t. by destruct (to_time _). }
  destruct (String.eqb _ "task.closed").
  { destruct (has_task _).
    - intros Hp. apply bind_Ok in Hp as (t & -> & Hp). simpl. by apply Hput.
    - apply change_task_alike; [|done]. intros b t. destruct (to_time _); [|done]. simpl.
      by destruct (empty _). }
  destruct (String.eqb _ "task.comment_added").
  { intros Hp. apply bind_Ok in Hp as (c & -> & Hp). simpl. eapply change_task_alike; done. }
  destruct (String.eqb _ "task.dependency_added").
  { apply change_task_alike; [|done]. intros b t. by destruct (to_time _). }
  destruct (String.eqb _ "task.dependency_removed").
  { apply change_task_alike; [|done]. intros b t. by destruct (to_time _). }
  apply alike_spec in Hs as (? & Hm & Hx & ? & ?).
  destruct (String.eqb _ "memory.upserted").
  { intros Hp. apply bind_Ok in Hp as (m & -> & [= <-]). eexists. split; [done|].
    apply alike_spec. simpl. by rewrite Hm. }
  destruct (String.eqb _ "memory.deleted").
  { intros [= <-]. eexists. split; [done|]. apply alike_spec. simpl. by rewrite Hm. }
  destruct (String.eqb _ "session.summary_saved").
  { intros Hp. apply bind_Ok in Hp as (m & -> & [= <-]). eexists. split; [done|].
    apply alike_spec. simpl. by rewrite Hx. }
  intros [= <-]. eexists. split; [done|]. by apply alike_spec.
Qed.

(** ** The derived links *)
Lemma links_erase (ts : gmap string Task) : links (with_blocks [] <$> ts) = links ts.
Proof. unfold links. rewrite values_fmap. induction (values ts) as [|t l IH]; [done|]. csimpl. by rewrite IH. Qed.
Lemma state_eq (s s' : State) :
  project s = project s' → tasks s = tasks s' → memories s = memories s' → sessions s = sessions s' →
  last_seq s = last_seq s' → s = s'.
Proof. destruct s, s'. simpl. by intros -> -> -> -> ->. Qed.
Lemma recompute_alike s s' : alike s s' → recompute_blocks s = recompute_blocks s'.
Proof.
  intros (? & ? & ? & ? & Ht)%alike_spec. apply state_eq; try done. simpl.
  by rewrite <-(links_erase (tasks s)), <-(links_erase (tasks s')), Ht.
Qed.
Lemma add_block_erase (ts : gmap string Task) l : with_blocks [] <$> add_block ts l = with_blocks [] <$> ts.
Proof.
  unfold add_block. apply map_eq. intros k. rewrite !lookup_fmap.
  destruct (decide (l.2 = k)) as [<-|Hk]; [|by rewrite lookup_alter_ne].
  rewrite lookup_alter_eq. destruct (ts !! l.2) as [t|]; [|done]. simpl. by case_bool_decide.
Qed.
Lemma add_blocks_erase ls (ts : gmap string Task) : with_blocks [] <$> foldl add_block ts ls = with_blocks [] <$> ts.
Proof. revert ts. induction ls as [|l ls IH]; intros ts; [done|]. csimpl. by rewrite IH, add_block_erase. Qed.
Lemma recompute_alike_self s : alike (recompute_blocks s) s.
Proof. apply alike_spec. simpl. by rewrite add_blocks_erase, erase_fmap. Qed.

Lemma add_blocks_lookup ls (ts : gmap string Task) k t' :
  foldl add_block ts ls !! k = Some t' → ∃ t, ts !! k = Some t
  ∧ (NoDup (blocks t) → NoDup (blocks t')) ∧ ∀ b, b ∈ blocks t' ↔ b ∈ blocks t ∨ (b, k) ∈ ls.
Proof.
  revert ts. induction ls as [|[a d] ls IH]; intros ts Hk; csimpl in *.
  { exists t'. split_and!; [done..|]. set_solver. }
  apply IH in Hk as (t1 & H1 & Hnd & Hb). unfold add_block in H1. simpl in H1.
  destruct (decide (d = k)) as [->|Hdk].
  - rewrite lookup_alter_eq in H1. destruct (ts !! k) as [t|]; [|done]. simpl in H1.
    apply (inj Some) in H1. exists t. split; [done|]. case_bool_decide as Ha; subst t1.
    + split; [done|]. intros b. rewrite Hb, elem_of_cons. naive_solver.
    + split.
      * intros Ht. apply Hnd. simpl. apply NoDup_app. split_and!; [done|set_solver|apply NoDup_singleton].
      * intros b. rewrite Hb. simpl. rewrite elem_of_app, list_elem_of_singleton, elem_of_cons. naive_solver.
  - rewrite lookup_alter_ne in H1 by done. exists t1. split_and!; [done..|].
    intros b. rewrite Hb, elem_of_cons. naive_solver.
Qed.
Lemma elem_of_links (ts : gmap string Task) b d :
  (b, d) ∈ links ts ↔ ∃ k t, ts !! k = Some t ∧ task_id t = b ∧ d ∈ depends_on t.
Proof.
  unfold links. rewrite list_elem_of_bind. setoid_rewrite list_elem_of_fmap. setoid_rewrite elem_of_values.
  naive_solver.
Qed.
Lemma alike_depends s s' b d :
  alike s s' → (∃ k t, tasks s !! k = Some t ∧ task_id t = b ∧ d ∈ depends_on t) →
  ∃ k t, tasks s' !! k = Some t ∧ task_id t = b ∧ d ∈ depends_on t.
Proof.
  intros Hs (k & t & Hk & <- & Hd). eapply alike_lookup in Hk as (t' & Hk' & Ht%alike_fields); [|done].
  exists k, t'. split_and!; [done|by rewrite Ht|by rewrite Ht].
Qed.

(** The links of the replayed state are the inverse of the dependencies: a task lists, once
    each, exactly the tasks that depend on it, whatever links the events of the log carry. *)
Theorem replay_blocks l s k t :
  replay l = Ok s → tasks s !! k = Some t →
  NoDup (blocks t)
  ∧ ∀ b, b ∈ blocks t ↔ ∃ k' t', tasks s !! k' = Some t' ∧ task_id t' = b ∧ k ∈ depends_on t'.
Proof.
  unfold replay. intros (s0 & _ & [= <-])%bind_Ok Hk. pose proof (recompute_alike_self s0) as Hal.
  unfold recompute_blocks in Hk. simpl in Hk.
  apply add_blocks_lookup in Hk as (t0 & Ht0 & Hnd & Hb).
  rewrite lookup_fmap in Ht0. apply fmap_Some in Ht0 as (t1 & _ & ->).
  split; [apply Hnd; constructor|]. intros b. rewrite Hb, elem_of_links. split.
  - intros [[]%elem_of_nil|Hd]. eapply alike_depends; [symmetry; exact Hal|done].
  - intros Hd. right. eapply alike_depends; [exact Hal|done].
Qed.

(** ** Appending an event *)
Lemma replay_event_alike ev s s' s1 :
  alike s s' → replay_event s ev = Ok s1 → ∃ s1', replay_event s' ev = Ok s1' ∧ alike s1 s1'.
Proof.
  unfold replay_event. intros Hs (s2 & Ha & [= <-])%bind_Ok. eapply apply_alike in Ha as (s2' & -> & Hs2); [|done].
  eexists. split; [done|]. apply alike_spec in Hs2 as (? & ? & ? & Hl & ?). apply alike_spec. simpl.
  by rewrite Hl.
Qed.
(** Applying an event to the state that was replayed is replaying the longer
    log, but for the links and the number of the last event. *)
Lemma replay_snoc l ev s s1 :
  replay l = Ok s → apply ev s = Ok s1 →
  replay (l ++ [ev]) = Ok (recompute_blocks (set_last_seq (Z.max (last_seq s1) (seq ev)) s1)).
Proof.
  unfold replay. intros (s0 & Hs0 & [= <-])%bind_Ok Ha. rewrite foldM_app, Hs0. simpl.
  assert (∃ s2, replay_event s0 ev = Ok s2 ∧ alike (set_last_seq (Z.max (last_seq s1) (seq ev)) s1) s2)
    as (s2 & -> & Hs2).
  { eapply replay_event_alike; [apply recompute_alike_self|]. unfold replay_event. by rewrite Ha. }
  simpl. by rewrite (recompute_alike _ _ Hs2).
Qed.
End replay.
