(* ===== verification/ProjectSpec.v ===== *)
(** * ProjectSpec: what the operations promise

    The contract of a backend ([BackendSpec]: a log of events and a cache of
    embeddings, where a failure may strike before or after each change), the
    well-formed logs ([log_ok]), and what one operation does to the log and
    to the state it stands for ([outcome]). *)

From S2P Require Import Prelude Text ProjectState ProjectStore ProjectReplay.

(** ** The contract of a backend *)
Class BackendSpec {V R B} (Bk : Backend V R B) := {
  view : B → list (Event V);
  cached : B → gmap string R;
  (** the log ends where an event may be appended *)
  clean : B → Prop;
  events_spec b r b' : tx_events b = (r, b') →
    view b' = view b ∧ cached b' = cached b ∧ ∀ l, r = Ok l → l = view b ∧ clean b';
  append_spec ev b r b' : clean b → Forall (λ e, (seq e < seq ev)%Z) (view b) → tx_append ev b = (r, b') →
    cached b' = cached b ∧ (view b' = view b ++ [ev] ∨ is_ok r = false ∧ view b' = view b)
    ∧ (is_ok r = true → clean b');
  replace_spec l b r b' : clean b → tx_replace l b = (r, b') →
    cached b' = cached b ∧ (view b' = l ∨ is_ok r = false ∧ view b' = view b)
    ∧ (is_ok r = true → clean b');
  snapshot_spec s b r b' : clean b → tx_snapshot s b = (r, b') → view b' = view b ∧ cached b' = cached b;
  embeddings_spec b r b' : clean b → tx_embeddings b = (r, b') →
    view b' = view b ∧ cached b' = cached b ∧ clean b' ∧ ∀ m, r = Ok m → m = cached b;
  put_spec m b r b' : clean b → tx_put_embeddings m b = (r, b') →
    view b' = view b ∧ (cached b' = m ∪ cached b ∨ is_ok r = false ∧ cached b' = cached b);
  delete_spec ids b r b' : clean b → tx_delete_embeddings ids b = (r, b') →
    view b' = view b ∧ (is_ok r = true → clean b')
    ∧ (cached b' = cached b ∧ is_ok r = false ∨ cached b' = filter (λ kr, kr.1 ∉ ids) (cached b));
  begin_spec b r b' : tx_begin b = (r, b') → view b' = view b ∧ cached b' = cached b;
  (** a transaction is undone as a whole, or not at all *)
  commit_spec b0 b r b' : tx_commit b0 b = (r, b') →
    view b' = view b ∧ cached b' = cached b
    ∨ is_ok r = false ∧ view b' = view b0 ∧ cached b' = cached b0;
  abort_spec b0 b :
    view (tx_abort b0 b) = view b ∧ cached (tx_abort b0 b) = cached b
    ∨ view (tx_abort b0 b) = view b0 ∧ cached (tx_abort b0 b) = cached b0;
}.

(** ** Well-formed states and logs *)
Section spec.
Context {V R B : Type} {J : Json V} {JL : JsonLaws J} {Em : Embeddings V R} {Bk : Backend V R B}
  {BS : BackendSpec Bk}.
Context (lower : string → string).
Notation Event := (Event V).
Notation Task := (Task V).
Notation Memory := (Memory V).
Notation State := (State V).
Notation World := (@World B).

Definition statuses : list string := ["open"; "in_progress"; "blocked"; "closed"; "deferred"].
Definition task_types : list string := ["task"; "bug"; "feature"; "chore"; "epic"].
Record task_ok (k : string) (t : Task) : Prop := {
  task_key : task_id t = k;
  task_named : k ≠ "";
  task_status : status t ∈ statuses;
  task_kind : task_type t ∈ task_types;
  task_priority : (0 <= priority t <= 4)%Z;
  task_closed : is_Some (closed_at t) ↔ status t = "closed";
  task_deps : NoDup (depends_on t);
}.
Record memory_ok (k : string) (m : Memory) : Prop := {
  memory_key : memory_id m = k;
  memory_kind : kind m ∈ ["pinned"; "semantic"; "episodic"; "procedural"];
  memory_scope : scope m ∈ ["project"; "user"; "task"; "file"];
}.
Record state_ok (s : State) : Prop := {
  ok_tasks : map_Forall task_ok (tasks s);
  ok_memories : map_Forall memory_ok (memories s);
  ok_sessions : map_Forall (λ k x, session_id x = k) (sessions s);
}.
(** The events of memories carry what the operations wrote. *)
Definition event_ok (ev : Event) : Prop :=
  event_type ev = "memory.upserted" → ∃ m, payload ev = of_memory m.
Record log_ok (l : list Event) (s : State) : Prop := {
  log_replay : replay l = Ok s;
  log_state : state_ok s;
  log_seq : last_seq s = Z.of_nat (length l);
  log_numbered : imap with_seq l = l;
  log_events : Forall event_ok l;
}.
(** No vector outlives its memory. *)
Definition cache_ok (s : State) (c : gmap string R) : Prop := dom c ⊆ dom (memories s).

Lemma state_ok_alike s s' : alike s s' → state_ok s → state_ok s'.
Proof.
  intros Hs [Ht Hm Hx]. pose proof Hs as (_ & Hm' & Hx' & _)%alike_spec. split; [|by rewrite <-Hm'|by rewrite <-Hx'].
  intros k t Hk. symmetry in Hs. eapply alike_lookup in Hk as (t' & Hk' & He%alike_fields); [|done].
  apply Ht in Hk' as []. rewrite He in *. by split.
Qed.
Lemma empty_log_ok : log_ok [] empty_state.
Proof. split; [done| |done|done|constructor]. split; apply map_Forall_empty. Qed.

(** A numbered event that applies makes a longer well-formed log. *)
Lemma log_ok_snoc l s ev s1 :
  log_ok l s → apply ev s = Ok s1 → last_seq s1 = last_seq s → state_ok s1 → event_ok ev →
  seq ev = (last_seq s + 1)%Z →
  log_ok (l ++ [ev]) (recompute_blocks (set_last_seq (last_seq s + 1) s1)).
Proof.
  intros [Hr Hs Hl Hn He] Ha Hl1 Hs1 Hev Hseq. split.
  - rewrite (replay_snoc _ _ _ _ Hr Ha), Hseq, Hl1. do 3 f_equal. lia.
  - eapply state_ok_alike; [symmetry; apply recompute_alike_self|]. by destruct Hs1.
  - simpl. rewrite length_app. simpl. lia.
  - rewrite imap_app, Hn. f_equal. simpl. unfold with_seq. rewrite Nat.add_0_r.
    destruct ev. simpl in *. by rewrite Hseq, Hl.
  - by apply Forall_app_2; [|constructor].
Qed.
Lemma apply_last_seq ev s s1 : apply ev s = Ok s1 → last_seq s1 = last_seq s.
Proof.
  unfold apply, change_task. cbv zeta. intros Ha.
  repeat match type of Ha with
  | (if ?b then _ else _) = _ => destruct b
  | mbind _ _ = _ => apply bind_Ok in Ha as (? & _ & Ha)
  end; by injection Ha as <-.
Qed.

Lemma numbered_below (l : list Event) : imap with_seq l = l → Forall (λ e : Event, (seq e <= Z.of_nat (length l))%Z) l.
Proof.
  intros Hn. apply Forall_lookup. intros i e Hi. pose proof (lookup_lt_Some _ _ _ Hi) as Hlt.
  rewrite <-Hn, list_lookup_imap in Hi. apply fmap_Some in Hi as (e' & _ & ->). simpl. lia.
Qed.
Lemma log_ok_below (l : list Event) s (ev : Event) : log_ok l s → seq ev = (last_seq s + 1)%Z → Forall (λ e : Event, (seq e < seq ev)%Z) l.
Proof.
  intros [_ _ Hl Hn _] Hev. eapply Forall_impl; [by apply numbered_below|]. simpl. intros e He. lia.
Qed.

(** ** Transactions *)
Context (store : @ProjectStore V) (o : Outside).
Notation log w := (view (backend w)).
Notation cache w := (cached (backend w)).

Lemma tx_inv {A} (m : SE B Error A) w r w' :
  tx m w = (r, w') → ∃ b, m (backend w) = (r, b) ∧ backend w' = b.
Proof. unfold tx. destruct (m (backend w)) as [r0 b] eqn:Hm. intros [= <- <-]. eauto. Qed.

(** What a transaction leaves is what its body left, or nothing new. *)
Lemma transaction_spec {A} (m : SE World Error A) w r w' :
  transaction (Bk := Bk) m w = (r, w') →
  (log w' = log w ∧ cache w' = cache w ∧ is_ok r = false)
  ∨ ∃ w0 r0 w1, log w0 = log w ∧ cache w0 = cache w ∧ m w0 = (r0, w1)
      ∧ (∀ a, r = Ok a → r0 = Ok a)
      ∧ (log w' = log w1 ∧ cache w' = cache w1
         ∨ is_ok r = false ∧ log w' = log w ∧ cache w' = cache w).
Proof.
  unfold transaction. destruct (tx tx_begin w) as [[[]|e] w0] eqn:H0;
    apply tx_inv in H0 as (b0 & H0 & Hb0); apply begin_spec in H0 as [Hv0 Hc0]; rewrite <-Hb0 in *.
  2:{ intros [= <- <-]. by left. }
  intros H. right. destruct (m w0) as [[a|e] w1] eqn:H1; exists w0; eexists _, w1; (do 3 (split; [done|])).
  - destruct (tx (tx_commit (backend w0)) w1) as [[[]|e] w2] eqn:H2;
      apply tx_inv in H2 as (b2 & H2 & Hb2); apply commit_spec in H2 as [[Hv2 Hc2]|(Hr2 & Hv2 & Hc2)];
      rewrite <-Hb2 in *; injection H as <- <-; try done.
    + split; [by intros ? [= ->]|]. by left.
    + split; [done|]. by left.
    + split; [done|]. right. split_and!; [done|congruence..].
  - injection H as <- <-. split; [done|]. simpl.
    destruct (abort_spec (backend w0) (backend w1)) as [[Hv Hc]|[Hv Hc]]; rewrite Hv, Hc; [by left|].
    right. by rewrite Hv0, Hc0.
Qed.
Lemma replayed_spec w r w' :
  replayed w = (r, w') → log w' = log w ∧ cache w' = cache w ∧ ticks w' = ticks w ∧ drawn w' = drawn w
  ∧ ∀ s, r = Ok s → replay (log w) = Ok s ∧ clean (backend w').
Proof.
  unfold replayed, mbind, SE_bind, tx. destruct (tx_events (backend w)) as [re b] eqn:He.
  apply events_spec in He as (Hv & Hc & Hl). destruct re as [l|e]; intros [= <- <-]; simpl.
  - split_and!; [done..|]. intros s Hs. destruct (Hl l eq_refl) as [-> ?]. done.
  - by split_and!.
Qed.

(** The event [mutate] appends, and what it must do. *)
Definition good_event {T} (s : State) (kind : string) (P : time → T → State → Prop) (now : time) (p : V) (out : T) : Prop :=
  ∀ ev, event_type ev = kind → payload ev = p → seq ev = (last_seq s + 1)%Z →
  event_ok ev ∧ ∃ s1, apply ev s = Ok s1 ∧ state_ok s1 ∧ P now out s1
  ∧ dom (memories s) ∖ (if String.eqb kind "memory.deleted" then {[str_at p "id"]} else ∅) ⊆ dom (memories s1).

(** An operation that appends an event, from a log that stands for [s]: an
    error may have left the log as it was; otherwise one event was appended, and
    did [P], and the log is as well formed as before. *)
Definition outcome {T} (s : State) (P : time → T → State → Prop) (w : World) (r : Result T) (w' : World) : Prop :=
  log w' = log w ∧ dom (cache w') ⊆ dom (cache w) ∧ is_ok r = false
  ∨ ∃ now out s1 ev, P now out s1 ∧ log w' = log w ++ [ev]
      ∧ log_ok (log w') (recompute_blocks (set_last_seq (last_seq s + 1) s1))
      ∧ cache_ok s1 (cache w') ∧ ∀ a, r = Ok a → a = out.
Lemma mutate_spec {T} kind (f : State → time → SE World Error (V * T)) (P : time → T → State → Prop) w r w' s :
  log_ok (log w) s → cache_ok s (cache w) →
  (∀ now w1 r1 w2, f s now w1 = (r1, w2) →
     backend w2 = backend w1 ∧ ∀ p out, r1 = Ok (p, out) → good_event s kind P now p out) →
  mutate store o kind f w = (r, w') → outcome s P w r w'.
Proof.
  intros Hlog Hcache Hf Hm. unfold mutate in Hm. unfold outcome.
  apply transaction_spec in Hm as [(? & Hc & ?)|(w0 & r0 & w1 & Hv0 & Hc0 & Hm & Hr & Hend)].
  { left. by rewrite Hc. }
  assert (log w1 = log w ∧ dom (cache w1) ⊆ dom (cache w) ∧ is_ok r0 = false
    ∨ ∃ now out s1 ev, P now out s1 ∧ log w1 = log w ++ [ev]
      ∧ log_ok (log w1) (recompute_blocks (set_last_seq (last_seq s + 1) s1))
      ∧ cache_ok s1 (cache w1) ∧ ∀ a, r0 = Ok a → a = out) as Hbody.
  2:{ destruct Hend as [[Hv Hc]|(Hno & Hv & Hc)]; [|left; by rewrite Hc]. rewrite Hv, Hc.
      destruct Hbody as [(? & ? & ?)|(now & out & s1 & ev & ? & ? & ? & ? & Ha)].
      - left. split_and!; [done..|]. destruct r as [a|]; [|done]. by rewrite (Hr a eq_refl) in *.
      - right. exists now, out, s1, ev. split_and!; [done..|]. intros a Ha'. apply Ha. by apply Hr. }
  clear Hend Hr r. rewrite <-Hv0, <-Hc0 in *. clear Hv0 Hc0 w'.
  unfold mbind, SE_bind in Hm.
  destruct (replayed w0) as [[s'|e] w2] eqn:H2; apply replayed_spec in H2 as (Hv2 & Hc2 & _ & _ & Hs).
  2:{ injection Hm as <- <-. left. by rewrite Hc2. }
  destruct (Hs _ eq_refl) as [Hs' Hcl2]. rewrite (log_replay _ _ Hlog) in Hs'. injection Hs' as <-.
  assert (Hidle : ∀ wx e, backend wx = backend w2 →
    log wx = log w0 ∧ dom (cache wx) ⊆ dom (cache w0) ∧ is_ok (@Err Error T e) = false).
  { intros wx e ->. by rewrite Hc2. }
  unfold utc_now in Hm. set (now := now_at o (ticks w2)) in *. set (w3 := mkWorld _ _ _) in *.
  destruct (f s now w3) as [rf w4] eqn:H4. apply Hf in H4 as [Hb4 Hgood].
  assert (backend w4 = backend w2) as Hb42 by done. clear Hb4.
  destruct rf as [[p out]|e]; [|injection Hm as <- <-; left; by apply Hidle].
  unfold event, id, mbind, SE_bind in Hm. cbn [mret SE_ret] in Hm.
  set (ev := mkEvent _ _ _ _ _ _ _ _) in *. set (w5 := mkWorld (backend w4) (ticks w4) (S (drawn w4))) in *.
  assert (backend w5 = backend w2) as Hb52 by done.
  destruct (Hgood p out eq_refl ev) as (Hevok & s1 & Ha & Hs1 & HP & Hdom); [done..|].
  unfold lift in Hm. destruct (before_write store ev); [|injection Hm as <- <-; left; by apply Hidle].
  rewrite Ha in Hm. set (snap := touch _ _) in *.
  match type of Hm with (let (_, _) := ?m w5 in _) = _ => destruct (m w5) as [r6 w6] eqn:H6 end.
  assert (log w6 = log w0 ∧ dom (cache w6) ⊆ dom (cache w0) ∧ (is_ok r6 = true → clean (backend w6))
    ∧ (is_ok r6 = true → cache_ok s1 (cache w6))) as (Hv6 & Hc6 & Hcl6 & Hok6).
  { unfold cache_ok in *. destruct (String.eqb kind "memory.deleted").
    - apply tx_inv in H6 as (b6 & H6 & Hb6). rewrite Hb6. rewrite Hb52 in H6.
      apply delete_spec in H6 as (Hv & Hcl & Hc); [|done]. rewrite Hv, Hv2.
      destruct Hc as [[Hc Hno]|Hc]; rewrite Hc, Hc2.
      + split_and!; [done..|]. by rewrite Hno.
      + split_and!; [done|apply dom_filter_subseteq|done|]. intros _ k [v [Hk Hnot]%map_lookup_filter_Some]%elem_of_dom.
        apply Hdom. apply elem_of_difference. split; [apply Hcache; by apply elem_of_dom|].
        simpl in Hnot. set_solver.
    - injection H6 as <- <-. rewrite Hb52. split_and!; [done|by rewrite Hc2|done|]. intros _. rewrite Hc2. set_solver. }
  destruct r6 as [[]|e]; [|injection Hm as <- <-; by left].
  destruct (tx (tx_append ev) w6) as [r7 w7] eqn:H7. apply tx_inv in H7 as (b7 & H7 & Hb7).
  apply append_spec in H7 as (Hc7 & Hv7 & Hcl7); [|by apply Hcl6|rewrite Hv6; by eapply log_ok_below].
  rewrite <-Hb7 in *.
  destruct Hv7 as [Hv7|[Hno Hv7]].
  2:{ destruct r7; [done|]. injection Hm as <- <-. left. by rewrite Hv7, Hc7. }
  right. exists now, out, s1, ev.
  assert (log_ok (log w0 ++ [ev]) (recompute_blocks (set_last_seq (last_seq s + 1) s1))) as Hlog'.
  { apply log_ok_snoc; try done. by eapply apply_last_seq. }
  destruct r7 as [[]|e].
  - destruct (tx (tx_snapshot snap) w7) as [r8 w8] eqn:H8. apply tx_inv in H8 as (b8 & H8 & Hb8).
    apply snapshot_spec in H8 as [Hv8 Hc8]; [|by apply Hcl7]. rewrite <-Hb8 in *.
    assert (w1 = w8 ∧ ∀ a, r0 = Ok a → a = out) as [-> Hr0].
    { destruct r8; injection Hm as <- <-; (split; [done|]); [by intros ? [= ->]|done]. }
    rewrite Hv8, Hv7, Hv6, Hc8, Hc7. split_and!; try done. by apply Hok6.
  - injection Hm as <- <-. rewrite Hv7, Hv6, Hc7. split_and!; try done. by apply Hok6.
Qed.
End spec.
