(* ===== verification/ProjectExample.v ===== *)
(** * ProjectExample: a store to run the operations on

    A value type in which records keep their structure, and a backend in memory
    whose transactions are undone as a whole: the laws the other files assume of
    [serde_json] and of a backend hold of them. *)

From S2P Require Import Prelude Text ProjectState ProjectStore ProjectReplay ProjectSpec.

Inductive Val :=
| VNull
| VStr (s : string)
| VStrs (l : list string)
| VObj (l : list (string * Val))
| VTime (t : time)
| VProject (p : Project)
| VTask (t : Task Val)
| VComment (c : TaskComment)
| VMemory (m : Memory Val)
| VSession (x : SessionSummary)
| VPatch (p : TaskPatch Val).
Definition val_field (v : Val) (k : string) : Val :=
  match v with
  | VObj l => default VNull (snd <$> List.find (λ kv, String.eqb kv.1 k) l)
  | VTask t => if String.eqb k "id" then VStr (task_id t) else VNull
  | VMemory m => if String.eqb k "id" then VStr (memory_id m) else VNull
  | _ => VNull
  end.
#[export] Instance val_json : Json Val := {|
  null := VNull; str := VStr; strs := VStrs; obj := VObj; of_time := VTime; of_project := VProject;
  of_task := VTask; of_comment := VComment; of_memory := VMemory; of_session := VSession; of_patch := VPatch;
  field := val_field;
  as_str v := match v with VStr s => Some s | _ => None end;
  to_time v := match v with VTime t => Ok t | _ => Err (Json_ "time") end;
  to_project v := match v with VProject p => Ok p | _ => Err (Json_ "project") end;
  to_task v := match v with VTask t => Ok t | _ => Err (Json_ "task") end;
  to_comment v := match v with VComment c => Ok c | _ => Err (Json_ "comment") end;
  to_memory v := match v with VMemory m => Ok m | _ => Err (Json_ "memory") end;
  to_session v := match v with VSession x => Ok x | _ => Err (Json_ "session") end;
|}.
Lemma val_field_obj l k v : NoDup l.*1 → (k, v) ∈ l → val_field (VObj l) k = v.
Proof.
  simpl. induction l as [|[k' v'] l IH]; intros Hnd Hin; [by apply elem_of_nil in Hin|]. simpl in *.
  apply NoDup_cons in Hnd as [Hk Hnd]. apply elem_of_cons in Hin as [[= <- <-]|Hin]; [by rewrite String.eqb_refl|].
  destruct (String.eqb_spec k' k) as [->|_]; [|by apply IH]. destruct Hk. apply list_elem_of_fmap. by exists (k, v).
Qed.
#[export] Instance val_laws : JsonLaws val_json.
Proof. split; try done. apply val_field_obj. Qed.

(** ** The backend in memory *)
Record Mem := mkMem { mem_log : list (Event Val); mem_cache : gmap string nat }.
#[export] Instance mem_backend : Backend Val nat Mem := {|
  tx_events b := (Ok (mem_log b), b);
  tx_append ev b := (Ok tt, mkMem (mem_log b ++ [ev]) (mem_cache b));
  tx_replace l b := (Ok tt, mkMem l (mem_cache b));
  tx_snapshot _ b := (Ok tt, b);
  tx_embeddings b := (Ok (mem_cache b), b);
  tx_put_embeddings m b := (Ok tt, mkMem (mem_log b) (m ∪ mem_cache b));
  tx_delete_embeddings ids b := (Ok tt, mkMem (mem_log b) (filter (λ kr, kr.1 ∉ ids) (mem_cache b)));
  tx_begin b := (Ok tt, b);
  tx_commit _ b := (Ok tt, b);
  tx_abort b0 _ := b0;
|}.
#[export] Instance mem_embeddings : Embeddings Val nat := λ _ _ _, true.
#[export] Instance mem_spec : BackendSpec mem_backend.
Proof.
  refine {| view := mem_log; cached := mem_cache; clean := λ _, True |};
    try (intros; simplify_eq/=; naive_solver).
Defined.

(** ** A run *)
Definition a_store : @ProjectStore Val :=
  mkStore "demo" "/work" "ann" "run-1" "/state" Ok (λ _, Ok tt).
Definition an_outside : Outside := mkOutside (λ n, Z.of_nat n) (λ n, String.string_of_list_ascii [ascii_of_nat (65 + n)]).
Definition blank : World (B := Mem) := mkWorld (mkMem [] ∅) 0 0.
Definition a_task (deps : list string) : CreateTaskInput Val :=
  mkCreateTask " Write it " "" "feat" 9 "" deps ["x"; " x "] "" VNull.
Definition a_memory : UpsertMemoryInput Val := mkUpsertMemory "" "pinned" "" " note " ["t"] [] [] "" VNull.
(** Two tasks, the second waiting for the first. *)
Definition two_tasks : World := snd ((create_task (λ s, s) a_store an_outside (a_task [])
  ≫= λ t, create_task (λ s, s) a_store an_outside (a_task [task_id t])) blank).
(** One memory, with its vector. *)
Definition one_memory : World := let w := (upsert_memory (λ s, s) a_store an_outside a_memory blank).2 in
  mkWorld (mkMem (mem_log (backend w)) {["mem_A" := 3]}) (ticks w) (drawn w).
Definition the_memory : Memory Val :=
  mkMemory "mem_A" "pinned" "project" "note" ["t"] [] [] "run-1" 0 0 None VNull.
Definition one_state : State Val := set_last_seq 1 (put_memory the_memory empty_state).
Lemma one_memory_log : log_ok (view (backend one_memory)) one_state.
Proof.
  split; [by vm_compute| |done..|].
  - split; [apply map_Forall_empty| |apply map_Forall_empty]. apply map_Forall_insert_2; [|apply map_Forall_empty].
    split; [done|by left|by left].
  - apply Forall_singleton. intros _. by exists the_memory.
Qed.
Lemma one_memory_cache : cache_ok one_state (cached (backend one_memory)).
Proof. unfold cache_ok. simpl. by rewrite dom_singleton_L, dom_insert_L, dom_empty_L, (right_id_L ∅ (∪)). Qed.
