(* ===== verification/ProjectProps.v ===== *)
(** * ProjectProps: the operations do what they say

    [did] states what each operation does to the state and what it returns; the
    event it appends does exactly that, so the log stands for the new state. *)

From S2P Require Import Prelude Text ProjectState ProjectStore ProjectReplay ProjectSpec ProjectExample.

Section ops.
Context {V R B : Type} {J : Json V} {JL : JsonLaws J} {Em : Embeddings V R} {Bk : Backend V R B}
  {BS : BackendSpec Bk}.
Context (lower : string → string).
Notation Event := (Event V).
Notation Task := (Task V).
Notation Memory := (Memory V).
Notation State := (State V).
Notation World := (@World B).
Context (store : @ProjectStore V) (o : Outside).
Notation log w := (view (backend w)).
Notation cache w := (cached (backend w)).

(** ** The operations that append an event *)
Inductive Op :=
| CreateTask (input : CreateTaskInput V)
| UpdateTask (id : string) (patch : TaskPatch V)
| ClaimTask (id actor : string)
| CloseTask (id reason : string)
| Dependency (task dep : string) (add : bool)
| AddComment (task actor body : string)
| UpsertMemory (input : UpsertMemoryInput V)
| DeleteMemory (id : string)
| SaveSession (x : SessionSummary).
Inductive Output :=
| OTask (t : Task)
| OComment (c : TaskComment)
| OMemory (m : Memory)
| OSession (x : SessionSummary)
| ODone.
Definition run_op (op : Op) : SE World Error Output :=
  match op with
  | CreateTask i => t ← create_task lower store o i; mret (OTask t)
  | UpdateTask i p => t ← update_task lower store o i p; mret (OTask t)
  | ClaimTask i a => t ← claim_task store o i a; mret (OTask t)
  | CloseTask i r => t ← close_task store o i r; mret (OTask t)
  | Dependency t d add => _ ← dependency store o t d add; mret ODone
  | AddComment t a b => c ← add_comment store o t a b; mret (OComment c)
  | UpsertMemory i => m ← upsert_memory lower store o i; mret (OMemory m)
  | DeleteMemory i => _ ← delete_memory store o i; mret ODone
  | SaveSession x => x ← save_session_summary store o x; mret (OSession x)
  end.

(** What an operation does to the state, and what it returns. *)
Definition did (op : Op) (now : time) (s : State) (out : Output) (s1 : State) : Prop :=
  match op, out with
  | CreateTask i, OTask t =>
      title t = trim (in_title i) ∧ title t ≠ "" ∧ status t = "open" ∧ assignee t = trim (in_assignee i)
      ∧ depends_on t = unique (in_depends_on i) ∧ comments t = [] ∧ created_at t = now ∧ s1 = put_task t s
  | UpdateTask i p, OTask t =>
      ∃ t0, tasks s !! trim i = Some t0 ∧ t = patched lower p now t0 ∧ s1 = put_task t s
  | ClaimTask i a, OTask t =>
      ∃ t0, tasks s !! trim i = Some t0
        ∧ t = claimed_by (first (first a (opt_actor store)) "agent") now t0 ∧ s1 = put_task t s
  | CloseTask i r, OTask t =>
      ∃ t0, tasks s !! trim i = Some t0 ∧ s1 = put_task t s
        ∧ if empty (trim r) then t = closed_with now t0
          else ∃ c, body c = "Closed: " +:+ trim r ∧ comment_actor c = opt_actor store
                 ∧ t = with_comments (comments t0 ++ [c]) now (closed_with now t0)
  | Dependency a b add, ODone =>
      ∃ t0, tasks s !! trim a = Some t0
        ∧ (add = true → is_Some (tasks s !! trim b) ∧ trim a ≠ trim b)
        ∧ s1 = put_task (with_deps (if add then unique (depends_on t0 ++ [trim b])
             else List.filter (λ d, negb (String.eqb d (trim b))) (depends_on t0)) now t0) s
  | AddComment a who text, OComment c =>
      ∃ t0, tasks s !! trim a = Some t0 ∧ body c = trim text ∧ body c ≠ ""
        ∧ comment_actor c = first who (opt_actor store)
        ∧ s1 = put_task (with_comments (comments t0 ++ [c]) now t0) s
  | UpsertMemory i, OMemory m =>
      ∃ i', prepare_memory store i = Ok i' ∧ (trim (u_id i') ≠ "" → memory_id m = trim (u_id i'))
        ∧ content m = trim (u_content i') ∧ content m ≠ "" ∧ memory_updated m = now
        ∧ memory_created m = (match memories s !! memory_id m with Some old => memory_created old | None => now end)
        ∧ s1 = put_memory m s
  | DeleteMemory i, ODone =>
      is_Some (memories s !! trim i) ∧ s1 = set_memories (delete (trim i) (memories s)) s
  | SaveSession x, OSession y =>
      summary y = summary x ∧ trim (summary y) ≠ "" ∧ session_tasks y = unique (session_tasks x)
        ∧ session_updated y = now ∧ (trim (session_id x) ≠ "" → session_id y = session_id x)
        ∧ s1 = put_session y s
  | _, _ => False
  end.

(** ** Payloads *)
Lemma str_at_obj l k s : NoDup l.*1 → (k, str s) ∈ l → str_at (obj l) k = s.
Proof. intros Hnd Hin. unfold str_at. by rewrite (field_obj _ _ _ Hnd Hin), as_str_str. Qed.
Lemma is_default_false {A} (x y : A) b : b = false → (if b then x else y) = y.
Proof. by intros ->. Qed.
(** The distinct keys of a literal object, and its pairs. *)
Ltac keys := by apply (bool_decide_unpack (NoDup _)); vm_compute.
Ltac pair := by repeat (first [by left | right]).

Lemma required_Ok v n r : required v n = Ok r → r = trim v ∧ trim v ≠ "".
Proof. unfold required, empty. destruct (String.eqb_spec (trim v) ""); [done|]. by intros [= <-]. Qed.
Lemma normalize_valid v valid d : d ∈ valid → normalize lower v valid d ∈ valid.
Proof. intros Hd. unfold normalize. by case_bool_decide. Qed.
Lemma normalize_type_valid v : normalize_type lower v ∈ task_types.
Proof.
  unfold normalize_type. destruct (eq_ignore_ascii_case _ _); [unfold task_types; set_solver|].
  apply normalize_valid. by left.
Qed.
Lemma normalize_status_valid v : normalize_status lower v ∈ statuses.
Proof.
  unfold normalize_status, statuses. repeat case_bool_decide; [set_solver|set_solver|].
  apply normalize_valid. by left.
Qed.

Lemma state_ok_put (s : State) (t : Task) : state_ok s → task_ok (task_id t) t → state_ok (put_task t s).
Proof. intros [? ? ?] Ht. split; simpl; [by apply map_Forall_insert_2|done|done]. Qed.
Lemma change_task_put (s : State) k t f t' :
  state_ok s → tasks s !! k = Some t → f t = Ok t' → task_id t' = task_id t →
  change_task k f s = Ok (put_task t' s).
Proof.
  intros Hs Hk Hf Hid. unfold change_task, task_mut. rewrite Hk. simpl. rewrite Hf. simpl.
  unfold put_task. by rewrite Hid, (task_key _ _ (ok_tasks _ Hs _ _ Hk)).
Qed.
Lemma memories_kept (s s1 : State) X : memories s1 = memories s → dom (memories s) ∖ X ⊆ dom (memories s1).
Proof. intros ->. set_solver. Qed.
Lemma not_upserted (ev : Event) k : event_type ev = k → k ≠ "memory.upserted" → event_ok ev.
Proof. intros <- ? ?. done. Qed.

(** The task operations append an event that puts the returned task. *)
Lemma good_put_event (P : time → Task → State → Prop) s kind now p t :
  kind ≠ "memory.upserted" → state_ok s → task_ok (task_id t) t → P now t (put_task t s) →
  (∀ ev, event_type ev = kind → payload ev = p → apply ev s = Ok (put_task t s)) →
  good_event s kind P now p t.
Proof.
  intros Hk Hs Ht HP Ha ev Hev Hp _. split; [by eapply not_upserted|].
  exists (put_task t s). split_and!; [by apply Ha|by apply state_ok_put|done|by apply memories_kept].
Qed.

Lemma apply_created ev (s : State) t :
  event_type ev = "task.created" → payload ev = of_task t → apply ev s = Ok (put_task t s).
Proof. intros Hk Hp. unfold apply. rewrite Hk, Hp. simpl. by rewrite task_round_trip. Qed.
Lemma apply_put_obj ev (s : State) l t :
  event_type ev = "task.updated" ∨ event_type ev = "task.closed" → payload ev = obj l →
  NoDup l.*1 → ("task", of_task t) ∈ l → task_id t ≠ "" → apply ev s = Ok (put_task t s).
Proof.
  intros Hk Hp Hnd Hin Hid.
  assert (has_task (obj l) = true) as Hhas.
  { unfold has_task, str_at, empty. rewrite (field_obj _ _ _ Hnd Hin), field_task. simpl.
    by destruct (String.eqb_spec (task_id t) ""). }
  unfold apply. rewrite Hp. destruct Hk as [-> | ->]; simpl;
    by rewrite Hhas, (field_obj _ _ _ Hnd Hin), task_round_trip.
Qed.
Lemma apply_claimed ev (s : State) l k t actor now :
  event_type ev = "task.claimed" → payload ev = obj l → NoDup l.*1 →
  ("id", str k) ∈ l → ("actor", str actor) ∈ l → ("at", of_time now) ∈ l →
  state_ok s → tasks s !! k = Some t → apply ev s = Ok (put_task (claimed_by actor now t) s).
Proof.
  intros Hk Hp Hnd Hid Hactor Hat Hs Ht. unfold apply. rewrite Hk, Hp. simpl.
  rewrite (str_at_obj _ _ _ Hnd Hid), (str_at_obj _ _ _ Hnd Hactor), (field_obj _ _ _ Hnd Hat), time_round_trip.
  by eapply change_task_put.
Qed.
Lemma apply_dependency ev (s : State) l k t dep now (add : bool) :
  event_type ev = (if add then "task.dependency_added" else "task.dependency_removed") → payload ev = obj l →
  NoDup l.*1 → ("id", str k) ∈ l → ("depends_on", str dep) ∈ l → ("at", of_time now) ∈ l →
  state_ok s → tasks s !! k = Some t →
  apply ev s = Ok (put_task (with_deps (if add then unique (depends_on t ++ [dep])
    else List.filter (λ d, negb (String.eqb d dep)) (depends_on t)) now t) s).
Proof.
  intros Hk Hp Hnd Hid Hdep Hat Hs Ht. unfold apply. rewrite Hk, Hp. destruct add; simpl;
  rewrite (str_at_obj _ _ _ Hnd Hid), (str_at_obj _ _ _ Hnd Hdep), (field_obj _ _ _ Hnd Hat), time_round_trip;
  by eapply change_task_put.
Qed.
Lemma apply_comment ev (s : State) l k t c :
  event_type ev = "task.comment_added" → payload ev = obj l → NoDup l.*1 →
  ("id", str k) ∈ l → ("comment", of_comment c) ∈ l → state_ok s → tasks s !! k = Some t →
  apply ev s = Ok (put_task (with_comments (comments t ++ [c]) (comment_at c) t) s).
Proof.
  intros Hk Hp Hnd Hid Hc Hs Ht. unfold apply. rewrite Hk, Hp. simpl.
  rewrite (str_at_obj _ _ _ Hnd Hid), (field_obj _ _ _ Hnd Hc), comment_round_trip. simpl.
  by eapply change_task_put.
Qed.
Lemma apply_deleted ev (s : State) l k :
  event_type ev = "memory.deleted" → payload ev = obj l → NoDup l.*1 → ("id", str k) ∈ l →
  apply ev s = Ok (set_memories (delete k (memories s)) s).
Proof. intros Hk Hp Hnd Hid. unfold apply. rewrite Hk, Hp. simpl. by rewrite (str_at_obj _ _ _ Hnd Hid). Qed.

(** ** Each operation *)
Ltac run_in H := unfold mbind, SE_bind, lift, mret, SE_ret, id, fail in H; cbn in H.
Ltac stop H := injection H as <- <-; split; [done|intros ? ? [=]].
Ltac go H := injection H as <- <-; split; [done|]; intros ? ? [= <- <-].

Lemma create_spec i w r w' s :
  log_ok (log w) s → cache_ok s (cache w) → create_task lower store o i w = (r, w') →
  outcome s (λ now t s1, did (CreateTask i) now s (OTask t) s1) w r w'.
Proof.
  intros Hl Hc. apply mutate_spec; [done..|]. intros now w1 r1 w2 H. run_in H.
  destruct (required _ _) as [t|] eqn:Ht; [|stop H]. apply required_Ok in Ht as [-> Hne]. go H.
  apply good_put_event; [done|apply Hl| |by split_and!|intros; by apply apply_created].
  split; simpl; try done.
  - set_solver.
  - apply normalize_type_valid.
  - lia.
  - apply unique_NoDup.
Qed.
Lemma patched_ok p now k (t : Task) : task_ok k t → task_ok k (patched lower p now t).
Proof.
  intros [Hk Hn Hs Ht Hp Hc Hd]. split; simpl; try done.
  - destruct (p_status p); [apply normalize_status_valid|done].
  - destruct (p_type p); [apply normalize_type_valid|done].
  - destruct (p_priority p); [lia|done].
  - destruct (p_status p) as [v|]; [|done]. destruct (String.eqb_spec (normalize_status lower v) "closed") as [He|He].
    + by rewrite He.
    + split; [by intros []|done].
Qed.
Lemma update_spec i p w r w' s :
  log_ok (log w) s → cache_ok s (cache w) → update_task lower store o i p w = (r, w') →
  outcome s (λ now t s1, did (UpdateTask i p) now s (OTask t) s1) w r w'.
Proof.
  intros Hl Hc. apply mutate_spec; [done..|]. intros now w1 r1 w2 H. run_in H.
  destruct (task_mut _ _) as [t|] eqn:Ht; [|stop H]. apply ok_or_Ok in Ht. go H.
  pose proof (ok_tasks _ (log_state _ _ Hl) _ _ Ht) as Hok. pose proof Hok as [Hk Hn _ _ _ _ _].
  apply good_put_event; [done|apply Hl| |by eexists|].
  - simpl. rewrite Hk. by apply patched_ok.
  - intros. eapply apply_put_obj; [by left|done|keys|pair|]. simpl. by rewrite Hk.
Qed.
Lemma claimed_ok k a now (t : Task) : task_ok k t → task_ok k (claimed_by a now t).
Proof. intros []. split; simpl; try done. unfold statuses; set_solver. Qed.
Lemma claim_spec i a w r w' s :
  log_ok (log w) s → cache_ok s (cache w) → claim_task store o i a w = (r, w') →
  outcome s (λ now t s1, did (ClaimTask i a) now s (OTask t) s1) w r w'.
Proof.
  intros Hl Hc. apply mutate_spec; [done..|]. intros now w1 r1 w2 H. run_in H.
  destruct (task_mut _ _) as [t|] eqn:Ht; [|stop H]. apply ok_or_Ok in Ht. go H.
  pose proof (ok_tasks _ (log_state _ _ Hl) _ _ Ht) as Hok. pose proof Hok as [Hk Hn _ _ _ _ _].
  apply good_put_event; [done|apply Hl| |by eexists|].
  - simpl. rewrite Hk. by apply claimed_ok.
  - intros. eapply apply_claimed; [done|done|keys|pair..|apply Hl|by rewrite Hk].
Qed.
Lemma closed_ok k now (t : Task) : task_ok k t → task_ok k (closed_with now t).
Proof. intros []. split; simpl; try done. unfold statuses; set_solver. Qed.
Lemma comments_ok k c now (t : Task) : task_ok k t → task_ok k (with_comments c now t).
Proof. by intros []. Qed.
Lemma close_spec i reason w r w' s :
  log_ok (log w) s → cache_ok s (cache w) → close_task store o i reason w = (r, w') →
  outcome s (λ now t s1, did (CloseTask i reason) now s (OTask t) s1) w r w'.
Proof.
  intros Hl Hc. apply mutate_spec; [done..|]. intros now w1 r1 w2 H. run_in H.
  destruct (task_mut _ _) as [t|] eqn:Ht; [|stop H]. apply ok_or_Ok in Ht.
  pose proof (ok_tasks _ (log_state _ _ Hl) _ _ Ht) as Hok. pose proof Hok as [Hk Hn _ _ _ _ _].
  destruct (empty (trim reason)) eqn:He; go H; (apply good_put_event; [done|apply Hl| | |]).
  - simpl. rewrite Hk. by apply closed_ok.
  - eexists. rewrite He. by split_and!.
  - intros. eapply apply_put_obj; [by right|done|keys|pair|]. simpl. by rewrite Hk.
  - simpl. rewrite Hk. by apply comments_ok, closed_ok.
  - eexists. rewrite He. split_and!; [done|done|]. eexists (mkComment _ _ _ _). by split_and!.
  - intros. eapply apply_put_obj; [by right|done|keys|pair|]. simpl. by rewrite Hk.
Qed.
Lemma depend_spec a b add w r w' s :
  log_ok (log w) s → cache_ok s (cache w) → dependency store o a b add w = (r, w') →
  outcome s (λ now (_ : unit) s1, did (Dependency a b add) now s ODone s1) w r w'.
Proof.
  intros Hl Hc. apply mutate_spec; [done..|]. intros now w1 r1 w2 H. run_in H.
  destruct (task_mut _ _) as [t|] eqn:Ht; [|stop H]. apply ok_or_Ok in Ht.
  destruct (ensure _ _) as [[]|] eqn:Hb; [|stop H]. apply ensure_Ok in Hb.
  destruct (ensure (negb add || negb _) _) as [[]|] eqn:Hne; [|stop H]. apply ensure_Ok in Hne. go H.
  pose proof (ok_tasks _ (log_state _ _ Hl) _ _ Ht) as Hok. pose proof Hok as [Hk Hn Hst Hty Hpr Hcl Hd].
  set (t1 := with_deps (if add then unique (depends_on t ++ [trim b])
    else List.filter (λ d, negb (String.eqb d (trim b))) (depends_on t)) now t).
  intros ev Hev Hp _. split; [eapply not_upserted; [done|by destruct add]|].
  exists (put_task t1 s). split_and!.
  - eapply apply_dependency; [done|done|keys|pair..|apply Hl|done].
  - apply state_ok_put; [apply Hl|]. simpl. rewrite Hk. split; try done. simpl. destruct add; [apply unique_NoDup|].
    by apply NoDup_ListNoDup, List.NoDup_filter, NoDup_ListNoDup.
  - exists t. split_and!; [done| |done]. intros ->. simpl in *. split; [by apply bool_decide_eq_true in Hb|].
    by apply negb_true_iff, String.eqb_neq in Hne.
  - by apply memories_kept.
Qed.
Lemma comment_spec a who text w r w' s :
  log_ok (log w) s → cache_ok s (cache w) → add_comment store o a who text w = (r, w') →
  outcome s (λ now c s1, did (AddComment a who text) now s (OComment c) s1) w r w'.
Proof.
  intros Hl Hc. apply mutate_spec; [done..|]. intros now w1 r1 w2 H. run_in H.
  destruct (task_mut _ _) as [t|] eqn:Ht; [|stop H]. apply ok_or_Ok in Ht. cbn in H.
  destruct (required _ _) as [b|] eqn:Hb; [|stop H]. apply required_Ok in Hb as [-> Hne]. go H.
  pose proof (ok_tasks _ (log_state _ _ Hl) _ _ Ht) as Hok. pose proof Hok as [Hk _ _ _ _ _ _].
  set (c := mkComment _ _ _ _).
  intros ev Hev Hp _. split; [by eapply not_upserted|].
  exists (put_task (with_comments (comments t ++ [c]) (comment_at c) t) s). split_and!.
  - eapply apply_comment; [done|done|keys|pair..|apply Hl|by rewrite Hk].
  - apply state_ok_put; [apply Hl|]. simpl. rewrite Hk. by apply comments_ok.
  - exists t. by split_and!.
  - by apply memories_kept.
Qed.
Lemma upsert_spec i w r w' s :
  log_ok (log w) s → cache_ok s (cache w) → upsert_memory lower store o i w = (r, w') →
  outcome s (λ now m s1, did (UpsertMemory i) now s (OMemory m) s1) w r w'.
Proof.
  intros Hl Hc. unfold upsert_memory, mbind at 1, SE_bind at 1, lift at 1.
  destruct (prepare_memory store i) as [i'|] eqn:Hi; [|intros [= <- <-]; by left].
  apply mutate_spec; [done..|]. intros now w1 r1 w2 H. run_in H.
  match type of H with (let (_, _) := ?m w1 in _) = _ => destruct (m w1) as [rk w3] eqn:Hk end.
  assert (∃ k, rk = Ok k ∧ backend w3 = backend w1 ∧ (trim (u_id i') ≠ "" → k = trim (u_id i'))) as (k & -> & Hb & Hkey).
  { unfold empty in Hk. destruct (String.eqb_spec (trim (u_id i')) ""); injection Hk as <- <-; by eexists. }
  destruct (required _ _) as [c|] eqn:Hr; [|injection H as <- <-; split; [done|intros ? ? [=]]].
  apply required_Ok in Hr as [-> Hne]. injection H as <- <-. split; [done|]. intros ? ? [= <- <-].
  set (m := mkMemory _ _ _ _ _ _ _ _ _ _ _ _).
  intros ev Hev Hp _. split; [intros _; by exists m|]. exists (put_memory m s). split_and!.
  - unfold apply. rewrite Hev, Hp. simpl. by rewrite memory_round_trip.
  - destruct (log_state _ _ Hl) as [? ? ?]. split; simpl; [done| |done]. apply map_Forall_insert_2; [|done].
    split; [done|apply normalize_valid; set_solver|apply normalize_valid; set_solver].
  - exists i'. by split_and!.
  - simpl. rewrite dom_insert_L. set_solver.
Qed.
Lemma delete_spec' i w r w' s :
  log_ok (log w) s → cache_ok s (cache w) → delete_memory store o i w = (r, w') →
  outcome s (λ now (_ : unit) s1, did (DeleteMemory i) now s ODone s1) w r w'.
Proof.
  intros Hl Hc. apply mutate_spec; [done..|]. intros now w1 r1 w2 H. run_in H.
  destruct (ensure _ _) as [[]|] eqn:Hm; [|stop H]. apply ensure_Ok, bool_decide_eq_true in Hm. go H.
  intros ev Hev Hp _. split; [by eapply not_upserted|].
  exists (set_memories (delete (trim i) (memories s)) s). split_and!.
  - eapply apply_deleted; [done|done|keys|pair].
  - destruct (log_state _ _ Hl) as [? ? ?]. split; simpl; [done|by apply map_Forall_delete|done].
  - by split_and!.
  - simpl. rewrite (str_at_obj _ "id" (trim i)), dom_delete_L; [done|keys|pair].
Qed.
Lemma session_spec x w r w' s :
  log_ok (log w) s → cache_ok s (cache w) → save_session_summary store o x w = (r, w') →
  outcome s (λ now y s1, did (SaveSession x) now s (OSession y) s1) w r w'.
Proof.
  intros Hl Hc. apply mutate_spec; [done..|]. intros now w1 r1 w2 H. run_in H.
  destruct (required _ _) as [c|] eqn:Hr; [|stop H]. apply required_Ok in Hr as [-> Hne].
  match type of H with (let (_, _) := ?m w1 in _) = _ => destruct (m w1) as [rk w3] eqn:Hk end.
  assert (∃ k c, rk = Ok (k, c) ∧ backend w3 = backend w1 ∧ (trim (session_id x) ≠ "" → k = session_id x))
    as (k & c & -> & Hb & Hkey).
  { unfold empty in Hk. destruct (String.eqb_spec (trim (session_id x)) ""); run_in Hk; injection Hk as <- <-;
      by eexists _, _. }
  injection H as <- <-. split; [done|]. intros ? ? [= <- <-].
  set (y := mkSession _ _ _ _ _ _).
  intros ev Hev Hp _. split; [by eapply not_upserted|]. exists (put_session y s). split_and!.
  - unfold apply. rewrite Hev, Hp. simpl. by rewrite session_round_trip.
  - destruct (log_state _ _ Hl) as [? ? ?]. split; simpl; [done|done|by apply map_Forall_insert_2].
  - by split_and!.
  - by apply memories_kept.
Qed.

Lemma outcome_map {T U} (g : T → U) s P (Q : time → U → State → Prop) w (m : SE World Error T) r w' :
  (∀ r0 w0, m w = (r0, w0) → outcome s P w r0 w0) → (∀ now a s1, P now a s1 → Q now (g a) s1) →
  (a ← m; mret (g a)) w = (r, w') → outcome s Q w r w'.
Proof.
  intros Hm Hg. unfold mbind, SE_bind. destruct (m w) as [[a|e] w0]; intros [= <- <-];
    destruct (Hm _ _ eq_refl) as [(? & ? & ?)|(now & out & s1 & ev & ? & ? & ? & ? & Ha)]; try done.
  - right. exists now, (g out), s1, ev. split_and!; try done; [by apply Hg|].
    intros ? [= <-]. by rewrite (Ha a eq_refl).
  - by left.
  - right. exists now, (g out), s1, ev. split_and!; try done. by apply Hg.
Qed.

(** C13: Each operation on the project state does what it says.  From a well-formed log, an operation
    either fails and leaves the log as it was, or appends one event; replaying the longer log gives
    the state the operation describes ([did]: the returned record in place, everything else kept),
    and the log is well formed again.  An error after the event was written is possible, a success
    without it is not; and no cached vector outlives its memory. *)
Theorem operation_refines op w r w' s :
  log_ok (log w) s → cache_ok s (cache w) → run_op op w = (r, w') →
  outcome s (λ now out s1, did op now s out s1) w r w'.
Proof.
  intros Hl Hc. destruct op; simpl; eapply outcome_map; try (intros r0 w0 H).
  1: by eapply create_spec.
  2: by eapply update_spec.
  3: by eapply claim_spec.
  4: by eapply close_spec.
  5: by eapply depend_spec.
  6: by eapply comment_spec.
  7: by eapply upsert_spec.
  8: by eapply delete_spec'.
  9: by eapply session_spec.
  all: try done.
Qed.
End ops.

Lemma operation_refines_witness :
  run_op (λ s, s) a_store an_outside (DeleteMemory "mem_A") one_memory
    = (Ok ODone, snd (run_op (λ s, s) a_store an_outside (DeleteMemory "mem_A") one_memory))
  ∧ outcome one_state (λ now out s1, did (λ s, s) a_store (DeleteMemory "mem_A") now one_state out s1) one_memory
      (Ok ODone) (snd (run_op (λ s, s) a_store an_outside (DeleteMemory "mem_A") one_memory)).
Proof.
  split; [vm_compute; reflexivity|].
  apply (operation_refines (λ s, s) a_store an_outside (DeleteMemory "mem_A") one_memory (Ok ODone) _ one_state).
  - apply one_memory_log.
  - apply one_memory_cache.
  - vm_compute. reflexivity.
Defined.
Lemma replay_blocks_witness :
  ∃ s t, replay (view (backend two_tasks)) = Ok s ∧ tasks s !! "task_A" = Some t ∧ blocks t = ["task_C"]
    ∧ NoDup (blocks t)
    ∧ ∀ b, b ∈ blocks t ↔ ∃ k' t', tasks s !! k' = Some t' ∧ task_id t' = b ∧ "task_A" ∈ depends_on t'.
Proof.
  destruct (replay (view (backend two_tasks))) as [s|e] eqn:Hs; [|exfalso; vm_compute in Hs; discriminate Hs].
  destruct (tasks s !! "task_A") as [t|] eqn:Ht.
  2:{ exfalso. vm_compute in Hs. injection Hs as <-. vm_compute in Ht. discriminate Ht. }
  exists s, t. split; [reflexivity|]. split; [exact Ht|]. split.
  - vm_compute in Hs. injection Hs as <-. vm_compute in Ht. injection Ht as <-. reflexivity.
  - apply (replay_blocks (view (backend two_tasks)) s "task_A" t Hs Ht).
Defined.
