(* ===== verification/ProjectPurge.v ===== *)
(** * ProjectPurge: taking memories out of the history

    [purge_memories] rewrites the log without the events of some memories and
    numbers the rest again: the log that remains stands for the same state
    without those memories. *)

From S2P Require Import Prelude Text ProjectState ProjectStore ProjectReplay ProjectSpec ProjectExample.

Section purge.
Context {V : Type} {J : Json V} {JL : JsonLaws J}.
Context (ids : list string).
Notation Event := (Event V).
Notation Task := (Task V).
Notation State := (State V).

(** The state without these memories, at another point of the log. *)
Definition forget (n : Z) (s : State) : State :=
  set_last_seq n (set_memories (filter (λ km, km.1 ∉ ids) (memories s)) s).

Lemma change_task_forget k f n (s s1 : State) :
  change_task k f s = Ok s1 → change_task k f (forget n s) = Ok (forget n s1).
Proof.
  unfold change_task, task_mut. simpl. intros (t & -> & H)%bind_Ok. simpl.
  apply bind_Ok in H as (t' & -> & [= <-]). done.
Qed.
Lemma apply_with_seq n (ev : Event) (s : State) : apply (with_seq n ev) s = apply ev s.
Proof. done. Qed.
(** The payload of an event that puts a memory names it. *)
Lemma purged_upsert (ev : Event) m :
  event_type ev = "memory.upserted" → payload ev = of_memory m → purged ids ev = bool_decide (memory_id m ∈ ids).
Proof. intros Hk Hp. unfold purged. by rewrite Hk, Hp, field_memory. Qed.
Lemma purged_delete (ev : Event) :
  event_type ev = "memory.deleted" → purged ids ev = is_some_and (as_str (field (payload ev) "id")) (λ i, bool_decide (i ∈ ids)).
Proof. intros Hk. unfold purged. by rewrite Hk. Qed.
Lemma purged_kind (ev : Event) :
  purged ids ev = true → event_type ev = "memory.upserted" ∨ event_type ev = "memory.deleted".
Proof.
  unfold purged. intros [[H|H]%orb_prop _]%andb_prop; apply String.eqb_eq in H; auto.
Qed.

Lemma forget_insert n m (s : State) :
  memory_id m ∉ ids → forget n (put_memory m s) = put_memory m (forget n s).
Proof.
  intros Hm. unfold forget, put_memory, set_memories, set_last_seq. simpl. f_equal.
  by rewrite map_filter_insert_True.
Qed.
Lemma forget_insert_gone n m (s : State) : memory_id m ∈ ids → forget n (put_memory m s) = forget n s.
Proof.
  intros Hm. unfold forget, put_memory, set_memories, set_last_seq. simpl. f_equal.
  rewrite map_filter_insert_False by (simpl; by intros []). by rewrite map_filter_delete, delete_id
    by (apply map_lookup_filter_None; right; simpl; by intros ? _ []).
Qed.
Lemma forget_delete n k (s : State) :
  forget n (set_memories (delete k (memories s)) s) = set_memories (delete k (memories (forget n s))) (forget n s).
Proof.
  unfold forget, set_memories, set_last_seq. simpl. f_equal. by rewrite map_filter_delete.
Qed.
Lemma forget_delete_gone n k (s : State) :
  k ∈ ids → forget n (set_memories (delete k (memories s)) s) = forget n s.
Proof.
  intros Hk. rewrite forget_delete. unfold forget, set_memories, set_last_seq. simpl. f_equal.
  apply delete_id, map_lookup_filter_None. right. simpl. by intros ? _ [].
Qed.

(** An event either goes with the memories, or does the same without them. *)
Lemma apply_forget (ev : Event) n (s s1 : State) :
  event_ok ev → apply ev s = Ok s1 →
  if purged ids ev then forget n s1 = forget n s else apply ev (forget n s) = Ok (forget n s1).
Proof.
  intros Hok Ha.
  destruct (String.eqb_spec (event_type ev) "memory.upserted") as [Hk|Hnu].
  { destruct (Hok Hk) as [m Hp]. rewrite (purged_upsert _ _ Hk Hp).
    unfold apply in *. rewrite Hk, Hp, memory_round_trip in *. simpl in Ha. injection Ha as <-.
    case_bool_decide; [by apply forget_insert_gone|]. simpl. by rewrite <-forget_insert. }
  destruct (String.eqb_spec (event_type ev) "memory.deleted") as [Hk|Hnd].
  { rewrite (purged_delete _ Hk). unfold apply in *. rewrite Hk in *. simpl in *. injection Ha as <-.
    unfold str_at. destruct (as_str _) as [i|]; simpl; [|by rewrite forget_delete].
    case_bool_decide; [by apply forget_delete_gone|by rewrite forget_delete]. }
  destruct (purged ids ev) eqn:Hp; [by destruct (purged_kind _ Hp)|]. clear Hp Hok.
  unfold apply in *. cbv zeta in *.
  repeat match type of Ha with
  | (if String.eqb (event_type ev) ?k then _ else _) = _ =>
      destruct (String.eqb_spec (event_type ev) k); [|]
  end; try done;
  repeat match type of Ha with
  | (if ?b then _ else _) = _ => destruct b
  | change_task _ _ _ = _ => by apply change_task_forget
  | mbind _ _ = _ => let Hx := fresh "Hx" in apply bind_Ok in Ha as (? & Hx & Ha); rewrite Hx; simpl
  end; try (by apply change_task_forget); injection Ha as <-; done.
Qed.

Notation kept l := (List.filter (λ ev, negb (purged ids ev)) l).
Lemma forget_set_last_seq n m (s : State) : forget n (set_last_seq m s) = forget n s.
Proof. done. Qed.
Lemma replay_forget_from (l : list Event) k (s s1 : State) :
  Forall event_ok l → foldM replay_event s l = Ok s1 →
  foldM replay_event (forget (Z.of_nat k) s) (imap (λ i, with_seq (k + i)) (kept l))
  = Ok (forget (Z.of_nat (k + length (kept l))) s1).
Proof.
  intros Hl. revert k s. induction Hl as [|ev l Hev Hl IH]; intros k s Hf; simpl in *.
  { injection Hf as <-. by rewrite Nat.add_0_r. }
  destruct (replay_event s ev) as [s2|] eqn:H2; [|done]. unfold replay_event in H2.
  apply bind_Ok in H2 as (s3 & H3 & [= <-]). pose proof (apply_forget _ (Z.of_nat k) _ _ Hev H3) as Ha.
  apply IH with (k := if purged ids ev then k else S k) in Hf.
  rewrite forget_set_last_seq in Hf. destruct (purged ids ev); simpl.
  { by rewrite <-Ha. }
  unfold replay_event at 1. rewrite apply_with_seq, Ha. simpl.
  replace (set_last_seq _ (forget (Z.of_nat k) s3)) with (forget (Z.of_nat (S k)) s3).
  2:{ unfold forget, set_last_seq, set_memories. simpl. f_equal. lia. }
  rewrite Nat.add_succ_r. erewrite imap_ext; [apply Hf|]. intros i e _. simpl. f_equal. lia.
Qed.
Lemma replay_forget (l : list Event) (s : State) :
  Forall event_ok l → replay l = Ok s →
  replay (purge_events ids l) = Ok (forget (Z.of_nat (length (purge_events ids l))) s).
Proof.
  unfold replay. intros Hl (s0 & Hf & [= <-])%bind_Ok.
  apply replay_forget_from with (k := 0%nat) in Hf; [|done]. unfold purge_events.
  rewrite length_imap. change (imap with_seq _) with (imap (λ i, with_seq (0 + i)) (kept l)).
  assert (forget (Z.of_nat 0) empty_state = empty_state) as He by done. rewrite <-He. simpl in *. by rewrite Hf.
Qed.
Lemma elem_of_purge_events (l : list Event) i ev :
  purge_events ids l !! i = Some ev → ∃ n e, ev = with_seq n e ∧ e ∈ l ∧ purged ids e = false.
Proof.
  unfold purge_events. rewrite list_lookup_imap. intros (e & He & ->)%fmap_Some. exists i, e. split; [done|].
  apply list_elem_of_lookup_2, elem_of_List_filter in He as [Hin He%negb_true_iff]. done.
Qed.
Lemma purge_log_ok (l : list Event) (s : State) :
  log_ok l s → log_ok (purge_events ids l) (forget (Z.of_nat (length (purge_events ids l))) s).
Proof.
  intros [Hr [Ht Hm Hx] _ Hn He]. split.
  - by apply replay_forget.
  - split; [done| |done]. simpl. intros k m [Hk _]%map_lookup_filter_Some. by apply Hm.
  - done.
  - apply list_eq. intros i. unfold purge_events. rewrite !list_lookup_imap. by destruct (_ !! i).
  - apply Forall_lookup. intros i ev Hi. apply elem_of_purge_events in Hi as (n & e & -> & Hin & _).
    rewrite Forall_forall in He. by apply (He e).
Qed.
(** Nothing of these memories is left. *)
Lemma purge_events_gone (l : list Event) : Forall (λ ev, purged ids ev = false) (purge_events ids l).
Proof.
  apply Forall_lookup. intros i ev Hi. by apply elem_of_purge_events in Hi as (n & e & -> & _ & He).
Qed.
End purge.

(** ** The operations *)
Section ops.
Context {V R B : Type} {J : Json V} {JL : JsonLaws J} {Em : Embeddings V R} {Bk : Backend V R B}
  {BS : BackendSpec Bk}.
Context (store : @ProjectStore V) (o : Outside).
Notation Event := (Event V).
Notation State := (State V).
Notation World := (@World B).
Notation log w := (view (backend w)).
Notation cache w := (cached (backend w)).

(** Some of these memories are gone, and all of them if the operation
    succeeded; nothing else was touched. *)
Definition forgot (ids : list string) (s s' : State) (ok : bool) : Prop :=
  tasks s' = tasks s ∧ sessions s' = sessions s ∧ project s' = project s ∧ memories s' ⊆ memories s
  ∧ (∀ k, k ∉ ids → memories s' !! k = memories s !! k)
  ∧ (ok = true → ∀ k, k ∈ ids → memories s' !! k = None).
Definition forgotten (ids : list string) (s : State) (w' : World) (ok : bool) : Prop :=
  ∃ s', log_ok (log w') s' ∧ cache_ok s' (cache w') ∧ forgot ids s s' ok.

Lemma forgotten_none ids (s : State) w w' :
  log_ok (log w) s → cache_ok s (cache w) → log w' = log w → dom (cache w') ⊆ dom (cache w) →
  forgotten ids s w' false.
Proof.
  intros Hl Hc Hv Hc'. exists s. rewrite Hv. split_and!; try done. unfold cache_ok in *. set_solver.
Qed.
Lemma forgotten_purged ids (s : State) w w' ok :
  log_ok (log w) s → cache_ok s (cache w) → log w' = purge_events ids (log w) →
  (∀ k, k ∈ dom (cache w') → k ∉ ids ∧ k ∈ dom (cache w)) → forgotten ids s w' ok.
Proof.
  intros Hl Hc Hv Hc'. eexists. rewrite Hv. split; [by apply purge_log_ok|]. split; [|split_and!; [done..| | |]].
  - intros k [Hk1 Hk2]%Hc'. apply Hc in Hk2. apply elem_of_dom in Hk2 as [m Hm]. apply elem_of_dom. exists m.
    by apply map_lookup_filter_Some.
  - apply map_filter_subseteq.
  - intros k Hk. simpl. destruct (memories s !! k) as [m|] eqn:Hm.
    + by apply map_lookup_filter_Some.
    + apply map_lookup_filter_None. by left.
  - intros _ k Hk. apply map_lookup_filter_None. right. simpl. by intros ? _ [].
Qed.

(** What [tx_delete_embeddings] leaves. *)
Lemma tx_delete_inv ids w r w' :
  clean (backend w) → tx (tx_delete_embeddings ids) w = (r, w') →
  log w' = log w ∧ (is_ok r = true → clean (backend w')) ∧ dom (cache w') ⊆ dom (cache w)
  ∧ (is_ok r = true → ∀ k, k ∈ dom (cache w') → k ∉ ids ∧ k ∈ dom (cache w)).
Proof.
  intros Hcl (b & H & Hb)%tx_inv. apply delete_spec in H as (Hv & Hcl' & Hc); [|done]. rewrite Hb, Hv.
  destruct Hc as [[Hc Hno]|Hc]; rewrite Hc.
  - split_and!; [done..|]. by rewrite Hno.
  - split_and!; [done|done|apply dom_filter_subseteq|]. intros _ k [v [Hk Hn]%map_lookup_filter_Some]%elem_of_dom.
    split; [done|]. by apply elem_of_dom.
Qed.

Lemma purge_locked_spec ids w r w' s :
  log_ok (log w) s → cache_ok s (cache w) → purge_locked store o ids w = (r, w') →
  log w' = log w ∧ dom (cache w') ⊆ dom (cache w) ∧ is_ok r = false
  ∨ log w' = purge_events ids (log w) ∧ (∀ k, k ∈ dom (cache w') → k ∉ ids ∧ k ∈ dom (cache w))
    ∧ (∀ n, r = Ok n → n = length (log w) - length (log w')).
Proof.
  intros Hl Hc H. unfold purge_locked, mbind, SE_bind in H.
  destruct (tx tx_events w) as [[l|e] w1] eqn:H1; apply tx_inv in H1 as (b1 & H1 & Hb1);
    apply events_spec in H1 as (Hv1 & Hc1 & Hl1); rewrite <-Hb1 in *.
  2:{ injection H as <- <-. left. by rewrite Hv1, Hc1. }
  destruct (Hl1 _ eq_refl) as [-> Hcl]. unfold utc_now, event, id, mbind, SE_bind, lift in H. cbn in H.
  destruct (before_write _ _); [|injection H as <- <-; left; simpl; by rewrite Hv1, Hc1].
  rewrite (replay_forget _ _ _ (log_events _ _ Hl) (log_replay _ _ Hl)) in H.
  set (w2 := mkWorld _ _ _) in H.
  destruct (tx (tx_delete_embeddings ids) w2) as [r3 w3] eqn:H3.
  apply tx_delete_inv in H3 as (Hv3 & Hcl3 & Hc3 & Hd3); [|done]. simpl in Hv3, Hc3, Hd3.
  rewrite Hv1 in Hv3. rewrite Hc1 in Hc3, Hd3.
  destruct r3; [|injection H as <- <-; by left]. specialize (Hd3 eq_refl). specialize (Hcl3 eq_refl).
  destruct (tx (tx_replace _) w3) as [r4 w4] eqn:H4. apply tx_inv in H4 as (b4 & H4 & Hb4).
  apply replace_spec in H4 as (Hc4 & Hv4 & Hcl4); [|done]. rewrite <-Hb4 in *.
  destruct Hv4 as [Hv4|[Hno Hv4]].
  2:{ destruct r4; [done|]. injection H as <- <-. left. by rewrite Hv4, Hc4, Hv3. }
  right. destruct r4; [|injection H as <- <-; by rewrite Hc4, Hv4].
  destruct (tx (tx_snapshot _) w4) as [r5 w5] eqn:H5. apply tx_inv in H5 as (b5 & H5 & Hb5).
  apply snapshot_spec in H5 as [Hv5 Hc5]; [|by apply Hcl4]. rewrite <-Hb5 in *.
  assert (w' = w5 ∧ ∀ n, r = Ok n → n = length (log w) - length (purge_events ids (log w))) as [-> Hr].
  { destruct r5; injection H as <- <-; (split; [done|]); [by intros ? [= <-]|done]. }
  by rewrite Hv5, Hc5, Hc4, Hv4.
Qed.

(** C30: Purging memories.  The operation either fails and leaves the log as it was, or leaves a log,
    numbered from one, in which no event puts or deletes one of these memories, and which replays to
    the same state without them; no vector of theirs stays in the cache. *)
Theorem purge_memories_spec ids w r w' s :
  log_ok (log w) s → cache_ok s (cache w) → purge_memories store o ids w = (r, w') →
  forgotten (unique ids) s w' (is_ok r)
  ∧ (is_ok r = true → Forall (λ ev, purged (unique ids) ev = false) (log w')
       ∧ ∀ k, k ∈ unique ids → cache w' !! k = None)
  ∧ ∀ n, r = Ok n → n = (length (log w) - length (log w'))%nat.
Proof.
  intros Hl Hc H. unfold purge_memories in H.
  apply transaction_spec in H as [(Hv & Hc' & Hno)|(w0 & r0 & w1 & Hv0 & Hc0 & H & Hr & Hend)].
  { rewrite Hno. split; [eapply forgotten_none; try done; by rewrite Hc'|]. split; [done|by intros ? ->]. }
  rewrite <-Hv0 in *. rewrite <-Hc0 in *. eapply purge_locked_spec in H; [|done|done].
  destruct Hend as [[Hv' Hc']|(Hno & Hv' & Hc')].
  2:{ rewrite Hno. split; [eapply (forgotten_none _ _ w0); try done; by rewrite Hc'|]. split; [done|by intros ? ->]. }
  destruct H as [(Hv & Hd & Hno)|(Hv & Hd & Hn)].
  - assert (is_ok r = false) as Hno' by (destruct r as [a|]; [by rewrite (Hr a eq_refl) in Hno|done]).
    rewrite Hno'. split; [eapply (forgotten_none _ _ w0); [done|done|congruence|by rewrite Hc']|].
    split; [done|by intros ? ->].
  - rewrite <-Hv', <-Hc' in *. split; [by eapply (forgotten_purged _ _ w0)|]. split.
    + intros _. split; [rewrite Hv; apply purge_events_gone|]. intros k Hk. apply not_elem_of_dom. by intros [? _]%Hd.
    + intros n Hrn. apply Hn. by apply Hr.
Qed.
End ops.

Lemma purge_memories_spec_witness :
  ∃ w', purge_memories a_store an_outside [" mem_A"] one_memory = (Ok 1%nat, w') ∧ forgotten (unique [" mem_A"]) one_state w' true
    ∧ view (backend w') = [].
Proof.
  eexists. split; [vm_compute; reflexivity|]. split; [|reflexivity].
  refine (proj1 (purge_memories_spec a_store an_outside [" mem_A"] one_memory (Ok 1%nat) _ one_state _ _ _)).
  - apply one_memory_log.
  - apply one_memory_cache.
  - vm_compute. reflexivity.
Defined.
