(* ===== verification/ProjectRetain.v ===== *)
(** * ProjectRetain: retiring old memories

    [retain_memories] appends a deletion per retired memory (or purges them):
    what the log stands for afterwards obeys the policy, and a failure on the way
    loses nothing the policy keeps. *)

From stdpp Require Import sorting.
From S2P Require Import Prelude Text ProjectState ProjectStore ProjectReplay ProjectSpec ProjectExample ProjectPurge.

Section retain.
Context {V R B : Type} {J : Json V} {JL : JsonLaws J} {Em : Embeddings V R} {Bk : Backend V R B}
  {BS : BackendSpec Bk}.
Context (store : @ProjectStore V) (o : Outside).
Notation Event := (Event V).
Notation Memory := (Memory V).
Notation State := (State V).
Notation World := (@World B).
Notation log w := (view (backend w)).
Notation cache w := (cached (backend w)).

(** ** The deletions that are appended *)
Definition deletes (n : Z) (k : string) (ev : Event) : Prop :=
  event_type ev = "memory.deleted" ∧ str_at (payload ev) "id" = k ∧ seq ev = n.
Fixpoint all_delete (n : Z) (ids : list string) (evs : list Event) : Prop :=
  match ids, evs with
  | [], [] => True
  | k :: ids, ev :: evs => deletes n k ev ∧ all_delete (n + 1) ids evs
  | _, _ => False
  end.
Lemma pending_spec ids n (w : World) r w' :
  pending store o n ids w = (r, w') → backend w' = backend w ∧ ∀ evs, r = Ok evs → all_delete n ids evs.
Proof.
  revert n w r w'. induction ids as [|k ids IH]; intros n w r w' H; simpl in H.
  { injection H as <- <-. split; [done|]. by intros ? [= <-]. }
  unfold utc_now, event, id, mbind, SE_bind, lift in H. cbn in H.
  destruct (before_write _ _); [|injection H as <- <-; split; [done|by intros ? [=]]].
  destruct (pending _ _ _ _ _) as [[evs|e] w1] eqn:H1; apply IH in H1 as [Hb Hd];
    injection H as <- <-; (split; [by rewrite Hb|]); intros ? [= <-].
  split; [|by apply Hd]. split_and!; [done| |done]. unfold str_at. simpl.
  rewrite (field_obj _ "id" (str k)), as_str_str; [done| |by left].
  by apply (bool_decide_unpack (NoDup _)); vm_compute.
Qed.

Lemma forgot_refl ids (s : State) : forgot ids s s false.
Proof. by split_and!. Qed.
Lemma log_ok_links (l : list Event) s : log_ok l s → recompute_blocks s = s.
Proof.
  intros [Hr _ _ _ _]. unfold replay in Hr. apply bind_Ok in Hr as (s0 & _ & [= <-]).
  apply recompute_alike, recompute_alike_self.
Qed.
(** One deletion. *)
Lemma log_ok_deleted (l : list Event) s k ev :
  log_ok l s → deletes (last_seq s + 1) k ev →
  log_ok (l ++ [ev]) (set_last_seq (last_seq s + 1) (set_memories (delete k (memories s)) s)).
Proof.
  intros Hl (Hk & Hp & Hn). pose proof (log_ok_links _ _ Hl) as Hb.
  assert (set_last_seq (last_seq s + 1) (set_memories (delete k (memories s)) s)
    = recompute_blocks (set_last_seq (last_seq s + 1) (set_memories (delete k (memories s)) s))) as ->.
  { transitivity (set_last_seq (last_seq s + 1) (set_memories (delete k (memories s)) (recompute_blocks s))); [|done].
    by rewrite Hb. }
  eapply log_ok_snoc; [done| |done| | |done].
  - unfold apply. rewrite Hk. simpl. by rewrite Hp.
  - destruct (log_state _ _ Hl). split; simpl; [done|by apply map_Forall_delete|done].
  - unfold event_ok. by rewrite Hk.
Qed.
Lemma forgot_step k ids (s s' : State) n ok :
  forgot ids (set_last_seq n (set_memories (delete k (memories s)) s)) s' ok → forgot (k :: ids) s s' ok.
Proof.
  intros (Ht & Hx & Hp & Hm & Hkeep & Hgone). simpl in *. split_and!; try done.
  - etrans; [done|]. apply delete_subseteq.
  - intros k' [Hne Hk']%not_elem_of_cons. rewrite Hkeep by done. by rewrite lookup_delete_ne.
  - intros Hok k' [->|Hk']%elem_of_cons; [|by apply Hgone]. destruct (decide (k ∈ ids)) as [|Hk]; [by apply Hgone|].
    rewrite Hkeep by done. apply lookup_delete_eq.
Qed.
Lemma append_all_spec evs ids s sv w r w' :
  log_ok (log w) s → clean (backend w) → all_delete (last_seq s + 1) ids evs →
  append_all sv evs w = (r, w') →
  cache w' = cache w ∧ (is_ok r = true → clean (backend w'))
  ∧ ∃ s', log_ok (log w') s' ∧ forgot ids s s' (is_ok r).
Proof.
  revert ids s sv w. induction evs as [|ev evs IH]; intros ids s sv w Hl Hcl Hd H; simpl in H.
  { destruct ids; [|done]. injection H as <- <-. split_and!; [done..|]. exists s. split; [done|].
    split_and!; try done. intros _ k Hk. by apply elem_of_nil in Hk. }
  destruct ids as [|k ids]; [done|]. destruct Hd as [Hdel Hd]. pose proof Hdel as (Hk & _ & Hn).
  unfold mbind, SE_bind, lift in H. unfold apply in H. rewrite Hk in H. simpl in H.
  destruct (tx (tx_append ev) w) as [r1 w1] eqn:H1. apply tx_inv in H1 as (b1 & H1 & Hb1).
  apply append_spec in H1 as (Hc1 & Hv1 & Hcl1); [|done|by eapply log_ok_below]. rewrite <-Hb1 in *.
  destruct Hv1 as [Hv1|[Hno Hv1]].
  - pose proof (log_ok_deleted _ _ _ _ Hl Hdel) as Hl1. rewrite <-Hv1 in Hl1. destruct r1 as [[]|e].
    + eapply IH in H as (Hc & Hcl' & s' & Hl' & Hf); [|done|by apply Hcl1|done].
      split_and!; [congruence|done|]. exists s'. split; [done|]. by eapply forgot_step.
    + injection H as <- <-. split_and!; [done..|]. eexists. split; [done|]. eapply forgot_step, forgot_refl.
  - destruct r1; [done|]. injection H as <- <-. split_and!; [done..|]. exists s. rewrite Hv1.
    split; [done|]. apply forgot_refl.
Qed.

(** ** What is retired *)
Lemma elem_of_sorted_memories (s : State) m :
  state_ok s → m ∈ sorted_memories s ↔ memories s !! memory_id m = Some m.
Proof.
  intros Hs. unfold sorted_memories. rewrite merge_sort_Permutation, elem_of_values. split; [|eauto].
  intros [k Hk]. by rewrite (memory_key _ _ (ok_memories _ Hs _ _ Hk)).
Qed.
Lemma elem_of_retired p (s : State) k :
  k ∈ retired p s ↔ ∃ i m, List.filter (candidate p) (sorted_memories s) !! i = Some m
                      ∧ expired p i m = true ∧ memory_id m = k.
Proof.
  unfold retired. rewrite list_elem_of_fmap. split.
  - intros ([i m] & -> & [[j Hj]%list_elem_of_lookup He]%elem_of_List_filter). rewrite list_lookup_imap in Hj.
    apply fmap_Some in Hj as (m' & Hm & [= -> ->]). by exists j, m'.
  - intros (i & m & Hm & He & <-). exists (i, m). split; [done|].
    apply elem_of_List_filter. split; [|done]. apply list_elem_of_lookup. exists i.
    by rewrite list_lookup_imap, Hm.
Qed.
Lemma candidate_index p (s : State) m :
  state_ok s → memories s !! memory_id m = Some m → candidate p m = true →
  ∃ i, List.filter (candidate p) (sorted_memories s) !! i = Some m.
Proof.
  intros Hs Hm Hp. apply list_elem_of_lookup, elem_of_List_filter. split; [|done].
  by apply elem_of_sorted_memories.
Qed.

(** What a state that obeys the policy has kept. *)
Record obeys (p : RetentionPolicy) (s s' : State) : Prop := {
  obeys_before t k m : before p = Some t → memories s' !! k = Some m → candidate p m = true →
    (t <= memory_updated m)%Z;
  obeys_count n : max_count p = Some n → (size (filter (λ km, candidate p km.2 = true) (memories s')) <= n)%nat;
  obeys_pinned k m : keep_pinned p = true → kind m = "pinned" → memories s !! k = Some m → memories s' !! k = Some m;
}.
Lemma survivor p (s s' : State) k m :
  state_ok s → forgot (retired p s) s s' true → memories s' !! k = Some m → candidate p m = true →
  memory_id m = k ∧ ∃ i, List.filter (candidate p) (sorted_memories s) !! i = Some m ∧ expired p i m = false.
Proof.
  intros Hs (_ & _ & _ & Hsub & Hkeep & Hgone) Hk Hp.
  assert (k ∉ retired p s) as Hn by (intros Hr; by rewrite Hgone in Hk).
  rewrite Hkeep in Hk by done. pose proof (memory_key _ _ (ok_memories _ Hs _ _ Hk)) as <-. split; [done|].
  destruct (candidate_index p s m) as [i Hi]; [done..|]. exists i. split; [done|].
  destruct (expired p i m) eqn:He; [|done]. destruct Hn. apply elem_of_retired. by exists i, m.
Qed.
Lemma forgot_obeys p (s s' : State) :
  state_ok s → forgot (retired p s) s s' true → obeys p s s'.
Proof.
  intros Hs Hf. split.
  - intros t k m Ht Hk Hp. eapply survivor in Hk as (_ & i & _ & He); [|done..].
    unfold expired in He. rewrite Ht in He. apply orb_false_iff in He as [He _]. simpl in He. lia.
  - intros n Hn. rewrite <-size_dom. set (cs := List.filter (candidate p) (sorted_memories s)).
    transitivity (size (list_to_set (memory_id <$> take n cs) : gset string)).
    + apply subseteq_size. intros k (m & [Hk Hp]%map_lookup_filter_Some)%elem_of_dom.
      eapply survivor in Hk as (<- & i & Hi & He); [|done..]. apply elem_of_list_to_set, list_elem_of_fmap.
      exists m. split; [done|]. apply list_elem_of_lookup. exists i. rewrite lookup_take_lt; [done|].
      unfold expired in He. rewrite Hn in He. apply orb_false_iff in He as [_ He]. simpl in He.
      apply Nat.leb_gt in He. done.
    + etrans; [apply size_list_to_set_le|]. rewrite length_fmap, length_take. lia.
  - intros k m Hp Hm Hk. destruct Hf as (_ & _ & _ & _ & Hkeep & _). rewrite Hkeep; [done|].
    intros (i & m' & Hi & _ & <-)%elem_of_retired. apply list_elem_of_lookup_2, elem_of_List_filter in Hi as [Hi Hc].
    apply elem_of_sorted_memories in Hi; [|done]. rewrite Hk in Hi. injection Hi as <-.
    unfold candidate in Hc. by rewrite Hp, Hm in Hc.
Qed.

(** ** The operation *)
Lemma retain_body_spec p s w r w' (Hl : log_ok (log w) s) (Hc : cache_ok s (cache w)) (Hcl : clean (backend w)) :
  (evs ← pending store o (last_seq s + 1) (retired p s);
   _ ← tx (tx_delete_embeddings (retired p s));
   s1 ← append_all s evs;
   tx (tx_snapshot s1)) w = (r, w') → forgotten (retired p s) s w' (is_ok r).
Proof.
  intros H. unfold mbind at 1, SE_bind at 1 in H.
  destruct (pending _ _ _ _ _) as [[evs|e] w1] eqn:H1; apply pending_spec in H1 as [Hb1 Hd].
  2:{ injection H as <- <-. eapply (forgotten_none _ _ w); [done|done|by rewrite Hb1..]. }
  specialize (Hd _ eq_refl). rewrite <-Hb1 in *. unfold mbind at 1, SE_bind at 1 in H.
  destruct (tx (tx_delete_embeddings _) w1) as [r2 w2] eqn:H2.
  apply tx_delete_inv in H2 as (Hv2 & Hcl2 & Hc2 & Hd2); [|done].
  destruct r2; [|injection H as <- <-; by eapply (forgotten_none _ _ w1)].
  rewrite <-Hv2 in Hl. specialize (Hd2 eq_refl). unfold mbind, SE_bind in H.
  destruct (append_all _ _ _) as [r3 w3] eqn:H3. eapply append_all_spec in H3 as (Hc3 & Hcl3 & s' & Hl' & Hf);
    [|done|by apply Hcl2|done].
  assert (Hcache : cache_ok s' (cache w3)).
  { destruct Hf as (_ & _ & _ & _ & Hkeep & _). intros k Hk. rewrite Hc3 in Hk. apply Hd2 in Hk as [Hn Hk%Hc].
    apply elem_of_dom. rewrite Hkeep by done. by apply elem_of_dom. }
  destruct r3 as [s3|e]; [|injection H as <- <-; by exists s'].
  apply tx_inv in H as (b4 & H4 & Hb4). apply snapshot_spec in H4 as [Hv4 Hc4]; [|by apply Hcl3].
  exists s'. rewrite Hb4, Hv4, Hc4. split_and!; try done. destruct Hf as (?&?&?&?&?&Hg). split_and!; try done. intros _. by apply Hg.
Qed.

(** Retiring memories.  Whatever fails, the log stays well formed, and every memory the policy
    does not retire, every task and every session is still there, with no vector of a memory that is
    gone.  If the operation succeeds, it returns exactly the memories that are gone, and those that
    remain obey the policy: none that may be retired is older than [before], at most [max_count] of
    them are left, and with [keep_pinned] every pinned one is. *)
Theorem retain_memories_spec p w r w' s :
  log_ok (log w) s → cache_ok s (cache w) → retain_memories store o p w = (r, w') →
  ∃ s', log_ok (log w') s' ∧ cache_ok s' (cache w') ∧ forgot (retired p s) s s' (is_ok r)
    ∧ (is_ok r = true → obeys p s s') ∧ ∀ ids, r = Ok ids → ids = retired p s.
Proof.
  intros Hl Hc H. pose proof (log_state _ _ Hl) as Hs.
  assert (forgotten (retired p s) s w' (is_ok r) ∧ ∀ ids, r = Ok ids → ids = retired p s) as [(s' & ? & ? & Hf) Hids].
  2:{ exists s'. split_and!; try done. intros Hok. rewrite Hok in Hf. by apply forgot_obeys. }
  unfold retain_memories in H.
  apply transaction_spec in H as [(Hv & Hc' & Hno)|(w0 & r0 & w1 & Hv0 & Hc0 & H & Hr & Hend)].
  { rewrite Hno. split; [eapply forgotten_none; try done; by rewrite Hc'|]. by intros ? ->. }
  rewrite <-Hv0 in *. rewrite <-Hc0 in *.
  assert (forgotten (retired p s) s w1 (is_ok r0) ∧ ∀ ids, r0 = Ok ids → ids = retired p s) as [Hf Hids].
  2:{ destruct Hend as [[Hv' Hc']|(Hno & Hv' & Hc')].
      - unfold forgotten. rewrite Hv', Hc'. split; [|by intros ids Hrn; apply Hids, Hr].
        destruct r as [a|]; [by rewrite (Hr a eq_refl) in Hf|]. destruct Hf as (s' & ? & ? & ?&?&?&?&?&?).
        exists s'. by split_and!.
      - rewrite Hno. split; [eapply (forgotten_none _ _ w0); try done; by rewrite Hc'|]. by intros ? ->. }
  unfold mbind at 1, SE_bind at 1 in H.
  destruct (replayed w0) as [[s1|e] w2] eqn:H2; apply replayed_spec in H2 as (Hv2 & Hc2 & _ & _ & Hs1).
  2:{ injection H as <- <-. split; [|done]. eapply (forgotten_none _ _ w0); try done. by rewrite Hc2. }
  destruct (Hs1 _ eq_refl) as [Hs1' Hcl2]. rewrite (log_replay _ _ Hl) in Hs1'. injection Hs1' as <-.
  rewrite <-Hv2 in *. rewrite <-Hc2 in *. unfold mbind at 1, SE_bind at 1 in H.
  match type of H with (let (_, _) := ?m w2 in _) = _ => destruct (m w2) as [r3 w3] eqn:H3 end.
  assert (forgotten (retired p s) s w3 (is_ok r3)) as Hf3.
  2:{ destruct r3; injection H as <- <-; (split; [done|]); [by intros ? [= <-]|done]. }
  destruct (purge_history p); [|by eapply retain_body_spec].
  unfold mbind, SE_bind in H3. destruct (purge_locked _ _ _ _) as [r4 w4] eqn:H4.
  assert (w3 = w4 ∧ is_ok r3 = is_ok r4) as [-> ->] by (destruct r4; by injection H3 as <- <-).
  eapply purge_locked_spec in H4 as [(Hv & Hd & Hno)|(Hv & Hd & _)]; [..|done|done].
  - rewrite Hno. by eapply (forgotten_none _ _ w2).
  - by eapply (forgotten_purged _ _ w2).
Qed.
End retain.

Lemma retain_memories_spec_witness :
  ∃ w' s', retain_memories a_store an_outside (mkRetention None (Some 0%nat) false false) one_memory = (Ok ["mem_A"], w')
    ∧ log_ok (view (backend w')) s' ∧ obeys (mkRetention None (Some 0%nat) false false) one_state s'.
Proof.
  destruct (retain_memories a_store an_outside (mkRetention None (Some 0%nat) false false) one_memory) as [r w'] eqn:H.
  assert (r = Ok ["mem_A"]) as -> by (vm_compute in H; injection H as <- _; reflexivity).
  destruct (retain_memories_spec a_store an_outside (mkRetention None (Some 0%nat) false false) one_memory _ w' one_state
    one_memory_log one_memory_cache H) as (s' & Hl & _ & _ & Ho & _).
  exists w', s'. split; [reflexivity|]. split; [exact Hl|]. apply Ho. reflexivity.
Defined.
