(* ===== verification/ProjectLog.v ===== *)
(** * ProjectLog: the project state in files

    [FsTransaction] of [crates/adk-project-state/src/storage.rs]: the event log
    is a file of JSON lines to which an operation appends one line, the rest is
    replaced through a temporary file and a rename.  The transaction holds the
    lock of the state directory, so it is alone; every system call may fail, and a
    write that fails may have written a part of its data ([fault]).  What [serde]
    writes and reads is a parameter ([Codec], its documented behaviour in
    [CodecLaws]).  A failing run may stop anywhere: the next transaction reads what
    it left. *)

From S2P Require Import Prelude Text ProjectState ProjectStore.

Definition newline : ascii := "010".
(** [u8::is_ascii_whitespace] *)
Definition is_ascii_whitespace (c : ascii) : bool :=
  bool_decide (byte_val c ∈ [9; 10; 12; 13; 32]%N).
Notation blank_line l := (forallb is_ascii_whitespace l).
(** [split_inclusive(|b| *b == b'\n')] *)
Fixpoint split_inclusive (b : list ascii) : list (list ascii) :=
  match b with
  | [] => []
  | c :: b =>
      if bool_decide (c = newline) then [c] :: split_inclusive b
      else match split_inclusive b with
           | [] => [[c]]
           | l :: ls => (c :: l) :: ls
           end
  end.

(** The documents that are written as a whole. *)
Inductive Document (V R : Type) :=
| DProject (p : Project)
| DTasks (updated_at : time) (l : list (Task V))
| DMemories (updated_at : time) (l : list (Memory V))
| DSessions (updated_at : time) (l : list SessionSummary)
| DVectors (updated_at : time) (model : string) (m : gmap string R).
Arguments DProject {V R} _.
Arguments DTasks {V R} _ _.
Arguments DMemories {V R} _ _.
Arguments DSessions {V R} _ _.
Arguments DVectors {V R} _ _ _.

(** What serde_json writes and reads. *)
Class Codec (V R : Type) := {
  to_vec : Event V → Result (list ascii);
  from_slice : list ascii → result string (Event V);
  to_vec_pretty : Document V R → Result (list ascii);
  read_vectors : list ascii → Result (gmap string R);
  model_of : R → string;
}.
Class CodecLaws {V R} (C : Codec V R) := {
  to_vec_line ev b : to_vec ev = Ok b → newline ∉ b;
  to_vec_object ev b : to_vec ev = Ok b → ∃ c b', b = c :: b' ∧ is_ascii_whitespace c = false;
  to_vec_round_trip ev b : to_vec ev = Ok b → from_slice b = Ok ev;
  (** a proper prefix of an object is not a document, white space after one is
      nothing *)
  from_slice_prefix ev b p x : to_vec ev = Ok b → b = p ++ x → x ≠ [] → is_ok (from_slice p) = false;
  from_slice_newline l ev : from_slice l = Ok ev → from_slice (l ++ [newline]) = Ok ev;
  vectors_round_trip t model m b : to_vec_pretty (DVectors t model m) = Ok b → read_vectors (b ++ [newline]) = Ok m;
}.

(** A file is named by its stem and its extension. *)
Notation path := (string * string)%type.
Definition events_jsonl : path := ("events", "jsonl").
Definition project_json : path := ("indexes/project", "json").
Definition tasks_json : path := ("indexes/tasks", "json").
Definition memories_json : path := ("indexes/memories", "json").
Definition sessions_json : path := ("indexes/sessions", "json").
Definition embeddings_json : path := ("indexes/embeddings", "json").

Record Disk := mkDisk { files : gmap path (list ascii); calls : nat }.

Section log.
Context {V R : Type} {C : Codec V R}.
Notation Event := (Event V).
Notation State := (State V).
(** What system call [n] does: nothing went wrong, or it failed after a part
    of its work. *)
Context (fault : nat → option nat) (clock : nat → time) (fresh : nat → string).
Notation M := (SE Disk Error).

Definition set_file (p : path) (b : list ascii) (d : Disk) : Disk := mkDisk (<[p := b]> (files d)) (calls d).
Definition contents (p : path) (d : Disk) : list ascii := default [] (files d !! p).

(** ** System calls *)
(** [done k] is what a call that fails after [k] steps leaves. *)
Definition sys {A} (done : nat → Disk → Disk) (m : M A) : M A := λ d,
  let d' := mkDisk (files d) (S (calls d)) in
  match fault (calls d) with
  | None => m d'
  | Some k => (Err (Io "system call failed"), done k d')
  end.
Definition nothing (_ : nat) (d : Disk) : Disk := d.
Definition io_err {A} : M A := fail (Io "system call failed").
Definition sync : M unit := sys nothing (mret tt).
(** [private_open]: the file is created if it is missing. *)
Definition opened (p : path) (d : Disk) : Disk := set_file p (contents p d) d.
Definition private_open (p : path) (exclusive : bool) : M unit := λ d,
  if exclusive && bool_decide (is_Some (files d !! p)) then (io_err d)
  else sys (λ k, if (k =? 0)%nat then Datatypes.id else opened p) (λ d, (Ok tt, opened p d)) d.
Definition append_bytes (p : path) (b : list ascii) (d : Disk) : Disk := set_file p (contents p d ++ b) d.
Definition write_all (p : path) (b : list ascii) : M unit :=
  sys (λ k, append_bytes p (take k b)) (λ d, (Ok tt, append_bytes p b d)).
Definition truncated (p : path) (n : nat) (d : Disk) : Disk := set_file p (take n (contents p d)) d.
Definition set_len (p : path) (n : nat) : M unit :=
  sys (λ k, if (k =? 0)%nat then Datatypes.id else truncated p n) (λ d, (Ok tt, truncated p n d)).
Definition renamed (a b : path) (d : Disk) : Disk :=
  mkDisk (<[b := contents a d]> (delete a (files d))) (calls d).
Definition rename (a b : path) : M unit :=
  sys (λ k, if (k =? 0)%nat then Datatypes.id else renamed a b) (λ d, (Ok tt, renamed a b d)).
Definition remove_file (p : path) : M unit :=
  sys nothing (λ d, (Ok tt, mkDisk (delete p (files d)) (calls d))).
(** [read_private]; [None] when there is no such file. *)
Definition read_private (p : path) : M (option (list ascii)) := sys nothing (λ d, (Ok (files d !! p), d)).

Definition attempt {A} (m : M A) : M (Result A) := λ d, let '(r, d) := m d in (Ok r, d).
(** [with_extension(id("tmp"))] *)
Definition temporary (p : path) : M path := λ d, (Ok (p.1, "tmp_" +:+ fresh (calls d)), d).
(** The checks for links and irregular files. *)
Definition inspect : M unit := sys nothing (mret tt).
Definition atomic_write (p : path) (data : list ascii) : M unit :=
  _ ← inspect;
  tmp ← temporary p;
  result ← attempt (
    _ ← private_open tmp true;
    _ ← write_all tmp data;
    _ ← sync;
    _ ← rename tmp p;
    sync);
  _ ← (if is_ok result then mret tt else _ ← attempt (remove_file tmp); mret tt);
  lift result.
Definition atomic_json (p : path) (value : Document V R) : M unit :=
  v ← lift (to_vec_pretty value);
  atomic_write p (v ++ [newline]).
Definition now : M time := λ d, (Ok (clock (calls d)), d).

(** ** The log *)
Record Scan := mkScan { found : list Event; valid : nat; offset : nat; torn : option string }.
Definition scan_line (s : Scan) (line : list ascii) : Result Scan :=
  let offset := (offset s + length line)%nat in
  let intact := bool_decide (torn s = None) in
  if blank_line line then Ok (mkScan (found s) (if intact then offset else valid s) offset (torn s))
  else match torn s with
  | Some e => Err (Json_ e)
  | None =>
      match from_slice line with
      | Ok ev => Ok (mkScan (found s ++ [ev]) offset offset None)
      | Err e => Ok (mkScan (found s) (valid s) offset (Some e))
      end
  end.
Definition scan (b : list ascii) : Result Scan := foldM scan_line (mkScan [] 0 0 None) (split_inclusive b).

Definition fs_events : M (list Event) :=
  bytes ← read_private events_jsonl;
  match bytes with
  | None => mret []
  | Some bytes =>
      s ← lift (scan bytes);
      _ ← (if bool_decide (torn s = None) then mret tt else
             _ ← private_open events_jsonl false;
             _ ← set_len events_jsonl (valid s);
             sync);
      _ ← (if (0 <? valid s)%nat && negb (bool_decide (bytes !! (valid s - 1)%nat = Some newline)) then
             _ ← private_open events_jsonl false;
             _ ← write_all events_jsonl [newline];
             sync
           else mret tt);
      mret (found s)
  end.
Definition fs_append (ev : Event) : M unit :=
  bytes ← lift (to_vec ev);
  _ ← private_open events_jsonl false;
  _ ← write_all events_jsonl (bytes ++ [newline]);
  _ ← sync;
  sync.
Definition fs_replace (events : list Event) : M unit :=
  lines ← lift (mapR to_vec events);
  atomic_write events_jsonl (mjoin ((λ b, b ++ [newline]) <$> lines)).
Definition fs_snapshot (s : State) : M unit :=
  t ← now;
  _ ← atomic_json project_json (DProject (project s));
  _ ← atomic_json tasks_json (DTasks t (sorted_tasks s));
  _ ← atomic_json memories_json (DMemories t (sorted_memories s));
  atomic_json sessions_json (DSessions t (sorted_sessions s)).
Definition fs_embeddings : M (gmap string R) :=
  bytes ← read_private embeddings_json;
  match bytes with
  | None => mret ∅
  | Some b => lift (read_vectors b)
  end.
Definition fs_put_embeddings (records : gmap string R) : M unit :=
  all ← fs_embeddings;
  t ← now;
  atomic_json embeddings_json (DVectors t (default "" (model_of <$> head (values records))) (records ∪ all)).
Definition fs_delete_embeddings (ids : list string) : M unit :=
  all ← fs_embeddings;
  t ← now;
  atomic_json embeddings_json (DVectors t "" (filter (λ kr, kr.1 ∉ ids) all)).

(** A transaction takes the lock of the directory, or fails; nothing is undone
    at its end. *)
Definition acquire : M unit := sys nothing (mret tt).
Definition fs_backend : Backend V R Disk := {|
  tx_events := fs_events;
  tx_append := fs_append;
  tx_replace := fs_replace;
  tx_snapshot := fs_snapshot;
  tx_embeddings := fs_embeddings;
  tx_put_embeddings := fs_put_embeddings;
  tx_delete_embeddings := fs_delete_embeddings;
  tx_begin := acquire;
  tx_commit _ := mret tt;
  tx_abort _ d := d;
|}.
End log.
