(* ===== verification/ProjectLogProps.v ===== *)
(** * ProjectLogProps: the files keep the contract of a backend

    A log file stands for the events of its complete lines: what a failed
    append leaves is the old log or the new one, the next reader repairs the
    file, and documents are replaced as a whole.  So [FsTransaction] is a backend in
    the sense of [ProjectSpec], and the operations on the project state do over it
    what they promise. *)

From S2P Require Import Prelude Text ProjectState ProjectStore ProjectReplay ProjectSpec ProjectExample ProjectLog.

(** ** Lines *)
Definition terminated (b : list ascii) : Prop := b = [] ∨ last b = Some newline.
Lemma split_concat b : mjoin (split_inclusive b) = b.
Proof.
  induction b as [|c b IH]; [done|]. simpl. case_bool_decide; simpl; [by rewrite IH|].
  destruct (split_inclusive b); simpl in *; by rewrite <-IH.
Qed.
Lemma terminated_cons c b : c ≠ newline → terminated (c :: b) → b ≠ [] ∧ terminated b.
Proof.
  intros Hc [|Hl]; [done|]. destruct b as [|c' b]; [by injection Hl|]. split; [done|]. by right.
Qed.
Lemma split_terminated a b : terminated a → split_inclusive (a ++ b) = split_inclusive a ++ split_inclusive b.
Proof.
  induction a as [|c a IH]; [done|]. intros Ht. simpl. case_bool_decide as Hc.
  - simpl. f_equal. apply IH. destruct Ht as [|Ht]; [done|]. destruct a; [by left|by right].
  - apply terminated_cons in Ht as [Hne Ht]; [|done]. rewrite IH by done.
    destruct (split_inclusive a) as [|l ls] eqn:Hs; [|done]. destruct Hne. by rewrite <-(split_concat a), Hs.
Qed.
Lemma split_nonempty b : [] ∉ split_inclusive b.
Proof.
  induction b as [|c b IH]; simpl; [by intros ?%elem_of_nil|].
  case_bool_decide; [by intros [|]%elem_of_cons|]. destruct (split_inclusive b).
  - by intros ?%list_elem_of_singleton.
  - intros [|H1]%elem_of_cons; [done|]. apply IH. by right.
Qed.
Lemma split_partial x : newline ∉ x → x ≠ [] → split_inclusive x = [x].
Proof.
  induction x as [|c x IH]; [done|]. intros [Hc Hx]%not_elem_of_cons _. simpl.
  rewrite bool_decide_eq_false_2 by done. destruct x as [|c' x]; [done|]. by rewrite IH.
Qed.
Lemma split_full_line x : newline ∉ x → split_inclusive (x ++ [newline]) = [x ++ [newline]].
Proof.
  induction x as [|c x IH]; [done|]. intros [Hc Hx]%not_elem_of_cons. simpl.
  rewrite bool_decide_eq_false_2 by done. by rewrite IH.
Qed.
(** A line that is cut off stays a line when the ones after it go, and the
    ones before it end. *)
Lemma split_prefix b ls ls' : split_inclusive b = ls ++ ls' → split_inclusive (mjoin ls) = ls.
Proof.
  revert ls. induction b as [|c b IH]; intros ls; simpl.
  { intros [-> _]%eq_sym%app_eq_nil. done. }
  case_bool_decide as Hc.
  - destruct ls as [|l ls]; [done|]. intros [= <- Hs]. simpl. rewrite bool_decide_eq_true_2 by done.
    f_equal. by apply IH.
  - destruct (split_inclusive b) as [|l1 ls1] eqn:Hb; (destruct ls as [|l ls]; [done|]); intros [= <- Hs]; simpl;
      rewrite bool_decide_eq_false_2 by done.
    + apply eq_sym, app_eq_nil in Hs as [-> _]. done.
    + specialize (IH (l1 :: ls)). simpl in IH. rewrite IH; [done|]. by rewrite Hs.
Qed.
Lemma split_prefix_terminated b ls ls' : split_inclusive b = ls ++ ls' → ls' ≠ [] → terminated (mjoin ls).
Proof.
  revert ls. induction b as [|c b IH]; intros ls; simpl; [by intros [_ ->]%eq_sym%app_eq_nil|].
  case_bool_decide as Hc.
  - destruct ls as [|l ls]; [by left|]. intros [= <- Hs] Hne. simpl. subst c. destruct (IH _ Hs Hne) as [->|Hl]; right; [done|].
    simpl. by rewrite last_cons, Hl.
  - destruct (split_inclusive b) as [|l1 ls1] eqn:Hb; (destruct ls as [|l ls]; [by left|]); intros [= <- Hs] Hne; simpl.
    + by apply eq_sym, app_eq_nil in Hs as [_ ->].
    + destruct (IH (l1 :: ls)) as [Hj|Hl]; [by rewrite Hs|done| |].
      * simpl in Hj. apply app_eq_nil in Hj as [-> _]. exfalso. apply (split_nonempty b). rewrite Hb. by left.
      * right. simpl in Hl. by rewrite last_cons, Hl.
Qed.
Lemma split_end b :
  ¬ terminated b → ∃ ls x, split_inclusive b = ls ++ [x] ∧ split_inclusive (b ++ [newline]) = ls ++ [x ++ [newline]].
Proof.
  induction b as [|c b IH]; intros Ht; [destruct Ht; by left|]. simpl. case_bool_decide as Hc.
  - subst c. destruct IH as (ls & x & -> & ->).
    + intros [->|Hl]; destruct Ht; right; [done|]. by rewrite last_cons, Hl.
    + by exists ([newline] :: ls), x.
  - destruct (decide (b = [])) as [->|Hb]; [by exists [], [c]|]. destruct IH as (ls & x & -> & ->).
    + intros [|Hl]; [done|]. destruct Ht. right. by rewrite last_cons, Hl.
    + destruct ls as [|l ls]; [by exists [], (c :: x)|by exists ((c :: l) :: ls), x].
Qed.
Lemma terminated_snoc b : terminated (b ++ [newline]).
Proof. right. apply last_snoc. Qed.

Section props.
Context {V R : Type} {C : Codec V R} {CL : CodecLaws C}.
Notation Event := (Event V).
Notation Scan := (@Scan V).
Notation start := (mkScan (V := V) [] 0 0 None).

(** ** Reading the log *)
Lemma scan_line_offset (s s' : Scan) x : scan_line s x = Ok s' → offset s' = offset s + length x.
Proof.
  unfold scan_line. destruct (blank_line x); [by intros [= <-]|]. destruct (torn s); [done|].
  by destruct (from_slice x); intros [= <-].
Qed.
Lemma scan_line_torn (s s' : Scan) x :
  scan_line s x = Ok s' → torn s ≠ None → found s' = found s ∧ valid s' = valid s ∧ torn s' = torn s.
Proof.
  unfold scan_line. destruct (torn s) as [e|] eqn:Ht; [|done]. destruct (blank_line x); [|done].
  by intros [= <-].
Qed.
Lemma scan_line_intact (s s' : Scan) x :
  scan_line s x = Ok s' → torn s = None →
  torn s' = None ∧ valid s' = offset s' ∨ torn s' ≠ None ∧ found s' = found s ∧ valid s' = valid s.
Proof.
  unfold scan_line. intros H Ht. rewrite Ht in H. simpl in H. destruct (blank_line x); [injection H as <-; by left|].
  destruct (from_slice x); injection H as <-; [by left|by right].
Qed.
Lemma scan_prefix ls (s : Scan) :
  foldM scan_line start ls = Ok s →
  offset s = length (mjoin ls) ∧ ∃ ls1 ls2 s1, ls = ls1 ++ ls2 ∧ foldM scan_line start ls1 = Ok s1
    ∧ torn s1 = None ∧ found s1 = found s ∧ valid s1 = valid s ∧ valid s = length (mjoin ls1)
    ∧ (torn s = None ↔ ls2 = []).
Proof.
  revert s. induction ls as [|x ls IH] using rev_ind; intros s; simpl.
  { intros [= <-]. split; [done|]. exists [], [], start. by split_and!. }
  rewrite foldM_app. destruct (foldM scan_line start ls) as [s0|] eqn:H0; [|done]. simpl.
  destruct (scan_line s0 x) as [s2|] eqn:Hx; [|done]. intros [= <-].
  destruct (IH _ eq_refl) as (Ho & ls1 & ls2 & s1 & Hls & H1 & Ht1 & Hf1 & Hv1 & Hv & Htorn).
  assert (offset s2 = length (mjoin (ls ++ [x]))) as Ho2.
  { rewrite join_app, length_app, (scan_line_offset _ _ _ Hx), Ho. simpl. by rewrite (right_id_L [] (++)). }
  split; [done|].
  destruct (decide (torn s0 = None)) as [Ht0|Ht0].
  - apply Htorn in Ht0 as He. subst ls2. rewrite app_nil_r in Hls. subst ls1.
    destruct (scan_line_intact _ _ _ Hx Ht0) as [[Ht Hvo]|(Ht & Hf & Hv2)].
    + exists (ls ++ [x]), [], s2. rewrite app_nil_r. split_and!; try done; [|congruence].
      rewrite foldM_app, H0. simpl. by rewrite Hx.
    + exists ls, [x], s1. split_and!; try done; congruence.
  - destruct (scan_line_torn _ _ _ Hx Ht0) as (Hf & Hv2 & Ht). exists ls1, (ls2 ++ [x]), s1.
    split_and!; try congruence; [by rewrite Hls, app_assoc|]. rewrite Ht. split; [done|]. by intros [_ ?]%app_nil.
Qed.

(** The events a log file stands for. *)
Definition log_view (b : list ascii) : list Event := match scan b with Ok s => found s | Err _ => [] end.
Record intact (b : list ascii) : Prop := {
  intact_end : terminated b;
  intact_lines : ∃ s, scan (V := V) b = Ok s ∧ torn s = None;
}.
Lemma log_view_Ok b s : scan b = Ok s → log_view b = found s.
Proof. unfold log_view. by intros ->. Qed.
Lemma scan_app b s x : terminated b → scan b = Ok s → scan (b ++ x) = foldM scan_line s (split_inclusive x).
Proof. intros Ht Hs. unfold scan in *. by rewrite split_terminated, foldM_app, Hs. Qed.

Lemma line_not_blank ev l x : to_vec ev = Ok l → blank_line (l ++ x) = false.
Proof. intros (c & b & -> & Hc)%to_vec_object. simpl. by rewrite Hc. Qed.
Lemma scan_event s l ev : torn s = None → blank_line l = false → from_slice l = Ok ev →
  ∃ s', scan_line s l = Ok s' ∧ found s' = found s ++ [ev] ∧ torn s' = None.
Proof. intros Ht Hb Hl. eexists. unfold scan_line. by rewrite Hb, Ht, Hl. Qed.

(** A part of a line after an intact log. *)
Lemma view_partial b ev l k :
  intact b → to_vec ev = Ok l →
  let b' := b ++ take k (l ++ [newline]) in
  ((∃ s, scan (V := V) b' = Ok s) ∧ (log_view b' = log_view b ∨ log_view b' = log_view b ++ [ev]))
  ∧ (take k (l ++ [newline]) = l ++ [newline] → intact b' ∧ log_view b' = log_view b ++ [ev]).
Proof.
  intros [Ht (s & Hs & Htorn)] Hl. simpl. pose proof (to_vec_line _ _ Hl) as Hnl.
  assert (l ≠ []) as Hne by (apply to_vec_object in Hl as (? & ? & -> & _); done).
  rewrite (log_view_Ok _ _ Hs). set (x := take k _). assert (∃ y, l ++ [newline] = x ++ y) as [y Hxy].
  { eexists. symmetry. apply take_drop. }
  assert (x = l ++ [newline] → intact (b ++ x) ∧ log_view (b ++ x) = found s ++ [ev]) as Hfull.
  { intros ->. destruct (scan_event s (l ++ [newline]) ev) as (s' & Hs' & Hf & Ht'); [done|by eapply line_not_blank| |].
    { apply from_slice_newline. by apply to_vec_round_trip. }
    assert (scan (b ++ l ++ [newline]) = Ok s') as Hscan.
    { rewrite (scan_app _ _ _ Ht Hs), split_full_line by done. simpl. by rewrite Hs'. }
    split; [|by rewrite (log_view_Ok _ _ Hscan)]. split; [|by exists s']. rewrite app_assoc. apply terminated_snoc. }
  split; [|done]. destruct (decide (y = [])) as [->|Hy].
  { rewrite app_nil_r in Hxy. destruct Hfull as [[_ (s' & Hs' & _)] Hv]; [done|]. split; [by exists s'|by right]. }
  destruct (exists_last Hy) as (y' & c & ->). rewrite app_assoc in Hxy. apply app_inj_tail in Hxy as [Hxy _].
  destruct (decide (x = [])) as [->|Hx]; [rewrite app_nil_r, (log_view_Ok _ _ Hs); split; [by exists s|by left]|].
  assert (split_inclusive x = [x]) as Hsplit.
  { apply split_partial; [|done]. intros Hin. apply Hnl. rewrite Hxy. apply elem_of_app. by left. }
  assert (blank_line x = false) as Hblank.
  { apply to_vec_object in Hl as (c' & l' & -> & Hc). destruct x as [|c2 x2]; [done|]. injection Hxy as <- _.
    simpl. by rewrite Hc. }
  pose proof (scan_app _ _ x Ht Hs) as Hscan. rewrite Hsplit in Hscan. simpl in Hscan.
  destruct (decide (y' = [])) as [->|Hy'].
  - rewrite app_nil_r in Hxy. destruct (scan_event s x ev) as (s' & Hs' & Hf & _); [done|done| |].
    { rewrite <-Hxy. by apply to_vec_round_trip. }
    rewrite Hs' in Hscan. rewrite (log_view_Ok _ _ Hscan). split; [by exists s'|by right].
  - pose proof (from_slice_prefix _ _ _ _ Hl Hxy Hy') as Hp. unfold scan_line in Hscan.
    rewrite Hblank, Htorn in Hscan. destruct (from_slice x); [done|]. rewrite (log_view_Ok _ _ Hscan).
    split; [by eexists|by left].
Qed.

(** The repair of a torn log. *)
Lemma repair_torn b (s : Scan) :
  scan b = Ok s → torn s ≠ None →
  intact (take (valid s) b) ∧ log_view (take (valid s) b) = found s
  ∧ (0 < valid s → b !! (valid s - 1) = Some newline)%nat.
Proof.
  intros Hs Ht. apply scan_prefix in Hs as (_ & ls1 & ls2 & s1 & Hls & H1 & Ht1 & Hf & _ & Hv & Htorn).
  assert (ls2 ≠ []) as Hne by (intros ->; by apply Ht, Htorn).
  assert (b = mjoin ls1 ++ mjoin ls2) as Hb by (by rewrite <-join_app, <-Hls, split_concat).
  assert (take (valid s) b = mjoin ls1) as Htake by (rewrite Hb, Hv; apply take_app_length).
  assert (terminated (mjoin ls1)) as Hend by (by eapply split_prefix_terminated).
  assert (scan (mjoin ls1) = Ok s1) as Hs1 by (unfold scan; by rewrite (split_prefix _ _ _ Hls)).
  rewrite Htake. split_and!; [by split; [|exists s1]|by rewrite (log_view_Ok _ _ Hs1)|]. intros Hpos.
  destruct Hend as [He|Hl]; [rewrite He in Hv; simpl in Hv; lia|].
  rewrite last_lookup in Hl. rewrite Hb, lookup_app_l by lia. rewrite Hv. by rewrite Nat.sub_1_r.
Qed.
Lemma whole_valid b (s : Scan) : scan b = Ok s → torn s = None → valid s = length b.
Proof.
  intros Hs Ht. apply scan_prefix in Hs as (_ & ls1 & ls2 & s1 & Hls & _ & _ & _ & _ & Hv & Htorn).
  rewrite (proj1 Htorn Ht), app_nil_r in Hls. by rewrite Hv, <-Hls, split_concat.
Qed.
(** The missing end of the last line. *)
Lemma repair_end b (s : Scan) :
  scan b = Ok s → torn s = None → ¬ terminated b →
  intact (b ++ [newline]) ∧ log_view (b ++ [newline]) = found s.
Proof.
  intros Hs Ht Hend. destruct (split_end _ Hend) as (ls & x & Hb & Hb'). unfold scan in Hs.
  rewrite Hb, foldM_app in Hs. destruct (foldM scan_line start ls) as [s0|] eqn:H0; [|done]. simpl in Hs.
  destruct (scan_line s0 x) as [s1|] eqn:Hx; [|done]. injection Hs as ->.
  assert (∃ s', scan_line s0 (x ++ [newline]) = Ok s' ∧ found s' = found s ∧ torn s' = None) as (s' & Hs' & Hf & Ht').
  { unfold scan_line in *. rewrite forallb_app. simpl. rewrite andb_true_r.
    destruct (blank_line x); [injection Hx as <-; by eexists|]. destruct (torn s0); [done|].
    destruct (from_slice x) as [ev|] eqn:Hev; [|by injection Hx as <-].
    rewrite (from_slice_newline _ _ Hev). injection Hx as <-. by eexists. }
  assert (scan (b ++ [newline]) = Ok s') as Hscan by (unfold scan; rewrite Hb', foldM_app, H0; simpl; by rewrite Hs').
  split; [split; [apply terminated_snoc|by exists s']|]. by rewrite (log_view_Ok _ _ Hscan).
Qed.

(** ** System calls *)
Section disk.
Context (fault : nat → option nat) (fresh : nat → string).

(** Only these files may differ. *)
Definition only (ps : list path) (d d' : Disk) : Prop := ∀ q, q ∉ ps → files d' !! q = files d !! q.
#[local] Instance only_preorder ps : PreOrder (only ps).
Proof. split; [done|]. intros d1 d2 d3 H1 H2 q Hq. by rewrite H2, H1. Qed.
Lemma only_weaken ps ps' d d' : ps ⊆ ps' → only ps d d' → only ps' d d'.
Proof. intros Hs H q Hq. apply H. set_solver. Qed.
Lemma only_contents ps d d' q : only ps d d' → q ∉ ps → contents q d' = contents q d.
Proof. intros H Hq. unfold contents. by rewrite H. Qed.
Lemma contents_set p b d : contents p (set_file p b d) = b.
Proof. unfold contents, set_file. simpl. by rewrite lookup_insert_eq. Qed.
Lemma only_same ps d d' : files d' = files d → only ps d d'.
Proof. intros H q _. by rewrite H. Qed.
Lemma only_set p b d d' : files d' = files d → only [p] d (set_file p b d').
Proof. intros H q Hq. unfold set_file. simpl. rewrite lookup_insert_ne, H; [done|]. set_solver. Qed.

Lemma sync_spec d r d' : sync fault d = (r, d') → files d' = files d.
Proof. unfold sync, sys. destruct (fault _); by intros [= <- <-]. Qed.
Lemma private_open_spec p e d r d' :
  private_open fault p e d = (r, d') →
  only [p] d d' ∧ contents p d' = contents p d ∧ (e = true → is_ok r = true → contents p d = []).
Proof.
  unfold private_open, sys. case_bool_decide as Hex; destruct e; simpl.
  1: { by intros [= <- <-]. }
  all: destruct (fault _) as [[|k]|]; intros [= <- <-]; simpl; (split; [first [by apply only_same | by apply only_set]|]); (split; [done || apply contents_set|]); try done.
  all: intros _ _; unfold contents; destruct (files d !! p); [destruct Hex; eauto|done].
Qed.
Lemma write_all_spec p b d r d' :
  write_all fault p b d = (r, d') →
  only [p] d d' ∧ ∃ k, contents p d' = contents p d ++ take k b ∧ (is_ok r = true → take k b = b).
Proof.
  unfold write_all, sys. destruct (fault _) as [k|]; intros [= <- <-]; (split; [by apply only_set|]); unfold append_bytes;
    rewrite contents_set; [by exists k|]. exists (length b). by rewrite firstn_all.
Qed.
Lemma set_len_spec p n d r d' :
  set_len fault p n d = (r, d') →
  only [p] d d' ∧ (contents p d' = take n (contents p d) ∨ is_ok r = false ∧ contents p d' = contents p d).
Proof.
  unfold set_len, sys. destruct (fault _) as [[|k]|]; intros [= <- <-]; simpl; (split; [first [by apply only_same | by apply only_set]|]).
  1: by right. all: left; apply contents_set.
Qed.
Lemma rename_spec a p d r d' :
  a ≠ p → rename fault a p d = (r, d') →
  only [p; a] d d' ∧ (files d' !! p = Some (contents a d) ∨ is_ok r = false ∧ files d' !! p = files d !! p).
Proof.
  intros Hne. assert (only [p; a] d (renamed a p (mkDisk (files d) (S (calls d))))).
  { intros q Hq. unfold renamed. simpl. rewrite lookup_insert_ne, lookup_delete_ne by set_solver. done. }
  unfold rename, sys. destruct (fault _) as [[|k]|]; intros [= <- <-]; simpl; (split; [done|]).
  1: by right. all: left; apply lookup_insert_eq.
Qed.
Lemma remove_file_spec p d r d' : remove_file fault p d = (r, d') → only [p] d d'.
Proof.
  unfold remove_file, sys. destruct (fault _); intros [= <- <-]; [done|]. intros q Hq. simpl.
  rewrite lookup_delete_ne; [done|]. set_solver.
Qed.

(** A temporary file is none of the others. *)
Definition is_temporary (p : path) : Prop := ∃ x, p.2 = "tmp_" +:+ x.
Definition untouched (ps : list path) (d d' : Disk) : Prop := ∀ q, q ∉ ps → ¬ is_temporary q → files d' !! q = files d !! q.
#[local] Instance untouched_preorder ps : PreOrder (untouched ps).
Proof. split; [done|]. intros d1 d2 d3 H1 H2 q Hq Ht. by rewrite H2, H1. Qed.
Lemma only_untouched ps t d d' : only (ps ++ [t]) d d' → is_temporary t → untouched ps d d'.
Proof.
  intros H Ht q Hq Hn. apply H. intros [|Hq']%elem_of_app; [done|]. apply list_elem_of_singleton in Hq' as ->. done.
Qed.

(** A document is replaced as a whole. *)
Lemma atomic_write_spec p data d r d' :
  ¬ is_temporary p → atomic_write fault fresh p data d = (r, d') →
  untouched [p] d d' ∧ (files d' !! p = Some data ∨ is_ok r = false ∧ files d' !! p = files d !! p).
Proof.
  intros Hp. unfold atomic_write, mbind, SE_bind.
  destruct (inspect fault d) as [r0 d0] eqn:H0. apply sync_spec in H0.
  assert (untouched [p] d d0) as Hu0 by (intros q _ _; by rewrite H0).
  destruct r0; [|intros [= <- <-]; split; [done|right; by rewrite H0]]. rewrite <-H0. clear H0. intros H.
  enough (untouched [p] d0 d' ∧ (files d' !! p = Some data ∨ is_ok r = false ∧ files d' !! p = files d0 !! p)) as [Hu Hf]
    by (split; [by etrans|done]).
  clear Hu0. revert H. generalize d0. clear d d0. intros d. unfold temporary. set (t := (p.1, _)).
  assert (is_temporary t) as Ht by (by eexists). assert (t ≠ p) as Hne by (intros ->; done).
  match goal with |- (let (_, _) := attempt ?m d in _) = _ → _ => destruct (m d) as [r1 d1] eqn:H1 end.
  assert (only [p; t] d d1 ∧ (files d1 !! p = Some data ∨ is_ok r1 = false ∧ files d1 !! p = files d !! p)) as [Ho Hres].
  { unfold mbind, SE_bind in H1.
    destruct (private_open fault t true d) as [r2 d2] eqn:H2. apply private_open_spec in H2 as (Ho2 & Hc2 & Hnew).
    assert (files d2 !! p = files d !! p) as Hp2 by (apply Ho2; set_solver).
    apply (only_weaken _ [p; t]) in Ho2; [|set_solver].
    destruct r2; [|injection H1 as <- <-; split; [done|by right]]. rewrite Hnew in Hc2 by done.
    destruct (write_all fault t data d2) as [r3 d3] eqn:H3. apply write_all_spec in H3 as (Ho3 & k & Hc3 & Hk).
    rewrite Hc2 in Hc3. assert (files d3 !! p = files d !! p) as Hp3 by (rewrite (Ho3 p) by set_solver; done).
    apply (only_weaken _ [p; t]) in Ho3; [|set_solver]. assert (only [p; t] d d3) as Ho13 by (by etrans).
    destruct r3; [|injection H1 as <- <-; split; [done|by right]]. rewrite Hk in Hc3 by done.
    destruct (sync fault d3) as [r4 d4] eqn:H4. apply sync_spec in H4.
    assert (only [p; t] d d4) as Ho14 by (intros q Hq; rewrite H4; by apply Ho13).
    destruct r4; [|injection H1 as <- <-; split; [done|right; split; [done|by rewrite H4]]].
    destruct (rename fault t p d4) as [r5 d5] eqn:H5. apply rename_spec in H5 as [Ho5 Hr5]; [|done].
    assert (contents t d4 = data) as Hc4 by (unfold contents in *; by rewrite H4). rewrite Hc4, H4, Hp3 in Hr5.
    assert (only [p; t] d d5) as Ho15 by (by etrans).
    destruct r5; [|injection H1 as <- <-; split; [done|]; destruct Hr5 as [|[]]; auto].
    destruct (sync fault d5) as [r6 d6] eqn:H6. apply sync_spec in H6. injection H1 as <- <-.
    split; [intros q Hq; rewrite H6; by apply Ho15|]. rewrite H6. destruct Hr5 as [|[? ?]]; [by left|done]. }
  apply (only_untouched [p]) in Ho; [|done]. unfold attempt at 1. rewrite H1. simpl.
  destruct r1 as [[]|e]; simpl.
  - intros [= <- <-]. split; [done|]. destruct Hres as [|[? ?]]; [by left|done].
  - unfold attempt, lift. destruct (remove_file fault t d1) as [r2 d2] eqn:H2. apply remove_file_spec in H2.
    intros [= <- <-]. assert (untouched [p] d1 d2) as Hu by (apply (only_untouched [p] t); [eapply only_weaken; [|done]; set_solver|done]).
    split; [by etrans|]. rewrite (H2 p) by set_solver. destruct Hres as [|[? ?]]; [by left|by right].
Qed.

(** ** The log *)
Notation log d := (contents events_jsonl d).
Lemma write_newline_spec b d r d' (s : Scan) :
  log d = b → scan b = Ok s → torn s = None → ¬ terminated b →
  (_ ← private_open fault events_jsonl false; _ ← write_all fault events_jsonl [newline]; sync fault) d = (r, d') →
  only [events_jsonl] d d' ∧ log_view (log d') = found s ∧ (is_ok r = true → intact (log d')).
Proof.
  intros Hb Hs Ht Hend H. unfold mbind, SE_bind in H. destruct (repair_end _ _ Hs Ht Hend) as [Hint Hview].
  destruct (private_open _ _ _ d) as [r1 d1] eqn:H1. apply private_open_spec in H1 as (Ho1 & Hc1 & _).
  destruct r1; [|injection H as <- <-; by rewrite Hc1, Hb, (log_view_Ok _ _ Hs)].
  destruct (write_all _ _ _ d1) as [r2 d2] eqn:H2. apply write_all_spec in H2 as (Ho2 & k & Hc2 & Hk).
  assert (only [events_jsonl] d d2) as Ho by (by etrans). rewrite Hc1, Hb in Hc2.
  assert (log_view (log d2) = found s) as Hv2.
  { rewrite Hc2. destruct k; simpl; [by rewrite app_nil_r, (log_view_Ok _ _ Hs)|]. by rewrite take_nil. }
  destruct r2; [|by injection H as <- <-]. rewrite Hk in Hc2 by done. apply sync_spec in H as H3.
  assert (log d' = log d2) as Hc3 by (unfold contents; by rewrite H3). rewrite Hc3. split_and!; [|done|].
  - intros q Hq. rewrite H3. by apply Ho.
  - intros _. by rewrite Hc2.
Qed.
Lemma truncate_spec d r d' (s : Scan) :
  scan (log d) = Ok s → torn s ≠ None →
  (_ ← private_open fault events_jsonl false; _ ← set_len fault events_jsonl (valid s); sync fault) d = (r, d') →
  only [events_jsonl] d d' ∧ log_view (log d') = found s ∧ (is_ok r = true → intact (log d')).
Proof.
  intros Hs Ht H. unfold mbind, SE_bind in H. destruct (repair_torn _ _ Hs Ht) as (Hint & Hview & _).
  destruct (private_open _ _ _ d) as [r1 d1] eqn:H1. apply private_open_spec in H1 as (Ho1 & Hc1 & _).
  destruct r1; [|injection H as <- <-; by rewrite Hc1, (log_view_Ok _ _ Hs)].
  destruct (set_len _ _ _ d1) as [r2 d2] eqn:H2. apply set_len_spec in H2 as (Ho2 & Hc2).
  assert (only [events_jsonl] d d2) as Ho by (by etrans). rewrite Hc1 in Hc2.
  assert (log_view (log d2) = found s ∧ (is_ok r2 = true → intact (log d2))) as [Hv2 Hi2].
  { destruct Hc2 as [->|[-> ->]]; [done|]. by rewrite (log_view_Ok _ _ Hs). }
  destruct r2; [|by injection H as <- <-]. apply sync_spec in H as H3.
  assert (log d' = log d2) as Hc3 by (unfold contents; by rewrite H3). rewrite Hc3. split_and!; [|done|].
  - intros q Hq. rewrite H3. by apply Ho.
  - intros _. by apply Hi2.
Qed.
Lemma terminated_lookup b : (0 < length b)%nat → b !! (length b - 1)%nat = Some newline ↔ terminated b.
Proof.
  intros Hb. rewrite Nat.sub_1_r, <-last_lookup. split; [by right|]. intros [->|]; [simpl in Hb; lia|done].
Qed.
Lemma fs_events_spec d r d' :
  fs_events fault d = (r, d') →
  only [events_jsonl] d d' ∧ log_view (log d') = log_view (log d)
  ∧ ∀ l, r = Ok l → l = log_view (log d) ∧ intact (log d').
Proof.
  unfold fs_events, mbind, SE_bind, read_private, sys, lift, mret, SE_ret. destruct (fault _) eqn:Hf.
  { intros [= <- <-]. by split_and!. }
  assert (∀ q n, contents q (mkDisk (files d) n) = contents q d) as Hsame by done.
  set (d0 := mkDisk _ _). simpl. destruct (files d !! events_jsonl) as [b|] eqn:Hb.
  2:{ assert (log d = []) as Hc by (unfold contents; by rewrite Hb).
      intros [= <- <-]. split_and!; [done|done|]. intros l [= <-]. rewrite Hc. split; [done|].
      unfold d0. rewrite Hsame, Hc. split; [by left|]. by eexists. }
  assert (log d = b) as Hc by (unfold contents; by rewrite Hb). rewrite Hc.
  assert (log d0 = b) as Hc0 by done. assert (only [events_jsonl] d d0) as Ho0 by done. clearbody d0. clear Hf Hsame.
  destruct (scan b) as [s|e] eqn:Hs; [|intros [= <- <-]; by rewrite Hc0].
  rewrite (log_view_Ok _ _ Hs). case_bool_decide as Ht.
  - pose proof (whole_valid _ _ Hs Ht) as Hv. rewrite Hv.
    destruct (Nat.ltb_spec 0 (length b)) as [Hlen|Hlen]; simpl.
    + case_bool_decide as Hend; simpl.
      * intros [= <- <-]. split_and!; [done|by rewrite Hc0, (log_view_Ok _ _ Hs)|]. intros l [= <-]. split; [done|].
        rewrite Hc0. split; [by apply terminated_lookup|by exists s].
      * match goal with |- (let (_, _) := ?m in _) = _ → _ => destruct m as [r1 d1] eqn:H1 end.
        eapply write_newline_spec in H1 as (Ho & Hvw & Hi); [|done|done|done|by rewrite <-terminated_lookup].
        assert (only [events_jsonl] d d1) by (by etrans).
        destruct r1; intros [= <- <-]; (split_and!; [done|done|]); [|done]. intros l [= <-]. split; [done|by apply Hi].
    + intros [= <- <-]. split_and!; [done|by rewrite Hc0, (log_view_Ok _ _ Hs)|]. intros l [= <-]. split; [done|].
      rewrite Hc0. split; [left; destruct b; [done|simpl in Hlen; lia]|by exists s].
  - match goal with |- (let (_, _) := ?m in _) = _ → _ => destruct m as [r1 d1] eqn:H1 end.
    eapply truncate_spec in H1 as (Ho & Hvw & Hi); [|by rewrite Hc0|done].
    assert (only [events_jsonl] d d1) by (by etrans).
    destruct (repair_torn _ _ Hs Ht) as (_ & _ & Hend).
    destruct r1; [|intros [= <- <-]; split_and!; done].
    assert ((0 <? valid s)%nat && negb (bool_decide (b !! (valid s - 1)%nat = Some newline)) = false) as ->.
    { destruct (Nat.ltb_spec 0 (valid s)); [|done]. rewrite bool_decide_eq_true_2; [done|]. by apply Hend. }
    intros [= <- <-]. split_and!; [done|done|]. intros l [= <-]. split; [done|by apply Hi].
Qed.

Lemma fs_append_spec ev d r d' :
  intact (log d) → fs_append fault ev d = (r, d') →
  only [events_jsonl] d d'
  ∧ (log_view (log d') = log_view (log d) ++ [ev] ∨ is_ok r = false ∧ log_view (log d') = log_view (log d))
  ∧ (is_ok r = true → intact (log d')).
Proof.
  intros Hi. unfold fs_append, mbind, SE_bind, lift. destruct (to_vec ev) as [l|e] eqn:Hl; [|intros [= <- <-]; split_and!; [done|by right|done]].
  destruct (private_open _ _ _ d) as [r1 d1] eqn:H1. apply private_open_spec in H1 as (Ho1 & Hc1 & _).
  destruct r1; [|intros [= <- <-]; rewrite Hc1; split_and!; [done|by right|done]].
  destruct (write_all _ _ _ d1) as [r2 d2] eqn:H2. apply write_all_spec in H2 as (Ho2 & k & Hc2 & Hk).
  assert (only [events_jsonl] d d2) as Ho by (by etrans). rewrite Hc1 in Hc2.
  destruct (view_partial _ _ _ k Hi Hl) as [[_ Hpart] Hwhole]. rewrite <-Hc2 in *.
  destruct r2; [|intros [= <- <-]; split_and!; [done| |done]; destruct Hpart; [by right|by left]].
  specialize (Hwhole (Hk eq_refl)) as [Hint Hview].
  destruct (sync fault d2) as [r3 d3] eqn:H3. apply sync_spec in H3.
  assert (only [events_jsonl] d d3) as Ho' by (intros q Hq; rewrite H3; by apply Ho).
  assert (log d3 = log d2) as Hc3 by (unfold contents; by rewrite H3).
  destruct r3; [|intros [= <- <-]; rewrite Hc3; split_and!; [done|by left|done]]. intros H4%sync_spec.
  assert (log d' = log d2) as Hc4 by (unfold contents; by rewrite H4, H3). rewrite Hc4.
  split_and!; [intros q Hq; rewrite H4; by apply Ho'|by left|done].
Qed.

Lemma append_readable ev d r d' :
  intact (log d) → fs_append fault ev d = (r, d') → ∃ s, scan (V := V) (log d') = Ok s.
Proof.
  intros Hi Ha. pose proof Hi as [_ (s & Hs & _)]. unfold fs_append, mbind, SE_bind, lift in Ha.
  destruct (to_vec ev) as [l|e] eqn:Hl; [|injection Ha as <- <-; by exists s].
  destruct (private_open _ _ _ d) as [r1 d1] eqn:H1. apply private_open_spec in H1 as (_ & Hc1 & _).
  destruct r1; [|injection Ha as <- <-; rewrite Hc1; by exists s].
  destruct (write_all _ _ _ d1) as [r2 d2] eqn:H2. apply write_all_spec in H2 as (_ & k & Hc2 & _).
  rewrite Hc1 in Hc2. destruct (view_partial _ _ _ k Hi Hl) as [[Hr _] _]. rewrite <-Hc2 in Hr.
  assert (log d' = log d2) as ->; [|done]. destruct r2; [|by injection Ha as <- <-].
  destruct (sync fault d2) as [r3 d3] eqn:H3. apply sync_spec in H3. unfold contents.
  destruct r3; [|injection Ha as <- <-; by rewrite H3]. apply sync_spec in Ha. by rewrite Ha, H3.
Qed.

(** ** Documents *)
Lemma lines_view evs lines s :
  mapR to_vec evs = Ok lines → torn s = None →
  let b := mjoin ((λ b, b ++ [newline]) <$> lines) in
  terminated b ∧ ∃ s', foldM scan_line s (split_inclusive b) = Ok s' ∧ found s' = found s ++ evs ∧ torn s' = None.
Proof.
  intros Hm%mapR_Ok. revert s. induction Hm as [|ev l evs lines Hl Hm IH]; intros s Ht; csimpl.
  { split; [by left|]. exists s. by rewrite app_nil_r. }
  destruct (scan_event s (l ++ [newline]) ev) as (s1 & Hs1 & Hf1 & Ht1); [done|by eapply line_not_blank| |].
  { apply from_slice_newline. by apply to_vec_round_trip. }
  destruct (IH _ Ht1) as (Hend & s2 & Hs2 & Hf2 & Ht2). split.
  - destruct Hend as [->|Hlast]; [rewrite app_nil_r; apply terminated_snoc|]. right. by rewrite last_app, Hlast.
  - rewrite split_terminated by apply terminated_snoc. rewrite split_full_line by (by eapply to_vec_line). simpl. rewrite Hs1.
    exists s2. split_and!; [done| |done]. rewrite Hf2, Hf1, <-app_assoc. done.
Qed.
Lemma not_temporary p : p.2 ∈ ["jsonl"; "json"] → ¬ is_temporary p.
Proof. intros Hp [x Hx]. rewrite Hx in Hp. apply list_elem_of_In in Hp. simpl in Hp. naive_solver. Qed.
Lemma untouched_contents p d d' q :
  untouched [p] d d' → q ≠ p → q.2 ∈ ["jsonl"; "json"] → files d' !! q = files d !! q.
Proof. intros H Hq Hp. apply H; [set_solver|by apply not_temporary]. Qed.
Lemma fs_replace_spec evs d r d' :
  fs_replace fault fresh evs d = (r, d') →
  untouched [events_jsonl] d d'
  ∧ (log_view (log d') = evs ∨ is_ok r = false ∧ log_view (log d') = log_view (log d))
  ∧ (is_ok r = true → intact (log d')).
Proof.
  unfold fs_replace, mbind, SE_bind, lift. destruct (mapR to_vec evs) as [lines|e] eqn:Hm; [|intros [= <- <-]; split_and!; [done|by right|done]].
  intros [Hu Hf]%atomic_write_spec; [|by apply not_temporary; left]. split; [done|].
  destruct (lines_view evs lines start Hm eq_refl) as (Hend & s & Hs & Hfs & Ht).
  destruct Hf as [Hf|[Hno Hf]].
  - assert (log d' = mjoin ((λ b, b ++ [newline]) <$> lines)) as -> by (unfold contents; by rewrite Hf).
    rewrite (log_view_Ok _ _ Hs). split; [by left|]. intros _. split; [done|by exists s].
  - rewrite Hno. assert (log d' = log d) as -> by (unfold contents; by rewrite Hf). split; [by right|done].
Qed.
Lemma atomic_json_spec p (v : Document V R) d r d' :
  p.2 = "json" → atomic_json fault fresh p v d = (r, d') →
  untouched [p] d d' ∧ log d' = log d
  ∧ ((∃ b, to_vec_pretty v = Ok b ∧ files d' !! p = Some (b ++ [newline])) ∨ is_ok r = false ∧ files d' !! p = files d !! p).
Proof.
  intros Hp. unfold atomic_json, mbind, SE_bind, lift. destruct (to_vec_pretty v) as [b|e] eqn:Hb; [|intros [= <- <-]; split_and!; [done|done|by right]].
  intros [Hu Hf]%atomic_write_spec; [|apply not_temporary; rewrite Hp; by right; left]. split_and!; [done| |].
  - unfold contents. rewrite (untouched_contents _ _ _ events_jsonl Hu); [done|by intros <-|by left].
  - destruct Hf; [left; by exists b|by right].
Qed.

Definition vectors (d : Disk) : gmap string R :=
  match files d !! embeddings_json with
  | None => ∅
  | Some b => match read_vectors b with Ok m => m | Err _ => ∅ end
  end.
Lemma vectors_other p d d' : untouched [p] d d' → p ≠ embeddings_json → vectors d' = vectors d.
Proof. intros Hu Hp. unfold vectors. rewrite (untouched_contents _ _ _ _ Hu); [done..|by right; left]. Qed.
Lemma only_vectors d d' : only [events_jsonl] d d' → vectors d' = vectors d.
Proof. intros H. unfold vectors. rewrite H; [done|]. by intros ?%list_elem_of_singleton. Qed.
Lemma snapshot_spec' clock s d r d' :
  fs_snapshot (R := R) fault clock fresh s d = (r, d') → log d' = log d ∧ vectors d' = vectors d.
Proof.
  unfold fs_snapshot, mbind, SE_bind, now.
  destruct (atomic_json _ _ project_json _ d) as [r1 d1] eqn:H1. apply atomic_json_spec in H1 as (Hu1 & Hl1 & _); [|done].
  apply vectors_other in Hu1; [|done]. destruct r1; [|intros [= <- <-]; done].
  destruct (atomic_json _ _ tasks_json _ d1) as [r2 d2] eqn:H2. apply atomic_json_spec in H2 as (Hu2 & Hl2 & _); [|done].
  apply vectors_other in Hu2; [|done]. destruct r2; [|intros [= <- <-]; by rewrite Hl2, Hu2].
  destruct (atomic_json _ _ memories_json _ d2) as [r3 d3] eqn:H3. apply atomic_json_spec in H3 as (Hu3 & Hl3 & _); [|done].
  apply vectors_other in Hu3; [|done]. destruct r3; [|intros [= <- <-]; by rewrite Hl3, Hu3, Hl2, Hu2].
  intros (Hu4 & Hl4 & _)%atomic_json_spec; [|done]. apply vectors_other in Hu4; [|done].
  by rewrite Hl4, Hu4, Hl3, Hu3, Hl2, Hu2.
Qed.
Lemma fs_embeddings_spec d r d' :
  fs_embeddings (R := R) fault d = (r, d') → files d' = files d ∧ ∀ m, r = Ok m → m = vectors d.
Proof.
  unfold fs_embeddings, read_private, sys, mbind, SE_bind, vectors. destruct (fault _); [by intros [= <- <-]|]. simpl.
  destruct (files d !! embeddings_json); intros [= <- <-]; (split; [done|]); [|by intros ? [= <-]]. by intros ? ->.
Qed.
(** A document of vectors, made from those that are there. *)
Lemma vectors_written t model m d r d' :
  atomic_json fault fresh embeddings_json (DVectors t model m) d = (r, d') →
  log d' = log d ∧ (vectors d' = m ∨ is_ok r = false ∧ vectors d' = vectors d).
Proof.
  intros (_ & Hl & Hf)%atomic_json_spec; [|done]. split; [done|]. unfold vectors.
  destruct Hf as [(b & Hb & ->)|[Hno ->]]; [left|by right]. by rewrite (vectors_round_trip _ _ _ _ Hb).
Qed.
End disk.

(** [FsTransaction] keeps the contract of a backend, whatever fails. *)
#[export] Instance fs_spec fault clock fresh : BackendSpec (fs_backend (C := C) fault clock fresh).
Proof.
  refine {|
    view := λ d, log_view (contents events_jsonl d); cached := vectors;
    clean := λ d, intact (contents events_jsonl d) |}; simpl.
  - intros d r d' (Ho & Hv & Hl)%fs_events_spec. by apply only_vectors in Ho.
  - intros ev d r d' Hcl _ (Ho & Hv & Hl)%fs_append_spec; [|done]. by apply only_vectors in Ho.
  - intros l d r d' _ (Hu & Hv & Hl)%fs_replace_spec. split; [by eapply vectors_other|done].
  - intros s d r d' _ [Hl Hv]%snapshot_spec'. by rewrite Hl.
  - intros d r d' Hcl [Hf Hm]%fs_embeddings_spec. unfold contents, vectors in *. by rewrite Hf.
  - intros m d r d' _. unfold fs_put_embeddings, mbind, SE_bind, now.
    destruct (fs_embeddings fault d) as [[all|e] d1] eqn:H1; apply fs_embeddings_spec in H1 as [Hf1 Hm1].
    2:{ intros [= <- <-]. unfold contents, vectors. rewrite Hf1. split; [done|by right]. }
    rewrite (Hm1 _ eq_refl). intros [Hl Hv]%vectors_written. unfold contents, vectors in *. rewrite Hl, Hf1 in *. done.
  - intros ids d r d' Hcl. unfold fs_delete_embeddings, mbind, SE_bind, now.
    destruct (fs_embeddings fault d) as [[all|e] d1] eqn:H1; apply fs_embeddings_spec in H1 as [Hf1 Hm1].
    2:{ intros [= <- <-]. unfold contents, vectors. rewrite Hf1. split_and!; [done|done|by left]. }
    rewrite (Hm1 _ eq_refl). intros [Hl Hv]%vectors_written. unfold contents, vectors in *. rewrite Hl, Hf1 in *.
    split_and!; [done|done|]. destruct Hv as [|[]]; [by right|by left].
  - intros d r d' [= H]. unfold acquire, sys in H. by destruct (fault _); injection H as <- <-.
  - intros d0 d r d' [= <- <-]. by left.
  - intros d0 d. by left.
Defined.

(** A reader that meets no failure reads what there is. *)
Lemma fs_events_total fault d s :
  (∀ n, fault n = None) → scan (contents events_jsonl d) = Ok s →
  ∃ d', fs_events fault d = (Ok (found s), d').
Proof.
  intros Hn Hs. unfold fs_events, mbind, SE_bind, read_private, sync, sys, lift, mret, SE_ret. rewrite Hn. simpl.
  unfold contents in Hs. destruct (files d !! events_jsonl) as [b|]; simpl in Hs; [|injection Hs as <-; by eexists].
  rewrite Hs. unfold private_open, write_all, set_len, sys. simpl.
  case_bool_decide; repeat (rewrite Hn; simpl); (destruct (_ && _); [|by eexists]); repeat (rewrite Hn; simpl); by eexists.
Qed.

(** C14: An append survives its failures.  However far it came on an intact log, the next transaction
    that meets no failure reads the old events, or the old ones and the new one if the append failed
    late, and always the new one if the append succeeded; and it leaves the log intact again, cut
    back or ended with a line, so that no later event merges with what was left behind. *)
Theorem append_recovered fault fault' ev d r d' :
  intact (contents events_jsonl d) → fs_append fault ev d = (r, d') → (∀ n, fault' n = None) →
  ∃ l d'', fs_events fault' d' = (Ok l, d'') ∧ intact (contents events_jsonl d'')
    ∧ log_view (contents events_jsonl d'') = l
    ∧ (l = log_view (contents events_jsonl d) ++ [ev] ∨ is_ok r = false ∧ l = log_view (contents events_jsonl d)).
Proof.
  intros Hi Ha Hn. assert (∃ s, scan (V := V) (contents events_jsonl d') = Ok s) as [s Hs].
  { by eapply append_readable. }
  destruct (fs_events_total fault' d' s Hn Hs) as [d'' He]. exists (found s), d''.
  pose proof (fs_events_spec _ _ _ _ He) as (_ & Hv & Hl). destruct (Hl _ eq_refl) as [Hlv Hi''].
  apply fs_append_spec in Ha as (_ & Hv' & _); [|done]. rewrite <-Hv in Hlv.
  split_and!; [done|done|done|]. by rewrite Hlv, Hv.
Qed.
End props.

(** ** A codec *)
Module Tally.
(** Events that count, written as tallies in braces. *)
Definition tally (n : nat) : Event unit := mkEvent (Z.of_nat n) "" "" "" "" 0 "" tt.
Definition one : ascii := "1".
Definition write (n : nat) : list ascii := "{"%char :: replicate n one ++ ["}"%char].
Fixpoint count (l : list ascii) : nat * list ascii :=
  match l with
  | c :: l' => if bool_decide (c = one) then let '(n, r) := count l' in (S n, r) else (0, l)
  | [] => (0, [])
  end.
Definition read (l : list ascii) : result string (Event unit) :=
  match l with
  | c :: l' =>
      match count l' with
      | (n, e :: rest) =>
          if bool_decide (c = "{"%char ∧ e = "}"%char) && blank_line rest then Ok (tally n) else Err "tally"
      | _ => Err "tally"
      end
  | [] => Err "tally"
  end.
#[export] Instance unit_event_eq_dec : EqDecision (Event unit).
Proof. solve_decision. Defined.
#[export] Instance codec : Codec unit nat := {|
  to_vec ev := if bool_decide (ev = tally (Z.to_nat (seq ev))) then Ok (write (Z.to_nat (seq ev))) else Err (Json_ "tally");
  from_slice := read;
  to_vec_pretty v := match v with
    | DVectors _ _ m => if bool_decide (m = ∅) then Ok ["{"%char; "}"%char] else Err (Json_ "vectors")
    | _ => Ok ["{"%char; "}"%char]
    end;
  read_vectors _ := Ok ∅;
  model_of _ := "";
|}.
Lemma to_vec_inv ev b : to_vec ev = Ok b → ∃ n, ev = tally n ∧ b = write n.
Proof. unfold to_vec. simpl. case_bool_decide; [|done]. intros [= <-]. by eexists. Qed.
Lemma count_ones n l : count l = (0, l) → count (replicate n one ++ l) = (n, l).
Proof. intros Hl. induction n as [|n IH]; [done|]. simpl. by rewrite IH. Qed.
Lemma count_app l n c r x : count l = (n, c :: r) → count (l ++ x) = (n, c :: r ++ x).
Proof.
  revert n. induction l as [|d l IH]; intros n; simpl; [done|]. case_bool_decide.
  - destruct (count l) as [m r'] eqn:Hm. intros [= <- ->]. by rewrite (IH _ eq_refl).
  - by intros [= <- <- <-].
Qed.
#[export] Instance codec_laws : CodecLaws codec.
Proof.
  split.
  - intros ev b (n & _ & ->)%to_vec_inv [|Hin]%elem_of_cons; [done|].
    apply elem_of_app in Hin as [[? _]%elem_of_replicate|?%list_elem_of_singleton]; done.
  - intros ev b (n & _ & ->)%to_vec_inv. by eexists _, _.
  - intros ev b (n & -> & ->)%to_vec_inv. unfold from_slice. simpl. by rewrite count_ones.
  - intros ev b p x (n & -> & ->)%to_vec_inv Hb Hx. unfold from_slice. simpl. destruct p as [|c p]; [done|].
    injection Hb as <- Hp. destruct (exists_last Hx) as (x' & e & ->). rewrite app_assoc in Hp.
    apply app_inj_tail in Hp as [Hp _]. assert (∃ m, p = replicate m one) as [m ->].
    { exists (length p). symmetry. apply replicate_as_elem_of. split; [done|]. intros y Hy.
      assert (y ∈ replicate n one) as [-> _]%elem_of_replicate by (rewrite Hp; apply elem_of_app; by left). done. }
    simpl. pose proof (count_ones m [] eq_refl) as Hc. rewrite app_nil_r in Hc. by rewrite Hc.
  - intros [|c l] ev; [done|]. unfold from_slice. simpl. destruct (count l) as [n [|e rest]] eqn:Hc; [done|].
    rewrite (count_app _ _ _ _ [newline] Hc). case_bool_decide; [|done]. simpl.
    rewrite forallb_app. destruct (blank_line rest); [done|]. done.
  - intros t model m b. simpl. case_bool_decide; [by subst|done].
Qed.
(** A log of one event; the second system call of an append, its write, stops
    after two bytes. *)
Definition one_event : Disk := mkDisk (<[events_jsonl := write 1 ++ [newline]]> ∅) 0.
Definition stopped (n : nat) : option nat := if (n =? 1)%nat then Some 2%nat else None.
Definition working (n : nat) : option nat := None.
End Tally.

(** The write of the second event stops inside it; the next reader cuts the
    log back. *)
Lemma append_recovered_witness :
  intact (C := Tally.codec) (contents events_jsonl Tally.one_event)
  ∧ ∃ r d', fs_append (C := Tally.codec) Tally.stopped (Tally.tally 2) Tally.one_event = (r, d') ∧ is_ok r = false
  ∧ ∃ l d'', fs_events (C := Tally.codec) Tally.working d' = (Ok l, d'')
      ∧ contents events_jsonl d'' = Tally.write 1 ++ [newline] ∧ l = [Tally.tally 1].
Proof.
  assert (intact (C := Tally.codec) (contents events_jsonl Tally.one_event)) as Hi.
  { split; [right; reflexivity|]. eexists. split; vm_compute; reflexivity. }
  split; [exact Hi|].
  destruct (fs_append (C := Tally.codec) Tally.stopped (Tally.tally 2) Tally.one_event) as [r d'] eqn:Ha.
  exists r, d'. split; [reflexivity|].
  destruct (append_recovered (CL := Tally.codec_laws) Tally.stopped Tally.working (Tally.tally 2) Tally.one_event r d' Hi Ha
    (λ _, eq_refl)) as (l & d'' & He & _ & _ & _).
  vm_compute in Ha. injection Ha as <- <-. split; [reflexivity|]. exists l, d''. split; [exact He|].
  vm_compute in He. injection He as <- <-. split; reflexivity.
Defined.
