(* ===== verification/McpNames.v ===== *)
(** * McpNames: the names under which remote tools are offered

    [adk-mcp/src/names.rs].  A model is offered the tools of several servers
    under one flat name space of at most 64 bytes.  The names are built from
    bytes: every byte of a character outside ASCII is invalid, and a run of
    invalid characters gives a single underscore. *)

From stdpp Require Import pretty.
From S2P Require Import Prelude Text.

(** [char::is_ascii_alphanumeric() || matches!(c, '_' | '-')] *)
Definition name_char (c : ascii) : bool :=
  is_ascii_alphanumeric c || Ascii.eqb c "_" || Ascii.eqb c "-".

(** The loop of [normalize]. *)
Fixpoint replace_invalid (invalid : bool) (l : list ascii) : list ascii :=
  match l with
  | [] => []
  | c :: l =>
      if name_char c then c :: replace_invalid false l
      else if invalid then replace_invalid true l
      else "_"%char :: replace_invalid true l
  end.
(** [trim_matches('_')] *)
Fixpoint drop_underscores (l : list ascii) : list ascii :=
  match l with
  | c :: l' => if Ascii.eqb c "_" then drop_underscores l' else l
  | [] => []
  end.
Definition trim_underscores (l : list ascii) : list ascii :=
  reverse (drop_underscores (reverse (drop_underscores l))).

Definition normalize (raw : string) : list ascii :=
  let name := trim_underscores (replace_invalid false (bytes (trim raw))) in
  if bool_decide (name = []) then bytes "unnamed" else name.

(** [format!("{b:02x}")] *)
Definition hex_digit (n : N) : ascii := ascii_of_N (if (n <? 10)%N then 48 + n else 87 + n).
Definition hex_byte (b : ascii) : list ascii :=
  [hex_digit (byte_val b / 16); hex_digit (byte_val b mod 16)].

Section names.
(** The digest of the sha1 crate. *)
Context (sha1 : list ascii → list ascii).

(** [digest[..4]] in hexadecimal *)
Definition short_hash (l : list ascii) : list ascii := take 4 (sha1 l) ≫= hex_byte.

Definition qualified_tool_name (server tool : string) : string :=
  let server := normalize server in
  let tool := normalize tool in
  let base := bytes "mcp__" ++ server ++ bytes "__" ++ tool in
  if (length base <=? 64)%nat then of_bytes base
  else
    let '(server_budget, tool_budget) :=
      if (length server <? 24)%nat then (length server, 24 + (24 - length server)) else (24, 24) in
    let '(server_budget, tool_budget) :=
      if (length tool <? tool_budget)%nat
      then (server_budget + (tool_budget - length tool), length tool)
      else (server_budget, tool_budget) in
    of_bytes (bytes "mcp__" ++ take (length server `min` server_budget) server
              ++ bytes "__" ++ take (length tool `min` tool_budget) tool
              ++ bytes "_" ++ short_hash base).

(** [format!("{}{}", &candidate[..candidate.len().min(64 - suffix.len())], suffix)] *)
Definition suffixed (candidate : list ascii) (i : nat) : string :=
  let suffix := bytes ("_" +:+ pretty (N.of_nat i)) in
  of_bytes (take (length candidate `min` (64 - length suffix)) candidate ++ suffix).

(** The loop [for i in 2..1002]. *)
Fixpoint try_suffixes (candidate : list ascii) (indices : list nat) (used : gset string) : option string :=
  match indices with
  | [] => None
  | i :: indices =>
      if bool_decide (suffixed candidate i ∈ used) then try_suffixes candidate indices used
      else Some (suffixed candidate i)
  end.

Definition ensure_unique_tool_name (candidate : string) (used : gset string) : option string * gset string :=
  if negb (bool_decide (candidate ∈ used)) then (Some candidate, {[candidate]} ∪ used)
  else
    let c := bytes candidate in
    match try_suffixes c (seq 2 1000) used with
    | Some name => (Some name, {[name]} ∪ used)
    | None =>
        let hash := short_hash (c ++ bytes ("_" +:+ pretty (N.of_nat (size used)))) in
        let name := of_bytes (take (length c `min` 55) c ++ bytes "_" ++ hash) in
        if bool_decide (name ∈ used) then (None, used) else (Some name, {[name]} ∪ used)
    end.
End names.

(** ** What a name is *)

Definition well_named (name : string) : Prop :=
  (String.length name <= 64)%nat ∧ Forall (λ c, name_char c = true) (bytes name)
  ∧ bytes "mcp__" `prefix_of` bytes name.

Lemma replace_invalid_chars invalid l : Forall (λ c, name_char c = true) (replace_invalid invalid l).
Proof.
  revert invalid. induction l as [|c l IH]; intros invalid; simpl; [done|].
  destruct (name_char c) eqn:Hc; [by constructor|]. destruct invalid; [done|]. by constructor.
Qed.
Lemma drop_underscores_suffix l : drop_underscores l `suffix_of` l.
Proof.
  induction l as [|c l IH]; simpl; [done|]. destruct (Ascii.eqb c "_"); [|done]. by apply suffix_cons_r.
Qed.
Lemma drop_underscores_chars (P : ascii → Prop) l : Forall P l → Forall P (drop_underscores l).
Proof. destruct (drop_underscores_suffix l) as [k Hk]. rewrite Hk at 1. by intros [_ ?]%Forall_app. Qed.
Lemma trim_underscores_chars (P : ascii → Prop) l : Forall P l → Forall P (trim_underscores l).
Proof. intros Hl. by apply Forall_reverse, drop_underscores_chars, Forall_reverse, drop_underscores_chars. Qed.
Lemma normalize_chars raw : Forall (λ c, name_char c = true) (normalize raw) ∧ normalize raw ≠ [].
Proof.
  unfold normalize. case_bool_decide; split; try done.
  - repeat constructor.
  - apply trim_underscores_chars, replace_invalid_chars.
Qed.

(** A boolean property of a range of numbers, by evaluation. *)
Lemma forallb_seq (f : nat → bool) a n i :
  forallb f (seq a n) = true → (a <= i < a + n)%nat → f i = true.
Proof. intros Hf Hi. rewrite forallb_forall in Hf. apply Hf, in_seq. lia. Qed.
Lemma hex_digit_char n : (n < 16)%N → name_char (hex_digit n) = true.
Proof.
  intros Hn. rewrite <-(N2Nat.id n). apply (forallb_seq (λ i, name_char (hex_digit (N.of_nat i))) 0 16); [done|lia].
Qed.
Lemma short_hash_chars sha1 l :
  Forall (λ c, name_char c = true) (short_hash sha1 l) ∧ (length (short_hash sha1 l) <= 8)%nat.
Proof.
  unfold short_hash. assert (length (take 4 (sha1 l)) <= 4)%nat as Hk by (rewrite length_take; lia).
  revert Hk. generalize (take 4 (sha1 l)) as k. intros k.
  enough (Forall (λ c, name_char c = true) (k ≫= hex_byte) ∧ length (k ≫= hex_byte) = 2 * length k)%nat
    as [? ->] by (split; [done|lia]).
  induction k as [|b k [IHc IHl]]; [done|]. csimpl. rewrite IHl. split; [|lia].
  repeat constructor; [| |done]; apply hex_digit_char.
  - apply N.Div0.div_lt_upper_bound. apply N_ascii_bounded.
  - by apply N.mod_lt.
Qed.

Lemma Forall_app_2 {A} (P : A → Prop) l k : Forall P l → Forall P k → Forall P (l ++ k).
Proof. intros. by apply Forall_app. Qed.
#[local] Hint Resolve Forall_app_2 Forall_take : names.
Lemma well_named_bytes l :
  (length l <= 64)%nat → Forall (λ c, name_char c = true) l → bytes "mcp__" `prefix_of` l →
  well_named (of_bytes l).
Proof. intros. unfold well_named. rewrite <-length_bytes, bytes_of_bytes. done. Qed.

(** ** Names are made of at most 64 valid characters *)

Lemma qualified_well_named sha1 server tool : well_named (qualified_tool_name sha1 server tool).
Proof.
  unfold qualified_tool_name.
  destruct (normalize_chars server) as [Hs _], (normalize_chars tool) as [Ht _].
  revert Hs Ht. generalize (normalize server) as s, (normalize tool) as t. intros s t Hs Ht.
  destruct (Nat.leb_spec (length (bytes "mcp__" ++ s ++ bytes "__" ++ t)) 64) as [Hl|_].
  { apply well_named_bytes; [done| |by eexists]. apply Forall_app_2; [repeat constructor|]. 
    apply Forall_app_2; [done|]. apply Forall_app_2; [repeat constructor|done]. }
  destruct (short_hash_chars sha1 (bytes "mcp__" ++ s ++ bytes "__" ++ t)) as [Hh Hhl].
  revert Hh Hhl. generalize (short_hash sha1 (bytes "mcp__" ++ s ++ bytes "__" ++ t)) as h. intros h Hh Hhl.
  destruct (Nat.ltb_spec (length s) 24) as [Hs24|Hs24]; (* the server's share *)
    [destruct (Nat.ltb_spec (length t) (24 + (24 - length s))) as [Ht'|Ht']
    |destruct (Nat.ltb_spec (length t) 24) as [Ht'|Ht']];
    (apply well_named_bytes;
     [rewrite !length_app, !length_take; simpl; lia
     |repeat apply Forall_app_2; try done; try (by apply Forall_take); repeat constructor
     |by eexists]).
Qed.

Lemma qualified_short sha1 server tool :
  (length (normalize server) + length (normalize tool) <= 57)%nat →
  qualified_tool_name sha1 server tool = of_bytes (bytes "mcp__" ++ normalize server ++ bytes "__" ++ normalize tool).
Proof.
  intros Hl. unfold qualified_tool_name. rewrite (proj2 (Nat.leb_le _ 64)); [done|].
  rewrite !length_app. simpl. lia.
Qed.

(** ** Suffixes tell names apart *)

Lemma last_separator {A} (x : A) l k a b :
  l ++ x :: a = k ++ x :: b → x ∉ a → x ∉ b → a = b.
Proof.
  revert k. induction l as [|y l IH]; intros [|z k] H Ha Hb; simplify_eq/=; [done| | |by eapply IH].
  - destruct Ha. apply elem_of_app. right. by left.
  - destruct Hb. apply elem_of_app. right. by left.
Qed.
Definition plain_suffix (i : nat) : bool :=
  let d := bytes (pretty (N.of_nat i)) in
  bool_decide ("_"%char ∉ d) && (length d <=? 4)%nat && forallb name_char d.
Lemma plain_suffixes i : (2 <= i < 1002)%nat → plain_suffix i = true.
Proof. apply (forallb_seq plain_suffix 2 1000). vm_compute. reflexivity. Qed.
Lemma plain_suffix_spec i :
  (2 <= i < 1002)%nat →
  let d := bytes (pretty (N.of_nat i)) in
  "_"%char ∉ d ∧ (length d <= 4)%nat ∧ Forall (λ c, name_char c = true) d.
Proof.
  intros Hi%plain_suffixes. unfold plain_suffix in Hi.
  rewrite !andb_true_iff, bool_decide_eq_true, Nat.leb_le, forallb_forall in Hi.
  destruct Hi as [[? ?] Hd]. split_and!; [done..|]. apply Forall_forall. intros c Hc. apply Hd, list_elem_of_In, Hc.
Qed.
Lemma suffix_bytes i : bytes ("_" +:+ pretty (N.of_nat i)) = "_"%char :: bytes (pretty (N.of_nat i)).
Proof. done. Qed.
Lemma suffixed_inj c i j :
  (2 <= i < 1002)%nat → (2 <= j < 1002)%nat → suffixed c i = suffixed c j → i = j.
Proof.
  intros Hi Hj H%(inj of_bytes). rewrite !suffix_bytes in H.
  destruct (plain_suffix_spec i Hi) as [Hi' _], (plain_suffix_spec j Hj) as [Hj' _].
  apply last_separator in H; [|done..]. apply (inj bytes), (inj pretty) in H. lia.
Qed.
Lemma prefix_take_long (p l : list ascii) n : p `prefix_of` l → (length p <= n)%nat → p `prefix_of` take n l.
Proof. intros [k ->] Hn. rewrite take_app_ge by done. by eexists. Qed.
Lemma cut_well_named name n suffix :
  well_named name → (5 <= n)%nat → (n + length suffix <= 64)%nat → Forall (λ c, name_char c = true) suffix →
  well_named (of_bytes (take (length (bytes name) `min` n) (bytes name) ++ suffix)).
Proof.
  intros (Hlen & Hc & Hp) Hn Hs Hsc. apply well_named_bytes.
  - rewrite length_app, length_take. lia.
  - apply Forall_app_2; [by apply Forall_take|done].
  - apply prefix_app_r, prefix_take_long; [done|]. apply prefix_length in Hp. simpl in *. lia.
Qed.
Lemma suffixed_well_named name i :
  well_named name → (2 <= i < 1002)%nat → well_named (suffixed (bytes name) i).
Proof.
  intros Hn Hi. destruct (plain_suffix_spec i Hi) as (_ & Hl & Hc).
  apply (cut_well_named); [done| | |]; rewrite suffix_bytes; simpl in *; [lia..|by constructor].
Qed.

Lemma try_suffixes_spec c indices used :
  match try_suffixes c indices used with
  | Some name => name ∉ used ∧ ∃ i, i ∈ indices ∧ name = suffixed c i
  | None => ∀ i, i ∈ indices → suffixed c i ∈ used
  end.
Proof.
  induction indices as [|i indices IH]; simpl; [by intros ? ?%elem_of_nil|]. case_bool_decide as Hi.
  - destruct (try_suffixes c indices used); [destruct IH as (? & j & ? & ?)|].
    + split; [done|]. exists j. split; [by right|done].
    + intros j [->|Hj]%elem_of_cons; [done|by apply IH].
  - split; [done|]. exists i. split; [by left|done].
Qed.
Lemma suffixes_size c (used : gset string) :
  (∀ i, i ∈ seq 2 1000 → suffixed c i ∈ used) → (1000 <= size used)%nat.
Proof.
  intros H. assert (NoDup (suffixed c <$> seq 2 1000)) as Hnd.
  { apply NoDup_fmap_2_strong; [|apply NoDup_seq]. intros i j Hi%elem_of_seq Hj%elem_of_seq Hij.
    apply (suffixed_inj c); [lia..|done]. }
  replace 1000%nat with (length (suffixed c <$> seq 2 1000)) by by rewrite length_fmap, length_seq.
  rewrite <-(size_list_to_set (C := gset string)) by done. apply subseteq_size.
  intros name (i & -> & Hi)%elem_of_list_to_set%list_elem_of_fmap. by apply H.
Qed.

(** What is handed out is well named and new; nothing is handed out only when a
    thousand names are taken. *)
Lemma ensure_unique_spec sha1 candidate used :
  well_named candidate →
  match ensure_unique_tool_name sha1 candidate used with
  | (Some name, used') => well_named name ∧ name ∉ used ∧ used' = {[name]} ∪ used
  | (None, used') => used' = used ∧ (1000 <= size used)%nat
  end.
Proof.
  intros Hw. unfold ensure_unique_tool_name. case_bool_decide as Hin; [|done]. cbn [negb].
  pose proof (try_suffixes_spec (bytes candidate) (seq 2 1000) used) as Ht.
  destruct (try_suffixes _ _ _) as [name|]; cbv zeta beta iota.
  - destruct Ht as (? & i & Hi%elem_of_seq & ->). split_and!; [|done..]. apply suffixed_well_named; [done|lia].
  - set (h := short_hash _ _). case_bool_decide.
    + split; [done|]. by eapply suffixes_size.
    + cbv iota. split_and!; [|done..]. destruct (short_hash_chars sha1 (bytes candidate ++ bytes ("_" +:+ pretty (N.of_nat (size used))))) as [Hc Hl].
      apply (cut_well_named candidate 55); [done|lia| |]; unfold h; [rewrite length_app; change (length (bytes "_")) with 1%nat; lia|by constructor].
Qed.
