(* ===== verification/McpConfig.v ===== *)
(** * McpConfig: what a repository asks for, and what a host grants

    [adk-mcp/src/lib.rs] (errors and limits) and [config.rs] (the configuration
    of a server and the environment of its process).  Parsing a URL is the url
    crate's: an argument. *)

From S2P Require Import Prelude Text.

(** [mcp::Error]; the messages are the source's. *)
Inductive Error :=
| Config_ (m : string) | Policy (m : string) | Protocol (m : string) | Transport | Limit
| Closed | ConfigChanged
| ReconciliationRequired (server operation : string)
| Remote (code : Z).
#[export] Instance Error_eq_dec : EqDecision Error.
Proof. solve_decision. Defined.

(** A [Duration] is its number of nanoseconds. *)
Record Limits := mkLimits {
  max_message_bytes : N;
  max_pages : nat;
  max_items : nat;
  max_stderr_bytes : N;
  timeout : N;
}.
Definition default_limits : Limits := mkLimits (8 * 2 ^ 20) 100 10000 4096 (30 * 10 ^ 9).

(** [url::Url], as far as [origin] looks at it. *)
Record Url := mkUrl {
  scheme : string;
  host_str : option string;
  username : string;
  password : option string;
  query : option string;
  fragment : option string;
  ascii_origin : string;
}.

Record ServerConfig := mkServerConfig {
  transport_field : string;
  command : string;
  args : list string;
  env : gmap string string;
  url : string;
  enabled_field : option bool;
  allow_env : list string;
  trust_read_only_hint : bool;
  config_allowed_tools : list string;
}.

Definition blank (s : string) : bool := String.eqb (trim s) "".

Definition transport_type (self : ServerConfig) : string :=
  let transport := trim (transport_field self) in
  if String.eqb transport "" || eq_ignore_ascii_case transport "stdio" then "stdio"
  else if eq_ignore_ascii_case transport "streamable-http" then "streamable-http"
  else if eq_ignore_ascii_case transport "sse" then "sse"
  else transport.
Definition enabled (self : ServerConfig) : bool := default true (enabled_field self).
Definition is_remote (self : ServerConfig) : bool := negb (String.eqb (transport_type self) "stdio").
Definition config_tool_allowed (self : ServerConfig) (name : string) : bool :=
  bool_decide (config_allowed_tools self = [])
  || existsb (λ n, String.eqb n name) (config_allowed_tools self).

Section urls.
Context (parse_url : string → option Url).

Definition origin (self : ServerConfig) : result Error string :=
  u ← ok_or (parse_url (url self)) (Config_ "invalid remote URL");
  _ ← ensure (negb (negb (existsb (String.eqb (scheme u)) ["http"; "https"])
                    || bool_decide (host_str u = None)
                    || negb (String.eqb (username u) "")
                    || bool_decide (is_Some (password u))
                    || bool_decide (is_Some (query u))
                    || bool_decide (is_Some (fragment u))))
        (Config_ "unsafe remote URL");
  mret (ascii_origin u).

(** An entry of the environment that no process could be given. *)
Definition bad_entry (kv : string * string) : bool :=
  String.eqb kv.1 ""
  || existsb (λ c, Ascii.eqb c "=" || Ascii.eqb c Ascii.zero) (bytes kv.1)
  || existsb (λ c, Ascii.eqb c Ascii.zero) (bytes kv.2).

Definition validate (self : ServerConfig) : result Error unit :=
  _ ← (if String.eqb (transport_type self) "stdio" then
         if negb (blank (command self))
         then ensure (blank (url self)) (Config_ "stdio transport cannot set url")
         else Err (Config_ "stdio command is required")
       else if existsb (String.eqb (transport_type self)) ["streamable-http"; "sse"] then
         _ ← ensure (negb (negb (blank (command self)) || negb (bool_decide (args self = []))
                           || negb (bool_decide (env self = ∅))
                           || negb (bool_decide (allow_env self = []))))
               (Config_ "remote transport cannot set command, args, env, or allowEnv");
         _ ← origin self;
         mret tt
       else Err (Config_ "unsupported transport"));
  ensure (negb (existsb bad_entry (map_to_list (env self)))) (Config_ "invalid environment entry").
End urls.

(** ** Credentials in the environment *)

Definition upper_ascii (c : ascii) : ascii :=
  if in_range 97 122 c then ascii_of_N (byte_val c - 32) else c.
Definition to_ascii_uppercase (s : string) : string := of_bytes (upper_ascii <$> bytes s).
Definition prefixed (p s : string) : bool := starts_with (bytes p) (bytes s).
Definition suffixed_by (p s : string) : bool := starts_with (reverse (bytes p)) (reverse (bytes s)).

Definition is_credential_env_name (name : string) : bool :=
  let n := to_ascii_uppercase (trim name) in
  prefixed "AWS_" n
  || existsb (String.eqb n) ["GH_TOKEN"; "GH_PAT"; "GITHUB_PAT"; "PASSWORD"; "SECRET"]
  || existsb (λ s, suffixed_by s n) ["_API_KEY"; "_SECRET"; "_TOKEN"; "_PASSWORD"; "_PASSWD"]
  || (prefixed "AZURE_" n && suffixed_by "KEY" n)
  || (prefixed "SLACK_" n && existsb (λ s, suffixed_by s n) ["TOKEN"; "SECRET"; "KEY"])
  || (prefixed "NPM_" n && contains (bytes "AUTH") (bytes n)).

Definition filter_credential_env (env : gmap string string) (host_allow : gset string) : gmap string string :=
  filter (λ kv, is_credential_env_name kv.1 = false ∨ kv.1 ∈ host_allow) env.

Definition filtered_env (self : ServerConfig) (inherited : gmap string string) (host_allow : gset string)
    : gmap string string :=
  let out := filter_credential_env inherited host_allow in
  let allowed : gset string := list_to_set (List.filter (λ n, bool_decide (n ∈ host_allow)) (allow_env self)) in
  filter_credential_env (env self) allowed ∪ out.

(** What a server's process gets of the environment, name by name: a credential
    only when the host allows it, the repository's value for it only when the
    repository has opted in as well; any other name freely, the repository's value
    first. *)
Theorem filtered_env_spec self inherited host_allow k :
  filtered_env self inherited host_allow !! k =
    if is_credential_env_name k then
      if bool_decide (k ∈ host_allow) then
        if bool_decide (k ∈ allow_env self)
        then match env self !! k with Some v => Some v | None => inherited !! k end
        else inherited !! k
      else None
    else match env self !! k with Some v => Some v | None => inherited !! k end.
Proof.
  unfold filtered_env, filter_credential_env. rewrite lookup_union, !map_lookup_filter. simpl.
  assert (k ∈ (list_to_set (List.filter (λ n, bool_decide (n ∈ host_allow)) (allow_env self)) : gset string)
          ↔ k ∈ allow_env self ∧ k ∈ host_allow) as Hk
    by (rewrite elem_of_list_to_set, elem_of_List_filter; case_bool_decide; naive_solver).
  destruct (env self !! k) as [v|], (inherited !! k) as [v'|]; simpl; repeat case_guard;
    destruct (is_credential_env_name k) eqn:Hc; repeat case_bool_decide; naive_solver.
Qed.
