(* ===== verification/McpContent.v ===== *)
(** * McpContent: what a result of a remote tool may hold

    The checks of [adk-mcp/src/tools.rs] on a result, made before the session
    that returned it is used again ([validate_call_result]) and before a result
    is shown.  Decoding base64 is the base64 crate's: an argument.

    The JSON values the client inspects come first: [serde_json::Value] with the
    observers the code calls on it.  An object is the list of its entries, whose
    keys are distinct; a number is an integer in the range of [i64] or [u64], or a
    float, of which no operation here looks at the value. *)

From S2P Require Import Prelude Text McpConfig.

(** ** JSON values *)

Inductive Json :=
| JNull
| JBool (b : bool)
| JInt (z : Z)
| JFloat (repr : string)
| JString (s : string)
| JArray (l : list Json)
| JObject (m : list (string * Json)).

(** ** Observers *)

Fixpoint entry (m : list (string * Json)) (key : string) : option Json :=
  match m with
  | [] => None
  | (k, v) :: m => if String.eqb k key then Some v else entry m key
  end.
Definition as_object (v : Json) : option (list (string * Json)) :=
  match v with JObject m => Some m | _ => None end.
Definition as_array (v : Json) : option (list Json) := match v with JArray l => Some l | _ => None end.
Definition as_str (v : Json) : option string := match v with JString s => Some s | _ => None end.
Definition is_object (v : Json) : bool := bool_decide (is_Some (as_object v)).
Definition is_array (v : Json) : bool := bool_decide (is_Some (as_array v)).
Definition is_string (v : Json) : bool := bool_decide (is_Some (as_str v)).
Definition is_null (v : Json) : bool := match v with JNull => true | _ => false end.
Definition is_boolean (v : Json) : bool := match v with JBool _ => true | _ => false end.
Definition is_number (v : Json) : bool := match v with JInt _ | JFloat _ => true | _ => false end.
Definition is_i64 (v : Json) : bool :=
  match v with JInt z => (- 2 ^ 63 <=? z)%Z && (z <? 2 ^ 63)%Z | _ => false end.
Definition as_u64 (v : Json) : option N :=
  match v with JInt z => if (0 <=? z)%Z && (z <? 2 ^ 64)%Z then Some (Z.to_N z) else None | _ => None end.

(** [value.get(key)] and [value[key]]: what is not there reads as null. *)
Definition get (v : Json) (key : string) : option Json := as_object v ≫= λ m, entry m key.
Definition index (v : Json) (key : string) : Json := default JNull (get v key).

(** [map.insert(key, x)] *)
Fixpoint set_entry (key : string) (x : Json) (m : list (string * Json)) : list (string * Json) :=
  match m with
  | [] => [(key, x)]
  | (k, v) :: m => if String.eqb k key then (k, x) :: m else (k, v) :: set_entry key x m
  end.

Lemma entry_set_entry key x m key' :
  entry (set_entry key x m) key' = if String.eqb key key' then Some x else entry m key'.
Proof.
  induction m as [|[k v] m IH]; simpl; [done|].
  destruct (String.eqb_spec k key) as [->|Hk]; simpl.
  - by destruct (String.eqb key key').
  - destruct (String.eqb_spec k key') as [->|]; [|done].
    by destruct (String.eqb_spec key key') as [->|].
Qed.

(** ** Equality *)

Fixpoint json_eqb (a b : Json) {struct a} : bool :=
  match a, b with
  | JNull, JNull => true
  | JBool a, JBool b => Bool.eqb a b
  | JInt a, JInt b => (a =? b)%Z
  | JFloat a, JFloat b | JString a, JString b => String.eqb a b
  | JArray a, JArray b =>
      (fix go (a b : list Json) : bool :=
         match a, b with
         | [], [] => true
         | x :: a, y :: b => json_eqb x y && go a b
         | _, _ => false
         end) a b
  | JObject a, JObject b =>
      (fix go (a b : list (string * Json)) : bool :=
         match a, b with
         | [], [] => true
         | (k, x) :: a, (l, y) :: b => String.eqb k l && json_eqb x y && go a b
         | _, _ => false
         end) a b
  | _, _ => false
  end.

Section json_ind.
Variable P : Json → Prop.
Hypothesis Hleaf : ∀ v, as_array v = None → as_object v = None → P v.
Hypothesis Harray : ∀ l, Forall P l → P (JArray l).
Hypothesis Hobject : ∀ m, Forall P m.*2 → P (JObject m).

(** Induction that reaches the elements of arrays and objects. *)
Fixpoint json_ind' (v : Json) : P v :=
  match v with
  | JArray l =>
      Harray l ((fix go l : Forall P l :=
        match l with [] => Forall_nil_2 P | v :: l => Forall_cons_2 P v l (json_ind' v) (go l) end) l)
  | JObject m =>
      Hobject m ((fix go (m : list (string * Json)) : Forall P m.*2 :=
        match m with
        | [] => Forall_nil_2 P
        | (k, v) :: m => Forall_cons_2 P v m.*2 (json_ind' v) (go m)
        end) m)
  | JNull => Hleaf JNull eq_refl eq_refl
  | JBool b => Hleaf (JBool b) eq_refl eq_refl
  | JInt z => Hleaf (JInt z) eq_refl eq_refl
  | JFloat r => Hleaf (JFloat r) eq_refl eq_refl
  | JString s => Hleaf (JString s) eq_refl eq_refl
  end.
End json_ind.

Lemma json_eqb_eq a b : json_eqb a b = true ↔ a = b.
Proof.
  revert b. induction a as [a Ha Ho|l IH|m IH] using json_ind'; intros b.
  - destruct a, b; simpl; rewrite ?Bool.eqb_true_iff, ?Z.eqb_eq, ?String.eqb_eq; naive_solver.
  - destruct b as [| | | | |k|]; simpl; try done. trans (l = k); [|naive_solver].
    revert k. induction IH as [|x l Hx _ IHl]; intros [|y k]; try done.
    rewrite andb_true_iff, Hx, IHl. naive_solver.
  - destruct b as [| | | | | |n]; simpl; try done. trans (m = n); [|naive_solver].
    revert n. induction m as [|[k x] m IHm]; intros [|[k' y] n]; try done.
    apply Forall_cons in IH as [Hx IH]. simpl in Hx.
    rewrite !andb_true_iff, Hx, String.eqb_eq, (IHm IH). naive_solver.
Qed.
#[export] Instance Json_eq_dec : EqDecision Json.
Proof.
  intros a b. destruct (json_eqb a b) eqn:H; [left; by apply json_eqb_eq|right].
  intros Hab%json_eqb_eq. congruence.
Defined.

(** ** Checks of a result *)

Definition MAX_BLOB_BYTES : N := 10 * 1024 * 1024.
Definition MAX_RENDER_BLOCKS : N := 128.
Definition MAX_CONTENT_DEPTH : nat := 32.

Definition invalid_result : Error := Protocol "invalid MCP result".
(** [if bad { return Err(invalid_result()) }] *)
Definition refuse (bad : bool) : result Error unit := ensure (negb bad) invalid_result.

(** A value that is absent, null or satisfies [f]. *)
Definition null_or (f : Json → bool) (v : Json) : bool := is_null v || f v.

Definition validate_strings (value : Json) (fields : list string) : result Error unit :=
  refuse (negb (is_object value)
          || existsb (λ key, negb (is_null (index value key)) && negb (is_string (index value key))) fields).

Definition is_base64_symbol (c : ascii) : bool :=
  in_range 65 90 c || in_range 97 122 c || in_range 48 57 c || Ascii.eqb c "+" || Ascii.eqb c "/".
Definition is_break (c : ascii) : bool := (byte_val c =? 13)%N || (byte_val c =? 10)%N.

(** The loop of [validate_blob]: the symbols and the padding seen. *)
Fixpoint count_symbols (l : list ascii) (symbols padding : N) : result Error (N * N) :=
  match l with
  | [] => Ok (symbols, padding)
  | c :: l =>
      if is_break c then count_symbols l symbols padding
      else if Ascii.eqb c "=" then count_symbols l (symbols + 1) (padding + 1)
      else if is_base64_symbol c && (padding =? 0)%N then count_symbols l (symbols + 1) padding
      else Err invalid_result
  end.
Definition validate_blob (value : Json) : result Error unit :=
  match value with
  | JNull => mret tt
  | JString encoded =>
      '(symbols, padding) ← count_symbols (bytes encoded) 0 0;
      refuse (negb (symbols mod 4 =? 0)%N || (2 <? padding)%N)
  | JArray bytes =>
      refuse (negb (forallb (λ b, is_null b || is_some_and (as_u64 b) (λ n, (n <=? 255)%N)) bytes))
  | _ => Err invalid_result
  end.

Definition validate_meta (value : Json) : result Error unit :=
  refuse (negb (null_or is_object (index value "_meta"))).
Definition validate_resource (value : Json) : result Error unit :=
  _ ← validate_meta value;
  _ ← validate_strings value ["uri"; "mimeType"; "text"];
  validate_blob (index value "blob").

(** An array of strings and nulls. *)
Definition text_array (v : Json) : bool :=
  is_some_and (as_array v) (forallb (λ v, is_string v || is_null v)).

Definition validate_icon (icon : Json) : result Error unit :=
  if is_null icon then mret tt
  else
    _ ← validate_strings icon ["src"; "mimeType"; "theme"];
    refuse (negb (null_or text_array (index icon "sizes"))).

(** [depth] levels are left of the [MAX_CONTENT_DEPTH] allowed; [remaining] is
    the budget shared by the blocks of a result. *)
Fixpoint validate_wire (block : Json) (depth : nat) (remaining : N) : result Error N :=
  match depth with
  | O => Err Limit
  | S depth =>
      _ ← ensure (negb (remaining =? 0)%N) Limit;
      let remaining := (remaining - 1)%N in
      if is_null block then Ok remaining
      else
        _ ← validate_strings block
              ["type"; "text"; "mimeType"; "uri"; "name"; "title"; "description"; "id"; "toolUseId"];
        _ ← validate_meta block;
        _ ← refuse (negb (null_or is_i64 (index block "size"))
                    || negb (null_or is_object (index block "input"))
                    || negb (null_or is_boolean (index block "isError")));
        _ ← (let annotations := index block "annotations" in
             if is_null annotations then mret tt
             else
               _ ← validate_strings annotations ["lastModified"];
               refuse (negb (null_or is_number (index annotations "priority"))
                       || negb (null_or text_array (index annotations "audience"))));
        _ ← (let icons := index block "icons" in
             if is_null icons then mret tt
             else
               icons ← ok_or (as_array icons) invalid_result;
               foldM (λ _ icon, validate_icon icon) tt icons);
        _ ← validate_blob (index block "data");
        _ ← (if is_null (index block "resource") then mret tt
             else validate_resource (index block "resource"));
        if is_null (index block "content") then Ok remaining
        else
          nested ← ok_or (as_array (index block "content")) invalid_result;
          foldM (λ remaining nested, validate_wire nested depth remaining) remaining nested
  end.

Section content.
Context (decode_base64 : list ascii → option (list ascii)).

(** [MAX_BLOB_BYTES.div_ceil(3) * 4] *)
Definition max_encoded : N := (MAX_BLOB_BYTES + 2) / 3 * 4.
Definition decode_blob (value : Json) : result Error (list ascii) :=
  match value with
  | JNull => Ok []
  | JString encoded =>
      _ ← ensure (negb (max_encoded <? N.of_nat (String.length encoded))%N) Limit;
      ok_or (decode_base64 (List.filter (λ c, negb (is_break c)) (bytes encoded))) invalid_result
  | JArray bytes =>
      _ ← ensure (negb (MAX_BLOB_BYTES <? N.of_nat (length bytes))%N) Limit;
      mapR (λ byte, if is_null byte then Ok Ascii.zero
                    else match as_u64 byte with
                         | Some v => if (v <=? 255)%N then Ok (ascii_of_N v) else Err invalid_result
                         | None => Err invalid_result
                         end) bytes
  | _ => Err invalid_result
  end.
(** [if decode_blob(v)?.len() > MAX_BLOB_BYTES { return Err(Limit) }] *)
Definition bounded_blob (value : Json) : result Error unit :=
  bytes ← decode_blob value;
  ensure (negb (MAX_BLOB_BYTES <? N.of_nat (length bytes))%N) Limit.

Definition kind_in (block : Json) (kinds : list string) : bool :=
  is_some_and (as_str (index block "type")) (λ k, existsb (String.eqb k) kinds).

(** [validate_content_kind(block, true)] and [validate_content_kind(block, false)]:
    what is nested holds no further blocks. *)
Definition validate_nested_kind (block : Json) : result Error unit :=
  if kind_in block ["text"; "image"; "audio"; "resource_link"; "resource"] then
    _ ← (if kind_in block ["image"; "audio"] then bounded_blob (index block "data") else mret tt);
    if kind_in block ["resource"] && negb (is_null (index block "resource"))
    then bounded_blob (index (index block "resource") "blob") else mret tt
  else Err invalid_result.
Definition validate_content_kind (block : Json) : result Error unit :=
  if kind_in block ["text"; "image"; "audio"; "resource_link"; "resource"] then mret tt
  else if kind_in block ["tool_use"] then mret tt
  else if kind_in block ["tool_result"] then
    match as_array (index block "content") with
    | Some blocks => foldM (λ _ block, validate_nested_kind block) tt blocks
    | None => mret tt
    end
  else Err invalid_result.

Definition validate_result (value : Json) (resource : bool) : result Error unit :=
  if is_null value then mret tt
  else
    _ ← validate_strings value [];
    _ ← validate_meta value;
    _ ← refuse (negb resource && negb (null_or is_boolean (index value "isError")));
    let blocks := index value (if resource then "contents" else "content") in
    if is_null blocks then mret tt
    else
      blocks ← ok_or (as_array blocks) invalid_result;
      _ ← ensure (negb (MAX_RENDER_BLOCKS <? N.of_nat (length blocks))%N) Limit;
      if resource
      then foldM (λ _ block, if is_null block then mret tt else validate_resource block) tt blocks
      else
        _ ← foldM (λ remaining block,
                     remaining ← validate_wire block MAX_CONTENT_DEPTH remaining;
                     _ ← validate_content_kind block;
                     mret remaining) MAX_RENDER_BLOCKS blocks;
        mret tt.
Definition validate_call_result (value : Json) : result Error unit := validate_result value false.
End content.
