(* ===== verification/McpClient.v ===== *)
(** * McpClient: the host's side of a session with a server of tools

    [adk-mcp/src/client.rs].  A [Client] owns one session over a transport.  What
    is outside of it (the transport, the host's hooks, the clock, digests and the
    derived decoders) is the record [Outside]; every exchange with the outside is
    written to a trace.  An operation that waits may be dropped while it does:
    [Dropped] ends it there, with the state it had. *)

From S2P Require Import Prelude Text Core.
From S2P Require Import McpConfig McpContent McpNames.

(** ** Policies and descriptors *)

Record ServerPolicy := mkServerPolicy {
  policy_enabled : bool;
  allowed_origins : gset string;
  allowed_tools : option (gset string);
  read_only_tools : gset string;
  allowed_resources : option (gset string);
  allowed_prompts : option (gset string);
  policy_allow_env : gset string;
}.

Record OperationContext := mkOperationContext {
  context_tenant : string;
  context_server : string;
  operation : string;
  context_tool : option string;
  arguments_sha256 : string;
  request_sha256 : string;
}.
#[export] Instance OperationContext_eq_dec : EqDecision OperationContext.
Proof. solve_decision. Defined.

Inductive AuditOutcome := Attempted | Completed | Denied | OutcomeFailed | OutcomeUnknown.
#[export] Instance AuditOutcome_eq_dec : EqDecision AuditOutcome.
Proof. solve_decision. Defined.

Record ToolDescriptor := mkToolDescriptor {
  qualified_name : string;
  server_name : string;
  tool_name : string;
  description : string;
  display_description : string;
  input_schema : Json;
  read_only : bool;
}.
#[export] Instance ToolDescriptor_eq_dec : EqDecision ToolDescriptor.
Proof. solve_decision. Defined.

Record ResourceDescriptor := mkResourceDescriptor {
  resource_uri : string;
  resource_name : string;
  resource_description : string;
  mime_type : string;
  resource_server : string;
}.
Record PromptArgument := mkPromptArgument {
  argument_name : string;
  argument_description : string;
  required : bool;
}.
Record PromptDescriptor := mkPromptDescriptor {
  prompt_name : string;
  prompt_title : string;
  prompt_description : string;
  prompt_arguments : list PromptArgument;
  prompt_server : string;
}.
Record Capabilities := mkCapabilities { cap_tools : bool; cap_resources : bool; cap_prompts : bool }.
#[export] Instance Capabilities_eq_dec : EqDecision Capabilities.
Proof. solve_decision. Defined.
Definition no_capabilities : Capabilities := mkCapabilities false false false.

Inductive State := New | Ready | Failed | Closed_.
#[export] Instance State_eq_dec : EqDecision State.
Proof. solve_decision. Defined.

(** ** The outside *)

(** What an [await] gives: a value, or nothing because the future was dropped. *)
Inductive Await (A : Type) := Done (a : A) | Lost.
Arguments Done {_} _.
Arguments Lost {_}.
(** The answer of a request under [tokio::time::timeout]; [None]: the time ran out. *)
Notation Timed A := (option (result Error A)) (only parsing).

Inductive Event :=
| ERequest (server method : string) (params : Json) (answer : Await (Timed Json))
| ENotify (server method : string) (answer : Await (Timed unit))
| EClose (server : string) (answer : Await (Timed unit))
| EOpen (server : string)
| EApprove (context : OperationContext) (answer : Await (result Error bool))
| EBreakGlass (context : OperationContext) (reason : string) (answer : Await (result Error bool))
| EAudit (context : OperationContext) (outcome : AuditOutcome) (answer : Await (result Error unit)).

(** [T]: transports; [H]: hooks; [W]: the state of the world. *)
Record Outside (T H W : Type) := mkOutside {
  transport_request : T → string → Json → W → Await (Timed Json) * W;
  transport_notify : T → string → Json → W → Await (Timed unit) * W;
  transport_close : T → W → Await (Timed unit) * W;
  hook_approve : H → OperationContext → W → Await (result Error bool) * W;
  hook_break_glass : H → OperationContext → string → W → Await (result Error bool) * W;
  hook_audit : H → OperationContext → AuditOutcome → W → Await (result Error unit) * W;
  now : W → N;
  sha256 : list ascii → string;
  sha1 : list ascii → list ascii;
  to_vec : Json → list ascii;
  decode_base64 : list ascii → option (list ascii);
  parse_url : string → option Url;
  sanitize_description : string → string → string → string;
  resource_from_value : Json → option ResourceDescriptor;
  prompt_from_value : Json → option PromptDescriptor;
  schema_from_value : Json → option string;
}.
Arguments transport_request {_ _ _}.
Arguments transport_notify {_ _ _}.
Arguments transport_close {_ _ _}.
Arguments hook_approve {_ _ _}.
Arguments hook_break_glass {_ _ _}.
Arguments hook_audit {_ _ _}.
Arguments now {_ _ _}.
Arguments sha256 {_ _ _}.
Arguments sha1 {_ _ _}.
Arguments to_vec {_ _ _}.
Arguments decode_base64 {_ _ _}.
Arguments parse_url {_ _ _}.
Arguments sanitize_description {_ _ _}.
Arguments resource_from_value {_ _ _}.
Arguments prompt_from_value {_ _ _}.
Arguments schema_from_value {_ _ _}.

Record World (W : Type) := mkWorld { outer : W; trace : list Event }.
Arguments mkWorld {_}.
Arguments outer {_}.
Arguments trace {_}.

(** How an operation ends without a value. *)
Inductive Stop := Raised (e : Error) | Dropped | Panicked.

(** [a, b] are bound by the operations below. *)
Definition PROTOCOL_VERSION : string := "2025-03-26".
Definition CARGO_PKG_VERSION : string := "0.1.0".

Section client.
Context {T H W : Type} (out : Outside T H W).

Record HostPolicy := mkHostPolicy {
  tenant_id : string;
  servers : gmap string ServerPolicy;
  hooks : option H;
}.

Record Client := mkClient {
  transport : T;
  server : string;
  config : ServerConfig;
  policy : HostPolicy;
  limits : Limits;
  state : State;
  capabilities : Capabilities;
  tools : option (list ToolDescriptor);
  resources : option (gmap string ResourceDescriptor);
  prompts : option (gmap string PromptDescriptor);
  discovery_cache_ttl : N;
  resources_discovered_at : option N;
  prompts_discovered_at : option N;
}.

Definition set_state (s : State) (c : Client) : Client :=
  mkClient (transport c) (server c) (config c) (policy c) (limits c) s (capabilities c) (tools c)
    (resources c) (prompts c) (discovery_cache_ttl c) (resources_discovered_at c) (prompts_discovered_at c).
Definition set_capabilities (cap : Capabilities) (c : Client) : Client :=
  mkClient (transport c) (server c) (config c) (policy c) (limits c) (state c) cap (tools c)
    (resources c) (prompts c) (discovery_cache_ttl c) (resources_discovered_at c) (prompts_discovered_at c).
Definition set_transport (t : T) (c : Client) : Client :=
  mkClient t (server c) (config c) (policy c) (limits c) (state c) (capabilities c) (tools c)
    (resources c) (prompts c) (discovery_cache_ttl c) (resources_discovered_at c) (prompts_discovered_at c).
Definition set_tools (ts : option (list ToolDescriptor)) (c : Client) : Client :=
  mkClient (transport c) (server c) (config c) (policy c) (limits c) (state c) (capabilities c) ts
    (resources c) (prompts c) (discovery_cache_ttl c) (resources_discovered_at c) (prompts_discovered_at c).
Definition set_resources (rs : option (gmap string ResourceDescriptor)) (at_ : option N) (c : Client) : Client :=
  mkClient (transport c) (server c) (config c) (policy c) (limits c) (state c) (capabilities c) (tools c)
    rs (prompts c) (discovery_cache_ttl c) at_ (prompts_discovered_at c).
Definition set_prompts (ps : option (gmap string PromptDescriptor)) (at_ : option N) (c : Client) : Client :=
  mkClient (transport c) (server c) (config c) (policy c) (limits c) (state c) (capabilities c) (tools c)
    (resources c) ps (discovery_cache_ttl c) (resources_discovered_at c) at_.
Definition set_ttl (ttl : N) (c : Client) : Client :=
  mkClient (transport c) (server c) (config c) (policy c) (limits c) (state c) (capabilities c) (tools c)
    (resources c) (prompts c) ttl (resources_discovered_at c) (prompts_discovered_at c).

(** [invalidate_discovery] *)
Definition invalidate_discovery (c : Client) : Client := set_prompts None None (set_resources None None c).
Definition set_discovery_cache_ttl (ttl : N) (c : Client) : Client := invalidate_discovery (set_ttl ttl c).

(** ** Computations of a client *)

Notation M := (SE (Client * World W) Stop).

Definition client : M Client := λ s, (Ok s.1, s).
Definition modify (f : Client → Client) : M unit := λ s, (Ok tt, (f s.1, s.2)).
Definition raise {A} (e : Error) : M A := fail (Raised e).
Definition lift_result {A} (r : result Error A) : M A :=
  match r with Ok a => mret a | Err e => raise e end.
Definition guard_ (b : bool) (e : Error) : M unit := lift_result (ensure b e).
(** An [await] on the outside, traced. *)
Definition perform {A} (f : W → Await A * W) (e : Await A → Event) : M A :=
  λ s, let '(answer, o) := f (outer s.2) in
       let w := mkWorld o (trace s.2 ++ [e answer]) in
       match answer with Done a => (Ok a, (s.1, w)) | Lost => (Err Dropped, (s.1, w)) end.
(** A fresh transport leaves a mark of its own in the trace. *)
Definition note (e : Event) : M unit :=
  λ s, (Ok tt, (s.1, mkWorld (outer s.2) (trace s.2 ++ [e]))).
(** A [Result] that is looked at instead of returned. *)
Definition attempt {A} (m : M A) : M (result Error A) :=
  λ s, match m s with
       | (Ok a, s) => (Ok (Ok a), s)
       | (Err (Raised e), s) => (Ok (Err e), s)
       | (Err stop, s) => (Err stop, s)
       end.
Definition read_clock : M N := λ s, (Ok (now out (outer s.2)), s).

(** ** Grants *)

(** [self.policy.servers[&self.server]]: [check_server] has found the entry
    whenever this is reached. *)
Definition no_grant : ServerPolicy := mkServerPolicy false ∅ (Some ∅) ∅ (Some ∅) (Some ∅) ∅.
Definition grant (c : Client) : ServerPolicy := default no_grant (servers (policy c) !! server c).

Definition check_server (c : Client) : result Error unit :=
  g ← ok_or (servers (policy c) !! server c) (Policy "server not granted by host");
  _ ← ensure (negb (negb (enabled (config c)) || negb (policy_enabled g))) (Policy "server disabled");
  if is_remote (config c) then
    o ← origin (parse_url out) (config c);
    ensure (bool_decide (o ∈ allowed_origins g)) (Policy "remote origin not granted by host")
  else Ok tt.
Definition ready (c : Client) : result Error unit :=
  _ ← check_server c;
  ensure (bool_decide (state c = Ready)) Closed.

Definition with_limits (transport : T) (server : string) (config : ServerConfig) (policy : HostPolicy)
    (limits : Limits) : result Error Client :=
  _ ← validate (parse_url out) config;
  _ ← ensure (negb (blank server || blank (tenant_id policy))) (Policy "tenant and server are required");
  _ ← ensure (negb ((max_pages limits =? 0)%nat || (max_items limits =? 0)%nat
                    || (max_message_bytes limits =? 0)%N || (timeout limits =? 0)%N))
        (Config_ "positive client bounds required");
  let client := mkClient transport server config policy limits New no_capabilities None None None
                  (30 * 10 ^ 9) None None in
  _ ← check_server client;
  Ok client.
Definition new (transport : T) (server : string) (config : ServerConfig) (policy : HostPolicy)
    : result Error Client :=
  with_limits transport server config policy default_limits.
Definition client_env (c : Client) (inherited : gmap string string) : gmap string string :=
  filtered_env (config c) inherited (policy_allow_env (grant c)).

(** ** Exchanges *)

Definition context (c : Client) (op : string) (tool : option string) (arguments : Json) : OperationContext :=
  mkOperationContext (tenant_id (policy c)) (server c) op tool
    (sha256 out (to_vec out arguments))
    (sha256 out (to_vec out (JArray [JString (tenant_id (policy c)); JString (server c); JString op;
                                      from_option JString JNull tool; arguments]))).

Definition audit (ctx : OperationContext) (outcome : AuditOutcome) : M unit :=
  c ← client;
  match hooks (policy c) with
  | None => mret tt
  | Some h =>
      r ← perform (hook_audit out h ctx outcome) (EAudit ctx outcome);
      match r with Ok _ => mret tt | Err _ => raise (Policy "audit unavailable") end
  end.

Definition unknown (c : Client) (method : string) : Error := ReconciliationRequired (server c) method.

(** A response that leaves the session usable. *)
Definition too_long (c : Client) (v : Json) : bool :=
  (max_message_bytes (limits c) <? N.of_nat (length (to_vec out v)))%N.
Definition malformed_answer (method : string) (v : Json) : bool :=
  String.eqb method "tools/call"
  && (negb (is_some_and (get v "content") is_array)
      || is_some_and (get v "isError") (λ v, negb (is_boolean v))
      || negb (is_ok (validate_call_result (decode_base64 out) v))).
Definition reusable_answer (answer : Timed Json) : bool :=
  match answer with Some (Ok _) | Some (Err (Remote _ | Policy _)) => true | _ => false end.
(** The result of the exchange, and whether the session may be used again. *)
Definition judge (c : Client) (method : string) (answer : Timed Json) : result Error Json * bool :=
  match answer with
  | Some (Ok value) =>
      if too_long c value || malformed_answer method value then (Err (unknown c method), false)
      else (Ok value, true)
  | Some (Err (ReconciliationRequired _ _)) | None => (Err (unknown c method), reusable_answer answer)
  | Some (Err e) => (Err e, reusable_answer answer)
  end.
Definition outcome_of (r : result Error Json) : AuditOutcome :=
  match r with
  | Ok _ => Completed
  | Err (ReconciliationRequired _ _) => OutcomeUnknown
  | Err _ => OutcomeFailed
  end.

(** The end of an exchange: the outcome is recorded before the session is usable
    again in the state it had. *)
Definition settle (method : string) (ctx : OperationContext) (previous : State)
    (result : result Error Json) (reusable : bool) : M Json :=
  c ← client;
  logged ← attempt (audit ctx (outcome_of result));
  if negb (is_ok logged) then
    _ ← modify (set_state Failed);
    raise (unknown c method)
  else
    _ ← (if reusable then modify (set_state previous) else mret tt);
    lift_result result.
(** The session is poisoned while the request is under way. *)
Definition dispatch (method : string) (params : Json) (ctx : OperationContext) : M Json :=
  c ← client;
  let previous := state c in
  _ ← modify (set_state Failed);
  answer ← perform (transport_request out (transport c) method params)
             (ERequest (server c) method params);
  let '(result, reusable) := judge c method answer in
  settle method ctx previous result reusable.
Definition exchange (method : string) (params : Json) (ctx : OperationContext) : M Json :=
  c ← client;
  _ ← lift_result (check_server c);
  _ ← guard_ (negb (bool_decide (state c = Failed ∨ state c = Closed_))) Closed;
  _ ← guard_ (negb (too_long c params)) Limit;
  _ ← audit ctx Attempted;
  dispatch method params ctx.

Definition request (method : string) (params : Json) : M Json :=
  c ← client;
  exchange method params (context c method None params).

(** ** The life of a session *)

Definition initialize_params : Json :=
  JObject [("protocolVersion", JString PROTOCOL_VERSION); ("capabilities", JObject []);
           ("clientInfo", JObject [("name", JString "adk-mcp"); ("version", JString CARGO_PKG_VERSION)])].

(** [if let Some(value) = capabilities.get(name) { .. }] *)
Definition capability (caps : Json) (name : string) : result Error bool :=
  match get caps name with
  | None => Ok false
  | Some v => _ ← ensure (is_object v) (Protocol "malformed capability"); Ok true
  end.
Definition version_accepted (c : Client) (response : Json) : bool :=
  let version := get response "protocolVersion" ≫= as_str in
  bool_decide (version = Some PROTOCOL_VERSION)
  || (bool_decide (version = Some "2024-11-05") && negb (String.eqb (transport_type (config c)) "streamable-http")).
Definition negotiate (c : Client) (response : Json) : result Error Capabilities :=
  _ ← ensure (version_accepted c response) (Protocol "unsupported protocol version");
  m ← ok_or (get response "capabilities" ≫= as_object) (Protocol "missing capabilities");
  t ← capability (JObject m) "tools";
  r ← capability (JObject m) "resources";
  p ← capability (JObject m) "prompts";
  Ok (mkCapabilities t r p).

Definition initialize : M Capabilities :=
  c ← client;
  _ ← guard_ (bool_decide (state c = New)) (Protocol "session already initialized or closed");
  response ← request "initialize" initialize_params;
  _ ← modify (set_state Failed);
  negotiated ← lift_result (negotiate c response);
  answer ← perform (transport_notify out (transport c) "notifications/initialized" (JObject []))
             (ENotify (server c) "notifications/initialized");
  match answer with
  | Some (Ok _) =>
      _ ← modify (set_capabilities negotiated);
      _ ← modify (set_state Ready);
      mret negotiated
  | _ => raise (unknown c "notifications/initialized")
  end.

Definition reconnect (fresh : T) : M Capabilities :=
  _ ← modify (set_state Closed_);
  c ← client;
  _ ← perform (transport_close out (transport c)) (EClose (server c));
  _ ← note (EOpen (server c));
  _ ← modify (λ c, set_state New (invalidate_discovery (set_tools None
                     (set_capabilities no_capabilities (set_transport fresh c)))));
  initialize.

Definition close : M unit :=
  _ ← modify (set_state Closed_);
  c ← client;
  answer ← perform (transport_close out (transport c)) (EClose (server c));
  match answer with
  | None => raise Transport
  | Some r => lift_result r
  end.

(** ** Discovery *)

(** The pages left, the cursors seen and the items so far. *)
Fixpoint pages_loop (pages_left : nat) (method field : string) (cursor : option string) (seen : gset string)
    (items : list Json) : M (list Json) :=
  match pages_left with
  | O => raise Limit
  | S pages_left =>
      c ← client;
      let params := JObject (match cursor with Some c => [("cursor", JString c)] | None => [] end) in
      response ← request method params;
      page ← lift_result (ok_or (get response field ≫= as_array) (Protocol "malformed discovery list"));
      _ ← guard_ (negb (max_items (limits c) - length items <? length page)%nat) Limit;
      let items := items ++ page in
      match get response "nextCursor" with
      | None => mret items
      | Some (JString next) =>
          if blank next then mret items
          else if negb (bool_decide (trim next ∈ seen))
          then pages_loop pages_left method field (Some (trim next)) ({[trim next]} ∪ seen) items
          else raise (Protocol "repeated discovery cursor")
      | Some _ => raise (Protocol "non-string discovery cursor")
      end
  end.
Definition pages (method field : string) : M (list Json) :=
  c ← client;
  _ ← lift_result (ready c);
  pages_loop (max_pages (limits c)) method field None ∅ [].

Definition required_string (value : Json) (field : string) : result Error string :=
  match get value field ≫= as_str with
  | Some s => if negb (blank s) then Ok s else Err (Protocol ("missing or invalid " +:+ field))
  | None => Err (Protocol ("missing or invalid " +:+ field))
  end.
Definition optional_string (value : Json) (field : string) : result Error string :=
  match get value field with
  | None => Ok ""
  | Some (JString s) => Ok s
  | Some _ => Err (Protocol ("invalid " +:+ field))
  end.
Definition normalize_input_schema (schema : Json) : Json :=
  match schema with
  | JObject object =>
      if is_none_or (get schema "type" ≫= as_str) (λ s, String.eqb s "" || String.eqb s "object") then
        let object := set_entry "type" (JString "object") object in
        JObject (match entry object "properties" with
                 | None => set_entry "properties" (JObject []) object
                 | Some _ => object
                 end)
      else JObject object
  | _ => JObject [("type", JString "object"); ("properties", JObject []); ("additionalProperties", JBool true)]
  end.

Definition tool_allowed (c : Client) (name : string) : bool :=
  config_tool_allowed (config c) name
  && is_none_or (allowed_tools (grant c)) (λ tools, bool_decide (name ∈ tools)).
Definition remote_read_only (c : Client) (d : ToolDescriptor) : bool :=
  negb (is_remote (config c))
  || (read_only d && bool_decide (tool_name d ∈ read_only_tools (grant c))).
(** The tools a caller is shown. *)
Definition offered (c : Client) (d : ToolDescriptor) : bool :=
  tool_allowed c (tool_name d) && remote_read_only c d.

(** [annotations.readOnlyHint] *)
Definition read_only_hint (item : Json) : result Error bool :=
  match get item "annotations" with
  | None => Ok false
  | Some (JObject a) =>
      match entry a "readOnlyHint" with
      | None => Ok false
      | Some (JBool b) => Ok b
      | Some _ => Err (Protocol "invalid read-only annotation")
      end
  | Some _ => Err (Protocol "invalid annotations")
  end.
(** One item of the catalogue: the tools, the names of the server and the
    qualified names so far. *)
Definition add_tool (c : Client) (acc : list ToolDescriptor * gset string * gset string) (item : Json)
    : result Error (list ToolDescriptor * gset string * gset string) :=
  let '(tools, original_names, qualified) := acc in
  name ← required_string item "name";
  description ← optional_string item "description";
  hint ← read_only_hint item;
  _ ← ensure (negb (bool_decide (name ∈ original_names))) (Protocol "ambiguous tool name");
  let descriptor := mkToolDescriptor (qualified_tool_name (sha1 out) (server c) name) (server c) name description
        (sanitize_description out (server c) name description)
        (normalize_input_schema (default JNull (get item "inputSchema")))
        (trust_read_only_hint (config c) && hint) in
  if offered c descriptor then
    let '(unique, qualified) := ensure_unique_tool_name (sha1 out) (qualified_name descriptor) qualified in
    q ← ok_or unique (Protocol "ambiguous qualified tool name");
    Ok (tools ++ [mkToolDescriptor q (server_name descriptor) (tool_name descriptor) (description)
                    (display_description descriptor) (input_schema descriptor) (read_only descriptor)],
        {[name]} ∪ original_names, qualified)
  else Ok (tools ++ [descriptor], {[name]} ∪ original_names, qualified).

Definition by_qualified_name (a b : ToolDescriptor) : Prop := String.le (qualified_name a) (qualified_name b).
#[local] Instance by_qualified_name_dec a b : Decision (by_qualified_name a b).
Proof. unfold by_qualified_name. apply _. Defined.

(** The catalogue is read once per session. *)
Definition load_tools : M (list ToolDescriptor) :=
  c ← client;
  match tools c with
  | Some ts => mret ts
  | None =>
      items ← pages "tools/list" "tools";
      c ← client;
      '(ts, _, _) ← lift_result (foldM (add_tool c) ([], ∅, ∅) items);
      _ ← modify (set_tools (Some ts));
      mret ts
  end.
Definition list_tools : M (list ToolDescriptor) :=
  c ← client;
  _ ← lift_result (ready c);
  if negb (cap_tools (capabilities c)) then mret []
  else
    ts ← load_tools;
    c ← client;
    mret (merge_sort by_qualified_name (List.filter (offered c) ts)).

(** ** Calls *)

Definition call_params (name : string) (arguments : Json) : Json :=
  JObject [("name", JString name); ("arguments", arguments)].

(** What the host is asked before a call that the allowlists do not cover, and
    before one that may write. *)
Definition ask_break_glass (ctx : OperationContext) (reason : option string) : M bool :=
  c ← client;
  match reason, hooks (policy c) with
  | Some reason, Some h =>
      if negb (blank reason) then
        r ← perform (hook_break_glass out h ctx reason) (EBreakGlass ctx reason);
        match r with Ok b => mret b | Err _ => raise (Policy "break-glass unavailable") end
      else mret false
  | _, _ => mret false
  end.
Definition ask_approval (ctx : OperationContext) : M bool :=
  c ← client;
  match hooks (policy c) with
  | Some h =>
      r ← perform (hook_approve out h ctx) (EApprove ctx);
      match r with Ok b => mret b | Err _ => raise (Policy "approval unavailable") end
  | None => mret false
  end.
(** [self.audit(&context, Denied).await?; return Err(..)] *)
Definition deny {A} (ctx : OperationContext) (e : Error) : M A :=
  _ ← audit ctx Denied;
  raise e.

(** The three gates of a call: a remote tool only reads, the allowlists or the host
    let it through, and the host approves what may write. *)
Definition authorise (descriptor : ToolDescriptor) (name : string) (reason : option string)
    (ctx : OperationContext) : M unit :=
  c ← client;
  _ ← (if negb (remote_read_only c descriptor)
       then deny ctx (Policy "remote tool is not host-approved read-only") else mret tt);
  _ ← (if negb (tool_allowed c name) then
         approved ← ask_break_glass ctx reason;
         if negb approved then deny ctx (Policy "tool blocked by allowlist") else mret tt
       else mret tt);
  if negb (read_only descriptor) then
    approved ← ask_approval ctx;
    if negb approved then deny ctx (Policy "tool approval required") else mret tt
  else mret tt.
Definition find_tool (c : Client) (name : string) : option ToolDescriptor :=
  tools c ≫= List.find (λ d, String.eqb (tool_name d) name).
Definition call_tool_inner (name : string) (arguments : Json) (reason : option string) : M Json :=
  c ← client;
  _ ← lift_result (ready c);
  _ ← guard_ (is_object arguments) (Protocol "tool arguments must be an object");
  descriptor ← lift_result (ok_or (find_tool c name) (Policy "tool not discovered"));
  let ctx := context c "tools/call" (Some name) arguments in
  _ ← authorise descriptor name reason ctx;
  exchange "tools/call" (call_params name arguments) ctx.
Definition call_tool (name : string) (arguments : Json) : M Json := call_tool_inner name arguments None.
Definition call_tool_with_break_glass (name : string) (arguments : Json) (reason : string) : M Json :=
  call_tool_inner name arguments (Some reason).

(** ** Resources and prompts *)

Definition expired (c : Client) (discovered_at : option N) (clock : N) : bool :=
  is_none_or discovered_at (λ at_, (discovery_cache_ttl c <=? saturating_sub clock at_)%N).

Definition add_resource (c : Client) (rs : gmap string ResourceDescriptor) (item : Json)
    : result Error (gmap string ResourceDescriptor) :=
  d ← ok_or (resource_from_value out item) (Protocol "malformed resource descriptor");
  _ ← ensure (negb (String.eqb (resource_uri d) "" || String.eqb (resource_name d) ""))
        (Protocol "empty resource identity");
  _ ← ensure (bool_decide (rs !! resource_uri d = None)) (Protocol "ambiguous resource URI");
  Ok (<[resource_uri d := mkResourceDescriptor (resource_uri d) (resource_name d) (resource_description d)
                            (mime_type d) (server c)]> rs).
(** The catalogue is read anew, as of the moment before. *)
Definition reload_resources : M (gmap string ResourceDescriptor) :=
  _ ← modify (set_resources None None);
  discovered_at ← read_clock;
  items ← pages "resources/list" "resources";
  c ← client;
  rs ← lift_result (foldM (add_resource c) ∅ items);
  _ ← modify (set_resources (Some rs) (Some discovered_at));
  mret rs.
Definition load_resources : M (gmap string ResourceDescriptor) :=
  c ← client;
  clock ← read_clock;
  match resources c, expired c (resources_discovered_at c) clock with
  | Some rs, false => mret rs
  | None, false => fail Panicked
  | _, true => reload_resources
  end.
Definition list_resources : M (list ResourceDescriptor) :=
  c ← client;
  _ ← lift_result (ready c);
  if negb (cap_resources (capabilities c)) then mret []
  else
    rs ← load_resources;
    c ← client;
    mret (List.filter (λ d, is_none_or (allowed_resources (grant c)) (λ set, bool_decide (resource_uri d ∈ set)))
            (values rs)).
Definition read_resource (uri : string) : M Json :=
  c ← client;
  _ ← lift_result (ready c);
  _ ← guard_ (negb (negb (is_some_and (resources c) (λ r, bool_decide (is_Some (r !! uri))))
                    || is_some_and (allowed_resources (grant c)) (λ r, negb (bool_decide (uri ∈ r)))))
        (Policy "resource not discovered or allowed");
  result ← request "resources/read" (JObject [("uri", JString uri)]);
  _ ← guard_ (is_some_and (get result "contents") is_array) (Protocol "malformed resource result");
  mret result.

(** Empty or repeated names of arguments. *)
Fixpoint bad_arguments (names : gset string) (args : list PromptArgument) : bool :=
  match args with
  | [] => false
  | a :: args =>
      String.eqb (argument_name a) "" || bool_decide (argument_name a ∈ names)
      || bad_arguments ({[argument_name a]} ∪ names) args
  end.
Definition add_prompt (c : Client) (ps : gmap string PromptDescriptor) (item : Json)
    : result Error (gmap string PromptDescriptor) :=
  d ← ok_or (prompt_from_value out item) (Protocol "malformed prompt descriptor");
  _ ← ensure (negb (String.eqb (prompt_name d) "" || bad_arguments ∅ (prompt_arguments d)))
        (Protocol "invalid prompt identity or arguments");
  _ ← ensure (bool_decide (ps !! prompt_name d = None)) (Protocol "ambiguous prompt name");
  Ok (<[prompt_name d := mkPromptDescriptor (prompt_name d) (prompt_title d) (prompt_description d)
                           (prompt_arguments d) (server c)]> ps).
(** The catalogue is read anew, as of the moment before. *)
Definition reload_prompts : M (gmap string PromptDescriptor) :=
  _ ← modify (set_prompts None None);
  discovered_at ← read_clock;
  items ← pages "prompts/list" "prompts";
  c ← client;
  ps ← lift_result (foldM (add_prompt c) ∅ items);
  _ ← modify (set_prompts (Some ps) (Some discovered_at));
  mret ps.
Definition load_prompts : M (gmap string PromptDescriptor) :=
  c ← client;
  clock ← read_clock;
  match prompts c, expired c (prompts_discovered_at c) clock with
  | Some ps, false => mret ps
  | None, false => fail Panicked
  | _, true => reload_prompts
  end.
Definition list_prompts : M (list PromptDescriptor) :=
  c ← client;
  _ ← lift_result (ready c);
  if negb (cap_prompts (capabilities c)) then mret []
  else
    ps ← load_prompts;
    c ← client;
    mret (List.filter (λ d, is_none_or (allowed_prompts (grant c)) (λ set, bool_decide (prompt_name d ∈ set)))
            (values ps)).

(** The checks of [get_prompt] on its arguments. *)
Definition invalid_arguments (d : PromptDescriptor) (args : list (string * Json)) : bool :=
  existsb (λ kv, negb (is_string kv.2)) args
  || existsb (λ a, required a && bool_decide (entry args (argument_name a) = None)) (prompt_arguments d)
  || existsb (λ kv, negb (existsb (λ a, String.eqb (argument_name a) kv.1) (prompt_arguments d))) args.
Definition get_prompt (name : string) (arguments : Json) : M Json :=
  c ← client;
  _ ← lift_result (ready c);
  d ← lift_result (ok_or (prompts c ≫= (.!! name)) (Policy "prompt not discovered"));
  _ ← guard_ (negb (is_some_and (allowed_prompts (grant c)) (λ p, negb (bool_decide (name ∈ p)))))
        (Policy "prompt blocked by host");
  args ← lift_result (ok_or (as_object arguments) (Protocol "prompt arguments must be an object"));
  _ ← guard_ (negb (invalid_arguments d args)) (Protocol "invalid prompt arguments");
  result ← request "prompts/get" (call_params name arguments);
  _ ← guard_ (is_some_and (get result "messages") is_array) (Protocol "malformed prompt result");
  mret result.
End client.
