(* ===== verification/McpManager.v ===== *)
(** * McpManager: several servers behind one set of names

    [ClientManager] of [adk-mcp/src/client.rs].  The map of clients is kept as a
    list in the order of its keys (the servers' names); the mutex of a client is
    taken for one operation at a time, which is how the operations are composed
    here. *)

From stdpp Require Import sorting.
From S2P Require Import Prelude Text Core.
From S2P Require Import McpConfig McpContent McpNames McpClient.

Section manager.
Context {T H W : Type} (out : Outside T H W).
Implicit Types (c : Client (T := T) (H := H)).

Notation MClient := (Client (T := T) (H := H)).
Notation MC := (SE (MClient * World W) Stop).

Record ClientManager := mkManager {
  clients : list (string * MClient);
  definitions : list ToolDefinition;
  routes : gmap string (string * string);
  has_resources : bool;
}.
Notation M := (SE (ClientManager * World W) Stop).

Definition set_clients (cs : list (string * MClient)) (m : ClientManager) : ClientManager :=
  mkManager cs (definitions m) (routes m) (has_resources m).

(** ** Construction *)

Definition by_server (a b : MClient) : Prop := String.le (server a) (server b).
#[local] Instance by_server_dec a b : Decision (by_server a b).
Proof. unfold by_server. apply _. Defined.
Definition by_name (a b : ToolDefinition) : Prop := String.le (Core.tool_name a) (Core.tool_name b).
#[local] Instance by_name_dec a b : Decision (by_name a b).
Proof. unfold by_name. apply _. Defined.

(** One tool of a client: its name, its route and its definition. *)
Definition add_route (acc : ClientManager * gset string) (tool : ToolDescriptor)
    : result Error (ClientManager * gset string) :=
  let '(manager, qualified) := acc in
  let '(unique, qualified) := ensure_unique_tool_name (sha1 out)
        (qualified_tool_name (sha1 out) (server_name tool) (tool_name tool)) qualified in
  name ← ok_or unique (Protocol "ambiguous qualified tool name");
  schema ← ok_or (schema_from_value out (input_schema tool)) (Protocol "invalid tool schema");
  Ok (mkManager (clients manager)
        (definitions manager ++
           [mkToolDefinition name (display_description tool) schema (read_only tool) (negb (read_only tool))])
        (<[name := (server_name tool, tool_name tool)]> (routes manager))
        (has_resources manager), qualified).

(** The operations one client goes through before its tools are routed. *)
Definition prepare_client : MC MClient :=
  c ← client;
  _ ← (if bool_decide (state c = New) then _ ← initialize out; mret tt else mret tt);
  _ ← list_tools out;
  client.
Definition add_client (acc : ClientManager * gset string) (c : MClient)
    : SE (World W) Stop (ClientManager * gset string) :=
  λ w,
    let '(manager, qualified) := acc in
    if bool_decide (is_Some (List.find (λ kc, String.eqb kc.1 (server c)) (clients manager)))
    then (Err (Raised (Config_ "duplicate server name")), w)
    else
      match prepare_client (c, w) with
      | (Err stop, (_, w)) => (Err stop, w)
      | (Ok c, (_, w)) =>
          match foldM add_route (manager, qualified)
                  (List.filter (offered c) (default [] (tools c))) with
          | Err e => (Err (Raised e), w)
          | Ok (manager, qualified) =>
              (Ok (mkManager (clients manager ++ [(server c, c)]) (definitions manager) (routes manager)
                     (has_resources manager || cap_resources (capabilities c)), qualified), w)
          end
      end.
Fixpoint add_clients (acc : ClientManager * gset string) (cs : list MClient)
    : SE (World W) Stop (ClientManager * gset string) :=
  match cs with
  | [] => mret acc
  | c :: cs => acc ← add_client acc c; add_clients acc cs
  end.
Definition new_manager (cs : list MClient) : SE (World W) Stop ClientManager :=
  '(manager, _) ← add_clients (mkManager [] [] ∅ false, ∅) (merge_sort by_server cs);
  mret (mkManager (clients manager) (merge_sort by_name (definitions manager)) (routes manager)
          (has_resources manager)).

(** ** Operations on one client *)

Definition get_manager : M ClientManager := λ s, (Ok s.1, s).
Definition find_client (name : string) (m : ClientManager) : option MClient :=
  snd <$> List.find (λ kc, String.eqb kc.1 name) (clients m).
Definition put_client (name : string) (c : MClient) (m : ClientManager) : ClientManager :=
  set_clients ((λ kc, if String.eqb kc.1 name then (name, c) else kc) <$> clients m) m.
(** [self.clients[name].lock().await] and an operation on it; a name without a
    client is an index out of range. *)
Definition on_client {A} (name : string) (op : MC A) : M A := λ s,
  match find_client name s.1 with
  | None => (Err Panicked, s)
  | Some c =>
      let '(r, (c, w)) := op (c, s.2) in
      (r, (put_client name c s.1, w))
  end.
(** [self.clients.get(server).ok_or_else(..)] *)
Definition with_client {A} (name : string) (op : MC A) : M A :=
  m ← get_manager;
  if bool_decide (is_Some (find_client name m)) then on_client name op
  else fail (Raised (Policy "unknown server")).
Definition catch {A} (m : M A) : M (result Error A) :=
  λ s, match m s with
       | (Ok a, s) => (Ok (Ok a), s)
       | (Err (Raised e), s) => (Ok (Err e), s)
       | (Err stop, s) => (Err stop, s)
       end.

Definition call (name : string) (arguments : Json) : M Json :=
  m ← get_manager;
  match routes m !! name with
  | None => fail (Raised (Policy "unknown qualified tool"))
  | Some (server, tool) => on_client server (call_tool out tool arguments)
  end.
Definition manager_read_resource (server uri : string) : M Json :=
  with_client server (read_resource out uri).
Definition manager_get_prompt (server name : string) (arguments : Json) : M Json :=
  with_client server
    (c ← client;
     if negb (cap_prompts (capabilities c))
     then raise (Protocol "server does not support prompts")
     else get_prompt out name arguments).
Definition manager_reconnect (server : string) (fresh : T) : M unit :=
  with_client server
    (c ← client;
     let old_tools := tools c in
     let old_capabilities := capabilities c in
     _ ← reconnect out fresh;
     listed ← attempt (list_tools out);
     c ← client;
     if negb (is_ok listed) || negb (bool_decide (tools c = old_tools))
        || negb (bool_decide (capabilities c = old_capabilities))
     then
       _ ← attempt (close out);
       raise (Protocol "reconnected capability catalog changed; construct a new manager")
     else mret tt).

(** ** Operations on all of them *)

(** What the clients list, one after the other: the items so far and the first error. *)
Fixpoint gather {A} (names : list string) (selected : bool) (capable : MClient → bool) (refusal : Error)
    (list_items : MC (list A)) (items : list A) (error : option Error) : M (list A * option Error) :=
  match names with
  | [] => mret (items, error)
  | name :: names =>
      m ← get_manager;
      if negb (is_some_and (find_client name m) capable) then
        if selected then fail (Raised refusal)
        else gather names selected capable refusal list_items items error
      else
        r ← catch (on_client name list_items);
        match r with
        | Ok more => gather names selected capable refusal list_items (items ++ more) error
        | Err (ReconciliationRequired s o) => fail (Raised (ReconciliationRequired s o))
        | Err e =>
            if selected then fail (Raised e)
            else gather names selected capable refusal list_items items
                   (Some (default e error))
        end
  end.
Definition gather_all {A} (server : option string) (capable : MClient → bool) (refusal : Error)
    (list_items : MC (list A)) : M (list A) :=
  m ← get_manager;
  if is_some_and server (λ s, negb (bool_decide (is_Some (find_client s m))))
  then fail (Raised (Policy "unknown server"))
  else
    let names := List.filter (λ name, is_none_or server (String.eqb name)) (fst <$> clients m) in
    '(items, error) ← gather names (bool_decide (is_Some server)) capable refusal list_items [] None;
    match items, error with
    | [], Some e => fail (Raised e)
    | _, _ => mret items
    end.
Definition manager_list_prompts (server : option string) : M (list PromptDescriptor) :=
  gather_all server (λ c, cap_prompts (capabilities c)) (Protocol "server does not support prompts")
    (list_prompts out).
Definition manager_list_resources (server : option string) : M (list ResourceDescriptor) :=
  gather_all server (λ c, cap_resources (capabilities c)) (Protocol "server does not support resources")
    (list_resources out).

Definition manager_invalidate (server : string) (m : ClientManager) : ClientManager :=
  set_clients ((λ kc, if String.eqb server "" || String.eqb server kc.1
                      then (kc.1, invalidate_discovery kc.2) else kc) <$> clients m) m.
Fixpoint close_all (names : list string) (error : option Error) : M (option Error) :=
  match names with
  | [] => mret error
  | name :: names =>
      r ← catch (on_client name (close out));
      close_all names (match r with Ok _ => error | Err e => Some (default e error) end)
  end.
Definition manager_close : M unit :=
  m ← get_manager;
  error ← close_all (fst <$> clients m) None;
  match error with None => mret tt | Some e => fail (Raised e) end.
End manager.
