(* ===== verification/McpLogic.v ===== *)
(** * McpLogic: reasoning about the operations of a client

    [wp m Q c tr]: every run of [m] from the client [c] and the trace [tr] ends in
    a result, a client and a trace related by [Q], whatever the outside answers.
    The rules follow the operations of [McpClient]; [wp_step] applies the one that
    fits.  [Op] lists what a host can do with a client, [run_ops] does it. *)

From S2P Require Import Prelude Text.
From S2P Require Import McpConfig McpContent McpNames McpClient.

(** What a host can do with a client it holds. *)
Inductive Op (T : Type) :=
| OpInitialize | OpReconnect (fresh : T) | OpClose
| OpListTools
| OpCallTool (name : string) (arguments : Json) (reason : option string)
| OpListResources | OpReadResource (uri : string)
| OpListPrompts | OpGetPrompt (name : string) (arguments : Json)
| OpSetTtl (ttl : N) | OpInvalidate.
Arguments OpInitialize {_}.
Arguments OpReconnect {_} _.
Arguments OpClose {_}.
Arguments OpListTools {_}.
Arguments OpCallTool {_} _ _ _.
Arguments OpListResources {_}.
Arguments OpReadResource {_} _.
Arguments OpListPrompts {_}.
Arguments OpGetPrompt {_} _ _.
Arguments OpSetTtl {_} _.
Arguments OpInvalidate {_}.

Section logic.
Context {T H W : Type} (out : Outside T H W).
Notation MClient := (Client (T := T) (H := H)).
Notation M := (SE (MClient * World W) Stop).
Notation Post A := (result Stop A → MClient → list Event → Prop).

Definition discard {A} (m : M A) : M unit := _ ← m; mret tt.
Definition run_op (op : Op T) : M unit :=
  match op with
  | OpInitialize => discard (initialize out)
  | OpReconnect fresh => discard (reconnect out fresh)
  | OpClose => close out
  | OpListTools => discard (list_tools out)
  | OpCallTool name arguments reason => discard (call_tool_inner out name arguments reason)
  | OpListResources => discard (list_resources out)
  | OpReadResource uri => discard (read_resource out uri)
  | OpListPrompts => discard (list_prompts out)
  | OpGetPrompt name arguments => discard (get_prompt out name arguments)
  | OpSetTtl ttl => modify (set_discovery_cache_ttl ttl)
  | OpInvalidate => modify invalidate_discovery
  end.
(** One operation after the other, however each of them ended. *)
Definition run_ops (ops : list (Op T)) (s : MClient * World W) : MClient * World W :=
  foldl (λ s op, (run_op op s).2) s ops.

Definition wp {A} (m : M A) (Q : Post A) (c : MClient) (tr : list Event) : Prop :=
  ∀ o r c' w', m (c, mkWorld o tr) = (r, (c', w')) → Q r c' (trace w').

Lemma mcp_mono {A} (m : M A) (Q Q' : Post A) c tr :
  wp m Q c tr → (∀ r c tr, Q r c tr → Q' r c tr) → wp m Q' c tr.
Proof. intros Hm HQ o r c' w' Hr. eapply HQ, Hm, Hr. Qed.
Lemma mcp_bind {A B} (m : M A) (f : A → M B) Q c tr :
  wp m (λ r c tr, match r with Ok a => wp (f a) Q c tr | Err e => Q (Err e) c tr end) c tr →
  wp (m ≫= f) Q c tr.
Proof.
  intros Hm o r c' w'. unfold mbind, SE_bind. destruct (m (c, mkWorld o tr)) as [[a|e] [c1 [o1 tr1]]] eqn:H1.
  - apply Hm in H1. by apply H1.
  - apply Hm in H1. by intros [= <- <- <-].
Qed.
Lemma mcp_ret {A} (a : A) (Q : Post A) c tr : Q (Ok a) c tr → wp (mret a) Q c tr.
Proof. by intros HQ o r c' w' [= <- <- <-]. Qed.
Lemma mcp_fail {A} (e : Stop) (Q : Post A) c tr : Q (Err e) c tr → wp (fail e) Q c tr.
Proof. by intros HQ o r c' w' [= <- <- <-]. Qed.
Lemma wp_raise {A} e (Q : Post A) c tr : Q (Err (Raised e)) c tr → wp (raise e) Q c tr.
Proof. apply mcp_fail. Qed.
Lemma wp_client (Q : Post MClient) c tr : Q (Ok c) c tr → wp client Q c tr.
Proof. by intros HQ o r c' w' [= <- <- <-]. Qed.
Lemma mcp_modify f (Q : Post unit) c tr : Q (Ok tt) (f c) tr → wp (modify f) Q c tr.
Proof. by intros HQ o r c' w' [= <- <- <-]. Qed.
Lemma mcp_note e (Q : Post unit) c tr : Q (Ok tt) c (tr ++ [e]) → wp (note e) Q c tr.
Proof. by intros HQ o r c' w' [= <- <- <-]. Qed.
Lemma wp_read_clock (Q : Post N) c tr : (∀ n, Q (Ok n) c tr) → wp (read_clock out) Q c tr.
Proof. intros HQ o r c' w' [= <- <- <-]. apply HQ. Qed.
Lemma wp_lift_result {A} (x : result Error A) (Q : Post A) c tr :
  (∀ a, x = Ok a → Q (Ok a) c tr) → (∀ e, x = Err e → Q (Err (Raised e)) c tr) → wp (lift_result x) Q c tr.
Proof. intros HO HE. destruct x; [by apply mcp_ret, HO|by apply wp_raise, HE]. Qed.
Lemma wp_guard b e (Q : Post unit) c tr :
  (b = true → Q (Ok tt) c tr) → (b = false → Q (Err (Raised e)) c tr) → wp (guard_ b e) Q c tr.
Proof. intros HO HE. destruct b; [by apply mcp_ret, HO|by apply wp_raise, HE]. Qed.
Lemma wp_perform {A} (f : W → Await A * W) e (Q : Post A) c tr :
  (∀ a, Q (Ok a) c (tr ++ [e (Done a)])) → Q (Err Dropped) c (tr ++ [e Lost]) → wp (perform f e) Q c tr.
Proof.
  intros HD HL o r c' w'. unfold perform. simpl. destruct (f o) as [[a|] o']; intros [= <- <- <-]; simpl; [apply HD|apply HL].
Qed.
Lemma mcp_attempt {A} (m : M A) (Q : Post (result Error A)) c tr :
  wp m (λ r c tr, match r with
                  | Ok a => Q (Ok (Ok a)) c tr
                  | Err (Raised e) => Q (Ok (Err e)) c tr
                  | Err stop => Q (Err stop) c tr
                  end) c tr → wp (attempt m) Q c tr.
Proof.
  intros Hm o r c' w'. unfold attempt. destruct (m (c, mkWorld o tr)) as [[a|[e| |]] [c1 w1]] eqn:H1;
    apply Hm in H1; by intros [= <- <- <-].
Qed.
Lemma wp_discard {A} (m : M A) (Q : Post unit) c tr :
  wp m (λ r c tr, match r with Ok _ => Q (Ok tt) c tr | Err e => Q (Err e) c tr end) c tr →
  wp (discard m) Q c tr.
Proof. intros Hm. apply mcp_bind. eapply mcp_mono; [done|]. intros [a|e] c' tr' HQ; [by apply mcp_ret|done]. Qed.

(** An audit leaves one event when the host has hooks, and fails unless the hook
    accepts it. *)
Lemma wp_audit ctx o (Q : Post unit) c tr :
  (hooks (policy c) = None → Q (Ok tt) c tr) →
  (∀ h, hooks (policy c) = Some h → Q (Ok tt) c (tr ++ [EAudit ctx o (Done (Ok tt))])) →
  (∀ answer stop, answer ≠ Done (Ok tt) → Q (Err stop) c (tr ++ [EAudit ctx o answer])) →
  wp (audit out ctx o) Q c tr.
Proof.
  intros HN HO HE. apply mcp_bind, wp_client. destruct (hooks (policy c)) as [h|] eqn:Hh; [|by apply mcp_ret, HN].
  apply mcp_bind, wp_perform; [|by apply HE]. intros [[]|e]; [by eapply mcp_ret, HO|]. by apply wp_raise, HE.
Qed.
Lemma wp_ask_approval ctx (Q : Post bool) c tr :
  (hooks (policy c) = None → Q (Ok false) c tr) →
  (∀ b, Q (Ok b) c (tr ++ [EApprove ctx (Done (Ok b))])) →
  (∀ answer stop, Q (Err stop) c (tr ++ [EApprove ctx answer])) →
  wp (ask_approval out ctx) Q c tr.
Proof.
  intros HN HO HE. apply mcp_bind, wp_client. destruct (hooks (policy c)) as [h|] eqn:Hh; [|by apply mcp_ret, HN].
  apply mcp_bind, wp_perform; [|by apply HE]. intros [b|e]; [by eapply mcp_ret, HO|]. by apply wp_raise, HE.
Qed.
Lemma wp_ask_break_glass ctx reason (Q : Post bool) c tr :
  Q (Ok false) c tr →
  (∀ why b, reason = Some why → blank why = false → Q (Ok b) c (tr ++ [EBreakGlass ctx why (Done (Ok b))])) →
  (∀ why answer stop, Q (Err stop) c (tr ++ [EBreakGlass ctx why answer])) →
  wp (ask_break_glass out ctx reason) Q c tr.
Proof.
  intros HN HO HE. apply mcp_bind, wp_client. destruct reason as [why|]; [|by apply mcp_ret].
  destruct (hooks (policy c)) as [h|]; [|by apply mcp_ret].
  destruct (blank why) eqn:Hb; simpl; [by apply mcp_ret|].
  apply mcp_bind, wp_perform; [|by apply HE]. intros [b|e]; [by eapply mcp_ret, HO|]. by apply wp_raise, HE.
Qed.
End logic.

(** The rule for the operation at the head of the goal. *)
Ltac wp_step :=
  lazymatch goal with
  | |- wp (_ ≫= _) _ _ _ => apply mcp_bind
  | |- wp (mret _) _ _ _ => apply mcp_ret
  | |- wp (raise _) _ _ _ => apply wp_raise
  | |- wp (fail _) _ _ _ => apply mcp_fail
  | |- wp client _ _ _ => apply wp_client
  | |- wp (modify _) _ _ _ => apply mcp_modify
  | |- wp (note _) _ _ _ => apply mcp_note
  | |- wp (read_clock _) _ _ _ => apply wp_read_clock; intros ?
  | |- wp (lift_result _) _ _ _ => apply wp_lift_result; intros ? ?
  | |- wp (guard_ _ _) _ _ _ => apply wp_guard; intros ?
  | |- wp (perform _ _) _ _ _ => apply wp_perform; [intros ?|]
  | |- wp (attempt _) _ _ _ => apply mcp_attempt
  | |- wp (audit _ _ _) _ _ _ => apply wp_audit; intros *
  | |- wp (ask_approval _ _) _ _ _ => apply wp_ask_approval; intros *
  | |- wp (ask_break_glass _ _ _) _ _ _ => apply wp_ask_break_glass; intros *
  end.

(** ** The gates of a call *)

Section gates.
Context {T H W : Type} (out : Outside T H W).
Notation MClient := (Client (T := T) (H := H)).
Notation Post A := (result Stop A → MClient → list Event → Prop).

(** What asking the host leaves in the trace. *)
Definition asks (e : Event) : bool :=
  match e with EApprove _ _ | EBreakGlass _ _ _ | EAudit _ Denied _ => true | _ => false end.
(** What has been asked when a call goes through. *)
Definition gate (c : MClient) (name : string) (d : ToolDescriptor) (ctx : OperationContext)
    (evs : list Event) : Prop :=
  remote_read_only c d = true ∧
  ∃ broken approved, evs = broken ++ approved ∧
    (if tool_allowed c name then broken = []
     else ∃ why, blank why = false ∧ broken = [EBreakGlass ctx why (Done (Ok true))]) ∧
    approved = (if read_only d then [] else [EApprove ctx (Done (Ok true))]).

Lemma gate_asks c name d ctx evs : gate c name d ctx evs → Forall (λ e, asks e = true) evs.
Proof.
  intros (_ & broken & approved & -> & Hb & ->). apply Forall_app; split.
  - destruct (tool_allowed c name); [by subst|]. destruct Hb as (why & _ & ->). by constructor.
  - destruct (read_only d); by repeat constructor.
Qed.
Lemma wp_deny {A} ctx e (Q : Post A) c tr :
  (∀ stop evs, Forall (λ e, asks e = true) evs → Q (Err stop) c (tr ++ evs)) → wp (deny out ctx e) Q c tr.
Proof.
  intros HQ. unfold deny. wp_step. wp_step; intros; [wp_step; rewrite <-(app_nil_r tr)|wp_step|]; apply HQ;
    by repeat constructor.
Qed.

Lemma wp_authorise d name reason ctx (Q : Post unit) c tr :
  (∀ stop evs, Forall (λ e, asks e = true) evs → Q (Err stop) c (tr ++ evs)) →
  (∀ evs, gate c name d ctx evs → Q (Ok tt) c (tr ++ evs)) →
  wp (authorise out d name reason ctx) Q c tr.
Proof.
  intros HE HO. unfold authorise. do 3 wp_step.
  destruct (remote_read_only c d) eqn:Hr; cbn [negb]; [wp_step|by apply wp_deny].
  assert (∀ broken, Forall (λ e, asks e = true) broken →
    (if tool_allowed c name then broken = []
     else ∃ why, blank why = false ∧ broken = [EBreakGlass ctx why (Done (Ok true))]) →
    wp (if negb (read_only d) then
          approved ← ask_approval out ctx;
          if negb approved then deny out ctx (Policy "tool approval required") else mret tt
        else mret tt) Q c (tr ++ broken)) as Hrest.
  { intros broken Hbs Hb. destruct (read_only d) eqn:Hd; cbn [negb].
    - wp_step. apply HO. split; [done|]. exists broken, []. by rewrite app_nil_r, Hd.
    - wp_step. wp_step.
      + intros _. apply wp_deny. intros stop evs Hevs. rewrite <-app_assoc. apply HE. by apply Forall_app.
      + destruct b; cbn [negb].
        * wp_step. rewrite <-app_assoc. apply HO. split; [done|]. exists broken. eexists. by rewrite Hd.
        * apply wp_deny. intros stop evs Hevs. rewrite <-!app_assoc. apply HE. apply Forall_app; split; [done|].
          by apply Forall_cons.
      + rewrite <-app_assoc. apply HE. apply Forall_app; split; [done|by constructor]. }
  wp_step. destruct (tool_allowed c name) eqn:Ht; cbn [negb].
  { wp_step. rewrite <-(app_nil_r tr). by apply Hrest. }
  wp_step. wp_step.
  - by apply wp_deny.
  - intros _ Hb. destruct b; cbn [negb].
    + wp_step. apply Hrest; [by constructor|]. by eexists.
    + apply wp_deny. intros stop evs Hevs. rewrite <-app_assoc. apply HE. by apply Forall_cons.
  - apply HE. by constructor.
Qed.
End gates.
