(* ===== verification/McpOps.v ===== *)
(** * McpOps: what is kept by every operation of a client

    An invariant of the client and its trace is kept by everything a host can do
    when it is kept by the few steps that talk to the outside ([Keeper]).  The
    rest of the operations is read here once for all invariants. *)

From S2P Require Import Prelude Text.
From S2P Require Import McpConfig McpContent McpNames McpClient McpLogic.

Section ops.
Context {T H W : Type} (out : Outside T H W).
Notation MClient := (Client (T := T) (H := H)).
Notation M := (SE (MClient * World W) Stop).
Notation Post A := (result Stop A → MClient → list Event → Prop).
Implicit Types (c : MClient) (tr : list Event).

(** An answer to a request of [method] is in the trace, and so are the items of a
    list in it. *)
Definition answered tr (method : string) (v : Json) : Prop :=
  ∃ server params, ERequest server method params (Done (Some (Ok v))) ∈ tr.
Definition item_of tr (method field : string) (item : Json) : Prop :=
  ∃ v page, answered tr method v ∧ get v field ≫= as_array = Some page ∧ item ∈ page.
(** A tool the server has listed, marked as reading only if it said so and the
    configuration trusts it to. *)
Definition listed c tr (d : ToolDescriptor) : Prop :=
  ∃ item, item_of tr "tools/list" "tools" item ∧ required_string item "name" = Ok (tool_name d)
          ∧ server_name d = server c
          ∧ (read_only d = true → trust_read_only_hint (config c) = true ∧ read_only_hint item = Ok true).

Lemma answered_app tr tr' method v : answered tr method v → answered (tr ++ tr') method v.
Proof. intros (s & p & Hin). exists s, p. apply elem_of_app. by left. Qed.
Lemma item_of_app tr tr' method field item : item_of tr method field item → item_of (tr ++ tr') method field item.
Proof. intros (v & page & Hv & ?). exists v, page. split; [by apply answered_app|done]. Qed.
Lemma listed_app c tr tr' d : listed c tr d → listed c (tr ++ tr') d.
Proof. intros (item & Hi & ?). exists item. split; [by apply item_of_app|done]. Qed.

(** The catalogue holds what the answers listed, each tool once. *)
Lemma add_tool_spec c tr ts names qualified item acc :
  add_tool out c (ts, names, qualified) item = Ok acc →
  item_of tr "tools/list" "tools" item → Forall (listed c tr) ts →
  Forall (listed c tr) acc.1.1.
Proof.
  intros H1 Hitem Hts. unfold add_tool in H1.
  apply bind_Ok in H1 as (name & Hname & H1). apply bind_Ok in H1 as (desc & _ & H1).
  apply bind_Ok in H1 as (hint & Hhint & H1). apply bind_Ok in H1 as ([] & _ & H1).
  assert (∀ q d, listed c tr (mkToolDescriptor q (server c) name desc
     (sanitize_description out (server c) name desc) d (trust_read_only_hint (config c) && hint))) as Hd.
  { intros q d. exists item. split_and!; [done..|]. simpl. intros [? ->]%andb_true_iff. done. }
  destruct (offered _ _).
  - destruct (ensure_unique_tool_name _ _ _) as [u qs]. apply bind_Ok in H1 as (q & _ & [= <-]).
    apply Forall_app; split; [done|]. apply Forall_singleton. apply Hd.
  - injection H1 as <-. apply Forall_app; split; [done|]. apply Forall_singleton. apply Hd.
Qed.
Lemma add_tools_spec c tr items acc acc' :
  foldM (add_tool out c) acc items = Ok acc' →
  Forall (item_of tr "tools/list" "tools") items → Forall (listed c tr) acc.1.1 →
  Forall (listed c tr) acc'.1.1.
Proof.
  revert acc. induction items as [|item items IH]; intros acc; simpl; [by intros [= ->]|].
  destruct (add_tool out c acc item) as [acc1|] eqn:H1; [|done]. intros H2 [Hi His]%Forall_cons Hacc.
  eapply IH; [done..|]. destruct acc as [[ts ns] qs]. by eapply add_tool_spec.
Qed.

(** ** Keepers *)

Definition keeps {A} (I : MClient → list Event → Prop) (m : M A) : Prop :=
  ∀ c tr, I c tr → wp m (λ _, I) c tr.
Definition plain_method (method : string) : Prop := method ≠ "initialize" ∧ method ≠ "tools/call".

(** What a request of an established session gives. *)
Definition request_post (I : MClient → list Event → Prop) (method : string) c tr : Post Json :=
  λ r c' tr', I c' tr' ∧ tr `prefix_of` tr' ∧ ∀ v, r = Ok v → c' = c ∧ answered tr' method v.

Class Keeper (I : MClient → list Event → Prop) : Prop := {
  keeps_request c tr method params :
    I c tr → state c = Ready → plain_method method →
    wp (request out method params) (request_post I method c tr) c tr;
  keeps_initialize : keeps I (initialize out);
  keeps_reconnect fresh : keeps I (reconnect out fresh);
  keeps_close : keeps I (close out);
  keeps_call name arguments reason : keeps I (call_tool_inner out name arguments reason);
  keeps_resources c tr rs at_ : I c tr → I (set_resources rs at_ c) tr;
  keeps_prompts c tr ps at_ : I c tr → I (set_prompts ps at_ c) tr;
  keeps_ttl c tr ttl : I c tr → I (set_ttl ttl c) tr;
  keeps_tools c tr ts : I c tr → Forall (listed c tr) ts → I (set_tools (Some ts) c) tr;
}.

Section kept.
Context (I : MClient → list Event → Prop) `{Hkeeper : Keeper I}.

Lemma ready_state c : ready out c = Ok tt → state c = Ready.
Proof.
  unfold ready. intros H1. apply bind_Ok in H1 as (? & _ & H1).
  by apply ensure_Ok, bool_decide_eq_true in H1.
Qed.

(** Closes a goal about the end of an operation. *)
Ltac kept := repeat (first [done | eassumption
  | apply keeps_resources | apply keeps_prompts | apply keeps_ttl]).
Ltac to_ready := do 2 wp_step; wp_step; wp_step; [|by kept];
  match goal with Hr : ready out ?c = Ok ?u |- _ => destruct u; pose proof (ready_state c Hr) as Hready end.

Definition pages_post (method field : string) c tr : Post (list Json) := λ r c' tr',
  I c' tr' ∧ tr `prefix_of` tr' ∧ ∀ items, r = Ok items → c' = c ∧ Forall (item_of tr' method field) items.

Lemma pages_loop_kept left method field cursor seen items c tr :
  plain_method method → I c tr → state c = Ready → Forall (item_of tr method field) items →
  wp (pages_loop out left method field cursor seen items) (pages_post method field c tr) c tr.
Proof.
  intros Hm. revert cursor seen items c tr.
  induction left as [|left IH]; intros cursor seen items c tr HI Hready Hitems; cbn [pages_loop]; [by wp_step|].
  do 3 wp_step. eapply mcp_mono; [by eapply keeps_request|].
  intros [v|stop] c1 tr1 (HI1 & Htr & Hv); [|done]. destruct (Hv v eq_refl) as [-> Hans].
  do 2 wp_step; [|done]. rewrite ok_or_Ok in *. do 2 wp_step; [|done].
  assert (Forall (item_of tr1 method field) (items ++ a)) as Hitems1.
  { apply Forall_app; split.
    - destruct Htr as [k ->]. eapply Forall_impl; [done|]. intros. by apply item_of_app.
    - apply Forall_forall. intros item Hin. by exists v, a. }
  destruct (get v "nextCursor") as [[| | | |next| |]|]; try by wp_step.
  - destruct (blank next); [wp_step; split_and!; [done..|by intros ? [= <-]]|].
    destruct (bool_decide (_ ∈ seen)); cbn [negb]; [by wp_step|].
    eapply mcp_mono; [by apply IH|]. intros r c2 tr2 (HI2 & Htr2 & Hr). split_and!; [done|by etrans|done].
  - wp_step. split_and!; [done..|]. by intros ? [= <-].
Qed.
Lemma pages_kept method field c tr :
  plain_method method → I c tr → wp (pages out method field) (pages_post method field c tr) c tr.
Proof. intros Hm HI. unfold pages. to_ready. by apply pages_loop_kept. Qed.

Lemma load_tools_kept : keeps I (load_tools out).
Proof.
  intros c tr HI. unfold load_tools. do 2 wp_step. destruct (tools c) as [ts|]; [by wp_step|].
  wp_step. eapply mcp_mono; [by apply pages_kept|]. intros [items|stop] c1 tr1 (HI1 & _ & Hitems); [|done].
  destruct (Hitems items eq_refl) as [-> Hlisted]. do 3 wp_step. wp_step; [|done].
  destruct a as [[ts names] qs]. do 3 wp_step. apply keeps_tools; [done|].
  by apply (add_tools_spec _ _ _ _ _ H0).
Qed.
Lemma list_tools_kept : keeps I (list_tools out).
Proof.
  intros c tr HI. unfold list_tools. to_ready. case_match; [by wp_step|].
  wp_step. eapply mcp_mono; [by apply load_tools_kept|]. intros [ts|] c1 tr1 HI1; [|done]. by do 3 wp_step.
Qed.

Lemma reload_resources_kept : keeps I (reload_resources out).
Proof.
  intros c tr HI. unfold reload_resources. do 4 wp_step. wp_step. eapply mcp_mono; [apply pages_kept; [done|by kept]|].
  intros [items|stop] c1 tr1 (HI1 & _ & Hitems); [|done]. destruct (Hitems items eq_refl) as [-> _].
  do 3 wp_step. wp_step; [|done]. do 3 wp_step. by kept.
Qed.
Lemma list_resources_kept : keeps I (list_resources out).
Proof.
  intros c tr HI. unfold list_resources. to_ready. case_match; [by wp_step|]. wp_step.
  eapply (mcp_mono _ (λ _, I)); [|intros [l|] c1 tr1 HI1; [|done]; by do 3 wp_step].
  unfold load_resources. do 4 wp_step.
  destruct (resources c), (expired _ _ _); try by wp_step. all: by apply reload_resources_kept.
Qed.
Lemma reload_prompts_kept : keeps I (reload_prompts out).
Proof.
  intros c tr HI. unfold reload_prompts. do 4 wp_step. wp_step. eapply mcp_mono; [apply pages_kept; [done|by kept]|].
  intros [items|stop] c1 tr1 (HI1 & _ & Hitems); [|done]. destruct (Hitems items eq_refl) as [-> _].
  do 3 wp_step. wp_step; [|done]. do 3 wp_step. by kept.
Qed.
Lemma list_prompts_kept : keeps I (list_prompts out).
Proof.
  intros c tr HI. unfold list_prompts. to_ready. case_match; [by wp_step|]. wp_step.
  eapply (mcp_mono _ (λ _, I)); [|intros [l|] c1 tr1 HI1; [|done]; by do 3 wp_step].
  unfold load_prompts. do 4 wp_step.
  destruct (prompts c), (expired _ _ _); try by wp_step. all: by apply reload_prompts_kept.
Qed.

(** [resources/read] and [prompts/get]. *)
Lemma request_kept method params c tr (f : Json → M Json) :
  I c tr → state c = Ready → plain_method method →
  (∀ v c tr, I c tr → wp (f v) (λ _, I) c tr) →
  wp (v ← request out method params; f v) (λ _, I) c tr.
Proof.
  intros HI Hready Hm Hf. wp_step. eapply mcp_mono; [by apply keeps_request|].
  intros [v|stop] c1 tr1 (HI1 & _); [by apply Hf|done].
Qed.
Lemma read_resource_kept uri : keeps I (read_resource out uri).
Proof.
  intros c tr HI. unfold read_resource. to_ready. do 2 wp_step; [|done].
  apply request_kept; [done..|]. intros v c1 tr1 HI1. do 2 wp_step; by try wp_step.
Qed.
Lemma get_prompt_kept name arguments : keeps I (get_prompt out name arguments).
Proof.
  intros c tr HI. unfold get_prompt. to_ready. do 2 wp_step; [|done]. do 2 wp_step; [|done].
  do 2 wp_step; [|done]. do 2 wp_step; [|done].
  apply request_kept; [done..|]. intros v c1 tr1 HI1. do 2 wp_step; by try wp_step.
Qed.

(** ** Whatever a host does *)

Lemma run_op_kept op : keeps I (run_op out op).
Proof.
  destruct op; intros c tr HI; simpl.
  all: first [apply wp_discard; eapply (mcp_mono _ (λ _, I)); [|by intros [] ]|idtac].
  - by apply keeps_initialize.
  - by apply keeps_reconnect.
  - by apply keeps_close.
  - by apply list_tools_kept.
  - by apply keeps_call.
  - by apply list_resources_kept.
  - by apply read_resource_kept.
  - by apply list_prompts_kept.
  - by apply get_prompt_kept.
  - wp_step. unfold set_discovery_cache_ttl, invalidate_discovery. by kept.
  - wp_step. unfold invalidate_discovery. by kept.
Qed.
Lemma run_ops_kept ops s : I s.1 (trace s.2) → I (run_ops out ops s).1 (trace (run_ops out ops s).2).
Proof.
  unfold run_ops. revert s. induction ops as [|op ops IH]; intros s HI; simpl; [done|]. apply IH.
  destruct s as [c [o tr]]. destruct (run_op out op (c, mkWorld o tr)) as [r [c' w']] eqn:Hop. simpl.
  by apply (run_op_kept op c tr HI o r).
Qed.
End kept.
End ops.
