(* ===== verification/McpSession.v ===== *)
(** * McpSession: a session is never used again after an uncertain answer

    The protocol of a session as an automaton over the trace, and the proof that
    whatever a host does with a client, the trace is a run of it. *)

From S2P Require Import Prelude Text.
From S2P Require Import McpConfig McpContent McpNames McpClient McpLogic McpOps.

(** A session is opened, negotiates, is established; an answer that does not tell
    what happened ends it, and only a fresh transport opens another. *)
Inductive Phase := Opened | Negotiating | Established | Dead.
#[export] Instance Phase_eq_dec : EqDecision Phase.
Proof. solve_decision. Defined.

Section session.
Context {T H W : Type} (out : Outside T H W).
Notation MClient := (Client (T := T) (H := H)).
Notation Post A := (result Stop A → MClient → list Event → Prop).
Implicit Types (c : MClient) (tr : list Event).

(** What a tool may answer: an array of content that passes the checks of [McpContent], and a flag
    that is a boolean when there is one. *)
Definition tool_answer (v : Json) : bool :=
  match get v "content", get v "isError" with
  | Some (JArray _), (None | Some (JBool _)) => is_ok (validate_call_result (decode_base64 out) v)
  | _, _ => false
  end.
(** The server is known to have answered, or refused, this very request: a value within the bound
    on messages, which is a tool's answer when a tool was called, or a refusal of the server or of
    the transport's policy.  Not a future that was dropped, a timeout, a transport that failed or
    was closed, nor a value of another shape. *)
Definition conclusive c (method : string) (answer : Await (option (result Error Json))) : bool :=
  match answer with
  | Done (Some (Ok v)) =>
      (N.of_nat (length (to_vec out v)) <=? max_message_bytes (limits c))%N
      && (if String.eqb method "tools/call" then tool_answer v else true)
  | Done (Some (Err (Remote _))) | Done (Some (Err (Policy _))) => true
  | Done (Some (Err _)) | Done None | Lost => false
  end.
Definition accepted (answer : Await (option (result Error Json))) : bool :=
  match answer with Done (Some (Ok _)) => true | _ => false end.

Definition session_step c (p : Phase) (e : Event) : option Phase :=
  match e with
  | ERequest _ method _ answer =>
      if String.eqb method "initialize" then
        match p with
        | Opened => Some (if conclusive c method answer
                          then if accepted answer then Negotiating else Opened else Dead)
        | _ => None
        end
      else
        match p with
        | Established => Some (if conclusive c method answer then Established else Dead)
        | _ => None
        end
  | ENotify _ _ answer =>
      match p, answer with
      | Negotiating, Done (Some (Ok _)) => Some Established
      | Negotiating, _ => Some Dead
      | _, _ => None
      end
  | EClose _ _ => Some Dead
  | EOpen _ => match p with Dead => Some Opened | _ => None end
  | EAudit _ (Completed | OutcomeFailed | OutcomeUnknown) answer =>
      Some (match answer with Done (Ok _) => p | _ => Dead end)
  | EAudit _ _ _ | EApprove _ _ | EBreakGlass _ _ _ => Some p
  end.
Fixpoint session_from c (p : Phase) (tr : list Event) : option Phase :=
  match tr with
  | [] => Some p
  | e :: tr => match session_step c p e with Some p => session_from c p tr | None => None end
  end.
Definition session c (tr : list Event) : option Phase := session_from c Opened tr.

Lemma session_app c tr tr' : session c (tr ++ tr') = session c tr ≫= λ p, session_from c p tr'.
Proof.
  unfold session. generalize Opened. induction tr as [|e tr IH]; intros p; simpl; [done|].
  destruct (session_step c p e); [apply IH|done].
Qed.
Lemma session_snoc c tr e p q :
  session c tr = Some p → session_step c p e = Some q → session c (tr ++ [e]) = Some q.
Proof. intros Hp Hq. rewrite session_app, Hp. simpl. by rewrite Hq. Qed.

(** ** What an exchange leaves behind *)

Definition logged c (ctx : OperationContext) (o : AuditOutcome) : list Event :=
  if hooks (policy c) then [EAudit ctx o (Done (Ok tt))] else [].
Definition raised {A} (r : result Error A) : result Stop A :=
  match r with Ok a => Ok a | Err e => Err (Raised e) end.

Lemma set_state_same c s s' : set_state s (set_state s' c) = set_state s c.
Proof. done. Qed.
Lemma set_state_id c : set_state (state c) c = c.
Proof. by destruct c. Qed.

Lemma logged_none c ctx o : hooks (policy c) = None → logged c ctx o = [].
Proof. unfold logged. by intros ->. Qed.
Lemma logged_some c ctx o h : hooks (policy c) = Some h → logged c ctx o = [EAudit ctx o (Done (Ok tt))].
Proof. unfold logged. by intros ->. Qed.

Lemma wp_settle method ctx (Q : Post Json) c tr (result : result Error Json) (reusable : bool) :
  Q (raised result) (if reusable then c else set_state Failed c) (tr ++ logged c ctx (outcome_of result)) →
  (∀ stop a, a ≠ Done (Ok tt) → Q (Err stop) (set_state Failed c) (tr ++ [EAudit ctx (outcome_of result) a])) →
  wp (settle out method ctx (state c) result reusable) Q (set_state Failed c) tr.
Proof.
  intros Hok Hbad. unfold settle. do 2 wp_step.
  assert (∀ tr', tr' = tr ++ logged c ctx (outcome_of result) →
    wp ((if reusable then modify (set_state (state c)) else mret tt : SE (MClient * World W) Stop unit)
          ≫= λ _, lift_result result) Q (set_state Failed c) tr') as Hend.
  { intros tr' ->. wp_step. destruct reusable; wp_step; wp_step; subst result; try done.
    all: by rewrite set_state_same, set_state_id. }
  do 3 wp_step; simpl policy in *; intros Hx.
  - apply Hend. by rewrite logged_none, app_nil_r.
  - apply Hend. by erewrite logged_some.
  - destruct stop as [e| |]; [|by apply Hbad..]. cbn [negb is_ok]. do 3 wp_step. by apply Hbad.
Qed.
Lemma wp_dispatch method params ctx (Q : Post Json) c tr :
  Q (Err Dropped) (set_state Failed c) (tr ++ [ERequest (server c) method params Lost]) →
  (∀ answer result (reusable : bool), judge out c method answer = (result, reusable) →
   let tr' := tr ++ [ERequest (server c) method params (Done answer)] in
   Q (raised result) (if reusable then c else set_state Failed c) (tr' ++ logged c ctx (outcome_of result)) ∧
   ∀ stop a, a ≠ Done (Ok tt) → Q (Err stop) (set_state Failed c) (tr' ++ [EAudit ctx (outcome_of result) a])) →
  wp (dispatch out method params ctx) Q c tr.
Proof.
  intros Hlost Hdone. unfold dispatch. do 5 wp_step. wp_step; [|done].
  destruct (judge out c method _) as [res reusable] eqn:Hj. destruct (Hdone _ _ _ Hj). by apply wp_settle.
Qed.
Lemma wp_exchange method params ctx (Q : Post Json) c tr :
  (∀ e, Q (Err (Raised e)) c tr) →
  (∀ stop a, a ≠ Done (Ok tt) → Q (Err stop) c (tr ++ [EAudit ctx Attempted a])) →
  (state c ≠ Failed → state c ≠ Closed_ →
   Q (Err Dropped) (set_state Failed c) ((tr ++ logged c ctx Attempted) ++ [ERequest (server c) method params Lost])) →
  (state c ≠ Failed → state c ≠ Closed_ → ∀ answer result reusable,
   judge out c method answer = (result, reusable) →
   let tr' := (tr ++ logged c ctx Attempted) ++ [ERequest (server c) method params (Done answer)] in
   Q (raised result) (if reusable then c else set_state Failed c) (tr' ++ logged c ctx (outcome_of result)) ∧
   ∀ stop a, a ≠ Done (Ok tt) → Q (Err stop) (set_state Failed c) (tr' ++ [EAudit ctx (outcome_of result) a])) →
  wp (exchange out method params ctx) Q c tr.
Proof.
  intros Hrefused Hlog Hlost Hdone. unfold exchange. do 2 wp_step. do 2 wp_step; [|done].
  do 2 wp_step; [|done]. do 2 wp_step; [|done].
  assert (state c ≠ Failed ∧ state c ≠ Closed_) as [Hf Hc].
  { case_bool_decide; [done|]. split; intros ?; tauto. }
  assert (wp (dispatch out method params ctx) Q c (tr ++ logged c ctx Attempted)) as Hrest.
  { apply wp_dispatch; [by apply Hlost|by apply Hdone]. }
  do 2 wp_step; [| |by apply Hlog]; intros Hx.
  - by rewrite logged_none, app_nil_r in Hrest.
  - by erewrite logged_some in Hrest.
Qed.

(** ** The trace is a run of the protocol *)

(** The limits, which judge an answer, are those of the client at the start. *)
Context (c0 : MClient).

Definition following c tr : Prop :=
  limits c = limits c0 ∧
  ∃ p, session c0 tr = Some p ∧ (state c = New → p = Opened) ∧ (state c = Ready → p = Established).

Lemma session_logged c ctx o tr p :
  session c0 tr = Some p → session c0 (tr ++ logged c ctx o) = Some p.
Proof.
  intros Hp. unfold logged. destruct (hooks (policy c)); [|by rewrite app_nil_r].
  eapply session_snoc; [done|]. by destruct o.
Qed.
Lemma session_unlogged ctx o a tr p :
  session c0 tr = Some p → ∃ q, session c0 (tr ++ [EAudit ctx o a]) = Some q ∧ (o = Attempted ∨ o = Denied → q = p).
Proof.
  intros Hp. destruct o; (eexists; split; [by eapply session_snoc|]); naive_solver.
Qed.
Lemma malformed_tool_answer method v :
  malformed_answer out method v = if String.eqb method "tools/call" then negb (tool_answer v) else false.
Proof.
  unfold malformed_answer, tool_answer. destruct (String.eqb _ _); simpl; [|done].
  by destruct (get v "content") as [[]|], (get v "isError") as [[]|].
Qed.
Lemma judge_reusable c method answer r reusable :
  limits c = limits c0 → judge out c method answer = (r, reusable) →
  conclusive c0 method (Done answer) = reusable ∧
  (reusable = true → accepted (Done answer) = is_ok r) ∧ (∀ v, r = Ok v → answer = Some (Ok v) ∧ reusable = true).
Proof.
  intros Hl Hj. destruct answer as [[v|[]]|]; [|injection Hj as <- <-; naive_solver..].
  assert (conclusive c0 method (Done (Some (Ok v))) = negb (too_long out c v || malformed_answer out method v)) as ->.
  { unfold conclusive, too_long. rewrite Hl, malformed_tool_answer, negb_orb, N.leb_antisym.
    destruct (String.eqb _ _); [by rewrite negb_involutive|done]. }
  unfold judge in Hj. destruct (_ || _); injection Hj as <- <-; naive_solver.
Qed.

Definition exchanged method params c tr p : Post Json := λ r c' tr',
  tr `prefix_of` tr' ∧
  ∃ p', session c0 tr' = Some p' ∧ (∀ v, r = Ok v → c' = c ∧ answered tr' method v) ∧
  (c' = set_state Failed c ∨
   c' = c ∧ (is_ok r = false ∧ p' = p ∨
             ∃ answer, session_step c0 p (ERequest (server c) method params answer) = Some p'
                       ∧ conclusive c0 method answer = true ∧ accepted answer = is_ok r)).
Lemma exchange_session method params ctx c tr p :
  limits c = limits c0 → session c0 tr = Some p →
  (state c ≠ Failed → state c ≠ Closed_ →
   ∀ answer, is_Some (session_step c0 p (ERequest (server c) method params answer))) →
  wp (exchange out method params ctx) (exchanged method params c tr p) c tr.
Proof.
  intros Hl Hp Hstep. apply wp_exchange.
  - intros e. split; [done|]. exists p. naive_solver.
  - intros stop a _. destruct (session_unlogged ctx Attempted a tr p Hp) as (q & Hq & Hqp).
    split; [by apply prefix_app_r|]. exists q. naive_solver.
  - intros Hf Hc. split; [by apply prefix_app_r, prefix_app_r|].
    destruct (Hstep Hf Hc Lost) as [q Hq]. exists q. split; [|naive_solver].
    by eapply session_snoc; [apply session_logged|].
  - intros Hf Hc answer r reusable Hj. destruct (Hstep Hf Hc (Done answer)) as [q Hq].
    destruct (judge_reusable _ _ _ _ _ Hl Hj) as (Hcon & Hacc & Hok). intros tr'.
    assert (session c0 tr' = Some q) as Hq' by (by eapply session_snoc; [apply session_logged|]).
    assert (tr `prefix_of` tr') as Hpre by by apply prefix_app_r, prefix_app_r.
    split.
    + split; [by apply prefix_app_r|]. exists q. split_and!; [by apply session_logged| |].
      * intros v Hv. destruct r as [v'|]; [injection Hv as ->|done]. destruct (Hok v eq_refl) as [-> ->].
        split; [done|]. apply answered_app. exists (server c), params. apply elem_of_app. right. by left.
      * destruct reusable; [right|by left]. split; [done|]. right. exists (Done answer).
        split_and!; [done..|]. rewrite Hacc by done. by destruct r.
    + intros stop a _. destruct (session_unlogged ctx (outcome_of r) a tr' q Hq') as (q' & Hq2 & _).
      split; [by apply prefix_app_r|]. exists q'. naive_solver.
Qed.

Lemma following_failed c tr p : limits c = limits c0 → session c0 tr = Some p → following (set_state Failed c) tr.
Proof. intros Hl Hp. split; [done|]. by exists p. Qed.
Lemma following_session c tr : following c tr → ∃ p, session c0 tr = Some p.
Proof. intros (_ & p & Hp & _). by exists p. Qed.
(** Requests of an established session, tool calls included. *)
Lemma exchange_following method params ctx c tr :
  following c tr → state c = Ready → method ≠ "initialize" →
  wp (exchange out method params ctx) (request_post following method c tr) c tr.
Proof.
  intros (Hl & p & Hp & _ & Hpe) Hready Hm. specialize (Hpe Hready) as ->.
  assert (String.eqb method "initialize" = false) as Hm' by by apply String.eqb_neq.
  eapply mcp_mono; [apply exchange_session; [done..|]|].
  - intros _ _ answer. simpl. rewrite Hm'. by eexists.
  - intros r c' tr' (Hpre & p' & Hp' & Hok & Hc'). split_and!; [|done..].
    destruct Hc' as [->|[-> Hcase]]; [by eapply following_failed|]. split; [done|]. exists p'.
    split_and!; [done|congruence|]. intros _.
    destruct Hcase as [[_ ->]|(answer & Hs & Hc & _)]; [done|]. simpl in Hs. rewrite Hm', Hc in Hs. by injection Hs.
Qed.
Lemma following_cache c tr c' : limits c' = limits c → state c' = state c → following c tr → following c' tr.
Proof. intros Hl Hs (Hl' & p & ?). split; [congruence|]. exists p. by rewrite Hs. Qed.
Lemma following_asks c tr evs : Forall (λ e, asks e = true) evs → following c tr → following c (tr ++ evs).
Proof.
  intros Hevs (Hl & p & Hp & Hs). split; [done|]. exists p. split; [|done]. clear Hs.
  revert tr Hp. induction Hevs as [|e evs He Hevs IH]; intros tr Hp; [by rewrite app_nil_r|].
  change (e :: evs) with ([e] ++ evs). rewrite app_assoc. apply IH. eapply session_snoc; [done|].
  by destruct e as [| | | | | |? []].
Qed.
Lemma call_following name arguments reason : keeps following (call_tool_inner out name arguments reason).
Proof.
  intros c tr Hf. unfold call_tool_inner. do 3 wp_step. wp_step; [|done].
  match goal with Hr : ready out c = Ok ?u |- _ => destruct u; pose proof (ready_state out c Hr) as Hready end.
  do 2 wp_step; [|done]. do 2 wp_step; [|done]. wp_step. apply wp_authorise.
  - intros. by apply following_asks.
  - intros evs Hg. eapply mcp_mono; [apply exchange_following; [|done..]|].
    + apply following_asks; [by eapply gate_asks|done].
    + by intros r c' tr' [? _].
Qed.

(** ** Opening and closing *)

Lemma initialize_following : keeps following (initialize out).
Proof.
  intros c tr Hf. unfold initialize. do 3 wp_step. wp_step; [|done].
  match goal with Hn : bool_decide (state c = New) = true |- _ => apply bool_decide_eq_true in Hn as Hnew end.
  destruct Hf as (Hl & p & Hp & Hpn & _). specialize (Hpn Hnew) as ->. wp_step. unfold request. do 2 wp_step.
  eapply mcp_mono; [apply exchange_session; [done..|]|].
  { intros _ _ answer. by eexists. }
  intros r c' tr' (Hpre & p' & Hp' & Hok & Hc').
  assert (limits c' = limits c0) as Hl' by (destruct Hc' as [->|[-> _]]; done).
  destruct r as [v|stop].
  - destruct (Hok v eq_refl) as [-> _].
    assert (p' = Negotiating) as ->.
    { destruct Hc' as [Heq|[_ [[? _]|(answer & Hs & Hc & Ha)]]]; [|done|].
      - apply (f_equal state) in Heq. simpl in Heq. congruence.
      - simpl in Hs. rewrite Hc, Ha in Hs. by injection Hs. }
    do 3 wp_step. wp_step; [|by eapply following_failed]. do 2 wp_step.
    + destruct a0 as [[[]|e]|].
      1: do 5 wp_step; split; [done|]; exists Established; split_and!; [by eapply session_snoc|done|done].
      all: wp_step; (eapply following_failed; [done|]; by eapply session_snoc).
    + eapply following_failed; [done|]. by eapply session_snoc.
  - destruct Hc' as [->|[-> Hcase]]; [by eapply following_failed|]. split; [done|].
    exists p'. split_and!; [done| |congruence]. intros _.
    destruct Hcase as [[_ ->]|(answer & Hs & Hc & Ha)]; [done|]. simpl in Hs. rewrite Hc, Ha in Hs. by injection Hs.
Qed.
Lemma close_following : keeps following (close out).
Proof.
  intros c tr (Hl & p & Hp & _). unfold close. do 4 wp_step. wp_step.
  assert (∀ a, following (set_state Closed_ c) (tr ++ [EClose (server c) a])) as Hc.
  { intros a. split; [done|]. exists Dead. split_and!; [by eapply session_snoc|done|done]. }
  wp_step; [|apply Hc]. destruct a as [r|]; [wp_step; apply Hc|]. wp_step. apply Hc.
Qed.
Lemma reconnect_following fresh : keeps following (reconnect out fresh).
Proof.
  intros c tr (Hl & p & Hp & _). unfold reconnect. do 4 wp_step. wp_step. wp_step.
  - do 4 wp_step. apply initialize_following. split; [done|]. exists Opened. split_and!; [|done..].
    eapply session_snoc; [by eapply session_snoc|done].
  - split; [done|]. exists Dead. split_and!; [by eapply session_snoc|done|done].
Qed.

#[export] Instance following_keeper : Keeper out following.
Proof.
  split.
  - intros c tr method params Hf Hready [Hm _]. unfold request. do 2 wp_step. by apply exchange_following.
  - apply initialize_following.
  - apply reconnect_following.
  - apply close_following.
  - apply call_following.
  - intros *. by apply following_cache.
  - intros *. by apply following_cache.
  - intros *. by apply following_cache.
  - intros * Hf _. by eapply following_cache.
Qed.
End session.
