(* ===== verification/McpAuth.v ===== *)
(** * McpAuth: a tool is called only when it may be

    Whatever a host does with a client, every [tools/call] on the wire is for a
    tool the server has listed, let through by the policies and approved, each time
    anew, by the host. *)

From S2P Require Import Prelude Text.
From S2P Require Import McpConfig McpContent McpNames McpClient McpLogic McpOps McpSession.

Section auth.
Context {T H W : Type} (out : Outside T H W).
Notation MClient := (Client (T := T) (H := H)).
Implicit Types (c : MClient) (tr : list Event).

(** What precedes a call of a tool: the questions asked about this very call, and
    the record that it is attempted. *)
Definition authorised_call c tr (s : string) (params : Json) : Prop :=
  s = server c ∧
  ∃ past evs name arguments d,
    let ctx := context out c "tools/call" (Some name) arguments in
    tr = past ++ evs ++ logged c ctx Attempted ∧ params = call_params name arguments ∧
    is_object arguments = true ∧ tool_name d = name ∧ listed c past d ∧ gate c name d ctx evs.
Definition authorised c tr : Prop := ∀ pre s params answer post,
  tr = pre ++ ERequest s "tools/call" params answer :: post → authorised_call c pre s params.

Definition calls (e : Event) : bool :=
  match e with ERequest _ method _ _ => String.eqb method "tools/call" | _ => false end.

Lemma calls_snoc c tr e :
  authorised c tr → (∀ s params answer, e = ERequest s "tools/call" params answer → authorised_call c tr s params) →
  authorised c (tr ++ [e]).
Proof.
  intros Htr He pre s params answer post. destruct post as [|e' post _] using rev_ind.
  - intros [-> ->]%app_inj_tail. by eapply He.
  - rewrite app_comm_cons, app_assoc. intros [-> _]%app_inj_tail. by eapply Htr.
Qed.
Lemma authorised_app c tr evs : authorised c tr → Forall (λ e, calls e = false) evs → authorised c (tr ++ evs).
Proof.
  intros Htr Hevs. revert tr Htr. induction Hevs as [|e evs He Hevs IH]; intros tr Htr; [by rewrite app_nil_r|].
  change (e :: evs) with ([e] ++ evs). rewrite app_assoc. apply IH, calls_snoc; [done|]. by intros * ->.
Qed.
Lemma asks_calls evs : Forall (λ e, asks e = true) evs → Forall (λ e, calls e = false) evs.
Proof. intros Hevs. eapply Forall_impl; [done|]. by intros []. Qed.
Lemma logged_calls c ctx o : Forall (λ e, calls e = false) (logged c ctx o).
Proof. unfold logged. destruct (hooks _); by repeat constructor. Qed.

(** The parts of a client that its operations never change. *)
Definition same c c' : Prop := server c' = server c ∧ config c' = config c ∧ policy c' = policy c.

Context (c0 : MClient).

Definition authorising c tr : Prop :=
  same c0 c ∧ authorised c0 tr ∧ ∀ ts, tools c = Some ts → Forall (listed c0 tr) ts.

Lemma authorising_cache c tr c' :
  same c c' → (∀ ts, tools c' = Some ts → tools c = Some ts) → authorising c tr → authorising c' tr.
Proof.
  intros (Hs & Hc & Hp) Ht ((? & ? & ?) & Ha & Hl). split_and!; [|done|by eauto]. 
  split_and!; congruence.
Qed.
Lemma authorising_app c tr evs :
  Forall (λ e, calls e = false) evs → authorising c tr → authorising c (tr ++ evs).
Proof.
  intros He (Hs & Ha & Hl). split_and!; [done|by apply authorised_app|].
  intros ts Hts. eapply Forall_impl; [by apply Hl|]. intros. by apply listed_app.
Qed.
Lemma authorising_state c tr s : authorising c tr → authorising (set_state s c) tr.
Proof. by apply authorising_cache. Qed.
Lemma authorising_request c tr s params answer :
  authorising c tr → authorised_call c0 tr s params → authorising c (tr ++ [ERequest s "tools/call" params answer]).
Proof.
  intros (Hs & Ha & Hl) Hc. split_and!; [done| |].
  - apply calls_snoc; [done|]. by intros * [= <- <- <-].
  - intros ts Hts. eapply Forall_impl; [by apply Hl|]. intros. by apply listed_app.
Qed.

Lemma same_context c op tool arguments : same c0 c → context out c op tool arguments = context out c0 op tool arguments.
Proof. intros (Hs & _ & Hp). unfold context. by rewrite Hs, Hp. Qed.
Lemma same_logged c ctx o : same c0 c → logged c ctx o = logged c0 ctx o.
Proof. intros (_ & _ & Hp). unfold logged. by rewrite Hp. Qed.
Lemma same_gate c name d ctx evs : same c0 c → gate c name d ctx evs → gate c0 name d ctx evs.
Proof.
  intros (Hs & Hc & Hp). unfold gate, remote_read_only, tool_allowed, grant. by rewrite Hs, Hc, Hp.
Qed.
Lemma same_listed c tr d : same c0 c → listed c tr d → listed c0 tr d.
Proof. intros (Hs & Hc & _) (item & ? & ? & ? & ?). exists item. rewrite <-Hc, <-Hs. done. Qed.

(** An exchange keeps the invariant when its request does. *)
Lemma exchange_authorising method params ctx c tr :
  authorising c tr →
  (∀ answer, authorising c ((tr ++ logged c ctx Attempted) ++ [ERequest (server c) method params answer])) →
  wp (exchange out method params ctx) (request_post authorising method c tr) c tr.
Proof.
  intros HI Hreq. apply wp_exchange.
  - done.
  - intros stop a _. split_and!; [|by apply prefix_app_r|done]. apply authorising_app; [by repeat constructor|done].
  - intros _ _. split_and!; [by apply authorising_state|by apply prefix_app_r, prefix_app_r|done].
  - intros _ _ answer r reusable Hj tr'. split.
    + split_and!; [|by apply prefix_app_r, prefix_app_r, prefix_app_r|].
      * apply authorising_app; [apply logged_calls|]. destruct reusable; [|apply authorising_state]; apply Hreq.
      * intros v Hv. destruct r as [v'|]; [injection Hv as ->|done].
        unfold judge in Hj. destruct answer as [[v'|[]]|]; try done. destruct (_ || _); [done|].
        injection Hj as <- <-. split; [done|]. apply answered_app. exists (server c), params.
        apply elem_of_app. right. by left.
    + intros stop a _. split_and!; [|by apply prefix_app_r, prefix_app_r, prefix_app_r|done].
      apply authorising_app; [by repeat constructor|]. apply authorising_state, Hreq.
Qed.
Lemma request_authorising method params c tr :
  authorising c tr → method ≠ "tools/call" →
  wp (request out method params) (request_post authorising method c tr) c tr.
Proof.
  intros HI Hm. unfold request. do 2 wp_step. apply exchange_authorising; [done|]. intros answer.
  rewrite <-app_assoc. apply authorising_app; [|done]. apply Forall_app; split; [apply logged_calls|].
  constructor; [|done]. simpl. by apply String.eqb_neq.
Qed.

Lemma find_tool_spec c name d : find_tool c name = Some d → ∃ ts, tools c = Some ts ∧ d ∈ ts ∧ tool_name d = name.
Proof.
  unfold find_tool. destruct (tools c) as [ts|]; [|done]. simpl. intros [Hd Hn]%find_some. exists ts.
  split_and!; [done|by apply list_elem_of_In|by apply String.eqb_eq].
Qed.
Lemma call_authorising name arguments reason : keeps authorising (call_tool_inner out name arguments reason).
Proof.
  intros c tr HI. unfold call_tool_inner. do 3 wp_step. wp_step; [|done]. do 2 wp_step; [|done].
  do 2 wp_step; [|done]. wp_step. apply wp_authorise.
  { intros stop evs Hevs. by apply authorising_app; [apply asks_calls|]. }
  match goal with Hf : ok_or _ _ = Ok _ |- _ => apply ok_or_Ok, find_tool_spec in Hf as (ts & Hts & Hd & Hname) end.
  intros evs Hg. pose proof HI as (Hsame & _ & Hl).
  eapply mcp_mono; [apply exchange_authorising|by intros r c' tr' [? _]].
  - apply authorising_app; [by eapply asks_calls, gate_asks|done].
  - intros answer. apply authorising_request.
    + apply authorising_app; [apply logged_calls|]. apply authorising_app; [by eapply asks_calls, gate_asks|done].
    + split; [by destruct Hsame|]. exists tr, evs, name, arguments. eexists. cbv zeta.
      rewrite <-(same_context c), <-(same_logged c), app_assoc by done.
      split_and!; [done..| |by eapply same_gate].
      specialize (Hl ts Hts). rewrite Forall_forall in Hl. by apply Hl.
Qed.
Lemma initialize_authorising : keeps authorising (initialize out).
Proof.
  intros c tr HI. unfold initialize. do 3 wp_step. wp_step; [|done]. wp_step.
  eapply mcp_mono; [by apply request_authorising|]. intros [v|stop] c1 tr1 (HI1 & _); [|done].
  do 3 wp_step. wp_step; [|by apply authorising_state].
  assert (∀ s answer, authorising c1 (tr1 ++ [ENotify s "notifications/initialized" answer])) as HI2
    by (intros; apply authorising_app; [by repeat constructor|done]).
  do 2 wp_step; [|by apply authorising_state]. destruct a0 as [[[]|e]|]; [|wp_step; by apply authorising_state..].
  do 5 wp_step. eapply authorising_cache; [| |apply HI2]; done.
Qed.
Lemma close_authorising : keeps authorising (close out).
Proof.
  intros c tr HI. unfold close. do 4 wp_step. wp_step.
  assert (∀ a, authorising (set_state Closed_ c) (tr ++ [EClose (server c) a])) as Hc.
  { intros a. by apply authorising_state, authorising_app; [repeat constructor|]. }
  wp_step; [|apply Hc]. destruct a as [r|]; [wp_step; apply Hc|]. wp_step. apply Hc.
Qed.
Lemma reconnect_authorising fresh : keeps authorising (reconnect out fresh).
Proof.
  intros c tr HI. unfold reconnect. do 4 wp_step. wp_step. wp_step.
  - do 4 wp_step. apply initialize_authorising. eapply authorising_cache; [| |].
    3: apply authorising_app; [|apply authorising_app; [|exact HI]]; by repeat constructor.
    + done.
    + done.
  - by apply authorising_state, authorising_app; [repeat constructor|].
Qed.
#[export] Instance authorising_keeper : Keeper out authorising.
Proof.
  split.
  - intros c tr method params HI _ [_ Hm]. by apply request_authorising.
  - apply initialize_authorising.
  - apply reconnect_authorising.
  - apply close_authorising.
  - apply call_authorising.
  - intros *. by apply authorising_cache.
  - intros *. by apply authorising_cache.
  - intros *. by apply authorising_cache.
  - intros * (Hs & Ha & _) Hts. split_and!; [done..|]. intros ? [= <-].
    eapply Forall_impl; [done|]. intros. by eapply same_listed.
Qed.
End auth.
