(* ===== verification/McpExample.v ===== *)
(** * McpExample: a server to run the client against

    An outside in which the server offers two tools, answers what it is asked and
    never answers a call of [slow]; the host approves everything. *)

From S2P Require Import Prelude Text.
From S2P Require Import McpConfig McpContent McpNames McpClient McpLogic.

Definition demo_tool (name : string) (reads : bool) : Json :=
  JObject [("name", JString name); ("description", JString "a tool");
           ("annotations", JObject [("readOnlyHint", JBool reads)])].
Definition demo_answer (method : string) (params : Json) : Await (option (result Error Json)) :=
  if String.eqb method "initialize" then
    Done (Some (Ok (JObject [("protocolVersion", JString PROTOCOL_VERSION);
                             ("capabilities", JObject [("tools", JObject [])])])))
  else if String.eqb method "tools/list" then
    Done (Some (Ok (JObject [("tools", JArray [demo_tool "read file" true; demo_tool "slow" false])])))
  else if bool_decide (get params "name" = Some (JString "slow")) then Done None
  else Done (Some (Ok (JObject [("content", JArray [JObject [("type", JString "text"); ("text", JString "hi")]])]))).

Definition demo_outside : Outside unit unit nat := {|
  transport_request _ method params n := (demo_answer method params, S n);
  transport_notify _ _ _ n := (Done (Some (Ok tt)), n);
  transport_close _ n := (Done (Some (Ok tt)), n);
  hook_approve _ _ n := (Done (Ok true), n);
  hook_break_glass _ _ _ n := (Done (Ok true), n);
  hook_audit _ _ _ n := (Done (Ok tt), n);
  now n := N.of_nat n;
  sha256 l := of_bytes l;
  sha1 l := l;
  to_vec v := match v with JString s => bytes s | _ => [] end;
  decode_base64 l := Some l;
  parse_url _ := None;
  sanitize_description _ _ raw := raw;
  resource_from_value _ := None;
  prompt_from_value _ := None;
  schema_from_value _ := Some "{}";
|}.

Definition demo_config : ServerConfig := mkServerConfig "" "server" [] ∅ "" None [] true ["read file"; "slow"].
Definition demo_policy : HostPolicy (H := unit) :=
  mkHostPolicy "tenant"
    {[ "s.1" := mkServerPolicy true ∅ (Some {["read file"]}) ∅ None None ∅;
       "s 1" := mkServerPolicy true ∅ None ∅ None None ∅ ]} (Some tt).
Definition demo_client (server : string) : Client (T := unit) (H := unit) :=
  mkClient tt server demo_config demo_policy default_limits New no_capabilities None None None
    (30 * 10 ^ 9) None None.
Lemma demo_client_new server :
  (server = "s.1" ∨ server = "s 1") →
  with_limits demo_outside tt server demo_config demo_policy default_limits = Ok (demo_client server).
Proof. intros [-> | ->]; vm_compute; reflexivity. Qed.

(** A session: both tools are called, [slow] only with the host's consent; after it
    the session is closed to every request until it is opened again. *)
Definition demo_ops : list (Op unit) :=
  [OpInitialize; OpListTools; OpCallTool "read file" (JObject []) None;
   OpCallTool "slow" (JObject []) None; OpCallTool "slow" (JObject []) (Some "urgent");
   OpCallTool "read file" (JObject []) None; OpReconnect tt; OpListTools;
   OpCallTool "read file" (JObject []) None].
