(* ===== verification/McpProps.v ===== *)
(** * McpProps: what a host can rely on in a session *)

From S2P Require Import Prelude Text.
From S2P Require Import McpConfig McpContent McpNames McpClient McpLogic McpOps McpSession McpAuth McpExample.

Section props.
Context {T H W : Type} (out : Outside T H W).
Notation MClient := (Client (T := T) (H := H)).
Implicit Types (c : MClient).

Lemma dead_silent c l p :
  session_from out c Dead l = Some p → (∀ s, EOpen s ∉ l) → ∀ s m ps a, ERequest s m ps a ∉ l.
Proof.
  induction l as [|e l IH]; intros Hs Ho s m ps a; [by apply not_elem_of_nil|].
  assert (session_from out c Dead l = Some p ∧ ∀ s m ps a, e ≠ ERequest s m ps a) as [Hl He].
  { cbn [session_from] in Hs. destruct e as [? method ? ?| | |srv| | |? [] []]; simpl in Hs;
      try (by destruct (String.eqb method "initialize")); try done.
    - destruct (Ho srv). by left.
    - destruct a0; done. 
    - destruct a0; done.
    - destruct a0; done. }
  intros [Heq|Hin]%elem_of_cons; [by eapply He|]. eapply IH; [done| |done].
  intros s' Hs'. apply (Ho s'). by right.
Qed.
Lemma with_limits_new transport server config policy limits c :
  with_limits out transport server config policy limits = Ok c → state c = New ∧ tools c = None.
Proof.
  unfold with_limits. intros H1. do 4 apply bind_Ok in H1 as (? & _ & H1). by injection H1 as <-.
Qed.
(** What makes a session unfit for another request: an answer that is not conclusive, a negotiation
    the server was not told the end of, an outcome that was not recorded, a close. *)
Definition ends c (e : Event) : bool :=
  match e with
  | ERequest _ method _ answer => negb (conclusive out c method answer)
  | ENotify _ _ (Done (Some (Ok _))) => false
  | EAudit _ (Completed | OutcomeFailed | OutcomeUnknown) (Done (Ok _)) => false
  | EClose _ _ | ENotify _ _ _ | EAudit _ (Completed | OutcomeFailed | OutcomeUnknown) _ => true
  | EAudit _ (Attempted | Denied) _ | EOpen _ | EApprove _ _ | EBreakGlass _ _ _ => false
  end.
Lemma session_from_app c l1 l2 q :
  session_from out c q (l1 ++ l2) = session_from out c q l1 ≫= λ q, session_from out c q l2.
Proof. revert q. induction l1 as [|e l1 IH]; intros q; simpl; [done|]. by destruct (session_step out c q e). Qed.
Lemma ends_dead c p e q : session_step out c p e = Some q → ends c e = true → q = Dead.
Proof.
  destruct e as [? m ? a|? ? [[[[]|]|]|]|? ?|?|? ?|? ? ?|? [] [[[]|]|]]; simpl; intros Hs He; try done.
  all: try (by destruct p; simplify_eq).
  apply negb_true_iff in He. rewrite He in Hs. destruct (String.eqb m "initialize"), p; by simplify_eq.
Qed.
Lemma before_request c l p e mid s m ps a pre post :
  session out c l = Some p → l = pre ++ e :: mid ++ ERequest s m ps a :: post →
  (∀ srv, EOpen srv ∉ mid) → ends c e = false.
Proof.
  intros Hs -> Ho. apply not_true_iff_false. intros He. rewrite session_app in Hs.
  destruct (session out c pre) as [p0|]; [|done]. cbn [mbind option_bind session_from] in Hs.
  destruct (session_step out c p0 e) as [q|] eqn:Hq; [|done]. apply ends_dead in Hq; [|done]. subst q.
  change (ERequest s m ps a :: post) with ([ERequest s m ps a] ++ post) in Hs.
  rewrite app_assoc, session_from_app in Hs.
  destruct (session_from out c Dead (mid ++ [ERequest s m ps a])) as [q|] eqn:Hd; [|done].
  eapply (dead_silent c _ q Hd); [|apply elem_of_app; right; by left].
  intros srv [Hin|Hin%list_elem_of_singleton]%elem_of_app; [by eapply Ho|done].
Qed.

(** C11: Whatever a host does with a client, the trace of its session is a run of the protocol of
    [session_step]: nothing is asked before the session is negotiated, and nothing is asked, before
    a fresh transport is opened, after anything that leaves the session in doubt or ends it
    ([ends]): a request that timed out, was dropped, lost its transport or brought back a value that is
    too long or not what a tool answers, a notification that was not delivered, an outcome that
    could not be recorded, a close. *)
Theorem session_protocol transport server config policy limits c ops o :
  with_limits out transport server config policy limits = Ok c →
  let s := run_ops out ops (c, mkWorld o []) in
  (∃ p, session out c (trace s.2) = Some p ∧ (state s.1 = New → p = Opened) ∧ (state s.1 = Ready → p = Established)) ∧
  (∀ pre e mid srv m ps a post,
     trace s.2 = pre ++ e :: mid ++ ERequest srv m ps a :: post → (∀ fresh, EOpen fresh ∉ mid) → ends c e = false).
Proof.
  intros [Hnew _]%with_limits_new s.
  assert (following out c s.1 (trace s.2)) as (_ & p & Hp & Hs).
  { apply (run_ops_kept out (following out c)). split; [done|]. exists Opened. simpl. split_and!; [done..|congruence]. }
  split; [by exists p|]. intros. by eapply before_request.
Qed.

(** C10: Every [tools/call] a client sends is for a tool the server has listed before,
    that the configuration and the host's policy let through (or whose block the
    host has just broken for this call, with a reason), that only reads when the
    server is remote, and that the host has just approved for this call unless it
    only reads; and the call was recorded before it was sent. *)
Theorem calls_authorised transport server config policy limits c ops o :
  with_limits out transport server config policy limits = Ok c →
  authorised out c (trace (run_ops out ops (c, mkWorld o [])).2).
Proof.
  intros [_ Ht]%with_limits_new.
  assert (authorising out c c []) as Hstart.
  { split_and!; [done| |by rewrite Ht]. intros pre s params answer post Heq. by destruct pre. }
  by apply (run_ops_kept out (authorising out c) ops (c, mkWorld o [])) in Hstart as (_ & Hauth & _).
Qed.

(** ** Discovery *)

(** The parameters of the requests of a method. *)
Definition requests_of (method : string) (tr : list Event) : list Json :=
  omap (λ e, match e with
             | ERequest _ m params _ => if String.eqb m method then Some params else None
             | _ => None
             end) tr.
Lemma requests_logged method c ctx o : requests_of method (logged c ctx o) = [].
Proof. unfold logged. by destruct (hooks _). Qed.
Lemma requests_app method tr tr' : requests_of method (tr ++ tr') = requests_of method tr ++ requests_of method tr'.
Proof. apply omap_app. Qed.
Lemma wp_request_once method params c tr :
  wp (request out method params) (λ r c' tr',
    (∃ ext, tr' = tr ++ ext ∧ (requests_of method ext = [params] ∨ requests_of method ext = [] ∧ is_ok r = false)) ∧
    (is_ok r = true → c' = c)) c tr.
Proof.
  unfold request. do 2 wp_step. apply wp_exchange.
  - intros e. split; [|done]. exists []. rewrite app_nil_r. split; [done|by right].
  - intros stop a _. split; [|done]. eexists. split; [done|by right].
  - intros _ _. split; [|done]. eexists. rewrite <-app_assoc. split; [done|]. left.
    rewrite requests_app, requests_logged. simpl. by rewrite String.eqb_refl.
  - intros _ _ answer r reusable Hj tr'. unfold tr'. split.
    + split.
      * eexists. rewrite <-!app_assoc. split; [done|]. left.
        rewrite !requests_app, !requests_logged. simpl. by rewrite String.eqb_refl.
      * unfold judge in Hj. destruct answer as [[v|[]]|]; try destruct (_ || _); by injection Hj as <- <-.
    + intros stop a _. split; [|done]. eexists. rewrite <-!app_assoc. split; [done|]. left.
      rewrite !requests_app, requests_logged. simpl. by rewrite String.eqb_refl.
Qed.

Definition cursor_params (cursor : option string) : Json :=
  JObject (match cursor with Some c => [("cursor", JString c)] | None => [] end).
Definition paged (n : nat) method (cursor : option string) (seen : gset string) c tr
    : result Stop (list Json) → MClient → list Event → Prop := λ r c' tr',
  ∃ ext, tr' = tr ++ ext ∧ (length (requests_of method ext) <= n)%nat ∧ NoDup (requests_of method ext) ∧
    (∀ p, p ∈ requests_of method ext → p = cursor_params cursor ∨ ∃ s, s ∉ seen ∧ p = cursor_params (Some s)) ∧
    ∀ items, r = Ok items → (length items <= max_items (limits c))%nat.
Lemma paged_last n method cursor seen c tr ext params (r : result Stop Json) c' :
  (requests_of method ext = [params] ∨ requests_of method ext = [] ∧ is_ok r = false) →
  (1 <= n)%nat → params = cursor_params cursor →
  ∀ r' : result Stop (list Json), (∀ items, r' = Ok items → (length items <= max_items (limits c))%nat) →
  paged n method cursor seen c tr r' c' (tr ++ ext).
Proof.
  intros Hext Hn -> r' Hr'. exists ext. split; [done|].
  destruct Hext as [->|[-> _]]; simpl; (split_and!; [lia| | |done]).
  - by apply NoDup_singleton.
  - intros p ->%list_elem_of_singleton. by left.
  - by apply NoDup_nil.
  - by intros p ?%elem_of_nil.
Qed.
Lemma pages_loop_paged n method field cursor (seen : gset string) items c tr :
  (∀ s, cursor = Some s → s ∈ seen) → (length items <= max_items (limits c))%nat →
  wp (pages_loop out n method field cursor seen items) (paged n method cursor seen c tr) c tr.
Proof.
  revert cursor seen items c tr. induction n as [|n IH]; intros cursor seen items c tr Hcur Hlen; cbn [pages_loop].
  { wp_step. exists []. rewrite app_nil_r. split_and!; [done|done|by apply NoDup_nil|by intros ? ?%elem_of_nil|done]. }
  do 3 wp_step. eapply mcp_mono; [apply wp_request_once|].
  intros r c1 tr1 ((ext & -> & Hext) & Hc1).
  assert (∀ r' : result Stop (list Json), (∀ items, r' = Ok items → (length items <= max_items (limits c))%nat) →
    paged (S n) method cursor seen c tr r' c1 (tr ++ ext)) as Hlast
    by (intros r' Hr'; eapply paged_last; [exact Hext|lia|done|done]).
  destruct r as [v|stop]; [|by apply Hlast]. specialize (Hc1 eq_refl) as ->.
  destruct Hext as [Hext|[_ ?]]; [|done].
  do 2 wp_step; [|by apply Hlast]. do 2 wp_step; [|by apply Hlast].
  assert (length (items ++ a) <= max_items (limits c))%nat as Hlen'.
  { match goal with Hg : negb (_ <? _)%nat = true |- _ => apply negb_true_iff, Nat.ltb_ge in Hg end.
    rewrite length_app. lia. }
  assert (wp (mret (items ++ a) : SE (MClient * World W) Stop (list Json)) (paged (S n) method cursor seen c tr) c (tr ++ ext)) as Hend
    by (wp_step; apply Hlast; by intros ? [= <-]).
  destruct (get v "nextCursor") as [[| | | |next| |]|]; try exact Hend; try (by wp_step; apply Hlast).
  destruct (blank next); [exact Hend|]. case_bool_decide as Hseen; cbn [negb]; [by wp_step; apply Hlast|].
  eapply mcp_mono; [apply (IH _ _ _ c)|].
  - intros s [= <-]. set_solver.
  - done.
  - intros r c2 tr2 (ext2 & -> & Hn & Hnd & Hps & Hr). exists (ext ++ ext2). rewrite app_assoc, requests_app, Hext. simpl.
    split_and!; [done|lia| | |done].
    + apply NoDup_cons. split; [|done]. intros [Heq|(s & Hs & Heq)]%Hps.
      * destruct cursor as [s|]; [|done]. injection Heq as ->. by apply Hseen, Hcur.
      * destruct cursor as [s'|]; [|done]. injection Heq as ->. apply Hs. apply elem_of_union. right. by apply Hcur.
    + intros p [->|Hp]%elem_of_cons; [by left|]. right. destruct (Hps p Hp) as [->|(s & Hs & ->)].
      * by exists (trim next).
      * exists s. split; [|done]. intros ?. apply Hs. by apply elem_of_union_r.
Qed.

(** Reading a catalogue always ends within the bounds of the client: it makes at
    most [max_pages] requests, never the same one twice whatever cursors the server
    hands out, and gives at most [max_items] items. *)
Theorem discovery_bounded method field c tr o r c' w' :
  pages out method field (c, mkWorld o tr) = (r, (c', w')) →
  ∃ ext, trace w' = tr ++ ext ∧
    (length (requests_of method ext) <= max_pages (limits c))%nat ∧ NoDup (requests_of method ext) ∧
    ∀ items, r = Ok items → (length items <= max_items (limits c))%nat.
Proof.
  intros Hrun.
  assert (wp (pages out method field) (paged (max_pages (limits c)) method None ∅ c tr) c tr) as Hwp.
  { unfold pages. do 3 wp_step. wp_step.
    - apply pages_loop_paged; [done|]. simpl. lia.
    - exists []. rewrite app_nil_r. split_and!; [done|simpl; lia|by apply NoDup_nil|by intros ? ?%elem_of_nil|done]. }
  apply Hwp in Hrun as (ext & ? & ? & ? & _ & ?). by exists ext.
Qed.
End props.

Lemma session_protocol_witness :
  let s := run_ops demo_outside demo_ops (demo_client "s.1", mkWorld 0%nat []) in
  state s.1 = Ready ∧ length (trace s.2) = 28%nat ∧
  ∃ p, session demo_outside (demo_client "s.1") (trace s.2) = Some p ∧ (state s.1 = Ready → p = Established).
Proof.
  split; [vm_compute; reflexivity|]. split; [vm_compute; reflexivity|].
  destruct (session_protocol demo_outside tt "s.1" demo_config demo_policy default_limits (demo_client "s.1")
              demo_ops 0%nat (demo_client_new "s.1" (or_introl eq_refl))) as [(p & Hp & _ & Hr) _].
  exists p. by split.
Defined.
Lemma calls_authorised_witness :
  let tr := trace (run_ops demo_outside demo_ops (demo_client "s.1", mkWorld 0%nat [])).2 in
  length (List.filter calls tr) = 3%nat ∧ authorised demo_outside (demo_client "s.1") tr.
Proof.
  split; [vm_compute; reflexivity|].
  apply (calls_authorised demo_outside tt "s.1" demo_config demo_policy default_limits (demo_client "s.1")
           demo_ops 0%nat (demo_client_new "s.1" (or_introl eq_refl))).
Defined.
(** A server that hands out the same cursor for ever is found out at once. *)
Definition looping_outside : Outside unit unit nat := {|
  transport_request _ method params n :=
    (Done (Some (Ok (if String.eqb method "tools/list"
                     then JObject [("tools", JArray [JNull]); ("nextCursor", JString "again")] else JNull))), S n);
  transport_notify := transport_notify demo_outside;
  transport_close := transport_close demo_outside;
  hook_approve := hook_approve demo_outside;
  hook_break_glass := hook_break_glass demo_outside;
  hook_audit := hook_audit demo_outside;
  now := now demo_outside;
  sha256 := sha256 demo_outside;
  sha1 := sha1 demo_outside;
  to_vec := to_vec demo_outside;
  decode_base64 := decode_base64 demo_outside;
  parse_url := parse_url demo_outside;
  sanitize_description := sanitize_description demo_outside;
  resource_from_value := resource_from_value demo_outside;
  prompt_from_value := prompt_from_value demo_outside;
  schema_from_value := schema_from_value demo_outside;
|}.
Lemma discovery_bounded_witness :
  let c := set_state Ready (demo_client "s.1") in
  let s := pages looping_outside "tools/list" "tools" (c, mkWorld 0%nat []) in
  s.1 = Err (Raised (Protocol "repeated discovery cursor")) ∧
  length (requests_of "tools/list" (trace s.2.2)) = 2%nat ∧
  NoDup (requests_of "tools/list" (trace s.2.2)).
Proof.
  split; [vm_compute; reflexivity|]. split; [vm_compute; reflexivity|].
  destruct (pages looping_outside "tools/list" "tools" (set_state Ready (demo_client "s.1"), mkWorld 0%nat []))
    as [r [c' w']] eqn:Hrun.
  destruct (discovery_bounded looping_outside "tools/list" "tools" _ _ _ _ _ _ Hrun) as (ext & Heq & _ & Hnd & _).
  simpl. rewrite Heq. exact Hnd.
Defined.
