(* ===== verification/McpManagerProps.v ===== *)
(** * McpManagerProps: every offered name leads to its tool *)

From S2P Require Import Prelude Text Core.
From S2P Require Import McpConfig McpContent McpNames McpClient McpLogic McpOps McpSession McpAuth.
From S2P Require Import McpManager McpExample.

Section homely.
Context {T H W : Type} (out : Outside T H W).
Notation MClient := (Client (T := T) (H := H)).
Implicit Types (c : MClient) (tr : list Event).

(** The catalogue of a client holds tools of its own server. *)
Definition own_tools c : Prop := Forall (λ d, server_name d = server c) (default [] (tools c)).
Definition homely (name : string) c (_ : list Event) : Prop := server c = name ∧ own_tools c.

Lemma homely_state name c tr tr' s : homely name c tr → homely name (set_state s c) tr'.
Proof. done. Qed.
Lemma exchange_homely name method params ctx c tr :
  homely name c tr → wp (exchange out method params ctx) (request_post (homely name) method c tr) c tr.
Proof.
  intros Hh. apply wp_exchange.
  - done.
  - intros. split_and!; [done|by apply prefix_app_r|done].
  - intros. split_and!; [done|by apply prefix_app_r, prefix_app_r|done].
  - intros _ _ answer r reusable Hj tr'. split.
    + split_and!; [by destruct reusable|by apply prefix_app_r, prefix_app_r, prefix_app_r|].
      intros v Hv. destruct r as [v'|]; [injection Hv as ->|done].
      unfold judge in Hj. destruct answer as [[v'|[]]|]; try done. destruct (_ || _); [done|].
      injection Hj as <- <-. split; [done|]. apply answered_app. exists (server c), params.
      apply elem_of_app. right. by left.
    + intros. split_and!; [done|by apply prefix_app_r, prefix_app_r, prefix_app_r|done].
Qed.
Lemma initialize_homely name : keeps (homely name) (initialize out).
Proof.
  intros c tr Hh. unfold initialize. do 3 wp_step. wp_step; [|done]. wp_step. unfold request. do 2 wp_step.
  eapply mcp_mono; [by apply exchange_homely|]. intros [v|stop] c1 tr1 (Hh1 & _); [|done].
  do 3 wp_step. wp_step; [|done]. do 2 wp_step; [|done]. 
  match goal with |- context [match ?a with _ => _ end] => destruct a as [[[]|]|] end; [|by wp_step..].
  by do 5 wp_step.
Qed.
Lemma call_homely name n arguments reason : keeps (homely name) (call_tool_inner out n arguments reason).
Proof.
  intros c tr Hh. unfold call_tool_inner. do 3 wp_step. wp_step; [|done]. do 2 wp_step; [|done].
  do 2 wp_step; [|done]. wp_step. apply wp_authorise; [done|]. intros evs _.
  eapply mcp_mono; [by apply exchange_homely|]. by intros r c' tr' [? _].
Qed.
Lemma close_homely name : keeps (homely name) (close out).
Proof.
  intros c tr Hh. unfold close. do 5 wp_step. wp_step; [|done].
  match goal with |- context [match ?a with _ => _ end] => destruct a as [r|] end; by wp_step.
Qed.
Lemma reconnect_homely name fresh : keeps (homely name) (reconnect out fresh).
Proof.
  intros c tr [Hn Hh]. unfold reconnect. do 5 wp_step. wp_step; [|done]. do 4 wp_step.
  apply initialize_homely. split; [done|]. by apply Forall_nil.
Qed.
#[export] Instance homely_keeper name : Keeper out (homely name).
Proof.
  split.
  - intros c tr method params Hh _ _. unfold request. do 2 wp_step. by apply exchange_homely.
  - apply initialize_homely.
  - apply reconnect_homely.
  - apply close_homely.
  - apply call_homely.
  - done.
  - done.
  - done.
  - intros c tr ts [Hn _] Hts. split; [done|]. eapply Forall_impl; [done|]. by intros d (item & _ & _ & ? & _).
Qed.
End homely.

Section manager.
Context {T H W : Type} (out : Outside T H W).
Notation MClient := (Client (T := T) (H := H)).
Notation Manager := (ClientManager (T := T) (H := H)).
Implicit Types (c : MClient) (m : Manager).

Lemma prepare_own c w r c1 w1 :
  own_tools c → prepare_client out (c, w) = (Ok r, (c1, w1)) → r = c1 ∧ server c1 = server c ∧ own_tools c1.
Proof.
  intros Hc H1. destruct w as [o tr].
  assert (wp (prepare_client out) (λ r c' _, (∀ x, r = Ok x → x = c') ∧ homely (server c) c' []) c tr) as Hwp.
  { unfold prepare_client. do 3 wp_step.
    assert (∀ c' tr', homely (server c) c' [] →
      wp (list_tools out ≫= λ _, client) (λ r c' _, (∀ x, r = Ok x → x = c') ∧ homely (server c) c' []) c' tr') as Hlist.
    { intros c' tr' Hh. wp_step. eapply mcp_mono; [by apply (list_tools_kept out (homely (server c)))|].
      intros [ts|] c2 tr2 Hh2; [|done]. wp_step. split; [|done]. by intros x [= <-]. }
    case_bool_decide.
    - wp_step. eapply mcp_mono; [by apply (initialize_homely out (server c))|].
      intros [cap|] c2 tr2 Hh2; [|done]. wp_step. by apply Hlist.
    - wp_step. by apply Hlist. }
  apply Hwp in H1 as [Hr [Hs Ho]]. split_and!; [by apply Hr|done|done].
Qed.

(** ** Routes *)

Definition names (m : Manager) : list string := Core.tool_name <$> definitions m.
(** A definition, its route and the tool behind it. *)
Definition leads (m : Manager) (cs : list (string * MClient)) (d : ToolDefinition) : Prop :=
  well_named (Core.tool_name d) ∧
  ∃ c t, (server c, c) ∈ cs ∧ t ∈ default [] (tools c) ∧ offered c t = true ∧
         routes m !! Core.tool_name d = Some (server c, tool_name t) ∧
         Core.read_only d = read_only t ∧ Core.requires_approval d = negb (read_only t).
Definition routed (m : Manager) c (t : ToolDescriptor) : Prop :=
  ∃ d, d ∈ definitions m ∧ routes m !! Core.tool_name d = Some (server c, tool_name t).

Definition consistent (cs : list (string * MClient)) (acc : Manager * gset string) : Prop :=
  let '(m, used) := acc in
  NoDup (names m) ∧ used = list_to_set (names m) ∧ Forall (leads m cs) (definitions m).

Lemma leads_mono m cs cs' d : cs ⊆ cs' → leads m cs d → leads m cs' d.
Proof. intros Hcs (? & c & t & ? & ?). split; [done|]. exists c, t. split; [by apply Hcs|done]. Qed.

(** One more tool of [c]: what was routed still is. *)
Lemma add_route_spec cs c m used t acc :
  consistent cs (m, used) → (server c, c) ∈ cs → t ∈ default [] (tools c) → offered c t = true →
  server_name t = server c → add_route out (m, used) t = Ok acc →
  consistent cs acc ∧ clients acc.1 = clients m ∧ has_resources acc.1 = has_resources m ∧ routed acc.1 c t ∧
  ∀ c' t', routed m c' t' → routed acc.1 c' t'.
Proof.
  intros (Hnd & Hused & Hleads) Hc Ht Hoff Hserver H1. unfold add_route in H1.
  pose proof (ensure_unique_spec (sha1 out) (qualified_tool_name (sha1 out) (server_name t) (tool_name t)) used
    (qualified_well_named _ _ _)) as Huniq.
  destruct (ensure_unique_tool_name _ _ _) as [[name|] used']; [|by apply bind_Ok in H1 as (? & ? & ?)].
  destruct Huniq as (Hwell & Hnew & ->). simpl in H1. apply bind_Ok in H1 as (schema & _ & [= <-]).
  set (d := mkToolDefinition name _ _ _ _). simpl.
  assert (∀ d', d' ∈ definitions m → Core.tool_name d' ≠ name) as Hfresh.
  { intros d' Hd' <-. apply Hnew. rewrite Hused. apply elem_of_list_to_set, list_elem_of_fmap. by exists d'. }
  unfold consistent. split_and!.
  - unfold names. simpl. rewrite fmap_app. apply NoDup_app. split_and!; [done| |by apply NoDup_singleton].
    intros n (d' & -> & Hd')%list_elem_of_fmap Hn%list_elem_of_singleton. by apply (Hfresh d').
  - unfold names. simpl. rewrite fmap_app, list_to_set_app_L, Hused. simpl. set_solver.
  - apply Forall_app; split.
    + rewrite Forall_forall in Hleads |- *. intros d' Hd'. destruct (Hleads d' Hd') as (? & c' & t' & ? & ? & ? & Hr & ?).
      split; [done|]. exists c', t'. split_and!; [done..| |naive_solver|naive_solver]. simpl.
      by rewrite lookup_insert_ne by (by apply not_eq_sym, Hfresh).
    + apply Forall_singleton. split; [done|]. exists c, t. simpl. rewrite lookup_insert_eq, Hserver. done.
  - done.
  - done.
  - exists d. simpl. rewrite lookup_insert_eq, Hserver. split; [|done]. apply elem_of_app. right. by left.
  - intros c' t' (d' & Hd' & Hr). exists d'. simpl. split; [apply elem_of_app; by left|].
    by rewrite lookup_insert_ne by (by apply not_eq_sym, Hfresh).
Qed.
Lemma add_routes_spec cs c ts acc acc' :
  consistent cs acc → (server c, c) ∈ cs → own_tools c →
  Forall (λ t, t ∈ default [] (tools c) ∧ offered c t = true) ts →
  foldM (add_route out) acc ts = Ok acc' →
  consistent cs acc' ∧ clients acc'.1 = clients acc.1 ∧ has_resources acc'.1 = has_resources acc.1 ∧
  Forall (routed acc'.1 c) ts ∧ ∀ c' t', routed acc.1 c' t' → routed acc'.1 c' t'.
Proof.
  intros Hcon Hc Hown Hts. revert acc Hcon. induction Hts as [|t ts [Ht Hoff] _ IH]; intros [m used] Hcon; cbn [foldM].
  { intros [= <-]. split; [done|]. split_and!; [done..|by apply Forall_nil|done]. }
  destruct (add_route out (m, used) t) as [acc1|] eqn:H1; [|done]. intros H2.
  assert (server_name t = server c) as Hs by (unfold own_tools in Hown; rewrite Forall_forall in Hown; by apply Hown).
  destruct (add_route_spec _ _ _ _ _ _ Hcon Hc Ht Hoff Hs H1) as (Hcon1 & Hcl & Hhr & Hr & Hold).
  destruct (IH acc1 Hcon1 H2) as (Hcon2 & Hcl2 & Hhr2 & Hrs & Hold2).
  split; [done|]. split_and!; [by etrans|by etrans| |by eauto]. constructor; [by apply Hold2|done].
Qed.

(** All the tools of all the clients so far. *)
Definition complete (acc : Manager * gset string) : Prop :=
  consistent (clients acc.1) acc ∧ NoDup (fst <$> clients acc.1) ∧
  Forall (λ kc, kc.1 = server kc.2 ∧ own_tools kc.2 ∧
    ∀ t, t ∈ default [] (tools kc.2) → offered kc.2 t = true → routed acc.1 kc.2 t) (clients acc.1).

Lemma find_none (l : list (string * MClient)) k :
  ¬ is_Some (List.find (λ kc, String.eqb kc.1 k) l) → k ∉ fst <$> l.
Proof.
  intros Hf (kc & -> & Hin)%list_elem_of_fmap. apply Hf. destruct (List.find _ l) eqn:Hn; [done|].
  pose proof (find_none _ _ Hn kc (proj1 (list_elem_of_In _ _) Hin)) as Hne. simpl in Hne.
  by rewrite String.eqb_refl in Hne.
Qed.
Lemma add_client_spec acc c w acc' w' :
  complete acc → own_tools c → add_client out acc c w = (Ok acc', w') → complete acc'.
Proof.
  destruct acc as [m used]. intros (Hcon & Hnd & Hcs) Hown H1. unfold add_client in H1.
  case_bool_decide as Hfind; [done|]. apply find_none in Hfind.
  destruct (prepare_client out (c, w)) as [[c1|stop] [c2 w2]] eqn:Hp; [|done].
  apply (prepare_own _ _ _ _ _ Hown) in Hp as (-> & Hs & Hown2).
  destruct (foldM _ _ _) as [[m2 used2]|] eqn:Hf; [|done]. injection H1 as <- <-.
  assert (consistent (clients m ++ [(server c2, c2)]) (m, used)) as Hcon'.
  { destruct Hcon as (? & ? & Hl). split_and!; [done..|]. eapply Forall_impl; [exact Hl|].
    intros d. apply leads_mono. set_solver. }
  assert (Forall (λ t, t ∈ default [] (tools c2) ∧ offered c2 t = true)
            (List.filter (offered c2) (default [] (tools c2)))) as Hts
    by (apply Forall_forall; by intros t [? ?]%elem_of_List_filter).
  destruct (add_routes_spec _ c2 _ _ _ Hcon' ltac:(apply elem_of_app; right; by left) Hown2 Hts Hf) as
    ((Hnd2 & Hused2 & Hleads2) & Hcl & Hhr & Hrs & Hold).
  simpl in *. split_and!; simpl.
  - rewrite Hcl. split_and!; done.
  - rewrite Hcl, fmap_app, Hs. apply NoDup_app. split_and!; [done| |by apply NoDup_singleton].
    by intros k Hk ->%list_elem_of_singleton.
  - rewrite Hcl. apply Forall_app; split.
    + eapply Forall_impl; [exact Hcs|]. intros kc (? & ? & Hr). split_and!; [done..|]. intros t Ht Ho.
      apply (Hold _ _ (Hr t Ht Ho)).
    + apply Forall_singleton. split_and!; [done..|]. intros t Ht Ho. rewrite Forall_forall in Hrs.
      apply Hrs, elem_of_List_filter. done.
Qed.
Lemma add_clients_spec cs acc w acc' w' :
  complete acc → Forall own_tools cs → add_clients out acc cs w = (Ok acc', w') → complete acc'.
Proof.
  intros Hacc Hcs. revert acc w Hacc. induction Hcs as [|c cs Hc _ IH]; intros acc w Hacc; simpl.
  - by intros [= <- _].
  - intros (acc1 & w1 & H1 & H2)%SE_bind_Ok. eapply IH; [|exact H2]. by eapply add_client_spec.
Qed.

Lemma find_client_elem m k c : NoDup (fst <$> clients m) → (k, c) ∈ clients m → find_client k m = Some c.
Proof.
  unfold find_client. induction (clients m) as [|[k' c'] l IH]; intros Hnd Hin; [by apply elem_of_nil in Hin|].
  simpl in *. apply NoDup_cons in Hnd as [Hk Hnd]. apply elem_of_cons in Hin as [[= <- <-]|Hin].
  - by rewrite String.eqb_refl.
  - destruct (String.eqb_spec k' k) as [->|]; [|by apply IH]. destruct Hk. apply list_elem_of_fmap. by exists (k, c).
Qed.

(** C16: The names a manager offers are distinct, of at most 64 valid bytes, and in
    order; each leads to one tool, let through by its server's policies, and a call
    under the name is a call of that tool on that server's client (never an unknown
    name or a missing client); every tool of every server that its policies let
    through is offered.  A definition asks for approval unless the tool only reads. *)
Theorem manager_routes cs w m w' :
  Forall own_tools cs → new_manager out cs w = (Ok m, w') →
  NoDup (names m) ∧ Sorted by_name (definitions m) ∧
  (∀ d, d ∈ definitions m → leads m (clients m) d) ∧
  (∀ k c t, (k, c) ∈ clients m → t ∈ default [] (tools c) → offered c t = true → routed m c t) ∧
  (∀ d arguments w1, d ∈ definitions m → ∃ c tool, find_client (server c) m = Some c ∧
     call out (Core.tool_name d) arguments (m, w1) = on_client (server c) (call_tool out tool arguments) (m, w1)).
Proof.
  intros Hcs H1. unfold new_manager in H1. apply SE_bind_Ok in H1 as ([m1 used] & w1 & H1 & [= <- _]).
  assert (complete (m1, used)) as ((Hnd & _ & Hleads) & Hkeys & Hall).
  { eapply add_clients_spec; [| |exact H1].
    - split; [split_and!; [by apply NoDup_nil|done|by apply Forall_nil]|].
      split; [by apply NoDup_nil|by apply Forall_nil].
    - rewrite Forall_forall in Hcs |- *. intros c Hc. rewrite merge_sort_Permutation in Hc. by apply Hcs. }
  simpl in *.
  assert (∀ d, d ∈ merge_sort by_name (definitions m1) ↔ d ∈ definitions m1) as Hin
    by (intros d; by rewrite merge_sort_Permutation).
  rewrite Forall_forall in Hleads. rewrite Forall_forall in Hall.
  split_and!.
  - unfold names. simpl. by rewrite merge_sort_Permutation.
  - apply Sorted_merge_sort. intros a b. apply (total String.le).
  - intros d Hd%Hin. by apply Hleads.
  - intros k c t Hc Ht Ho. destruct (Hall _ Hc) as (_ & _ & Hr). destruct (Hr t Ht Ho) as (d & Hd & Hroute).
    exists d. split; [by apply Hin|done].
  - intros d arguments w2 Hd%Hin. destruct (Hleads d Hd) as (_ & c & t & Hc & _ & _ & Hroute & _).
    exists c, (tool_name t). split; [by apply find_client_elem|].
    unfold call. unfold mbind, SE_bind, get_manager. simpl. by rewrite Hroute.
Qed.
End manager.

(** Two servers whose names, and whose tools' names, read the same. *)
Lemma manager_routes_witness :
  let '(r, w) := new_manager demo_outside [demo_client "s.1"; demo_client "s 1"] (mkWorld 0%nat []) in
  match r with
  | Ok m => names m = ["mcp__s_1__read_file"; "mcp__s_1__read_file_2"; "mcp__s_1__slow"]
            ∧ routes m !! "mcp__s_1__read_file" = Some ("s 1", "read file")
            ∧ NoDup (names m) ∧ ∀ d, d ∈ definitions m → leads m (clients m) d
  | Err _ => False
  end.
Proof.
  destruct (new_manager demo_outside [demo_client "s.1"; demo_client "s 1"] (mkWorld 0%nat [])) as [[m|e] w] eqn:Hm.
  - pose proof Hm as Hm2. vm_compute in Hm2. injection Hm2 as <- _.
    split; [vm_compute; reflexivity|]. split; [vm_compute; reflexivity|].
    destruct (manager_routes demo_outside _ _ _ _ (Forall_cons_2 own_tools (demo_client "s.1") _
                (Forall_nil_2 _) (Forall_cons_2 own_tools (demo_client "s 1") [] (Forall_nil_2 _) (Forall_nil_2 _))) Hm)
      as (Hnd & _ & Hleads & _). split; [exact Hnd|exact Hleads].
  - vm_compute in Hm. discriminate.
Defined.
