(* ===== verification/Sse.v ===== *)
(** * Sse: the decoder of server-sent events

    [adk-providers/src/sse.rs]: the bytes of a stream come in chunks of any size,
    cut anywhere; the decoder gives the events they complete.  Strings are lists of
    bytes.  The second half states what the stream as a whole says ([events_of]),
    without a decoder, and what a well-formed stream within the limit is. *)

From S2P Require Import Prelude Text.

Definition CR : ascii := ascii_of_N 13.
Definition LF : ascii := ascii_of_N 10.
(** U+FEFF *)
Definition bom : list ascii := ascii_of_N <$> [0xef; 0xbb; 0xbf]%N.

Record Event := mkEvent { event : list ascii; data : list ascii }.
#[export] Instance Event_eq_dec : EqDecision Event.
Proof. solve_decision. Defined.

(** The errors of the provider category, by their message. *)
Inductive SseError := DecoderClosed | FrameExceedsLimit | InvalidUtf8 | TruncatedFrame.

Record Decoder := mkDecoder {
  line : list ascii;
  pending_data : list ascii;
  pending_event : list ascii;
  frame_bytes : N;
  limit : N;
  after_cr : bool;
  first_line : bool;
  failed : bool;
}.
Definition new (max_event_bytes : N) : Decoder := mkDecoder [] [] [] 0 max_event_bytes false true false.
Definition default_decoder : Decoder := new (4 * 1024 * 1024).

(** [strip_prefix(p).unwrap_or(line)] *)
Definition strip_or (p l : list ascii) : list ascii :=
  if starts_with p l then drop (length p) l else l.
(** [line.split_once(':').unwrap_or((line, ""))], with one space taken off the value. *)
Definition field_of (l : list ascii) : list ascii * list ascii :=
  let '(field, value) := default (l, []) (split_once ":" l) in
  (field, strip_or [" "%char] value).

Definition finish_line (d : Decoder) : result SseError (option Event) * Decoder :=
  let raw := line d in
  let d := mkDecoder [] (pending_data d) (pending_event d) (frame_bytes d) (limit d) (after_cr d)
             (first_line d) (failed d) in
  if negb (valid_utf8 raw) then (Err InvalidUtf8, d)
  else
    let text := if first_line d then strip_or bom raw else raw in
    let d := mkDecoder [] (pending_data d) (pending_event d) (frame_bytes d) (limit d) (after_cr d)
               false (failed d) in
    match text with
    | [] =>
        let d' := mkDecoder [] [] [] 0 (limit d) (after_cr d) false (failed d) in
        match pending_data d with
        | [] => (Ok None, d')
        | pending => (Ok (Some (mkEvent (pending_event d) (take (length pending - 1) pending))), d')
        end
    | _ =>
        let '(field, value) := field_of text in
        if bool_decide (field = bytes "data") then
          (Ok None, mkDecoder [] (pending_data d ++ value ++ [LF]) (pending_event d) (frame_bytes d) (limit d)
                      (after_cr d) false (failed d))
        else if bool_decide (field = bytes "event") then
          (Ok None, mkDecoder [] (pending_data d) value (frame_bytes d) (limit d) (after_cr d) false (failed d))
        else (Ok None, d)
    end.

(** The body of the loop of [feed_inner]. *)
Definition feed_byte (byte : ascii) (d : Decoder) : result SseError (option Event) * Decoder :=
  if after_cr d && Ascii.eqb byte LF then
    (Ok None, mkDecoder (line d) (pending_data d) (pending_event d) (frame_bytes d) (limit d) false
                (first_line d) (failed d))
  else if Ascii.eqb byte CR || Ascii.eqb byte LF then
    finish_line (mkDecoder (line d) (pending_data d) (pending_event d) (frame_bytes d) (limit d)
                   (Ascii.eqb byte CR) (first_line d) (failed d))
  else
    match checked_add (frame_bytes d) 1 with
    | None => (Err FrameExceedsLimit, mkDecoder (line d) (pending_data d) (pending_event d) (frame_bytes d)
                                        (limit d) false (first_line d) (failed d))
    | Some n =>
        let d := mkDecoder (line d) (pending_data d) (pending_event d) n (limit d) false (first_line d) (failed d) in
        if (limit d <? n)%N then (Err FrameExceedsLimit, d)
        else (Ok None, mkDecoder (line d ++ [byte]) (pending_data d) (pending_event d) n (limit d) false
                         (first_line d) (failed d))
    end.
Fixpoint feed_inner (chunk : list ascii) (d : Decoder) : result SseError (list Event) * Decoder :=
  match chunk with
  | [] => (Ok [], d)
  | byte :: chunk =>
      match feed_byte byte d with
      | (Err e, d) => (Err e, d)
      | (Ok ev, d) =>
          match feed_inner chunk d with
          | (Err e, d) => (Err e, d)
          | (Ok evs, d) => (Ok (option_list ev ++ evs), d)
          end
      end
  end.
Definition feed (chunk : list ascii) (d : Decoder) : result SseError (list Event) * Decoder :=
  if failed d then (Err DecoderClosed, d)
  else
    match feed_inner chunk d with
    | (Ok evs, d) => (Ok evs, d)
    | (Err e, d) => (Err e, mkDecoder [] [] (pending_event d) (frame_bytes d) (limit d) (after_cr d)
                              (first_line d) true)
    end.
Definition finish (d : Decoder) : result SseError unit * Decoder :=
  let d := mkDecoder (line d) (pending_data d) (pending_event d) (frame_bytes d) (limit d) (after_cr d)
             (first_line d) true in
  (if bool_decide (line d = []) && bool_decide (pending_data d = []) && bool_decide (pending_event d = [])
   then Ok tt else Err TruncatedFrame, d).

(** Chunks fed one after the other. *)
Fixpoint feed_all (chunks : list (list ascii)) (d : Decoder) : list (result SseError (list Event)) * Decoder :=
  match chunks with
  | [] => ([], d)
  | chunk :: chunks =>
      let '(r, d) := feed chunk d in
      let '(rs, d) := feed_all chunks d in (r :: rs, d)
  end.

(** ** What a stream says *)

(** The lines of a stream that are ended, and the rest: a line ends with a carriage
    return, a line feed or both in this order. *)
Fixpoint split_lines (l : list ascii) : list (list ascii) * list ascii :=
  match l with
  | [] => ([], [])
  | c :: l =>
      if Ascii.eqb c CR then
        match l with
        | c' :: l' =>
            if Ascii.eqb c' LF then let '(ls, r) := split_lines l' in ([] :: ls, r)
            else let '(ls, r) := split_lines l in ([] :: ls, r)
        | [] => ([[]], [])
        end
      else if Ascii.eqb c LF then let '(ls, r) := split_lines l in ([] :: ls, r)
      else
        match split_lines l with
        | (first :: ls, r) => ((c :: first) :: ls, r)
        | ([], r) => ([], c :: r)
        end
  end.
(** The text of the lines: the mark at the start of the stream is not part of it. *)
Definition texts (ls : list (list ascii)) : list (list ascii) :=
  match ls with [] => [] | l :: ls => strip_or bom l :: ls end.

(** The values of the fields of a name, in a group of lines. *)
Definition values_of (name : string) (ls : list (list ascii)) : list (list ascii) :=
  omap (λ l, let '(field, value) := field_of l in
             if bool_decide (field = bytes name) then Some value else None) ls.
Fixpoint join_lines (ls : list (list ascii)) : list ascii :=
  match ls with [] => [] | [l] => l | l :: ls => l ++ LF :: join_lines ls end.
(** The event of a group of lines: its data, line by line, under the last name. *)
Definition event_of (ls : list (list ascii)) : option Event :=
  match values_of "data" ls with
  | [] => None
  | ds => Some (mkEvent (default [] (last (values_of "event" ls))) (join_lines ds))
  end.
(** The groups ended by an empty line, and the group that is not ended.  Each line
    comes with its length in the stream. *)
Fixpoint groups (ls : list (N * list ascii)) : list (list (N * list ascii)) * list (N * list ascii) :=
  match ls with
  | [] => ([], [])
  | (n, []) :: ls => let '(gs, open) := groups ls in ([(n, [])] :: gs, open)
  | l :: ls =>
      match groups ls with
      | (g :: gs, open) => ((l :: g) :: gs, open)
      | ([], open) => ([], l :: open)
      end
  end.
Definition sized (ls : list (list ascii)) : list (N * list ascii) :=
  zip ((λ l, N.of_nat (length l)) <$> ls) (texts ls).
Definition events_of (l : list ascii) : list Event :=
  omap (λ g, event_of g.*2) (groups (sized (split_lines l).1)).1.

Definition size_of (g : list (N * list ascii)) : N := foldr (λ nl s, (nl.1 + s)%N) 0%N g.
(** A stream the decoder takes: every ended line is UTF-8, and no group of lines is
    longer than the limit. *)
Definition acceptable (limit : N) (l : list ascii) : bool :=
  let '(ls, rest) := split_lines l in
  let '(gs, open) := groups (sized ls) in
  forallb valid_utf8 ls && forallb (λ g, (size_of g <=? limit)%N) gs
  && (size_of open + N.of_nat (length rest) <=? limit)%N.
(** A stream that ends with an event, or with nothing of one. *)
Definition whole (l : list ascii) : bool :=
  let '(ls, rest) := split_lines l in
  let open := (groups (sized ls)).2.*2 in
  bool_decide (rest = []) && bool_decide (values_of "data" open = [])
  && bool_decide (default [] (last (values_of "event" open)) = []).
