(* ===== verification/SseProps.v ===== *)
(** * SseProps: the decoder against what a stream says

    The state of the decoder is a function of the bytes it was fed ([state_after]),
    however they were cut; one more byte moves both alike. *)

From S2P Require Import Prelude Text Sse.

(** ** Streams, one byte at a time *)

Definition ends_cr (l : list ascii) : bool := bool_decide (last l = Some CR).

Lemma split_lines_cons c l :
  c ≠ CR → c ≠ LF →
  split_lines (c :: l) = match split_lines l with
                         | (first :: ls, r) => ((c :: first) :: ls, r)
                         | ([], r) => ([], c :: r)
                         end.
Proof.
  intros Hcr Hlf. cbn [split_lines]. destruct (Ascii.eqb_spec c CR); [done|]. by destruct (Ascii.eqb_spec c LF).
Qed.
Lemma split_lines_lf l : split_lines (LF :: l) = let '(ls, r) := split_lines l in ([] :: ls, r).
Proof. done. Qed.
Lemma split_lines_crlf l : split_lines (CR :: LF :: l) = let '(ls, r) := split_lines l in ([] :: ls, r).
Proof. done. Qed.
Lemma split_lines_cr c l : c ≠ LF → split_lines (CR :: c :: l) = let '(ls, r) := split_lines (c :: l) in ([] :: ls, r).
Proof.
  intros Hc%Ascii.eqb_neq. cbn [split_lines]. rewrite Hc. change (Ascii.eqb CR CR) with true. done.
Qed.

(** One more byte: it completes a line ending, ends the line or belongs to it. *)
Definition snoc_lines (b : ascii) (cr : bool) (p : list (list ascii) * list ascii) : list (list ascii) * list ascii :=
  if cr && Ascii.eqb b LF then p
  else if Ascii.eqb b CR || Ascii.eqb b LF then (p.1 ++ [p.2], [])
  else (p.1, p.2 ++ [b]).
Lemma snoc_lines_cons b cr x ls r :
  snoc_lines b cr (x :: ls, r) = (x :: (snoc_lines b cr (ls, r)).1, (snoc_lines b cr (ls, r)).2).
Proof. unfold snoc_lines. simpl. by destruct (cr && Ascii.eqb b LF), (Ascii.eqb b CR || Ascii.eqb b LF). Qed.

Lemma ends_cr_cons c c' l : ends_cr (c :: c' :: l) = ends_cr (c' :: l).
Proof. done. Qed.
Lemma split_lines_snoc l b : split_lines (l ++ [b]) = snoc_lines b (ends_cr l) (split_lines l).
Proof.
  remember (length l) as n eqn:Hn. revert l Hn. induction n as [n IH] using lt_wf_ind. intros l ->.
  destruct l as [|c l]; [|destruct (decide (c = CR)) as [->|Hcr]; [destruct l as [|c' l]|]].
  - unfold snoc_lines. simpl. by destruct (Ascii.eqb b CR), (Ascii.eqb b LF).
  - destruct (decide (b = LF)) as [->|Hlf]; [vm_compute; reflexivity|].
    change ([CR] ++ [b]) with (CR :: [b]). rewrite split_lines_cr by done. unfold snoc_lines.
    change (split_lines [CR]) with ([[] : list ascii], [] : list ascii). change (ends_cr [CR]) with true.
    cbn [split_lines]. apply Ascii.eqb_neq in Hlf. rewrite Hlf. simpl. by destruct (Ascii.eqb b CR).
  - destruct (decide (c' = LF)) as [->|Hlf].
    + rewrite <-!app_comm_cons, !split_lines_crlf, (IH (length l)) by (simpl; lia).
      destruct (split_lines l) as [ls r] eqn:Hl. 
      destruct l as [|c l]; [|by rewrite snoc_lines_cons; destruct (snoc_lines _ _ _)].
      injection Hl as <- <-. unfold snoc_lines. simpl. by destruct (Ascii.eqb b CR), (Ascii.eqb b LF).
    + rewrite <-app_comm_cons, <-app_comm_cons, !split_lines_cr by done.
      rewrite app_comm_cons, (IH (length (c' :: l))), ends_cr_cons by (simpl; lia).
      destruct (split_lines (c' :: l)) as [ls r]. rewrite snoc_lines_cons. by destruct (snoc_lines _ _ _).
  - destruct (decide (c = LF)) as [->|Hlf].
    + rewrite <-app_comm_cons, !split_lines_lf, (IH (length l)) by (simpl; lia).
      destruct (split_lines l) as [ls r] eqn:Hl.
      destruct l as [|c l]; [|by rewrite snoc_lines_cons; destruct (snoc_lines _ _ _)].
      injection Hl as <- <-. unfold snoc_lines. simpl. by destruct (Ascii.eqb b CR), (Ascii.eqb b LF).
    + rewrite <-app_comm_cons, !split_lines_cons, (IH (length l)) by (done || (simpl; lia)).
      destruct (split_lines l) as [ls r] eqn:Hl.
      destruct l as [|c' l].
      * injection Hl as <- <-. unfold snoc_lines, ends_cr. simpl. rewrite bool_decide_eq_false_2 by congruence.
        simpl. by destruct (Ascii.eqb b CR), (Ascii.eqb b LF).
      * rewrite ends_cr_cons. unfold snoc_lines. simpl. destruct (ends_cr (c' :: l) && Ascii.eqb b LF); [by destruct ls|].
        destruct (Ascii.eqb b CR || Ascii.eqb b LF); by destruct ls.
Qed.

Lemma groups_snoc ls x :
  groups (ls ++ [x]) = let '(gs, open) := groups ls in
                       match x.2 with [] => (gs ++ [open ++ [x]], []) | _ => (gs, open ++ [x]) end.
Proof.
  induction ls as [|[n l] ls IH]; simpl.
  - destruct x as [n [|c l]]; done.
  - rewrite IH. destruct (groups ls) as [gs open]. destruct x.2, l, gs; done.
Qed.
Lemma sized_snoc ls r :
  sized (ls ++ [r]) = sized ls ++ [(N.of_nat (length r), if bool_decide (ls = []) then strip_or bom r else r)].
Proof.
  unfold sized. destruct ls as [|l ls]; [done|]. rewrite fmap_app. simpl. f_equal.
  rewrite zip_with_app; [done|]. by rewrite length_fmap.
Qed.
Lemma values_snoc name ls l :
  values_of name (ls ++ [l]) = values_of name ls ++
    (let '(field, value) := field_of l in if bool_decide (field = bytes name) then [value] else []).
Proof.
  unfold values_of. rewrite omap_app. f_equal. simpl. destruct (field_of l). by case_bool_decide.
Qed.
Lemma size_snoc g x : size_of (g ++ [x]) = (size_of g + x.1)%N.
Proof. induction g as [|y g IH]; simpl; [lia|]. rewrite IH. lia. Qed.

(** ** The state after a stream *)

Definition buffered (ds : list (list ascii)) : list ascii := ds ≫= λ v, v ++ [LF].
Lemma buffered_app a b : buffered (a ++ b) = buffered a ++ buffered b.
Proof. apply bind_app. Qed.
Lemma buffered_nil ds : buffered ds = [] ↔ ds = [].
Proof. destruct ds as [|[|] ds]; done. Qed.
Lemma buffered_join d ds : take (length (buffered (d :: ds)) - 1) (buffered (d :: ds)) = join_lines (d :: ds).
Proof.
  revert d. induction ds as [|d' ds IH]; intros d.
  - unfold buffered. simpl. rewrite app_nil_r, length_app. simpl. rewrite Nat.add_sub. by apply take_app_length.
  - change (buffered (d :: d' :: ds)) with ((d ++ [LF]) ++ buffered (d' :: ds)).
    assert (1 <= length (buffered (d' :: ds)))%nat.
    { destruct (buffered (d' :: ds)) eqn:Hb; [by apply buffered_nil in Hb|simpl; lia]. }
    rewrite length_app, take_app_ge by lia. rewrite <-Nat.add_sub_assoc, Nat.add_comm, Nat.add_sub by lia.
    rewrite IH. cbn [join_lines]. by rewrite <-app_assoc.
Qed.

Definition open_of (l : list ascii) : list (list ascii) := (groups (sized (split_lines l).1)).2.*2.
Definition state_after (lim : N) (l : list ascii) : Decoder :=
  let ls := (split_lines l).1 in
  let open := (groups (sized ls)).2 in
  mkDecoder (split_lines l).2 (buffered (values_of "data" open.*2)) (default [] (last (values_of "event" open.*2)))
    (size_of open + N.of_nat (length (split_lines l).2)) lim (ends_cr l) (bool_decide (ls = [])) false.

Lemma ends_cr_snoc l b : ends_cr (l ++ [b]) = Ascii.eqb b CR.
Proof. unfold ends_cr. rewrite last_snoc. destruct (Ascii.eqb_spec b CR); case_bool_decide; naive_solver. Qed.

(** The three cases of a byte, on everything that depends on the stream. *)
Lemma acceptable_unfold lim l :
  acceptable lim l = forallb valid_utf8 (split_lines l).1
    && forallb (λ g, (size_of g <=? lim)%N) (groups (sized (split_lines l).1)).1
    && (size_of (groups (sized (split_lines l).1)).2 + N.of_nat (length (split_lines l).2) <=? lim)%N.
Proof. unfold acceptable. destruct (split_lines l) as [ls r]. simpl. by destruct (groups (sized ls)). Qed.

Lemma event_blank ls : event_of (ls ++ [[]]) = event_of ls.
Proof. unfold event_of. rewrite !values_snoc. simpl. by rewrite !app_nil_r. Qed.
Lemma event_pending ls :
  match buffered (values_of "data" ls) with
  | [] => None
  | pending => Some (mkEvent (default [] (last (values_of "event" ls))) (take (length pending - 1) pending))
  end = event_of ls.
Proof.
  unfold event_of. destruct (values_of "data" ls) as [|d ds]; [done|].
  rewrite <-buffered_join. by destruct (buffered (d :: ds)) eqn:Hb; [apply buffered_nil in Hb|].
Qed.

Section step.
Context (lim : N) (Hlim : (lim <= u64_max)%N).
Implicit Types (l : list ascii) (b : ascii).

(** What one more byte does, given the bytes before. *)
Definition stepped l b : Prop :=
  if acceptable lim (l ++ [b]) then
    ∃ ev, feed_byte b (state_after lim l) = (Ok ev, state_after lim (l ++ [b])) ∧
          events_of (l ++ [b]) = events_of l ++ option_list ev
  else ∃ e d, feed_byte b (state_after lim l) = (Err e, d).
Lemma acceptable_snoc l b : acceptable lim (l ++ [b]) = true → acceptable lim l = true.
Proof.
  rewrite !acceptable_unfold, split_lines_snoc. unfold snoc_lines.
  destruct (ends_cr l && Ascii.eqb b LF); [done|]. destruct (split_lines l) as [ls r]. simpl.
  destruct (Ascii.eqb b CR || Ascii.eqb b LF); simpl.
  - rewrite sized_snoc, groups_snoc, forallb_app. destruct (groups (sized ls)) as [gs open]. simpl.
    destruct (if bool_decide (ls = []) then _ else _); simpl; rewrite ?forallb_app; simpl; rewrite ?size_snoc; simpl;
      rewrite !andb_true_iff, !N.leb_le; intros; destruct_and!; split_and!; try done; lia.
  - rewrite length_app. simpl. rewrite !andb_true_iff, !N.leb_le. intros; destruct_and!; split_and!; try done; lia.
Qed.

Lemma step_ended l b : ends_cr l = true → b = LF → acceptable lim l = true → stepped l b.
Proof.
  intros Hcr -> Hacc.
  assert (split_lines (l ++ [LF]) = split_lines l) as Hsplit by by rewrite split_lines_snoc, Hcr.
  assert (acceptable lim (l ++ [LF]) = acceptable lim l) as Heq by (unfold acceptable; by rewrite Hsplit).
  unfold stepped. rewrite Heq, Hacc. exists None. unfold feed_byte, events_of. simpl after_cr.
  rewrite Hcr, Hsplit, app_nil_r. split; [|done]. unfold state_after. by rewrite Hsplit, ends_cr_snoc.
Qed.

Lemma step_byte l b : b ≠ CR → b ≠ LF → acceptable lim l = true → stepped l b.
Proof.
  intros Hcr Hlf Hacc.
  assert (split_lines (l ++ [b]) = ((split_lines l).1, (split_lines l).2 ++ [b])) as Hsplit.
  { rewrite split_lines_snoc. unfold snoc_lines. destruct (Ascii.eqb_spec b CR), (Ascii.eqb_spec b LF); try done.
    by rewrite andb_false_r. }
  unfold stepped, events_of, feed_byte, state_after.
  rewrite !acceptable_unfold in *. rewrite Hsplit, ends_cr_snoc. simpl.
  rewrite !andb_true_iff, N.leb_le in Hacc. destruct Hacc as [[Hu Hg] Hs].
  destruct (Ascii.eqb_spec b CR), (Ascii.eqb_spec b LF); try done. rewrite andb_false_r. simpl.
  rewrite Hu, Hg, length_app. simpl. revert Hs. set (s := size_of _). set (r := length _). intros Hs.
  destruct (N.leb_spec (s + N.of_nat (r + 1)) lim) as [Hle|Hgt].
  - exists None. rewrite app_nil_r. split; [|done].
    rewrite (proj2 (checked_add_Some (s + N.of_nat r) 1 (s + N.of_nat (r + 1)))) by lia.
    by destruct (N.ltb_spec lim (s + N.of_nat (r + 1))); [lia|].
  - destruct (checked_add _ _) as [total|] eqn:Hn; [|by eexists _, _].
    apply checked_add_Some in Hn as [-> _]. destruct (N.ltb_spec lim (s + N.of_nat r + 1)); [by eexists _, _|lia].
Qed.

(** The end of a line, for the line so far and the lines before it. *)
Lemma step_line l b :
  ends_cr l && Ascii.eqb b LF = false → Ascii.eqb b CR || Ascii.eqb b LF = true →
  acceptable lim l = true → stepped l b.
Proof.
  intros Hmore Hend Hacc.
  assert (split_lines (l ++ [b]) = ((split_lines l).1 ++ [(split_lines l).2], [])) as Hsplit
    by (rewrite split_lines_snoc; unfold snoc_lines; by rewrite Hmore, Hend).
  unfold stepped, events_of, feed_byte, state_after.
  rewrite !acceptable_unfold in *. rewrite Hsplit, ends_cr_snoc. simpl after_cr. rewrite Hmore, Hend.
  clear Hmore Hend Hsplit. destruct (split_lines l) as [ls r]. simpl in *.
  rewrite sized_snoc, groups_snoc. destruct (groups (sized ls)) as [gs open]. simpl in *.
  rewrite !andb_true_iff, N.leb_le in Hacc. destruct Hacc as [[Hu Hg] Hs].
  unfold finish_line. simpl. assert (bool_decide (ls ++ [r] = []) = false) as -> by (by apply bool_decide_eq_false; intros [_ ?]%app_nil).
  set (text := if bool_decide (ls = []) then strip_or bom r else r).
  rewrite forallb_app. simpl. rewrite Hu. destruct (valid_utf8 r); simpl; [|by eexists _, _].
  destruct text as [|c t] eqn:Htext; simpl.
  - rewrite forallb_app, Hg. simpl. rewrite size_snoc. simpl. rewrite (proj2 (N.leb_le _ _) Hs). simpl.
    replace (0 + N.of_nat 0 <=? lim)%N with true by (symmetry; apply N.leb_le; lia).
    exists (event_of open.*2). rewrite omap_app. simpl. rewrite fmap_app. simpl. rewrite event_blank.
    pose proof (event_pending open.*2) as Hp.
    destruct (buffered (values_of "data" open.*2)); rewrite <-Hp; done.
  - rewrite Hg, size_snoc. simpl. change (N.of_nat 0) with 0%N. rewrite N.add_0_r, (proj2 (N.leb_le _ _) Hs). exists None.
    rewrite app_nil_r, fmap_app. simpl. rewrite !values_snoc, buffered_app.
    destruct (field_of (c :: t)) as [field value].
    change ["d"%char; "a"%char; "t"%char; "a"%char] with (bytes "data").
    change ["e"%char; "v"%char; "e"%char; "n"%char; "t"%char] with (bytes "event").
    destruct (bool_decide (field = bytes "data")) eqn:Hd; [apply bool_decide_eq_true in Hd as ->|].
    + simpl. by rewrite !app_nil_r.
    + change (buffered []) with ([] : list ascii).
      destruct (bool_decide (field = bytes "event")); simpl; rewrite !app_nil_r; [|done]. by rewrite last_snoc.
Qed.

Lemma step l b : acceptable lim l = true → stepped l b.
Proof.
  intros Hacc. destruct (ends_cr l && Ascii.eqb b LF) eqn:Hmore.
  - apply andb_true_iff in Hmore as [? Hb%Ascii.eqb_eq]. by apply step_ended.
  - destruct (Ascii.eqb b CR || Ascii.eqb b LF) eqn:Hend; [by apply step_line|].
    apply orb_false_iff in Hend as [?%Ascii.eqb_neq ?%Ascii.eqb_neq]. by apply step_byte.
Qed.
Lemma acceptable_prefix l k : acceptable lim (l ++ k) = true → acceptable lim l = true.
Proof.
  induction k as [|b k IH] using rev_ind; [by rewrite app_nil_r|]. rewrite app_assoc. intros Hacc.
  by eapply IH, acceptable_snoc.
Qed.

Lemma feed_inner_spec l chunk :
  acceptable lim l = true →
  if acceptable lim (l ++ chunk) then
    ∃ evs, feed_inner chunk (state_after lim l) = (Ok evs, state_after lim (l ++ chunk)) ∧
           events_of (l ++ chunk) = events_of l ++ evs
  else ∃ e d, feed_inner chunk (state_after lim l) = (Err e, d).
Proof.
  revert l. induction chunk as [|b chunk IH]; intros l Hacc; cbn [feed_inner].
  { rewrite app_nil_r, Hacc. exists []. by rewrite app_nil_r. }
  pose proof (step l b Hacc) as Hstep. unfold stepped in Hstep.
  assert (l ++ b :: chunk = (l ++ [b]) ++ chunk) as -> by by rewrite <-app_assoc.
  destruct (acceptable lim (l ++ [b])) eqn:Hb.
  - destruct Hstep as (ev & -> & Hev). specialize (IH _ Hb).
    destruct (acceptable lim ((l ++ [b]) ++ chunk)).
    + destruct IH as (evs & -> & Hevs). eexists. split; [done|]. by rewrite Hevs, Hev, app_assoc.
    + destruct IH as (e & d & ->). by eexists _, _.
  - destruct Hstep as (e & d & ->).
    destruct (acceptable lim ((l ++ [b]) ++ chunk)) eqn:Hall; [apply acceptable_prefix in Hall; congruence|].
    by eexists _, _.
Qed.
Lemma feed_spec l chunk :
  acceptable lim l = true →
  if acceptable lim (l ++ chunk) then
    ∃ evs, feed chunk (state_after lim l) = (Ok evs, state_after lim (l ++ chunk)) ∧
           events_of (l ++ chunk) = events_of l ++ evs
  else ∃ e d, feed chunk (state_after lim l) = (Err e, d) ∧ failed d = true.
Proof.
  intros Hacc. pose proof (feed_inner_spec l chunk Hacc) as Hfeed. unfold feed. cbn [failed state_after].
  destruct (acceptable lim (l ++ chunk)); [by destruct Hfeed as (evs & -> & ?); exists evs|].
  destruct Hfeed as (e & d & ->). by eexists _, _.
Qed.
Lemma feed_all_closed chunks d :
  failed d = true → feed_all chunks d = (replicate (length chunks) (Err DecoderClosed), d).
Proof.
  intros Hf. induction chunks as [|chunk chunks IH]; simpl; [done|]. unfold feed. rewrite Hf. by rewrite IH.
Qed.
Lemma feed_all_spec l chunks :
  acceptable lim l = true →
  let '(rs, d) := feed_all chunks (state_after lim l) in
  if acceptable lim (l ++ concat chunks) then
    ∃ evss, rs = Ok <$> evss ∧ events_of (l ++ concat chunks) = events_of l ++ concat evss ∧
            d = state_after lim (l ++ concat chunks)
  else
    ∃ evss e closed, rs = (Ok <$> evss) ++ Err e :: replicate closed (Err DecoderClosed) ∧
      length rs = length chunks ∧ failed d = true ∧
      events_of (l ++ concat (take (length evss) chunks)) = events_of l ++ concat evss ∧
      acceptable lim (l ++ concat (take (S (length evss)) chunks)) = false.
Proof.
  revert l. induction chunks as [|chunk chunks IH]; intros l Hacc; cbn [feed_all concat].
  { rewrite app_nil_r, Hacc. exists []. by rewrite !app_nil_r. }
  pose proof (feed_spec l chunk Hacc) as Hfeed. rewrite app_assoc.
  destruct (acceptable lim (l ++ chunk)) eqn:Hc.
  - destruct Hfeed as (evs & -> & Hevs). specialize (IH _ Hc).
    destruct (feed_all chunks (state_after lim (l ++ chunk))) as [rs d].
    destruct (acceptable lim ((l ++ chunk) ++ concat chunks)).
    + destruct IH as (evss & -> & Hall & ->). exists (evs :: evss). split_and!; [done| |done].
      simpl. by rewrite Hall, Hevs, app_assoc.
    + destruct IH as (evss & e & closed & -> & Hlen & Hf & Hev & Hbad). exists (evs :: evss), e, closed.
      split_and!; [done|simpl in *; congruence|done| |].
      * cbn [length take concat]. by rewrite app_assoc, Hev, Hevs, <-app_assoc.
      * cbn [length take concat] in *. by rewrite app_assoc.
  - destruct Hfeed as (e & d & -> & Hf). rewrite feed_all_closed by done.
    destruct (acceptable lim ((l ++ chunk) ++ concat chunks)) eqn:Hall; [apply acceptable_prefix in Hall; congruence|].
    exists [], e, (length chunks). split_and!; [done|simpl; by rewrite length_replicate|done| |].
    + by rewrite !app_nil_r.
    + simpl. by rewrite app_nil_r.
Qed.
Lemma finish_spec l : (finish (state_after lim l)).1 = if whole l then Ok tt else Err TruncatedFrame.
Proof.
  unfold finish, whole, state_after. simpl. destruct (split_lines l) as [ls r]. simpl.
  rewrite (bool_decide_ext _ _ (buffered_nil _)). by destruct (_ && _).
Qed.
End step.

(** C15: The decoder gives the events of the stream, in whatever chunks the bytes come:
    as long as the stream is acceptable every chunk succeeds and the events given,
    chunk after chunk, are those of the stream, and [finish] accepts it exactly when
    it ends with an event; otherwise the chunk in which the stream stops being
    acceptable fails, nothing is given beyond the events of the chunks before, and
    the decoder is closed for good. *)
Theorem decoder_spec lim chunks :
  (lim <= u64_max)%N →
  let '(rs, d) := feed_all chunks (new lim) in
  if acceptable lim (concat chunks) then
    ∃ evss, rs = Ok <$> evss ∧ concat evss = events_of (concat chunks) ∧
            (finish d).1 = if whole (concat chunks) then Ok tt else Err TruncatedFrame
  else
    ∃ evss e closed, rs = (Ok <$> evss) ++ Err e :: replicate closed (Err DecoderClosed) ∧
      length rs = length chunks ∧ failed d = true ∧
      concat evss = events_of (concat (take (length evss) chunks)) ∧
      acceptable lim (concat (take (S (length evss)) chunks)) = false.
Proof.
  intros Hlim. assert (acceptable lim [] = true) as Hnil by (unfold acceptable; simpl; by apply N.leb_le; lia).
  pose proof (feed_all_spec lim Hlim [] chunks Hnil) as Hall.
  change (state_after lim []) with (new lim) in Hall.
  destruct (feed_all chunks (new lim)) as [rs d]. simpl app in Hall.
  destruct (acceptable lim (concat chunks)).
  - destruct Hall as (evss & -> & Hev & ->). exists evss. split_and!; [done|done|apply finish_spec].
  - destruct Hall as (evss & e & closed & ? & ? & ? & ? & ?). by exists evss, e, closed.
Qed.

(** A stream cut inside a line ending and inside a character. *)
Definition demo_stream : list (list ascii) :=
  [bytes "event: note" ++ [CR]; [LF] ++ bytes "data: " ++ take 1 bom; drop 1 bom ++ [CR] ++ bytes "data:b" ++ [LF];
   [LF] ++ bytes ": ping" ++ [LF; LF]].
Lemma decoder_spec_witness :
  acceptable 30 (concat demo_stream) = true ∧
  events_of (concat demo_stream) = [mkEvent (bytes "note") (bom ++ [LF] ++ bytes "b")] ∧
  ∃ evss, (feed_all demo_stream (new 30)).1 = Ok <$> evss ∧ concat evss = events_of (concat demo_stream).
Proof.
  split; [vm_compute; reflexivity|]. split; [vm_compute; reflexivity|].
  pose proof (decoder_spec 30 demo_stream ltac:(vm_compute; discriminate)) as H.
  destruct (feed_all demo_stream (new 30)) as [rs d].
  replace (acceptable 30 (concat demo_stream)) with true in H by (vm_compute; reflexivity).
  destruct H as (evss & Hrs & Hev & _). exists evss. split; [exact Hrs|exact Hev].
Defined.
