(* ===== verification/Output.v ===== *)
(** * Output: what of a tool's output reaches the model

    [adk-runtime/src/output.rs]: the text of an output within its budget, the spill
    of what does not fit, the delimiters of untrusted text.  A path is the list of
    its components.  The file system of [spill] is a map of files and a set of
    directories under a schedule of faults: each system call takes the head of the
    schedule, and fails on [Some n] (a write after [n] bytes). *)

From S2P Require Import Prelude Text Core.

Definition DEFAULT_MAX_OUTPUT_BYTES : nat := 16 * 1024.
Definition BEGIN : string := "BEGIN UNTRUSTED TOOL OUTPUT".
Definition END_ : string := "END UNTRUSTED TOOL OUTPUT".
Definition WRAPPER_BYTES : nat := String.length BEGIN + String.length END_ + 2.
Definition newline : ascii := ascii_of_N 10.
(** U+2026 on both sides *)
Definition ELISION : list ascii :=
  let dots := ascii_of_N <$> [0xe2; 0x80; 0xa6]%N in
  [newline] ++ dots ++ bytes "[elided]" ++ dots ++ [newline].

Notation path := (list string) (only parsing).
Record OutputPolicy := mkOutputPolicy {
  max_bytes : option nat;
  untrusted : bool;
  spill_directory : option path;
  work_dir : option path;
}.
Definition default_policy : OutputPolicy := mkOutputPolicy (Some DEFAULT_MAX_OUTPUT_BYTES) true None None.

Record SpillFile := mkSpill { spill_path : path; directory : path }.
Record ProcessedOutput := mkProcessed {
  output : ToolOutput;
  item_output : ToolOutput;
  spill : option SpillFile;
}.

(** ** Truncation *)

(** [while !text.is_char_boundary(i) { i -= 1 }] and [{ i += 1 }]: the start and the
    end of a text are boundaries. *)
Fixpoint floor_boundary (text : list ascii) (i : nat) : nat :=
  if is_char_boundary text i then i else match i with O => O | S i => floor_boundary text i end.
Fixpoint ceil_boundary (fuel : nat) (text : list ascii) (i : nat) : nat :=
  match fuel with
  | O => i
  | S fuel => if is_char_boundary text i then i else ceil_boundary fuel text (S i)
  end.
Definition truncate_middle (text : list ascii) (budget : nat) : list ascii :=
  if (length text <=? budget)%nat then text
  else if (budget <=? length ELISION)%nat then take (floor_boundary text budget) text
  else
    let keep := budget - length ELISION in
    let head := floor_boundary text (keep / 3 * 2 + keep mod 3 * 2 / 3) in
    let tail := ceil_boundary (length text) text (length text - (keep - head)) in
    take head text ++ ELISION ++ drop tail text.

(** ** Spilling *)

Record Fs := mkFs {
  files : gmap path (list ascii);
  directories : gset path;
  faults : list (option nat);
}.
Notation M := (SE Fs Error).

Section output.
(** [canonicalize] of the file system, the directories of the process, the bytes of
    [/dev/urandom] in hexadecimal and [Path::display]. *)
Context (canonicalize : path → option path) (temp_dir current_dir : path) (nonce : string)
  (display : path → string).

Definition spill_error : Error := mkError Host "could not create private tool output spill".
Definition forbidden_error : Error :=
  mkError PermissionDenied "tool output spills must be outside the working directory".

(** A system call that runs unless the schedule has it fail. *)
Definition next_fault (fs : Fs) : option nat * Fs :=
  match faults fs with
  | [] => (None, fs)
  | f :: rest => (f, mkFs (files fs) (directories fs) rest)
  end.
Definition call {A} (op : Fs → option (A * Fs)) : M A := λ fs,
  match next_fault fs with
  | (Some _, fs) => (Err spill_error, fs)
  | (None, fs) => match op fs with Some (a, fs) => (Ok a, fs) | None => (Err spill_error, fs) end
  end.
Definition canonical (p : path) : M path := call (λ fs, (λ q, (q, fs)) <$> canonicalize p).
Definition get_current_dir : M path := call (λ fs, Some (current_dir, fs)).
Definition read_random : M string := call (λ fs, Some (nonce, fs)).
Definition exists_ (p : path) (fs : Fs) : bool :=
  bool_decide (is_Some (files fs !! p)) || bool_decide (p ∈ directories fs).
Definition create_dir (p : path) : M unit :=
  call (λ fs, if exists_ p fs then None else Some (tt, mkFs (files fs) ({[p]} ∪ directories fs) (faults fs))).
Definition create_new (p : path) : M unit :=
  call (λ fs, if exists_ p fs then None else Some (tt, mkFs (<[p := []]> (files fs)) (directories fs) (faults fs))).
Definition write_all (p : path) (data : list ascii) : M unit := λ fs,
  match next_fault fs with
  | (Some n, fs) => (Err spill_error, mkFs (<[p := take n data]> (files fs)) (directories fs) (faults fs))
  | (None, fs) => (Ok tt, mkFs (<[p := data]> (files fs)) (directories fs) (faults fs))
  end.
Definition sync_all : M unit := call (λ fs, Some (tt, fs)).

(** [impl Drop for SpillFile]: failures are ignored, and a directory that is not
    empty stays. *)
Definition holds_file (d : path) (fs : Fs) : bool :=
  existsb (λ p, bool_decide (take (length d) p = d)) (fst <$> map_to_list (files fs)).
Definition drop_spill (s : SpillFile) (fs : Fs) : Fs :=
  let '(f, fs) := next_fault fs in
  let fs := match f with
            | None => mkFs (delete (spill_path s) (files fs)) (directories fs) (faults fs)
            | Some _ => fs
            end in
  let '(f, fs) := next_fault fs in
  match f with
  | None => if holds_file (directory s) fs then fs
            else mkFs (files fs) (directories fs ∖ {[directory s]}) (faults fs)
  | Some _ => fs
  end.
(** An error drops the spill that was made. *)
Definition guarding {A} (s : SpillFile) (m : M A) : M A := λ fs,
  match m fs with
  | (Ok a, fs) => (Ok a, fs)
  | (Err e, fs) => (Err e, drop_spill s fs)
  end.

(** [Path::starts_with] *)
Definition starts_with_path (p base : path) : bool := bool_decide (base `prefix_of` p).

Definition write_spill (self : OutputPolicy) (raw : list ascii) : M SpillFile :=
  parent ← canonical (default temp_dir (spill_directory self));
  work_dir ← match work_dir self with Some p => mret p | None => get_current_dir end;
  work_dir ← canonical work_dir;
  if starts_with_path parent work_dir then fail forbidden_error
  else
    nonce ← read_random;
    let directory := parent ++ [".adk-output-" +:+ nonce] in
    _ ← create_dir directory;
    let spill := mkSpill (directory ++ ["output.txt"]) directory in
    _ ← guarding spill
          (_ ← create_new (spill_path spill);
           _ ← write_all (spill_path spill) raw;
           sync_all);
    mret spill.

(** ** The output *)

(** The text parts joined by newlines, the place of the first one, the other parts. *)
Definition collect (acc : list ascii * option nat * list Content) (part : Content)
    : list ascii * option nat * list Content :=
  let '(raw, first_text, retained) := acc in
  match part with
  | Core.Text text | ContentReasoning text _ =>
      match first_text with
      | Some i => (raw ++ newline :: bytes text, Some i, retained)
      | None => (raw ++ bytes text, Some (length retained), retained)
      end
  | other => (raw, first_text, retained ++ [other])
  end.
(** [content.insert(index, part)] *)
Definition insert_part (index : nat) (part : Content) (content : list Content) : list Content :=
  take index content ++ part :: drop index content.

(** The text within the budget, and the spill of what is not. *)
Definition fit (self : OutputPolicy) (raw : list ascii) (writable : bool)
    : M (list ascii * option SpillFile) :=
  let overhead := if untrusted self then WRAPPER_BYTES else 0 in
  match (λ cap, cap - overhead) <$> max_bytes self with
  | Some budget =>
      if (budget <? length raw)%nat then
        spill ← (if writable then s ← write_spill self raw; mret (Some s) else mret None);
        let hint := match spill with
                    | Some s => bytes ((String newline "") +:+ "[full output saved to " +:+ display (spill_path s) +:+ "]")
                    | None => []
                    end in
        let hint := if (length hint <? budget)%nat then hint else [] in
        mret (truncate_middle raw (budget - length hint) ++ hint, spill)
      else mret (raw, None)
  | None => mret (raw, None)
  end.
(** The delimiters around a text that does not have the first of them. *)
Definition wrap (self : OutputPolicy) (text : list ascii) : list ascii :=
  if untrusted self && negb (contains (bytes BEGIN) text)
  then bytes BEGIN ++ [newline] ++ text ++ [newline] ++ bytes END_ else text.

Definition process (self : OutputPolicy) (out : ToolOutput) (writable : bool) : M ProcessedOutput :=
  let '(raw, first_text, retained) := foldl collect ([], None, []) (output_content out) in
  '(text, spill) ← fit self raw writable;
  let item := match first_text with
              | Some i => insert_part i (Core.Text (of_bytes text)) retained
              | None => retained
              end in
  let content := if bool_decide (is_Some first_text) || untrusted self
                 then insert_part (default 0 first_text) (Core.Text (of_bytes (wrap self text))) retained
                 else retained in
  mret (mkProcessed (mkToolOutput content (is_error out) (should_pause out))
                    (mkToolOutput item (is_error out) (should_pause out)) spill).
End output.
