(* ===== verification/OutputProps.v ===== *)
(** * OutputProps: bounds, boundaries and spills of an output *)

From S2P Require Import Prelude Text Core Output.

(** ** Characters of UTF-8 *)

(** The bytes of one character: a lead byte and continuation bytes. *)
Definition one_char (l : list ascii) : bool :=
  match l with
  | [a] => in_range 0 127 a
  | [a; b] => lead2 a && cont b
  | [a; b; c] => lead3 a b && cont c
  | [a; b; c; d] => lead4 a b && cont c && cont d
  | _ => false
  end.
Lemma valid_utf8_cons l : valid_utf8 l = true → l = [] ∨ ∃ ch rest, l = ch ++ rest ∧ one_char ch = true ∧ valid_utf8 rest = true.
Proof.
  destruct l as [|a l]; [by left|]. simpl. intros Hv. right.
  apply orb_true_iff in Hv as [[Ha Hv]%andb_true_iff|Hv]; [by exists [a], l|].
  destruct l as [|b l]; [done|]. apply orb_true_iff in Hv as [[Hab Hv]%andb_true_iff|Hv]; [by exists [a; b], l|].
  destruct l as [|c l]; [done|]. apply orb_true_iff in Hv as [[Habc Hv]%andb_true_iff|Hv]; [by exists [a; b; c], l|].
  destruct l as [|d l]; [done|]. apply andb_true_iff in Hv as [Habcd Hv]. by exists [a; b; c; d], l.
Qed.
Lemma valid_utf8_char ch rest : one_char ch = true → valid_utf8 rest = true → valid_utf8 (ch ++ rest) = true.
Proof.
  intros Hc Hr. destruct ch as [|a [|b [|c [|d [|]]]]]; try done; cbn [app valid_utf8]; simpl in Hc.
  - by rewrite Hc, Hr.
  - rewrite Hc, Hr. simpl. by rewrite orb_true_r.
  - rewrite Hc, Hr. simpl. by rewrite !orb_true_r.
  - rewrite Hc, Hr. simpl. by rewrite !orb_true_r.
Qed.
Lemma valid_utf8_app a b : valid_utf8 a = true → valid_utf8 b = true → valid_utf8 (a ++ b) = true.
Proof.
  remember (length a) as n eqn:Hn. revert a Hn. induction n as [n IH] using lt_wf_ind. intros a -> Ha Hb.
  apply valid_utf8_cons in Ha as [->|(ch & rest & -> & Hc & Hr)]; [done|].
  rewrite <-app_assoc. apply valid_utf8_char; [done|]. eapply IH; [|done..].
  rewrite length_app. destruct ch; [done|simpl; lia].
Qed.
Lemma in_range_lead lo hi a : in_range lo hi a = true → (hi < 128 ∨ 192 <= lo)%N → is_lead a = true.
Proof.
  unfold in_range, is_lead. rewrite andb_true_iff, !N.leb_le. intros [? ?] Hb.
  destruct (N.leb_spec 128 (byte_val a)), (N.ltb_spec (byte_val a) 192); try done. lia.
Qed.
Lemma cont_not_lead a : cont a = true → is_lead a = false.
Proof.
  unfold cont, in_range, is_lead. rewrite andb_true_iff, !N.leb_le. intros [? ?].
  destruct (N.leb_spec 128 (byte_val a)), (N.ltb_spec (byte_val a) 192); try done; lia.
Qed.
Lemma in_range_weaken lo hi lo' hi' a : in_range lo hi a = true → (lo' <= lo)%N → (hi <= hi')%N → in_range lo' hi' a = true.
Proof. unfold in_range. rewrite !andb_true_iff, !N.leb_le. lia. Qed.
Lemma lead3_cont a b : lead3 a b = true → cont b = true.
Proof.
  unfold lead3. rewrite !orb_true_iff, !andb_true_iff.
  intros [[[[_ Hb]|[_ Hb]]|[_ Hb]]|[_ Hb]]; try done; by eapply in_range_weaken.
Qed.
Lemma lead4_cont a b : lead4 a b = true → cont b = true.
Proof.
  unfold lead4. rewrite !orb_true_iff, !andb_true_iff.
  intros [[[_ Hb]|[_ Hb]]|[_ Hb]]; try done; by eapply in_range_weaken.
Qed.
(** Inside a character no byte is a boundary. *)
Lemma one_char_inside ch rest i : one_char ch = true → (0 < i < length ch)%nat → is_char_boundary (ch ++ rest) i = false.
Proof.
  intros Hc Hi. unfold is_char_boundary.
  assert (∃ x, ch !! i = Some x ∧ cont x = true) as (x & Hx & Hcx).
  { destruct ch as [|a [|b [|c [|d [|]]]]]; try done; simpl in *; try lia; rewrite ?andb_true_iff in Hc.
    - assert (i = 1%nat) as -> by lia. exists b. by destruct Hc.
    - destruct Hc as [Hab%lead3_cont Hcc].
      assert (i = 1 ∨ i = 2)%nat as [-> | ->] by lia; [by exists b|by exists c].
    - destruct Hc as [[Hab%lead4_cont Hcc] Hcd].
      assert (i = 1 ∨ i = 2 ∨ i = 3)%nat as [-> | [-> | ->]] by lia; [by exists b|by exists c|by exists d]. }
  rewrite lookup_app_l by lia. rewrite Hx, (cont_not_lead x) by done. rewrite length_app.
  destruct (Nat.eqb_spec i 0), (Nat.eqb_spec i (length ch + length rest)); done || lia.
Qed.
Lemma boundary_skip ch rest i :
  ch ≠ [] → (length ch <= i)%nat → is_char_boundary (ch ++ rest) i = true →
  is_char_boundary rest (i - length ch) = true.
Proof.
  intros Hne Hi. unfold is_char_boundary. rewrite length_app, lookup_app_r by done.
  assert (0 < length ch)%nat by (destruct ch; [done|simpl; lia]).
  destruct (Nat.eqb_spec i 0); [lia|].
  destruct (Nat.eqb_spec (i - length ch) 0); [done|].
  destruct (Nat.eqb_spec i (length ch + length rest)), (Nat.eqb_spec (i - length ch) (length rest)); try done; lia.
Qed.
(** A boundary cuts a valid text into two. *)
Lemma boundary_valid l i :
  valid_utf8 l = true → is_char_boundary l i = true → valid_utf8 (take i l) = true ∧ valid_utf8 (drop i l) = true.
Proof.
  remember (length l) as n eqn:Hn. revert l i Hn. induction n as [n IH] using lt_wf_ind. intros l i -> Hv Hb.
  apply valid_utf8_cons in Hv as Hl. destruct Hl as [->|(ch & rest & -> & Hc & Hr)]; [by rewrite take_nil, drop_nil|].
  destruct (decide (i = 0)) as [->|Hi0]; [by rewrite take_0, drop_0|].
  destruct (decide (i < length ch)%nat) as [Hi|Hi].
  { rewrite one_char_inside in Hb; [done..|lia]. }
  assert (ch ≠ []) as Hne by by intros ->.
  rewrite take_app_ge, drop_app_ge by lia.
  destruct (IH (length rest)) with (l := rest) (i := (i - length ch)%nat) as [Ht Hd]; [|done|done| |].
  - rewrite length_app. destruct ch; [done|simpl; lia].
  - apply boundary_skip; [done|lia|done].
  - split; [|done]. by apply valid_utf8_char.
Qed.

Lemma floor_boundary_spec l i : is_char_boundary l (floor_boundary l i) = true ∧ (floor_boundary l i <= i)%nat.
Proof.
  induction i as [|i [IH IHle]]; simpl; [done|].
  destruct (is_char_boundary l (S i)) eqn:Hb; [by split|]. split; [done|lia].
Qed.
Lemma ceil_boundary_spec fuel l i :
  (i <= length l)%nat → (length l - i <= fuel)%nat →
  is_char_boundary l (ceil_boundary fuel l i) = true ∧ (i <= ceil_boundary fuel l i <= length l)%nat.
Proof.
  assert (is_char_boundary l (length l) = true) as Hend
    by (unfold is_char_boundary; rewrite Nat.eqb_refl; by rewrite orb_true_r).
  revert i. induction fuel as [|fuel IH]; intros i Hi Hf; simpl.
  - assert (i = length l) as -> by lia. by split.
  - destruct (is_char_boundary l i) eqn:Hb; [by split; [|lia]|].
    destruct (decide (i = length l)) as [->|]; [congruence|]. destruct (IH (S i)) as [? ?]; [lia..|]. split; [done|lia].
Qed.

(** What is shown of a text that is over its budget.  In a budget that does not hold more than the
    mark of the elision: the longest start of the text, in whole characters, that the budget holds.
    Else a start and an end of the text around the mark: the start is the longest within two thirds
    of what the mark leaves of the budget, the end the longest within what the start leaves. *)
Inductive elided (raw : list ascii) (budget : nat) : list ascii → Prop :=
| elided_start i :
    (budget <= length ELISION)%nat → is_char_boundary raw i = true → (i <= budget)%nat →
    (∀ k, is_char_boundary raw k = true → (k <= budget)%nat → (k <= i)%nat) →
    elided raw budget (take i raw)
| elided_middle i j :
    (length ELISION < budget)%nat → (i <= j <= length raw)%nat →
    is_char_boundary raw i = true → (3 * i <= 2 * (budget - length ELISION))%nat →
    (∀ k, is_char_boundary raw k = true → (3 * k <= 2 * (budget - length ELISION))%nat → (k <= i)%nat) →
    is_char_boundary raw j = true → (i + length ELISION + (length raw - j) <= budget)%nat →
    (∀ k, is_char_boundary raw k = true → (k <= length raw)%nat →
       (i + length ELISION + (length raw - k) <= budget)%nat → (j <= k)%nat) →
    elided raw budget (take i raw ++ ELISION ++ drop j raw).

Lemma floor_boundary_max l i k : is_char_boundary l k = true → (k <= i)%nat → (k <= floor_boundary l i)%nat.
Proof.
  intros Hk. induction i as [|i IH]; intros Hi; simpl; [lia|]. destruct (is_char_boundary l (S i)) eqn:Hb; [done|].
  apply IH. destruct (decide (k = S i)) as [->|]; [congruence|lia].
Qed.
Lemma ceil_boundary_min fuel l i k : is_char_boundary l k = true → (i <= k)%nat → (ceil_boundary fuel l i <= k)%nat.
Proof.
  intros Hk. revert i. induction fuel as [|fuel IH]; intros i Hi; simpl; [done|].
  destruct (is_char_boundary l i) eqn:Hb; [done|]. apply IH. destruct (decide (k = i)) as [->|]; [congruence|lia].
Qed.
Lemma two_thirds n k : (k <= n / 3 * 2 + n mod 3 * 2 / 3)%nat ↔ (3 * k <= 2 * n)%nat.
Proof.
  pose proof (Nat.div_mod_eq n 3). pose proof (Nat.mod_upper_bound n 3).
  pose proof (Nat.div_mod_eq (n mod 3 * 2) 3). pose proof (Nat.mod_upper_bound (n mod 3 * 2) 3). lia.
Qed.
Lemma truncate_elided l budget : (budget < length l)%nat → elided l budget (truncate_middle l budget).
Proof.
  intros Hl. unfold truncate_middle. destruct (Nat.leb_spec (length l) budget) as [?|_]; [lia|].
  destruct (Nat.leb_spec budget (length ELISION)) as [?|Hb].
  { pose proof (floor_boundary_spec l budget) as [? ?]. constructor; [done..|]. intros. by apply floor_boundary_max. }
  set (keep := budget - length ELISION). pose proof (two_thirds keep) as Htwo.
  set (start := (keep / 3 * 2 + keep mod 3 * 2 / 3)%nat) in *.
  pose proof (floor_boundary_spec l start) as [Hhead Hf]. pose proof (floor_boundary_max l start) as Hmax.
  set (head := floor_boundary l start) in *. apply Htwo in Hf as Hf'.
  destruct (ceil_boundary_spec (length l) l (length l - (keep - head))) as [Htail Hc]; [lia..|].
  constructor; [done|lia|done|done| |done|lia|].
  - intros k Hk Hle. apply Hmax; [done|]. by apply Htwo.
  - intros k Hk Hkl Hle. apply ceil_boundary_min; [done|lia].
Qed.
Lemma elided_length raw budget text : elided raw budget text → (length text <= budget)%nat.
Proof. intros [i|i j]; rewrite ?length_app, ?length_take, ?length_drop; lia. Qed.
Lemma elided_valid raw budget text : elided raw budget text → valid_utf8 raw = true → valid_utf8 text = true.
Proof.
  intros [i|i j] Hv; [by apply boundary_valid|].
  apply valid_utf8_app; [by apply boundary_valid|]. apply valid_utf8_app; [vm_compute; reflexivity|]. by apply boundary_valid.
Qed.
Lemma contains_spec p l : contains p l = true ↔ ∃ before after, l = before ++ p ++ after.
Proof.
  induction l as [|x l IH]; cbn [contains]; rewrite orb_true_iff.
  - split; [intros [H|]; [|done]|].
    + exists []. apply starts_with_spec in H as [after Hafter]. by exists after.
    + intros (before & after & Heq). left. apply starts_with_spec. destruct before; [by exists after|done].
  - rewrite IH. split.
    + intros [H|(before & after & ->)]; [|by exists (x :: before), after].
      exists []. apply starts_with_spec in H as [after Hafter]. by exists after.
    + intros ([|y before] & after & Heq); [left|right].
      * apply starts_with_spec. by exists after.
      * injection Heq as -> ->. by exists before, after.
Qed.

(** ** Collecting the text *)

Definition text_of (part : Content) : option (list ascii) :=
  match part with Core.Text t | ContentReasoning t _ => Some (bytes t) | _ => None end.
Fixpoint join_texts (ts : list (list ascii)) : list ascii :=
  match ts with [] => [] | [t] => t | t :: ts => t ++ newline :: join_texts ts end.
Definition others (content : list Content) : list Content := List.filter (λ p, bool_decide (text_of p = None)) content.
(** The parts before the first text, if there is one. *)
Fixpoint text_place (content : list Content) : option nat :=
  match content with
  | [] => None
  | p :: content => if text_of p then Some 0%nat else S <$> text_place content
  end.

Lemma join_texts_snoc ts t : ts ≠ [] → join_texts (ts ++ [t]) = join_texts ts ++ newline :: t.
Proof.
  induction ts as [|a [|b ts] IH]; [done|done|]. intros _. cbn [join_texts app] in *.
  rewrite IH by done. by rewrite <-app_assoc.
Qed.
Lemma text_place_None content : text_place content = None ↔ omap text_of content = [].
Proof.
  induction content as [|p content IH]; [done|]. csimpl. destruct (text_of p); [done|].
  rewrite <-IH. by destruct (text_place content).
Qed.
Lemma text_place_snoc content p :
  text_place (content ++ [p]) =
  match text_place content with
  | Some i => Some i
  | None => if text_of p then Some (length (others content)) else None
  end.
Proof.
  induction content as [|q content IH]; simpl; [by destruct (text_of p)|].
  destruct (text_of q) eqn:Hq; [done|]. rewrite IH. simpl. destruct (text_place content); [done|]. simpl.
  by destruct (text_of p).
Qed.
Lemma collect_spec content :
  foldl collect ([], None, []) content = (join_texts (omap text_of content), text_place content, others content).
Proof.
  induction content as [|p content IH] using rev_ind; [done|].
  rewrite foldl_snoc, IH, omap_app, text_place_snoc. unfold others. rewrite List.filter_app. simpl.
  destruct (text_place content) as [i|] eqn:Hp.
  - assert (omap text_of content ≠ []) as Hne by (intros Hn%text_place_None; congruence).
    destruct p; simpl; rewrite ?app_nil_r, ?join_texts_snoc by done; done.
  - pose proof Hp as ->%text_place_None. destruct p; simpl; rewrite ?app_nil_r; done.
Qed.

(** ** Spills *)

Definition ones (fs : list (option nat)) : nat := length (List.filter (λ f, bool_decide (is_Some f)) fs).

Section spills.
Context (canonicalize : list string → option (list string)) (temp_dir current_dir : list string) (nonce : string)
  (display : list string → string).
Notation write_spill := (write_spill canonicalize temp_dir current_dir nonce).
Notation process := (process canonicalize temp_dir current_dir nonce display).

(** A system call that leaves the files as they are. *)
Definition quiet {A} (m : SE Fs Error A) : Prop := ∀ fs r fs', m fs = (r, fs') →
  files fs' = files fs ∧ directories fs' = directories fs ∧ (ones (faults fs') <= ones (faults fs))%nat ∧
  (is_ok r = true → ones (faults fs') = ones (faults fs)).
Lemma next_fault_spec fs f fs' : next_fault fs = (f, fs') →
  files fs' = files fs ∧ directories fs' = directories fs ∧
  ones (faults fs) = (ones (faults fs') + if f then 1 else 0)%nat.
Proof.
  unfold next_fault. destruct (faults fs) as [|g gs] eqn:Hf; intros [= <- <-]; simpl; rewrite ?Hf; [by split_and!|].
  split_and!; [done..|]. unfold ones. simpl. destruct g; simpl; lia.
Qed.
Lemma call_quiet {A} (op : Fs → option (A * Fs)) :
  (∀ fs a fs', op fs = Some (a, fs') → fs' = fs) → quiet (call op).
Proof.
  intros Hop fs r fs'. unfold call. destruct (next_fault fs) as [f fs1] eqn:Hf.
  apply next_fault_spec in Hf as (Hfi & Hd & Hn). destruct f.
  - intros [= <- <-]. split_and!; [done|done|lia|done].
  - destruct (op fs1) as [[a fs2]|] eqn:Ho; intros [= <- <-]; [apply Hop in Ho as ->|]; split_and!; done || lia.
Qed.
Lemma bind_quiet {A B} (m : SE Fs Error A) (f : A → SE Fs Error B) : quiet m → (∀ a, quiet (f a)) → quiet (m ≫= f).
Proof.
  intros Hm Hf fs r fs'. unfold mbind, SE_bind. destruct (m fs) as [[a|e] fs1] eqn:H1.
  - intros H2. apply Hm in H1 as (? & ? & ? & Hok). apply Hf in H2 as (? & ? & ? & Hok2).
    specialize (Hok eq_refl). split_and!; [congruence|congruence|lia|]. intros Hr. by rewrite Hok2.
  - intros [= <- <-]. by apply Hm in H1.
Qed.

(** An error between the creation of the directory and the end of the file. *)
Lemma drop_spill_files s fs : ones (faults fs) = 0%nat → files (drop_spill s fs) = delete (spill_path s) (files fs).
Proof.
  intros H0. unfold drop_spill. destruct (next_fault fs) as [f fs1] eqn:Hf.
  apply next_fault_spec in Hf as (Hfi & _ & Hn). destruct f; [lia|].
  destruct (next_fault _) as [f fs2] eqn:Hf2. apply next_fault_spec in Hf2 as (Hfi2 & _ & Hn2). simpl in *.
  destruct f; [lia|]. by destruct (holds_file _ _); simpl; rewrite Hfi2, Hfi.
Qed.

(** The file of a spill: new, outside the working directory, holding all of the text. *)
Definition spilled (self : OutputPolicy) (raw : list ascii) (s : SpillFile) (fs fs' : Fs) : Prop :=
  files fs !! spill_path s = None ∧ files fs' = <[spill_path s := raw]> (files fs) ∧
  ∃ parent work, canonicalize (default temp_dir (spill_directory self)) = Some parent ∧
    canonicalize (default current_dir (work_dir self)) = Some work ∧
    ¬ work `prefix_of` parent ∧ spill_path s = parent ++ [".adk-output-" +:+ nonce; "output.txt"].

Lemma call_Ok {A} (op : Fs → option (A * Fs)) fs a fs' :
  call op fs = (Ok a, fs') → ∃ fs1, next_fault fs = (None, fs1) ∧ op fs1 = Some (a, fs').
Proof.
  unfold call. destruct (next_fault fs) as [[f|] fs1]; [done|]. destruct (op fs1) as [[a' fs2]|] eqn:Ho; [|done].
  intros [= <- <-]. by exists fs1.
Qed.
Lemma drop_spill_absent s fs : files fs !! spill_path s = None → files (drop_spill s fs) = files fs.
Proof.
  intros Hp. unfold drop_spill. destruct (next_fault fs) as [f fs1] eqn:Hf.
  apply next_fault_spec in Hf as (Hfi & _ & _).
  assert (files (match f with Some _ => fs1 | None =>
    mkFs (delete (spill_path s) (files fs1)) (directories fs1) (faults fs1) end) = files fs) as Hfs.
  { destruct f; simpl; rewrite Hfi; [done|]. by apply delete_id. }
  destruct (next_fault _) as [g fs2] eqn:Hg. apply next_fault_spec in Hg as (Hgi & _ & _).
  rewrite Hfs in Hgi. destruct g; [done|]. by destruct (holds_file _ _).
Qed.
Lemma guarding_spec s raw fs r fs' :
  files fs !! spill_path s = None →
  guarding s (_ ← create_new (spill_path s); _ ← write_all (spill_path s) raw; sync_all) fs = (r, fs') →
  match r with
  | Ok _ => files fs' = <[spill_path s := raw]> (files fs)
  | Err _ => (ones (faults fs) <= 1)%nat → files fs' = files fs
  end.
Proof.
  intros Hp. unfold guarding, mbind, SE_bind, create_new, sync_all, call, write_all.
  destruct (next_fault fs) as [f fs1] eqn:Hf. apply next_fault_spec in Hf as (Hfi & _ & Hn).
  destruct f as [f|].
  { intros [= <- <-] _. by rewrite drop_spill_absent, Hfi by by rewrite Hfi. }
  destruct (exists_ _ fs1).
  { intros [= <- <-] _. by rewrite drop_spill_absent, Hfi by by rewrite Hfi. }
  destruct (next_fault _) as [g fs2] eqn:Hg. apply next_fault_spec in Hg as (Hgi & _ & Hn2). simpl in *.
  destruct g as [g|].
  { intros [= <- <-] Hone. rewrite drop_spill_files by (simpl; lia). simpl.
    by rewrite Hgi, insert_insert_eq, delete_insert_id, Hfi by by rewrite Hfi. }
  destruct (next_fault _) as [h fs3] eqn:Hh. apply next_fault_spec in Hh as (Hhi & _ & Hn3). simpl in *.
  destruct h as [h|]; intros [= <- <-].
  - intros Hone. rewrite drop_spill_files by lia.
    by rewrite Hhi, Hgi, insert_insert_eq, delete_insert_id, Hfi by by rewrite Hfi.
  - by rewrite Hhi, Hgi, insert_insert_eq, Hfi.
Qed.

(** The files of a tree are in its directories. *)
Definition rooted (fs : Fs) : Prop := ∀ d name, is_Some (files fs !! (d ++ [name])) → d ∈ directories fs.

Lemma call_step {A} (op : Fs → option (A * Fs)) fs r fs' :
  call op fs = (r, fs') →
  ∃ fs1, files fs1 = files fs ∧ directories fs1 = directories fs ∧ (ones (faults fs1) <= ones (faults fs))%nat ∧
    match r with Ok a => op fs1 = Some (a, fs') | Err _ => fs' = fs1 end.
Proof.
  unfold call. destruct (next_fault fs) as [f fs1] eqn:Hf. apply next_fault_spec in Hf as (Hfi & Hd & Hn).
  intros H1. exists fs1. split_and!; [done|done|lia|].
  destruct f; [by injection H1 as <- <-|]. destruct (op fs1) as [[a fs2]|]; by injection H1 as <- <-.
Qed.
Lemma write_spill_spec self raw fs r fs' :
  rooted fs → write_spill self raw fs = (r, fs') →
  match r with
  | Ok s => spilled self raw s fs fs'
  | Err _ => (ones (faults fs) <= 1)%nat → files fs' = files fs
  end.
Proof.
  intros Hroot. unfold write_spill, mbind, SE_bind.
  destruct (canonical _ _ fs) as [[parent|e] fs1] eqn:H1;
    apply call_step in H1 as (g1 & Hf1 & Hd1 & Hn1 & H1); [|intros [= <- <-] _; congruence].
  destruct (canonicalize _) as [parent'|] eqn:Hparent; simpl in H1; [|done]. injection H1 as <- <-.
  assert (∃ g2 w, match work_dir self with Some p => mret p | None => get_current_dir current_dir end g1 = (w, g2) ∧
    files g2 = files fs ∧ directories g2 = directories fs ∧ (ones (faults g2) <= ones (faults fs))%nat ∧
    (∀ p, w = Ok p → p = default current_dir (work_dir self))) as (g2 & w & Hw & Hf2 & Hd2 & Hn2 & Hp).
  { destruct (work_dir self) as [p|].
    - exists g1, (Ok p). split_and!; [done..|]. by intros ? [= <-].
    - destruct (get_current_dir current_dir g1) as [w g2] eqn:H1.
      apply call_step in H1 as (g & Hf & Hd & Hn & H1). exists g2, w.
      destruct w as [p|e]; [injection H1 as <- <-|subst g2]; split_and!; try done; try congruence; try lia.
      by intros ? [= <-]. }
  rewrite Hw. destruct w as [w|e]; [|by intros [= <- <-]]. specialize (Hp w eq_refl) as ->.
  destruct (canonical _ _ g2) as [[work|e] g3] eqn:H3;
    apply call_step in H3 as (g3' & Hf3 & Hd3 & Hn3 & H3); [|intros [= <- <-] _; congruence].
  destruct (canonicalize (default current_dir _)) as [work'|] eqn:Hwork; simpl in H3; [|done]. injection H3 as <- <-.
  unfold starts_with_path. case_bool_decide as Hin; [intros [= <- <-] _; congruence|].
  destruct (read_random nonce g3') as [[n|e] g4] eqn:H4;
    apply call_step in H4 as (g4' & Hf4 & Hd4 & Hn4 & H4); [|intros [= <- <-] _; congruence].
  injection H4 as <- <-.
  destruct (create_dir _ g4') as [[u|e] g5] eqn:H5;
    apply call_step in H5 as (g5' & Hf5 & Hd5 & Hn5 & H5); [|intros [= <- <-] _; congruence].
  destruct (exists_ _ g5') eqn:Hex; [done|]. injection H5 as _ <-.
  set (s := mkSpill _ _).
  assert (files fs !! spill_path s = None) as Habsent.
  { destruct (files fs !! spill_path s) eqn:Hs; [|done]. unfold exists_ in Hex.
    apply orb_false_iff in Hex as [_ Hex%bool_decide_eq_false]. destruct Hex.
    replace (directories g5') with (directories fs) by congruence. apply (Hroot _ "output.txt"). by eexists. }
  assert (files g5' = files fs) as Hfiles by congruence.
  destruct (guarding s _ _) as [u2 g6] eqn:H6. apply guarding_spec in H6; [|cbn [files]; by rewrite Hfiles].
  cbn [files faults] in H6. rewrite Hfiles in H6. destruct u2 as [u2|e]; intros [= <- <-].
  - split_and!; [done..|]. exists parent', work'. split_and!; [done..|]. simpl. by rewrite <-app_assoc.
  - intros Hone. apply H6. lia.
Qed.

(** ** The processed output *)

(** The other parts in their order, and the text in the place of the first text. *)
Definition placed (content : list Content) (shown : bool) (text : list ascii) : list Content :=
  if bool_decide (is_Some (text_place content)) || shown
  then insert_part (default 0%nat (text_place content)) (Core.Text (of_bytes text)) (others content)
  else others content.
Definition budget_of (self : OutputPolicy) (cap : nat) : nat := cap - (if untrusted self then WRAPPER_BYTES else 0).

(** The line that tells where a spilled text is, when it leaves room for some of the text. *)
Definition notice (s : SpillFile) : list ascii :=
  newline :: bytes "[full output saved to " ++ bytes (display (spill_path s)) ++ bytes "]".
Definition hint (s : SpillFile) (budget : nat) : list ascii :=
  if (length (notice s) <? budget)%nat then notice s else [].
(** How the text of an output was made from its raw text. *)
Definition made (self : OutputPolicy) (writable : bool) (raw text : list ascii) (kept : option SpillFile) (fs fs' : Fs) : Prop :=
  match max_bytes self with
  | None => text = raw ∧ kept = None ∧ fs' = fs
  | Some cap =>
      let budget := budget_of self cap in
      if (length raw <=? budget)%nat then text = raw ∧ kept = None ∧ fs' = fs
      else
        match kept with
        | None => writable = false ∧ fs' = fs ∧ elided raw budget text
        | Some s => writable = true ∧ spilled self raw s fs fs' ∧
                    ∃ shortened, elided raw (budget - length (hint s budget)) shortened ∧ text = shortened ++ hint s budget
        end
  end.
(** What is shown of a text: an untrusted one is on lines of its own between the delimiters, unless
    it holds the first of them. *)
Definition framed (self : OutputPolicy) (text shown : list ascii) : Prop :=
  (untrusted self = true ∧ (∀ before after, text ≠ before ++ bytes BEGIN ++ after) ∧
   shown = bytes BEGIN ++ newline :: text ++ newline :: bytes END_)
  ∨ shown = text ∧ (untrusted self = true → ∃ before after, text = before ++ bytes BEGIN ++ after).

Lemma placed_item content text :
  match text_place content with
  | Some i => insert_part i (Core.Text (of_bytes text)) (others content)
  | None => others content
  end = placed content false text.
Proof. unfold placed. destruct (text_place content); [done|]. by rewrite bool_decide_eq_false_2 by by intros []. Qed.

Lemma length_wrap self text cap :
  (length text <= budget_of self cap)%nat →
  (length (wrap self text) <= (if untrusted self then max cap WRAPPER_BYTES else cap))%nat.
Proof.
  unfold budget_of, wrap. intros Hl. destruct (untrusted self); simpl andb; [|lia].
  destruct (negb _); [|lia]. rewrite !length_app, !length_bytes. unfold WRAPPER_BYTES in *. simpl length. lia.
Qed.
Lemma wrap_framed self text : framed self text (wrap self text).
Proof.
  unfold framed, wrap. destruct (untrusted self); cbn [andb]; [|by right].
  destruct (contains (bytes BEGIN) text) eqn:Hc; cbn [negb].
  - right. split; [done|]. intros _. by apply contains_spec.
  - left. split_and!; [done| |by rewrite <-?app_assoc]. intros before after Htext. apply not_true_iff_false in Hc.
    apply Hc, contains_spec. by exists before, after.
Qed.
Lemma made_bound self writable raw text kept fs fs' cap :
  made self writable raw text kept fs fs' → max_bytes self = Some cap → (length text <= budget_of self cap)%nat.
Proof.
  unfold made. intros Hmade Hcap. rewrite Hcap in Hmade. cbv zeta in Hmade.
  destruct (Nat.leb_spec (length raw) (budget_of self cap)); [by destruct Hmade as [-> _]|].
  destruct kept as [s|]; [|by destruct Hmade as (_ & _ & ?%elided_length)].
  destruct Hmade as (_ & _ & shortened & Hs%elided_length & ->). rewrite length_app.
  assert (length (hint s (budget_of self cap)) <= budget_of self cap)%nat; [|lia].
  unfold hint. destruct (Nat.ltb_spec (length (notice s)) (budget_of self cap)); [lia|apply Nat.le_0_l].
Qed.
Lemma hint_valid s budget : (∀ p, valid_utf8 (bytes (display p)) = true) → valid_utf8 (hint s budget) = true.
Proof.
  intros Hd. unfold hint. destruct (_ <? _)%nat; [|done]. apply (valid_utf8_app [newline]); [vm_compute; reflexivity|].
  apply valid_utf8_app; [vm_compute; reflexivity|]. apply valid_utf8_app; [apply Hd|vm_compute; reflexivity].
Qed.
Lemma made_valid self writable raw text kept fs fs' :
  (∀ p, valid_utf8 (bytes (display p)) = true) →
  made self writable raw text kept fs fs' → valid_utf8 raw = true → valid_utf8 text = true.
Proof.
  unfold made. intros Hd. destruct (max_bytes self) as [cap|]; [|by intros [-> _]]. cbv zeta.
  destruct (length raw <=? budget_of self cap)%nat; [by intros [-> _]|]. destruct kept as [s|].
  - intros (_ & _ & shortened & Hs & ->) Hv. apply valid_utf8_app; [by eapply elided_valid|by apply hint_valid].
  - intros (_ & _ & He) Hv. by eapply elided_valid.
Qed.
Lemma notice_text s :
  bytes (String newline "" +:+ "[full output saved to " +:+ display (spill_path s) +:+ "]") = notice s.
Proof. by rewrite !bytes_app. Qed.
Lemma fit_spec self raw writable fs r fs' :
  rooted fs → fit canonicalize temp_dir current_dir nonce display self raw writable fs = (r, fs') →
  match r with
  | Ok (text, kept) => made self writable raw text kept fs fs'
  | Err _ => writable = true ∧ ((ones (faults fs) <= 1)%nat → files fs' = files fs)
  end.
Proof.
  intros Hroot. unfold fit, made, budget_of.
  destruct (max_bytes self) as [cap|]; cbn [fmap option_fmap option_map]; [|by intros [= <- <-]].
  set (budget := cap - _). rewrite Nat.leb_antisym.
  destruct (budget <? length raw)%nat eqn:Hraw; cbn [negb]; [|by intros [= <- <-]].
  apply Nat.ltb_lt in Hraw. unfold mbind, SE_bind. destruct writable.
  - destruct (write_spill self raw fs) as [[s|e] fs1] eqn:Hs; apply write_spill_spec in Hs; [|done| |done].
    + intros [= <- <-]. split_and!; [done..|].
      exists (truncate_middle raw (budget - length (hint s budget))). split; [apply truncate_elided; lia|].
      unfold hint. by rewrite <-notice_text.
    + by intros [= <- <-].
  - intros [= <- <-]. split_and!; [done..|]. assert ((if (0 <? budget)%nat then [] else []) = @nil ascii) as Hnil by by destruct (_ <? _)%nat.
    simpl length. rewrite Hnil, app_nil_r. simpl. rewrite Nat.sub_0_r. by apply truncate_elided.
Qed.

(** C22: What becomes of a tool's output.  The parts that are not text are kept, in
    order; the text parts become one, in the place of the first; the flags stay.
    The text is the raw text when it is within the budget, and else what [elided] says: its start and
    its end around the mark, both as long as the budget and the bounds of characters let them be (only
    the start when the budget does not hold the mark), and then, when the text was spilled, the line that
    says where, if that fits.  It is always UTF-8.  The text shown of an untrusted output
    is between the delimiters unless it has the first of them, and is within the cap
    (or the length of the delimiters).  All of the raw text is in a new file outside
    of the working directory exactly when it did not fit and may be written; when
    that fails, once, no file has changed. *)
Theorem process_spec self out writable fs r fs' :
  rooted fs → process self out writable fs = (r, fs') →
  let raw := join_texts (omap text_of (output_content out)) in
  match r with
  | Ok p =>
      ∃ text shown,
        output p = mkToolOutput (placed (output_content out) (untrusted self) shown)
                     (is_error out) (should_pause out) ∧
        item_output p = mkToolOutput (placed (output_content out) false text) (is_error out) (should_pause out) ∧
        made self writable raw text (spill p) fs fs' ∧
        framed self text shown ∧
        ((∀ path, valid_utf8 (bytes (display path)) = true) → valid_utf8 raw = true → valid_utf8 text = true) ∧
        (∀ cap, max_bytes self = Some cap →
           (length shown <= (if untrusted self then max cap WRAPPER_BYTES else cap))%nat)
  | Err _ => writable = true ∧ ((ones (faults fs) <= 1)%nat → files fs' = files fs)
  end.
Proof.
  intros Hroot. cbv zeta. unfold process. rewrite collect_spec. unfold mbind, SE_bind.
  destruct (fit _ _ _ _ _ _ _ _ fs) as [[[text kept]|e] fs1] eqn:Hfit; apply fit_spec in Hfit; [|done| |done].
  - intros [= <- <-]. exists text, (wrap self text). simpl. rewrite placed_item.
    split_and!; [done|done|done|apply wrap_framed| |].
    + intros Hd Hv. by eapply made_valid.
    + intros cap Hcap. eapply length_wrap, made_bound; done.
  - by intros [= <- <-].
Qed.
End spills.

(** A long untrusted output with a picture, written to a spill; and the same when the
    file cannot be synced. *)
Definition demo_output : ToolOutput :=
  mkToolOutput [Core.Text "aaaaaaaaaaaaaaaaaaaa"; Image "uri" "image/png"; Core.Text "bbbbbbbbbbbbbbbbbbbbbbb"] false true.
Definition demo_spill (faults : list (option nat)) : Fs := mkFs ∅ {[ ["tmp"] ]} faults.
Lemma process_spec_witness :
  let run := process (λ p, Some p) ["tmp"] ["work"] "00" (λ p, "f") (mkOutputPolicy (Some 90%nat) true None None)
               demo_output true in
  is_ok (run (demo_spill [])).1 = true ∧
  files (run (demo_spill [])).2 !! ["tmp"; ".adk-output-00"; "output.txt"]
    = Some (bytes "aaaaaaaaaaaaaaaaaaaa" ++ [newline] ++ bytes "bbbbbbbbbbbbbbbbbbbbbbb") ∧
  is_ok (run (demo_spill [None; None; None; None; None; None; None; Some 0%nat])).1 = false ∧
  files (run (demo_spill [None; None; None; None; None; None; None; Some 0%nat])).2 = ∅.
Proof.
  split; [vm_compute; reflexivity|]. split; [vm_compute; reflexivity|]. split; [vm_compute; reflexivity|].
  set (fs := demo_spill _). assert (rooted fs) as Hroot by (intros d name [x Hx]; simpl in Hx; by rewrite lookup_empty in Hx).
  destruct (process _ _ _ _ _ _ _ _ fs) as [r fs'] eqn:Hrun.
  pose proof (process_spec _ _ _ _ _ _ _ _ _ _ _ Hroot Hrun) as H.
  destruct r as [p|e]; [vm_compute in Hrun; discriminate|]. simpl. destruct H as [_ H]. apply H.
  vm_compute. repeat constructor.
Defined.
