(* ===== verification/ShellBuffer.v ===== *)
(** * ShellBuffer: what is kept of a shell's output

    [adk-tools/src/shell_buffer.rs]: the start and the end of what a process wrote,
    within a cap, and what of it has not been read yet. *)

From stdpp Require Import pretty.
From S2P Require Import Prelude Text.
From S2P Require OutputProps.

Definition OMISSION : list ascii :=
  [ascii_of_N 10] ++ bytes "[output truncated: middle omitted]" ++ [ascii_of_N 10].

Record Buffer := mkBuffer {
  head : list ascii;
  tail : list ascii;
  total : N;
  cap : nat;
  capped : bool;
  lost : bool;
  unread_lost : bool;
  cursor : N;
  terminal : bool;
}.
Definition new (cap : nat) (terminal : bool) : Buffer := mkBuffer [] [] 0 cap false false false 0 terminal.

Definition append_tail (tail data : list ascii) (limit : nat) : list ascii :=
  if (limit <=? length data)%nat then drop (length data - limit) data
  else drop (length tail + length data - limit) tail ++ data.

Definition append (data : list ascii) (lost_now : bool) (self : Buffer) : Buffer :=
  let lost' := lost self || lost_now in
  let unread_lost' := unread_lost self || lost_now in
  let total' := saturating_add (total self) (N.of_nat (length data)) in
  if terminal self then
    mkBuffer (head self) (append_tail (tail self) data (cap self)) total' (cap self)
      (N.of_nat (cap self) <? total')%N lost' unread_lost' (cursor self) (terminal self)
  else if negb (capped self) && (length (head self) + length data <=? cap self)%nat then
    mkBuffer (head self ++ data) (tail self) total' (cap self) (capped self) lost' unread_lost'
      (cursor self) (terminal self)
  else
    let available := cap self - length OMISSION in
    let head_limit := available / 2 in
    let tail_limit := available - head_limit in
    let '(head', tail') :=
      if negb (capped self) then
        let cut := take head_limit (head self) in
        let keep := length data `min` (head_limit - length cut) in
        (cut ++ take keep data, append_tail (tail self) (head self) tail_limit)
      else (head self, tail self) in
    mkBuffer head' (append_tail tail' data tail_limit) total' (cap self) true lost' unread_lost'
      (cursor self) (terminal self).

(** [String::from_utf8_lossy]: each maximal part of a character that is cut short
    reads as U+FFFD. *)
Definition replacement : list ascii := ascii_of_N <$> [0xef; 0xbf; 0xbd]%N.
Fixpoint lossy (l : list ascii) : list ascii :=
  match l with
  | [] => []
  | a :: t =>
      if in_range 0 127 a then a :: lossy t
      else
        match t with
        | b :: u =>
            if lead2 a && cont b then a :: b :: lossy u
            else if lead3 a b then
              match u with
              | c :: v => if cont c then a :: b :: c :: lossy v else replacement ++ lossy u
              | [] => replacement
              end
            else if lead4 a b then
              match u with
              | c :: v =>
                  if cont c then
                    match v with
                    | d :: w => if cont d then a :: b :: c :: d :: lossy w else replacement ++ lossy v
                    | [] => replacement
                    end
                  else replacement ++ lossy u
              | [] => replacement
              end
            else replacement ++ lossy t
        | [] => replacement
        end
  end.

Definition full (self : Buffer) : string :=
  let bytes_ := head self ++ (if capped self && negb (terminal self) then OMISSION else []) ++ tail self in
  let out := of_bytes (lossy bytes_) in
  let out := if String.eqb out "" then "(no output yet)" else out in
  let out := if capped self then
    out +:+ String (ascii_of_N 10) ("[output truncated: " +:+ pretty (total self)
      +:+ " total bytes produced, response shows head/tail within the " +:+ pretty (N.of_nat (cap self))
      +:+ "-byte cap; the process was NOT terminated. Narrow the output instead of re-running unchanged: filter with grep, use head/tail, or write full output to a file and inspect ranges]")
    else out in
  if lost self then
    out +:+ String (ascii_of_N 10) "[some output exceeded the sandbox retention cap and was discarded; total bytes is a lower bound]"
  else out.

Definition source (self : Buffer) : list ascii := if capped self || terminal self then tail self else head self.
Definition consume (self : Buffer) : (string * bool) * Buffer :=
  let new := saturating_sub (total self) (cursor self) in
  let keep := length (source self) `min` N.to_nat new in
  let gap := unread_lost self || (N.of_nat (length (source self)) <? new)%N in
  (of_bytes (lossy (drop (length (source self) - keep) (source self))), gap,
   mkBuffer (head self) (tail self) (total self) (cap self) (capped self) (lost self) false (total self) (terminal self)).

Definition terminal_limit (out : string) : string :=
  let b := bytes out in
  if (N.of_nat (length b) <=? 10000)%N then out
  else of_bytes (lossy (take (N.to_nat 5000) b))
    +:+ String (ascii_of_N 10) ("[... output limited to 10000 bytes; " +:+ pretty (N.of_nat (length b) - 10000)%N
      +:+ " interior bytes omitted ...]" +:+ String (ascii_of_N 10) "")
    +:+ of_bytes (lossy (drop (length b - N.to_nat 5000) b)).

(** What is done with a buffer. *)
Inductive BufferOp := Append (data : list ascii) (lost_now : bool) | Consume.
Definition apply_op (b : Buffer) (op : BufferOp) : Buffer :=
  match op with Append data lost_now => append data lost_now b | Consume => (consume b).2 end.
Definition run (ops : list BufferOp) (b : Buffer) : Buffer := foldl apply_op b ops.

(** ** What was written, and what of it since the last read *)

Definition written (ops : list BufferOp) : list ascii :=
  ops ≫= λ op, match op with Append data _ => data | Consume => [] end.
Definition note (acc : list ascii * bool) (op : BufferOp) : list ascii * bool :=
  match op with Append data l => (acc.1 ++ data, acc.2 || l) | Consume => ([], false) end.
Definition unread (ops : list BufferOp) : list ascii * bool := foldl note ([], false) ops.
Definition last_n (n : nat) (l : list ascii) : list ascii := drop (length l - n) l.

(** ** Lemmas *)

Lemma length_last_n n l : length (last_n n l) = n `min` length l.
Proof. unfold last_n. rewrite length_drop. lia. Qed.
Lemma last_n_short n l : (length l <= n)%nat → last_n n l = l.
Proof. intros Hl. unfold last_n. replace (length l - n)%nat with 0%nat by lia. apply drop_0. Qed.
Lemma last_n_app_long n l k : (n <= length k)%nat → last_n n (l ++ k) = last_n n k.
Proof.
  intros Hn. unfold last_n. rewrite length_app, drop_app_ge by lia. f_equal. lia.
Qed.
Lemma last_n_app_short n l k : (length k <= n)%nat → last_n n (l ++ k) = last_n (n - length k) l ++ k.
Proof.
  intros Hn. unfold last_n. rewrite length_app, drop_app_le by lia. do 2 f_equal. lia.
Qed.
Lemma last_n_last_n m n l : (m <= n)%nat → last_n m (last_n n l) = last_n m l.
Proof.
  intros Hm. unfold last_n. rewrite drop_drop, length_drop. f_equal. lia.
Qed.
Lemma append_tail_spec l data n : append_tail (last_n n l) data n = last_n n (l ++ data).
Proof.
  unfold append_tail. destruct (Nat.leb_spec n (length data)).
  - by rewrite last_n_app_long.
  - rewrite last_n_app_short by lia. f_equal. rewrite <-(last_n_last_n (n - length data) n) by lia.
    unfold last_n at 3. f_equal. rewrite length_last_n. lia.
Qed.

(** The shares of the cap. *)
Definition head_share (cap : nat) : nat := (cap - length OMISSION) / 2.
Definition tail_share (cap : nat) : nat := cap - length OMISSION - head_share cap.

(** The last bytes that a read can still reach, after [n] bytes were written. *)
Definition window (cap : nat) (terminal : bool) (n : nat) : nat :=
  if terminal then cap else if (n <=? cap)%nat then cap else tail_share cap.

(** The lead bytes of the lengths are disjoint. *)
Lemma in_range_disjoint lo hi lo' hi' a : (hi < lo' ∨ hi' < lo)%N → in_range lo' hi' a = true → in_range lo hi a = false.
Proof.
  unfold in_range. rewrite andb_true_iff, andb_false_iff, !N.leb_le, !N.leb_gt. lia.
Qed.
Lemma in_range_ascii_lead2 a : lead2 a = true → in_range 0 127 a = false.
Proof. apply in_range_disjoint. lia. Qed.
Lemma lead3_first a b : lead3 a b = true → in_range 0 127 a = false ∧ lead2 a = false.
Proof.
  unfold lead3, lead2. rewrite !orb_true_iff, !andb_true_iff.
  intros [[[[H _]|[H _]]|[H _]]|[H _]]; (split; [|]); (eapply in_range_disjoint; [|exact H]; lia).
Qed.
Lemma lead4_first a b : lead4 a b = true → in_range 0 127 a = false ∧ lead2 a = false ∧ lead3 a b = false.
Proof.
  unfold lead4, lead3, lead2. rewrite !orb_true_iff, !andb_true_iff, !orb_false_iff, !andb_false_iff.
  intros [[[H _]|[H _]]|[H _]]; split_and!; try left; (eapply in_range_disjoint; [|exact H]; lia).
Qed.
(** Nothing is replaced in a text that is UTF-8. *)
Lemma lossy_char ch rest : OutputProps.one_char ch = true → lossy (ch ++ rest) = ch ++ lossy rest.
Proof.
  destruct ch as [|a [|b [|c [|d [|]]]]]; try done; cbn [OutputProps.one_char app lossy]; intros Hc.
  - by rewrite Hc.
  - rewrite Hc. apply andb_true_iff in Hc as [Ha%in_range_ascii_lead2 _]. by rewrite Ha.
  - apply andb_true_iff in Hc as [Hab Hc]. destruct (lead3_first a b Hab) as [-> ->]. by rewrite Hab, Hc.
  - apply andb_true_iff in Hc as [[Hab Hc]%andb_true_iff Hd]. destruct (lead4_first a b Hab) as (-> & -> & ->). by rewrite Hab, Hc, Hd.
Qed.
Lemma lossy_valid l : valid_utf8 l = true → lossy l = l.
Proof.
  remember (length l) as n eqn:Hn. revert l Hn. induction n as [n IH] using lt_wf_ind. intros l -> Hv.
  apply OutputProps.valid_utf8_cons in Hv as [->|(ch & rest & -> & Hc & Hr)]; [done|].
  rewrite lossy_char by done. f_equal. eapply IH; [|done..]. rewrite length_app. destruct ch; [done|simpl; lia].
Qed.

(** The buffer after [s] was written, [u] of it (with a loss, or not) since the last
    read. *)
Definition holds (c : nat) (t : bool) (s u : list ascii) (l : bool) (b : Buffer) : Prop :=
  cap b = c ∧ terminal b = t ∧ total b = N.of_nat (length s) ∧ unread_lost b = l ∧
  (∃ read, s = read ++ u ∧ cursor b = N.of_nat (length read)) ∧
  if t then head b = [] ∧ tail b = last_n c s ∧ capped b = (c <? length s)%nat
  else if (length s <=? c)%nat then head b = s ∧ tail b = [] ∧ capped b = false
  else head b = take (head_share c) s ∧ tail b = last_n (tail_share c) s ∧ capped b = true.

Lemma holds_new c t : holds c t [] [] false (new c t).
Proof.
  split_and!; [done..| |].
  - by exists [].
  - destruct t; simpl; [|done]. unfold last_n. simpl. split_and!; [done|done|]. by destruct c.
Qed.
Lemma holds_append c t s u l b data lost_now :
  (N.of_nat (length s + length data) <= u64_max)%N →
  holds c t s u l b → holds c t (s ++ data) (u ++ data) (l || lost_now) (append data lost_now b).
Proof.
  intros Hmax (Hc & Ht & Htot & Hu & (read & Hs & Hcur) & Hb).
  assert (saturating_add (total b) (N.of_nat (length data)) = N.of_nat (length (s ++ data))) as Hsat
    by (unfold saturating_add; rewrite length_app, Htot; lia).
  unfold append. rewrite Hsat, Hc, Ht.
  destruct t; [|destruct (negb (capped b) && _)%nat eqn:Hfits; [|destruct (if negb (capped b) then _ else _) as [h' t'] eqn:Hcut]].
  - destruct Hb as (Hh & Htl & Hcap). split_and!; simpl; [done..|by rewrite Hu| | | |].
    + exists read. by rewrite Hs, app_assoc.
    + done.
    + rewrite Htl. apply append_tail_spec.
    + apply eq_true_iff_eq. rewrite N.ltb_lt, Nat.ltb_lt. lia.
  - apply andb_true_iff in Hfits as [Hncap%negb_true_iff Hle%Nat.leb_le]. rewrite Hncap in Hb.
    destruct (Nat.leb_spec (length s) c); [|naive_solver]. destruct Hb as (Hh & Htl & _). rewrite Hh in Hle.
    split_and!; simpl; [done..|by rewrite Hu| |].
    + exists read. by rewrite Hs, app_assoc.
    + rewrite length_app, (proj2 (Nat.leb_le _ _) Hle). by rewrite Hh, Htl, Hncap.
  - fold (head_share c) in *. fold (tail_share c) in *.
    assert (c < length (s ++ data))%nat as Hover.
    { rewrite length_app. destruct (Nat.leb_spec (length s) c); [|lia]. destruct Hb as (Hh & _ & Hn).
      rewrite Hn, Hh in Hfits. simpl in Hfits. apply Nat.leb_gt in Hfits. lia. }
    assert (h' = take (head_share c) (s ++ data) ∧ t' = last_n (tail_share c) s) as [-> ->].
    { destruct (Nat.leb_spec (length s) c); destruct Hb as (Hh & Htl & Hn); rewrite Hn in Hcut; simpl in Hcut;
        injection Hcut as <- <-; rewrite Hh, Htl; split.
      - rewrite take_app. f_equal. rewrite length_take. 
        destruct (Nat.le_gt_cases (head_share c) (length s)).
        + replace (head_share c - length s)%nat with 0%nat by lia.
          replace (_ `min` _)%nat with 0%nat by lia. by rewrite !take_0.
        + replace (head_share c `min` length s)%nat with (length s) by lia.
          destruct (Nat.le_gt_cases (length data) (head_share c - length s)).
          * rewrite Nat.min_l, take_ge, (take_ge data) by lia. done.
          * by rewrite Nat.min_r by lia.
      - replace [] with (last_n (tail_share c) []) by done. apply append_tail_spec.
      - rewrite take_app_le; [done|]. unfold head_share.
        pose proof (Nat.Div0.div_le_upper_bound (c - length OMISSION) 2 (c - length OMISSION)). lia.
      - done. }
    split_and!; simpl; [done..|by rewrite Hu| |].
    + exists read. by rewrite Hs, app_assoc.
    + rewrite (proj2 (Nat.leb_gt _ _) Hover). split_and!; [done| |done]. apply append_tail_spec.
Qed.
Lemma holds_consume c t s u l b : holds c t s u l b → holds c t s [] false (consume b).2.
Proof.
  intros (Hc & Ht & Htot & Hu & (read & Hs & Hcur) & Hb). split_and!; [done..| |exact Hb].
  exists s. by rewrite app_nil_r.
Qed.

Lemma written_app ops ops' : written (ops ++ ops') = written ops ++ written ops'.
Proof. apply bind_app. Qed.
Lemma run_holds c t ops :
  (N.of_nat (length (written ops)) <= u64_max)%N →
  holds c t (written ops) (unread ops).1 (unread ops).2 (run ops (new c t)).
Proof.
  induction ops as [|op ops IH] using rev_ind; [intros _; apply holds_new|].
  unfold run, unread. rewrite !foldl_snoc, written_app. fold (run ops (new c t)) (unread ops).
  intros Hmax. rewrite length_app in Hmax. destruct op as [data l|]; simpl in *; rewrite app_nil_r in *.
  - apply holds_append; [done|]. apply IH. lia.
  - eapply holds_consume, IH. simpl in Hmax. lia.
Qed.

(** C28: A buffer keeps its cap, and loses nothing silently.  While what was written
    fits, all of it is kept; then its first and its last bytes are, each as the share
    of the cap says (of a terminal, its last [cap] bytes).  A read gives all that
    was written since the last read when the buffer still reaches back to it ([window]), the same
    bytes when they are UTF-8, and else the last bytes the buffer has; it reports a gap
    exactly when that is not all of it, or something was lost before it came to the buffer. *)
Theorem buffer_spec c t ops :
  (N.of_nat (length (written ops)) <= u64_max)%N →
  let s := written ops in
  let '(u, l) := unread ops in
  let b := run ops (new c t) in
  (length (head b) + length (tail b) + (if capped b && negb t then length OMISSION else 0) <= max c (length OMISSION))%nat ∧
  head b ++ tail b = (if t then last_n c s else if (length s <=? c)%nat then s
                      else take (head_share c) s ++ last_n (tail_share c) s) ∧
  (consume b).1 = (of_bytes (lossy (last_n (window c t (length s)) u)), l || (window c t (length s) <? length u)%nat) ∧
  (valid_utf8 u = true → (consume b).1.2 = false → (consume b).1.1 = of_bytes u).
Proof.
  intros Hmax s. pose proof (run_holds c t ops Hmax) as Hrun. fold s in Hrun.
  destruct (unread ops) as [u l]. simpl in Hrun. set (b := run ops (new c t)) in *.
  destruct Hrun as (Hc & Ht & Htot & Hu & (read & Hs & Hcur) & Hb).
  set (w := window c t (length s)). assert (source b = last_n w s) as Hsource.
  { unfold source, w, window. rewrite Ht. destruct t; [rewrite orb_true_r; by destruct Hb as (_ & ? & _)|].
    rewrite orb_false_r. destruct (Nat.leb_spec (length s) c); destruct Hb as (Hh & Htl & ->); [|done].
    by rewrite last_n_short. }
  assert ((consume b).1 = (of_bytes (lossy (last_n w u)), l || (w <? length u)%nat)) as Hread.
  { assert (length u <= length s)%nat as Hus by (rewrite Hs, length_app; lia).
    assert (saturating_sub (total b) (cursor b) = N.of_nat (length u)) as Hnew.
    { unfold saturating_sub. rewrite Htot, Hcur, Hs, length_app. lia. }
    unfold consume. rewrite Hnew, Hu, Hsource, Nat2N.id. cbn [fst]. f_equal.
    - do 2 f_equal. fold (last_n (length (last_n w s) `min` length u) (last_n w s)).
      rewrite last_n_last_n, length_last_n by (rewrite length_last_n; lia).
      rewrite Hs at 2. rewrite last_n_app_long by lia. destruct (Nat.le_gt_cases (length u) w).
      + rewrite !last_n_short by lia. done.
      + f_equal. lia.
    - f_equal. rewrite length_last_n. apply eq_true_iff_eq. rewrite N.ltb_lt, Nat.ltb_lt. lia. }
  split_and!; [| |done|].
  - destruct t.
    { destruct Hb as (-> & -> & _). rewrite andb_false_r, length_last_n. simpl. lia. }
    destruct (Nat.leb_spec (length s) c); destruct Hb as (-> & -> & ->); simpl andb; cbv iota; [simpl length; lia|].
    rewrite length_take, length_last_n. unfold tail_share, head_share.
    pose proof (Nat.Div0.div_le_upper_bound (c - length OMISSION) 2 (c - length OMISSION)). lia.
  - destruct t; [by destruct Hb as (-> & -> & _)|].
    destruct (length s <=? c)%nat; destruct Hb as (-> & -> & _); by rewrite ?app_nil_r.
  - rewrite Hread. cbn [fst snd]. intros Hv [_ Hgap%Nat.ltb_ge]%orb_false_iff.
    by rewrite last_n_short, lossy_valid.
Qed.

Lemma buffer_spec_witness :
  let ops := [Append (bytes "first") false; Consume; Append (replicate 60 "x"%char) false; Append (bytes "last") false] in
  let b := run ops (new 50 false) in
  (consume (run [Append (bytes "first") false; Consume; Append (bytes "more") false] (new 50 false))).1 = ("more", false) ∧
  (consume b).1.2 = true ∧ of_bytes (head b ++ tail b) = "firstxxxxxlast" ∧
  (length (head b) + length (tail b) + length OMISSION <= 50)%nat.
Proof.
  do 3 (split; [vm_compute; reflexivity|]).
  destruct (buffer_spec 50 false [Append (bytes "first") false; Consume; Append (replicate 60 "x"%char) false;
    Append (bytes "last") false] ltac:(vm_compute; discriminate)) as [H _].
  apply H.
Defined.
